(* ===== verification/_CoqProject ===== *)
-Q . S2P
Prelude.v
Buffer.v
Resp.v
Glob.v
UnorderedMap.v
Store.v
Keyspace.v
StoreScan.v
StoreRefinement.v
Stats.v
StatsTheorems.v
Commands.v
CommandSpec.v
CommandTheorems.v
Dispatch.v
Handler.v
Rdb.v
RdbCrc.v
RdbTheorems.v
Encode.v
Requests.v
Files.v
Aof.v
AofTheorems.v
AofRewrite.v
Recovery.v
RdbFile.v
Persistence.v
PersistenceTheorems.v
Journal.v
Replication.v
ReplicaLink.v
ReplicaLinkTheorems.v
ReplicationTheorems.v
Server.v
PollServer.v
AsioServer.v
Steps.v
MasterStream.v
ServerLinks.v
PollTheorems.v
AsioTheorems.v
Main.v
Durable.v
Invariant.v
Tools.v
