(* ===== verification/Prelude.v ===== *)
(** * redis-plus: a verification development

    redis-plus is a single-threaded key-value server that speaks the Redis
    protocol.  A backend (poll or asio) reads bytes from its connections into a
    buffer per connection; [RespHandler] frames requests and runs them through
    the command table; commands act on the [Store], a table of values with a
    second table of deadlines; a command that changed the keyspace is handed, in
    a canonical form with absolute deadlines, to one hook with two consumers:
    [Persistence], which logs it in an append-only file (AOF) and takes
    snapshots (RDB), and [Replication], which sends it to every replica.  A
    replica has a thread that reads this stream and posts tasks to the event
    loop.  This library models all of these parts, from the bytes on a socket to
    the bytes on a disk, and proves what they promise.

    ** Files, and the code they model (under src/)

    - Prelude: bytes, decimal numbers, 64-bit arithmetic, the monad of outcomes,
      tactics and hints.
    - Buffer: include/rp/buffer.hpp.
    - Resp, Glob: include/rp/resp.hpp and src/resp.cpp, parser, replies, glob
      patterns.
    - UnorderedMap: the interface of the standard hash table, with an instance.
    - Store: include/rp/store.hpp and src/store.cpp.  Keyspace is the abstract
      keyspace and the view of a store at a time; StoreScan has the operations
      that walk the tables; StoreRefinement the refinement.
    - Stats, StatsTheorems: include/rp/stats.hpp and src/stats.cpp, with the
      atomic steps of [on_connect].
    - Commands: include/rp/commands.hpp and src/commands.cpp.  CommandSpec says
      what the effect of a propagated command is; CommandTheorems specifies
      single commands; Dispatch the whole table.
    - Handler: [RespHandler] of src/commands.cpp, and src/handler.cpp.
    - Rdb, RdbCrc, RdbTheorems, RdbFile: include/rp/rdb.hpp and src/rdb.cpp.
    - Encode, Aof, AofTheorems, AofRewrite: include/rp/aof.hpp and src/aof.cpp;
      the last has the rewrite, step by step.  Files is the model of named files
      with a synced part.
    - Requests: what the parser lets through can be encoded again, and so can
      what is propagated for it.
    - Recovery: replaying logs of propagated commands.
    - Persistence, PersistenceTheorems: include/rp/persistence.hpp and
      src/persistence.cpp, with the steps of the background saver.  Journal
      says what each operation of it does to the log.
    - Replication, ReplicaLink, ReplicaLinkTheorems, ReplicationTheorems:
      include/rp/replication.hpp and src/replication.cpp; the first has the
      master and the event-loop side of a replica, the second its thread.
    - Server: the state of the whole program ([Server]), the wiring of
      src/main.cpp, and the class [Backend], which says what an event loop
      promises to the rest (include/rp/server.hpp, include/rp/handler.hpp).
    - PollServer, PollTheorems: src/poll_server.cpp.
    - AsioServer, AsioTheorems: src/asio_server.cpp.
    - Steps: the server as a sequence of atomic steps, and the class [EventLoop]:
      every run of either loop is a trace of such steps, so that what holds of
      the traces holds with both.
    - MasterStream, ServerLinks: theorems on the program, for any backend.
    - Main: src/main.cpp and src/server.cpp, command line, start, output and end.
    - Durable: what a server that was killed, or has ended, comes back with.
    - Invariant: the store is well-formed in every state of the program.
    - Tools: fuzz/resp_fuzz.cpp and bench/conn_scale.cpp.

    ** How the code is modelled

    A class is a record with the source's fields and a function per method; the
    names are the source's, with a prefix where two classes share one.  A
    function that reads or writes state takes and returns it.  Operations that
    are called with a pointer to another object are functions on any state that
    has this object (the classes [ServerState], [PersistState] and
    [ReplicationState]); the command table sees persistence and replication
    through records of operations, as through the abstract classes of the code,
    and relies on laws that are proved of the implementations.

    [outcome] is the result of a computation: [Ret], [Undefined] for undefined
    behaviour (signed overflow, an access out of bounds, a dangling pointer, a
    container changed while it is iterated), [NoFuel] when the fuel of a loop ran
    out.  Unsigned arithmetic wraps ([wrap64]), signed arithmetic is checked
    ([checked64]).  Failures the code reports are options, sums or error texts.

    What comes from outside is an argument: each reading of a clock, each result
    of a system call, the chunks a socket delivers, which file operation
    succeeds and how much of a write, a flush or a close gets to the file.
    Theorems hold for all of them, or say which failures they exclude: [healthy]
    and [faultless] (Journal, Durable) are the conditions under which the log is
    complete.  Threads are step relations: the saver may be anywhere in
    [rdb_save_file] while the loop runs, the replication thread is the sequence
    of its effects, and the states a server can reach interleave them.

    ** What the theorems show

    - Parsing: a request that was accepted is the same whatever follows it, and
      requests run the same however the stream is cut as long as no cut makes a
      protocol error (one can: [parse_request_header_split]); the parser never
      consumes what it has not got, [encode] is read back exactly; [on_data]
      terminates and runs exactly the requests of the buffer; glob patterns have
      one reading each, and the matcher decides what it denotes.
    - Keyspace: any sequence of store calls refines an abstract map with
      deadlines; commands tell the truth about what they changed, and what they
      propagate has exactly that effect on any server that agrees.
    - Durability: RDB round trip, checksum and bounds; what a crash or a power
      cut leaves of the log replays to a prefix; a rewrite, a SAVE, a BGSAVE
      under concurrent writes and a restart give back the keyspace.  A server
      with the log on that is killed between two steps of a run of either loop,
      or in the middle of one, comes back with a state it has been in, and one
      that has ended with its last, if its files took what was written and no
      deadline has passed by the restart; except that a kill in the middle of a
      rewrite can leave no log, and then the server comes back empty.  A start
      that fails leaves the files as they are.
    - Replication: a cluster converges, from the handshake to the replica's
      keyspace, for both backends, as long as commands about deadlines reach
      their keys alive; a replica is read-only.
    - Event loops: what is read is framed and executed in order, from the state
      the loop is in and to a state that is determined; output is a queue, of
      which exactly what the kernel accepts is removed; no session is stuck, the
      asio context never runs out of work until it is stopped, and no pointer to
      a connection dangles with poll; connection counters are exact under
      interleaving; the command line is read back.
    - Program: from any start, the two tables of the store agree in every state.
    - Tools: the fuzz target never traps; the report of the connection scaler
      adds up.
    - Defects: theorems that exhibit undefined or lossy behaviour, where the
      code has it, say so in their comments.

    ** Fuel and bounds

    [on_data], the ping handler, the replay of a log and the stream of a replica
    consume at least a byte per turn; their fuel is the number of bytes and one
    more, and they are shown not to run out.  [glob_match] has the fuel of its
    termination theorem, (|string|+2)(|pattern|+1)+1.  The saver thread has at
    most six steps, a rewrite of the log five.  [rdb_parse] takes its fuel as an argument because it can
    loop forever on a crafted file; the length of the payload is enough for
    every payload without the marker of a 64-bit length, and for every snapshot
    this program writes.  Loops over results of system calls recur on the list
    of results.

    ** Not modelled

    Socket options, the conversion of addresses to and from text, the scheduler
    of asio beyond the order of its events, memory exhaustion, the generator
    behind the random replication id (its picks are an argument), the sleeps
    between connection attempts of the replication thread, and the text in which
    the connection scaler prints its numbers.  An exception that leaves [run] is
    met between two turns of the loop, where the handler of [main] sees it; what
    a handler of the loop has done before it throws is not cut short.  What the
    destructors do after the end of [main] is left out: the handler and the
    replication own each other, so that only [Persistence] after a failed start
    is destroyed, which is modelled.
    The methods that only return a field are the fields of the records. *)

From Stdlib Require Export Strings.Byte.
From stdpp Require Export prelude strings fin_maps gmap list.
#[global] Open Scope Z_scope.
#[global] Arguments Byte.eqb : simpl never.

(** ** Bytes

    C++ [char]s and [std::uint8_t]s are [Byte.byte]; [u8] is the value of a
    byte read as an unsigned 8-bit integer and [byte_of_Z] the narrowing
    conversion, which keeps the low eight bits. *)

Abbreviation byte := Byte.byte.
Abbreviation bytes := (list Byte.byte).

Definition u8 (c : byte) : Z := Z.of_N (Byte.to_N c).

Definition byte_of_Z (z : Z) : byte :=
  match Byte.of_N (Z.to_N (z mod 256)) with Some c => c | None => x00 end.

(** The value of a plain [char] in an ordered comparison: [char] is signed on
    the platform the README names (GCC on x86-64). *)
Definition schar (c : byte) : Z := if u8 c <? 128 then u8 c else u8 c - 256.

Definition bs (s : string) : bytes := String.list_byte_of_string s.

#[global] Instance byte_eq_dec : EqDecision byte.
Proof.
  refine (λ x y, match Byte.eqb x y as b return Byte.eqb x y = b → Decision (x = y) with
                 | true => λ H, left (byte_dec_bl x y H)
                 | false => λ H, right (Byte.eqb_false H)
                 end eq_refl).
Defined.

#[global] Program Instance byte_countable : Countable byte := {|
  encode c := N.succ_pos (Byte.to_N c);
  decode p := Byte.of_N (Pos.pred_N p)
|}.
Next Obligation. by intros []. Qed.

(** Equality of strings, as [operator==]. *)
Definition beq (a b : bytes) : bool := bool_decide (a = b).

Definition size (s : bytes) : Z := Z.of_nat (length s).

(** [std::string_view::substr]; every caller keeps [pos] in range, and a
    count that runs past the end is clamped, as in the standard library. *)
Definition substr (s : bytes) (pos n : nat) : bytes := take n (drop pos s).

Definition CR : byte := x0d.
Definition LF : byte := x0a.
Definition crlf : bytes := [CR; LF].

(** [s.find(CRLF)], and [s.find(CRLF, pos)]; [None] is [npos]. *)
Fixpoint find_crlf (s : bytes) : option nat :=
  match s with
  | [] => None
  | c1 :: s' =>
      match s' with
      | [] => None
      | c2 :: _ =>
          if Byte.eqb c1 CR && Byte.eqb c2 LF then Some 0%nat
          else S <$> find_crlf s'
      end
  end.

Definition find_crlf_from (s : bytes) (pos : nat) : option nat :=
  Nat.add pos <$> find_crlf (drop pos s).

(** ** Character classes of <cctype>, in the "C" locale *)

Definition isdigit (c : byte) : bool := (48 <=? u8 c) && (u8 c <=? 57).

Definition isspace (c : byte) : bool :=
  (u8 c =? 32) || ((9 <=? u8 c) && (u8 c <=? 13)).

Definition toupper (c : byte) : byte :=
  if (97 <=? u8 c) && (u8 c <=? 122) then byte_of_Z (u8 c - 32) else c.

(** ** Machine integers

    Values of [std::int64_t] and [std::uint64_t] are integers in the ranges
    below.  Unsigned arithmetic wraps ([wrap64]); signed arithmetic that leaves
    the range is undefined behaviour, which the model makes an outcome. *)

Definition int64_max : Z := 9223372036854775807.
Definition int64_min : Z := -9223372036854775808.
Definition in_int64 (z : Z) : bool := (int64_min <=? z) && (z <=? int64_max).
Definition wrap64 (z : Z) : Z := z mod 2 ^ 64.

(** The two's-complement reading of an n-bit pattern, as [static_cast] to a
    signed type of that width. *)
Definition to_signed (bits : Z) (z : Z) : Z :=
  let u := z mod 2 ^ bits in if u <? 2 ^ (bits - 1) then u else u - 2 ^ bits.

(** ** Outcomes

    [Ret] is normal completion.  [Undefined] is a step the C++ standard gives
    no meaning to (signed overflow, use of an invalidated iterator).  [NoFuel]
    marks a loop cut off by the model's fuel, so that running out of fuel is
    never mistaken for a result. *)

Inductive outcome (A : Type) : Type :=
| Ret (a : A)
| Undefined
| NoFuel.
Arguments Ret {A} _.
Arguments Undefined {A}.
Arguments NoFuel {A}.

#[global] Instance outcome_ret : MRet outcome := λ A a, Ret a.
#[global] Instance outcome_bind : MBind outcome := λ A B f m,
  match m with Ret a => f a | Undefined => Undefined | NoFuel => NoFuel end.
#[global] Instance outcome_fmap : FMap outcome := λ A B f m,
  match m with Ret a => Ret (f a) | Undefined => Undefined | NoFuel => NoFuel end.

Definition defined {A} (m : outcome A) : Prop := ∃ a, m = Ret a.

Definition checked64 (z : Z) : outcome Z :=
  if in_int64 z then Ret z else Undefined.

Definition add64 (a b : Z) : outcome Z := checked64 (a + b).
Definition sub64 (a b : Z) : outcome Z := checked64 (a - b).
Definition mul64 (a b : Z) : outcome Z := checked64 (a * b).

(** ** Decimal printing: [std::to_string] *)

Definition digit_char (d : Z) : byte := byte_of_Z (48 + d).

Fixpoint dec_digits (fuel : nat) (n : Z) (acc : bytes) : bytes :=
  match fuel with
  | O => acc
  | S fuel' =>
      let acc' := digit_char (n mod 10) :: acc in
      if n <? 10 then acc' else dec_digits fuel' (n / 10) acc'
  end.

(** A number has no more decimal digits than binary ones, so the fuel below
    is never exhausted ([dec_value_nonneg]). *)
Definition dec_nonneg (n : Z) : bytes :=
  dec_digits (S (Z.to_nat (Z.log2 n))) n [].

Definition to_string (z : Z) : bytes :=
  if z <? 0 then bs "-" ++ dec_nonneg (- z) else dec_nonneg z.

(** The number a string of digits denotes. *)
Definition dec_value (ds : bytes) : Z :=
  foldl (λ v c, v * 10 + (u8 c - 48)) 0 ds.

(** ** Automation *)

Create HintDb redis.

(** Split the conditionals of a definition, keeping their equations. *)
Ltac split_if :=
  match goal with
  | |- context [if ?b then _ else _] => destruct b eqn:?
  | H : context [if ?b then _ else _] |- _ => destruct b eqn:?
  end.

Ltac split_match :=
  match goal with
  | |- context [match ?x with _ => _ end] => destruct x eqn:?
  | H : context [match ?x with _ => _ end] |- _ => destruct x eqn:?
  end.

(** Turn the boolean tests of the code into propositions. *)
Ltac breflect :=
  repeat match goal with
  | H : (_ && _) = true |- _ => apply andb_true_iff in H as [? ?]
  | H : (_ && _) = false |- _ => apply andb_false_iff in H
  | H : (_ || _) = false |- _ => apply orb_false_iff in H as [? ?]
  | H : (_ || _) = true |- _ => apply orb_true_iff in H
  | H : negb _ = true |- _ => apply negb_true_iff in H
  | H : negb _ = false |- _ => apply negb_false_iff in H
  | H : (_ <? _) = true |- _ => apply Z.ltb_lt in H
  | H : (_ <? _) = false |- _ => apply Z.ltb_ge in H
  | H : (_ <=? _) = true |- _ => apply Z.leb_le in H
  | H : (_ <=? _) = false |- _ => apply Z.leb_gt in H
  | H : (_ =? _) = true |- _ => apply Z.eqb_eq in H
  | H : (_ =? _) = false |- _ => apply Z.eqb_neq in H
  | H : bool_decide _ = true |- _ => apply bool_decide_eq_true in H
  | H : bool_decide _ = false |- _ => apply bool_decide_eq_false in H
  end.

(** ** Lemmas on outcomes *)

Lemma bind_Ret {A B} (f : A → outcome B) (m : outcome A) (b : B) :
  m ≫= f = Ret b ↔ ∃ a, m = Ret a ∧ f a = Ret b.
Proof. destruct m; cbn; naive_solver. Qed.

Lemma checked64_Ret z z' : checked64 z = Ret z' ↔ in_int64 z = true ∧ z' = z.
Proof. unfold checked64. split_if; naive_solver. Qed.

Lemma in_int64_spec z : in_int64 z = true ↔ int64_min ≤ z ≤ int64_max.
Proof. unfold in_int64. rewrite andb_true_iff, !Z.leb_le. done. Qed.

(** ** Lemmas on bytes *)

Lemma u8_range c : 0 ≤ u8 c < 256.
Proof.
  unfold u8. pose proof (Byte.to_N_bounded c). lia.
Qed.

Lemma u8_byte_of_Z z : u8 (byte_of_Z z) = z mod 256.
Proof.
  unfold u8, byte_of_Z.
  pose proof (Z.mod_pos_bound z 256 ltac:(lia)) as Hz.
  destruct (Byte.of_N (Z.to_N (z mod 256))) as [c|] eqn:E.
  - apply Byte.to_of_N in E. lia.
  - apply Byte.of_N_None_iff in E. lia.
Qed.

Lemma u8_byte_of_Z_small z : 0 ≤ z < 256 → u8 (byte_of_Z z) = z.
Proof. intros. rewrite u8_byte_of_Z. apply Z.mod_small. lia. Qed.

Lemma byte_of_Z_u8 c : byte_of_Z (u8 c) = c.
Proof. by destruct c. Qed.

Lemma u8_inj c1 c2 : u8 c1 = u8 c2 → c1 = c2.
Proof. intros E. by rewrite <- (byte_of_Z_u8 c1), E, byte_of_Z_u8. Qed.

Lemma byte_eqb_spec (x y : byte) : Byte.eqb x y = bool_decide (x = y).
Proof.
  case_bool_decide as E.
  - by apply byte_dec_lb.
  - destruct (Byte.eqb x y) eqn:F; [by apply byte_dec_bl in F | done].
Qed.

Lemma byte_eqb_eq (x y : byte) : Byte.eqb x y = true ↔ x = y.
Proof. rewrite byte_eqb_spec. apply bool_decide_eq_true. Qed.

Lemma beq_true a b : beq a b = true ↔ a = b.
Proof. apply bool_decide_eq_true. Qed.

Lemma beq_false a b : beq a b = false ↔ a ≠ b.
Proof. apply bool_decide_eq_false. Qed.

Lemma beq_refl a : beq a a = true.
Proof. by apply beq_true. Qed.
#[export] Hint Resolve beq_refl u8_range : redis.

Lemma size_nonneg s : 0 ≤ size s.
Proof. unfold size. lia. Qed.
#[export] Hint Resolve size_nonneg : redis.

Lemma size_app s t : size (s ++ t) = size s + size t.
Proof. unfold size. rewrite length_app. lia. Qed.

(** ** Lemmas on decimal printing *)

Lemma dec_value_app ds c : dec_value (ds ++ [c]) = dec_value ds * 10 + (u8 c - 48).
Proof. unfold dec_value. by rewrite foldl_app. Qed.

Lemma u8_digit_char d : 0 ≤ d < 10 → u8 (digit_char d) = 48 + d.
Proof. intros. unfold digit_char. apply u8_byte_of_Z_small. lia. Qed.

Lemma isdigit_digit_char d : 0 ≤ d < 10 → isdigit (digit_char d) = true.
Proof. intros. unfold isdigit. rewrite u8_digit_char by lia. lia. Qed.

(** The accumulator form unrolled: the digits of [n] come before [acc]. *)
Lemma dec_digits_acc fuel n acc :
  dec_digits fuel n acc = dec_digits fuel n [] ++ acc.
Proof.
  revert n acc. induction fuel as [|fuel IH]; intros n acc; [done|]; cbn.
  split_if; [done|]. rewrite IH, (IH _ [_]), <- app_assoc. done.
Qed.

Lemma dec_digits_spec fuel n :
  0 ≤ n < 2 ^ Z.of_nat fuel →
  dec_value (dec_digits fuel n []) = n ∧
  Forall (λ c, isdigit c = true) (dec_digits fuel n []).
Proof.
  revert n. induction fuel as [|fuel IH]; intros n Hn.
  { change (2 ^ Z.of_nat 0) with 1 in Hn. assert (n = 0) as -> by lia. done. }
  cbn. assert (0 ≤ n mod 10 < 10) by (apply Z.mod_pos_bound; lia).
  split_if; breflect.
  - unfold dec_value; cbn. rewrite u8_digit_char by lia.
    rewrite Z.mod_small by lia. split; [lia|].
    repeat constructor. by apply isdigit_digit_char; lia.
  - rewrite Nat2Z.inj_succ, Z.pow_succ_r in Hn by lia.
    rewrite dec_digits_acc. destruct (IH (n / 10)) as [IHv IHd].
    { split; [apply Z.div_pos; lia | apply Z.div_lt_upper_bound; lia]. }
    rewrite dec_value_app, IHv, u8_digit_char by lia. split.
    + rewrite (Z.div_mod n 10) at 3 by lia. lia.
    + apply Forall_app. split; [done|].
      repeat constructor. by apply isdigit_digit_char.
Qed.

Lemma log2_fuel n : 0 ≤ n → 0 ≤ n < 2 ^ Z.of_nat (S (Z.to_nat (Z.log2 n))).
Proof.
  intros. pose proof (Z.log2_nonneg n).
  rewrite Nat2Z.inj_succ, Z2Nat.id by lia.
  destruct (decide (n = 0)) as [->|]; [done|].
  pose proof (Z.log2_spec n ltac:(lia)). lia.
Qed.

Lemma dec_value_nonneg n : 0 ≤ n → dec_value (dec_nonneg n) = n.
Proof. intros. by apply dec_digits_spec, log2_fuel. Qed.

Lemma dec_nonneg_digits n :
  0 ≤ n → Forall (λ c, isdigit c = true) (dec_nonneg n).
Proof. intros. by apply dec_digits_spec, log2_fuel. Qed.

Lemma dec_digits_length fuel n (k : nat) :
  (0 < k)%nat → 0 ≤ n < 10 ^ Z.of_nat k → (length (dec_digits fuel n []) ≤ k)%nat.
Proof.
  revert n k. induction fuel as [|fuel IH]; intros n k Hk Hn; [cbn; lia|].
  cbn. split_if; breflect; [cbn; lia|].
  rewrite dec_digits_acc, length_app. cbn.
  destruct k as [|k]; [lia|].
  rewrite Nat2Z.inj_succ, Z.pow_succ_r in Hn by lia.
  destruct k as [|k]; [cbn in Hn; lia|].
  specialize (IH (n / 10) (S k) ltac:(lia)).
  assert (0 ≤ n / 10 < 10 ^ Z.of_nat (S k)).
  { split; [apply Z.div_pos; lia | apply Z.div_lt_upper_bound; lia]. }
  specialize (IH ltac:(lia)). lia.
Qed.

Lemma dec_nonneg_length n (k : nat) :
  (0 < k)%nat → 0 ≤ n < 10 ^ Z.of_nat k → (length (dec_nonneg n) ≤ k)%nat.
Proof. apply dec_digits_length. Qed.

Lemma dec_nonneg_cons n : 0 ≤ n → ∃ c ds, dec_nonneg n = c :: ds.
Proof.
  intros. unfold dec_nonneg. cbn. split_if; [eauto|].
  rewrite dec_digits_acc. destruct (dec_digits _ _ []); cbn; eauto.
Qed.

(** ** Lemmas on [find_crlf] *)

Lemma find_crlf_cons c s :
  find_crlf (c :: s) =
    if Byte.eqb c CR && bool_decide (head s = Some LF) then Some 0%nat
    else S <$> find_crlf s.
Proof.
  destruct s as [|c2 s]; cbn -[find_crlf].
  { rewrite andb_false_r. done. }
  change (find_crlf (c :: c2 :: s)) with
    (if Byte.eqb c CR && Byte.eqb c2 LF then Some 0%nat else S <$> find_crlf (c2 :: s)).
  rewrite (byte_eqb_spec c2).
  assert (bool_decide (c2 = LF) = bool_decide (Some c2 = Some LF)) as ->; [|done].
  apply bool_decide_ext. naive_solver.
Qed.

(** What a successful search returns: the position of a CRLF. *)
Lemma find_crlf_Some s i :
  find_crlf s = Some i → s = take i s ++ crlf ++ drop (i + 2) s ∧ (i + 2 ≤ length s)%nat.
Proof.
  revert i. induction s as [|c s IH]; intros i; [done|].
  rewrite find_crlf_cons. split_if.
  - intros [= <-]. apply andb_true_iff in Heqb as [->%byte_eqb_eq Hh].
    apply bool_decide_eq_true in Hh. destruct s; naive_solver lia.
  - destruct (find_crlf s) as [j|]; [|done]. intros [= <-].
    destruct (IH j eq_refl) as [IH1 IH2]. cbn. split; [by f_equal | lia].
Qed.

Lemma find_crlf_app s t i : find_crlf s = Some i → find_crlf (s ++ t) = Some i.
Proof.
  revert i. induction s as [|c s IH]; intros i; [done|]. cbn [app].
  rewrite !find_crlf_cons. destruct s as [|c2 s].
  { cbn. by rewrite andb_false_r. }
  cbn [app head]. split_if; [done|].
  destruct (find_crlf (c2 :: s)) as [j|]; [|done].
  by intros [= <-]; cbn in IH |- *; rewrite (IH j).
Qed.

(** A search in a longer string that ends within the prefix ends there too. *)
Lemma find_crlf_app_inv s t i :
  find_crlf (s ++ t) = Some i → (i + 2 ≤ length s)%nat → find_crlf s = Some i.
Proof.
  revert i. induction s as [|c s IH]; intros i; [cbn; lia|]. cbn [app length].
  rewrite !find_crlf_cons. destruct s as [|c2 s].
  { cbn. split_if; [intros [= <-]; lia|].
    destruct (find_crlf t); [|done]. intros [= <-]. lia. }
  cbn [app head]. split_if; [done|].
  change (c2 :: s ++ t) with ((c2 :: s) ++ t).
  destruct (find_crlf ((c2 :: s) ++ t)) as [j|] eqn:E; [|done].
  intros [= <-] ?. rewrite (IH j); [done|done|]. lia.
Qed.

Lemma find_crlf_prefix s t i :
  find_crlf (s ++ t) = Some i → (length s < i + 2)%nat → find_crlf s = None.
Proof.
  intros H ?. destruct (find_crlf s) as [j|] eqn:E; [|done].
  pose proof (find_crlf_Some _ _ E) as [_ ?].
  apply (find_crlf_app _ t) in E. simplify_eq. lia.
Qed.

(** The first CRLF after a run of bytes with no carriage return. *)
Lemma find_crlf_no_cr s t :
  Forall (λ c, c ≠ CR) s → find_crlf (s ++ crlf ++ t) = Some (length s).
Proof.
  induction 1 as [|c s Hc _ IH]; [done|].
  cbn [app]. rewrite find_crlf_cons.
  rewrite (byte_eqb_spec c CR), bool_decide_false by done. by rewrite IH.
Qed.

Lemma find_crlf_None_no_cr s : Forall (λ c, c ≠ CR) s → find_crlf s = None.
Proof.
  induction 1 as [|c s Hc _ IH]; [done|]. rewrite find_crlf_cons.
  rewrite (byte_eqb_spec c CR), bool_decide_false by done. by rewrite IH.
Qed.

Lemma isdigit_not_cr c : isdigit c = true → c ≠ CR.
Proof. by intros ? ->. Qed.

Lemma dec_nonneg_not_cr n : 0 ≤ n → Forall (λ c, c ≠ CR) (dec_nonneg n).
Proof.
  intros H. eapply Forall_impl; [exact (dec_nonneg_digits n H)|].
  intros c. apply isdigit_not_cr.
Qed.
#[export] Hint Resolve dec_nonneg_not_cr dec_nonneg_digits : redis.

(** ** Lemmas on lists *)

Lemma filter_Forall {A} (P : A → Prop) `{!∀ x, Decision (P x)} (l : list A) :
  Forall P l → filter P l = l.
Proof. induction 1; [done|]. rewrite filter_cons_True by done. by f_equal. Qed.
