(* ===== verification/Buffer.v ===== *)
(** * The connection buffer (include/rp/buffer.hpp)

    [Buffer] is a byte vector with a read cursor.  The model keeps both fields,
    the lazy reclaiming of consumed bytes included, and shows that the class
    implements an unbounded FIFO queue of bytes whose wasted space is bounded. *)

From S2P Require Import Prelude.

(** ** Data and operations *)

Record Buffer := mkBuffer { data_ : bytes; read_pos_ : nat }.

Definition kReclaimThreshold : nat := 8 * 1024.

Definition buf_empty : Buffer := mkBuffer [] 0.

Definition buf_size (b : Buffer) : nat := length (data_ b) - read_pos_ b.

Definition buf_is_empty (b : Buffer) : bool := Nat.eqb (buf_size b) 0.

Definition readable (b : Buffer) : bytes := substr (data_ b) (read_pos_ b) (buf_size b).

Definition buf_clear (b : Buffer) : Buffer := mkBuffer [] 0.

(** [memmove] of the unread bytes to the front, then [resize] to their number. *)
Definition reclaim (b : Buffer) : Buffer :=
  if Nat.eqb (read_pos_ b) 0 then b
  else if Nat.ltb (read_pos_ b) (length (data_ b) / 2) &&
          Nat.ltb (read_pos_ b) kReclaimThreshold then b
  else
    let remaining := buf_size b in
    mkBuffer (take remaining (drop (read_pos_ b) (data_ b))) 0.

Definition buf_append (b : Buffer) (s : bytes) : Buffer :=
  if Nat.eqb (length s) 0 then b
  else
    let b := reclaim b in
    mkBuffer (data_ b ++ s) (read_pos_ b).

Definition consume (b : Buffer) (n : nat) : Buffer :=
  let pos := (read_pos_ b + (if Nat.ltb (buf_size b) n then buf_size b else n))%nat in
  if Nat.eqb pos (length (data_ b)) then buf_clear b
  else mkBuffer (data_ b) pos.

(** The cursor never leaves the vector. *)
Definition buf_wf (b : Buffer) : Prop := (read_pos_ b ≤ length (data_ b))%nat.

(** Sequences of calls, and the queue they should implement. *)
Inductive buf_op :=
| BAppend (s : bytes)
| BConsume (n : nat)
| BClear.

Definition buf_step (b : Buffer) (o : buf_op) : Buffer :=
  match o with
  | BAppend s => buf_append b s
  | BConsume n => consume b n
  | BClear => buf_clear b
  end.

Definition queue_step (q : bytes) (o : buf_op) : bytes :=
  match o with
  | BAppend s => q ++ s
  | BConsume n => drop n q
  | BClear => []
  end.

(** ** Lemmas *)

Lemma readable_drop b : readable b = drop (read_pos_ b) (data_ b).
Proof. unfold readable, substr, buf_size. rewrite <- length_drop. apply firstn_all. Qed.

Lemma buf_size_readable b : buf_size b = length (readable b).
Proof. rewrite readable_drop, length_drop. done. Qed.

Lemma buf_is_empty_true b : buf_is_empty b = true → readable b = [].
Proof.
  unfold buf_is_empty. intros H%Nat.eqb_eq. rewrite buf_size_readable in H. by apply nil_length_inv.
Qed.

Lemma reclaim_readable b : readable (reclaim b) = readable b.
Proof.
  unfold reclaim. repeat split_if; try done.
  rewrite !readable_drop. cbn. unfold buf_size. rewrite <- length_drop.
  by rewrite firstn_all.
Qed.

Lemma reclaim_wf b : buf_wf b → buf_wf (reclaim b).
Proof. unfold reclaim, buf_wf. repeat split_if; cbn; lia. Qed.

Lemma buf_append_wf b s : buf_wf b → buf_wf (buf_append b s).
Proof.
  intros Hb. pose proof (reclaim_wf b Hb) as H. unfold buf_append. split_if; [done|].
  unfold buf_wf in *. cbn. rewrite length_app. lia.
Qed.

Lemma consume_wf b n : buf_wf b → buf_wf (consume b n).
Proof.
  unfold consume, buf_wf, buf_size. intros.
  destruct (Nat.ltb_spec (length (data_ b) - read_pos_ b) n); split_if; cbn; lia.
Qed.

Lemma buf_clear_wf b : buf_wf (buf_clear b).
Proof. unfold buf_wf. cbn. lia. Qed.

Lemma readable_append b s : buf_wf b → readable (buf_append b s) = readable b ++ s.
Proof.
  intros H%reclaim_wf. unfold buf_append. split_if.
  { apply Nat.eqb_eq, nil_length_inv in Heqb0 as ->. by rewrite app_nil_r. }
  rewrite <- (reclaim_readable b), !readable_drop. cbn. by rewrite drop_app_le.
Qed.

Lemma readable_consume b n : buf_wf b → readable (consume b n) = drop n (readable b).
Proof.
  unfold consume, buf_wf, buf_size. intros H. rewrite !(readable_drop b), drop_drop.
  destruct (Nat.ltb_spec (length (data_ b) - read_pos_ b) n).
  - rewrite (drop_ge _ (_ + n)) by lia.
    split_if; rewrite readable_drop; [done|]. cbn. apply drop_ge. lia.
  - split_if; rewrite readable_drop; [|done].
    apply Nat.eqb_eq in Heqb0. cbn. symmetry. apply drop_ge. lia.
Qed.

Lemma readable_clear b : readable (buf_clear b) = [].
Proof. done. Qed.

Lemma readable_empty : readable buf_empty = [].
Proof. done. Qed.

#[export] Hint Resolve buf_append_wf consume_wf buf_clear_wf : redis.

Lemma buf_step_refines b o :
  buf_wf b → buf_wf (buf_step b o) ∧ readable (buf_step b o) = queue_step (readable b) o.
Proof.
  intros H. destruct o; cbn.
  - split; [by apply buf_append_wf | by apply readable_append].
  - split; [by apply consume_wf | by apply readable_consume].
  - by split; [unfold buf_wf; cbn|].
Qed.

(** ** Properties *)

(** C30: The buffer is a byte queue.  After any sequence of [append], [consume]
    and [clear] calls the readable bytes are exactly those of an abstract FIFO
    queue fed the same calls, and the read cursor is within the vector. *)
Theorem buffer_refines_queue (ops : list buf_op) :
  readable (foldl buf_step buf_empty ops) = foldl queue_step [] ops ∧
  buf_wf (foldl buf_step buf_empty ops).
Proof.
  cut (∀ b, buf_wf b →
    readable (foldl buf_step b ops) = foldl queue_step (readable b) ops ∧
    buf_wf (foldl buf_step b ops)).
  { intros H. apply H. unfold buf_wf. cbn. lia. }
  induction ops as [|o ops IH]; intros b Hb; [done|]. cbn.
  destruct (buf_step_refines b o Hb) as [Hwf <-]. by apply IH.
Qed.

(** Consumed bytes do not accumulate: after an [append] of at least one
    byte the vector holds fewer than [kReclaimThreshold] dead bytes in front of
    the readable ones, and fewer dead bytes than bytes in total. *)
Theorem buffer_waste_bounded (b : Buffer) (s : bytes) :
  buf_wf b → s ≠ [] →
  (length (data_ (buf_append b s)) <
     length (readable (buf_append b s)) + kReclaimThreshold)%nat ∧
  (2 * read_pos_ (buf_append b s) < length (data_ (buf_append b s)))%nat.
Proof.
  intros Hb Hs. assert (0 < length s)%nat by (destruct s; [done|cbn; lia]).
  rewrite readable_drop, length_drop. unfold buf_append, reclaim, kReclaimThreshold, buf_wf in *.
  destruct (Nat.eqb_spec (length s) 0); [lia|].
  destruct (Nat.eqb_spec (read_pos_ b) 0); cbn -[Nat.mul Nat.div]; [rewrite length_app; lia|].
  split_if; cbn -[Nat.mul Nat.div]; rewrite !length_app; [|lia].
  apply andb_true_iff in Heqb0 as [H1%Nat.ltb_lt H2%Nat.ltb_lt].
  pose proof (Nat.div_mod_eq (length (data_ b)) 2). lia.
Qed.

Lemma buffer_waste_bounded_witness :
  (2 * read_pos_ (buf_append (mkBuffer (bs "PING") 3) (bs "x")) <
     length (data_ (buf_append (mkBuffer (bs "PING") 3) (bs "x"))))%nat.
Proof.
  apply (buffer_waste_bounded (mkBuffer (bs "PING") 3) (bs "x")).
  - unfold buf_wf. cbn. lia.
  - done.
Defined.
