(* ===== verification/Resp.v ===== *)
(** * The RESP protocol (include/rp/resp.hpp, src/resp.cpp)

    The incremental request parser, the reply encoders and their properties:
    the parser is total and stays within its input, accepts exactly the
    decimal integers that fit, never changes its mind about a request it has
    accepted, and splits inline commands into words. *)

From S2P Require Import Prelude.

(** ** Parse results *)

Inductive ParseStatus := kOk | kIncomplete | kError.

#[global] Instance ParseStatus_eq_dec : EqDecision ParseStatus.
Proof. solve_decision. Defined.

Record ParseResult := mkParseResult {
  status : ParseStatus;
  consumed : nat;
  args : list bytes;
  error : bytes
}.

Definition kMaxMultibulkLength : Z := 1024 * 1024.
Definition kMaxBulkLength : Z := 512 * 1024 * 1024.
Definition kMaxInlineLength : Z := 64 * 1024.

Definition incomplete : ParseResult := mkParseResult kIncomplete 0 [] [].

Definition protocol_error (msg : bytes) : ParseResult :=
  mkParseResult kError 0 [] msg.

Definition parsed (consumed : nat) (args : list bytes) : ParseResult :=
  mkParseResult kOk consumed args [].

(** ** Integers *)

Fixpoint parse_digits (text : bytes) (value : Z) : option Z :=
  match text with
  | [] => Some value
  | c :: text' =>
      if negb (isdigit c) then None
      else
        let digit := u8 c - 48 in
        if (int64_max - digit) / 10 <? value then None
        else parse_digits text' (value * 10 + digit)
  end.

Definition parse_int (text : bytes) : option Z :=
  match text with
  | [] => None
  | c0 :: rest =>
      if Byte.eqb c0 "-" || Byte.eqb c0 "+" then
        let negative := Byte.eqb c0 "-" in
        if Nat.eqb (length text) 1 then None
        else (λ value, if negative then - value else value) <$> parse_digits rest 0
      else parse_digits text 0
  end.

(** ** Inline commands *)

(** The two inner loops: advance over characters of a class. *)
Fixpoint skip_while (p : byte → bool) (s : bytes) : bytes :=
  match s with
  | [] => []
  | c :: s' => if p c then skip_while p s' else s
  end.

Fixpoint take_while (p : byte → bool) (s : bytes) : bytes :=
  match s with
  | [] => []
  | c :: s' => if p c then c :: take_while p s' else []
  end.

Definition nonspace (c : byte) : bool := negb (isspace c).

(** The outer loop over [line]; each round consumes at least one byte, so the
    length of the line is enough fuel ([inline_words_enough]). *)
Fixpoint inline_words (fuel : nat) (line : bytes) : list bytes :=
  match fuel, line with
  | S fuel', _ :: _ =>
      let l := skip_while isspace line in
      let word := take_while nonspace l in
      let rest := skip_while nonspace l in
      if Nat.ltb 0 (length word) then word :: inline_words fuel' rest
      else inline_words fuel' rest
  | _, _ => []
  end.

Definition too_big_inline : bytes := bs "ERR Protocol error: too big inline request".

Definition parse_inline (input : bytes) : ParseResult :=
  match find_crlf input with
  | None =>
      if kMaxInlineLength <? size input then protocol_error too_big_inline
      else incomplete
  | Some eol =>
      if kMaxInlineLength <? Z.of_nat eol then protocol_error too_big_inline
      else
        let line := substr input 0 eol in
        parsed (eol + length crlf) (inline_words (length line) line)
  end.

(** ** Multibulk requests *)

(** One iteration of the argument loop: an early return, or the argument and
    the position after it. *)
Definition parse_bulk (input : bytes) (pos : nat) : ParseResult + (bytes * nat) :=
  match input !! pos with
  | None => inl incomplete
  | Some c =>
      if negb (Byte.eqb c "$") then
        inl (protocol_error
               (bs "ERR Protocol error: expected '$', got '" ++ [c] ++ bs "'"))
      else
        match find_crlf_from input pos with
        | None =>
            if 64 <? Z.of_nat (length input - pos) then
              inl (protocol_error (bs "ERR Protocol error: too big bulk count string"))
            else inl incomplete
        | Some len_end =>
            match parse_int (substr input (pos + 1) (len_end - pos - 1)) with
            | None => inl (protocol_error (bs "ERR Protocol error: invalid bulk length"))
            | Some len =>
                if (len <? 0) || (kMaxBulkLength <? len) then
                  inl (protocol_error (bs "ERR Protocol error: invalid bulk length"))
                else
                  let body := (len_end + length crlf)%nat in
                  let need := Z.of_nat body + len + Z.of_nat (length crlf) in
                  if size input <? need then inl incomplete
                  else if negb (beq (substr input (body + Z.to_nat len) 2) crlf) then
                    inl (protocol_error (bs "ERR Protocol error: unbalanced bulk payload"))
                  else inr (substr input body (Z.to_nat len), Z.to_nat need)
            end
        end
  end.

Fixpoint parse_bulks (argc : nat) (input : bytes) (pos : nat) (acc : list bytes)
    : ParseResult :=
  match argc with
  | O => parsed pos acc
  | S argc' =>
      match parse_bulk input pos with
      | inl early => early
      | inr (arg, pos') => parse_bulks argc' input pos' (acc ++ [arg])
      end
  end.

Definition parse_request (input : bytes) : ParseResult :=
  match input with
  | [] => incomplete
  | front :: _ =>
      if negb (Byte.eqb front "*") then parse_inline input
      else
        match find_crlf_from input 0 with
        | None =>
            if 64 <? size input then
              protocol_error (bs "ERR Protocol error: too big mbulk count string")
            else incomplete
        | Some header_end =>
            match parse_int (substr input 1 (header_end - 1)) with
            | None => protocol_error (bs "ERR Protocol error: invalid multibulk length")
            | Some argc =>
                if kMaxMultibulkLength <? argc then
                  protocol_error (bs "ERR Protocol error: invalid multibulk length")
                else
                  let pos := (header_end + length crlf)%nat in
                  if argc <=? 0 then parsed pos []
                  else parse_bulks (Z.to_nat argc) input pos []
            end
        end
  end.

(** ** Replies *)

Module reply.

Definition simple (s : bytes) : bytes := bs "+" ++ s ++ crlf.
Definition error (s : bytes) : bytes := bs "-" ++ s ++ crlf.
Definition integer (v : Z) : bytes := bs ":" ++ to_string v ++ crlf.
Definition bulk (s : bytes) : bytes := bs "$" ++ to_string (size s) ++ crlf ++ s ++ crlf.
Definition null_bulk : bytes := bs "$-1" ++ crlf.
Definition array_header (n : nat) : bytes := bs "*" ++ to_string (Z.of_nat n) ++ crlf.
Definition empty_array : bytes := bs "*0" ++ crlf.
Definition ok : bytes := bs "+OK" ++ crlf.

Definition wrong_arity (command : bytes) : bytes :=
  error (bs "ERR wrong number of arguments for '" ++ command ++ bs "' command").

End reply.

(** ** Lemmas on integers *)

Lemma foldl_digits_ge s v :
  0 ≤ v → Forall (λ c, isdigit c = true) s →
  v ≤ foldl (λ v c, v * 10 + (u8 c - 48)) v s.
Proof.
  intros Hv Hs. revert v Hv. induction Hs as [|c s Hc Hs IH]; intros v Hv; cbn; [lia|].
  unfold isdigit in Hc. breflect.
  etransitivity; [|apply IH]; lia.
Qed.

Lemma digit_overflow_test c v :
  isdigit c = true →
  ((int64_max - (u8 c - 48)) / 10 <? v) = false ↔ v * 10 + (u8 c - 48) ≤ int64_max.
Proof.
  unfold isdigit, int64_max. intros Hc. breflect. rewrite Z.ltb_ge.
  pose proof (Z.div_mod (9223372036854775807 - (u8 c - 48)) 10 ltac:(lia)).
  pose proof (Z.mod_pos_bound (9223372036854775807 - (u8 c - 48)) 10 ltac:(lia)).
  lia.
Qed.

Lemma parse_digits_spec s v z :
  0 ≤ v ≤ int64_max →
  parse_digits s v = Some z ↔
    Forall (λ c, isdigit c = true) s ∧
    z = foldl (λ v c, v * 10 + (u8 c - 48)) v s ∧ z ≤ int64_max.
Proof.
  revert v. induction s as [|c s IH]; intros v Hv; cbn [parse_digits foldl].
  { split; [intros [= <-]; repeat split; auto; lia | naive_solver]. }
  destruct (isdigit c) eqn:Hc; cbn [negb].
  2: { split; [done|]. intros [H _]. inv H. congruence. }
  pose proof (digit_overflow_test c v Hc) as Ht.
  assert (0 ≤ u8 c - 48) by (unfold isdigit in Hc; breflect; lia).
  split_if.
  - split; [done|]. intros (Hs & -> & Hle). inv Hs.
    pose proof (foldl_digits_ge s (v * 10 + (u8 c - 48)) ltac:(lia) ltac:(done)).
    assert (true = false) by (apply Ht; lia). done.
  - rewrite IH by (destruct Ht as [Ht _]; specialize (Ht eq_refl); lia).
    rewrite Forall_cons. naive_solver.
Qed.

Lemma parse_int_dec n : 0 ≤ n ≤ int64_max → parse_int (dec_nonneg n) = Some n.
Proof.
  intros Hn. pose proof (dec_nonneg_digits n ltac:(lia)) as Hd.
  destruct (dec_nonneg_cons n) as (c & ds & E); [lia|].
  assert (isdigit c = true) as Hc by (rewrite E in Hd; by inv Hd).
  unfold parse_int. rewrite E. cbn [length].
  assert (Byte.eqb c "-" || Byte.eqb c "+" = false) as ->.
  { apply orb_false_iff. rewrite !byte_eqb_spec, !bool_decide_eq_false.
    by split; intros ->. }
  rewrite <- E. apply parse_digits_spec; [unfold int64_max; lia|].
  split; [done|]. split; [|lia]. by rewrite <- (dec_value_nonneg n) at 1 by lia.
Qed.

(** ** Lemmas on the bulk loop *)

(** The loop body only looks at the input from [pos] on. *)
Definition shift_bulk (pos : nat) (r : ParseResult + (bytes * nat)) :=
  match r with
  | inl early => inl early
  | inr (arg, p) => inr (arg, (pos + p)%nat)
  end.

Lemma parse_bulk_shift input pos :
  (pos ≤ length input)%nat →
  parse_bulk input pos = shift_bulk pos (parse_bulk (drop pos input) 0).
Proof.
  intros Hpos. unfold parse_bulk, find_crlf_from.
  rewrite lookup_drop, Nat.add_0_r, drop_0, length_drop, Nat.sub_0_r.
  destruct (input !! pos) as [c|] eqn:Hc; [|done].
  destruct (negb (Byte.eqb c "$")) eqn:Hd; [done|].
  destruct (find_crlf (drop pos input)) as [i|] eqn:Hf; cbn [fmap option_fmap option_map];
    [|by split_if].
  pose proof (find_crlf_Some _ _ Hf) as [_ Hi]. rewrite length_drop in Hi.
  unfold substr. rewrite !drop_drop.
  replace (pos + i - pos - 1)%nat with (0 + i - 0 - 1)%nat by lia.
  replace (pos + (0 + 1))%nat with (pos + 1)%nat by lia.
  destruct (parse_int _) as [len|]; [|done].
  split_if; [done|]. breflect.
  unfold size. rewrite length_drop.
  replace (Z.of_nat (length input) <? Z.of_nat (pos + i + length crlf) + len + Z.of_nat (length crlf))
    with (Z.of_nat (length input - pos) <?
      Z.of_nat (0 + i + length crlf) + len + Z.of_nat (length crlf)).
  2: { apply eq_true_iff_eq. rewrite !Z.ltb_lt. cbn. lia. }
  split_if; [done|]. breflect. rewrite !drop_drop.
  replace (pos + (0 + i + length crlf + Z.to_nat len))%nat
    with (pos + i + length crlf + Z.to_nat len)%nat by lia.
  split_if; [done|]. cbn [shift_bulk].
  replace (pos + (0 + i + length crlf))%nat with (pos + i + length crlf)%nat by lia.
  do 2 f_equal. cbn. lia.
Qed.

(** What an accepted bulk looks like: ["$" len CRLF payload CRLF]. *)
Lemma parse_bulk_inr input pos arg pos' :
  parse_bulk input pos = inr (arg, pos') →
  (pos + 5 ≤ pos')%nat ∧ (pos' ≤ length input)%nat.
Proof.
  unfold parse_bulk, find_crlf_from. intros H.
  destruct (input !! pos) as [c|] eqn:Hc; [|done].
  apply lookup_lt_Some in Hc as Hlt.
  destruct (negb (Byte.eqb c "$")) eqn:Hd; [done|].
  destruct (find_crlf (drop pos input)) as [i|] eqn:Hf; cbn in H; [|by split_if].
  destruct (parse_int _) as [len|] eqn:Hl; [|done].
  assert (0 < i)%nat.
  { destruct i; [|lia]. rewrite (drop_S _ c) in Hf by done.
    rewrite find_crlf_cons in Hf. apply negb_false_iff, byte_eqb_eq in Hd as ->.
    cbn in Hf. destruct (find_crlf _); done. }
  split_if; [done|]. breflect. split_if; [done|]. breflect. split_if; [done|].
  simplify_eq. unfold size in *. split; [|lia].
  destruct i as [|i]; [lia|]. destruct i; [|lia].
  replace (pos + 1 - pos - 1)%nat with 0%nat in Hl by lia. done.
Qed.

Lemma parse_bulk_inl input pos r :
  parse_bulk input pos = inl r → status r ≠ kOk ∧ consumed r = 0%nat ∧ args r = [].
Proof.
  unfold parse_bulk. intros H.
  repeat (split_match || split_if); simplify_eq; done.
Qed.

Lemma parse_bulks_safe argc input pos acc :
  (pos ≤ length input)%nat →
  let r := parse_bulks argc input pos acc in
  (status r = kOk → (pos ≤ consumed r ≤ length input)%nat ∧
                     length (args r) = (length acc + argc)%nat) ∧
  (status r ≠ kOk → consumed r = 0%nat ∧ args r = []).
Proof.
  revert pos acc. induction argc as [|argc IH]; intros pos acc Hpos; cbn.
  { split; [|done]. intros _. split; lia. }
  destruct (parse_bulk input pos) as [r|[arg pos']] eqn:E.
  - apply parse_bulk_inl in E. naive_solver.
  - apply parse_bulk_inr in E. destruct (IH pos' (acc ++ [arg]) ltac:(lia)) as [IH1 IH2].
    split; [|done]. intros Hs. destruct (IH1 Hs). rewrite length_app in *. cbn in *. lia.
Qed.

(** ** Stability: more input does not change an accepted request *)

Lemma parse_bulk_app input x pos arg pos' :
  parse_bulk input pos = inr (arg, pos') →
  parse_bulk (input ++ x) pos = inr (arg, pos').
Proof.
  intros H. pose proof (parse_bulk_inr _ _ _ _ H) as [? Hle]. revert H.
  unfold parse_bulk, find_crlf_from.
  destruct (input !! pos) as [c|] eqn:Hc; [|done].
  apply lookup_lt_Some in Hc as Hlt.
  rewrite lookup_app_l, Hc, drop_app_le by lia.
  split_if; [done|].
  destruct (find_crlf (drop pos input)) as [i|] eqn:Hf; cbn [fmap option_fmap option_map];
    [|by split_if].
  rewrite (find_crlf_app _ _ _ Hf). cbn [fmap option_fmap option_map].
  pose proof (find_crlf_Some _ _ Hf) as [_ Hi]. rewrite length_drop in Hi.
  unfold substr. rewrite (drop_app_le _ _ (pos + 1)) by lia.
  rewrite take_app_le by (rewrite length_drop; lia).
  destruct (parse_int _) as [len|]; [|done].
  split_if; [done|]. breflect. rewrite size_app.
  split_if; [done|]. breflect. pose proof (size_nonneg x). unfold size, crlf in *. cbn [length] in *.
  destruct (Z.ltb_spec (Z.of_nat (length input) + Z.of_nat (length x))
    (Z.of_nat (pos + i + 2) + len + Z.of_nat 2)); [lia|].
  rewrite (drop_app_le _ _ (pos + i + 2 + Z.to_nat len)) by lia.
  rewrite (take_app_le (drop (pos + i + 2 + Z.to_nat len) input)) by (rewrite length_drop; lia).
  split_if; [done|].
  rewrite (drop_app_le _ _ (pos + i + 2)) by lia.
  by rewrite take_app_le by (rewrite length_drop; lia).
Qed.

Lemma parse_bulks_app argc input x pos acc :
  status (parse_bulks argc input pos acc) = kOk →
  parse_bulks argc (input ++ x) pos acc = parse_bulks argc input pos acc.
Proof.
  revert pos acc. induction argc as [|argc IH]; intros pos acc; cbn; [done|].
  destruct (parse_bulk input pos) as [r|[arg pos']] eqn:E.
  - apply parse_bulk_inl in E. naive_solver.
  - rewrite (parse_bulk_app _ _ _ _ _ E). apply IH.
Qed.

Lemma parse_inline_app input x :
  status (parse_inline input) = kOk → parse_inline (input ++ x) = parse_inline input.
Proof.
  unfold parse_inline. destruct (find_crlf input) as [eol|] eqn:E; [|by split_if].
  rewrite (find_crlf_app _ _ _ E). pose proof (find_crlf_Some _ _ E) as [_ ?].
  split_if; [done|]. intros _. unfold substr. rewrite !drop_0. by rewrite take_app_le by lia.
Qed.

Lemma parse_inline_safe input :
  let r := parse_inline input in
  (status r = kOk → (2 ≤ consumed r ≤ length input)%nat) ∧
  (status r ≠ kOk → consumed r = 0%nat ∧ args r = []).
Proof.
  unfold parse_inline. destruct (find_crlf input) as [eol|] eqn:E.
  - pose proof (find_crlf_Some _ _ E) as [_ ?]. split_if; cbn; naive_solver lia.
  - split_if; done.
Qed.

Lemma parse_request_star input :
  head input = Some "*"%byte →
  parse_request input =
    match find_crlf input with
    | None => if 64 <? size input then
        protocol_error (bs "ERR Protocol error: too big mbulk count string")
        else incomplete
    | Some header_end =>
        match parse_int (substr input 1 (header_end - 1)) with
        | None => protocol_error (bs "ERR Protocol error: invalid multibulk length")
        | Some argc =>
            if kMaxMultibulkLength <? argc then
              protocol_error (bs "ERR Protocol error: invalid multibulk length")
            else if argc <=? 0 then parsed (header_end + 2) []
            else parse_bulks (Z.to_nat argc) input (header_end + 2) []
        end
    end.
Proof.
  destruct input as [|c input]; [done|]. cbn [head]. intros [= ->].
  unfold parse_request, find_crlf_from. rewrite drop_0.
  by destruct (find_crlf _).
Qed.

Lemma parse_request_inline input c :
  head input = Some c → c ≠ "*"%byte → parse_request input = parse_inline input.
Proof.
  destruct input as [|c' input]; [done|]. cbn. intros [= ->] Hc.
  by rewrite byte_eqb_spec, bool_decide_false.
Qed.

(** Case analysis on the first byte of a request. *)
Lemma request_head input :
  input = [] ∨ head input = Some "*"%byte ∨ ∃ c, head input = Some c ∧ c ≠ "*"%byte.
Proof.
  destruct input as [|c input]; [by left|]. right. cbn.
  destruct (decide (c = "*"%byte)) as [->|]; eauto.
Qed.

Lemma parse_request_ok_bounds input :
  status (parse_request input) = kOk →
  (0 < consumed (parse_request input) ≤ length input)%nat.
Proof.
  destruct (request_head input) as [->|[H|(c & H & Hc)]]; [done| |].
  - rewrite (parse_request_star _ H).
    destruct (find_crlf input) as [e|] eqn:E; [|by split_if].
    pose proof (find_crlf_Some _ _ E) as [_ ?].
    destruct (parse_int _) as [argc|]; [|done].
    split_if; [done|]. split_if; [cbn; lia|]. intros Hs.
    destruct (parse_bulks_safe (Z.to_nat argc) input (e + 2) []) as [H1 _]; [lia|].
    specialize (H1 Hs). lia.
  - rewrite (parse_request_inline _ _ H Hc). intros Hs.
    destruct (parse_inline_safe input) as [H1 _]. specialize (H1 Hs). lia.
Qed.

Lemma parse_request_not_ok input :
  status (parse_request input) ≠ kOk →
  consumed (parse_request input) = 0%nat ∧ args (parse_request input) = [].
Proof.
  destruct (request_head input) as [->|[H|(c & H & Hc)]]; [done| |].
  - rewrite (parse_request_star _ H).
    destruct (find_crlf input) as [e|] eqn:E; [|by split_if].
    pose proof (find_crlf_Some _ _ E) as [_ ?].
    destruct (parse_int _) as [argc|]; [|done].
    split_if; [done|]. split_if; [done|].
    apply parse_bulks_safe. lia.
  - rewrite (parse_request_inline _ _ H Hc). apply parse_inline_safe.
Qed.

Lemma parse_request_app input x :
  status (parse_request input) = kOk →
  parse_request (input ++ x) = parse_request input.
Proof.
  destruct (request_head input) as [->|[H|(c & H & Hc)]]; [done| |].
  - rewrite (parse_request_star _ H), (parse_request_star (input ++ x)).
    2: { by destruct input. }
    destruct (find_crlf input) as [e|] eqn:E; [|by split_if].
    rewrite (find_crlf_app _ _ _ E). pose proof (find_crlf_Some _ _ E) as [_ ?].
    unfold substr. rewrite drop_app_le, take_app_le by (rewrite ?length_drop; lia).
    destruct (parse_int _) as [argc|]; [|done].
    split_if; [done|]. split_if; [done|]. apply parse_bulks_app.
  - rewrite (parse_request_inline _ _ H Hc), (parse_request_inline (input ++ x) c).
    + apply parse_inline_app.
    + by destruct input.
    + done.
Qed.

(** ** Lemmas on inline commands *)

(** What the words of a line are: runs of non-space characters separated by
    runs of spaces. *)
Inductive line_words : bytes → list bytes → Prop :=
| line_words_end gap :
    Forall (λ c, isspace c = true) gap → line_words gap []
| line_words_word gap word rest words :
    Forall (λ c, isspace c = true) gap →
    word ≠ [] → Forall (λ c, isspace c = false) word →
    (∀ c, head rest = Some c → isspace c = true) →
    line_words rest words →
    line_words (gap ++ word ++ rest) (word :: words).

Lemma take_skip_while p s : take_while p s ++ skip_while p s = s.
Proof. induction s as [|c s IH]; cbn; [done|]. split_if; cbn; by f_equal. Qed.

Lemma take_while_Forall p s : Forall (λ c, p c = true) (take_while p s).
Proof. induction s as [|c s IH]; cbn; [done|]. split_if; auto. Qed.

Lemma skip_while_head p s c : head (skip_while p s) = Some c → p c = false.
Proof. induction s as [|c' s IH]; cbn; [done|]. split_if; cbn; naive_solver. Qed.

Lemma while_app p s t :
  Forall (λ c, p c = true) s → (∀ c, head t = Some c → p c = false) →
  take_while p (s ++ t) = s ∧ skip_while p (s ++ t) = t.
Proof.
  intros Hs Ht. induction Hs as [|c s Hc _ [IH1 IH2]]; cbn.
  - destruct t as [|c t]; cbn; [done|]. by rewrite Ht.
  - rewrite Hc. by rewrite IH1, IH2.
Qed.

Lemma nonspace_Forall w :
  Forall (λ c, isspace c = false) w ↔ Forall (λ c, nonspace c = true) w.
Proof. apply Forall_proper; [|done]. intros c. unfold nonspace. by rewrite negb_true_iff. Qed.

Lemma inline_words_complete line words fuel :
  line_words line words → (length line ≤ fuel)%nat → inline_words fuel line = words.
Proof.
  intros H. revert fuel.
  induction H as [gap Hgap|gap word rest words Hgap Hne Hword Hhead _ IH]; intros fuel Hf.
  - destruct (while_app isspace gap [] Hgap ltac:(done)) as [_ E].
    rewrite app_nil_r in E.
    destruct fuel, gap; try done. cbn [inline_words]. rewrite E.
    by destruct fuel.
  - rewrite !length_app in Hf. apply nonspace_Forall in Hword.
    assert (∀ c, head (word ++ rest) = Some c → isspace c = false) as Hw.
    { destruct word as [|c0 word]; [done|]. intros c [= <-]. inv Hword.
      by apply negb_true_iff. }
    assert (∀ c, head rest = Some c → nonspace c = false) as Hr.
    { intros c Hc. apply negb_false_iff. by apply Hhead. }
    destruct (while_app isspace gap (word ++ rest) Hgap Hw) as [_ E1].
    destruct (while_app nonspace word rest Hword Hr) as [E2 E3].
    destruct word as [|c0 word]; [done|]. destruct fuel as [|fuel]; [cbn in *; lia|].
    destruct (gap ++ (c0 :: word) ++ rest) as [|c1 line] eqn:E; [by destruct gap|].
    cbn [inline_words]. rewrite E1, E2, E3. cbn [length Nat.ltb Nat.leb].
    f_equal. apply IH. cbn in Hf. lia.
Qed.

Lemma line_words_total line : ∃ words, line_words line words.
Proof.
  remember (length line) as n eqn:Hn. revert line Hn.
  induction n as [n IH] using lt_wf_ind. intros line ->.
  set (l := skip_while isspace line).
  assert (line = take_while isspace line ++ take_while nonspace l ++ skip_while nonspace l) as E
    by by rewrite !take_skip_while.
  destruct (take_while nonspace l) as [|c word] eqn:Ew.
  - exists []. cbn in E.
    assert (l = []) as El.
    { destruct l as [|c l'] eqn:El; [done|]. cbn in Ew.
      assert (isspace c = false) as Hc by (apply (skip_while_head isspace line); fold l; by rewrite El).
      unfold nonspace in Ew. by rewrite Hc in Ew. }
    rewrite <- (take_skip_while isspace line). fold l. rewrite El, app_nil_r.
    constructor. apply take_while_Forall.
  - destruct (IH (length (skip_while nonspace l))) with (line := skip_while nonspace l)
      as [ws Hws]; [|done|].
    { apply (f_equal length) in E. rewrite !length_app in E. cbn in E. lia. }
    exists ((c :: word) :: ws). rewrite E. constructor; auto using take_while_Forall.
    + apply nonspace_Forall. rewrite <- Ew. apply take_while_Forall.
    + intros c' Hc'. apply negb_false_iff. by apply (skip_while_head nonspace l).
Qed.

(** ** Properties of the parser *)

(** C14: The parser is total and safe on every byte sequence.  An accepted
    request consumes at least one byte and never more than it was given (so a
    loop over it makes progress), and a request that is not accepted consumes
    nothing and yields no argument. *)
Theorem parse_request_safe (input : bytes) :
  let r := parse_request input in
  (status r = kOk → (0 < consumed r ≤ length input)%nat) ∧
  (status r ≠ kOk → consumed r = 0%nat ∧ args r = []).
Proof. split; [apply parse_request_ok_bounds | apply parse_request_not_ok]. Qed.

(** C13: Parsing is incremental.  Once a request is accepted, bytes that arrive
    after it change neither its arguments nor the number of bytes it consumes. *)
Theorem parse_request_stable (input more : bytes) :
  status (parse_request input) = kOk →
  parse_request (input ++ more) = parse_request input.
Proof. apply parse_request_app. Qed.

Lemma parse_request_stable_witness :
  parse_request (bs "PING" ++ crlf ++ bs "*1") = parse_request (bs "PING" ++ crlf).
Proof.
  rewrite (app_assoc (bs "PING")). apply (parse_request_stable (bs "PING" ++ crlf)). reflexivity.
Defined.

(** [parse_int] accepts exactly an optional sign followed by at least one
    digit whose value is at most [int64_max], and returns that value with its
    sign; in particular every result is an [int64_t] and the arithmetic never
    overflows. *)
Theorem parse_int_spec (text : bytes) (z : Z) :
  parse_int text = Some z ↔
    ∃ sign digits,
      text = sign ++ digits ∧ sign ∈ [[]; bs "-"; bs "+"] ∧ digits ≠ [] ∧
      Forall (λ c, isdigit c = true) digits ∧ dec_value digits ≤ int64_max ∧
      z = (if beq sign (bs "-") then - dec_value digits else dec_value digits).
Proof.
  pose proof (λ s, parse_digits_spec s 0) as Hspec.
  assert (0 ≤ 0 ≤ int64_max) as H0 by (unfold int64_max; lia).
  split.
  - destruct text as [|c rest]; [done|]. unfold parse_int.
    destruct (Byte.eqb c "-" || Byte.eqb c "+") eqn:Hsign.
    + cbn [length]. destruct rest as [|c1 rest]; [done|]. cbn [length Nat.eqb].
      intros (v & Hv & ->)%fmap_Some. apply Hspec in Hv as (Hd & -> & Hle); [|done].
      apply orb_true_iff in Hsign. rewrite !byte_eqb_eq in Hsign.
      exists [c], (c1 :: rest). destruct Hsign as [-> | ->]; set_solver.
    + intros (Hd & -> & Hle)%Hspec; [|done].
      exists [], (c :: rest). set_solver.
  - intros (sign & ds & -> & Hsign & Hne & Hd & Hle & ->).
    assert (parse_digits ds 0 = Some (dec_value ds)) as Hp by (by apply Hspec).
    destruct ds as [|d ds]; [done|].
    rewrite !elem_of_cons, elem_of_nil in Hsign.
    destruct Hsign as [->|[->|[->|[]]]]; cbn [app bs String.list_byte_of_string map
      String.list_ascii_of_string].
    + unfold parse_int. inv Hd.
      assert (Byte.eqb d "-" || Byte.eqb d "+" = false) as ->.
      { apply orb_false_iff. rewrite !byte_eqb_spec, !bool_decide_eq_false.
        by split; intros ->. }
      done.
    + unfold parse_int. cbn [length Nat.eqb]. by rewrite Hp.
    + unfold parse_int. cbn [length Nat.eqb]. by rewrite Hp.
Qed.

(** The arguments of an inline command are the words of its line: the
    splitting loop, run with the fuel the parser gives it, returns a list of
    words if and only if the line is made of those words, in order, separated
    by non-empty runs of white space. *)
Theorem inline_words_spec (line : bytes) (words : list bytes) :
  inline_words (length line) line = words ↔ line_words line words.
Proof.
  split; [|intros; by apply inline_words_complete].
  intros <-. destruct (line_words_total line) as [ws Hws].
  by rewrite (inline_words_complete line ws) by (done || lia).
Qed.

(** A request header split across reads is treated differently from one
    that arrives whole: seventy leading zeros in the argument count are
    accepted in a single read and are a protocol error when the CRLF comes in
    a later one. *)
Theorem parse_request_header_split :
  let header := bs "*" ++ replicate 70 "0"%byte ++ bs "1" in
  let rest := crlf ++ bs "$4" ++ crlf ++ bs "PING" ++ crlf in
  status (parse_request header) = kError ∧
  status (parse_request (header ++ rest)) = kOk ∧
  args (parse_request (header ++ rest)) = [bs "PING"].
Proof. vm_compute. done. Qed.
