(* ===== verification/Glob.v ===== *)
(** * Glob patterns (src/resp.cpp, [glob_match])

    The matcher of KEYS and CONFIG GET walks the pattern and the string with
    two cursors and remembers the last star it passed; on a mismatch it goes
    back to that star and lets it take one more character.  The model keeps the
    cursors as the suffixes they point to.  Patterns have a grammar and a
    meaning that say nothing of cursors; every pattern has exactly one reading,
    and the matcher terminates and decides what it means. *)

From S2P Require Import Prelude.

(** ** The matcher *)

Definition in_range (lo hi c : byte) : bool :=
  let '(lo, hi) := if schar hi <? schar lo then (hi, lo) else (lo, hi) in
  (schar lo <=? schar c) && (schar c <=? schar hi).

(** The loop over a character class; [q] is the pattern from cursor [q] on. *)
Fixpoint class_scan (q : bytes) (c : byte) (matched : bool) : bytes * bool :=
  match q with
  | [] => ([], matched)
  | x :: q1 =>
      if Byte.eqb x "]" then (q, matched)
      else
        match q1 with
        | [] => class_scan q1 c (matched || Byte.eqb x c)
        | y :: q2 =>
            if Byte.eqb x "\" then class_scan q2 c (matched || Byte.eqb y c)
            else
              match q2 with
              | [] => class_scan q1 c (matched || Byte.eqb x c)
              | z :: q3 =>
                  if Byte.eqb y "-" && negb (Byte.eqb z "]") then
                    class_scan q3 c (matched || in_range x z c)
                  else class_scan q1 c (matched || Byte.eqb x c)
              end
        end
  end.

(** The element of the pattern at [p], which is not a star, tried on [c]:
    whether it matches, and the pattern after it. *)
Definition element (p : bytes) (c : byte) : bool * bytes :=
  match p with
  | [] => (false, [])
  | pc :: p' =>
      if Byte.eqb pc "?" then (true, p')
      else if Byte.eqb pc "[" then
        let '(negate, q) :=
          match p' with
          | x :: q => if Byte.eqb x "^" then (true, q) else (false, p')
          | [] => (false, p')
          end in
        let '(q, matched) := class_scan q c false in
        (if negate then negb matched else matched, tail q)
      else
        let '(literal, next) :=
          match p' with
          | x :: next => if Byte.eqb pc "\" then (x, next) else (pc, p')
          | [] => (pc, p')
          end in
        (Byte.eqb literal c, next)
  end.

(** [star]: the pattern after the last star, and the string from [star_s] on. *)
Fixpoint glob_loop (fuel : nat) (p s : bytes) (star : option (bytes * bytes))
    : option bool :=
  match fuel with
  | O => None
  | S fuel' =>
      match s with
      | [] => Some (forallb (Byte.eqb "*") p)
      | c :: s' =>
          let backtrack :=
            match star with
            | Some (star_p, star_s) =>
                glob_loop fuel' star_p (tail star_s) (Some (star_p, tail star_s))
            | None => Some false
            end in
          match p with
          | [] => backtrack
          | pc :: p' =>
              if Byte.eqb pc "*" then glob_loop fuel' p' s (Some (p', s))
              else
                let '(matched, next) := element p c in
                if matched then glob_loop fuel' next s' star else backtrack
          end
      end
  end.

(** Enough iterations for any run ([glob_loop_total]). *)
Definition glob_fuel (pattern str : bytes) : nat :=
  S ((length str + 2) * (length pattern + 1)).

Definition glob_match (pattern str : bytes) : bool :=
  default false (glob_loop (glob_fuel pattern str) pattern str None).

#[global] Arguments glob_match : simpl never.

(** ** What a pattern means *)

Inductive item :=
| IChar (c : byte)
| IRange (lo hi : byte).

Inductive token :=
| TStar
| TAny
| TLiteral (c : byte)
| TClass (negated : bool) (items : list item).

(** A range can be given in either order; characters are signed. *)
Definition item_has (i : item) (c : byte) : Prop :=
  match i with
  | IChar x => c = x
  | IRange lo hi => (schar lo ≤ schar c ≤ schar hi) ∨ (schar hi ≤ schar c ≤ schar lo)
  end.

Definition token_has (t : token) (c : byte) : Prop :=
  match t with
  | TStar => False
  | TAny => True
  | TLiteral x => c = x
  | TClass negated items => negated = false ↔ Exists (λ i, item_has i c) items
  end.

(** A star stands for any string, every other token for one character. *)
Fixpoint denotes (ts : list token) (s : bytes) : Prop :=
  match ts with
  | [] => s = []
  | TStar :: ts => ∃ s1 s2, s = s1 ++ s2 ∧ denotes ts s2
  | t :: ts => ∃ c s', s = c :: s' ∧ token_has t c ∧ denotes ts s'
  end.

(** What follows the opening bracket, or the caret behind it, is read as the
    items of a class and the rest of the pattern: a backslash quotes the next character, a dash between
    two characters makes a range unless the second is the closing bracket, and a
    class that is not closed goes to the end of the pattern. *)
Inductive class_reads : bytes → list item → bytes → Prop :=
| class_closed rest : class_reads ("]"%byte :: rest) [] rest
| class_open : class_reads [] [] []
| class_quoted c q items rest :
    class_reads q items rest → class_reads ("\"%byte :: c :: q) (IChar c :: items) rest
| class_range lo hi q items rest :
    lo ≠ "]"%byte → lo ≠ "\"%byte → hi ≠ "]"%byte →
    class_reads q items rest → class_reads (lo :: "-"%byte :: hi :: q) (IRange lo hi :: items) rest
| class_char c q items rest :
    c ≠ "]"%byte → (c = "\"%byte → q = []) → (∀ hi q', q = "-"%byte :: hi :: q' → hi = "]"%byte) →
    class_reads q items rest → class_reads (c :: q) (IChar c :: items) rest.

(** How a pattern is read.  A backslash at its end is an ordinary character. *)
Inductive reads_as : bytes → list token → Prop :=
| reads_end : reads_as [] []
| reads_star p ts : reads_as p ts → reads_as ("*"%byte :: p) (TStar :: ts)
| reads_any p ts : reads_as p ts → reads_as ("?"%byte :: p) (TAny :: ts)
| reads_class q items rest ts :
    head q ≠ Some "^"%byte → class_reads q items rest → reads_as rest ts →
    reads_as ("["%byte :: q) (TClass false items :: ts)
| reads_negated q items rest ts :
    class_reads q items rest → reads_as rest ts → reads_as ("["%byte :: "^"%byte :: q) (TClass true items :: ts)
| reads_quoted c p ts : reads_as p ts → reads_as ("\"%byte :: c :: p) (TLiteral c :: ts)
| reads_literal c p ts :
    c ≠ "*"%byte → c ≠ "?"%byte → c ≠ "["%byte → (c = "\"%byte → p = []) →
    reads_as p ts → reads_as (c :: p) (TLiteral c :: ts).

(** The language as the matcher goes through it, one element after the other. *)
Inductive glob : bytes → bytes → Prop :=
| glob_nil : glob [] []
| glob_star_none p s : glob p s → glob ("*"%byte :: p) s
| glob_star_more p c s : glob ("*"%byte :: p) s → glob ("*"%byte :: p) (c :: s)
| glob_element pc p next c s :
    pc ≠ "*"%byte → element (pc :: p) c = (true, next) → glob next s →
    glob (pc :: p) (c :: s).

(** ** Lemmas *)

(** Where a class ends does not depend on the character tried. *)
Lemma class_scan_end q c1 c2 m1 m2 :
  (class_scan q c1 m1).1 = (class_scan q c2 m2).1.
Proof.
  remember (length q) as n eqn:Hn. revert q Hn m1 m2.
  induction n as [n IH] using lt_wf_ind. intros q -> m1 m2.
  destruct q as [|x q1]; [done|]. cbn [class_scan].
  split_if; [done|]. destruct q1 as [|y q2]; [done|].
  split_if; [eapply IH; [|done]; cbn; lia|].
  destruct q2 as [|z q3]; [eapply IH; [|done]; cbn; lia|].
  split_if; (eapply IH; [|done]; cbn; lia).
Qed.

Lemma class_scan_length q c m : (length (class_scan q c m).1 ≤ length q)%nat.
Proof.
  remember (length q) as n eqn:Hn. revert q Hn m.
  induction n as [n IH] using lt_wf_ind. intros q -> m.
  destruct q as [|x q1]; [done|]. cbn [class_scan].
  split_if; [done|]. destruct q1 as [|y q2]; [cbn; lia|].
  split_if; [etransitivity; [eapply IH; [|done]|]; cbn; lia|].
  destruct q2 as [|z q3]; [etransitivity; [eapply IH; [|done]|]; cbn; lia|].
  split_if; (etransitivity; [eapply IH; [|done]|]; cbn; lia).
Qed.

Lemma element_next p c1 c2 : (element p c1).2 = (element p c2).2.
Proof.
  unfold element. destruct p as [|pc p']; [done|].
  split_if; [done|]. split_if; [|destruct p'; [done|by split_if]].
  set (nq := match p' with x :: q => _ | [] => _ end). destruct nq as [negate q].
  pose proof (class_scan_end q c1 c2 false false) as E.
  destruct (class_scan q c1 false), (class_scan q c2 false). cbn in *. by subst.
Qed.

Lemma element_length pc p c : (length (element (pc :: p) c).2 ≤ length p)%nat.
Proof.
  unfold element. split_if; [cbn; lia|].
  split_if; [|destruct p; [cbn; lia|split_if; cbn; lia]].
  set (nq := match p with x :: q => _ | [] => _ end).
  assert (length nq.2 ≤ length p)%nat as Hq.
  { subst nq. destruct p as [|x p]; [done|]. split_if; cbn; lia. }
  destruct nq as [negate q]. cbn in Hq. pose proof (class_scan_length q c false).
  destruct (class_scan q c false) as [q' m]. cbn in *. destruct q'; cbn in *; lia.
Qed.

Lemma glob_stars p : glob p [] ↔ forallb (Byte.eqb "*") p = true.
Proof.
  split.
  - remember [] as s eqn:E. induction 1; simplify_eq; cbn; auto.
  - induction p as [|c p IH]; cbn; [constructor|].
    intros [<-%byte_eqb_eq ?]%andb_true_iff. constructor. auto.
Qed.

Lemma glob_star_drop p s : glob ("*"%byte :: p) s ↔ ∃ n, glob p (drop n s).
Proof.
  split.
  - remember ("*"%byte :: p) as q eqn:E. induction 1; simplify_eq.
    + by exists 0%nat.
    + destruct (IHglob eq_refl) as [n Hn]. by exists (S n).
  - intros [n Hn]. revert s Hn. induction n as [|n IH]; intros s Hn.
    + constructor. by rewrite drop_0 in Hn.
    + destruct s as [|c s]; [by constructor|]. apply glob_star_more. by apply IH.
Qed.

Lemma glob_element_inv pc p c s :
  pc ≠ "*"%byte →
  glob (pc :: p) (c :: s) ↔
    (element (pc :: p) c).1 = true ∧ glob (element (pc :: p) c).2 s.
Proof.
  intros Hpc. split.
  - intros H. inv H; [done..|]. match goal with H : element _ _ = _ |- _ => by rewrite H end.
  - intros [H1 H2]. destruct (element (pc :: p) c) as [m next] eqn:E. cbn in *. subst.
    by econstructor.
Qed.

(** The pattern [q] is reached from [p] past [k] elements other than stars. *)
Inductive elements : bytes → nat → bytes → Prop :=
| elements_0 p : elements p 0 p
| elements_S pc p c k q :
    pc ≠ "*"%byte → elements (element (pc :: p) c).2 k q → elements (pc :: p) (S k) q.

Lemma elements_snoc p k pc q c :
  elements p k (pc :: q) → pc ≠ "*"%byte → elements p (S k) (element (pc :: q) c).2.
Proof.
  intros H. remember (pc :: q) as q' eqn:E. induction H; intros; subst.
  - by apply (elements_S _ _ c); [|constructor].
  - econstructor; [done|]. by apply IHelements.
Qed.

Lemma elements_glob p k q s :
  elements p k q → glob p s → (k ≤ length s)%nat ∧ glob q (drop k s).
Proof.
  intros H. revert s. induction H as [p|pc p c k q Hpc _ IH]; intros s Hg.
  { rewrite drop_0. split; [lia|done]. }
  destruct s as [|c' s].
  { apply glob_stars in Hg. cbn in Hg. apply andb_true_iff in Hg as [Hg _].
    by apply byte_eqb_eq in Hg. }
  apply glob_element_inv in Hg as [_ Hg]; [|done].
  rewrite (element_next _ c' c) in Hg. destruct (IH s Hg) as [? ?]. cbn. split; [lia|done].
Qed.

(** The invariant of the matcher: the string still unread is where the
    elements passed since the last star lead. *)
Definition star_ok (p s : bytes) (star : option (bytes * bytes)) : Prop :=
  match star with
  | None => True
  | Some (sp, ss) => ∃ k, elements sp k p ∧ s = drop k ss ∧ (k ≤ length ss)%nat
  end.

(** What the remembered star can still do: take at least one more character. *)
Definition star_alternative (star : option (bytes * bytes)) : Prop :=
  match star with
  | None => False
  | Some (sp, ss) => ∃ n, glob sp (drop (S n) ss)
  end.

Lemma star_alternative_end p star :
  star_ok p [] star → star_alternative star → glob p [].
Proof.
  destruct star as [[sp ss]|]; [|done]. intros (k & Hel & Hs & Hk) (n & Hn).
  destruct (elements_glob _ _ _ _ Hel Hn) as [Hlen Hg].
  rewrite length_drop in Hlen. symmetry in Hs.
  apply (f_equal length) in Hs. rewrite length_drop in Hs. cbn in Hs.
  rewrite drop_drop, drop_ge in Hg by lia. done.
Qed.

Lemma star_alternative_star p s star :
  star_ok ("*"%byte :: p) s star → star_alternative star → glob ("*"%byte :: p) s.
Proof.
  destruct star as [[sp ss]|]; [|done]. intros (k & Hel & -> & Hk) (n & Hn).
  destruct (elements_glob _ _ _ _ Hel Hn) as [_ [m Hm]%glob_star_drop].
  apply glob_star_drop. exists (S n + m)%nat.
  rewrite !drop_drop in Hm. rewrite drop_drop.
  replace (k + (S n + m))%nat with (S n + (k + m))%nat by lia.
  done.
Qed.

(** Backtracking: the star takes exactly one more character, or still more. *)
Lemma star_alternative_step sp c ss :
  star_alternative (Some (sp, c :: ss)) ↔ glob sp ss ∨ star_alternative (Some (sp, ss)).
Proof.
  cbn. split.
  - intros ([|n] & Hn); [left; by rewrite drop_0 in Hn | right; by exists n].
  - intros [H|[n Hn]]; [exists 0%nat; by rewrite drop_0 | by exists (S n)].
Qed.

Lemma glob_star_alternative p s :
  glob ("*"%byte :: p) s ↔ glob p s ∨ star_alternative (Some (p, s)).
Proof.
  rewrite glob_star_drop. split.
  - intros ([|n] & Hn); [left; by rewrite drop_0 in Hn | right; by exists n].
  - intros [H|[n Hn]]; [exists 0%nat; by rewrite drop_0 | by exists (S n)].
Qed.

Lemma glob_loop_correct fuel p s star b :
  glob_loop fuel p s star = Some b → star_ok p s star →
  b = true ↔ glob p s ∨ star_alternative star.
Proof.
  revert p s star. induction fuel as [|fuel IH]; intros p s star; [done|]. cbn [glob_loop].
  destruct s as [|c s].
  { intros [= <-] Hok. rewrite <- glob_stars.
    split; [by left|]. intros [?|?]; [done|]. by eapply star_alternative_end. }
  assert (∀ p', ¬ glob p' (c :: s) → star_ok p' (c :: s) star →
    match star with
    | Some (star_p, star_s) =>
        glob_loop fuel star_p (tail star_s) (Some (star_p, tail star_s))
    | None => Some false
    end = Some b → b = true ↔ glob p' (c :: s) ∨ star_alternative star) as Hback.
  { intros p' Hno Hok. destruct star as [[sp ss]|]; [|intros [= <-]; naive_solver].
    destruct Hok as (k & Hel & Hs & Hk).
    destruct ss as [|c' ss]; [by destruct k|]. cbn [tail]. intros Hb.
    apply IH in Hb.
    - rewrite Hb, star_alternative_step. naive_solver.
    - exists 0%nat. split; [constructor|]. rewrite drop_0. split; [done|lia]. }
  destruct p as [|pc p].
  { intros Hb Hok. apply Hback; [|done..]. intros Hg. inv Hg. }
  destruct (Byte.eqb pc "*") eqn:Hpc.
  - apply byte_eqb_eq in Hpc as ->. intros Hb Hok. apply IH in Hb.
    + rewrite Hb, <- glob_star_alternative. split; [by left|].
      intros [?|?]; [done|]. by eapply star_alternative_star.
    + exists 0%nat. split; [constructor|]. rewrite drop_0. split; [done|lia].
  - rewrite byte_eqb_spec in Hpc. apply bool_decide_eq_false in Hpc.
    destruct (element (pc :: p) c) as [m next] eqn:E. destruct m.
    + intros Hb Hok. apply IH in Hb.
      * rewrite Hb, (glob_element_inv pc p c s Hpc), E. naive_solver.
      * destruct star as [[sp ss]|]; [|done]. destruct Hok as (k & Hel & Hs & Hk).
        exists (S k). split.
        { change next with (true, next).2. rewrite <- E. by apply elements_snoc. }
        assert (k < length ss)%nat.
        { apply (f_equal length) in Hs. rewrite length_drop in Hs. cbn in Hs. lia. }
        split; [|lia]. replace (S k) with (k + 1)%nat by lia.
        by rewrite <- drop_drop, <- Hs.
    + intros Hb Hok. apply Hback; [|done..].
      rewrite glob_element_inv by done. rewrite E. naive_solver.
Qed.

(** Each iteration makes the remaining work smaller: a pass shortens the
    pattern, a backtrack the string the star has left. *)
Definition glob_measure (n : nat) (p s : bytes) (star : option (bytes * bytes)) : nat :=
  match star with
  | None => (length s + 1) * (n + 1) + length p
  | Some (_, ss) => length ss * (n + 1) + length p
  end.

Lemma glob_loop_total n fuel p s star :
  (length p ≤ n)%nat →
  match star with
  | None => True
  | Some (sp, ss) => (length sp ≤ n)%nat ∧ (length s ≤ length ss)%nat
  end →
  (glob_measure n p s star < fuel)%nat → is_Some (glob_loop fuel p s star).
Proof.
  revert p s star. induction fuel as [|fuel IH]; intros p s star Hp Hstar Hf; [lia|].
  cbn [glob_loop]. destruct s as [|c s]; [done|].
  assert (is_Some match star with
    | Some (star_p, star_s) =>
        glob_loop fuel star_p (tail star_s) (Some (star_p, tail star_s))
    | None => Some false
    end) as Hback.
  { destruct star as [[sp ss]|]; [|done]. destruct Hstar as [Hsp Hss].
    destruct ss as [|c' ss]; [cbn in Hss; lia|]. cbn [tail].
    apply IH; [done|done|]. cbn in *. lia. }
  destruct p as [|pc p]; [done|]. cbn [length] in *.
  split_if.
  - apply IH; [lia|split; [lia|done]|].
    destruct star as [[sp ss]|]; cbn in *; [|lia].
    destruct Hstar as [_ Hss]. pose proof (Nat.mul_le_mono_r _ _ (n + 1) Hss). cbn in *. lia.
  - pose proof (element_length pc p c) as Hnext.
    destruct (element (pc :: p) c) as [m next]. cbn in Hnext.
    destruct m; [|done]. apply IH; [lia| |].
    + destruct star as [[sp ss]|]; [|done]. cbn in *. lia.
    + destruct star as [[sp ss]|]; cbn in *; lia.
Qed.

(** ** Readings *)

Lemma class_reads_det q items rest items' rest' :
  class_reads q items rest → class_reads q items' rest' → items' = items ∧ rest' = rest.
Proof.
  intros H. revert items' rest'. induction H as [| |c q its r _ IH|lo hi q its r H1 H2 H3 _ IH|c q its r H1 H2 H3 _ IH];
    intros items' rest' H'; inv H'; try done; try (edestruct IH as [-> ->]; [done|]; done);
    try (by naive_solver).
Qed.

Lemma reads_det p ts ts' : reads_as p ts → reads_as p ts' → ts' = ts.
Proof.
  intros H. revert ts'. induction H; intros ts' H'; inv H'; try done; try (f_equal; by auto);
    try (by naive_solver);
    match goal with H1 : class_reads ?q _ _, H2 : class_reads ?q _ _ |- _ =>
      destruct (class_reads_det _ _ _ _ _ H1 H2) as [-> ->] end; f_equal; auto.
Qed.

Lemma in_range_has lo hi c : in_range lo hi c = true ↔ item_has (IRange lo hi) c.
Proof.
  unfold in_range. cbn. destruct (Z.ltb_spec (schar hi) (schar lo));
    rewrite andb_true_iff, !Z.leb_le; lia.
Qed.

(** Some class is read where one is scanned, and the scan tells whether one of
    its items has the character. *)
Lemma class_scan_reads q :
  ∃ items rest, class_reads q items rest ∧
    ∀ c m, tail (class_scan q c m).1 = rest ∧
      ((class_scan q c m).2 = true ↔ m = true ∨ Exists (λ i, item_has i c) items).
Proof.
  remember (length q) as n eqn:Hn. revert q Hn. induction n as [n IH] using lt_wf_ind. intros q ->.
  assert (∀ q1 i test, (length q1 < length q)%nat → (∀ c, test c = true ↔ item_has i c) →
    (∀ c m, class_scan q c m = class_scan q1 c (m || test c)) →
    (∀ items rest, class_reads q1 items rest → class_reads q (i :: items) rest) →
    ∃ items rest, class_reads q items rest ∧ ∀ c m, tail (class_scan q c m).1 = rest ∧
      ((class_scan q c m).2 = true ↔ m = true ∨ Exists (λ i, item_has i c) items)) as Hstep.
  { intros q1 i test Hl Ht Hs Hr. destruct (IH _ Hl q1 eq_refl) as (items & rest & Hq & Hc).
    exists (i :: items), rest. split; [by apply Hr|]. intros c m. rewrite Hs.
    destruct (Hc c (m || test c)) as [-> ->]. split; [done|]. rewrite Exists_cons, orb_true_iff, Ht. naive_solver. }
  assert (∀ x c, Byte.eqb x c = true ↔ item_has (IChar x) c) as Hchar
    by (intros x c; rewrite byte_eqb_eq; cbn; naive_solver).
  destruct q as [|x q1].
  { exists [], []. split; [constructor|]. intros c m. cbn. split; [done|]. rewrite Exists_nil. naive_solver. }
  destruct (decide (x = "]"%byte)) as [->|Hx].
  { exists [], q1. split; [constructor|]. intros c m. cbn. split; [done|]. rewrite Exists_nil. naive_solver. }
  assert (Byte.eqb x "]" = false) as Ex by (rewrite byte_eqb_spec; by apply bool_decide_eq_false).
  destruct q1 as [|y q2].
  { eapply (Hstep [] (IChar x) (Byte.eqb x)); [cbn; lia|auto| |].
    - intros c m. cbn [class_scan]. by rewrite Ex.
    - intros items rest H. by apply class_char. }
  destruct (decide (x = "\"%byte)) as [->|Hx'].
  { eapply (Hstep q2 (IChar y) (Byte.eqb y)); [cbn; lia|auto|done|]. intros. by constructor. }
  assert (Byte.eqb x "\" = false) as Ex' by (rewrite byte_eqb_spec; by apply bool_decide_eq_false).
  destruct (match q2 with z :: _ => Byte.eqb y "-" && negb (Byte.eqb z "]") | [] => false end) eqn:Er.
  - destruct q2 as [|z q3]; [done|]. pose proof Er as [->%byte_eqb_eq Hz]%andb_true_iff.
    eapply (Hstep q3 (IRange x z) (in_range x z)); [cbn; lia|apply in_range_has| |].
    + intros c m. cbn [class_scan]. by rewrite Ex, Ex', Er.
    + intros. constructor; try done. intros ->. by cbn in Hz.
  - eapply (Hstep (y :: q2) (IChar x) (Byte.eqb x)); [cbn; lia|auto| |].
    + intros c m. cbn [class_scan]. rewrite Ex, Ex'. destruct q2 as [|z q3]; [done|]. by rewrite Er.
    + intros items rest H. constructor; try done. intros hi q' [= -> ->]. cbn in Er.
      apply negb_false_iff in Er. by apply byte_eqb_eq.
Qed.

(** An element that is no star is read as a token, which has the characters the
    element matches. *)
Lemma element_reads pc p :
  pc ≠ "*"%byte → ∃ t next, t ≠ TStar ∧ (length next ≤ length p)%nat ∧
    (∀ c, (element (pc :: p) c).2 = next ∧ ((element (pc :: p) c).1 = true ↔ token_has t c)) ∧
    ∀ ts, reads_as next ts → reads_as (pc :: p) (t :: ts).
Proof.
  intros Hs. pose proof (element_length pc p pc) as Hlen. unfold element in Hlen |- *.
  destruct (decide (pc = "?"%byte)) as [->|H1].
  { exists TAny, p. split_and!; try done. intros ts. apply reads_any. }
  assert (Byte.eqb pc "?" = false) as E1 by (rewrite byte_eqb_spec; by apply bool_decide_eq_false). rewrite E1 in *.
  destruct (decide (pc = "["%byte)) as [->|H2].
  - cbn [Byte.eqb] in *. set (nq := match p with x :: q => _ | [] => _ end) in *.
    assert (∃ negate q, nq = (negate, q) ∧
      (∀ items rest ts, class_reads q items rest → reads_as rest ts → reads_as ("["%byte :: p) (TClass negate items :: ts)))
      as (negate & q & -> & Hr).
    { unfold nq. destruct p as [|x q]; [eexists false, []; split; [done|]; intros; by eapply reads_class|].
      destruct (Byte.eqb x "^") eqn:Ex.
      - apply byte_eqb_eq in Ex as ->. eexists true, q. split; [done|]. intros. by eapply reads_negated.
      - eexists false, (x :: q). split; [done|]. intros. eapply reads_class; [|done..]. intros [= ->]. done. }
    destruct (class_scan_reads q) as (items & rest & Hq & Hc). exists (TClass negate items), rest. split_and!; [done| | |].
    + destruct (Hc "["%byte false) as [<- _]. by destruct (class_scan q "[" false).
    + intros c. destruct (Hc c false) as [Hn Hm]. destruct (class_scan q c false) as [q' m]. cbn in *.
      split; [done|]. destruct negate, m; cbn; naive_solver.
    + intros ts. by apply Hr.
  - assert (Byte.eqb pc "[" = false) as E2 by (rewrite byte_eqb_spec; by apply bool_decide_eq_false). rewrite E2 in *.
    assert (∃ x next, match p with x :: next => if Byte.eqb pc "\" then (x, next) else (pc, p) | [] => (pc, p) end =
      (x, next) ∧ ∀ ts, reads_as next ts → reads_as (pc :: p) (TLiteral x :: ts)) as (x & next & E & Hr).
    { destruct p as [|x next]; [eexists pc, []; split; [done|]; intros; by apply reads_literal|].
      destruct (Byte.eqb pc "\") eqn:Ex.
      - apply byte_eqb_eq in Ex as ->. eexists x, next. split; [done|]. intros. by constructor.
      - eexists pc, (x :: next). split; [done|]. intros. apply reads_literal; try done. by intros ->. }
    rewrite E in *. exists (TLiteral x), next. split_and!; try done. intros c. split; [done|].
    cbn. rewrite byte_eqb_eq. naive_solver.
Qed.

Lemma glob_reads p : ∃ ts, reads_as p ts ∧ ∀ s, glob p s ↔ denotes ts s.
Proof.
  remember (length p) as n eqn:Hn. revert p Hn. induction n as [n IH] using lt_wf_ind. intros [|pc p] ->.
  { exists []. split; [constructor|]. intros s. cbn. split; [by inversion 1|]. intros ->. constructor. }
  destruct (decide (pc = "*"%byte)) as [->|Hpc].
  - destruct (IH (length p) ltac:(cbn; lia) p eq_refl) as (ts & Hts & Hd). exists (TStar :: ts).
    split; [by constructor|]. intros s. cbn. rewrite glob_star_drop. split.
    + intros [k Hk]. exists (take k s), (drop k s). rewrite take_drop. split; [done|]. by apply Hd.
    + intros (s1 & s2 & -> & Hs2). exists (length s1). rewrite drop_app_length. by apply Hd.
  - destruct (element_reads pc p Hpc) as (t & next & Ht & Hlen & Hel & Hr).
    destruct (IH (length next) ltac:(cbn; lia) next eq_refl) as (ts & Hts & Hd). exists (t :: ts).
    split; [by apply Hr|]. intros s. assert (denotes (t :: ts) s ↔ ∃ c s', s = c :: s' ∧ token_has t c ∧ denotes ts s')
      as -> by (by destruct t). split.
    + destruct s as [|c s]; [intros Hg; by inv Hg|]. rewrite glob_element_inv by done. destruct (Hel c) as [-> ->].
      intros [? ?]. exists c, s. by rewrite <- Hd.
    + intros (c & s' & -> & Hc & Hs). rewrite glob_element_inv by done. destruct (Hel c) as [-> ->].
      by rewrite Hd.
Qed.

(** ** Properties *)

(** C31: [glob_match] decides what patterns mean.  Every pattern has exactly one
    reading as a list of stars, question marks, literals and classes, with their
    ranges, negation and quoting; and the backtracking loop, with the fuel the
    model gives it, answers true exactly for the strings this reading denotes:
    a star stands for any string, every other token for one character that it
    has. *)
Theorem glob_match_correct (pattern : bytes) :
  ∃ ts, reads_as pattern ts ∧ (∀ ts', reads_as pattern ts' → ts' = ts) ∧
    ∀ str, glob_match pattern str = true ↔ denotes ts str.
Proof.
  destruct (glob_reads pattern) as (ts & Hr & Hd). exists ts. split_and!; [done|by intros; eapply reads_det|].
  intros str. rewrite <- Hd. unfold glob_match.
  destruct (glob_loop_total (length pattern) (glob_fuel pattern str) pattern str None)
    as [b Hb]; [done|done|unfold glob_fuel; cbn; lia|].
  rewrite Hb. cbn. rewrite (glob_loop_correct _ _ _ _ _ Hb) by done. cbn. naive_solver.
Qed.

(** C32: The matcher terminates: for every pattern and string the loop returns
    within (|string| + 2) * (|pattern| + 1) + 1 iterations. *)
Theorem glob_match_terminates (pattern str : bytes) :
  ∃ b, glob_loop (glob_fuel pattern str) pattern str None = Some b.
Proof.
  apply (glob_loop_total (length pattern)); [done|done|]. unfold glob_fuel. cbn. lia.
Qed.
