(* ===== verification/UnorderedMap.v ===== *)
(** * [std::unordered_map] with string keys

    The keyspace is kept in hash tables whose iteration order and bucket layout
    the C++ standard leaves open and which depend on the history of the table.
    Clients are therefore written against the interface below: a table has a
    finite map as its contents, and iterating it, or walking its buckets, lists
    those contents in some order. *)

From S2P Require Import Prelude.

Class UnorderedMap := {
  um : Type → Type;
  um_empty {V} : um V;
  um_find {V} : um V → bytes → option V;
  um_insert {V} : bytes → V → um V → um V;
  um_erase {V} : bytes → um V → um V;
  um_clear {V} : um V → um V;
  um_size {V} : um V → nat;
  um_iter {V} : um V → list (bytes * V);
  um_buckets {V} : um V → list (list bytes);
  contents {V} : um V → gmap bytes V;
  um_find_contents {V} (m : um V) k : um_find m k = contents m !! k;
  contents_empty {V} : contents (um_empty : um V) = ∅;
  contents_insert {V} k v (m : um V) : contents (um_insert k v m) = <[k:=v]> (contents m);
  contents_erase {V} k (m : um V) : contents (um_erase k m) = delete k (contents m);
  contents_clear {V} (m : um V) : contents (um_clear m) = ∅;
  um_size_contents {V} (m : um V) : um_size m = base.size (contents m);
  um_iter_perm {V} (m : um V) : um_iter m ≡ₚ map_to_list (contents m);
  um_buckets_perm {V} (m : um V) : mjoin (um_buckets m) ≡ₚ (map_to_list (contents m)).*1
}.

#[export] Hint Rewrite @um_find_contents @contents_empty @contents_insert
  @contents_erase @contents_clear @um_size_contents : um.

(** [m.empty()], [m.bucket_count()] *)
Definition um_is_empty `{UnorderedMap} {V} (m : um V) : bool := Nat.eqb (um_size m) 0.
Definition um_bucket_count `{UnorderedMap} {V} (m : um V) : nat := length (um_buckets m).

(** ** An implementation, with one bucket per key and a spare one *)

#[local] Program Instance gmap_table : UnorderedMap := {|
  um V := gmap bytes V;
  um_empty V := ∅;
  um_find V m k := m !! k;
  um_insert V k v m := <[k:=v]> m;
  um_erase V k m := delete k m;
  um_clear V m := ∅;
  um_size V m := base.size m;
  um_iter V m := map_to_list m;
  um_buckets V m := [] :: ((λ k, [k]) <$> (map_to_list m).*1);
  contents V m := m
|}.
Solve Obligations with done.
Next Obligation.
  intros V m. cbn. generalize ((map_to_list m).*1). intros l.
  induction l as [|k l IH]; cbn; [done|]. by rewrite IH.
Qed.

(** ** Lemmas *)

Section Lemmas.
Context `{UM : UnorderedMap} {V : Type}.
Implicit Types m : um V.

Lemma um_iter_keys m : (um_iter m).*1 ≡ₚ (map_to_list (contents m)).*1.
Proof. by rewrite um_iter_perm. Qed.

Lemma um_iter_elem m k v : (k, v) ∈ um_iter m ↔ contents m !! k = Some v.
Proof. rewrite um_iter_perm. apply elem_of_map_to_list. Qed.

Lemma um_iter_NoDup m : NoDup (um_iter m).*1.
Proof. rewrite um_iter_keys. apply NoDup_fst_map_to_list. Qed.

Lemma um_buckets_elem m k : k ∈ mjoin (um_buckets m) ↔ is_Some (contents m !! k).
Proof.
  rewrite um_buckets_perm, list_elem_of_fmap. split.
  - intros ([k' v] & -> & ?%elem_of_map_to_list). by eexists.
  - intros [v Hv]. exists (k, v). by rewrite elem_of_map_to_list.
Qed.

Lemma um_buckets_NoDup m : NoDup (mjoin (um_buckets m)).
Proof. rewrite um_buckets_perm. apply NoDup_fst_map_to_list. Qed.

Lemma um_buckets_length m : length (mjoin (um_buckets m)) = base.size (contents m).
Proof. rewrite um_buckets_perm, length_fmap, length_map_to_list. done. Qed.

End Lemmas.
