(* ===== verification/Store.v ===== *)
(** * The keyspace (include/rp/store.hpp, src/store.cpp)

    [Store] holds the values in one hash table and the deadlines of the keys
    that have one in a second, and reads an injected clock.  Every call of the
    clock is a reading of its own in the model, because the code reads it
    several times in one operation. *)

From S2P Require Import Prelude UnorderedMap Glob.

(** ** Data *)

Definition kNoExpiry : Z := -1.

Record ExpiryConfig := mkExpiryConfig {
  sample_size : nat;
  continue_threshold_pct : Z;
  max_passes : nat
}.

Definition default_ExpiryConfig : ExpiryConfig := mkExpiryConfig 20 25 16.

(** Counters of type [std::uint64_t]. *)
Record ExpiryStats := mkExpiryStats {
  expired_lazy : Z;
  expired_active : Z;
  cycles : Z;
  passes : Z
}.

(** [struct Record] of the source. *)
Record KeyRecord := mkKeyRecord { key : bytes; value : bytes; expire_at : Z }.

Record Entry := mkEntry { entry_value : bytes }.

Section Store.
Context `{UM : UnorderedMap}.

(** [clock_ i] is the i-th reading of the clock; [ticks] counts the readings
    made so far.  The other fields are those of the class. *)
Record Store := mkStore {
  map_ : um Entry;
  expires_ : um Z;
  cursor_ : nat;
  stats_ : ExpiryStats;
  clock_ : nat → Z;
  ticks : nat
}.

Definition new_store (clock : nat → Z) : Store :=
  mkStore um_empty um_empty 0 (mkExpiryStats 0 0 0 0) clock 0.

Definition set_tables (s : Store) (m : um Entry) (e : um Z) : Store :=
  mkStore m e (cursor_ s) (stats_ s) (clock_ s) (ticks s).

Definition set_cursor (s : Store) (c : nat) : Store :=
  mkStore (map_ s) (expires_ s) c (stats_ s) (clock_ s) (ticks s).

Definition set_stats (s : Store) (st : ExpiryStats) : Store :=
  mkStore (map_ s) (expires_ s) (cursor_ s) st (clock_ s) (ticks s).

Definition clock (s : Store) : Z * Store :=
  (clock_ s (ticks s),
   mkStore (map_ s) (expires_ s) (cursor_ s) (stats_ s) (clock_ s) (S (ticks s))).

Definition count_lazy (s : Store) : Store :=
  let st := stats_ s in
  set_stats s (mkExpiryStats (wrap64 (expired_lazy st + 1)) (expired_active st)
                             (cycles st) (passes st)).

Definition count_active (n : nat) (s : Store) : Store :=
  let st := stats_ s in
  set_stats s (mkExpiryStats (expired_lazy st) (wrap64 (expired_active st + Z.of_nat n))
                             (cycles st) (passes st)).

Definition count_cycle (s : Store) : Store :=
  let st := stats_ s in
  set_stats s (mkExpiryStats (expired_lazy st) (expired_active st)
                             (wrap64 (cycles st + 1)) (passes st)).

Definition count_pass (s : Store) : Store :=
  let st := stats_ s in
  set_stats s (mkExpiryStats (expired_lazy st) (expired_active st)
                             (cycles st) (wrap64 (passes st + 1))).

(** ** Operations *)

(** The clock is read only for a key that has a deadline. *)
Definition is_expired (k : bytes) (s : Store) : bool * Store :=
  match um_find (expires_ s) k with
  | None => (false, s)
  | Some deadline => let '(now, s) := clock s in (deadline <=? now, s)
  end.

Definition remove (k : bytes) (s : Store) : Store :=
  set_tables s (um_erase k (map_ s)) (um_erase k (expires_ s)).

Definition get (k : bytes) (s : Store) : option bytes * Store :=
  match um_find (map_ s) k with
  | None => (None, s)
  | Some e =>
      let '(expired, s) := is_expired k s in
      if expired then (None, count_lazy (remove k s))
      else (Some (entry_value e), s)
  end.

Definition set (k v : bytes) (expire_at : Z) (s : Store) : Store :=
  set_tables s (um_insert k (mkEntry v) (map_ s))
    (if expire_at =? kNoExpiry then um_erase k (expires_ s)
     else um_insert k expire_at (expires_ s)).

Definition erase (k : bytes) (s : Store) : bool * Store :=
  match um_find (map_ s) k with
  | None => (false, s)
  | Some _ =>
      let '(expired, s) := is_expired k s in
      let was_live := negb expired in
      let s := if negb was_live then count_lazy s else s in
      (was_live, remove k s)
  end.

Definition contains (k : bytes) (s : Store) : bool * Store :=
  let '(v, s) := get k s in (bool_decide (is_Some v), s).

Definition pttl (k : bytes) (s : Store) : outcome (Z * Store) :=
  match um_find (map_ s) k with
  | None => Ret (-2, s)
  | Some _ =>
      let '(expired, s) := is_expired k s in
      if expired then Ret (-2, count_lazy (remove k s))
      else
        match um_find (expires_ s) k with
        | None => Ret (-1, s)
        | Some deadline =>
            let '(now, s) := clock s in
            remaining ← sub64 deadline now;
            Ret (remaining, s)
        end
  end.

Definition set_expire_at (k : bytes) (deadline_ms : Z) (s : Store) : bool * Store :=
  match um_find (map_ s) k with
  | None => (false, s)
  | Some _ =>
      let '(expired, s) := is_expired k s in
      if expired then (false, count_lazy (remove k s))
      else
        let '(now, s) := clock s in
        if deadline_ms <=? now then (true, remove k s)
        else (true, set_tables s (map_ s) (um_insert k deadline_ms (expires_ s)))
  end.

Definition persist (k : bytes) (s : Store) : bool * Store :=
  match um_find (map_ s) k with
  | None => (false, s)
  | Some _ =>
      let '(expired, s) := is_expired k s in
      if expired then (false, count_lazy (remove k s))
      else
        (bool_decide (is_Some (um_find (expires_ s) k)),
         set_tables s (map_ s) (um_erase k (expires_ s)))
  end.

(** The loop of [keys] over the table: live keys that match, and dead keys. *)
Definition keys_step (pattern : bytes) (acc : list bytes * list bytes * Store)
    (kv : bytes * Entry) : list bytes * list bytes * Store :=
  let '(out, dead, s) := acc in
  let '(expired, s) := is_expired kv.1 s in
  if expired then (out, dead ++ [kv.1], s)
  else if glob_match pattern kv.1 then (out ++ [kv.1], dead, s)
  else (out, dead, s).

Definition keys (pattern : bytes) (s : Store) : list bytes * Store :=
  let '(out, dead, s) := foldl (keys_step pattern) ([], [], s) (um_iter (map_ s)) in
  (out, foldl (λ s k, count_lazy (remove k s)) s dead).

Definition raw_size (s : Store) : nat := um_size (map_ s).

Definition expires_size (s : Store) : nat := um_size (expires_ s).

(** The subtraction is of [std::size_t] values. *)
Definition store_size (s : Store) : Z * Store :=
  let '(now, s') := clock s in
  let expired := length (filter (λ kd : bytes * Z, kd.2 ≤ now) (um_iter (expires_ s))) in
  (wrap64 (Z.of_nat (um_size (map_ s)) - Z.of_nat expired), s').

Definition clear (s : Store) : Store :=
  set_cursor (set_tables s (um_clear (map_ s)) (um_clear (expires_ s))) 0.

(** The bucket walk of [sample_expiring]; [left] is [buckets - visited]. *)
Fixpoint sample_loop (buckets : list (list bytes)) (cursor n left visited : nat)
    (out : list bytes) : list bytes * nat :=
  match left with
  | O => (out, visited)
  | S left' =>
      if Nat.ltb (length out) n then
        let bucket := ((cursor + visited) mod length buckets)%nat in
        let here := default [] (buckets !! bucket) in
        sample_loop buckets cursor n left' (S visited) (out ++ take (n - length out) here)
      else (out, visited)
  end.

Definition sample_expiring (n : nat) (s : Store) : list bytes * Store :=
  if um_is_empty (expires_ s) || Nat.eqb n 0 then ([], s)
  else
    let buckets := um_bucket_count (expires_ s) in
    if Nat.eqb buckets 0 then ([], s)
    else
      let cursor := if Nat.leb buckets (cursor_ s) then 0%nat else cursor_ s in
      let '(out, visited) :=
        sample_loop (um_buckets (expires_ s)) cursor n buckets 0 [] in
      (out, set_cursor s ((cursor + visited) mod buckets)).

(** Sampled keys whose deadline has passed; the index is looked up again. *)
Definition past_deadline (now : Z) (s : Store) (k : bytes) : bool :=
  match um_find (expires_ s) k with Some d => d <=? now | None => false end.

Definition remove_all (dead : list bytes) (s : Store) : Store :=
  foldl (λ s k, remove k s) s dead.

(** The passes of one expiry cycle; the int threshold is converted to
    [std::size_t] before the multiplication. *)
Fixpoint expire_passes (n : nat) (cfg : ExpiryConfig) (total : nat) (s : Store)
    : nat * Store :=
  match n with
  | O => (total, s)
  | S n' =>
      if um_is_empty (expires_ s) then (total, s)
      else
        let s := count_pass s in
        let '(sampled, s) := sample_expiring (sample_size cfg) s in
        match sampled with
        | [] => (total, s)
        | _ :: _ =>
            let '(now, s) := clock s in
            let dead := filter (λ k, past_deadline now s k = true) sampled in
            let s := remove_all dead s in
            let total := (total + length dead)%nat in
            let s := count_active (length dead) s in
            let threshold :=
              wrap64 (Z.of_nat (length sampled) * wrap64 (continue_threshold_pct cfg)) / 100 in
            if Z.of_nat (length dead) <=? threshold then (total, s)
            else expire_passes n' cfg total s
        end
  end.

Definition active_expire_cycle (cfg : ExpiryConfig) (s : Store) : nat * Store :=
  expire_passes (max_passes cfg) cfg 0 (count_cycle s).

(** The record written for an entry, unless the key is already dead. *)
Definition snapshot_entry (now : Z) (s : Store) (kv : bytes * Entry) : option KeyRecord :=
  let deadline := default kNoExpiry (um_find (expires_ s) kv.1) in
  if negb (deadline =? kNoExpiry) && (deadline <=? now) then None
  else Some (mkKeyRecord kv.1 (entry_value kv.2) deadline).

Definition snapshot (s : Store) : list KeyRecord * Store :=
  let '(now, s') := clock s in
  (omap (snapshot_entry now s) (um_iter (map_ s)), s').

Definition load_record (r : KeyRecord) (s : Store) : Store :=
  if expire_at r =? kNoExpiry then set (key r) (value r) (expire_at r) s
  else
    let '(now, s) := clock s in
    if expire_at r <=? now then s
    else set (key r) (value r) (expire_at r) s.

(** What a start and a full resync do with the records they read. *)
Definition load_records (rs : list KeyRecord) (s : Store) : Store :=
  foldl (λ s r, load_record r s) s rs.

Fixpoint reap_scan (limit : nat) (now : Z) (index : list (bytes * Z)) (dead : list bytes)
    : list bytes :=
  match index with
  | [] => dead
  | (k, deadline) :: index' =>
      if Nat.leb limit (length dead) then dead
      else reap_scan limit now index' (if deadline <=? now then dead ++ [k] else dead)
  end.

Definition reap_expired (limit : nat) (s : Store) : nat * Store :=
  let '(now, s) := clock s in
  let dead := reap_scan limit now (um_iter (expires_ s)) [] in
  (length dead, count_active (length dead) (remove_all dead s)).

End Store.
