(* ===== verification/Keyspace.v ===== *)
(** * What the store promises: a keyspace with deadlines

    The abstract state is a finite map from keys to a value and an optional
    deadline; keys whose deadline has passed are not in it.  [view t s] is the
    keyspace a store represents at time [t].  Every operation of the store is
    shown to act on the view as the corresponding operation of the keyspace,
    whatever expired entries the store still holds. *)

From S2P Require Import Prelude UnorderedMap Glob Store.

(** ** The abstract keyspace *)

Abbreviation keyspace := (gmap bytes (bytes * option Z)).

(** A deadline [d] has passed at [t] when [t >= d]. *)
Definition alive (t : Z) (d : option Z) : bool :=
  match d with None => true | Some d => t <? d end.

#[global] Arguments alive : simpl never.

Definition ks_expire (t : Z) (v : keyspace) : keyspace :=
  filter (λ kv, alive t kv.2.2 = true) v.

Definition ks_set_deadline (k : bytes) (d : option Z) (v : keyspace) : keyspace :=
  alter (λ x, (x.1, d)) k v.

Definition ks_has_deadline (k : bytes) (v : keyspace) : bool :=
  match v !! k with Some (_, Some _) => true | _ => false end.

Definition to_deadline (e : Z) : option Z := if e =? kNoExpiry then None else Some e.

Definition of_deadline (d : option Z) : Z := default kNoExpiry d.

Section Keyspace.
Context `{UM : UnorderedMap}.
Implicit Types s : Store.

Definition view_entry (t : Z) (e : gmap bytes Z) (k : bytes) (x : Entry)
    : option (bytes * option Z) :=
  if alive t (e !! k) then Some (entry_value x, e !! k) else None.

Definition view (t : Z) (s : Store) : keyspace :=
  map_imap (view_entry t (contents (expires_ s))) (contents (map_ s)).

(** The next reading of the clock. *)
Definition now (s : Store) : Z := clock_ s (ticks s).

(** The representation invariant: only stored keys are in the deadline index,
    and what it holds are [int64_t] deadlines other than the "none" marker. *)
Record store_wf (s : Store) : Prop := {
  wf_dom : dom (contents (expires_ s)) ⊆ dom (contents (map_ s));
  wf_deadline k d :
    contents (expires_ s) !! k = Some d → d ≠ kNoExpiry ∧ int64_min ≤ d ≤ int64_max
}.

(** The clock gives the milliseconds since the epoch, as an [int64_t]. *)
Definition clock_wf (s : Store) : Prop := ∀ i, 0 ≤ clock_ s i ≤ int64_max.

(** [s'] comes after [s]: the clock is the same and may have been read. *)
Definition later (s s' : Store) : Prop :=
  clock_ s' = clock_ s ∧ (ticks s ≤ ticks s')%nat.

(** All readings between two states gave [t]. *)
Definition steady (t : Z) (s s' : Store) : Prop :=
  ∀ i, (ticks s ≤ i < ticks s')%nat → clock_ s i = t.

(** ** Lemmas on the view *)

Lemma view_lookup t s k :
  view t s !! k =
    x ← contents (map_ s) !! k; view_entry t (contents (expires_ s)) k x.
Proof. apply map_lookup_imap. Qed.

Lemma view_lookup_Some t s k v d :
  view t s !! k = Some (v, d) ↔
    contents (map_ s) !! k = Some (mkEntry v) ∧
    contents (expires_ s) !! k = d ∧ alive t d = true.
Proof.
  rewrite view_lookup. unfold view_entry. destruct (contents (map_ s) !! k) as [[v']|]; cbn.
  - split_if; split.
    + by intros [= <- <-].
    + by intros ([= ->] & <- & _).
    + done.
    + intros (_ & <- & ?). congruence.
  - by split; [|intros (? & _)].
Qed.

Lemma view_ext t s s' :
  contents (map_ s) = contents (map_ s') → contents (expires_ s) = contents (expires_ s') →
  view t s = view t s'.
Proof. unfold view. by intros -> ->. Qed.

Lemma alive_mono t t' d : t ≤ t' → alive t' d = true → alive t d = true.
Proof. unfold alive. destruct d; [|done]. rewrite !Z.ltb_lt. lia. Qed.

Lemma view_expire t t' s : t ≤ t' → view t' s = ks_expire t' (view t s).
Proof.
  intros Ht. apply map_eq. intros k. apply option_eq. intros [v d].
  unfold ks_expire. rewrite map_lookup_filter_Some, !view_lookup_Some. cbn.
  pose proof (alive_mono t t' d Ht). naive_solver.
Qed.

Lemma ks_expire_idem t s : ks_expire t (view t s) = view t s.
Proof. symmetry. by apply view_expire. Qed.

(** Erasing a key from both tables erases it from every view. *)
Lemma view_remove t k s : view t (remove k s) = delete k (view t s).
Proof.
  apply map_eq. intros k'. apply option_eq. intros [v d].
  rewrite lookup_delete_Some, !view_lookup_Some. cbn. autorewrite with um.
  rewrite !lookup_delete. repeat case_decide; naive_solver.
Qed.

Lemma view_set t k x e s :
  view t (set k x e s) = ks_expire t (<[k:=(x, to_deadline e)]> (view t s)).
Proof.
  apply map_eq. intros k'. apply option_eq. intros [v d]. unfold ks_expire.
  rewrite map_lookup_filter_Some, lookup_insert, view_lookup_Some. cbn.
  unfold to_deadline. autorewrite with um. rewrite lookup_insert.
  case_decide as Hk; subst.
  - split_if; autorewrite with um; rewrite ?lookup_insert_eq, ?lookup_delete_eq; naive_solver.
  - rewrite view_lookup_Some.
    split_if; autorewrite with um; rewrite ?lookup_insert_ne, ?lookup_delete_ne by done; naive_solver.
Qed.

Lemma view_clear t s : view t (clear s) = ∅.
Proof.
  apply map_eq. intros k. rewrite view_lookup. cbn. autorewrite with um. by rewrite !lookup_empty.
Qed.

Lemma view_new t c : view t (new_store c) = ∅.
Proof. apply map_eq. intros k. rewrite view_lookup. cbn. autorewrite with um. by rewrite !lookup_empty. Qed.

(** A key that is not in the view can be erased unnoticed, now and later. *)
Lemma view_remove_dead t t' k s :
  view t s !! k = None → t ≤ t' → view t' (remove k s) = view t' s.
Proof.
  intros Hk Ht. rewrite view_remove. apply delete_id.
  rewrite (view_expire t t') by done. unfold ks_expire.
  rewrite map_lookup_filter, Hk. done.
Qed.

(** ** Lemmas on time *)

Lemma later_refl s : later s s.
Proof. by split. Qed.

Lemma later_trans s1 s2 s3 : later s1 s2 → later s2 s3 → later s1 s3.
Proof. intros [? ?] [? ?]. split; [congruence | lia]. Qed.

Lemma clock_wf_later s s' : later s s' → clock_wf s → clock_wf s'.
Proof. intros [E _] H i. rewrite E. apply H. Qed.

Lemma steady_split t s s1 s' :
  later s s1 → later s1 s' → steady t s s' → steady t s s1 ∧ steady t s1 s'.
Proof.
  intros [E1 ?] [E2 ?] Hs. split; intros i Hi; [|rewrite E1]; apply Hs; lia.
Qed.

Lemma clock_later s : later s (clock s).2.
Proof. split; cbn; [done | lia]. Qed.

Lemma steady_clock t s s' : later (clock s).2 s' → steady t s s' → now s = t.
Proof. intros [_ Hl] H. apply H. cbn in Hl. lia. Qed.

(** Reading the deadline of a key changes nothing but the clock. *)
Lemma is_expired_frame k s b s' :
  is_expired k s = (b, s') →
  map_ s' = map_ s ∧ expires_ s' = expires_ s ∧ stats_ s' = stats_ s ∧ later s s'.
Proof.
  unfold is_expired. destruct (um_find _ _); cbn; intros; simplify_eq; cbn;
    eauto using later_refl. split_and!; [done..|]. apply clock_later.
Qed.

Lemma is_expired_alive k s b s' t :
  is_expired k s = (b, s') → steady t s s' →
  b = negb (alive t (contents (expires_ s) !! k)).
Proof.
  unfold is_expired. rewrite um_find_contents.
  destruct (contents _ !! k) as [d|]; cbn; intros; simplify_eq; [|done].
  assert (clock_ s (ticks s) = t) as -> by (eapply (steady_clock t s); [|done]; apply later_refl).
  unfold alive. by rewrite Z.ltb_antisym, negb_involutive.
Qed.

Lemma view_is_expired t k s b s' : is_expired k s = (b, s') → view t s' = view t s.
Proof. intros (Em & Ee & _)%is_expired_frame. apply view_ext; by rewrite ?Em, ?Ee. Qed.

(** A stored key is in the view exactly when it has not expired. *)
Lemma view_lookup_stored t k s x :
  contents (map_ s) !! k = Some x →
  view t s !! k = if alive t (contents (expires_ s) !! k)
                  then Some (entry_value x, contents (expires_ s) !! k) else None.
Proof. intros H. rewrite view_lookup, H. done. Qed.

Lemma view_lookup_absent t k s : contents (map_ s) !! k = None → view t s !! k = None.
Proof. intros H. by rewrite view_lookup, H. Qed.

(** ** Operations on one key *)

Lemma count_lazy_view t s : view t (count_lazy s) = view t s.
Proof. done. Qed.

Lemma get_later k s : later s (get k s).2.
Proof.
  unfold get. destruct (um_find _ _); [|apply later_refl].
  destruct (is_expired k s) as [b s1] eqn:E. apply is_expired_frame in E.
  destruct b; cbn; naive_solver.
Qed.

Lemma get_spec t k s r s' :
  get k s = (r, s') → steady t s s' →
  r = fst <$> view t s !! k ∧ (∀ t', t ≤ t' → view t' s' = view t' s).
Proof.
  unfold get. rewrite um_find_contents.
  destruct (contents (map_ s) !! k) as [x|] eqn:Hx.
  2: { intros [= <- <-] _. by rewrite view_lookup_absent. }
  destruct (is_expired k s) as [b s1] eqn:E. intros H Hst.
  pose proof (is_expired_frame _ _ _ _ E) as (_ & _ & _ & Hl).
  assert (steady t s s1) as Hst1 by (destruct b; by simplify_eq).
  pose proof (is_expired_alive _ _ _ _ _ E Hst1) as Hb.
  rewrite (view_lookup_stored t k s x Hx).
  destruct (alive t _) eqn:Ha; simplify_eq/=.
  - split; [done|]. intros t' _. by apply (view_is_expired t' k s false).
  - split; [done|]. intros t' Ht. rewrite count_lazy_view.
    rewrite (view_remove_dead t t' k s1); [by apply (view_is_expired t' k s true)| |done].
    rewrite (view_is_expired t _ _ _ _ E), (view_lookup_stored t k s x Hx). by rewrite Ha.
Qed.

Lemma contains_later k s : later s (contains k s).2.
Proof. unfold contains. pose proof (get_later k s). by destruct (get k s). Qed.

Lemma contains_spec t k s b s' :
  contains k s = (b, s') → steady t s s' →
  b = bool_decide (is_Some (view t s !! k)) ∧ (∀ t', t ≤ t' → view t' s' = view t' s).
Proof.
  unfold contains. destruct (get k s) as [r s1] eqn:E. intros [= <- <-] Hst.
  destruct (get_spec _ _ _ _ _ E Hst) as [-> Hv]. split; [|done].
  apply bool_decide_ext. by rewrite fmap_is_Some.
Qed.

Lemma erase_later k s : later s (erase k s).2.
Proof.
  unfold erase. destruct (um_find _ _); [|apply later_refl].
  destruct (is_expired k s) as [b s1] eqn:E. apply is_expired_frame in E.
  destruct b; cbn; naive_solver.
Qed.

Lemma erase_spec t k s b s' :
  erase k s = (b, s') → steady t s s' →
  b = bool_decide (is_Some (view t s !! k)) ∧ (∀ t', view t' s' = delete k (view t' s)).
Proof.
  unfold erase. rewrite um_find_contents.
  destruct (contents (map_ s) !! k) as [x|] eqn:Hx.
  2: { intros [= <- <-] _. rewrite view_lookup_absent by done. split; [done|].
       intros t'. symmetry. apply delete_id. by apply view_lookup_absent. }
  destruct (is_expired k s) as [e s1] eqn:E. intros [= <- <-] Hst.
  assert (steady t s s1) as Hst1 by (by destruct e).
  pose proof (is_expired_alive _ _ _ _ _ E Hst1) as ->.
  rewrite (view_lookup_stored t k s x Hx), negb_involutive. split.
  - by destruct (alive t _).
  - intros t'. rewrite <- (view_is_expired t' _ _ _ _ E), view_remove.
    by destruct (alive t _).
Qed.

Lemma pttl_later k s r s' : pttl k s = Ret (r, s') → later s s'.
Proof.
  unfold pttl. destruct (um_find (map_ s) k); [|by intros [= <- <-]].
  destruct (is_expired k s) as [b s1] eqn:E. apply is_expired_frame in E as (_ & _ & _ & Hl).
  destruct b; [by intros [= <- <-]|].
  destruct (um_find (expires_ s1) k); [|by intros [= <- <-]]. cbn.
  intros (d & _ & [= <- <-])%bind_Ret. eapply later_trans; [done|apply clock_later].
Qed.

(** [pttl] with all its clock readings at [t]. *)
Definition ks_pttl (t : Z) (k : bytes) (v : keyspace) : Z :=
  match v !! k with
  | None => -2
  | Some (_, None) => -1
  | Some (_, Some d) => d - t
  end.

Lemma pttl_spec t k s r s' :
  pttl k s = Ret (r, s') → steady t s s' →
  r = ks_pttl t k (view t s) ∧ (∀ t', t ≤ t' → view t' s' = view t' s).
Proof.
  intros H Hst. pose proof (pttl_later _ _ _ _ H) as Hl. revert H.
  unfold pttl, ks_pttl. rewrite um_find_contents.
  destruct (contents (map_ s) !! k) as [x|] eqn:Hx.
  2: { intros [= <- <-]. by rewrite view_lookup_absent. }
  rewrite (view_lookup_stored t k s x Hx).
  destruct (is_expired k s) as [b s1] eqn:E.
  pose proof (is_expired_frame _ _ _ _ E) as (Em & Ee & _ & Hl1).
  rewrite Ee, um_find_contents.
  assert (∀ t', view t' s1 = view t' s) as Hv1 by (intros; by eapply view_is_expired).
  destruct b; cbn.
  - intros [= <- <-]. pose proof (is_expired_alive _ _ _ _ _ E Hst) as Hb.
    symmetry in Hb. apply negb_true_iff in Hb. rewrite Hb. split; [done|].
    intros t' Ht. rewrite count_lazy_view, (view_remove_dead t) by (rewrite ?Hv1; try done;
      by rewrite (view_lookup_stored t k s x Hx), Hb). apply Hv1.
  - intros Hr.
    assert (steady t s s1) as Hst1.
    { destruct (contents (expires_ s) !! k); [|by simplify_eq]. revert Hr.
      intros (d & _ & [= <- <-])%bind_Ret.
      by apply (steady_split t s s1) in Hst as [? _]; [|done|apply clock_later]. }
    pose proof (is_expired_alive _ _ _ _ _ E Hst1) as Hb.
    symmetry in Hb. apply negb_false_iff in Hb. rewrite Hb.
    destruct (contents (expires_ s) !! k) as [d|]; [|by simplify_eq].
    revert Hr. intros (d' & [_ ->]%checked64_Ret & [= <- <-])%bind_Ret.
    split; [|intros t' _; apply Hv1].
    apply (steady_split t s s1) in Hst as [_ Hst]; [|done|apply clock_later].
    f_equal. eapply (steady_clock t s1); [|done]. apply later_refl.
Qed.

Lemma set_expire_at_later k d s : later s (set_expire_at k d s).2.
Proof.
  unfold set_expire_at. destruct (um_find _ _); [|apply later_refl].
  destruct (is_expired k s) as [b s1] eqn:E. apply is_expired_frame in E as (_ & _ & _ & Hl).
  destruct b; [done|]. cbn. eapply later_trans; [done|].
  destruct (d <=? _); apply clock_later.
Qed.

(** The view after the deadline of a live key is replaced. *)
Lemma view_set_deadline t t' k d s x (e : um Z) :
  t ≤ t' →
  contents (map_ s) !! k = Some x → alive t (contents (expires_ s) !! k) = true →
  contents e = partial_alter (λ _, d) k (contents (expires_ s)) →
  view t' (set_tables s (map_ s) e) = ks_expire t' (ks_set_deadline k d (view t s)).
Proof.
  intros Ht Hx Ha He. apply map_eq. intros k'. apply option_eq. intros [v d'].
  unfold ks_expire, ks_set_deadline.
  rewrite map_lookup_filter_Some, view_lookup_Some, lookup_alter. cbn. rewrite He.
  destruct (decide (k = k')) as [<-|Hne].
  - rewrite lookup_partial_alter_eq, (view_lookup_stored t k s x Hx), Ha. cbn.
    destruct x as [x]; cbn. rewrite Hx. naive_solver.
  - rewrite lookup_partial_alter_ne by done. rewrite view_lookup_Some.
    pose proof (alive_mono t t' d' Ht). naive_solver.
Qed.

Lemma ks_set_deadline_absent (k : bytes) (d : option Z) (v : keyspace) : v !! k = None → ks_set_deadline k d v = v.
Proof.
  intros Hk. apply map_eq. intros k'. unfold ks_set_deadline. rewrite lookup_alter.
  case_decide; subst; [by rewrite Hk | done].
Qed.

Lemma set_expire_at_spec t k d s b s' :
  set_expire_at k d s = (b, s') → steady t s s' →
  b = bool_decide (is_Some (view t s !! k)) ∧
  (∀ t', t ≤ t' → view t' s' = ks_expire t' (ks_set_deadline k (Some d) (view t s))).
Proof.
  unfold set_expire_at. rewrite um_find_contents.
  destruct (contents (map_ s) !! k) as [x|] eqn:Hx.
  2: { intros [= <- <-] _. pose proof (view_lookup_absent t k s Hx) as Hk. rewrite Hk.
       split; [done|]. intros t' Ht. rewrite ks_set_deadline_absent by done.
       by apply view_expire. }
  destruct (is_expired k s) as [e s1] eqn:E. intros H Hst.
  pose proof (is_expired_frame _ _ _ _ E) as (Em & Ee & _ & Hl).
  assert (∀ t', view t' s1 = view t' s) as Hv1 by (intros; by eapply view_is_expired).
  pose proof (view_lookup_stored t k s x Hx) as Hk. destruct e.
  - simplify_eq. pose proof (is_expired_alive _ _ _ _ _ E Hst) as Hb.
    symmetry in Hb. apply negb_true_iff in Hb. rewrite Hb in Hk. rewrite Hk.
    split; [done|]. intros t' Ht. rewrite ks_set_deadline_absent by done.
    rewrite count_lazy_view, (view_remove_dead t) by (rewrite ?Hv1; done).
    rewrite Hv1. by apply view_expire.
  - assert (later (clock s1).2 s') as Hl2 by (cbn in H; destruct (d <=? _); simplify_eq; split; cbn; (done || lia)).
    assert (steady t s s1 ∧ steady t s1 s') as [Hst1 Hst2].
    { apply steady_split; [done| |done]. eapply later_trans; [apply clock_later|done]. }
    pose proof (is_expired_alive _ _ _ _ _ E Hst1) as Hb.
    symmetry in Hb. apply negb_false_iff in Hb. rewrite Hb in Hk. rewrite Hk.
    pose proof (steady_clock t s1 s' Hl2 Hst2) as Hnow. unfold now in Hnow. cbn in H.
    rewrite Hnow in H. split_if; simplify_eq; (split; [done|]); intros t' Ht; breflect.
    + rewrite view_remove. change (view t' _) with (view t' s1) at 1. rewrite Hv1.
      apply map_eq. intros k'. apply option_eq. intros [v d'].
      unfold ks_expire, ks_set_deadline.
      rewrite lookup_delete, map_lookup_filter_Some, lookup_alter.
      case_decide as Hkk; subst.
      * rewrite Hk. cbn. split; [done|]. intros [[= <- <-] Hal].
        unfold alive in Hal. breflect. lia.
      * rewrite !view_lookup_Some. cbn. pose proof (alive_mono (clock_ s1 (ticks s1)) t' d' Ht).
        naive_solver.
    + rewrite <- Hv1. apply (view_set_deadline _ _ _ _ (clock s1).2 x); cbn; [done| | |].
      * by rewrite Em.
      * by rewrite Ee.
      * by autorewrite with um.
Qed.

Lemma persist_later k s : later s (persist k s).2.
Proof.
  unfold persist. destruct (um_find _ _); [|apply later_refl].
  destruct (is_expired k s) as [b s1] eqn:E. apply is_expired_frame in E as (_ & _ & _ & Hl).
  by destruct b.
Qed.

Lemma persist_spec t k s b s' :
  persist k s = (b, s') → steady t s s' →
  b = ks_has_deadline k (view t s) ∧
  (∀ t', t ≤ t' → view t' s' = ks_expire t' (ks_set_deadline k None (view t s))).
Proof.
  unfold persist, ks_has_deadline. rewrite um_find_contents.
  destruct (contents (map_ s) !! k) as [x|] eqn:Hx.
  2: { intros [= <- <-] _. pose proof (view_lookup_absent t k s Hx) as Hk. rewrite Hk.
       split; [done|]. intros t' Ht. rewrite ks_set_deadline_absent by done. by apply view_expire. }
  destruct (is_expired k s) as [e s1] eqn:E. intros H Hst.
  pose proof (is_expired_frame _ _ _ _ E) as (Em & Ee & _ & Hl).
  assert (∀ t', view t' s1 = view t' s) as Hv1 by (intros; by eapply view_is_expired).
  pose proof (view_lookup_stored t k s x Hx) as Hk.
  assert (steady t s s1) as Hst1 by (by destruct e; simplify_eq).
  pose proof (is_expired_alive _ _ _ _ _ E Hst1) as Hb. destruct e; simplify_eq.
  - symmetry in Hb. apply negb_true_iff in Hb. rewrite Hb in Hk. rewrite Hk.
    split; [done|]. intros t' Ht. rewrite ks_set_deadline_absent by done.
    rewrite count_lazy_view, (view_remove_dead t) by (rewrite ?Hv1; done).
    rewrite Hv1. by apply view_expire.
  - symmetry in Hb. apply negb_false_iff in Hb. rewrite Hb in Hk. rewrite Hk. split.
    + rewrite um_find_contents, Ee. by destruct (contents (expires_ s) !! k).
    + intros t' Ht. rewrite <- Hv1. apply (view_set_deadline _ _ _ _ s1 x); [done| | |].
      * by rewrite Em.
      * by rewrite Ee.
      * by autorewrite with um.
Qed.

(** ** The representation invariant *)

Lemma wf_tables s s' :
  contents (map_ s') = contents (map_ s) → contents (expires_ s') = contents (expires_ s) →
  store_wf s → store_wf s'.
Proof. intros Em Ee [H1 H2]. split; rewrite ?Em, ?Ee; done. Qed.

Lemma wf_remove k s : store_wf s → store_wf (remove k s).
Proof.
  intros [H1 H2]. split; cbn; autorewrite with um.
  - rewrite !dom_delete_L. set_solver.
  - intros k' d (_ & Hd)%lookup_delete_Some. by apply (H2 k').
Qed.

Lemma wf_set k v e s :
  store_wf s → int64_min ≤ e ≤ int64_max → store_wf (set k v e s).
Proof.
  intros [H1 H2] He. split; cbn; autorewrite with um.
  - split_if; autorewrite with um; rewrite ?dom_insert_L, ?dom_delete_L; set_solver.
  - intros k' d. split_if; autorewrite with um.
    + intros (_ & Hd)%lookup_delete_Some. by apply (H2 k').
    + intros [[<- <-]|[_ Hd]]%lookup_insert_Some; [|by apply (H2 k')]. by breflect.
Qed.

Lemma wf_count_lazy s : store_wf (count_lazy s) ↔ store_wf s.
Proof. split; apply wf_tables; done. Qed.

Lemma wf_new c : store_wf (new_store c).
Proof. split; cbn; autorewrite with um; set_solver. Qed.

Lemma wf_clear s : store_wf (clear s).
Proof. split; cbn; autorewrite with um; set_solver. Qed.

Lemma wf_is_expired k s b s' : is_expired k s = (b, s') → store_wf s → store_wf s'.
Proof. intros (Em & Ee & _)%is_expired_frame. apply wf_tables; by rewrite ?Em, ?Ee. Qed.

Lemma wf_get k s : store_wf s → store_wf (get k s).2.
Proof.
  intros H. unfold get. destruct (um_find _ _); [|done].
  destruct (is_expired k s) as [b s1] eqn:E. apply wf_is_expired in E; [|done].
  destruct b; [|done]. apply wf_count_lazy. by apply wf_remove.
Qed.

Lemma wf_contains k s : store_wf s → store_wf (contains k s).2.
Proof. intros H%(wf_get k). unfold contains. by destruct (get k s). Qed.

Lemma wf_erase k s : store_wf s → store_wf (erase k s).2.
Proof.
  intros H. unfold erase. destruct (um_find _ _); [|done].
  destruct (is_expired k s) as [b s1] eqn:E. apply wf_is_expired in E; [|done].
  destruct b; apply wf_remove; [by apply wf_count_lazy|done].
Qed.

Lemma wf_pttl k s r s' : store_wf s → pttl k s = Ret (r, s') → store_wf s'.
Proof.
  intros H. unfold pttl. destruct (um_find (map_ s) k); [|by intros [= <- <-]].
  destruct (is_expired k s) as [b s1] eqn:E. apply wf_is_expired in E; [|done].
  destruct b; [intros [= <- <-]; apply wf_count_lazy; by apply wf_remove|].
  destruct (um_find (expires_ s1) k); [|by intros [= <- <-]]. cbn.
  intros (d & _ & [= <- <-])%bind_Ret. by apply (wf_tables s1).
Qed.

Lemma wf_set_expire_at k d s :
  store_wf s → clock_wf s → int64_min ≤ d ≤ int64_max → store_wf (set_expire_at k d s).2.
Proof.
  intros H Hc Hd. unfold set_expire_at. rewrite um_find_contents.
  destruct (contents (map_ s) !! k) eqn:Hk; [|done].
  destruct (is_expired k s) as [b s1] eqn:E. pose proof (wf_is_expired _ _ _ _ E H) as H1.
  apply is_expired_frame in E as (Em & _ & _ & Hl).
  destruct b; [apply wf_count_lazy; by apply wf_remove|]. cbn.
  destruct (Z.leb_spec d (clock_ s1 (ticks s1))) as [|Hlt].
  - apply wf_remove. by apply (wf_tables s1).
  - destruct H1 as [H1 H2]. split; cbn; autorewrite with um.
    + rewrite dom_insert_L, Em in *. apply union_subseteq. split; [|done].
      apply singleton_subseteq_l, elem_of_dom. eauto.
    + intros k' d' [[<- <-]|[_ Hd']]%lookup_insert_Some; [|by apply (H2 k')].
      pose proof (clock_wf_later _ _ Hl Hc (ticks s1)). unfold kNoExpiry. lia.
Qed.

Lemma wf_persist k s : store_wf s → store_wf (persist k s).2.
Proof.
  intros H. unfold persist. destruct (um_find _ _); [|done].
  destruct (is_expired k s) as [b s1] eqn:E. apply wf_is_expired in E; [|done].
  destruct b; [apply wf_count_lazy; by apply wf_remove|]. destruct E as [H1 H2].
  split; cbn; autorewrite with um.
  - rewrite dom_delete_L. set_solver.
  - intros k' d (_ & Hd)%lookup_delete_Some. by apply (H2 k').
Qed.

Lemma wf_load_record r s :
  store_wf s → int64_min ≤ expire_at r ≤ int64_max → store_wf (load_record r s).
Proof.
  intros H Hr. unfold load_record. split_if; [by apply wf_set|]. cbn.
  split_if; [by apply (wf_tables s)|]. apply wf_set; [|done]. by apply (wf_tables s).
Qed.

(** With the clock running from the epoch on, [pttl] never overflows. *)
Lemma pttl_defined k s : store_wf s → clock_wf s → defined (pttl k s).
Proof.
  intros Hwf Hc. unfold pttl, defined. destruct (um_find (map_ s) k); [|eauto].
  destruct (is_expired k s) as [b s1] eqn:E.
  pose proof (wf_is_expired _ _ _ _ E Hwf) as Hwf1.
  pose proof (is_expired_frame _ _ _ _ E) as (_ & Ee & _ & Hl).
  destruct b; [eauto|]. rewrite um_find_contents.
  destruct (contents (expires_ s1) !! k) as [d|] eqn:Hd; [|eauto]. cbn.
  pose proof (wf_deadline _ Hwf1 k d Hd) as [_ Hr].
  pose proof (clock_wf_later _ _ Hl Hc (ticks s1)) as Hn.
  assert (0 ≤ d).
  { revert E. unfold is_expired. rewrite um_find_contents, <- Ee, Hd. cbn.
    intros [= Hb <-]. breflect. specialize (Hc (ticks s)). cbn in *. lia. }
  unfold sub64, checked64.
  assert (in_int64 (d - clock_ s1 (ticks s1)) = true) as ->.
  { apply in_int64_spec. unfold int64_min, int64_max in *. lia. }
  cbn. eauto.
Qed.

End Keyspace.

#[export] Hint Resolve wf_get wf_contains wf_erase wf_set wf_remove wf_persist
  wf_set_expire_at wf_new wf_clear wf_load_record : redis.
#[export] Hint Resolve later_refl get_later contains_later erase_later
  set_expire_at_later persist_later clock_later : redis.
