(* ===== verification/StoreScan.v ===== *)
(** * Operations that scan the keyspace (src/store.cpp)

    KEYS, the key count, snapshots and their loading, and the two expiry
    sweeps, related to the abstract keyspace of Keyspace.v: scans see exactly
    the live keys in some order, and sweeps remove only dead ones. *)

From S2P Require Import Prelude UnorderedMap Glob Store Keyspace.

Section Scan.
Context `{UM : UnorderedMap}.
Implicit Types s : Store.

(** The live keys, in the order of the table. *)
Definition live_keys (t : Z) (s : Store) : list bytes :=
  filter (λ k, alive t (contents (expires_ s) !! k) = true) (um_iter (map_ s)).*1.

Lemma live_keys_view t s : live_keys t s ≡ₚ (map_to_list (view t s)).*1.
Proof.
  apply NoDup_Permutation.
  - apply NoDup_filter, um_iter_NoDup.
  - apply NoDup_fst_map_to_list.
  - intros k. unfold live_keys. rewrite list_elem_of_filter, !list_elem_of_fmap. split.
    + intros (Ha & [k' x] & -> & Hx%um_iter_elem).
      exists (k', (entry_value x, contents (expires_ s) !! k')). split; [done|].
      apply elem_of_map_to_list. rewrite (view_lookup_stored t k' s x Hx). cbn in Ha. by rewrite Ha.
    + intros ([k' [v d]] & -> & Hv%elem_of_map_to_list).
      apply view_lookup_Some in Hv as (Hm & He & Ha). cbn. split; [by rewrite He|].
      exists (k', mkEntry v). split; [done|]. by apply um_iter_elem.
Qed.

(** ** Removing dead keys *)

Lemma remove_all_cons k dead s : remove_all (k :: dead) s = remove_all dead (remove k s).
Proof. done. Qed.

Lemma remove_all_view t t' dead s :
  t ≤ t' → Forall (λ k, view t s !! k = None) dead →
  view t' (remove_all dead s) = view t' s.
Proof.
  intros Ht. revert s. induction dead as [|k dead IH]; intros s Hd; [done|].
  inv Hd. rewrite remove_all_cons, IH.
  - by apply (view_remove_dead t).
  - eapply Forall_impl; [done|]. intros k' Hk'. rewrite view_remove.
    apply lookup_delete_None. by right.
Qed.

Lemma remove_all_later dead s : clock_ (remove_all dead s) = clock_ s ∧ ticks (remove_all dead s) = ticks s.
Proof. revert s. induction dead as [|k dead IH]; intros s; [done|]. apply (IH (remove k s)). Qed.

Lemma remove_all_wf dead s : store_wf s → store_wf (remove_all dead s).
Proof. revert s. induction dead as [|k dead IH]; intros s Hs; [done|]. apply IH. by apply wf_remove. Qed.

Lemma remove_all_expires dead s k :
  contents (expires_ (remove_all dead s)) !! k =
    if decide (k ∈ dead) then None else contents (expires_ s) !! k.
Proof.
  revert s. induction dead as [|k0 dead IH]; intros s; [done|].
  rewrite remove_all_cons, IH. cbn. autorewrite with um.
  destruct (decide (k ∈ dead)), (decide (k ∈ k0 :: dead)); [done|set_solver| |].
  - rewrite lookup_delete, decide_True; [done|set_solver].
  - rewrite lookup_delete_ne; [done|set_solver].
Qed.

Lemma remove_all_expires_size dead s :
  NoDup dead → Forall (λ k, is_Some (contents (expires_ s) !! k)) dead →
  (base.size (contents (expires_ (remove_all dead s))) + length dead)%nat =
    base.size (contents (expires_ s)).
Proof.
  revert s. induction dead as [|k dead IH]; intros s Hnd Hd; [cbn; lia|].
  inv Hnd. inv Hd. rewrite remove_all_cons. cbn [length]. rewrite Nat.add_succ_r, IH.
  - cbn. autorewrite with um. rewrite map_size_delete.
    match goal with H : is_Some _ |- _ => destruct H as [d Hd']; rewrite Hd' end.
    assert (base.size (contents (expires_ s)) ≠ 0%nat); [|cbn; lia].
    intros H0%map_size_empty_inv. by rewrite H0 in Hd'.
  - done.
  - apply Forall_forall. intros k' Hk'. cbn. autorewrite with um.
    rewrite lookup_delete_ne by (intros ->; done).
    match goal with H : Forall _ dead |- _ => by apply (proj1 (Forall_forall _ _) H) end.
Qed.

(** ** KEYS *)

Lemma keys_fold t pattern l out dead s out' dead' s' :
  foldl (keys_step pattern) (out, dead, s) l = (out', dead', s') →
  later s s' ∧ map_ s' = map_ s ∧ expires_ s' = expires_ s ∧
  (steady t s s' →
   out' = out ++ filter (λ k, glob_match pattern k = true)
     (filter (λ k, alive t (contents (expires_ s) !! k) = true) l.*1) ∧
   dead' = dead ++ filter (λ k, alive t (contents (expires_ s) !! k) = false) l.*1).
Proof.
  revert out dead s. induction l as [|[k x] l IH]; intros out dead s.
  { intros [= <- <- <-]. split; [apply later_refl|]. do 2 (split; [done|]).
    intros _. by rewrite !app_nil_r. }
  cbn [foldl fmap list_fmap fst]. unfold keys_step at 2. cbn [fst].
  destruct (is_expired k s) as [b s1] eqn:E. intros H.
  pose proof (is_expired_frame _ _ _ _ E) as (Em & Ee & _ & Hl).
  assert (∃ o d, foldl (keys_step pattern) (o, d, s1) l = (out', dead', s') ∧
    o = out ++ (if negb b && glob_match pattern k then [k] else []) ∧
    d = dead ++ (if b then [k] else [])) as (o & d & Hf & -> & ->).
  { destruct b; [|destruct (glob_match pattern k)]; cbn; rewrite ?app_nil_r; eauto. }
  apply IH in Hf as (Hl1 & Em1 & Ee1 & Hf).
  split; [by eapply later_trans|]. split; [congruence|]. split; [congruence|].
  intros Hst. apply (steady_split t s s1) in Hst as [Hst1 Hst2]; [|done..].
  destruct (Hf Hst2) as [-> ->].
  pose proof (is_expired_alive _ _ _ _ _ E Hst1) as Hb.
  rewrite Ee, <- !app_assoc, !filter_cons.
  destruct (alive t (contents (expires_ s) !! k)); subst b; cbn [negb andb app].
  - rewrite decide_True, decide_False, filter_cons by done. split; [|done].
    by destruct (glob_match pattern k).
  - by rewrite decide_False, decide_True by done.
Qed.

Lemma lazy_removals_view t t' dead s :
  t ≤ t' → Forall (λ k, view t s !! k = None) dead →
  view t' (foldl (λ s k, count_lazy (remove k s)) s dead) = view t' s.
Proof.
  intros Ht. revert s. induction dead as [|k dead IH]; intros s Hd; [done|].
  inv Hd. cbn. rewrite IH.
  - rewrite count_lazy_view. by apply (view_remove_dead t).
  - eapply Forall_impl; [done|]. intros k' Hk'. rewrite count_lazy_view, view_remove.
    apply lookup_delete_None. by right.
Qed.

Lemma lazy_removals_later dead s :
  later s (foldl (λ s k, count_lazy (remove k s)) s dead).
Proof.
  revert s. induction dead as [|k dead IH]; intros s; cbn; [apply later_refl|].
  eapply later_trans; [|apply IH]. by split.
Qed.

Lemma lazy_removals_wf dead s :
  store_wf s → store_wf (foldl (λ s k, count_lazy (remove k s)) s dead).
Proof.
  revert s. induction dead as [|k dead IH]; intros s Hs; [done|]. cbn.
  apply IH. apply wf_count_lazy. by apply wf_remove.
Qed.

Lemma keys_later pattern s : later s (keys pattern s).2.
Proof.
  unfold keys. destruct (foldl _ _ _) as [[out dead] s1] eqn:E.
  apply (keys_fold 0) in E as (Hl & _). cbn. eapply later_trans; [done|].
  apply lazy_removals_later.
Qed.

Lemma keys_wf pattern s : store_wf s → store_wf (keys pattern s).2.
Proof.
  intros H. unfold keys. destruct (foldl _ _ _) as [[out dead] s1] eqn:E.
  apply (keys_fold 0) in E as (_ & Em & Ee & _). cbn. apply lazy_removals_wf.
  by apply (wf_tables s); rewrite ?Em, ?Ee.
Qed.

Lemma keys_spec t pattern s out s' :
  keys pattern s = (out, s') → steady t s s' →
  out ≡ₚ filter (λ k, glob_match pattern k = true) (map_to_list (view t s)).*1 ∧
  (∀ t', t ≤ t' → view t' s' = view t' s).
Proof.
  unfold keys. destruct (foldl _ _ _) as [[out' dead] s1] eqn:E. intros [= <- <-] Hst.
  apply (keys_fold t) in E as (Hl & Em & Ee & HE).
  apply (steady_split t s s1) in Hst as [Hst1 _]; [|done|apply lazy_removals_later].
  destruct (HE Hst1) as [-> ->]. split.
  - cbn. apply filter_Permutation, live_keys_view.
  - intros t' Ht. rewrite (lazy_removals_view t t').
    + by apply view_ext; rewrite ?Em, ?Ee.
    + done.
    + apply Forall_forall. intros k [Hd _]%list_elem_of_filter.
      rewrite view_lookup, Em, Ee. unfold view_entry.
      destruct (contents (map_ s) !! k); [|done]. cbn. by rewrite Hd.
Qed.

(** ** The number of keys *)

Lemma dom_view t s :
  dom (view t s) =
    dom (contents (map_ s)) ∖
      dom (filter (λ kd : bytes * Z, kd.2 ≤ t) (contents (expires_ s))).
Proof.
  apply set_eq. intros k. rewrite elem_of_difference, !elem_of_dom. split.
  - intros [[v d] (Hm & He & Ha)%view_lookup_Some]. split; [eauto|].
    intros [d' (Hd & Hle)%map_lookup_filter_Some]. cbn in Hle.
    rewrite Hd in He. subst d. unfold alive in Ha. breflect. lia.
  - intros [[x Hx] Hno]. rewrite (view_lookup_stored t k s x Hx).
    destruct (contents (expires_ s) !! k) as [d|] eqn:Hd; [|done].
    unfold alive. destruct (Z.ltb_spec t d); [done|]. exfalso. apply Hno.
    exists d. by apply map_lookup_filter_Some.
Qed.

Lemma count_dead (t : Z) (m : gmap bytes Z) :
  length (filter (λ kd : bytes * Z, kd.2 ≤ t) (map_to_list m)) =
    base.size (filter (λ kd : bytes * Z, kd.2 ≤ t) m).
Proof.
  induction m as [|k d m Hk IH] using map_ind.
  { by rewrite map_to_list_empty, map_filter_empty, map_size_empty. }
  rewrite map_to_list_insert, filter_cons by done. case_decide as Hd; cbn.
  - rewrite map_filter_insert_True, map_size_insert_None, IH; [done| |done].
    apply map_lookup_filter_None. by left.
  - rewrite map_filter_insert_False, delete_id, IH by done. done.
Qed.

Lemma store_size_view s :
  store_wf s →
  (base.size (contents (map_ s)) =
    length (filter (λ kd : bytes * Z, (kd.2 ≤ now s)%Z) (um_iter (expires_ s))) +
    base.size (view (now s) s))%nat.
Proof.
  intros Hwf. rewrite um_iter_perm, count_dead, <- !size_dom, dom_view.
  rewrite size_difference; [|etransitivity; [|apply (wf_dom _ Hwf)]].
  - assert (base.size (dom (filter (λ kd : bytes * Z, (kd.2 ≤ now s)%Z) (contents (expires_ s)))) ≤
      base.size (dom (contents (map_ s))))%nat; [|lia].
    apply subseteq_size. etransitivity; [|apply (wf_dom _ Hwf)].
    apply dom_filter_subseteq.
  - apply dom_filter_subseteq.
Qed.

Lemma store_size_spec s :
  store_wf s → Z.of_nat (raw_size s) < 2 ^ 64 →
  (store_size s).1 = Z.of_nat (base.size (view (now s) s)).
Proof.
  intros Hwf Hsize. unfold store_size, raw_size in *. rewrite um_size_contents in *. cbn [fst clock].
  pose proof (store_size_view s Hwf) as E. unfold now in *.
  unfold wrap64. rewrite Z.mod_small; lia.
Qed.

(** ** Snapshots *)

Definition record_entry (r : KeyRecord) : bytes * (bytes * option Z) :=
  (key r, (value r, to_deadline (expire_at r))).

Lemma snapshot_entry_Some now s k x r :
  (∀ d, contents (expires_ s) !! k = Some d → d ≠ kNoExpiry) →
  snapshot_entry now s (k, x) = Some r ↔
    alive now (contents (expires_ s) !! k) = true ∧
    r = mkKeyRecord k (entry_value x) (of_deadline (contents (expires_ s) !! k)).
Proof.
  intros Hd. unfold snapshot_entry, of_deadline. cbn. rewrite um_find_contents.
  destruct (contents (expires_ s) !! k) as [d|]; cbn.
  - specialize (Hd d eq_refl). unfold alive.
    destruct (Z.eqb_spec d kNoExpiry); [done|]. cbn. rewrite Z.ltb_antisym.
    destruct (d <=? now); cbn; naive_solver.
  - unfold alive. naive_solver.
Qed.

Lemma snapshot_elem s r :
  store_wf s →
  r ∈ (snapshot s).1 ↔ view (now s) s !! key r = Some (value r, to_deadline (expire_at r)) ∧
    int64_min ≤ expire_at r ≤ int64_max.
Proof.
  intros Hwf. unfold snapshot. cbn [fst clock]. rewrite list_elem_of_omap.
  split.
  - intros ([k x] & Hx%um_iter_elem & Hr).
    apply snapshot_entry_Some in Hr as [Ha ->]; [|intros d Hd; by apply (wf_deadline _ Hwf k)].
    cbn. rewrite (view_lookup_stored _ k s x Hx). unfold now. rewrite Ha.
    unfold of_deadline. destruct (contents (expires_ s) !! k) as [d|] eqn:Hd; cbn.
    + pose proof (wf_deadline _ Hwf k d Hd) as [Hne Hr].
      unfold to_deadline. destruct (Z.eqb_spec d kNoExpiry); done.
    + done.
  - intros [(Hm & He & Ha)%view_lookup_Some Hr]. exists (key r, mkEntry (value r)).
    split; [by apply um_iter_elem|].
    apply snapshot_entry_Some; [intros d Hd; by apply (wf_deadline _ Hwf (key r))|].
    unfold now in Ha. rewrite He. split; [done|]. destruct r as [k v e]; cbn in *.
    unfold to_deadline, of_deadline. destruct (Z.eqb_spec e kNoExpiry); by subst.
Qed.

Lemma snapshot_keys_NoDup s : NoDup (key <$> (snapshot s).1).
Proof.
  unfold snapshot. cbn [fst clock]. pose proof (um_iter_NoDup (map_ s)) as Hnd. revert Hnd.
  generalize (um_iter (map_ s)). intros l. induction l as [|[k x] l IH]; cbn; [done|].
  intros Hnd. inv Hnd. specialize (IH ltac:(done)).
  unfold snapshot_entry at 1. cbn. split_if; [done|]. cbn. constructor; [|done].
  rewrite list_elem_of_fmap. intros (r & E & Hr). apply list_elem_of_omap in Hr as ([k' x'] & Hin & Hr).
  match goal with H : k ∉ _ |- _ => apply H end.
  unfold snapshot_entry in Hr. cbn in Hr. destruct (_ && _) in Hr; [done|]. simplify_eq/=.
  apply list_elem_of_fmap. by exists (k', x').
Qed.

Lemma snapshot_map s :
  store_wf s → list_to_map (record_entry <$> (snapshot s).1) = view (now s) s.
Proof.
  intros Hwf. apply map_eq. intros k. apply option_eq. intros [v d].
  rewrite <- elem_of_list_to_map.
  2: { rewrite <- list_fmap_compose. apply snapshot_keys_NoDup. }
  rewrite list_elem_of_fmap. split.
  - intros ([k' v' e'] & [= -> -> ->] & Hr). by apply snapshot_elem in Hr as [Hr _].
  - intros Hv. exists (mkKeyRecord k v (of_deadline d)).
    apply view_lookup_Some in Hv as Hv'. destruct Hv' as (_ & He & _).
    assert (to_deadline (of_deadline d) = d ∧ int64_min ≤ of_deadline d ≤ int64_max) as [Hd Hr].
    { destruct d as [d|]; [|by unfold of_deadline, to_deadline, int64_min, int64_max, kNoExpiry; cbn].
      pose proof (wf_deadline _ Hwf k d He) as [Hne Hr].
      unfold of_deadline, to_deadline. cbn. by destruct (Z.eqb_spec d kNoExpiry). }
    split; [unfold record_entry; cbn; by rewrite Hd|]. apply snapshot_elem; [done|]. cbn.
    by rewrite Hd.
Qed.

Lemma snapshot_later s : later s (snapshot s).2.
Proof. apply clock_later. Qed.

(** ** Loading records *)

Lemma load_record_later r s : later s (load_record r s).
Proof.
  unfold load_record. split_if; [by split|]. cbn. split_if; split; cbn; (done || lia).
Qed.

(** Loading a record whose key is not present: the key appears unless it is
    dead by the time of the view. *)
Lemma load_record_view t t' r s s' :
  s' = load_record r s → steady t s s' → t ≤ t' → view t' s !! key r = None →
  view t' s' = ks_expire t' (<[(record_entry r).1:=(record_entry r).2]> (view t' s)).
Proof.
  intros -> Hst Ht Hno. unfold load_record, record_entry in *. cbn.
  destruct (Z.eqb_spec (expire_at r) kNoExpiry) as [E|Hne]; [by rewrite view_set|].
  cbn in *. destruct (Z.leb_spec (expire_at r) (clock_ s (ticks s))) as [Hle|Hlt].
  - assert (clock_ s (ticks s) = t) as Hc by (apply Hst; cbn; lia).
    change (view t' s = ks_expire t' (<[key r:=(value r, to_deadline (expire_at r))]> (view t' s))).
    apply map_eq. intros k. unfold ks_expire. rewrite map_lookup_filter, lookup_insert.
    case_decide; subst.
    + rewrite Hno. cbn. unfold to_deadline.
      destruct (Z.eqb_spec (expire_at r) kNoExpiry); [done|].
      unfold alive. destruct (Z.ltb_spec t' (expire_at r)); [lia|done].
    + rewrite <- (ks_expire_idem t' s) at 1. unfold ks_expire. by rewrite map_lookup_filter.
  - by rewrite view_set.
Qed.

Lemma ks_expire_Some (t : Z) (v : keyspace) k x d :
  ks_expire t v !! k = Some (x, d) ↔ v !! k = Some (x, d) ∧ alive t d = true.
Proof. apply map_lookup_filter_Some. Qed.

Lemma load_records_later rs s : later s (load_records rs s).
Proof.
  revert s. induction rs as [|r rs IH]; intros s; [apply later_refl|].
  eapply later_trans; [apply load_record_later|apply IH].
Qed.

Lemma load_records_wf rs s :
  store_wf s → Forall (λ r, int64_min ≤ expire_at r ≤ int64_max) rs →
  store_wf (load_records rs s).
Proof.
  revert s. induction rs as [|r rs IH]; intros s Hs Hr; [done|]. inv Hr.
  apply IH; [|done]. by apply wf_load_record.
Qed.

Lemma load_records_view t t' rs s :
  NoDup (key <$> rs) → steady t s (load_records rs s) → t ≤ t' →
  Forall (λ r, view t' s !! key r = None) rs →
  view t' (load_records rs s) =
    ks_expire t' (list_to_map (record_entry <$> rs) ∪ view t' s).
Proof.
  revert s. induction rs as [|r rs IH]; intros s Hnd Hst Ht Hno.
  { cbn. rewrite (left_id_L ∅ (∪)). symmetry. apply ks_expire_idem. }
  inv Hnd. inv Hno. cbn [load_records foldl] in *. fold (load_records rs (load_record r s)) in *.
  apply (steady_split t s (load_record r s)) in Hst as [Hst1 Hst2];
    [|apply load_record_later|apply load_records_later].
  rewrite IH; [|done|done|done|].
  - rewrite (load_record_view t t' r s _ eq_refl) by done.
    cbn [fmap list_fmap list_to_map foldr]. destruct (record_entry r) as [k x] eqn:E.
    assert (k = key r) as -> by (by unfold record_entry in E; simplify_eq). cbn [fst snd uncurry].
    set (m := list_to_map (record_entry <$> rs)).
    assert (m !! key r = None) as Hm.
    { apply not_elem_of_list_to_map_1. rewrite <- list_fmap_compose. done. }
    apply map_eq. intros k'. apply option_eq. intros [v d].
    rewrite !ks_expire_Some, !lookup_union_Some_raw, ks_expire_Some, lookup_insert_Some.
    destruct (decide (key r = k')) as [<-|].
    + rewrite lookup_insert_eq, Hm. naive_solver.
    + rewrite lookup_insert_ne by done. naive_solver.
  - apply Forall_forall. intros r' Hr'. rewrite (load_record_view t t' r s _ eq_refl) by done.
    unfold ks_expire. rewrite map_lookup_filter, lookup_insert_ne.
    + by rewrite (proj1 (Forall_forall _ _) ltac:(done) r' Hr').
    + cbn. intros E. match goal with H : key r ∉ _ |- _ => apply H end.
      apply list_elem_of_fmap. eauto.
Qed.

(** ** Sampling the deadline index *)

(** The walk from [cursor] round the buckets takes the first [n] keys of the
    rotated bucket array. *)
Lemma sample_loop_rotate (buckets : list (list bytes)) (cursor n left visited : nat) out :
  (left + visited = length buckets)%nat →
  out = take n (mjoin (take visited (rotate cursor buckets))) →
  (sample_loop buckets cursor n left visited out).1 = take n (mjoin (rotate cursor buckets)).
Proof.
  revert visited out. induction left as [|left IH]; intros visited out Hlen ->; cbn [sample_loop].
  { cbn. rewrite (take_ge (rotate cursor buckets)); [done|]. rewrite length_rotate. lia. }
  destruct (Nat.ltb_spec (length (take n (mjoin (take visited (rotate cursor buckets))))) n) as [Hlt|Hge].
  - apply IH; [lia|]. rewrite length_take in Hlt.
    destruct (lookup_lt_is_Some_2 (rotate cursor buckets) visited) as [h Hh].
    { rewrite length_rotate. lia. }
    rewrite (take_S_r _ _ _ Hh), join_app. cbn [mjoin list_join]. rewrite app_nil_r.
    rewrite lookup_rotate_r in Hh by lia.
    replace (rotate_nat_add cursor visited (length buckets))
      with ((cursor + visited) mod length buckets)%nat in Hh.
    2: { unfold rotate_nat_add. rewrite <- Nat2Z.inj_add, <- Nat2Z.inj_mod. by rewrite Nat2Z.id. }
    rewrite Hh. cbn [default from_option]. rewrite !take_app, (take_ge (mjoin _)) by lia. done.
  - cbn. rewrite length_take in Hge.
    rewrite <- (take_drop visited (rotate cursor buckets)) at 2.
    rewrite join_app, take_app_le by lia. done.
Qed.

Lemma sample_expiring_spec n s out s' :
  sample_expiring n s = (out, s') →
  map_ s' = map_ s ∧ expires_ s' = expires_ s ∧ clock_ s' = clock_ s ∧
  ticks s' = ticks s ∧ stats_ s' = stats_ s ∧
  NoDup out ∧ Forall (λ k, is_Some (contents (expires_ s) !! k)) out ∧
  length out = Nat.min n (base.size (contents (expires_ s))).
Proof.
  unfold sample_expiring, um_is_empty, um_bucket_count. rewrite um_size_contents.
  pose proof (um_buckets_length (expires_ s)) as Hlen.
  destruct (Nat.eqb_spec (base.size (contents (expires_ s))) 0) as [H0|H0].
  { intros [= <- <-]. rewrite H0, Nat.min_0_r. repeat split; constructor. }
  destruct (Nat.eqb_spec n 0) as [->|Hn].
  { intros [= <- <-]. repeat split; constructor. }
  cbn [orb]. destruct (Nat.eqb_spec (length (um_buckets (expires_ s))) 0) as [Hb|Hb].
  { apply nil_length_inv in Hb. rewrite Hb in Hlen. cbn in Hlen. lia. }
  set (c := if Nat.leb _ _ then _ else _).
  pose proof (sample_loop_rotate (um_buckets (expires_ s)) c n
    (length (um_buckets (expires_ s))) 0 [] ltac:(lia) ltac:(by destruct n)) as E.
  destruct (sample_loop _ _ _ _ _ _) as [o v]. cbn in E. intros [= <- <-]. cbn.
  assert (mjoin (rotate c (um_buckets (expires_ s))) ≡ₚ mjoin (um_buckets (expires_ s))) as Hp.
  { apply join_Permutation. unfold rotate. rewrite Permutation_app_comm. by rewrite take_drop. }
  subst o. split_and!; [done..| | |].
  - eapply sublist_NoDup; [|apply sublist_take]. rewrite Hp. apply um_buckets_NoDup.
  - apply Forall_take. rewrite Hp. apply Forall_forall. intros k. apply um_buckets_elem.
  - rewrite length_take, Hp, Hlen. done.
Qed.

(** ** The active expiry cycle *)

(** A key whose deadline has passed is in no view. *)
Lemma past_deadline_view t k s : past_deadline t s k = true → view t s !! k = None.
Proof.
  unfold past_deadline. rewrite um_find_contents, view_lookup. intros Hk. unfold view_entry.
  destruct (contents (map_ s) !! k); [|done]. cbn [mbind option_bind].
  destruct (contents (expires_ s) !! k) as [d|]; [|done]. unfold alive. by rewrite Z.ltb_antisym, Hk.
Qed.

(** A sample that is all dead is over the threshold. *)
Lemma all_dead_continues (n : nat) pct :
  0 ≤ pct < 100 → (0 < n)%nat → wrap64 (Z.of_nat n * wrap64 pct) / 100 < Z.of_nat n.
Proof.
  intros Hpct Hn. unfold wrap64. rewrite (Z.mod_small pct) by lia.
  pose proof (Z.mod_le (Z.of_nat n * pct) (2 ^ 64) ltac:(nia) ltac:(lia)) as Hm.
  apply (Z.div_le_mono _ _ 100) in Hm; [|lia].
  assert (Z.of_nat n * pct / 100 < Z.of_nat n) by (apply Z.div_lt_upper_bound; nia). lia.
Qed.

(** What any number of passes does: it forgets [total' - total] index entries
    and changes no view from [t] on. *)
Lemma expire_passes_spec t n cfg total s total' s' :
  expire_passes n cfg total s = (total', s') →
  later s s' ∧ (store_wf s → store_wf s') ∧
  (total + base.size (contents (expires_ s)) =
     total' + base.size (contents (expires_ s')))%nat ∧
  (steady t s s' → ∀ t', t ≤ t' → view t' s' = view t' s).
Proof.
  revert total s. induction n as [|n IH]; intros total s; cbn [expire_passes].
  { intros [= <- <-]. split; [apply later_refl|]. auto. }
  destruct (um_is_empty (expires_ s)).
  { intros [= <- <-]. split; [apply later_refl|]. auto. }
  destruct (sample_expiring _ (count_pass s)) as [sampled s1] eqn:Es.
  apply sample_expiring_spec in Es as (Em & Ee & Ec & Et & _ & Hnd & Hin & _).
  cbn in Em, Ee, Ec, Et, Hin.
  assert (later s s1) as Hl1 by (split; [done|lia]).
  assert (∀ t', view t' s1 = view t' s) as Hv1 by (intros; apply view_ext; by rewrite ?Em, ?Ee).
  assert (store_wf s → store_wf s1) as Hwf1 by (apply wf_tables; by rewrite ?Em, ?Ee).
  destruct sampled as [|k0 sampled0] eqn:Hsm.
  { intros [= <- <-]. rewrite Ee. auto. }
  rewrite <- Hsm in *. clear Hsm k0 sampled0. cbn [clock].
  set (s2 := mkStore _ _ _ _ _ _). set (dead := filter _ sampled).
  set (s3 := count_active (length dead) (remove_all dead s2)).
  assert (later s1 s3) as Hl3.
  { destruct (remove_all_later dead s2) as [E1 E2]. split; cbn; [by rewrite E1|rewrite E2; cbn; lia]. }
  assert (base.size (contents (expires_ s3)) + length dead = base.size (contents (expires_ s)))%nat as Hsz.
  { cbn. rewrite remove_all_expires_size; cbn; [by rewrite Ee| |].
    - by apply NoDup_filter.
    - rewrite Ee. apply Forall_forall. intros k [_ Hk]%list_elem_of_filter.
      by apply (proj1 (Forall_forall _ _) Hin). }
  assert (store_wf s → store_wf s3) as Hwf3.
  { intros H%Hwf1. apply (wf_tables (remove_all dead s2)); [done..|]. apply remove_all_wf.
    by apply (wf_tables s1). }
  assert (steady t s1 s3 → ∀ t', t ≤ t' → view t' s3 = view t' s) as Hv3.
  { intros Hst t' Ht. change (view t' s3) with (view t' (remove_all dead s2)).
    rewrite <- Hv1. change (view t' s1) with (view t' s2). apply (remove_all_view t); [done|].
    apply Forall_forall. intros k [Hk _]%list_elem_of_filter.
    assert (clock_ s1 (ticks s1) = t) as Hc.
    { apply Hst. cbn. destruct (remove_all_later dead s2) as [_ ->]. cbn. lia. }
    rewrite Hc in Hk. by apply past_deadline_view. }
  split_if.
  - intros [= <- <-]. split; [by eapply later_trans|]. split; [done|]. split; [lia|].
    intros Hst. apply Hv3. by apply (steady_split t s s1) in Hst as [_ ?].
  - intros (Hl4 & Hwf4 & Hsz4 & Hv4)%IH.
    split; [eapply later_trans; [exact Hl1|]; by eapply later_trans|].
    split; [auto|]. split; [lia|]. intros Hst t' Ht.
    apply (steady_split t s s1) in Hst as [_ Hst]; [|done|by eapply later_trans].
    apply (steady_split t s1 s3) in Hst as [Hst3 Hst4]; [|done..].
    rewrite (Hv4 Hst4 t' Ht). by apply Hv3.
Qed.

(** When every indexed deadline has passed, each pass reaps a whole sample. *)
Lemma expire_passes_all_dead t n cfg total s total' s' :
  expire_passes n cfg total s = (total', s') → steady t s s' →
  0 ≤ continue_threshold_pct cfg < 100 →
  (∀ k d, contents (expires_ s) !! k = Some d → d ≤ t) →
  total' = (total + Nat.min (base.size (contents (expires_ s))) (n * sample_size cfg))%nat.
Proof.
  intros H Hst Hpct. revert total s H Hst. induction n as [|n IH]; intros total s; cbn [expire_passes].
  { intros [= <- <-] _ _. cbn. lia. }
  unfold um_is_empty. rewrite um_size_contents.
  destruct (Nat.eqb_spec (base.size (contents (expires_ s))) 0) as [H0|H0].
  { intros [= <- <-] _ _. lia. }
  destruct (sample_expiring _ (count_pass s)) as [sampled s1] eqn:Es.
  apply sample_expiring_spec in Es as (Em & Ee & Ec & Et & _ & Hnd & Hin & Hlen).
  cbn in Em, Ee, Ec, Et, Hin, Hlen.
  destruct sampled as [|k0 sampled0] eqn:Hsm.
  { intros [= <- <-] _ _. cbn in Hlen. assert (sample_size cfg = 0%nat) as -> by lia. lia. }
  assert (0 < length sampled)%nat as Hpos by (rewrite Hsm; cbn; lia).
  rewrite <- Hsm in *. clear Hsm k0 sampled0. cbn [clock].
  set (s2 := mkStore _ _ _ _ _ _). set (dead := filter _ sampled).
  set (s3 := count_active (length dead) (remove_all dead s2)).
  intros H Hst Hdead.
  assert (later s1 s3 ∧ later (clock s1).2 s3) as [Hl3 Hc3].
  { destruct (remove_all_later dead s2) as [E1 E2]. split; split; cbn; rewrite ?E1, ?E2; cbn; (done || lia). }
  assert (later s3 s') as Hl4.
  { destruct (Z.of_nat (length dead) <=? _); [simplify_eq; apply later_refl|].
    by apply (expire_passes_spec t) in H as (? & _). }
  assert (later s s1) as Hl1 by (split; [done|lia]).
  apply (steady_split t s s1) in Hst as [_ Hst]; [|done|by eapply later_trans].
  apply (steady_split t s1 s3) in Hst as [Hst3 Hst4]; [|done..].
  assert (clock_ s1 (ticks s1) = t) as Hc by (by eapply (steady_clock t s1 s3)).
  assert (dead = sampled) as Ed.
  { unfold dead. apply filter_Forall. rewrite Hc.
    eapply Forall_impl; [exact Hin|]. intros k [d Hd]. unfold past_deadline.
    rewrite um_find_contents. cbn. rewrite Ee, Hd. apply Z.leb_le. by apply (Hdead k). }
  assert (base.size (contents (expires_ s3)) + length sampled = base.size (contents (expires_ s)))%nat as Hsz.
  { cbn. rewrite Ed, remove_all_expires_size; cbn; [by rewrite Ee|done|by rewrite Ee]. }
  destruct (Z.leb_spec (Z.of_nat (length dead))
    (wrap64 (Z.of_nat (length sampled) * wrap64 (continue_threshold_pct cfg)) / 100)) as [Hle|Hgt].
  { pose proof (all_dead_continues _ _ Hpct Hpos). rewrite Ed in Hle. lia. }
  apply IH in H; [|done|].
  - rewrite H, Ed. rewrite Hlen in *. cbn [Nat.mul]. lia.
  - intros k d Hd. apply (Hdead k). cbn in Hd. rewrite remove_all_expires in Hd.
    case_decide; [done|]. cbn in Hd. by rewrite Ee in Hd.
Qed.

End Scan.
