(* ===== verification/StoreRefinement.v ===== *)
(** * The store implements the keyspace

    Sequences of calls on a store, each made at a time no earlier than the one
    before, are simulated by the abstract keyspace: every reply is the one the
    keyspace gives, and the final views agree.  The representation invariant
    holds in every reachable state. *)

From S2P Require Import Prelude UnorderedMap Glob Store Keyspace StoreScan.

Section Refinement.
Context `{UM : UnorderedMap}.
Implicit Types s : Store.

(** ** Calls and replies *)

Inductive store_op :=
| OpGet (k : bytes)
| OpSet (k v : bytes) (e : Z)
| OpErase (k : bytes)
| OpContains (k : bytes)
| OpPttl (k : bytes)
| OpExpireAt (k : bytes) (d : Z)
| OpPersist (k : bytes)
| OpKeys (pattern : bytes)
| OpSize
| OpClear
| OpSnapshot
| OpLoad (r : KeyRecord)
| OpCycle (cfg : ExpiryConfig)
| OpReap (limit : nat).

Inductive store_obs :=
| ObsNone
| ObsValue (v : option bytes)
| ObsBool (b : bool)
| ObsInt (z : Z)
| ObsKeys (l : list bytes)
| ObsRecords (l : list KeyRecord)
| ObsCount (n : nat).

Definition run_op (o : store_op) (s : Store) : outcome (store_obs * Store) :=
  match o with
  | OpGet k => let '(v, s) := get k s in Ret (ObsValue v, s)
  | OpSet k v e => Ret (ObsNone, set k v e s)
  | OpErase k => let '(b, s) := erase k s in Ret (ObsBool b, s)
  | OpContains k => let '(b, s) := contains k s in Ret (ObsBool b, s)
  | OpPttl k => '(z, s) ← pttl k s; Ret (ObsInt z, s)
  | OpExpireAt k d => let '(b, s) := set_expire_at k d s in Ret (ObsBool b, s)
  | OpPersist k => let '(b, s) := persist k s in Ret (ObsBool b, s)
  | OpKeys p => let '(l, s) := keys p s in Ret (ObsKeys l, s)
  | OpSize => let '(z, s) := store_size s in Ret (ObsInt z, s)
  | OpClear => Ret (ObsNone, clear s)
  | OpSnapshot => let '(l, s) := snapshot s in Ret (ObsRecords l, s)
  | OpLoad r => Ret (ObsNone, load_record r s)
  | OpCycle cfg => let '(n, s) := active_expire_cycle cfg s in Ret (ObsCount n, s)
  | OpReap limit => let '(n, s) := reap_expired limit s in Ret (ObsCount n, s)
  end.

(** Arguments of type [std::int64_t]. *)
Definition op_args_ok (o : store_op) : Prop :=
  match o with
  | OpSet _ _ e => int64_min ≤ e ≤ int64_max
  | OpExpireAt _ d => int64_min ≤ d ≤ int64_max
  | OpLoad r => int64_min ≤ expire_at r ≤ int64_max
  | _ => True
  end.

(** The keyspace's version of each call, at time [t]. *)
Definition spec_op (t : Z) (o : store_op) (v : keyspace) (ob : store_obs) (v' : keyspace)
    : Prop :=
  match o with
  | OpGet k => ob = ObsValue (fst <$> v !! k) ∧ v' = v
  | OpSet k x e => ob = ObsNone ∧ v' = ks_expire t (<[k:=(x, to_deadline e)]> v)
  | OpErase k => ob = ObsBool (bool_decide (is_Some (v !! k))) ∧ v' = delete k v
  | OpContains k => ob = ObsBool (bool_decide (is_Some (v !! k))) ∧ v' = v
  | OpPttl k => ob = ObsInt (ks_pttl t k v) ∧ v' = v
  | OpExpireAt k d =>
      ob = ObsBool (bool_decide (is_Some (v !! k))) ∧
      v' = ks_expire t (ks_set_deadline k (Some d) v)
  | OpPersist k =>
      ob = ObsBool (ks_has_deadline k v) ∧ v' = ks_set_deadline k None v
  | OpKeys p =>
      (∃ l, ob = ObsKeys l ∧ l ≡ₚ filter (λ k, glob_match p k = true) (map_to_list v).*1) ∧
      v' = v
  | OpSize => ob = ObsInt (Z.of_nat (base.size v)) ∧ v' = v
  | OpClear => ob = ObsNone ∧ v' = ∅
  | OpSnapshot =>
      (∃ l, ob = ObsRecords l ∧ NoDup (key <$> l) ∧ list_to_map (record_entry <$> l) = v) ∧
      v' = v
  | OpLoad r =>
      ob = ObsNone ∧
      v' = if alive t (to_deadline (expire_at r))
           then <[key r:=(value r, to_deadline (expire_at r))]> v else v
  | OpCycle _ | OpReap _ => (∃ n, ob = ObsCount n) ∧ v' = v
  end.

(** Timed traces of a store, and of the keyspace. *)
Inductive runs : Store → list (Z * store_op * store_obs) → Store → Prop :=
| runs_nil s : runs s [] s
| runs_cons s t o ob s1 tr s2 :
    op_args_ok o → Z.of_nat (raw_size s) < 2 ^ 64 →
    run_op o s = Ret (ob, s1) → steady t s s1 →
    runs s1 tr s2 → runs s ((t, o, ob) :: tr) s2.

Inductive spec_runs : Z → keyspace → list (Z * store_op * store_obs) → Z → keyspace → Prop :=
| spec_runs_nil t v : spec_runs t v [] t v
| spec_runs_cons t0 v t o ob v1 tr t2 v2 :
    t0 ≤ t → spec_op t o (ks_expire t v) ob v1 → spec_runs t v1 tr t2 v2 →
    spec_runs t0 v ((t, o, ob) :: tr) t2 v2.

(** Times do not go backwards. *)
Fixpoint times_from (t : Z) (tr : list (Z * store_op * store_obs)) : Prop :=
  match tr with
  | [] => True
  | (t', _, _) :: tr' => t ≤ t' ∧ times_from t' tr'
  end.

(** ** The remaining operations *)

Lemma load_record_spec t r s s' :
  s' = load_record r s → steady t s s' →
  view t s' = if alive t (to_deadline (expire_at r))
              then <[key r:=(value r, to_deadline (expire_at r))]> (view t s) else view t s.
Proof.
  intros -> Hst. unfold load_record in *.
  assert (∀ s1, view t s1 = view t s → alive t (to_deadline (expire_at r)) = true →
    view t (set (key r) (value r) (expire_at r) s1) =
    <[key r:=(value r, to_deadline (expire_at r))]> (view t s)) as Hset.
  { intros s1 Hv Ha. rewrite view_set, Hv. apply map_eq. intros k. apply option_eq. intros [x d].
    rewrite ks_expire_Some, lookup_insert_Some, view_lookup_Some. naive_solver. }
  destruct (Z.eqb_spec (expire_at r) kNoExpiry) as [E|Hne].
  { assert (alive t (to_deadline (expire_at r)) = true) as Ha by (by rewrite E).
    rewrite Ha. by apply Hset. }
  cbn in *. assert (to_deadline (expire_at r) = Some (expire_at r)) as Hd.
  { unfold to_deadline. by destruct (Z.eqb_spec (expire_at r) kNoExpiry). }
  assert (clock_ s (ticks s) = t) as Hc.
  { apply Hst. destruct (expire_at r <=? _); cbn; lia. }
  rewrite Hd in *. rewrite Hc in *. unfold alive in *. rewrite Z.ltb_antisym in *.
  destruct (expire_at r <=? t); cbn in *; [done|]. by apply Hset.
Qed.

Lemma reap_scan_spec limit now index dead :
  reap_scan limit now index dead =
    dead ++ take (limit - length dead)
      (filter (λ kd : bytes * Z, kd.2 ≤ now) index).*1.
Proof.
  revert dead. induction index as [|[k d] index IH]; intros dead.
  { cbn. by rewrite take_nil, app_nil_r. }
  cbn [reap_scan]. destruct (Nat.leb_spec limit (length dead)) as [Hle|Hgt].
  { replace (limit - length dead)%nat with 0%nat by lia. by rewrite take_0, app_nil_r. }
  rewrite IH, filter_cons. destruct (Z.leb_spec d now) as [Hd|Hd]; cbn [snd].
  - rewrite decide_True by done. rewrite length_app. cbn [length fmap list_fmap fst].
    rewrite <- app_assoc. f_equal.
    replace (limit - length dead)%nat with (S (limit - (length dead + 1)))%nat by lia. done.
  - rewrite decide_False by lia. done.
Qed.

Lemma reap_expired_spec t limit s n s' :
  reap_expired limit s = (n, s') → steady t s s' →
  later s s' ∧ (store_wf s → store_wf s') ∧
  n = Nat.min limit (length (filter (λ kd : bytes * Z, kd.2 ≤ t) (um_iter (expires_ s)))) ∧
  (∀ t', t ≤ t' → view t' s' = view t' s).
Proof.
  unfold reap_expired. cbn [clock]. intros [= <- <-] Hst.
  rewrite reap_scan_spec. cbn [app length expires_]. rewrite Nat.sub_0_r.
  set (s1 := mkStore _ _ _ _ _ _) in *. set (dead := take limit _) in *.
  destruct (remove_all_later dead s1) as [E1 E2].
  assert (clock_ s (ticks s) = t) as Hc.
  { apply Hst. split; [done|]. unfold count_active. cbn.
    rewrite reap_scan_spec. cbn [app length expires_]. rewrite Nat.sub_0_r.
    fold s1. fold dead. rewrite E2. cbn. lia. }
  subst t. split; [|split; [|split]].
  - split; cbn; [by rewrite E1|rewrite E2; cbn; lia].
  - intros Hwf. apply (wf_tables (remove_all dead s1)); [done..|].
    apply remove_all_wf. by apply (wf_tables s).
  - unfold dead. by rewrite length_take, length_fmap.
  - intros t' Ht. change (view t' (count_active _ _)) with (view t' (remove_all dead s1)).
    change (view t' s) with (view t' s1). apply (remove_all_view (clock_ s (ticks s))); [done|].
    apply Forall_take, Forall_forall. intros k.
    rewrite list_elem_of_fmap. intros ([k' d] & -> & [Hd Hin%um_iter_elem]%list_elem_of_filter).
    cbn in *. rewrite view_lookup. unfold view_entry. cbn.
    destruct (contents (map_ s) !! k'); [|done]. cbn. rewrite Hin. unfold alive.
    destruct (Z.ltb_spec (clock_ s (ticks s)) d); [lia|done].
Qed.

(** ** One call *)

Lemma run_op_wf o s ob s' :
  store_wf s → clock_wf s → op_args_ok o → run_op o s = Ret (ob, s') →
  store_wf s' ∧ later s s'.
Proof.
  intros Hwf Hc Hargs. destruct o; cbn.
  - pose proof (wf_get k s Hwf). pose proof (get_later k s).
    destruct (get k s). by intros [= <- <-].
  - intros [= <- <-]. split; [by apply wf_set|by split].
  - pose proof (wf_erase k s Hwf). pose proof (erase_later k s).
    destruct (erase k s). by intros [= <- <-].
  - pose proof (wf_contains k s Hwf). pose proof (contains_later k s).
    destruct (contains k s). by intros [= <- <-].
  - intros ([z s1] & Hp & [= <- <-])%bind_Ret.
    split; [by eapply wf_pttl|by eapply pttl_later].
  - pose proof (wf_set_expire_at k d s Hwf Hc Hargs). pose proof (set_expire_at_later k d s).
    destruct (set_expire_at k d s). by intros [= <- <-].
  - pose proof (wf_persist k s Hwf). pose proof (persist_later k s).
    destruct (persist k s). by intros [= <- <-].
  - pose proof (keys_wf pattern s Hwf). pose proof (keys_later pattern s).
    destruct (keys pattern s). by intros [= <- <-].
  - intros [= <- <-]. split; [by apply (wf_tables s)|apply clock_later].
  - intros [= <- <-]. split; [by apply wf_clear|by split].
  - intros [= <- <-]. split; [by apply (wf_tables s)|apply clock_later].
  - intros [= <- <-]. split; [by apply wf_load_record|apply load_record_later].
  - destruct (active_expire_cycle cfg s) as [n s1] eqn:E. intros [= <- <-].
    apply (expire_passes_spec 0) in E as (Hl & Hw & _).
    split; [apply Hw; by apply (wf_tables s)|done].
  - unfold reap_expired. cbn [clock]. intros [= <- <-].
    set (s1 := mkStore _ _ _ _ _ _). set (dead := reap_scan _ _ _ _).
    destruct (remove_all_later dead s1) as [E1 E2]. split.
    + apply (wf_tables (remove_all dead s1)); [done..|].
      apply remove_all_wf. by apply (wf_tables s).
    + split; cbn; [by rewrite E1|rewrite E2; cbn; lia].
Qed.

Lemma run_op_spec t o s ob s' :
  store_wf s → Z.of_nat (raw_size s) < 2 ^ 64 →
  run_op o s = Ret (ob, s') → steady t s s' → spec_op t o (view t s) ob (view t s').
Proof.
  intros Hwf Hsize. destruct o; cbn.
  - destruct (get k s) as [r s1] eqn:E. intros [= <- <-] Hst.
    destruct (get_spec _ _ _ _ _ E Hst) as [-> Hv]. by rewrite Hv.
  - intros [= <- <-] _. by rewrite view_set.
  - destruct (erase k s) as [b s1] eqn:E. intros [= <- <-] Hst.
    destruct (erase_spec _ _ _ _ _ E Hst) as [-> Hv]. by rewrite Hv.
  - destruct (contains k s) as [b s1] eqn:E. intros [= <- <-] Hst.
    destruct (contains_spec _ _ _ _ _ E Hst) as [-> Hv]. by rewrite Hv.
  - intros ([z s1] & Hp & [= <- <-])%bind_Ret Hst.
    destruct (pttl_spec _ _ _ _ _ Hp Hst) as [-> Hv]. by rewrite Hv.
  - destruct (set_expire_at k d s) as [b s1] eqn:E. intros [= <- <-] Hst.
    destruct (set_expire_at_spec _ _ _ _ _ _ E Hst) as [-> Hv]. by rewrite Hv.
  - destruct (persist k s) as [b s1] eqn:E. intros [= <- <-] Hst.
    destruct (persist_spec _ _ _ _ _ E Hst) as [-> Hv]. rewrite Hv by done. split; [done|].
    apply map_eq. intros k'. apply option_eq. intros [x d].
    unfold ks_set_deadline. rewrite ks_expire_Some, lookup_alter.
    case_decide; subst; [|rewrite view_lookup_Some; naive_solver].
    destruct (view t s !! k') as [[y e]|]; cbn; naive_solver.
  - destruct (keys pattern s) as [l s1] eqn:E. intros [= <- <-] Hst.
    destruct (keys_spec _ _ _ _ _ E Hst) as [Hl Hv]. rewrite Hv by done. eauto.
  - intros [= <- <-] Hst. pose proof (store_size_spec s Hwf Hsize) as Hz.
    assert (now s = t) as Ht by (by eapply (steady_clock t s); [apply later_refl|]).
    unfold now, store_size in *. cbn [fst clock] in Hz. subst t. by rewrite Hz.
  - intros [= <- <-] _. by rewrite view_clear.
  - intros [= <- <-] Hst.
    pose proof (snapshot_map s Hwf) as Hm. pose proof (snapshot_keys_NoDup s) as Hn.
    assert (now s = t) as Ht by (by eapply (steady_clock t s); [apply later_refl|]).
    unfold now, snapshot in *. cbn [fst clock] in Hm, Hn. subst t. split; [eauto|done].
  - intros [= <- <-] Hst. split; [done|]. by apply load_record_spec.
  - destruct (active_expire_cycle cfg s) as [n s1] eqn:E. intros [= <- <-] Hst.
    apply (expire_passes_spec t) in E as (_ & _ & _ & Hv). split; [eauto|]. by apply Hv.
  - intros [= <- <-] Hst.
    destruct (reap_expired_spec t limit s _ _ eq_refl Hst) as (_ & _ & _ & Hv).
    split; [eauto|]. by apply Hv.
Qed.

Lemma runs_wf s tr s' :
  runs s tr s' → store_wf s → clock_wf s → store_wf s' ∧ clock_wf s'.
Proof.
  induction 1 as [s|s t o ob s1 tr s2 Hargs Hsize Hop Hst _ IH]; [done|].
  intros Hwf Hc. destruct (run_op_wf _ _ _ _ Hwf Hc Hargs Hop) as [Hwf1 Hl].
  apply IH; [done|]. by eapply clock_wf_later.
Qed.

(** ** Properties *)

(** The representation invariant.  Starting from an empty store whose
    clock runs from the epoch on, every sequence of calls leaves a deadline
    index that mentions only stored keys and holds only [int64_t] deadlines
    distinct from the "no expiry" marker. *)
Theorem store_invariant c tr s :
  (∀ i, 0 ≤ c i ≤ int64_max) → runs (new_store c) tr s → store_wf s.
Proof. intros Hc H. by eapply runs_wf; [done|apply wf_new|]. Qed.

(** C2: The store refines the keyspace.  Any sequence of calls, each made at a
    time no earlier than the previous one, is a sequence of the abstract
    keyspace with the same replies, and it ends in the keyspace the final
    store represents; lazily kept expired entries are never observable. *)
Theorem store_refines_keyspace t s tr s' :
  store_wf s → clock_wf s → runs s tr s' → times_from t tr →
  ∃ t', spec_runs t (view t s) tr t' (view t' s').
Proof.
  intros Hwf Hc H. revert t Hwf Hc.
  induction H as [s|s t1 o ob s1 tr s2 Hargs Hsize Hop Hst _ IH]; intros t Hwf Hc Ht.
  { exists t. constructor. }
  destruct Ht as [Ht Htr]. destruct (run_op_wf _ _ _ _ Hwf Hc Hargs Hop) as [Hwf1 Hl].
  destruct (IH t1 Hwf1 (clock_wf_later _ _ Hl Hc) Htr) as [t' H'].
  exists t'. econstructor; [done| |done].
  rewrite <- view_expire by done. by apply run_op_spec.
Qed.

(** [size] counts the live keys: the number of stored entries minus the
    number of indexed deadlines that have passed never underflows, and is the
    size of the keyspace at the time the clock is read. *)
Theorem store_size_counts_live s :
  store_wf s → Z.of_nat (raw_size s) < 2 ^ 64 →
  (store_size s).1 = Z.of_nat (base.size (view (now s) s)).
Proof. apply store_size_spec. Qed.

(** A snapshot restores.  Loading the records of a snapshot of [s] into an
    empty store, at a time [t] not before the snapshot, gives a store that
    represents what [s] represents from [t] on: live keys come back with their
    deadlines and none that is dead by then does. *)
Theorem snapshot_load_roundtrip t t' s s0 :
  store_wf s → view t' s0 = ∅ → now s ≤ t → t ≤ t' →
  steady t s0 (load_records (snapshot s).1 s0) →
  view t' (load_records (snapshot s).1 s0) = view t' s.
Proof.
  intros Hwf H0 Hn Ht Hst. rewrite (load_records_view t) by
    (done || apply snapshot_keys_NoDup || (apply Forall_forall; intros; by rewrite H0)).
  rewrite snapshot_map, H0 by done. rewrite (right_id_L ∅ (∪)).
  symmetry. apply view_expire. lia.
Qed.

(** C33: The active expiry cycle is safe and accounts for what it does: it
    changes no view from the time it runs at, it keeps the invariant, and the
    number it returns is the number of entries it removed from the index. *)
Theorem active_expire_cycle_safe t cfg s n s' :
  active_expire_cycle cfg s = (n, s') → store_wf s → steady t s s' →
  store_wf s' ∧ (∀ t', t ≤ t' → view t' s' = view t' s) ∧
  expires_size s = (n + expires_size s')%nat.
Proof.
  intros E Hwf Hst. unfold expires_size. rewrite !um_size_contents.
  apply (expire_passes_spec t) in E as (_ & Hw & Hs & Hv). cbn in *.
  split; [apply Hw; by apply (wf_tables s)|]. split; [by apply Hv|lia].
Qed.

(** C34: The active expiry cycle makes progress on a dead keyspace: when every
    indexed deadline has passed, one cycle reaps as many keys as its passes can
    sample, and all of them if there are no more than that. *)
Theorem active_expire_cycle_reaps t cfg s n s' :
  active_expire_cycle cfg s = (n, s') → steady t s s' →
  0 ≤ continue_threshold_pct cfg < 100 →
  (∀ k d, contents (expires_ s) !! k = Some d → d ≤ t) →
  n = Nat.min (expires_size s) (max_passes cfg * sample_size cfg).
Proof.
  intros E Hst Hpct Hdead. unfold expires_size. rewrite um_size_contents.
  by apply (expire_passes_all_dead t) in E.
Qed.

End Refinement.

(** ** Witnesses *)

#[local] Existing Instance gmap_table.

Definition noon : nat → Z := λ _, 1000.

Definition demo_store : Store :=
  set (bs "gone") (bs "x") 900 (set (bs "key") (bs "val") 2000 (new_store noon)).

Lemma demo_runs :
  runs (new_store noon)
    [(1000, OpSet (bs "key") (bs "val") 2000, ObsNone);
     (1000, OpSet (bs "gone") (bs "x") 900, ObsNone)] demo_store.
Proof.
  econstructor; [cbv; split; discriminate|reflexivity|reflexivity|done|].
  econstructor; [cbv; split; discriminate|reflexivity|reflexivity|done|]. constructor.
Qed.

Lemma noon_clock i : 0 ≤ noon i ≤ int64_max.
Proof. cbv. split; discriminate. Qed.

Lemma demo_wf : store_wf demo_store.
Proof. repeat (apply wf_set; [|cbv; split; discriminate]). apply wf_new. Qed.

Lemma store_invariant_witness : store_wf demo_store.
Proof. exact (store_invariant noon _ demo_store noon_clock demo_runs). Defined.

Lemma store_refines_keyspace_witness :
  ∃ t', spec_runs 1000 (view 1000 demo_store)
    [(1000, OpGet (bs "gone"), ObsValue None)] t'
    (view t' (get (bs "gone") demo_store).2).
Proof.
  apply (store_refines_keyspace 1000 demo_store).
  - exact demo_wf.
  - exact noon_clock.
  - econstructor; [done|reflexivity|reflexivity|done|constructor].
  - cbn. lia.
Defined.

Lemma store_size_counts_live_witness :
  (store_size demo_store).1 = Z.of_nat (base.size (view (now demo_store) demo_store)).
Proof. apply (store_size_counts_live demo_store demo_wf). reflexivity. Defined.

Lemma snapshot_load_roundtrip_witness :
  view 1500 (load_records (snapshot demo_store).1 (new_store noon)) = view 1500 demo_store.
Proof.
  apply (snapshot_load_roundtrip 1000 1500 demo_store (new_store noon)).
  - exact demo_wf.
  - apply view_new.
  - cbv. discriminate.
  - lia.
  - done.
Defined.

Lemma active_expire_cycle_safe_witness :
  expires_size demo_store =
    ((active_expire_cycle default_ExpiryConfig demo_store).1 +
     expires_size (active_expire_cycle default_ExpiryConfig demo_store).2)%nat.
Proof.
  apply (active_expire_cycle_safe 1000 default_ExpiryConfig demo_store).
  - by destruct (active_expire_cycle _ _).
  - exact demo_wf.
  - done.
Defined.

Lemma active_expire_cycle_reaps_witness :
  (active_expire_cycle default_ExpiryConfig
    (set (bs "gone") (bs "x") 900 (new_store noon))).1 =
  Nat.min (expires_size (set (bs "gone") (bs "x") 900 (new_store noon)))
    (max_passes default_ExpiryConfig * sample_size default_ExpiryConfig).
Proof.
  apply (active_expire_cycle_reaps 1000 default_ExpiryConfig
    (set (bs "gone") (bs "x") 900 (new_store noon)) _
    (active_expire_cycle default_ExpiryConfig (set (bs "gone") (bs "x") 900 (new_store noon))).2).
  - by destruct (active_expire_cycle _ _).
  - done.
  - cbv. split; [discriminate|reflexivity].
  - intros k d H. cbn in H. apply lookup_insert_Some in H as [[_ <-]|[_ H]]; [lia|].
    by rewrite lookup_empty in H.
Defined.
