(* ===== verification/Stats.v ===== *)
(** * Process counters (include/rp/stats.hpp, src/stats.cpp)

    The counters are atomics updated with relaxed ordering.  [on_connect] is a
    read-modify-write of two counters and a compare-exchange loop on a third;
    its steps are interleaved with those of other threads below. *)

From S2P Require Import Prelude.

Record Stats := mkStats {
  connections_received : Z;
  connections_active : Z;
  connections_peak : Z;
  connections_rejected : Z;
  commands_processed : Z;
  bytes_read : Z;
  bytes_written : Z;
  output_buffer_overflows : Z
}.

Definition zero_stats : Stats := mkStats 0 0 0 0 0 0 0 0.

(** [on_connect] run without interference: the exchange succeeds at once. *)
Definition on_connect (st : Stats) : Stats :=
  let now := wrap64 (connections_active st + 1) in
  mkStats (wrap64 (connections_received st + 1)) now
    (if connections_peak st <? now then now else connections_peak st)
    (connections_rejected st) (commands_processed st) (bytes_read st)
    (bytes_written st) (output_buffer_overflows st).

Definition on_disconnect (st : Stats) : Stats :=
  mkStats (connections_received st) (wrap64 (connections_active st - 1))
    (connections_peak st) (connections_rejected st) (commands_processed st)
    (bytes_read st) (bytes_written st) (output_buffer_overflows st).

(** The steady clock, in nanoseconds, one reading after the other, and the
    static [start] of [uptime_seconds], which the first call sets. *)
Record Uptime := mkUptime {
  up_start : option Z;
  up_clock : nat → Z;
  up_reads : nat
}.

Definition up_now (u : Uptime) : Z * Uptime :=
  (up_clock u (up_reads u), mkUptime (up_start u) (up_clock u) (S (up_reads u))).

Definition uptime_seconds (u : Uptime) : Z * Uptime :=
  let '(start, u) :=
    match up_start u with
    | Some start => (start, u)
    | None => let '(t, u) := up_now u in (t, mkUptime (Some t) (up_clock u) (up_reads u))
    end in
  let '(t, u) := up_now u in
  (wrap64 (Z.quot (t - start) 1000000000), u).

(** One line of INFO: the field name, the number and CRLF. *)
Definition info_line (field : string) (n : Z) : bytes := bs field ++ to_string n ++ crlf.

Definition to_info (uptime : Z) (st : Stats) : bytes :=
  bs "# Server" ++ crlf ++
  bs "redis_version:7.0.0-rp" ++ crlf ++
  info_line "uptime_in_seconds:" uptime ++ crlf ++
  bs "# Clients" ++ crlf ++
  info_line "connected_clients:" (connections_active st) ++
  info_line "peak_connected_clients:" (connections_peak st) ++
  info_line "rejected_connections:" (connections_rejected st) ++ crlf ++
  bs "# Stats" ++ crlf ++
  info_line "total_connections_received:" (connections_received st) ++
  info_line "total_commands_processed:" (commands_processed st) ++
  info_line "total_net_input_bytes:" (bytes_read st) ++
  info_line "total_net_output_bytes:" (bytes_written st) ++
  info_line "client_output_buffer_overflows:" (output_buffer_overflows st).

(** ** Interleaved connection accounting *)

(** Where a thread is in [on_connect] (the value fetched by the increment and
    the expected peak are locals), or that it is elsewhere. *)
Inductive conn_pc :=
| CIdle                       (* before on_connect *)
| CReceived                   (* received incremented *)
| CActive (now : Z)           (* active incremented, peak not yet loaded *)
| CLoop (now peak : Z)        (* in the compare-exchange loop *)
| CDone.                      (* connected *)

Record conn_state := mkConn { shared : Stats; pcs : list conn_pc }.

Definition set_received (st : Stats) (n : Z) : Stats :=
  mkStats n (connections_active st) (connections_peak st) (connections_rejected st)
    (commands_processed st) (bytes_read st) (bytes_written st) (output_buffer_overflows st).
Definition set_active (st : Stats) (n : Z) : Stats :=
  mkStats (connections_received st) n (connections_peak st) (connections_rejected st)
    (commands_processed st) (bytes_read st) (bytes_written st) (output_buffer_overflows st).
Definition set_peak (st : Stats) (n : Z) : Stats :=
  mkStats (connections_received st) (connections_active st) n (connections_rejected st)
    (commands_processed st) (bytes_read st) (bytes_written st) (output_buffer_overflows st).

(** One atomic step of one thread.  A weak exchange may fail spuriously; a
    failed exchange reloads the expected value. *)
Inductive conn_step : Stats → conn_pc → Stats → conn_pc → Prop :=
| step_received st :
    conn_step st CIdle (set_received st (wrap64 (connections_received st + 1))) CReceived
| step_active st :
    conn_step st CReceived
      (set_active st (wrap64 (connections_active st + 1)))
      (CActive (wrap64 (connections_active st + 1)))
| step_load st now :
    conn_step st (CActive now) st (CLoop now (connections_peak st))
| step_exit st now peak :
    now ≤ peak → conn_step st (CLoop now peak) st CDone
| step_exchange st now peak :
    peak < now → connections_peak st = peak →
    conn_step st (CLoop now peak) (set_peak st now) CDone
| step_retry st now peak :
    peak < now → conn_step st (CLoop now peak) st (CLoop now (connections_peak st))
| step_disconnect st :
    conn_step st CDone (on_disconnect st) CIdle.

Inductive conns_step : conn_state → conn_state → Prop :=
| conns_step_at st pcs i pc st' pc' :
    pcs !! i = Some pc → conn_step st pc st' pc' →
    conns_step (mkConn st pcs) (mkConn st' (<[i:=pc']> pcs)).

(** Threads counted in [connections_active]. *)
Definition is_active (pc : conn_pc) : bool :=
  match pc with CActive _ | CLoop _ _ | CDone => true | _ => false end.

Definition active_threads (l : list conn_pc) : Z :=
  Z.of_nat (length (filter (λ pc, is_active pc = true) l)).
