(* ===== verification/StatsTheorems.v ===== *)
(** * The peak of connections

    The compare-exchange loop of [on_connect] runs in as many threads as there
    are connections being accepted.  However their steps interleave, once no
    thread is inside the loop the peak is the highest number of connections
    there ever was at one time. *)

From S2P Require Import Prelude Stats.

(** An execution from the start, with the highest value [connections_active]
    has had. *)
Inductive conn_run (n : nat) : conn_state → Z → Prop :=
| conn_run_start : conn_run n (mkConn zero_stats (replicate n CIdle)) 0
| conn_run_step c hw c' :
    conn_run n c hw → conns_step c c' →
    conn_run n c' (Z.max hw (connections_active (shared c'))).

(** The value a thread is about to record. *)
Definition recording (pc : conn_pc) : option Z :=
  match pc with CActive now | CLoop now _ => Some now | _ => None end.

Definition in_loop (pc : conn_pc) : bool := bool_decide (is_Some (recording pc)).

Record conn_inv (n : nat) (c : conn_state) (hw : Z) : Prop := {
  inv_length : length (pcs c) = n;
  inv_active : connections_active (shared c) = active_threads (pcs c);
  inv_hw : active_threads (pcs c) ≤ hw;
  inv_peak : connections_peak (shared c) ≤ hw;
  inv_record i pc now : pcs c !! i = Some pc → recording pc = Some now → now ≤ hw;
  inv_loaded i now p : pcs c !! i = Some (CLoop now p) → p ≤ connections_peak (shared c);
  inv_reached : hw ≤ connections_peak (shared c) ∨
    ∃ i pc now, pcs c !! i = Some pc ∧ recording pc = Some now ∧ hw ≤ now
}.

Lemma active_threads_bounds l : 0 ≤ active_threads l ≤ Z.of_nat (length l).
Proof.
  unfold active_threads.
  assert (length (filter (λ pc, is_active pc = true) l) ≤ length l)%nat by apply length_filter. lia.
Qed.

Definition b2z (b : bool) : Z := if b then 1 else 0.

Lemma active_threads_cons pc l : active_threads (pc :: l) = b2z (is_active pc) + active_threads l.
Proof.
  unfold active_threads. rewrite filter_cons. case_decide as H; unfold b2z.
  - rewrite H. cbn [length]. lia.
  - apply not_true_is_false in H. rewrite H. lia.
Qed.

Lemma active_threads_insert l i pc pc' :
  l !! i = Some pc →
  active_threads (<[i := pc']> l) = active_threads l - b2z (is_active pc) + b2z (is_active pc').
Proof.
  revert i. induction l as [|x l IH]; intros [|i] Hi; simplify_eq/=; rewrite !active_threads_cons; [lia|].
  rewrite (IH i Hi). lia.
Qed.

(** One step of one thread, whatever it is. *)
Lemma conn_inv_update n st l i pc st' pc' hw :
  conn_inv n (mkConn st l) hw → l !! i = Some pc →
  let hw' := Z.max hw (connections_active st') in
  connections_active st' = connections_active st - b2z (is_active pc) + b2z (is_active pc') →
  connections_peak st ≤ connections_peak st' ≤ hw' →
  (∀ now, recording pc' = Some now → now ≤ hw') →
  (∀ now p, pc' = CLoop now p → p ≤ connections_peak st') →
  (∀ now, recording pc = Some now → hw ≤ now →
     hw ≤ connections_peak st' ∨ recording pc' = Some now) →
  (hw < connections_active st' → recording pc' = Some (connections_active st')) →
  conn_inv n (mkConn st' (<[i := pc']> l)) hw'.
Proof.
  intros [Hlen Hact Hhw Hpk Hrec Hload Hreach] Hi hw' Ha Hpeak Hrec' Hload' Hkeep Hnew. cbn in *.
  assert (i < length l)%nat as Hlt by (by eapply lookup_lt_Some).
  assert (active_threads (<[i := pc']> l) = connections_active st') as Hat
    by (rewrite (active_threads_insert l i pc) by done; lia).
  split; cbn.
  - by rewrite length_insert.
  - done.
  - lia.
  - lia.
  - intros j pcj now [(<- & <- & _)|[_ Hj]]%list_lookup_insert_Some Hr; [auto|].
    specialize (Hrec _ _ _ Hj Hr). lia.
  - intros j now p [(<- & -> & _)|[_ Hj]]%list_lookup_insert_Some; [eauto|].
    specialize (Hload _ _ _ Hj). lia.
  - assert (l !! i = Some pc → <[i := pc']> l !! i = Some pc') as Hins
      by (intros _; by apply list_lookup_insert_eq).
    destruct (Z.lt_ge_cases hw (connections_active st')) as [Hgt|Hle].
    { right. exists i, pc', (connections_active st'). split_and!; [auto..|]. unfold hw'. lia. }
    assert (hw' = hw) as -> by (unfold hw'; lia).
    destruct Hreach as [?|(j & pcj & now & Hj & Hr & Hle')]; [left; lia|].
    destruct (decide (i = j)) as [<-|Hne].
    + rewrite Hi in Hj. injection Hj as <-. destruct (Hkeep now Hr Hle') as [?|Hr']; [by left|].
      right. exists i, pc', now. auto.
    + right. exists j, pcj, now. by rewrite list_lookup_insert_ne.
Qed.

Lemma conn_inv_run n c hw : Z.of_nat n < 2 ^ 64 → conn_run n c hw → conn_inv n c hw.
Proof.
  intros Hn. induction 1 as [|c hw c' _ IH Hstep].
  { assert (active_threads (replicate n CIdle) = 0) as Ha
      by (clear; induction n as [|n IH]; [done|]; cbn [replicate]; by rewrite active_threads_cons, IH).
    split; cbn; rewrite ?length_replicate, ?Ha; try done; try lia.
    - intros i pc now [-> _]%lookup_replicate. done.
    - intros i now p [? _]%lookup_replicate. done. }
  destruct Hstep as [st l i pc st' pc' Hi Hs]. pose proof IH as [Hlen Hact Hhw Hpk Hrec Hload _]. cbn in *.
  pose proof (active_threads_bounds l) as Hb.
  assert (pc = CReceived → wrap64 (connections_active st + 1) = connections_active st + 1) as Hup.
  { intros ->. unfold wrap64. apply Z.mod_small. pose proof (active_threads_insert l i _ CDone Hi) as E.
    pose proof (active_threads_bounds (<[i := CDone]> l)) as Hb'. rewrite length_insert in Hb'. cbn in E. lia. }
  assert (pc = CDone → wrap64 (connections_active st - 1) = connections_active st - 1) as Hdown.
  { intros ->. unfold wrap64. apply Z.mod_small. pose proof (active_threads_insert l i _ CIdle Hi) as E.
    pose proof (active_threads_bounds (<[i := CIdle]> l)) as Hb'. cbn in E. lia. }
  destruct Hs; eapply conn_inv_update; try done; cbn in *;
    try (specialize (Hup eq_refl); rewrite Hup); try (specialize (Hdown eq_refl); rewrite Hdown);
    try specialize (Hrec _ _ _ Hi eq_refl); try specialize (Hload _ _ _ Hi);
    try (intros; simplify_eq); try lia; eauto with lia.
Qed.

(** The peak is exact.  Any number of threads, up to what the counters can
    count, connect and disconnect in any interleaving of their atomic steps;
    [connections_active] is the number of connections, and whenever no thread
    is between its increment and the end of its loop, [connections_peak] is the
    highest value [connections_active] has had. *)
Theorem peak_is_high_water n c hw :
  Z.of_nat n < 2 ^ 64 → conn_run n c hw →
  connections_active (shared c) = active_threads (pcs c) ∧
  (Forall (λ pc, in_loop pc = false) (pcs c) → connections_peak (shared c) = hw).
Proof.
  intros Hn Hrun. destruct (conn_inv_run n c hw Hn Hrun) as [_ Ha _ Hp _ _ Hr]. split; [done|].
  intros Hidle. destruct Hr as [?|(i & pc & now & Hi & Hrec & _)]; [lia|].
  apply (Forall_lookup_1 _ _ _ _ Hidle) in Hi. unfold in_loop in Hi.
  apply bool_decide_eq_false in Hi. rewrite Hrec in Hi. by destruct Hi.
Qed.

(** One more step of thread [i] in an execution. *)
Ltac thread_step H i step :=
  eapply conn_run_step in H; [|eapply (conns_step_at _ _ i); [reflexivity|step]];
  vm_compute in H.

(** Two threads: both increment before either records. *)
Lemma peak_is_high_water_witness :
  ∃ c, conn_run 2 c 2 ∧ connections_peak (shared c) = 2.
Proof.
  pose proof (conn_run_start 2) as H.
  thread_step H 0%nat ltac:(apply step_received).
  thread_step H 1%nat ltac:(apply step_received).
  thread_step H 0%nat ltac:(apply step_active).
  thread_step H 1%nat ltac:(apply step_active).
  thread_step H 1%nat ltac:(apply step_load).
  thread_step H 1%nat ltac:(by apply step_exchange).
  thread_step H 0%nat ltac:(apply step_load).
  thread_step H 0%nat ltac:(by apply step_exit).
  eexists. split; [exact H|].
  refine (proj2 (peak_is_high_water 2 _ 2 _ H) _); [done|]. by repeat constructor.
Defined.

(** ** Uptime *)

(** The time is counted from the first INFO, not from the start of the process:
    the first INFO reports the time between two readings of the clock it makes
    itself, and a later one the time since that. *)
Lemma uptime_from_first_info u :
  up_start u = None →
  (uptime_seconds u).1 =
    wrap64 (Z.quot (up_clock u (S (up_reads u)) - up_clock u (up_reads u)) 1000000000) ∧
  up_start (uptime_seconds u).2 = Some (up_clock u (up_reads u)).
Proof. intros H. unfold uptime_seconds. rewrite H. done. Qed.
