(* ===== verification/Commands.v ===== *)
(** * The command table (include/rp/commands.hpp, src/commands.cpp)

    Every command of the table as a function on the store, and [dispatch] as a
    function on the state of the server.  The table reaches persistence and
    replication only through two interfaces, which are records of operations
    here; what it needs of them is stated as laws. *)

From S2P Require Import Prelude Resp Glob UnorderedMap Store Keyspace Stats.

(** ** Helpers *)

Definition upper (s : bytes) : bytes := toupper <$> s.

Definition iequals (a b : bytes) : bool :=
  if negb (Nat.eqb (length a) (length b)) then false
  else forallb (λ ab : byte * byte, Byte.eqb (toupper ab.1) (toupper ab.2)) (zip a b).

(** The digit loop is the one of [parse_int]. *)
Definition to_int64 (s : bytes) : option Z :=
  match s with
  | [] => None
  | c0 :: rest =>
      if Nat.ltb 20 (length s) then None
      else
        let digits := if Byte.eqb c0 "-" || Byte.eqb c0 "+" then rest else s in
        match digits with
        | [] => None
        | _ :: _ =>
            (λ v, if Byte.eqb c0 "-" then - v else v) <$> parse_digits digits 0
        end
  end.

Definition kNotInteger : bytes := bs "ERR value is not an integer or out of range".
Definition kSyntaxError : bytes := bs "ERR syntax error".
Definition kInvalidExpire : bytes := bs "ERR invalid expire time in 'set' command".

Abbreviation Args := (list bytes).

Record CommandResult := mkResult {
  result_reply : bytes;
  dirty : bool;
  propagate : Args
}.

(** A command that does not change the keyspace. *)
Definition clean (r : bytes) : CommandResult := mkResult r false [].

(** Commands a read-only replica refuses (src/replication.cpp). *)
Definition is_write_command (name : bytes) : bool :=
  beq name (bs "SET") || beq name (bs "DEL") || beq name (bs "UNLINK") ||
  beq name (bs "EXPIRE") || beq name (bs "PEXPIRE") || beq name (bs "EXPIREAT") ||
  beq name (bs "PEXPIREAT") || beq name (bs "PERSIST") || beq name (bs "FLUSHALL") ||
  beq name (bs "FLUSHDB").

(** ** Commands that do not touch the store *)

Definition cmd_ping (a : Args) : bytes :=
  match a with
  | [_] => reply.simple (bs "PONG")
  | [_; msg] => reply.bulk msg
  | _ => reply.wrong_arity (bs "ping")
  end.

Definition cmd_echo (a : Args) : bytes :=
  match a with
  | [_; msg] => reply.bulk msg
  | _ => reply.wrong_arity (bs "echo")
  end.

Definition config_params : list (bytes * bytes) :=
  [(bs "save", []); (bs "appendonly", bs "no"); (bs "maxmemory", bs "0")].

Definition cmd_config (a : Args) : bytes :=
  match a with
  | _ :: sub :: rest =>
      if iequals sub (bs "GET") then
        match rest with
        | [pattern] =>
            let hits := filter (λ nv : bytes * bytes, glob_match pattern nv.1 = true)
                          config_params in
            reply.array_header (2 * length hits) ++
            mjoin ((λ nv : bytes * bytes, reply.bulk nv.1 ++ reply.bulk nv.2) <$> hits)
        | _ => reply.wrong_arity (bs "config|get")
        end
      else if iequals sub (bs "SET") then reply.ok
      else reply.error (bs "ERR Unknown CONFIG subcommand")
  | _ => reply.error (bs "ERR Unknown CONFIG subcommand")
  end.

Definition unknown_command (a : Args) : bytes :=
  reply.error
    (bs "ERR unknown command '" ++ default [] (head a) ++
     bs "', with args beginning with: " ++
     mjoin ((λ x, bs "'" ++ x ++ bs "' ") <$> take 3 (tail a))).

Section Commands.
Context `{UM : UnorderedMap}.
Implicit Types s : Store.

(** ** SET *)

Record SetOptions := mkSetOptions {
  so_expire_at : Z;
  so_keepttl : bool;
  so_nx : bool;
  so_xx : bool;
  so_get : bool
}.

Definition no_options : SetOptions := mkSetOptions kNoExpiry false false false false.

(** The expiry options EX, PX, EXAT and PXAT, given their argument: the error
    reply of an early return, or the deadline. *)
Definition expiry_option (opt num : bytes) (s : Store) : outcome ((bytes + Z) * Store) :=
  let relative := beq opt (bs "EX") || beq opt (bs "PX") in
  match to_int64 num with
  | None => Ret (inl (reply.error kNotInteger), s)
  | Some n =>
      let seconds := beq opt (bs "EX") || beq opt (bs "EXAT") in
      if seconds && (int64_max / 1000 <? n) then Ret (inl (reply.error kInvalidExpire), s)
      else
        n ← (if seconds then mul64 n 1000 else Ret n);
        if relative && (n <=? 0) then Ret (inl (reply.error kInvalidExpire), s)
        else if relative then
          let '(now, s) := clock s in
          e ← add64 now n;
          Ret (inr e, s)
        else Ret (inr n, s)
  end.

(** The option loop: the error reply of an early return, or the options. *)
Fixpoint set_options (opts : Args) (o : SetOptions) (s : Store)
    : outcome ((bytes + SetOptions) * Store) :=
  match opts with
  | [] => Ret (inr o, s)
  | a :: rest =>
      let opt := upper a in
      let relative := beq opt (bs "EX") || beq opt (bs "PX") in
      let absolute := beq opt (bs "EXAT") || beq opt (bs "PXAT") in
      if relative || absolute then
        if negb (so_expire_at o =? kNoExpiry) || so_keepttl o then
          Ret (inl (reply.error kSyntaxError), s)
        else
          match rest with
          | [] => Ret (inl (reply.error kSyntaxError), s)
          | num :: rest' =>
              '(r, s) ← expiry_option opt num s;
              match r with
              | inl err => Ret (inl err, s)
              | inr e =>
                  set_options rest'
                    (mkSetOptions e (so_keepttl o) (so_nx o) (so_xx o) (so_get o)) s
              end
          end
      else if beq opt (bs "KEEPTTL") then
        if negb (so_expire_at o =? kNoExpiry) then Ret (inl (reply.error kSyntaxError), s)
        else set_options rest
               (mkSetOptions (so_expire_at o) true (so_nx o) (so_xx o) (so_get o)) s
      else if beq opt (bs "NX") then
        if so_xx o then Ret (inl (reply.error kSyntaxError), s)
        else set_options rest
               (mkSetOptions (so_expire_at o) (so_keepttl o) true (so_xx o) (so_get o)) s
      else if beq opt (bs "XX") then
        if so_nx o then Ret (inl (reply.error kSyntaxError), s)
        else set_options rest
               (mkSetOptions (so_expire_at o) (so_keepttl o) (so_nx o) true (so_get o)) s
      else if beq opt (bs "GET") then
        set_options rest
          (mkSetOptions (so_expire_at o) (so_keepttl o) (so_nx o) (so_xx o) true) s
      else Ret (inl (reply.error kSyntaxError), s)
  end.

Definition bulk_or_null (v : option bytes) : bytes :=
  match v with Some x => reply.bulk x | None => reply.null_bulk end.

(** The canonical form of a write of [k]. *)
Definition canonical_set (k v : bytes) (e : Z) : Args :=
  [bs "SET"; k; v] ++ (if e =? kNoExpiry then [] else [bs "PXAT"; to_string e]).

(** KEEPTTL: the deadline is computed back from the remaining time. *)
Definition kept_deadline (k : bytes) (s : Store) : outcome (Z * Store) :=
  '(remaining, s) ← pttl k s;
  if 0 <=? remaining then
    let '(now, s) := clock s in e ← add64 now remaining; Ret (e, s)
  else Ret (kNoExpiry, s).

(** The part of [cmd_set] after the options: the conditional write. *)
Definition set_value (k v : bytes) (o : SetOptions) (s : Store)
    : outcome (CommandResult * Store) :=
  let '(previous, s) := get k s in
  if (so_nx o && bool_decide (is_Some previous)) ||
     (so_xx o && negb (bool_decide (is_Some previous))) then
    Ret (clean (if so_get o then bulk_or_null previous else reply.null_bulk), s)
  else
    '(e, s) ← (if so_keepttl o then kept_deadline k s else Ret (so_expire_at o, s));
    Ret (mkResult (if so_get o then bulk_or_null previous else reply.ok)
           true (canonical_set k v e),
         set k v e s).

Definition cmd_set (a : Args) (s : Store) : outcome (CommandResult * Store) :=
  match a with
  | _ :: k :: v :: opts =>
      '(r, s) ← set_options opts no_options s;
      match r with
      | inl err => Ret (clean err, s)
      | inr o => set_value k v o s
      end
  | _ => Ret (clean (reply.wrong_arity (bs "set")), s)
  end.

(** ** The other keyspace commands *)

Definition cmd_get (a : Args) (s : Store) : CommandResult * Store :=
  match a with
  | [_; k] => let '(v, s) := get k s in (clean (bulk_or_null v), s)
  | _ => (clean (reply.wrong_arity (bs "get")), s)
  end.

Fixpoint erase_keys (ks : Args) (removed : Z) (s : Store) : Z * Store :=
  match ks with
  | [] => (removed, s)
  | k :: ks' =>
      let '(b, s) := erase k s in
      erase_keys ks' (if b then removed + 1 else removed) s
  end.

Definition cmd_del (a : Args) (s : Store) : CommandResult * Store :=
  match a with
  | _ :: k :: ks =>
      let '(removed, s) := erase_keys (k :: ks) 0 s in
      (if 0 <? removed then mkResult (reply.integer removed) true a
       else clean (reply.integer removed), s)
  | _ => (clean (reply.wrong_arity (bs "del")), s)
  end.

Fixpoint count_present (ks : Args) (found : Z) (s : Store) : Z * Store :=
  match ks with
  | [] => (found, s)
  | k :: ks' =>
      let '(b, s) := contains k s in
      count_present ks' (if b then found + 1 else found) s
  end.

Definition cmd_exists (a : Args) (s : Store) : CommandResult * Store :=
  match a with
  | _ :: k :: ks =>
      let '(found, s) := count_present (k :: ks) 0 s in
      (clean (reply.integer found), s)
  | _ => (clean (reply.wrong_arity (bs "exists")), s)
  end.

Definition cmd_type (a : Args) (s : Store) : CommandResult * Store :=
  match a with
  | [_; k] =>
      let '(b, s) := contains k s in
      (clean (if b then reply.simple (bs "string") else reply.simple (bs "none")), s)
  | _ => (clean (reply.wrong_arity (bs "type")), s)
  end.

Definition cmd_keys (a : Args) (s : Store) : CommandResult * Store :=
  match a with
  | [_; pattern] =>
      let '(found, s) := keys pattern s in
      (clean (reply.array_header (length found) ++ mjoin (reply.bulk <$> found)), s)
  | _ => (clean (reply.wrong_arity (bs "keys")), s)
  end.

Definition cmd_expire (a : Args) (seconds absolute : bool) (name : bytes) (s : Store)
    : outcome (CommandResult * Store) :=
  match a with
  | [_; k; num] =>
      match to_int64 num with
      | None => Ret (clean (reply.error kNotInteger), s)
      | Some n =>
          if seconds && ((int64_max / 1000 <? n) || (n <? Z.quot int64_min 1000)) then
            Ret (clean (reply.error kInvalidExpire), s)
          else
            n ← (if seconds then mul64 n 1000 else Ret n);
            '(deadline, s) ← (if absolute then Ret (n, s)
                              else let '(now, s) := clock s in
                                   d ← add64 now n; Ret (d, s));
            let '(applied, s) := set_expire_at k deadline s in
            Ret (mkResult (reply.integer (if applied then 1 else 0)) applied
                   (if applied then [bs "PEXPIREAT"; k; to_string deadline] else []),
                 s)
      end
  | _ => Ret (clean (reply.wrong_arity name), s)
  end.

Definition cmd_ttl (a : Args) (seconds : bool) (name : bytes) (s : Store)
    : outcome (CommandResult * Store) :=
  match a with
  | [_; k] =>
      '(ms, s) ← pttl k s;
      if ms <? 0 then Ret (clean (reply.integer ms), s)
      else if seconds then
        up ← add64 ms 999;
        Ret (clean (reply.integer (Z.quot up 1000)), s)
      else Ret (clean (reply.integer ms), s)
  | _ => Ret (clean (reply.wrong_arity name), s)
  end.

Definition cmd_persist (a : Args) (s : Store) : CommandResult * Store :=
  match a with
  | [_; k] =>
      let '(applied, s) := persist k s in
      (mkResult (reply.integer (if applied then 1 else 0)) applied
         (if applied then a else []), s)
  | _ => (clean (reply.wrong_arity (bs "persist")), s)
  end.

(** [static_cast<std::int64_t>(store.size())] *)
Definition cmd_dbsize (a : Args) (s : Store) : CommandResult * Store :=
  match a with
  | [_] => let '(n, s) := store_size s in (clean (reply.integer (to_signed 64 n)), s)
  | _ => (clean (reply.wrong_arity (bs "dbsize")), s)
  end.

Definition cmd_flushall (a : Args) (s : Store) : CommandResult * Store :=
  (mkResult reply.ok true a, clear s).

Definition cmd_info (stats_text : bytes) (persistence replication : option bytes) (s : Store)
    : CommandResult * Store :=
  let ex := stats_ s in
  let '(live, s) := store_size s in
  (clean (reply.bulk
    (stats_text ++
     info_line "expired_keys:" (wrap64 (expired_lazy ex + expired_active ex)) ++
     info_line "expired_keys_lazy:" (expired_lazy ex) ++
     info_line "expired_keys_active:" (expired_active ex) ++
     info_line "active_expire_cycles:" (cycles ex) ++
     info_line "active_expire_passes:" (passes ex) ++
     match persistence with
     | Some text => crlf ++ bs "# Persistence" ++ crlf ++ text
     | None => []
     end ++
     match replication with
     | Some text => crlf ++ bs "# Replication" ++ crlf ++ text
     | None => []
     end ++
     crlf ++ bs "# Keyspace" ++ crlf ++
     bs "db0:keys=" ++ to_string live ++
     bs ",expires=" ++ to_string (Z.of_nat (expires_size s)) ++
     bs ",tracked=" ++ to_string (Z.of_nat (raw_size s)) ++ crlf)), s).

(** ** What the table needs of the rest of the server *)

(** The state the table runs in holds the store, and the text of the process
    counters ([Stats::instance().to_info()]). *)
Class ServerState (W : Type) := {
  store_of : W → Store;
  with_store : Store → W → W;
  stats_info : W → bytes * W;
  store_of_with s w : store_of (with_store s w) = s;
  with_store_of w : with_store (store_of w) w = w;
  with_store_with s s' w : with_store s (with_store s' w) = with_store s w;
  store_of_info w : store_of (stats_info w).2 = store_of w
}.

(** [class PersistenceOps]: success and the error message. *)
Record PersistenceOps (W : Type) := mkPersistenceOps {
  save : W → outcome ((bool * bytes) * W);
  background_save : W → outcome ((bool * bytes) * W);
  rewrite_aof : W → outcome ((bool * bytes) * W);
  persistence_info : W → outcome bytes
}.

(** [class ReplicationOps]; a [ClientLink*] is an optional link. *)
Record ReplicationOps (W Link : Type) := mkReplicationOps {
  start_full_resync : option Link → W → outcome W;
  on_replica_ack : option Link → Z → W → outcome W;
  set_replica_port : option Link → Z → W → outcome W;
  link_disconnected : option Link → W → outcome W;
  replicaof : bytes → Z → W → outcome ((bool * bytes) * W);
  stop_replication : W → outcome W;
  is_replica : W → bool;
  replication_info : W → outcome bytes
}.

End Commands.

Arguments mkPersistenceOps {_} _ _ _ _.
Arguments save {_} _ _.
Arguments background_save {_} _ _.
Arguments rewrite_aof {_} _ _.
Arguments persistence_info {_} _ _.
Arguments mkReplicationOps {_ _} _ _ _ _ _ _ _ _.
Arguments start_full_resync {_ _} _ _ _.
Arguments on_replica_ack {_ _} _ _ _ _.
Arguments set_replica_port {_ _} _ _ _ _.
Arguments link_disconnected {_ _} _ _ _.
Arguments replicaof {_ _} _ _ _ _.
Arguments stop_replication {_ _} _ _.
Arguments is_replica {_ _} _ _.
Arguments replication_info {_ _} _ _.

(** ** [CommandTable] *)

Section Dispatch.
Context `{UM : UnorderedMap} {W Link : Type} {SS : ServerState W}.

(** The table's two optional collaborators; [None] is a null pointer. *)
Record CommandTable := mkTable {
  persistence_ : option (PersistenceOps W);
  replication_ : option (ReplicationOps W Link)
}.

Implicit Types (w : W) (tbl : CommandTable).

(** A command on the store, run in the server's state. *)
Definition on_store {A} (f : Store → A * Store) (w : W) : outcome (A * W) :=
  let '(r, s) := f (store_of w) in Ret (r, with_store s w).

Definition on_store_out {A} (f : Store → outcome (A * Store)) (w : W) : outcome (A * W) :=
  '(r, s) ← f (store_of w); Ret (r, with_store s w).

Definition valid_port (s : bytes) : option Z :=
  p ← to_int64 s; if (0 <? p) && (p <=? 65535) then Some p else None.

Definition do_replconf (repl : option (ReplicationOps W Link)) (args : Args)
    (link : option Link) (w : W) : outcome (CommandResult * W) :=
  match repl, args with
  | Some ops, _ :: a1 :: a2 :: _ =>
      let sub := upper a1 in
      if beq sub (bs "ACK") then
        w ← on_replica_ack ops link (default 0 (to_int64 a2)) w;
        Ret (clean [], w)
      else if beq sub (bs "LISTENING-PORT") then
        w ← match valid_port a2 with
            | Some port => set_replica_port ops link port w
            | None => Ret w
            end;
        Ret (clean reply.ok, w)
      else Ret (clean reply.ok, w)
  | _, _ => Ret (clean reply.ok, w)
  end.

Definition do_psync (repl : option (ReplicationOps W Link)) (link : option Link) (w : W)
    : outcome (CommandResult * W) :=
  match repl with
  | None => Ret (clean (reply.error (bs "ERR replication is not enabled")), w)
  | Some ops => w ← start_full_resync ops link w; Ret (clean [], w)
  end.

Definition do_replicaof (repl : option (ReplicationOps W Link)) (args : Args) (w : W)
    : outcome (CommandResult * W) :=
  match args with
  | [_; host; port] =>
      match repl with
      | None => Ret (clean (reply.error (bs "ERR replication is not enabled")), w)
      | Some ops =>
          if iequals host (bs "NO") && iequals port (bs "ONE") then
            w ← stop_replication ops w; Ret (clean reply.ok, w)
          else
            match valid_port port with
            | None => Ret (clean (reply.error (bs "ERR Invalid master port")), w)
            | Some p =>
                '((ok, error), w) ← replicaof ops host p w;
                Ret (clean (if ok : bool then reply.ok
                            else reply.error (bs "ERR " ++ error)), w)
            end
      end
  | _ => Ret (clean (reply.wrong_arity (bs "replicaof")), w)
  end.

Definition do_save (pers : option (PersistenceOps W)) (name : bytes) (w : W)
    : outcome (CommandResult * W) :=
  match pers with
  | None => Ret (clean (reply.error (bs "ERR persistence is disabled on this server")), w)
  | Some ops =>
      '((ok, error), w) ←
        (if beq name (bs "SAVE") then save ops w
         else if beq name (bs "BGSAVE") then background_save ops w
         else rewrite_aof ops w);
      Ret (clean
        (if negb ok then reply.error (bs "ERR " ++ error)
         else if beq name (bs "SAVE") then reply.ok
         else if beq name (bs "BGSAVE") then reply.simple (bs "Background saving started")
         else reply.simple (bs "Background append only file rewriting started")), w)
  end.

Definition do_info tbl (w : W) : outcome (CommandResult * W) :=
  let '(info, w) := stats_info w in
  p ← match persistence_ tbl with
      | Some ops => text ← persistence_info ops w; Ret (Some text)
      | None => Ret None
      end;
  r ← match replication_ tbl with
      | Some ops => text ← replication_info ops w; Ret (Some text)
      | None => Ret None
      end;
  on_store (cmd_info info p r) w.

(** The chain of names of [dispatch], after the replication commands. *)
Definition run_command tbl (name : bytes) (args : Args) (w : W)
    : outcome (CommandResult * W) :=
  if beq name (bs "PING") then Ret (clean (cmd_ping args), w)
  else if beq name (bs "ECHO") then Ret (clean (cmd_echo args), w)
  else if beq name (bs "SET") then on_store_out (cmd_set args) w
  else if beq name (bs "GET") then on_store (cmd_get args) w
  else if beq name (bs "DEL") || beq name (bs "UNLINK") then on_store (cmd_del args) w
  else if beq name (bs "EXISTS") then on_store (cmd_exists args) w
  else if beq name (bs "TYPE") then on_store (cmd_type args) w
  else if beq name (bs "KEYS") then on_store (cmd_keys args) w
  else if beq name (bs "EXPIRE") then
    on_store_out (cmd_expire args true false (bs "expire")) w
  else if beq name (bs "PEXPIRE") then
    on_store_out (cmd_expire args false false (bs "pexpire")) w
  else if beq name (bs "EXPIREAT") then
    on_store_out (cmd_expire args true true (bs "expireat")) w
  else if beq name (bs "PEXPIREAT") then
    on_store_out (cmd_expire args false true (bs "pexpireat")) w
  else if beq name (bs "TTL") then on_store_out (cmd_ttl args true (bs "ttl")) w
  else if beq name (bs "PTTL") then on_store_out (cmd_ttl args false (bs "pttl")) w
  else if beq name (bs "PERSIST") then on_store (cmd_persist args) w
  else if beq name (bs "CONFIG") then Ret (clean (cmd_config args), w)
  else if beq name (bs "DBSIZE") then on_store (cmd_dbsize args) w
  else if beq name (bs "FLUSHALL") || beq name (bs "FLUSHDB") then
    on_store (cmd_flushall args) w
  else if beq name (bs "SAVE") || beq name (bs "BGSAVE") || beq name (bs "BGREWRITEAOF") then
    do_save (persistence_ tbl) name w
  else if beq name (bs "INFO") then do_info tbl w
  else if beq name (bs "COMMAND") then Ret (clean reply.empty_array, w)
  else if beq name (bs "SELECT") then Ret (clean reply.ok, w)
  else if beq name (bs "QUIT") then Ret (clean reply.ok, w)
  else Ret (clean (unknown_command args), w).

(** A dirty command that gave no canonical form propagates its arguments. *)
Definition fill_propagate (args : Args) (r : CommandResult) : CommandResult :=
  match propagate r with
  | [] => if dirty r then mkResult (result_reply r) true args else r
  | _ :: _ => r
  end.

(** A client may not write to a replica; the master's own stream has no link. *)
Definition refuses_write tbl (name : bytes) (link : option Link) (w : W) : bool :=
  match link, replication_ tbl with
  | Some _, Some ops => is_replica ops w && is_write_command name
  | _, _ => false
  end.

Definition dispatch tbl (args : Args) (link : option Link) (w : W)
    : outcome (CommandResult * W) :=
  match args with
  | [] => Ret (clean [], w)
  | a0 :: _ =>
      let name := upper a0 in
      if refuses_write tbl name link w then
        Ret (clean (reply.error
          (bs "READONLY You can't write against a read only replica.")), w)
      else if beq name (bs "REPLCONF") then do_replconf (replication_ tbl) args link w
      else if beq name (bs "PSYNC") then do_psync (replication_ tbl) link w
      else if beq name (bs "REPLICAOF") || beq name (bs "SLAVEOF") then
        do_replicaof (replication_ tbl) args w
      else
        '(r, w) ← run_command tbl name args w;
        Ret (fill_propagate args r, w)
  end.

(** [RespHandler::apply_silently]: the result is discarded. *)
Definition apply_silently tbl (args : Args) (w : W) : outcome W :=
  snd <$> dispatch tbl args None w.

End Dispatch.
