(* ===== verification/CommandSpec.v ===== *)
(** * What each command does to the keyspace

    The commands of Commands.v related to the abstract keyspace: replies,
    effects, and the effect a propagated command denotes. *)

From S2P Require Import Prelude Resp UnorderedMap Glob Store Keyspace StoreScan Stats Commands.

(** ** Numbers in arguments *)

Lemma to_int64_range s z : to_int64 s = Some z → - int64_max ≤ z ≤ int64_max.
Proof.
  unfold to_int64. destruct s as [|c0 rest]; [done|]. destruct (Nat.ltb _ _); [done|].
  set (ds := if _ : bool then rest else c0 :: rest).
  destruct ds as [|d ds']; [done|].
  intros (v & (Hd & -> & Hle)%parse_digits_spec & ->)%fmap_Some; [|unfold int64_max; lia].
  pose proof (foldl_digits_ge (d :: ds') 0 ltac:(lia) Hd). destruct (Byte.eqb c0 "-"); lia.
Qed.

(** Every deadline the server prints is read back. *)
Lemma to_int64_to_string z : - int64_max ≤ z ≤ int64_max → to_int64 (to_string z) = Some z.
Proof.
  intros Hz. assert (0 ≤ Z.abs z ≤ int64_max) as Ha by lia.
  pose proof (dec_nonneg_digits (Z.abs z) ltac:(lia)) as Hd.
  assert (length (dec_nonneg (Z.abs z)) ≤ 19)%nat as Hlen
    by (apply dec_nonneg_length; [lia|unfold int64_max in Ha; lia]).
  assert (parse_digits (dec_nonneg (Z.abs z)) 0 = Some (Z.abs z)) as Hp.
  { apply parse_digits_spec; [unfold int64_max; lia|]. split; [done|].
    split; [|lia]. by rewrite <- (dec_value_nonneg (Z.abs z)) at 1 by lia. }
  destruct (dec_nonneg_cons (Z.abs z)) as (c & ds & E); [lia|].
  assert (∀ x : bytes, (length x ≤ 20)%nat → Nat.ltb 20 (length x) = false) as Hlt
    by (intros x ?; by apply Nat.ltb_ge).
  unfold to_string, to_int64. destruct (z <? 0) eqn:Hneg; breflect.
  - replace (- z) with (Z.abs z) by lia. rewrite E in *. change (bs "-" ++ c :: ds) with ("-"%byte :: c :: ds).
    rewrite Hlt by (cbn in *; lia). change (Byte.eqb "-" "-" || _) with true. cbv iota.
    rewrite Hp. change (Byte.eqb "-" "-") with true. cbv iota. change (Some (- Z.abs z) = Some z). f_equal. lia.
  - rewrite Z.abs_eq in * by done. rewrite E in *. rewrite Hlt by lia.
    inv Hd. assert (Byte.eqb c "-" = false ∧ Byte.eqb c "+" = false) as [-> ->].
    { rewrite !byte_eqb_spec, !bool_decide_eq_false. by split; intros ->. }
    cbn [orb]. by rewrite Hp.
Qed.

(** ** Effects on the keyspace *)

Inductive write_effect :=
| WSet (k v : bytes) (d : option Z)
| WDel (ks : list bytes)
| WDeadline (k : bytes) (d : option Z)
| WFlush.

Definition ks_effect (e : write_effect) (m : keyspace) : keyspace :=
  match e with
  | WSet k v d => <[k := (v, d)]> m
  | WDel ks => foldl (λ m k, delete k m) m ks
  | WDeadline k d => ks_set_deadline k d m
  | WFlush => ∅
  end.

(** The effect a propagated command stands for. *)
Definition effect_of (p : Args) : option write_effect :=
  match p with
  | [] => None
  | a0 :: rest =>
      let name := upper a0 in
      if beq name (bs "SET") then
        match rest with
        | [k; v] => Some (WSet k v None)
        | [k; v; opt; num] =>
            if beq opt (bs "PXAT") then (λ e, WSet k v (to_deadline e)) <$> to_int64 num
            else None
        | _ => None
        end
      else if beq name (bs "DEL") || beq name (bs "UNLINK") then
        match rest with [] => None | _ :: _ => Some (WDel rest) end
      else if beq name (bs "PEXPIREAT") then
        match rest with [k; num] => (λ d, WDeadline k (Some d)) <$> to_int64 num | _ => None end
      else if beq name (bs "PERSIST") then
        match rest with [k] => Some (WDeadline k None) | _ => None end
      else if beq name (bs "FLUSHALL") || beq name (bs "FLUSHDB") then Some WFlush
      else None
  end.

Section CommandSpec.
Context `{UM : UnorderedMap}.
Implicit Types s : Store.

(** [s'] represents the keyspace of [s], now and at any later time. *)
Definition same_keyspace (t : Z) (s s' : Store) : Prop :=
  ∀ t', t ≤ t' → view t' s' = view t' s.

(** [s'] represents the keyspace of [s] after the effect [e]. *)
Definition has_effect (t : Z) (e : write_effect) (s s' : Store) : Prop :=
  ∀ t', t ≤ t' → view t' s' = ks_expire t' (ks_effect e (view t s)).

(** A command's result tells what it did: a clean result left the keyspace
    alone, and a dirty one had the effect of the command it propagates. *)
Definition truthful (t : Z) (r : CommandResult) (s s' : Store) : Prop :=
  if dirty r
  then ∃ e, effect_of (propagate r) = Some e ∧ has_effect t e s s'
  else propagate r = [] ∧ same_keyspace t s s'.

Lemma same_keyspace_refl t s : same_keyspace t s s.
Proof. done. Qed.

Lemma same_keyspace_trans t s1 s2 s3 :
  same_keyspace t s1 s2 → same_keyspace t s2 s3 → same_keyspace t s1 s3.
Proof. intros H1 H2 t' Ht. by rewrite H2, H1. Qed.

Lemma has_effect_l t e s1 s2 s3 :
  same_keyspace t s1 s2 → has_effect t e s2 s3 → has_effect t e s1 s3.
Proof. intros H1 H2 t' Ht. by rewrite H2, H1. Qed.

Lemma set_has_effect t k v e s : has_effect t (WSet k v (to_deadline e)) s (set k v e s).
Proof.
  intros t' Ht. rewrite view_set, (view_expire t t' s Ht). cbn. unfold ks_expire.
  destruct (alive t' (to_deadline e)) eqn:Ha.
  - rewrite !map_filter_insert_True by (cbn; done). by rewrite map_filter_filter_r.
  - rewrite !map_filter_insert_False by (cbn; congruence).
    rewrite !map_filter_delete. by rewrite map_filter_filter_r.
Qed.

(** ** Quiet steps and good commands *)

(** A step that at most reaps dead keys and reads the clock. *)
Record quiet (s s' : Store) : Prop := {
  quiet_later : later s s';
  quiet_wf : store_wf s → clock_wf s → store_wf s';
  quiet_view t : steady t s s' → same_keyspace t s s'
}.

(** A command that keeps the invariant and whose result is truthful. *)
Record good (s : Store) (r : CommandResult) (s' : Store) : Prop := {
  good_later : later s s';
  good_wf : store_wf s → clock_wf s → store_wf s';
  good_truth t : clock_wf s → steady t s s' → truthful t r s s'
}.

Lemma quiet_refl s : quiet s s.
Proof. split; [apply later_refl|done|done]. Qed.

Lemma quiet_trans s1 s2 s3 : quiet s1 s2 → quiet s2 s3 → quiet s1 s3.
Proof.
  intros [L1 W1 V1] [L2 W2 V2]. split.
  - by eapply later_trans.
  - intros Hw Hc. apply W2; [auto|]. by eapply clock_wf_later.
  - intros t Hst. destruct (steady_split t s1 s2 s3) as [H1 H2]; [done..|].
    by eapply same_keyspace_trans; [apply V1|apply V2].
Qed.

Lemma good_clean s s' x : quiet s s' → good s (clean x) s'.
Proof. intros [L W V]. split; [done..|]. intros t _ Hst. split; [done|]. by apply V. Qed.

Lemma good_after s s1 s' r : quiet s s1 → good s1 r s' → good s r s'.
Proof.
  intros [L1 W1 V1] [L2 W2 T2].
  assert (clock_wf s → clock_wf s1) as Hc by (by apply clock_wf_later).
  split; [by eapply later_trans|auto|].
  intros t Hwf Hst. destruct (steady_split t s s1 s') as [H1 H2]; [done..|].
  specialize (T2 t (Hc Hwf) H2). specialize (V1 t H1). unfold truthful in *.
  destruct (dirty r).
  - destruct T2 as (e & He & Heff). exists e. split; [done|]. by eapply has_effect_l.
  - destruct T2 as [Hp Hk]. split; [done|]. by eapply same_keyspace_trans.
Qed.

Lemma good_dirty s s' x p e :
  later s s' → (store_wf s → clock_wf s → store_wf s') →
  effect_of p = Some e → (∀ t, steady t s s' → has_effect t e s s') →
  good s (mkResult x true p) s'.
Proof. intros ? ? ? He. split; [done..|]. intros t _ Hst. exists e. auto. Qed.

Lemma quiet_clock s : quiet s (clock s).2.
Proof.
  split; [apply clock_later|by intros ? _; apply (wf_tables s)|].
  intros t _ t' _. by apply view_ext.
Qed.

Lemma quiet_get k s : quiet s (get k s).2.
Proof.
  split; [apply get_later|by intros ? _; apply wf_get|].
  intros t Hst. destruct (get k s) as [r s'] eqn:E. by destruct (get_spec t _ _ _ _ E Hst).
Qed.

Lemma quiet_contains k s : quiet s (contains k s).2.
Proof.
  split; [apply contains_later|by intros ? _; apply wf_contains|].
  intros t Hst. destruct (contains k s) as [r s'] eqn:E. by destruct (contains_spec t _ _ _ _ E Hst).
Qed.

Lemma quiet_pttl k s r s' : pttl k s = Ret (r, s') → quiet s s'.
Proof.
  intros E. split; [by eapply pttl_later|by intros ? _; eapply wf_pttl|].
  intros t Hst. by destruct (pttl_spec t _ _ _ _ E Hst).
Qed.

Lemma quiet_keys p s : quiet s (keys p s).2.
Proof.
  split; [apply keys_later|by intros ? _; apply keys_wf|].
  intros t Hst. destruct (keys p s) as [r s'] eqn:E. by destruct (keys_spec t _ _ _ _ E Hst).
Qed.

Lemma quiet_size s : quiet s (store_size s).2.
Proof. apply quiet_clock. Qed.

Lemma quiet_count_present ks n s : quiet s (count_present ks n s).2.
Proof.
  revert n s. induction ks as [|k ks IH]; intros n s; [apply quiet_refl|]. cbn.
  pose proof (quiet_contains k s) as Hq. destruct (contains k s) as [b s1].
  by eapply quiet_trans; [|apply IH].
Qed.

#[local] Hint Resolve quiet_refl quiet_clock quiet_get quiet_contains quiet_keys quiet_size
  quiet_count_present good_clean : redis.

(** ** SET *)

(** The numbers an option loop can leave in [expire_at]. *)
Definition deadline_arg (e : Z) : Prop := - int64_max ≤ e ≤ int64_max.

Lemma deadline_arg_no_expiry : deadline_arg kNoExpiry.
Proof. done. Qed.

Lemma deadline_arg_scaled n n' : - int64_max ≤ n → mul64 n 1000 = Ret n' → deadline_arg n'.
Proof.
  unfold mul64, deadline_arg. rewrite checked64_Ret, in_int64_spec. intros ? [? ->].
  unfold int64_min, int64_max in *. lia.
Qed.

Lemma deadline_arg_sum now n e :
  0 ≤ now → - int64_max ≤ n → add64 now n = Ret e → deadline_arg e.
Proof.
  unfold add64, deadline_arg. rewrite checked64_Ret, in_int64_spec. intros ? ? [? ->].
  unfold int64_min, int64_max in *. lia.
Qed.

Lemma seconds_arg num n (b : bool) n' :
  to_int64 num = Some n → (if b then mul64 n 1000 else Ret n) = Ret n' → deadline_arg n'.
Proof.
  intros Hn%to_int64_range. destruct b; [apply deadline_arg_scaled; lia|].
  by intros [= <-].
Qed.

Lemma expiry_option_spec opt num s r s' :
  expiry_option opt num s = Ret (r, s') → clock_wf s →
  quiet s s' ∧ match r with inl _ => True | inr e => deadline_arg e end.
Proof.
  unfold expiry_option. destruct (to_int64 num) as [z|] eqn:Hz.
  2: { intros [= <- <-]. eauto with redis. }
  destruct (_ && _); [intros [= <- <-]; eauto with redis|].
  intros (n & Hn & H)%bind_Ret Hc. pose proof (seconds_arg _ _ _ _ Hz Hn) as Hd.
  destruct (beq opt (bs "EX") || beq opt (bs "PX")); [|cbn in H; simplify_eq; eauto with redis].
  destruct (true && _); [simplify_eq; eauto with redis|].
  cbn in H. apply bind_Ret in H as (e & He & [= <- <-]).
  split; [apply quiet_clock|]. eapply deadline_arg_sum; [apply Hc| |done].
  unfold deadline_arg in Hd. lia.
Qed.

(** The option loop at most reads the clock, and what it reads or computes is
    a deadline that can be printed and read back. *)
Lemma set_options_spec opts o s r s' :
  set_options opts o s = Ret (r, s') → clock_wf s → deadline_arg (so_expire_at o) →
  quiet s s' ∧ match r with inl _ => True | inr o' => deadline_arg (so_expire_at o') end.
Proof.
  remember (length opts) as n eqn:Hn. revert opts o s Hn.
  induction (lt_wf n) as [n _ IH]; intros opts o s -> H Hc Ho.
  destruct opts as [|a rest]; cbn [set_options] in H; [simplify_eq; eauto with redis|].
  destruct ((_ || _) || (_ || _)).
  - destruct (negb _ || _); [simplify_eq; eauto with redis|].
    destruct rest as [|num rest']; [simplify_eq; eauto with redis|].
    apply bind_Ret in H as ([r1 s1] & (Hq & Hr)%expiry_option_spec & H); [|done].
    destruct r1 as [err|e]; [simplify_eq; eauto|].
    destruct (IH (length rest') ltac:(cbn; lia) rest' _ s1 eq_refl H) as [Hq' Hr'];
      [by eapply clock_wf_later; [apply quiet_later|]|done|].
    split; [by eapply quiet_trans|done].
  - repeat split_if; simplify_eq; eauto with redis;
      (eapply (IH (length rest)); [cbn; lia|done|exact H|done|exact Ho]).
Qed.

Lemma effect_of_canonical_set k v e :
  deadline_arg e → effect_of (canonical_set k v e) = Some (WSet k v (to_deadline e)).
Proof.
  intros He. unfold canonical_set, to_deadline. destruct (e =? kNoExpiry) eqn:E; [done|].
  cbn -[to_int64 to_string]. rewrite to_int64_to_string by done. cbn.
  unfold to_deadline. by rewrite E.
Qed.

Lemma set_good k v e x s :
  deadline_arg e → good s (mkResult x true (canonical_set k v e)) (set k v e s).
Proof.
  intros He. eapply good_dirty.
  - by split.
  - intros Hw _. apply wf_set; [done|]. unfold deadline_arg, int64_min, int64_max in *. lia.
  - by apply effect_of_canonical_set.
  - intros t _. apply set_has_effect.
Qed.

Lemma kept_deadline_quiet k s e s' :
  kept_deadline k s = Ret (e, s') → quiet s s' ∧ (clock_wf s → deadline_arg e).
Proof.
  unfold kept_deadline. intros ([z s1] & Hp & H)%bind_Ret.
  pose proof (quiet_pttl _ _ _ _ Hp) as Hq.
  destruct (0 <=? z) eqn:Hz; [|by simplify_eq]. breflect.
  cbn in H. apply bind_Ret in H as (e' & He & [= <- <-]). split.
  - eapply quiet_trans; [done|apply quiet_clock].
  - intros Hc. eapply deadline_arg_sum; [| |done]; [|unfold int64_max; lia].
    eapply (clock_wf_later s s1); [apply Hq|done].
Qed.

(** What the write is given: the deadline asked for, or the one kept. *)
Lemma set_deadline_quiet k o s e s' :
  (if so_keepttl o then kept_deadline k s else Ret (so_expire_at o, s)) = Ret (e, s') →
  quiet s s' ∧ (clock_wf s → deadline_arg (so_expire_at o) → deadline_arg e).
Proof.
  destruct (so_keepttl o); [|intros [= <- <-]; eauto with redis].
  intros [? ?]%kept_deadline_quiet. auto.
Qed.

Lemma set_value_good k v o s r s' :
  set_value k v o s = Ret (r, s') → clock_wf s → deadline_arg (so_expire_at o) →
  good s r s'.
Proof.
  unfold set_value. pose proof (quiet_get k s) as Hq. destruct (get k s) as [prev s1].
  intros H Hc Ho. cbn in Hq.
  destruct ((_ && _) || (_ && _)); [simplify_eq; by apply good_clean|].
  assert (clock_wf s1) as Hc1 by (by eapply clock_wf_later; [apply Hq|]).
  apply bind_Ret in H as ([e s2] & He & [= <- <-]).
  apply set_deadline_quiet in He as [Hq2 Hd].
  eapply good_after; [by eapply quiet_trans|]. apply set_good. auto.
Qed.

Lemma cmd_set_good a s r s' : cmd_set a s = Ret (r, s') → clock_wf s → good s r s'.
Proof.
  unfold cmd_set. destruct a as [|? [|k [|v opts]]]; [intros [= <- <-]; eauto with redis..|].
  intros ([r1 s1] & Hs & H)%bind_Ret Hc.
  apply set_options_spec in Hs as [Hq Hr]; [|done|apply deadline_arg_no_expiry].
  destruct r1 as [err|o]; [simplify_eq; by apply good_clean|].
  eapply good_after; [done|]. eapply set_value_good; [done| |done].
  by eapply clock_wf_later; [apply Hq|].
Qed.

(** ** The other commands *)

Lemma cmd_get_good a s r s' : cmd_get a s = (r, s') → good s r s'.
Proof.
  unfold cmd_get. destruct a as [|? [|k [|]]]; try by (intros [= <- <-]; eauto with redis).
  pose proof (quiet_get k s). destruct (get k s). intros [= <- <-]. by apply good_clean.
Qed.

Lemma cmd_exists_good a s r s' : cmd_exists a s = (r, s') → good s r s'.
Proof.
  unfold cmd_exists. destruct a as [|? [|k ks]]; try by (intros [= <- <-]; eauto with redis).
  pose proof (quiet_count_present (k :: ks) 0 s). destruct (count_present _ _ _).
  intros [= <- <-]. by apply good_clean.
Qed.

Lemma cmd_type_good a s r s' : cmd_type a s = (r, s') → good s r s'.
Proof.
  unfold cmd_type. destruct a as [|? [|k [|]]]; try by (intros [= <- <-]; eauto with redis).
  pose proof (quiet_contains k s). destruct (contains k s). intros [= <- <-]. by apply good_clean.
Qed.

Lemma cmd_keys_good a s r s' : cmd_keys a s = (r, s') → good s r s'.
Proof.
  unfold cmd_keys. destruct a as [|? [|p [|]]]; try by (intros [= <- <-]; eauto with redis).
  pose proof (quiet_keys p s). destruct (keys p s). intros [= <- <-]. by apply good_clean.
Qed.

Lemma cmd_dbsize_good a s r s' : cmd_dbsize a s = (r, s') → good s r s'.
Proof.
  unfold cmd_dbsize. destruct a as [|? [|]]; intros [= <- <-]; eauto with redis.
Qed.

Lemma cmd_info_good txt p q s r s' : cmd_info txt p q s = (r, s') → good s r s'.
Proof.
  unfold cmd_info. pose proof (quiet_size s). destruct (store_size s).
  intros [= <- <-]. by apply good_clean.
Qed.

Lemma cmd_ttl_good a b name s r s' : cmd_ttl a b name s = Ret (r, s') → good s r s'.
Proof.
  unfold cmd_ttl. destruct a as [|? [|k [|]]]; try by (intros [= <- <-]; eauto with redis).
  intros ([z s1] & Hq%quiet_pttl & H)%bind_Ret.
  destruct (z <? 0); [simplify_eq; by apply good_clean|].
  destruct b; [apply bind_Ret in H as (? & _ & H)|]; simplify_eq; by apply good_clean.
Qed.

(** Erasing a list of keys: how many were live, and what is left. *)
Fixpoint count_erased (m : keyspace) (ks : list bytes) : Z :=
  match ks with
  | [] => 0
  | k :: ks => (if bool_decide (is_Some (m !! k)) then 1 else 0) + count_erased (delete k m) ks
  end.

Lemma count_erased_nonneg m ks : 0 ≤ count_erased m ks.
Proof. revert m. induction ks as [|k ks IH]; intros m; cbn; [done|]. specialize (IH (delete k m)). case_bool_decide; lia. Qed.

Lemma erase_keys_frame ks n s :
  later s (erase_keys ks n s).2 ∧ (store_wf s → store_wf (erase_keys ks n s).2).
Proof.
  revert n s. induction ks as [|k ks IH]; intros n s; [by split; [apply later_refl|]|]. cbn.
  pose proof (erase_later k s). pose proof (wf_erase k s). destruct (erase k s) as [b s1].
  cbn in *. destruct (IH (if b then n + 1 else n) s1) as [IH1 IH2].
  split; [by eapply later_trans|auto].
Qed.

Lemma erase_keys_spec t ks n s n' s' :
  erase_keys ks n s = (n', s') → steady t s s' →
  n' = n + count_erased (view t s) ks ∧ (∀ t', view t' s' = ks_effect (WDel ks) (view t' s)).
Proof.
  revert n s. induction ks as [|k ks IH]; intros n s; cbn.
  { intros [= <- <-] _. split; [lia|done]. }
  pose proof (erase_later k s) as L1. destruct (erase k s) as [b s1] eqn:E. intros H Hst.
  pose proof (erase_keys_frame ks (if b then n + 1 else n) s1) as [L2 _]. rewrite H in L2.
  cbn in L1, L2. destruct (steady_split t s s1 s' L1 L2 Hst) as [Hst1 Hst2].
  destruct (erase_spec t _ _ _ _ E Hst1) as [-> Hv]. destruct (IH _ _ H Hst2) as [-> Hv'].
  split.
  - rewrite Hv. case_bool_decide; lia.
  - intros t'. by rewrite Hv', Hv.
Qed.

Lemma count_erased_zero m ks :
  count_erased m ks = 0 → Forall (λ k, m !! k = None) ks.
Proof.
  revert m. induction ks as [|k ks IH]; intros m; cbn; [by constructor|].
  pose proof (count_erased_nonneg (delete k m) ks). case_bool_decide as Hk; [lia|]. intros Hz.
  rewrite <- eq_None_not_Some in Hk. constructor; [done|].
  rewrite (delete_id m k) in Hz by done. by apply IH.
Qed.

Lemma delete_absent_keys (m : keyspace) ks :
  Forall (λ k, m !! k = None) ks → ks_effect (WDel ks) m = m.
Proof.
  cbn. revert m. induction ks as [|k ks IH]; intros m Hk; [done|]. inv Hk. cbn.
  rewrite delete_id by done. by apply IH.
Qed.

Lemma delete_keys_filter (ks : list bytes) (P : bytes * (bytes * option Z) → Prop) `{!∀ x, Decision (P x)} (m : keyspace) :
  ks_effect (WDel ks) (filter P m) = filter P (ks_effect (WDel ks) m).
Proof.
  cbn. revert m. induction ks as [|k ks IH]; intros m; [done|]. cbn.
  by rewrite <- map_filter_delete, IH.
Qed.

Lemma erase_keys_has_effect t ks s s' :
  (∀ t', view t' s' = ks_effect (WDel ks) (view t' s)) → has_effect t (WDel ks) s s'.
Proof.
  intros H t' Ht. rewrite H, (view_expire t t') by done. unfold ks_expire.
  by rewrite delete_keys_filter.
Qed.

Lemma effect_of_del a0 k ks :
  upper a0 = bs "DEL" ∨ upper a0 = bs "UNLINK" → effect_of (a0 :: k :: ks) = Some (WDel (k :: ks)).
Proof. intros [H|H]; unfold effect_of; by rewrite H. Qed.

Lemma cmd_del_good a0 a s r s' :
  upper a0 = bs "DEL" ∨ upper a0 = bs "UNLINK" → cmd_del (a0 :: a) s = (r, s') → good s r s'.
Proof.
  intros Ha. unfold cmd_del. destruct a as [|k ks]; [intros [= <- <-]; eauto with redis|].
  pose proof (erase_keys_frame (k :: ks) 0 s) as [L Hw].
  destruct (erase_keys (k :: ks) 0 s) as [n s1] eqn:E. intros [= <- <-]. cbn in L, Hw.
  destruct (0 <? n) eqn:Hn; breflect.
  - eapply good_dirty; [done|auto|by apply effect_of_del|]. intros t Hst.
    apply erase_keys_has_effect. by eapply erase_keys_spec.
  - apply good_clean. split; [done|auto|]. intros t Hst t' Ht.
    destruct (erase_keys_spec t _ _ _ _ _ E Hst) as [-> Hv]. rewrite Hv.
    apply delete_absent_keys.
    pose proof (count_erased_nonneg (view t s) (k :: ks)).
    eapply Forall_impl; [apply (count_erased_zero (view t s)); lia|]. cbn.
    intros k' Hk'. rewrite (view_expire t t') by done. unfold ks_expire.
    by rewrite map_lookup_filter, Hk'.
Qed.

Lemma ks_expire_set_deadline_absent t k d s :
  view t s !! k = None → ks_set_deadline k d (view t s) = view t s.
Proof. apply ks_set_deadline_absent. Qed.

Lemma expire_at_good k d (x0 x1 : bytes) s b s' :
  set_expire_at k d s = (b, s') → deadline_arg d →
  good s (mkResult (if b then x1 else x0) b
            (if b then [bs "PEXPIREAT"; k; to_string d] else [])) s'.
Proof.
  intros E Hd.
  pose proof (set_expire_at_later k d s) as L. pose proof (wf_set_expire_at k d s) as Hw.
  rewrite E in L, Hw. cbn in L, Hw.
  assert (store_wf s → clock_wf s → store_wf s') as Hw'.
  { intros. apply Hw; [done..|]. unfold deadline_arg, int64_min, int64_max in *. lia. }
  destruct b.
  - eapply (good_dirty _ _ _ _ (WDeadline k (Some d))); [done..| |].
    + cbn -[to_int64 to_string]. by rewrite to_int64_to_string.
    + intros t Hst. by destruct (set_expire_at_spec t _ _ _ _ _ E Hst).
  - apply good_clean. split; [done..|]. intros t Hst t' Ht.
    destruct (set_expire_at_spec t _ _ _ _ _ E Hst) as [Hb Hv].
    symmetry in Hb. apply bool_decide_eq_false in Hb. rewrite <- eq_None_not_Some in Hb.
    rewrite Hv, ks_set_deadline_absent by done. symmetry. by apply view_expire.
Qed.

Lemma cmd_expire_good a sec ab name s r s' :
  cmd_expire a sec ab name s = Ret (r, s') → clock_wf s → good s r s'.
Proof.
  unfold cmd_expire.
  destruct a as [|? [|k [|num [|]]]]; try by (intros [= <- <-]; eauto with redis).
  destruct (to_int64 num) as [z|] eqn:Hz; [|intros [= <- <-]; eauto with redis].
  destruct (sec && _); [intros [= <- <-]; eauto with redis|].
  intros (n & Hn & H)%bind_Ret Hc. pose proof (seconds_arg _ _ _ _ Hz Hn) as Hd.
  apply bind_Ret in H as ([d s1] & H1 & H).
  assert (quiet s s1 ∧ deadline_arg d) as [Hq Hd1].
  { destruct ab; [simplify_eq; eauto with redis|]. cbn in H1.
    apply bind_Ret in H1 as (d' & Hs & [= <- <-]). split; [apply quiet_clock|].
    eapply deadline_arg_sum; [apply Hc| |done]. apply Hd. }
  destruct (set_expire_at k d s1) as [b s2] eqn:E. simplify_eq.
  eapply good_after; [done|].
  pose proof (expire_at_good k d (reply.integer 0) (reply.integer 1) _ _ _ E Hd1) as G.
  by destruct b.
Qed.

Lemma cmd_persist_good a0 a s r s' :
  upper a0 = bs "PERSIST" → cmd_persist (a0 :: a) s = (r, s') → good s r s'.
Proof.
  intros Ha. unfold cmd_persist.
  destruct a as [|k [|]]; try by (intros [= <- <-]; eauto with redis).
  pose proof (persist_later k s) as L. pose proof (wf_persist k s) as Hw.
  destruct (persist k s) as [b s1] eqn:E. intros [= <- <-]. cbn in L, Hw. destruct b.
  - eapply (good_dirty _ _ _ _ (WDeadline k None)); [done|auto| |].
    + unfold effect_of. by rewrite Ha.
    + intros t Hst. by destruct (persist_spec t _ _ _ _ E Hst).
  - apply good_clean. split; [done|auto|]. intros t Hst t' Ht.
    destruct (persist_spec t _ _ _ _ E Hst) as [Hb Hv].
    rewrite Hv by done. transitivity (ks_expire t' (view t s)); [|symmetry; by apply view_expire].
    f_equal. unfold ks_has_deadline in Hb. apply map_eq. intros k'.
    unfold ks_set_deadline. rewrite lookup_alter. case_decide; [subst k'|done].
    by destruct (view t s !! k) as [[v [d|]]|].
Qed.

Lemma cmd_flushall_good a0 a s r s' :
  upper a0 = bs "FLUSHALL" ∨ upper a0 = bs "FLUSHDB" →
  cmd_flushall (a0 :: a) s = (r, s') → good s r s'.
Proof.
  intros Ha [= <- <-]. eapply (good_dirty _ _ _ _ WFlush).
  - by split.
  - intros _ _. apply wf_clear.
  - destruct Ha as [Ha|Ha]; unfold effect_of; by rewrite Ha.
  - intros t _ t' _. rewrite view_clear. cbn. unfold ks_expire. by rewrite map_filter_empty.
Qed.

End CommandSpec.
