(* ===== verification/CommandTheorems.v ===== *)
(** * Replies and arithmetic of the commands

    What clients see: the conditional SET with its options, counts of DEL and
    EXISTS, the rounding of TTL; and the arithmetic on deadlines, where it is
    free of overflow and where it is not. *)

From S2P Require Import Prelude Resp UnorderedMap Glob Store Keyspace StoreScan Stats Commands CommandSpec.

Section Theorems.
Context `{UM : UnorderedMap}.
Implicit Types s : Store.

(** The write of SET is blocked by NX on a live key and by XX on no live key. *)
Definition blocked (o : SetOptions) (old : option (bytes * option Z)) : Prop :=
  (so_nx o = true ∧ is_Some old) ∨ (so_xx o = true ∧ old = None).

Lemma blocked_spec o old :
  (so_nx o && bool_decide (is_Some (fst <$> old))) ||
    (so_xx o && negb (bool_decide (is_Some (fst <$> old)))) = true ↔ blocked o old.
Proof.
  unfold blocked. rewrite orb_true_iff, !andb_true_iff, negb_true_iff, bool_decide_eq_true,
    bool_decide_eq_false, fmap_is_Some, <- eq_None_not_Some. done.
Qed.

Lemma kept_deadline_spec t k s e s' :
  store_wf s → kept_deadline k s = Ret (e, s') → steady t s s' →
  to_deadline e = (view t s !! k) ≫= snd.
Proof.
  unfold kept_deadline. intros Hw ([z s1] & Hp & H)%bind_Ret Hst.
  assert (later s s1 ∧ later s1 s' ∧
    e = (if 0 <=? z then clock_ s1 (ticks s1) + z else kNoExpiry) ∧
    (0 ≤ z → steady t s1 s' → clock_ s1 (ticks s1) = t)) as (L1 & L2 & -> & Hnow).
  { split; [by eapply pttl_later|]. destruct (0 <=? z) eqn:Ez; breflect.
    - cbn in H. apply bind_Ret in H as (? & [_ ->]%checked64_Ret & [= <- <-]).
      split; [apply clock_later|]. split; [done|]. intros _ Hs. apply Hs. cbn. lia.
    - simplify_eq. split; [apply later_refl|]. split; [done|]. lia. }
  destruct (steady_split t s s1 s' L1 L2 Hst) as [H1 H2].
  destruct (pttl_spec t _ _ _ _ Hp H1) as [-> _]. unfold ks_pttl in *.
  destruct (view t s !! k) as [[v [d|]]|] eqn:Ev; cbn; [|done..].
  apply view_lookup_Some in Ev as (_ & He & Ha). unfold alive in Ha. breflect.
  destruct (wf_deadline s Hw k d He) as [Hne _].
  destruct (Z.leb_spec 0 (d - t)); [|lia]. rewrite Hnow by (done || lia).
  unfold to_deadline. replace (t + (d - t)) with d by lia.
  by destruct (Z.eqb_spec d kNoExpiry).
Qed.

(** C26: SET with its options resolved.  NX and XX decide on the live key
    whether to write; a write replaces the value, and its deadline is the one
    asked for, or with KEEPTTL the one the live key had; the reply is OK, or
    with GET the previous live value. *)
Theorem set_value_spec t k v o s r s' :
  store_wf s → set_value k v o s = Ret (r, s') → steady t s s' →
  let old := view t s !! k in
  (blocked o old →
     dirty r = false ∧ (∀ t', t ≤ t' → view t' s' = view t' s) ∧
     result_reply r = if so_get o then bulk_or_null (fst <$> old) else reply.null_bulk) ∧
  (¬ blocked o old →
     let d := if so_keepttl o then old ≫= snd else to_deadline (so_expire_at o) in
     dirty r = true ∧ (∀ t', t ≤ t' → view t' s' = ks_expire t' (<[k := (v, d)]> (view t s))) ∧
     result_reply r = if so_get o then bulk_or_null (fst <$> old) else reply.ok).
Proof.
  intros Hw H Hst old. unfold set_value in H. pose proof (quiet_get k s) as [Lg _ Vg].
  pose proof (wf_get k s Hw) as Wg. destruct (get k s) as [prev s1] eqn:E. cbn in Lg, Wg, Vg.
  assert (∀ s1' : Store, later s1 s1' → steady t s s1' → prev = fst <$> old) as Hprev.
  { intros s1' L Hs. destruct (steady_split t s s1 s1' Lg L Hs).
    by destruct (get_spec t _ _ _ _ E) as [-> _]. }
  destruct (_ || _) eqn:Hb.
  - simplify_eq. rewrite (Hprev s') in * by (done || apply later_refl).
    apply blocked_spec in Hb. split; [|done]. intros _.
    split; [done|]. split; [by apply Vg|]. by destruct (so_get o).
  - apply bind_Ret in H as ([e s2] & He & [= <- <-]).
    pose proof (set_deadline_quiet _ _ _ _ _ He) as [[L2 _ V2] _].
    rewrite (Hprev s2) in * by done. apply not_true_iff_false in Hb.
    rewrite blocked_spec in Hb. split; [done|]. intros _. split; [done|]. split; [|done]. intros t' Ht.
    destruct (steady_split t s s1 s2 Lg L2 Hst) as [H1 H2].
    assert (view t s1 = view t s) as Hv1 by (by apply (Vg t)).
    assert (view t s2 = view t s) as Hv2 by (rewrite <- Hv1; by apply (V2 t)).
    rewrite (set_has_effect t k v e s2 t' Ht), Hv2. cbn. do 3 f_equal.
    destruct (so_keepttl o); [|by simplify_eq].
    rewrite (kept_deadline_spec t k s1 e s2), Hv1; done.
Qed.

(** ** Counting *)

Lemma count_erased_dom m ks :
  count_erased m ks = Z.of_nat (base.size (dom m ∩ list_to_set (C:=gset bytes) ks)).
Proof.
  revert m. induction ks as [|k ks IH]; intros m; cbn [count_erased list_to_set].
  { by rewrite intersection_empty_r_L, size_empty. }
  rewrite IH, dom_delete_L. set (D := dom m : gset bytes). set (K := list_to_set ks : gset bytes).
  case_bool_decide as Hk; rewrite <- elem_of_dom in Hk; fold D in Hk.
  - assert (D ∩ ({[k]} ∪ K) = {[k]} ∪ (D ∖ {[k]}) ∩ K) as ->.
    { apply set_eq. intros x. destruct (decide (x = k)); set_solver. }
    rewrite (size_union {[k]} (D ∖ {[k]} ∩ K)), size_singleton by set_solver. lia.
  - assert (D ∩ ({[k]} ∪ K) = (D ∖ {[k]}) ∩ K) as ->; [set_solver|lia].
Qed.

Lemma count_present_spec t ks n s n' s' :
  count_present ks n s = (n', s') → steady t s s' →
  n' = n + Z.of_nat (length (filter (λ k, is_Some (view t s !! k)) ks)).
Proof.
  revert n s. induction ks as [|k ks IH]; intros n s; cbn [count_present].
  { intros [= <- <-] _. cbn. lia. }
  pose proof (quiet_contains k s) as [L1 _ V1]. destruct (contains k s) as [b s1] eqn:E.
  intros H Hst. pose proof (quiet_count_present ks (if b then n + 1 else n) s1) as [L2 _ _].
  rewrite H in L2. cbn in L1, L2, V1.
  destruct (steady_split t s s1 s' L1 L2 Hst) as [H1 H2].
  destruct (contains_spec t _ _ _ _ E H1) as [-> _]. rewrite (IH _ _ H H2), (V1 t) by done.
  rewrite filter_cons. case_bool_decide; case_decide; try done; cbn [length]; lia.
Qed.

(** C27: DEL replies with the number of distinct live keys among its arguments
    and removes exactly those; EXISTS counts an argument each time it is given
    and changes nothing. *)
Theorem del_exists_counts t a0 k ks s r s1 s2 r2 :
  cmd_del (a0 :: k :: ks) s = (r, s1) → cmd_exists (a0 :: k :: ks) s = (r2, s2) →
  steady t s s1 → steady t s s2 →
  result_reply r =
    reply.integer (Z.of_nat (base.size (dom (view t s) ∩ list_to_set (C:=gset bytes) (k :: ks)))) ∧
  (∀ t' k', view t' s1 !! k' = if decide (k' ∈ k :: ks) then None else view t' s !! k') ∧
  result_reply r2 =
    reply.integer (Z.of_nat (length (filter (λ k, is_Some (view t s !! k)) (k :: ks)))) ∧
  (∀ t', t ≤ t' → view t' s2 = view t' s).
Proof.
  unfold cmd_del, cmd_exists. destruct (erase_keys _ _ _) as [n s1'] eqn:E1.
  pose proof (quiet_count_present (k :: ks) 0 s) as [_ _ V2].
  destruct (count_present _ _ _) as [n2 s2'] eqn:E2.
  intros [= <- <-] [= <- <-] H1 H2. cbn [snd] in V2.
  destruct (erase_keys_spec t _ _ _ _ _ E1 H1) as [-> Hv].
  rewrite count_erased_dom, Z.add_0_l. rewrite (count_present_spec t _ _ _ _ _ E2 H2), Z.add_0_l.
  split; [by destruct (0 <? _)|]. split; [|by split; [|apply V2]].
  intros t' k'. rewrite Hv. clear. cbn [ks_effect]. generalize (view t' s) (k :: ks).
  intros m l. revert m. induction l as [|x l IH]; intros m; [done|]. cbn [foldl]. rewrite IH.
  destruct (decide (k' ∈ l)), (decide (k' ∈ x :: l)); [done|set_solver| |].
  - rewrite lookup_delete, decide_True; [done|set_solver].
  - apply lookup_delete_ne. set_solver.
Qed.

(** ** Remaining time *)

(** TTL replies -2 without a live key, -1 without a deadline, and else
    the remaining milliseconds rounded up to seconds; PTTL replies with the
    milliseconds themselves.  A live key never reports zero. *)
Theorem ttl_rounds_up t a0 k seconds name s r s' :
  cmd_ttl [a0; k] seconds name s = Ret (r, s') → steady t s s' →
  ∃ n, result_reply r = reply.integer n ∧
    match view t s !! k with
    | None => n = -2
    | Some (_, None) => n = -1
    | Some (_, Some d) =>
        0 < n ∧ if seconds : bool then (n - 1) * 1000 < d - t ≤ n * 1000 else n = d - t
    end.
Proof.
  unfold cmd_ttl. intros ([z s1] & Hp & H)%bind_Ret Hst.
  assert (s1 = s') as ->.
  { destruct (z <? 0); [by simplify_eq|].
    destruct seconds; [apply bind_Ret in H as (? & _ & H)|]; by simplify_eq. }
  destruct (pttl_spec t _ _ _ _ Hp Hst) as [-> _]. unfold ks_pttl in H.
  destruct (view t s !! k) as [[v [d|]]|] eqn:Ev;
    [|injection H as <-; by eexists..].
  apply view_lookup_Some in Ev as (_ & _ & Ha). unfold alive in Ha. breflect.
  destruct (Z.ltb_spec (d - t) 0); [lia|]. destruct seconds.
  - apply bind_Ret in H as (u & [_ ->]%checked64_Ret & H). simplify_eq. eexists. split; [done|].
    rewrite Z.quot_div_nonneg by lia.
    pose proof (Z.div_mod (d - t + 999) 1000). pose proof (Z.mod_pos_bound (d - t + 999) 1000).
    lia.
  - simplify_eq. eexists. split; [done|]. lia.
Qed.

(** ** Deadline arithmetic *)

Definition half : Z := 4611686018427387903.

(** Clock readings and stored deadlines below 2^62 milliseconds. *)
Record modest (s : Store) : Prop := {
  modest_wf : store_wf s;
  modest_clock i : 0 ≤ clock_ s i ≤ half;
  modest_deadline k d : contents (expires_ s) !! k = Some d → d ≤ half
}.

Definition modest_arg (a : bytes) : Prop :=
  ∀ n, to_int64 a = Some n → - half ≤ n * 1000 ≤ half.

Lemma modest_clock_wf s : modest s → clock_wf s.
Proof. intros [_ H _] i. specialize (H i). unfold half, int64_max in *. lia. Qed.

Lemma modest_tables s s' :
  map_ s' = map_ s → expires_ s' = expires_ s → clock_ s' = clock_ s → modest s → modest s'.
Proof.
  intros Em Ee Ec [H1 H2 H3]. split; [apply (wf_tables s); by rewrite ?Em, ?Ee|..].
  - intros i. by rewrite Ec.
  - intros k d. rewrite Ee. apply H3.
Qed.

Lemma modest_remove k s : modest s → modest (count_lazy (remove k s)).
Proof.
  intros [H1 H2 H3]. split; [by apply wf_count_lazy, wf_remove|done|].
  intros k' d. cbn. autorewrite with um. intros [_ ?]%lookup_delete_Some. eauto.
Qed.

Lemma modest_is_expired k s b s' : is_expired k s = (b, s') → modest s → modest s'.
Proof. intros (Em & Ee & _ & [Ec _])%is_expired_frame. by apply modest_tables. Qed.

Lemma modest_get k s : modest s → modest (get k s).2.
Proof.
  intros H. unfold get. destruct (um_find _ _); [|done].
  destruct (is_expired k s) as [b s1] eqn:E. apply modest_is_expired in E; [|done].
  destruct b; [by apply modest_remove|done].
Qed.

Lemma is_expired_false k s s' d :
  is_expired k s = (false, s') → contents (expires_ s) !! k = Some d → now s < d.
Proof.
  unfold is_expired. rewrite um_find_contents. intros H E. rewrite E in H. cbn in H.
  injection H as H _. by breflect.
Qed.

Lemma pttl_modest k s : modest s → ∃ z s', pttl k s = Ret (z, s') ∧ z ≤ half ∧ modest s'.
Proof.
  intros H. unfold pttl. destruct (um_find (map_ s) k); [|by eexists _, _].
  destruct (is_expired k s) as [b s1] eqn:E. pose proof (modest_is_expired _ _ _ _ E H) as H1.
  destruct b; [eexists _, _; split; [done|]; split; [done|]; by apply modest_remove|].
  rewrite um_find_contents. destruct (contents (expires_ s1) !! k) as [d|] eqn:Ed; [|by eexists _, _].
  cbn. pose proof (modest_deadline _ H1 k d Ed). pose proof (modest_clock _ H1 (ticks s1)).
  pose proof (is_expired_frame _ _ _ _ E) as (_ & Ee & _). rewrite Ee in Ed.
  pose proof (is_expired_false _ _ _ _ E Ed). pose proof (modest_clock _ H (ticks s)).
  unfold sub64, checked64, now in *. rewrite (proj2 (in_int64_spec _)).
  - eexists _, _. split; [done|]. split; [lia|]. by apply (modest_tables s1).
  - unfold half, int64_max, int64_min in *. lia.
Qed.

Lemma add64_Ret a b : int64_min ≤ a + b ≤ int64_max → add64 a b = Ret (a + b).
Proof. intros H. unfold add64, checked64. by rewrite (proj2 (in_int64_spec _)). Qed.

Lemma mul64_Ret a b : int64_min ≤ a * b ≤ int64_max → mul64 a b = Ret (a * b).
Proof. intros H. unfold mul64, checked64. by rewrite (proj2 (in_int64_spec _)). Qed.

Lemma kept_deadline_modest k s : modest s → defined (kept_deadline k s).
Proof.
  intros (z & s1 & Hp & Hz & H1)%(pttl_modest k). unfold kept_deadline, defined. rewrite Hp. cbn.
  destruct (Z.leb_spec 0 z); [|eauto]. pose proof (modest_clock _ H1 (ticks s1)).
  rewrite add64_Ret; [cbn; eauto|]. unfold half, int64_max, int64_min in *. lia.
Qed.

Lemma modest_tick s : modest s → modest (clock s).2.
Proof. by apply modest_tables. Qed.

(** Scaling a modest number, and adding it to the clock. *)
Lemma modest_scaled a n (seconds : bool) :
  modest_arg a → to_int64 a = Some n →
  ∃ m, (if seconds then mul64 n 1000 else Ret n) = Ret m ∧ - half ≤ m ≤ half.
Proof.
  intros Ha Hn. specialize (Ha n Hn). unfold half in *. destruct seconds.
  - rewrite mul64_Ret; [by eexists|]. unfold int64_max, int64_min. lia.
  - eexists. split; [done|]. lia.
Qed.

Lemma modest_sum s n : modest s → - half ≤ n ≤ half → add64 (now s) n = Ret (now s + n).
Proof.
  intros H Hn. pose proof (modest_clock _ H (ticks s)). apply add64_Ret.
  unfold now, half, int64_max, int64_min in *. lia.
Qed.

Lemma expiry_option_modest opt num s :
  modest s → modest_arg num → ∃ r s', expiry_option opt num s = Ret (r, s') ∧ modest s'.
Proof.
  intros H Ha. unfold expiry_option. destruct (to_int64 num) as [n|] eqn:Hn; [|eauto].
  destruct (_ && _); [eauto|].
  destruct (modest_scaled num n (beq opt (bs "EX") || beq opt (bs "EXAT")) Ha Hn) as (m & -> & Hm).
  cbn [mbind outcome_bind]. destruct (_ && _); [eauto|].
  destruct (_ || _); [|eauto]. pose proof (modest_sum s m H Hm) as E. unfold now in E.
  cbn. rewrite E. cbn. eexists _, _. split; [done|]. by apply modest_tick.
Qed.

Lemma set_options_modest opts o s :
  modest s → Forall modest_arg opts → ∃ r s', set_options opts o s = Ret (r, s') ∧ modest s'.
Proof.
  remember (length opts) as n eqn:Hn. revert opts o s Hn.
  induction (lt_wf n) as [n _ IH]; intros opts o s -> H Ha.
  destruct opts as [|a rest]; cbn [set_options]; [eauto|]. inv Ha.
  destruct ((_ || _) || (_ || _)).
  - destruct (negb _ || _); [eauto|]. destruct rest as [|num rest']; [eauto|].
    match goal with HF : Forall _ (num :: _) |- _ => inv HF end.
    destruct (expiry_option_modest (upper a) num s) as (r & s1 & -> & H1); [done..|].
    cbn [mbind outcome_bind]. destruct r as [err|e]; [eauto|].
    eapply (IH (length rest')); [cbn; lia|done..].
  - repeat split_if; eauto; (eapply (IH (length rest)); [cbn; lia|done..]).
Qed.

(** C28: deadline arithmetic does not overflow while the clock, the stored
    deadlines and the numbers in the arguments, taken as seconds, stay below
    2^62 milliseconds -- some 146 million years: SET with any options, the
    four EXPIRE commands, TTL and PTTL are all defined. *)
Theorem deadline_commands_defined a s seconds absolute name :
  modest s → Forall modest_arg a →
  defined (cmd_set a s) ∧ defined (cmd_expire a seconds absolute name s) ∧
  defined (cmd_ttl a seconds name s).
Proof.
  intros H Ha. split; [|split].
  - unfold cmd_set, defined. destruct a as [|a0 [|k [|v opts]]]; [eauto..|].
    destruct (set_options_modest opts no_options s) as (r & s1 & -> & H1);
      [done|by do 3 apply Forall_cons in Ha as [_ Ha]|].
    cbn [mbind outcome_bind]. destruct r as [err|o]; [eauto|]. unfold set_value.
    pose proof (modest_get k s1 H1) as H2. destruct (get k s1) as [prev s2]. cbn in H2.
    destruct ((_ && _) || (_ && _)); [eauto|].
    destruct (so_keepttl o); [|cbn; eauto].
    destruct (kept_deadline_modest k s2 H2) as [[e s3] ->]. cbn. eauto.
  - unfold cmd_expire, defined. destruct a as [|a0 [|k [|num [|]]]]; [eauto..| |eauto].
    assert (modest_arg num) as Hm by (apply (Forall_lookup_1 _ _ 2 num Ha); done).
    destruct (to_int64 num) as [n|] eqn:Hn; [|eauto]. destruct (_ && _); [eauto|].
    destruct (modest_scaled num n seconds Hm Hn) as (m & -> & Hr). cbn [mbind outcome_bind].
    pose proof (modest_sum s m H Hr) as E. unfold now in E.
    destruct absolute; cbn; rewrite ?E; cbn; destruct (set_expire_at _ _ _); eauto.
  - unfold cmd_ttl, defined. destruct a as [|a0 [|k [|]]]; [eauto..| |eauto].
    destruct (pttl_modest k s H) as (z & s1 & -> & Hz & _). cbn [mbind outcome_bind].
    destruct (Z.ltb_spec z 0); [eauto|]. destruct seconds; [|eauto].
    rewrite add64_Ret; [cbn; eauto|]. unfold half, int64_max, int64_min in *. lia.
Qed.

(** Beyond that range the arithmetic overflows.  A relative expiry of
    2^63-1 milliseconds passes every check and overflows the addition to the
    clock, in SET and in PEXPIRE; EXAT with a large negative time passes the
    check of SET, which has only an upper bound, and overflows the scaling to
    milliseconds. *)
Theorem set_expire_overflow k v s :
  0 < now s →
  cmd_set [bs "SET"; k; v; bs "PX"; bs "9223372036854775807"] s = Undefined ∧
  cmd_expire [bs "PEXPIRE"; k; bs "9223372036854775807"] false false (bs "pexpire") s = Undefined ∧
  cmd_set [bs "SET"; k; v; bs "EXAT"; bs "-9223372036854775807"] s = Undefined.
Proof.
  intros Hnow.
  assert (add64 (now s) 9223372036854775807 = Undefined) as Ho.
  { unfold add64, checked64. destruct (in_int64 _) eqn:E; [|done].
    apply in_int64_spec in E. unfold int64_max in E. lia. }
  split; [|split].
  - unfold cmd_set. cbn [set_options].
    assert (expiry_option (bs "PX") (bs "9223372036854775807") s = Undefined) as E
      by (transitivity (e ← add64 (now s) 9223372036854775807; Ret (@inr bytes Z e, (clock s).2));
          [reflexivity|by rewrite Ho]).
    change (upper (bs "PX")) with (bs "PX"). by rewrite E.
  - unfold cmd_expire. change (to_int64 (bs "9223372036854775807")) with (Some 9223372036854775807).
    cbn [andb mbind outcome_bind clock]. unfold now in Ho. by rewrite Ho.
  - reflexivity.
Qed.

(** SET k v PXAT -1 is accepted and, -1 being the marker for no expiry,
    stores a key that never expires; the write is propagated without a
    deadline, although the time given is in the past. *)
Theorem set_pxat_minus_one k v s :
  ∃ r s', cmd_set [bs "SET"; k; v; bs "PXAT"; bs "-1"] s = Ret (r, s') ∧
    propagate r = [bs "SET"; k; v] ∧ ∀ t, view t s' !! k = Some (v, None).
Proof.
  unfold cmd_set.
  change (set_options [bs "PXAT"; bs "-1"] no_options s) with
    (Ret (@inr bytes _ (mkSetOptions kNoExpiry false false false false), s)).
  cbn [mbind outcome_bind]. unfold set_value.
  destruct (get k s) as [prev s1]. eexists _, _. split; [done|]. split; [done|].
  intros t. apply view_lookup_Some. cbn. autorewrite with um.
  rewrite lookup_insert_eq, lookup_delete_eq. done.
Qed.

(** KEEPTTL can lose the deadline it is to keep.  The remaining time is
    computed from a second reading of the clock; when the deadline passes
    between the two readings it is negative, which SET takes to mean that the
    key had no deadline, and the new value never expires. *)
Theorem keepttl_race k v x d s :
  contents (map_ s) !! k = Some x → contents (expires_ s) !! k = Some d →
  clock_ s (ticks s) < d → clock_ s (S (ticks s)) < d →
  d < clock_ s (S (S (ticks s))) ≤ int64_max → 0 ≤ d →
  ∃ r s', cmd_set [bs "SET"; k; v; bs "KEEPTTL"] s = Ret (r, s') ∧
    propagate r = [bs "SET"; k; v] ∧ ∀ t, view t s' !! k = Some (v, None).
Proof.
  intros Hx Hd H0 H1 H2 Hpos. unfold cmd_set.
  change (set_options [bs "KEEPTTL"] no_options s) with
    (Ret (@inr bytes _ (mkSetOptions kNoExpiry true false false false), s)).
  cbn [mbind outcome_bind]. unfold set_value, get.
  rewrite um_find_contents, Hx. unfold is_expired. rewrite um_find_contents, Hd. cbn [clock].
  destruct (Z.leb_spec d (clock_ s (ticks s))); [lia|]. cbn [so_nx so_xx so_keepttl andb orb].
  unfold kept_deadline, pttl. cbn [map_ expires_]. rewrite um_find_contents, Hx.
  unfold is_expired. cbn [expires_]. rewrite um_find_contents, Hd. cbn [clock clock_ ticks].
  destruct (Z.leb_spec d (clock_ s (S (ticks s)))); [lia|]. cbn [expires_].
  rewrite um_find_contents, Hd. cbn [clock clock_ ticks].
  unfold sub64, checked64. rewrite (proj2 (in_int64_spec _)) by (unfold int64_max, int64_min in *; lia).
  cbn [mbind outcome_bind]. destruct (Z.leb_spec 0 (d - clock_ s (S (S (ticks s))))); [lia|].
  cbn [mbind outcome_bind]. eexists _, _. split; [done|]. split; [done|].
  intros t. apply view_lookup_Some. cbn. autorewrite with um.
  by rewrite lookup_insert_eq, lookup_delete_eq.
Qed.

End Theorems.

(** ** Witnesses *)

#[local] Existing Instance gmap_table.

(** A clock that stands at 10, and a store with a key that expires at 100. *)
Definition at_ten : nat → Z := λ _, 10.
Definition one_key : Store := set (bs "k") (bs "v") 100 (new_store at_ten).

Lemma one_key_wf : store_wf one_key.
Proof. apply wf_set; [apply wf_new|]. by split. Qed.

Lemma one_key_modest : modest one_key.
Proof.
  split; [exact one_key_wf|by split|]. intros k d. cbn.
  intros [[_ <-]|[_ Hd]]%lookup_insert_Some; [done|]. by rewrite lookup_empty in Hd.
Qed.

Lemma set_value_spec_witness :
  match set_value (bs "k") (bs "w") (mkSetOptions kNoExpiry true false true true) one_key with
  | Ret (r, s') => view 50 s' !! bs "k" = Some (bs "w", Some 100)
  | _ => False
  end.
Proof.
  pose proof (set_value_spec 10 (bs "k") (bs "w") (mkSetOptions kNoExpiry true false true true)
    one_key _ _ one_key_wf eq_refl (λ i _, eq_refl)) as [_ H].
  destruct H as (_ & H & _); [by intros [[? _]|[_ ?]]|]. specialize (H 50 ltac:(done)).
  etransitivity; [exact (f_equal (lookup (bs "k")) H)|reflexivity].
Defined.

Lemma del_exists_counts_witness :
  result_reply (cmd_del [bs "DEL"; bs "k"; bs "k"] one_key).1 = reply.integer 1 ∧
  result_reply (cmd_exists [bs "DEL"; bs "k"; bs "k"] one_key).1 = reply.integer 2.
Proof.
  destruct (del_exists_counts 10 (bs "DEL") (bs "k") [bs "k"] one_key _ _ _ _
    (surjective_pairing _) (surjective_pairing _) (λ i _, eq_refl) (λ i _, eq_refl))
    as (-> & _ & -> & _).
  split; reflexivity.
Defined.

Lemma ttl_rounds_up_witness :
  ∃ n, reply.integer 1 = reply.integer n ∧ 0 < n ∧ (n - 1) * 1000 < 90 ≤ n * 1000.
Proof.
  exact (ttl_rounds_up 10 (bs "TTL") (bs "k") true (bs "ttl") one_key (clean (reply.integer 1))
    _ eq_refl (λ i _, eq_refl)).
Defined.

Lemma deadline_commands_defined_witness :
  defined (cmd_set [bs "SET"; bs "k"; bs "w"; bs "KEEPTTL"] one_key).
Proof.
  apply (deadline_commands_defined [bs "SET"; bs "k"; bs "w"; bs "KEEPTTL"] one_key true true []
    one_key_modest).
  repeat (apply Forall_cons_2; [by intros n [=]|]). apply Forall_nil_2.
Defined.

Lemma set_expire_overflow_witness :
  cmd_set [bs "SET"; bs "k"; bs "w"; bs "PX"; bs "9223372036854775807"] one_key = Undefined.
Proof. by apply (set_expire_overflow (bs "k") (bs "w") one_key). Defined.

(** The clock reads 99, 99 and then 101, while the key expires at 100. *)
Definition ticking : nat → Z := λ i, if Nat.ltb i 2 then 99 else 101.

Lemma keepttl_race_witness :
  ∃ r s', cmd_set [bs "SET"; bs "k"; bs "w"; bs "KEEPTTL"]
      (set (bs "k") (bs "v") 100 (new_store ticking)) = Ret (r, s') ∧
    propagate r = [bs "SET"; bs "k"; bs "w"] ∧ ∀ t, view t s' !! bs "k" = Some (bs "w", None).
Proof.
  apply (keepttl_race (bs "k") (bs "w") (mkEntry (bs "v")) 100
    (set (bs "k") (bs "v") 100 (new_store ticking))); by cbn.
Defined.
