(* ===== verification/Dispatch.v ===== *)
(** * Correctness of the command table

    Against any persistence and replication that leave the keyspace alone when
    the table calls them, every command keeps the store's invariant, a command
    that reports no change made none, and a command that reports a change had
    exactly the effect of the command it propagates.  A propagated command can
    always be applied again, and doing so brings a second server to the same
    keyspace. *)

From S2P Require Import Prelude Resp UnorderedMap Glob Store Keyspace StoreScan Stats Commands CommandSpec.

Section Dispatch.
Context `{UM : UnorderedMap} {W Link : Type} {SS : ServerState W}.
Implicit Types (w : W) (tbl : CommandTable (W:=W) (Link:=Link)).

(** What the table relies on: its collaborators at most read the store. *)
Record PersistenceLaws (ops : PersistenceOps W) : Prop := {
  save_quiet w r w' : save ops w = Ret (r, w') → quiet (store_of w) (store_of w');
  background_save_quiet w r w' :
    background_save ops w = Ret (r, w') → quiet (store_of w) (store_of w');
  rewrite_aof_quiet w r w' : rewrite_aof ops w = Ret (r, w') → quiet (store_of w) (store_of w')
}.

Record ReplicationLaws (ops : ReplicationOps W Link) : Prop := {
  start_full_resync_quiet l w w' :
    start_full_resync ops l w = Ret w' → quiet (store_of w) (store_of w');
  on_replica_ack_quiet l n w w' :
    on_replica_ack ops l n w = Ret w' → quiet (store_of w) (store_of w');
  set_replica_port_quiet l n w w' :
    set_replica_port ops l n w = Ret w' → quiet (store_of w) (store_of w');
  replicaof_quiet h n w r w' :
    replicaof ops h n w = Ret (r, w') → quiet (store_of w) (store_of w');
  stop_replication_quiet w w' :
    stop_replication ops w = Ret w' → quiet (store_of w) (store_of w')
}.

Class TableLaws tbl : Prop := {
  table_persistence ops : persistence_ tbl = Some ops → PersistenceLaws ops;
  table_replication ops : replication_ tbl = Some ops → ReplicationLaws ops
}.

#[local] Hint Resolve quiet_refl quiet_clock good_clean : redis.

(** ** Every branch is good *)

Abbreviation goodw w r w' := (good (store_of w) r (store_of w')).

Lemma on_store_good (f : Store → CommandResult * Store) w r w' :
  (∀ s r s', f s = (r, s') → good s r s') → on_store f w = Ret (r, w') → goodw w r w'.
Proof.
  unfold on_store. intros Hf. destruct (f (store_of w)) as [x s] eqn:E.
  intros [= <- <-]. rewrite store_of_with. eauto.
Qed.

Lemma on_store_out_good (f : Store → outcome (CommandResult * Store)) w r w' :
  (∀ s r s', f s = Ret (r, s') → clock_wf s → good s r s') →
  clock_wf (store_of w) → on_store_out f w = Ret (r, w') → goodw w r w'.
Proof.
  unfold on_store_out. intros Hf Hc ([x s] & E & H)%bind_Ret. simplify_eq.
  rewrite store_of_with. eauto.
Qed.

Lemma do_replconf_good tbl args l w r w' :
  TableLaws tbl → do_replconf (replication_ tbl) args l w = Ret (r, w') → goodw w r w'.
Proof.
  intros [_ L]. unfold do_replconf. destruct (replication_ tbl) as [ops|].
  2: { intros [= <- <-]. eauto with redis. }
  destruct (L ops eq_refl).
  destruct args as [|? [|a1 [|a2 ?]]]; try by (intros [= <- <-]; eauto with redis).
  repeat split_if.
  - intros (w1 & H & [= <- <-])%bind_Ret. eauto with redis.
  - intros (w1 & H & [= <- <-])%bind_Ret. destruct (valid_port a2); simplify_eq; eauto with redis.
  - intros [= <- <-]. eauto with redis.
Qed.

Lemma do_psync_good tbl l w r w' :
  TableLaws tbl → do_psync (replication_ tbl) l w = Ret (r, w') → goodw w r w'.
Proof.
  intros [_ L]. unfold do_psync. destruct (replication_ tbl) as [ops|].
  - destruct (L ops eq_refl). intros (w1 & H & [= <- <-])%bind_Ret. eauto with redis.
  - intros [= <- <-]. eauto with redis.
Qed.

Lemma do_replicaof_good tbl args w r w' :
  TableLaws tbl → do_replicaof (replication_ tbl) args w = Ret (r, w') → goodw w r w'.
Proof.
  intros [_ L]. unfold do_replicaof.
  destruct args as [|? [|h [|p [|]]]]; try by (intros [= <- <-]; eauto with redis).
  destruct (replication_ tbl) as [ops|]; [|intros [= <- <-]; eauto with redis].
  destruct (L ops eq_refl). split_if.
  - intros (w1 & H & [= <- <-])%bind_Ret. eauto with redis.
  - destruct (valid_port p); [|intros [= <- <-]; eauto with redis].
    intros ([[ok err] w1] & H & [= <- <-])%bind_Ret. eauto with redis.
Qed.

Lemma do_save_good tbl name w r w' :
  TableLaws tbl → do_save (persistence_ tbl) name w = Ret (r, w') → goodw w r w'.
Proof.
  intros [L _]. unfold do_save. destruct (persistence_ tbl) as [ops|].
  2: { intros [= <- <-]. eauto with redis. }
  destruct (L ops eq_refl). intros ([[ok err] w1] & H & [= <- <-])%bind_Ret.
  repeat split_if; eauto with redis.
Qed.

Lemma do_info_good tbl w r w' : do_info tbl w = Ret (r, w') → goodw w r w'.
Proof.
  unfold do_info. pose proof (store_of_info w) as Hi. destruct (stats_info w) as [info w1]. cbn in Hi.
  intros (p & _ & (q & _ & H)%bind_Ret)%bind_Ret. rewrite <- Hi.
  eapply on_store_good; [|done]. intros. by eapply cmd_info_good.
Qed.

Lemma run_command_good tbl a0 a w r w' :
  TableLaws tbl → clock_wf (store_of w) →
  run_command tbl (upper a0) (a0 :: a) w = Ret (r, w') → goodw w r w'.
Proof.
  intros L Hc. unfold run_command.
  repeat match goal with
    | |- (if ?b then _ else _) = _ → _ =>
        destruct b eqn:?; [first
          [ by intros [= <- <-]; eauto with redis
          | eapply on_store_out_good; [|done]; intros;
            first [by eapply cmd_set_good | by eapply cmd_expire_good | by eapply cmd_ttl_good]
          | eapply on_store_good; intros;
            first [by eapply cmd_get_good | by eapply cmd_exists_good | by eapply cmd_type_good
                  | by eapply cmd_keys_good | by eapply cmd_dbsize_good ]
          | by apply do_save_good
          | by apply do_info_good
          | idtac ]|]
    end.
  - breflect. rewrite !beq_true in *.
    eapply on_store_good. intros. by eapply cmd_del_good.
  - rewrite !beq_true in *. eapply on_store_good. intros. by eapply cmd_persist_good.
  - breflect. rewrite !beq_true in *.
    eapply on_store_good. intros. by eapply cmd_flushall_good.
  - intros [= <- <-]. eauto with redis.
Qed.

Lemma fill_propagate_good args w r w' : goodw w r w' → goodw w (fill_propagate args r) w'.
Proof.
  intros [L Hw Ht]. split; [done..|]. intros t Hc Hst. specialize (Ht t Hc Hst).
  unfold fill_propagate, truthful in *.
  destruct (propagate r) as [|p0 p] eqn:Ep; [|by rewrite Ep].
  destruct (dirty r) eqn:Ed; [by destruct Ht as (e & ? & _)|]. by rewrite Ep, Ed.
Qed.

Lemma dispatch_good tbl args l w r w' :
  TableLaws tbl → clock_wf (store_of w) → dispatch tbl args l w = Ret (r, w') → goodw w r w'.
Proof.
  intros L Hc. unfold dispatch. destruct args as [|a0 a]; [intros [= <- <-]; eauto with redis|].
  destruct (refuses_write _ _ _ _); [intros [= <- <-]; eauto with redis|].
  destruct (beq _ _); [by apply do_replconf_good|].
  destruct (beq _ _); [by apply do_psync_good|].
  destruct (_ || _); [by apply do_replicaof_good|].
  intros ([r1 w1] & H & [= <- <-])%bind_Ret.
  apply fill_propagate_good. by eapply run_command_good.
Qed.

(** ** What every command respects *)

(** A relation between states that updating the store and calling the
    collaborators on behalf of the link [l] respect. *)
Record table_respects tbl (l : option Link) (R : W → W → Prop) : Prop := {
  respects_refl w : R w w;
  respects_store s w : R w (with_store s w);
  respects_info s w : R w (with_store s (stats_info w).2);
  respects_save ops w r w' :
    persistence_ tbl = Some ops →
    save ops w = Ret (r, w') ∨ background_save ops w = Ret (r, w') ∨
    rewrite_aof ops w = Ret (r, w') → R w w';
  respects_replicaof ops h n w r w' :
    replication_ tbl = Some ops → 0 < n ≤ 65535 ∧ replicaof ops h n w = Ret (r, w') → R w w';
  respects_replication ops n w w' :
    replication_ tbl = Some ops →
    start_full_resync ops l w = Ret w' ∨
    int64_min ≤ n ≤ int64_max ∧ on_replica_ack ops l n w = Ret w' ∨
    0 < n ≤ 65535 ∧ set_replica_port ops l n w = Ret w' ∨ stop_replication ops w = Ret w' → R w w'
}.

Lemma on_store_respects {A} (f : Store → A * Store) w r w' :
  on_store f w = Ret (r, w') → ∃ s, w' = with_store s w.
Proof. unfold on_store. destruct (f _). intros [= <- <-]. eauto. Qed.

Lemma on_store_out_respects {A} (f : Store → outcome (A * Store)) w r w' :
  on_store_out f w = Ret (r, w') → ∃ s, w' = with_store s w.
Proof. unfold on_store_out. intros ([x s] & _ & [= <- <-])%bind_Ret. eauto. Qed.

Lemma do_save_respects tbl l R name w r w' :
  table_respects tbl l R → do_save (persistence_ tbl) name w = Ret (r, w') → R w w'.
Proof.
  intros [Hr _ _ Hs _ _]. unfold do_save. destruct (persistence_ tbl) as [ops|];
    [|intros [= <- <-]; apply Hr].
  intros ([[ok err] w1] & H & [= <- <-])%bind_Ret. eapply Hs; [done|]. repeat case_match; eauto.
Qed.

Lemma do_info_respects tbl w r w' :
  do_info tbl w = Ret (r, w') → ∃ s, w' = with_store s (stats_info w).2.
Proof.
  unfold do_info. destruct (stats_info w) as [info w1].
  by intros (? & _ & (? & _ & ?%on_store_respects)%bind_Ret)%bind_Ret.
Qed.

Lemma run_command_respects tbl l R name a w r w' :
  table_respects tbl l R → run_command tbl name a w = Ret (r, w') → R w w'.
Proof.
  intros T. pose proof T as [Hr Hs Hi _ _ _]. unfold run_command.
  repeat match goal with
    | |- (if ?b then _ else _) = _ → _ =>
        destruct b; [first
          [ by intros [= <- <-]
          | by intros [s ->]%on_store_respects
          | by intros [s ->]%on_store_out_respects
          | by apply (do_save_respects _ l)
          | by intros [s ->]%do_info_respects ]|]
    end.
  by intros [= <- <-].
Qed.

Lemma valid_port_range s n : valid_port s = Some n → 0 < n ≤ 65535.
Proof.
  unfold valid_port. destruct (to_int64 s) as [z|]; [|done]. cbn. split_if; [|done]. intros [= <-]. lia.
Qed.

Lemma dispatch_respects tbl R args l w r w' :
  table_respects tbl l R → dispatch tbl args l w = Ret (r, w') → R w w'.
Proof.
  intros T. pose proof T as [Hr _ _ _ Hof Hre]. unfold dispatch.
  destruct args as [|a0 a]; [by intros [= <- <-]|].
  destruct (refuses_write _ _ _ _); [by intros [= <- <-]|].
  destruct (beq _ _).
  { unfold do_replconf. destruct (replication_ tbl) as [ops|]; [|by intros [= <- <-]].
    destruct a as [|a1 [|a2 ?]]; try by intros [= <- <-].
    repeat split_if; [..|by intros [= <- <-]]; intros (w1 & H & [= <- <-])%bind_Ret.
    - eapply (Hre ops _ _ _ eq_refl). right; left. split; [|exact H].
      destruct (to_int64 a2) as [n|] eqn:En; cbn; [apply to_int64_range in En|]; unfold int64_min, int64_max in *; lia.
    - destruct (valid_port a2) as [port|] eqn:Ep; [|by injection H as <-].
      eapply (Hre ops _ _ _ eq_refl). right; right; left. split; [by apply valid_port_range in Ep|exact H]. }
  destruct (beq _ _).
  { unfold do_psync. destruct (replication_ tbl) as [ops|]; [|by intros [= <- <-]].
    intros (w1 & H & [= <- <-])%bind_Ret. eapply (Hre ops 0); eauto. }
  destruct (_ || _).
  - unfold do_replicaof. destruct a as [|h [|p [|]]]; try by intros [= <- <-].
    destruct (replication_ tbl) as [ops|]; [|by intros [= <- <-]].
    split_if; [intros (w1 & H & [= <- <-])%bind_Ret; eapply (Hre ops 0); eauto|].
    destruct (valid_port p) as [port|] eqn:Ep; [|by intros [= <- <-]].
    intros ([[ok err] w1] & H & [= <- <-])%bind_Ret. apply valid_port_range in Ep. by eapply Hof.
  - intros ([r1 w1] & H & [= <- <-])%bind_Ret. by eapply run_command_respects.
Qed.

(** ** Applying a propagated command *)

(** [f] runs and has the effect [e]. *)
Definition applies (f : outcome (CommandResult * W)) (e : write_effect) w : Prop :=
  ∃ r s', f = Ret (r, with_store s' w) ∧ later (store_of w) s' ∧
    (∀ t, steady t (store_of w) s' → has_effect t e (store_of w) s').

Lemma fill_applies args (f : outcome (CommandResult * W)) e w :
  applies f e w → applies ('(r, w) ← f; Ret (fill_propagate args r, w)) e w.
Proof. intros (r & s' & -> & H). by exists (fill_propagate args r), s'. Qed.

Lemma apply_set w k v (e : Z) a0 opts :
  (opts = [] ∧ e = kNoExpiry) ∨ (∃ num, opts = [bs "PXAT"; num] ∧ to_int64 num = Some e) →
  applies (on_store_out (cmd_set (a0 :: k :: v :: opts)) w) (WSet k v (to_deadline e)) w.
Proof.
  intros Ho. unfold on_store_out, cmd_set.
  assert (set_options opts no_options (store_of w) =
    Ret (inr (mkSetOptions e false false false false), store_of w)) as ->.
  { destruct Ho as [[-> ->]|(num & -> & Hn)]; [done|].
    cbn [set_options]. unfold expiry_option. by rewrite Hn. }
  unfold set_value, applies. cbn. pose proof (quiet_get k (store_of w)) as [L _ V].
  destruct (get k (store_of w)) as [prev s1] eqn:E. cbn in *.
  eexists _, _. split; [done|]. split; [exact L|].
  intros t Hst. eapply has_effect_l; [by apply V|]. apply set_has_effect.
Qed.

Lemma apply_del w a0 k ks :
  applies (on_store (cmd_del (a0 :: k :: ks)) w) (WDel (k :: ks)) w.
Proof.
  unfold on_store, cmd_del. pose proof (erase_keys_frame (k :: ks) 0 (store_of w)) as [L _].
  destruct (erase_keys _ _ _) as [n s1] eqn:E. eexists _, _. split; [done|]. split; [exact L|].
  intros t Hst. apply erase_keys_has_effect. by eapply erase_keys_spec.
Qed.

Lemma apply_deadline w a0 k num d :
  to_int64 num = Some d →
  applies (on_store_out (cmd_expire [a0; k; num] false true (bs "pexpireat")) w)
    (WDeadline k (Some d)) w.
Proof.
  intros Hn. unfold on_store_out, cmd_expire. rewrite Hn. cbn.
  pose proof (set_expire_at_later k d (store_of w)) as L.
  destruct (set_expire_at k d (store_of w)) as [b s1] eqn:E. cbn.
  eexists _, _. split; [done|]. split; [exact L|].
  intros t Hst. by destruct (set_expire_at_spec t _ _ _ _ _ E Hst).
Qed.

Lemma apply_persist w a0 k :
  applies (on_store (cmd_persist [a0; k]) w) (WDeadline k None) w.
Proof.
  unfold on_store, cmd_persist. pose proof (persist_later k (store_of w)) as L.
  destruct (persist k (store_of w)) as [b s1] eqn:E. eexists _, _. split; [done|].
  split; [exact L|]. intros t Hst. by destruct (persist_spec t _ _ _ _ E Hst).
Qed.

Lemma apply_flush w a : applies (on_store (cmd_flushall a) w) WFlush w.
Proof.
  eexists _, _. split; [done|]. split; [by split|].
  intros t _ t' _. rewrite view_clear. cbn. unfold ks_expire. by rewrite map_filter_empty.
Qed.

(** Decide comparisons of literal command names. *)
Ltac eval_names :=
  repeat match goal with
  | |- context [beq (bs ?a) (bs ?b)] =>
      let v := eval vm_compute in (beq (bs a) (bs b)) in
      change (beq (bs a) (bs b)) with v
  end; cbn [orb].

(** A propagated command always runs, and has the effect it stands for. *)
Lemma dispatch_canonical tbl p e w :
  effect_of p = Some e → applies (dispatch tbl p None w) e w.
Proof.
  destruct p as [|a0 a]; [done|]. unfold effect_of, dispatch, run_command, refuses_write.
  destruct (beq (upper a0) (bs "SET")) eqn:E1;
    [|destruct (beq (upper a0) (bs "DEL") || beq (upper a0) (bs "UNLINK")) eqn:E2;
    [|destruct (beq (upper a0) (bs "PEXPIREAT")) eqn:E3;
    [|destruct (beq (upper a0) (bs "PERSIST")) eqn:E4;
    [|destruct (beq (upper a0) (bs "FLUSHALL") || beq (upper a0) (bs "FLUSHDB")) eqn:E5;
    [|done]]]]].
  - apply beq_true in E1 as ->. eval_names. intros H. apply fill_applies.
    destruct a as [|k [|v [|opt [|num [|]]]]]; simplify_eq/=.
    + apply (apply_set w k v kNoExpiry). by left.
    + destruct (beq opt (bs "PXAT")) eqn:Eo; [|done]. apply beq_true in Eo as ->.
      apply fmap_Some in H as (z & Hz & ->). apply apply_set. eauto.
  - apply orb_true_iff in E2. rewrite !beq_true in E2. intros H.
    destruct a as [|k ks]; simplify_eq/=.
    destruct E2 as [-> | ->]; eval_names; apply fill_applies, apply_del.
  - apply beq_true in E3 as ->. eval_names. intros H. apply fill_applies.
    destruct a as [|k [|num [|]]]; simplify_eq/=.
    apply fmap_Some in H as (d & Hd & ->). by apply apply_deadline.
  - apply beq_true in E4 as ->. eval_names. intros H. apply fill_applies.
    destruct a as [|k [|]]; simplify_eq/=. apply apply_persist.
  - apply orb_true_iff in E5. rewrite !beq_true in E5. intros [= <-].
    destruct E5 as [-> | ->]; eval_names; apply fill_applies, apply_flush.
Qed.

(** Applying an effect later than it first happened: keys that died in
    between make no difference, unless the effect is on the deadline of one of
    them. *)
Lemma effect_later (e : write_effect) (t2 t' : Z) (m : keyspace) :
  t2 ≤ t' → (∀ k d, e = WDeadline k d → is_Some (m !! k) → is_Some (ks_expire t2 m !! k)) →
  ks_expire t' (ks_effect e (ks_expire t2 m)) = ks_expire t' (ks_effect e m).
Proof.
  intros Ht Hk. unfold ks_expire in *.
  assert (∀ n : keyspace, filter (λ kv, alive t' kv.2.2 = true) (filter (λ kv, alive t2 kv.2.2 = true) n) =
    filter (λ kv, alive t' kv.2.2 = true) n) as Hf.
  { intros n. apply map_filter_filter_l. intros k x _ Hx. by eapply alive_mono. }
  destruct e as [k v d|ks|k d|]; [| | |done].
  - cbn. destruct (alive t' d) eqn:Ha.
    + by rewrite !map_filter_insert_True, Hf by (cbn; done).
    + by rewrite !map_filter_insert_False, !map_filter_delete, Hf by (cbn; congruence).
  - by rewrite delete_keys_filter, Hf.
  - apply map_eq. intros k'. cbn. unfold ks_set_deadline. rewrite !map_lookup_filter, !lookup_alter.
    case_decide; [subst k'|by pose proof (f_equal (lookup k') (Hf m)) as E; rewrite !map_lookup_filter in *].
    specialize (Hk k d eq_refl). destruct (m !! k) as [x|] eqn:Em.
    + destruct Hk as [y Hy]; [done|]. rewrite map_lookup_filter, Em in Hy |- *. cbn in *.
      destruct (guard _); [done|]. done.
    + by rewrite map_lookup_filter, Em.
Qed.

(** ** Only write commands are dirty *)

Definition never_dirty (f : outcome (CommandResult * W)) : Prop :=
  ∀ r w', f = Ret (r, w') → dirty r = false.

Lemma never_dirty_on_store (f : Store → CommandResult * Store) w :
  (∀ s, dirty (f s).1 = false) → never_dirty (on_store f w).
Proof.
  unfold on_store. intros Hf r w'. specialize (Hf (store_of w)).
  destruct (f (store_of w)). by intros [= <- <-].
Qed.

Lemma never_dirty_ttl a b name w : never_dirty (on_store_out (cmd_ttl a b name) w).
Proof.
  unfold on_store_out, cmd_ttl. intros r w' ([r' s] & H & [= <- <-])%bind_Ret. revert H.
  destruct a as [|? [|k [|]]]; try by intros [= <- <-].
  intros ([z s1] & _ & H)%bind_Ret. destruct (z <? 0); [by simplify_eq|].
  destruct b; [apply bind_Ret in H as (? & _ & H)|]; by simplify_eq.
Qed.

Lemma never_dirty_reads (a : Args) (s : Store) :
  dirty (cmd_get a s).1 = false ∧ dirty (cmd_exists a s).1 = false ∧
  dirty (cmd_type a s).1 = false ∧ dirty (cmd_keys a s).1 = false ∧
  dirty (cmd_dbsize a s).1 = false.
Proof.
  unfold cmd_get, cmd_exists, cmd_type, cmd_keys, cmd_dbsize.
  split_and!; repeat (case_match; cbn; try done).
Qed.

Lemma never_dirty_save pers name w : never_dirty (do_save pers name w).
Proof.
  unfold do_save. intros r w'. destruct pers; [|by intros [= <- <-]].
  by intros ([[ok err] w1] & _ & [= <- <-])%bind_Ret.
Qed.

Lemma never_dirty_info tbl w : never_dirty (do_info tbl w).
Proof.
  unfold do_info. destruct (stats_info w) as [info w1].
  intros r w' (p & _ & (q & _ & H)%bind_Ret)%bind_Ret. revert r w' H.
  by apply never_dirty_on_store.
Qed.

Lemma run_command_dirty tbl name a w r w' :
  run_command tbl name a w = Ret (r, w') → dirty r = true → is_write_command name = true.
Proof.
  assert (∀ f, never_dirty f → f = Ret (r, w') → dirty r = true → is_write_command name = true)
    as Hn by (intros f Hf He; by rewrite (Hf _ _ He)).
  unfold run_command.
  repeat match goal with
    | |- (if ?b then _ else _) = _ → _ =>
        destruct b eqn:?; [first
          [ by intros [= <- <-]
          | by intros _ _; unfold is_write_command; breflect; rewrite ?beq_true in *;
               intuition (subst; reflexivity)
          | apply Hn; first [apply never_dirty_on_store; intros; apply never_dirty_reads
                            | apply never_dirty_ttl
                            | apply never_dirty_save
                            | apply never_dirty_info]
          | idtac ]|]
    end.
  by intros [= <- <-].
Qed.

Lemma dispatch_dirty tbl a0 a l w r w' :
  dispatch tbl (a0 :: a) l w = Ret (r, w') → dirty r = true →
  is_write_command (upper a0) = true ∧ refuses_write tbl (upper a0) l w = false.
Proof.
  unfold dispatch. destruct (refuses_write _ _ _ _); [by intros [= <- <-]|].
  destruct (beq _ _).
  { unfold do_replconf. intros H. repeat case_match; try (apply bind_Ret in H as (? & _ & H)); by simplify_eq. }
  destruct (beq _ _).
  { unfold do_psync. intros H. case_match; [apply bind_Ret in H as (? & _ & H)|]; by simplify_eq. }
  destruct (_ || _).
  { unfold do_replicaof. intros H.
    repeat case_match; try (apply bind_Ret in H as ([[? ?] ?] & _ & H) || apply bind_Ret in H as (? & _ & H)); by simplify_eq. }
  intros ([r1 w1] & H & [= <- <-])%bind_Ret Hd. split; [|done].
  eapply run_command_dirty; [done|]. unfold fill_propagate in Hd.
  destruct (propagate r1); [|done]. destruct (dirty r1) eqn:E; cbn in Hd; congruence.
Qed.

(** ** Properties *)

(** C1: whatever command is dispatched, the store's invariant is kept, and
    the result tells the truth: a result that is not dirty left the keyspace
    as it was and propagates nothing, and a dirty result propagates a command
    whose effect is exactly the change that was made. *)
Theorem dispatch_truthful tbl args l w r w' t :
  TableLaws tbl → store_wf (store_of w) → clock_wf (store_of w) →
  dispatch tbl args l w = Ret (r, w') → steady t (store_of w) (store_of w') →
  store_wf (store_of w') ∧
  if dirty r
  then ∃ e, effect_of (propagate r) = Some e ∧
       ∀ t', t ≤ t' →
         view t' (store_of w') = ks_expire t' (ks_effect e (view t (store_of w)))
  else propagate r = [] ∧ ∀ t', t ≤ t' → view t' (store_of w') = view t' (store_of w).
Proof.
  intros L Hw Hc H Hst. destruct (dispatch_good _ _ _ _ _ _ L Hc H) as [_ W1 T1].
  split; [auto|]. by apply T1.
Qed.

(** C4: the convergence step of replication and of AOF replay.  A propagated
    command applied by a server whose keyspace agrees always runs, and the two
    keyspaces agree from then on -- even when it is applied later, provided a
    command about a key's deadline reaches the key before it dies. *)
Theorem propagated_converges tbl tbl2 args l w w2 r w' t t2 :
  TableLaws tbl → clock_wf (store_of w) →
  dispatch tbl args l w = Ret (r, w') → steady t (store_of w) (store_of w') →
  dirty r = true → t ≤ t2 →
  view t2 (store_of w2) = view t2 (store_of w) →
  (∀ k d, effect_of (propagate r) = Some (WDeadline k d) →
     is_Some (view t2 (store_of w) !! k)) →
  ∃ w2', apply_silently tbl2 (propagate r) w2 = Ret w2' ∧
    (steady t2 (store_of w2) (store_of w2') →
     ∀ t', t2 ≤ t' → view t' (store_of w2') = view t' (store_of w')).
Proof.
  intros L Hc H Hst Hd Ht Hv Hk. destruct (dispatch_good _ _ _ _ _ _ L Hc H) as [_ _ T1].
  specialize (T1 t Hc Hst). unfold truthful in T1. rewrite Hd in T1.
  destruct T1 as (e & He & Heff).
  destruct (dispatch_canonical tbl2 _ _ w2 He) as (r2 & s2' & E & _ & Heff2).
  exists (with_store s2' w2). unfold apply_silently. rewrite E. split; [done|].
  rewrite store_of_with. intros Hst2 t' Ht'. rewrite (Heff2 t2) by done. rewrite (Heff t') by lia.
  rewrite Hv, (view_expire t t2) by done. apply effect_later; [done|].
  intros k d -> _. rewrite <- view_expire by done. by eapply Hk.
Qed.

(** C29: a replica is read-only for clients: no command of a client changes
    its keyspace or is propagated, and write commands are answered with the
    READONLY error and leave the whole server as it was. *)
Theorem replica_readonly tbl ops args lnk w r w' t :
  TableLaws tbl → clock_wf (store_of w) →
  replication_ tbl = Some ops → is_replica ops w = true →
  dispatch tbl args (Some lnk) w = Ret (r, w') → steady t (store_of w) (store_of w') →
  dirty r = false ∧ (∀ t', t ≤ t' → view t' (store_of w') = view t' (store_of w)) ∧
  (is_write_command (upper (default [] (head args))) = true →
   w' = w ∧
   result_reply r = reply.error (bs "READONLY You can't write against a read only replica.")).
Proof.
  intros L Hc Hops Hrep H Hst. destruct (dispatch_good _ _ _ _ _ _ L Hc H) as [_ _ T1].
  specialize (T1 t Hc Hst). unfold truthful in T1.
  destruct args as [|a0 a]; [by cbn in H; simplify_eq|].
  assert (refuses_write tbl (upper a0) (Some lnk) w = is_write_command (upper a0)) as Hr
    by (unfold refuses_write; by rewrite Hops, Hrep).
  destruct (dirty r) eqn:Ed.
  { destruct (dispatch_dirty _ _ _ _ _ _ _ H Ed). congruence. }
  split; [done|]. split; [by destruct T1|]. intros Hw.
  change (is_write_command (upper a0) = true) in Hw.
  unfold dispatch in H. rewrite Hr, Hw in H. by simplify_eq.
Qed.

End Dispatch.

(** ** Witnesses *)

(** A server that is only a store, and a table with no collaborators. *)
#[export] Instance store_server `{UM : UnorderedMap} : ServerState Store := {|
  store_of s := s;
  with_store s _ := s;
  stats_info s := (to_info 0 zero_stats, s);
  store_of_with _ _ := eq_refl;
  with_store_of _ := eq_refl;
  with_store_with _ _ _ := eq_refl;
  store_of_info _ := eq_refl
|}.

#[local] Existing Instance gmap_table.

Definition alone : CommandTable (W:=Store) (Link:=unit) := mkTable None None.

Lemma alone_laws : TableLaws alone.
Proof. by split. Qed.

(** A replica: the replication operations do nothing but say so. *)
Definition replica_ops : ReplicationOps Store unit :=
  mkReplicationOps (λ _ w, Ret w) (λ _ _ w, Ret w) (λ _ _ w, Ret w) (λ _ w, Ret w)
    (λ _ _ w, Ret ((true, []), w)) (λ w, Ret w) (λ _, true) (λ _, Ret []).

Definition as_replica : CommandTable (W:=Store) (Link:=unit) := mkTable None (Some replica_ops).

Lemma replica_laws : TableLaws as_replica.
Proof. split; [done|]. intros ops [= <-]. split; cbn; intros; simplify_eq; apply quiet_refl. Qed.

Definition ten : nat → Z := λ _, 10.

Definition set_px : Args := [bs "set"; bs "k"; bs "v"; bs "px"; bs "90"].

Lemma ten_clock (c : nat → Z) : (∀ i, c i = 10) → clock_wf (new_store c).
Proof. intros H i. cbn. rewrite H. by split. Qed.

(** The result of SET k v PX 90 at time 10. *)
Definition after_set : CommandResult * Store :=
  (mkResult reply.ok true [bs "SET"; bs "k"; bs "v"; bs "PXAT"; bs "100"],
   set (bs "k") (bs "v") 100 (clock (new_store ten)).2).

Lemma after_set_eq : dispatch alone set_px None (new_store ten) = Ret after_set.
Proof. reflexivity. Qed.

Lemma dispatch_truthful_witness :
  view 50 after_set.2 = {[ bs "k" := (bs "v", Some 100) ]}.
Proof.
  destruct (dispatch_truthful alone set_px None (new_store ten) after_set.1 after_set.2 10
    alone_laws (wf_new ten) (ten_clock ten (λ _, eq_refl)) after_set_eq (λ i _, eq_refl))
    as [_ (e & He & Hv)].
  change (store_of after_set.2) with after_set.2 in Hv. rewrite (Hv 50) by done.
  vm_compute in He. injection He as <-. reflexivity.
Defined.

Lemma propagated_converges_witness :
  ∃ s2, apply_silently alone (propagate after_set.1) (new_store (λ _, 60)) = Ret s2 ∧
    (steady 60 (new_store (λ _, 60)) s2 → view 70 s2 = view 70 after_set.2).
Proof.
  destruct (propagated_converges alone alone set_px None (new_store ten) (new_store (λ _, 60))
    after_set.1 after_set.2 10 60 alone_laws (ten_clock ten (λ _, eq_refl)) after_set_eq
    (λ i _, eq_refl) eq_refl) as (s2 & E2 & H2).
  - done.
  - cbn [store_of store_server]. by rewrite !view_new.
  - intros k d He. vm_compute in He. discriminate He.
  - exists s2. split; [done|]. intros Hst. by apply H2.
Defined.

Lemma replica_readonly_witness :
  dirty (clean (reply.error (bs "READONLY You can't write against a read only replica.")))
    = false.
Proof.
  refine (proj1 (replica_readonly as_replica replica_ops set_px tt (new_store ten) _
    (new_store ten) 10 replica_laws (ten_clock ten (λ _, eq_refl)) eq_refl eq_refl _
    (λ i _, eq_refl))).
  reflexivity.
Defined.
