(* ===== verification/Handler.v ===== *)
(** * Connection handlers (include/rp/handler.hpp, src/handler.cpp, and
    [RespHandler] of src/commands.cpp)

    [on_data] drains the complete requests of a connection's read buffer.  The
    reply buffer belongs to the connection, and a command may write to the
    connection itself, so appending a reply is an operation on the state of the
    server.  Framing and execution are separated by a theorem: the requests are
    a function of the bytes alone, however these were split into reads. *)

From S2P Require Import Prelude Buffer Resp UnorderedMap Glob Store Keyspace Stats Commands.

(** ** Framing *)

(** The requests of a read buffer: the non-empty ones, what is left in the
    buffer, and the protocol error that ended the stream, if any.  [None] is
    running out of fuel. *)
Fixpoint drain (fuel : nat) (input : Buffer) : option (list Args * Buffer * option bytes) :=
  match fuel with
  | O => None
  | S fuel' =>
      let result := parse_request (readable input) in
      match status result with
      | kIncomplete => Some ([], input, None)
      | kError => Some ([], buf_clear input, Some (error result))
      | kOk =>
          '(cmds, input', err) ← drain fuel' (consume input (consumed result));
          Some (match args result with [] => cmds | _ :: _ => args result :: cmds end, input', err)
      end
  end.

(** A request is at least one byte long, so this much fuel is enough
    ([drain_total]). *)
Definition drain_fuel (input : Buffer) : nat := S (buf_size input).

Section Handler.
Context `{UM : UnorderedMap} {W Link : Type} {SS : ServerState W}.

(** [RespHandler]: the command table, the propagation hook, and [out.append]
    on the connection's reply buffer. *)
Record RespHandler := mkHandler {
  table_ : CommandTable (W:=W) (Link:=Link);
  propagate_ : option (Args → W → outcome W);
  out_append : bytes → W → W
}.

Implicit Types (h : RespHandler) (w : W).

(** Execute one request: dispatch, reply, and then propagate a change. *)
Definition execute h (link : option Link) (a : Args) (w : W) : outcome W :=
  '(r, w) ← dispatch (table_ h) a link w;
  let w := out_append h (result_reply r) w in
  match propagate_ h with
  | Some f => if dirty r then f (propagate r) w else Ret w
  | None => Ret w
  end.

Fixpoint on_data_loop (fuel : nat) h (link : option Link) (input : Buffer) (w : W)
    (handled : nat) : outcome (nat * Buffer * W) :=
  match fuel with
  | O => NoFuel
  | S fuel' =>
      let result := parse_request (readable input) in
      match status result with
      | kIncomplete => Ret (handled, input, w)
      | kError => Ret (handled, buf_clear input, out_append h (reply.error (error result)) w)
      | kOk =>
          let input := consume input (consumed result) in
          match args result with
          | [] => on_data_loop fuel' h link input w handled
          | _ :: _ =>
              w ← execute h link (args result) w;
              on_data_loop fuel' h link input w (S handled)
          end
      end
  end.

Definition on_data h (link : option Link) (input : Buffer) (w : W)
    : outcome (nat * Buffer * W) :=
  on_data_loop (drain_fuel input) h link input w 0.

(** [RespHandler::on_disconnect] *)
Definition handler_disconnect h (link : option Link) (w : W) : outcome W :=
  match replication_ (table_ h) with
  | Some ops => link_disconnected ops link w
  | None => Ret w
  end.

(** Executing requests one after the other. *)
Fixpoint execute_all h (link : option Link) (cmds : list Args) (w : W) : outcome W :=
  match cmds with
  | [] => Ret w
  | a :: cmds => w ← execute h link a w; execute_all h link cmds w
  end.

(** The last reply, when the stream ended in a protocol error. *)
Definition reply_error h (err : option bytes) (w : W) : W :=
  match err with Some msg => out_append h (reply.error msg) w | None => w end.

End Handler.

(** ** The Phase 1 handler *)

(** A loop over digits with a limit checked after each; [None] is an early
    [return 0]. *)
Fixpoint digits_upto (limit : Z) (s : bytes) (v : Z) : option Z :=
  match s with
  | [] => Some v
  | c :: s' =>
      if negb (isdigit c) then None
      else
        let v := v * 10 + (u8 c - 48) in
        if limit <? v then None else digits_upto limit s' v
  end.

(** The loop over the [argc] bulk strings, from [pos]. *)
Fixpoint framed_bulks (argc : nat) (s : bytes) (pos : nat) : option nat :=
  match argc with
  | O => Some pos
  | S argc' =>
      match s !! pos with
      | None => None
      | Some c =>
          if negb (Byte.eqb c "$") then None
          else
            hdr ← find_crlf_from s pos;
            len ← digits_upto (512 * 1024 * 1024) (substr s (pos + 1) (hdr - (pos + 1))) 0;
            let pos := (hdr + 2 + Z.to_nat len + 2)%nat in
            if Nat.ltb (length s) pos then None else framed_bulks argc' s pos
      end
  end.

Definition framed_length (s : bytes) : nat :=
  match s with
  | [] => 0
  | c :: _ =>
      if negb (Byte.eqb c "*") then
        match find_crlf s with Some eol => eol + 2 | None => 0 end
      else
        default 0%nat
          (pos ← find_crlf s;
           argc ← digits_upto (1024 * 1024) (substr s 1 (pos - 1)) 0;
           framed_bulks (Z.to_nat argc) s (pos + 2))
  end%nat.

(** The inner loop: does the haystack start with the needle. *)
Fixpoint starts_ci (haystack needle : bytes) : bool :=
  match needle, haystack with
  | [], _ => true
  | n :: needle', c :: haystack' => Byte.eqb (toupper c) n && starts_ci haystack' needle'
  | _ :: _, [] => false
  end.

Fixpoint contains_at (starts : nat) (haystack needle : bytes) : bool :=
  match starts with
  | O => false
  | S starts' => starts_ci haystack needle || contains_at starts' (tail haystack) needle
  end.

Definition contains_ci (haystack needle : bytes) : bool :=
  if Nat.ltb (length haystack) (length needle) then false
  else contains_at (S (length haystack - length needle)) haystack needle.

Section PingPong.
Variable info : bytes.   (* Stats::instance().to_info() *)

(** The strings appended for one request, in order. *)
Definition ping_replies (request : bytes) : list bytes :=
  if contains_ci request (bs "COMMAND") then [bs "*0" ++ crlf]
  else if contains_ci request (bs "INFO") then
    [bs "$" ++ to_string (size info) ++ crlf; info; crlf]
  else [bs "+PONG" ++ crlf].

Fixpoint ping_loop (fuel : nat) (input out : Buffer) (handled : nat)
    : outcome (nat * Buffer * Buffer) :=
  match fuel with
  | O => NoFuel
  | S fuel' =>
      let n := framed_length (readable input) in
      if Nat.eqb n 0 then Ret (handled, input, out)
      else ping_loop fuel' (consume input n)
             (foldl buf_append out (ping_replies (substr (readable input) 0 n))) (S handled)
  end.

Definition ping_on_data (input out : Buffer) : outcome (nat * Buffer * Buffer) :=
  ping_loop (drain_fuel input) input out 0.

End PingPong.

(** ** Lemmas on framing *)

Abbreviation drained := (list Args * Buffer * option bytes)%type.

(** Two drained buffers that hold the same bytes. *)
Definition same_drained (x y : drained) : Prop :=
  x.1.1 = y.1.1 ∧ readable x.1.2 = readable y.1.2 ∧ x.2 = y.2 ∧ (buf_wf x.1.2 → buf_wf y.1.2).

(** A buffer that holds exactly one request. *)
Lemma on_data_one `{UM : UnorderedMap} {W Link : Type} {SS : ServerState W} (h : RespHandler (W:=W) (Link:=Link))
    (l : option Link) b a (w w' : W) :
  buf_wf b → parse_request (readable b) = mkParseResult kOk (length (readable b)) a [] → a ≠ [] →
  execute h l a w = Ret w' → on_data h l b w = Ret (1%nat, consume b (length (readable b)), w').
Proof.
  intros Hb Hp Ha He. pose proof (parse_request_ok_bounds (readable b)) as Hlen. rewrite Hp in Hlen.
  specialize (Hlen eq_refl). cbn [consumed] in Hlen. unfold on_data, drain_fuel. rewrite buf_size_readable.
  destruct (length (readable b)) as [|m] eqn:El; [lia|]. cbn [on_data_loop]. rewrite Hp. cbn [status args consumed].
  destruct a as [|c a]; [done|]. rewrite He. cbn [mbind outcome_bind on_data_loop].
  by rewrite readable_consume, drop_ge by (done || lia).
Qed.

Lemma drain_total fuel b :
  buf_wf b → (buf_size b < fuel)%nat → ∃ r, drain fuel b = Some r ∧ buf_wf r.1.2.
Proof.
  revert b. induction fuel as [|fuel IH]; intros b Hb Hf; [lia|]. cbn [drain].
  destruct (status (parse_request (readable b))) eqn:Hs;
    [|by eexists|eexists; split; [done|apply buf_clear_wf]].
  apply parse_request_ok_bounds in Hs.
  destruct (IH (consume b (consumed (parse_request (readable b))))) as ([[cmds b'] err] & -> & Hw).
  - by apply consume_wf.
  - rewrite buf_size_readable in *. rewrite readable_consume, length_drop by done. lia.
  - cbn. by eexists.
Qed.

Lemma drain_mono fuel fuel' b r :
  drain fuel b = Some r → (fuel ≤ fuel')%nat → drain fuel' b = Some r.
Proof.
  revert b r fuel'. induction fuel as [|fuel IH]; intros b r [|fuel'] H Hf; [done..|lia|].
  cbn [drain] in *. destruct (status _); [|done..].
  apply bind_Some in H as ([[cmds b'] err] & H & ?). by rewrite (IH _ _ fuel' H) by lia.
Qed.

(** What is drained depends on the readable bytes alone. *)
Lemma drain_readable fuel b b2 r :
  buf_wf b → buf_wf b2 → readable b2 = readable b → drain fuel b = Some r →
  ∃ r2, drain fuel b2 = Some r2 ∧ same_drained r r2.
Proof.
  revert b b2 r. induction fuel as [|fuel IH]; intros b b2 r Hb Hb2 E H; [done|].
  cbn [drain] in *. rewrite E. destruct (status _) eqn:Hs.
  - apply bind_Some in H as ([[cmds b'] err] & H & [= <-]).
    eapply (IH _ (consume b2 (consumed (parse_request (readable b)))))
      in H as ([[cmds2 b2'] err2] & -> & Hr & ? & ? & ?); [|auto with redis..|].
    2: { by rewrite !readable_consume, E. }
    cbn in *. eexists. split; [done|]. by rewrite Hr.
  - simplify_eq. by eexists.
  - simplify_eq. by eexists.
Qed.

(** Bytes that arrive after a read are framed as if they had been there. *)
Lemma drain_app fuel b x cmds rest fuel2 r2 :
  buf_wf b → drain fuel b = Some (cmds, rest, None) →
  drain fuel2 (buf_append rest x) = Some r2 →
  ∃ r, drain (fuel + fuel2) (buf_append b x) = Some r ∧
    same_drained (cmds ++ r2.1.1, r2.1.2, r2.2) r.
Proof.
  revert b cmds. induction fuel as [|fuel IH]; intros b cmds Hb H H2; [done|].
  cbn [drain Nat.add] in *.
  assert (readable (buf_append b x) = readable b ++ x) as E by (by apply readable_append).
  destruct (status (parse_request (readable b))) eqn:Hs.
  - apply bind_Some in H as ([[cmds1 b1] err] & H & [= <- <- ->]).
    destruct (IH _ _ (consume_wf _ _ Hb) H H2) as (r & Hr & Hsame).
    rewrite E, parse_request_app, Hs by done.
    pose proof (parse_request_ok_bounds _ Hs).
    eapply (drain_readable _ _ (consume (buf_append b x) (consumed (parse_request (readable b)))))
      in Hr as (r' & -> & Hr'); [|auto with redis..|].
    2: { rewrite readable_consume, readable_append, (readable_append (consume _ _)), readable_consume
        by auto with redis. by rewrite drop_app_le by lia. }
    destruct r as [[? ?] ?], r' as [[? ?] ?], Hsame as (? & ? & ? & ?), Hr' as (? & ? & ? & ?).
    cbn in *. eexists. split; [done|]. split_and!; cbn; try congruence; [|auto].
    destruct (args _); cbn; congruence.
  - simplify_eq. cbn [app]. exists r2. destruct r2 as [[? ?] ?]. split; [|done].
    change (drain (S fuel + fuel2) (buf_append rest x) = Some (l, b, o)).
    eapply drain_mono; [done|]. lia.
  - done.
Qed.

Section HandlerTheorems.
Context `{UM : UnorderedMap} {W Link : Type} {SS : ServerState W}.
Implicit Types (h : RespHandler (W:=W) (Link:=Link)) (w : W).

Lemma execute_all_app h l c1 c2 w :
  execute_all h l (c1 ++ c2) w = (w ← execute_all h l c1 w; execute_all h l c2 w).
Proof.
  revert w. induction c1 as [|a c1 IH]; intros w; [done|]. cbn.
  destruct (execute h l a w); [|done..]. cbn. apply IH.
Qed.

Lemma on_data_loop_drain fuel h l b w n cmds rest err :
  drain fuel b = Some (cmds, rest, err) →
  on_data_loop fuel h l b w n =
    (w ← execute_all h l cmds w; Ret ((n + length cmds)%nat, rest, reply_error h err w)).
Proof.
  revert b w n cmds. induction fuel as [|fuel IH]; intros b w n cmds H; [done|].
  cbn [drain on_data_loop] in *. destruct (status (parse_request (readable b))).
  - apply bind_Some in H as ([[cmds1 b1] err1] & H & E).
    destruct (args (parse_request (readable b))) as [|a0 a] eqn:Ea; simplify_eq; [by apply IH|].
    cbn [execute_all]. destruct (execute _ _ _ _) as [w1| |]; [|done..]. cbn [mbind outcome_bind].
    rewrite (IH _ _ _ _ H). cbn [length]. by rewrite Nat.add_succ_comm.
  - simplify_eq. cbn. by rewrite Nat.add_0_r.
  - simplify_eq. cbn. by rewrite Nat.add_0_r.
Qed.

Lemma on_data_drain h l b w :
  buf_wf b →
  ∃ cmds rest err,
    drain (drain_fuel b) b = Some (cmds, rest, err) ∧ buf_wf rest ∧
    on_data h l b w = (w ← execute_all h l cmds w; Ret (length cmds, rest, reply_error h err w)).
Proof.
  intros Hb. destruct (drain_total (drain_fuel b) b Hb) as ([[cmds rest] err] & H & Hw).
  { unfold drain_fuel. lia. }
  exists cmds, rest, err. split; [done|]. split; [exact Hw|by apply on_data_loop_drain].
Qed.

(** C11: [on_data] terminates, and its work is framing followed by execution:
    the requests are a function of the buffered bytes alone; they are executed
    in order, each exactly once; an incomplete request stays in the buffer; and
    a protocol error is answered once, after the replies to the requests before
    it, and empties the buffer. *)
Theorem on_data_spec h l b w :
  buf_wf b →
  ∃ cmds rest err,
    drain (drain_fuel b) b = Some (cmds, rest, err) ∧
    on_data h l b w =
      (w ← execute_all h l cmds w; Ret (length cmds, rest, reply_error h err w)) ∧
    (err = None → status (parse_request (readable rest)) = kIncomplete) ∧
    (err ≠ None → readable rest = []).
Proof.
  intros Hb. destruct (on_data_drain h l b w Hb) as (cmds & rest & err & H & _ & Hd).
  exists cmds, rest, err. split; [done|]. split; [done|].
  clear w Hd. revert cmds H. generalize (drain_fuel b). clear Hb. intros fuel. revert b.
  induction fuel as [|fuel IH]; intros b cmds H; [done|]. cbn [drain] in H.
  destruct (status (parse_request (readable b))) eqn:Hs; [|by simplify_eq..].
  apply bind_Some in H as ([[cmds1 b1] err1] & H & E). simplify_eq. by eapply IH.
Qed.

(** C12: unless a part ends in a protocol error, how the stream is split into
    reads does not matter.  If what has arrived holds no protocol error yet,
    handling it and then the rest gives the same state, the same number of
    requests and the same bytes left over as handling everything at once.  The
    condition is needed: a header that is too long without its end is an error,
    though with its end it may be accepted ([parse_request_header_split]). *)
Theorem on_data_chunks h l b x w cmds rest :
  buf_wf b → drain (drain_fuel b) b = Some (cmds, rest, None) →
  ('(n, r, w) ← on_data h l (buf_append b x) w; Ret (n, readable r, w)) =
  ('(n1, r1, w) ← on_data h l b w;
   '(n2, r2, w) ← on_data h l (buf_append r1 x) w;
   Ret ((n1 + n2)%nat, readable r2, w)).
Proof.
  intros Hb H. destruct (drain_total (drain_fuel b) b Hb) as (? & H' & Hw).
  { unfold drain_fuel. lia. }
  rewrite H in H'. simplify_eq. cbn in Hw.
  destruct (drain_total (drain_fuel (buf_append rest x)) (buf_append rest x))
    as ([[cmds2 rest2] err2] & H2 & _); [auto with redis|unfold drain_fuel; lia|].
  destruct (drain_app _ _ _ _ _ _ _ Hb H H2) as ([[cmds3 rest3] err3] & H3 & Hs).
  destruct (drain_total (drain_fuel (buf_append b x)) (buf_append b x))
    as (r4 & H4 & _); [auto with redis|unfold drain_fuel; lia|].
  assert (r4 = (cmds3, rest3, err3)) as ->.
  { eapply (drain_mono _ (drain_fuel (buf_append b x) + (drain_fuel b + drain_fuel (buf_append rest x))))
      in H3; [|lia]. eapply drain_mono in H4; [|apply Nat.le_add_r]. rewrite H3 in H4. by simplify_eq. }
  destruct Hs as (Hc & Hr & He & _). cbn in Hc, Hr, He. subst cmds3 err3.
  unfold on_data. rewrite (on_data_loop_drain _ _ _ _ _ _ _ _ _ H4),
    (on_data_loop_drain _ _ _ b _ _ _ _ _ H), execute_all_app, length_app.
  destruct (execute_all h l cmds w) as [w1| |]; [|done..]. cbn [mbind outcome_bind Nat.add reply_error].
  rewrite (on_data_loop_drain _ _ _ _ _ _ _ _ _ H2).
  destruct (execute_all h l cmds2 w1) as [w2| |]; [|done..]. cbn. by rewrite Hr.
Qed.

End HandlerTheorems.

(** ** The Phase 1 handler *)

Lemma framed_bulks_bounds argc s pos n :
  framed_bulks argc s pos = Some n → (pos ≤ length s → pos ≤ n ≤ length s)%nat.
Proof.
  revert pos. induction argc as [|argc IH]; intros pos; cbn [framed_bulks].
  { intros [= <-]. lia. }
  destruct (s !! pos) as [c|] eqn:Hc; [|done]. destruct (negb _); [done|].
  intros (hdr & Hh & (len & _ & H)%bind_Some)%bind_Some.
  apply fmap_Some in Hh as (k & _ & ->).
  destruct (Nat.ltb_spec (length s) (pos + k + 2 + Z.to_nat len + 2)); [done|].
  intros _. apply IH in H; lia.
Qed.

Lemma framed_length_bounds s : (framed_length s ≤ length s)%nat.
Proof.
  unfold framed_length. destruct s as [|c s']; [done|]. set (s := c :: s').
  destruct (negb _).
  - destruct (find_crlf s) as [e|] eqn:E; [|lia]. apply find_crlf_Some in E. lia.
  - destruct (pos ← find_crlf s; _) as [n|] eqn:E; [|cbn; lia].
    apply bind_Some in E as (pos & Hp & (argc & _ & H)%bind_Some).
    apply find_crlf_Some in Hp. apply framed_bulks_bounds in H; cbn [from_option id]; unfold id; lia.
Qed.

Lemma substr_app s x pos n :
  (pos + n ≤ length s)%nat → substr (s ++ x) pos n = substr s pos n.
Proof. intros H. unfold substr. rewrite drop_app_le, take_app_le; [done|rewrite length_drop; lia|lia]. Qed.

Lemma framed_bulks_app argc s x pos n :
  framed_bulks argc s pos = Some n → framed_bulks argc (s ++ x) pos = Some n.
Proof.
  revert pos. induction argc as [|argc IH]; intros pos; cbn [framed_bulks]; [done|].
  destruct (s !! pos) as [c|] eqn:Hc; [|done]. rewrite (lookup_app_l_Some _ _ _ _ Hc).
  destruct (negb _); [done|]. unfold find_crlf_from. pose proof (lookup_lt_Some _ _ _ Hc).
  rewrite drop_app_le by lia.
  destruct (find_crlf (drop pos s)) as [k|] eqn:Ek; [|done]. rewrite (find_crlf_app _ _ _ Ek).
  apply find_crlf_Some in Ek as [_ Hk]. rewrite length_drop in Hk.
  cbn [mbind option_bind fmap option_fmap option_map].
  rewrite substr_app by lia. destruct (digits_upto _ _ _); [|done]. cbn [mbind option_bind]. rewrite length_app.
  destruct (Nat.ltb_spec (length s) (pos + k + 2 + Z.to_nat z + 2)); [done|].
  destruct (Nat.ltb_spec (length s + length x) (pos + k + 2 + Z.to_nat z + 2)); [lia|]. apply IH.
Qed.

(** The framing of the Phase 1 handler never runs past its input, and
    more input never changes the length of a request it has found. *)
Theorem framed_length_stable s x :
  (framed_length s ≤ length s)%nat ∧
  (framed_length s ≠ 0%nat → framed_length (s ++ x) = framed_length s).
Proof.
  split; [apply framed_length_bounds|]. unfold framed_length.
  destruct s as [|c s']; [done|]. cbn [app]. change (c :: s' ++ x) with ((c :: s') ++ x).
  set (s := c :: s'). destruct (negb _).
  - destruct (find_crlf s) as [e|] eqn:E; [|done]. by rewrite (find_crlf_app _ _ _ E).
  - destruct (find_crlf s) as [pos|] eqn:E; [|done]. rewrite (find_crlf_app _ _ _ E). cbn [mbind option_bind].
    apply find_crlf_Some in E. rewrite substr_app by lia.
    destruct (digits_upto _ _ _) as [argc|]; [|done]. cbn [mbind option_bind].
    destruct (framed_bulks _ s _) as [n|] eqn:E2; [|done].
    by rewrite (framed_bulks_app _ _ _ _ _ E2).
Qed.

(** The loop of the Phase 1 handler always ends, leaving in the buffer
    bytes that frame no request. *)
Theorem ping_on_data_terminates info b out :
  buf_wf b →
  ∃ n rest out', ping_on_data info b out = Ret (n, rest, out') ∧
    framed_length (readable rest) = 0%nat.
Proof.
  intros Hb. unfold ping_on_data.
  assert (∀ fuel b out n, buf_wf b → (buf_size b < fuel)%nat →
    ∃ m rest out', ping_loop info fuel b out n = Ret (m, rest, out') ∧
      framed_length (readable rest) = 0%nat) as Hloop.
  { clear. intros fuel. induction fuel as [|fuel IH]; intros b out n Hb Hf; [lia|].
    cbn [ping_loop]. destruct (Nat.eqb_spec (framed_length (readable b)) 0); [by eexists _, _, _|].
    apply IH; [auto with redis|]. rewrite buf_size_readable in *.
    rewrite readable_consume, length_drop by done. pose proof (framed_length_bounds (readable b)). lia. }
  apply Hloop; [done|]. unfold drain_fuel. lia.
Qed.

(** ** Witnesses *)

#[local] Existing Instance gmap_table.

Definition pipelined : Buffer := mkBuffer (bs "PING" ++ crlf ++ bs "SET k v" ++ crlf ++ bs "GE") 0.

Lemma pipelined_wf : buf_wf pipelined.
Proof. unfold buf_wf. cbn. lia. Qed.

(** A server that is a store and one reply buffer. *)
Abbreviation tiny := (Store * Buffer)%type.

Definition tiny_server : ServerState tiny := {|
  store_of w := w.1;
  with_store s w := (s, w.2);
  stats_info w := (to_info 0 zero_stats, w);
  store_of_with _ _ := eq_refl;
  with_store_of w := eq_sym (surjective_pairing w);
  with_store_with _ _ _ := eq_refl;
  store_of_info _ := eq_refl
|}.
#[local] Existing Instance tiny_server.

Definition tiny_handler : RespHandler (W:=tiny) (Link:=unit) :=
  mkHandler (mkTable None None) None (λ s w, (w.1, buf_append w.2 s)).

Definition tiny_start : tiny := (new_store (λ _, 10), buf_empty).

Lemma on_data_spec_witness :
  match on_data tiny_handler None pipelined tiny_start with
  | Ret (n, rest, w) => n = 2%nat ∧ readable rest = bs "GE" ∧
      readable w.2 = bs "+PONG" ++ crlf ++ bs "+OK" ++ crlf
  | _ => False
  end.
Proof.
  destruct (on_data_spec tiny_handler None pipelined tiny_start pipelined_wf)
    as (cmds & rest & err & Hd & -> & _ & _).
  vm_compute in Hd. injection Hd as <- <- <-. split; [reflexivity|]. split; reflexivity.
Defined.

Lemma on_data_chunks_witness :
  ('(n, r, w) ← on_data tiny_handler None (buf_append pipelined (bs "T k" ++ crlf)) tiny_start;
   Ret (n, readable r, w)) =
  ('(n1, r1, w) ← on_data tiny_handler None pipelined tiny_start;
   '(n2, r2, w) ← on_data tiny_handler None (buf_append r1 (bs "T k" ++ crlf)) w;
   Ret ((n1 + n2)%nat, readable r2, w)).
Proof.
  eapply (on_data_chunks tiny_handler None pipelined (bs "T k" ++ crlf) tiny_start _ _ pipelined_wf).
  vm_compute. reflexivity.
Defined.

Lemma ping_on_data_terminates_witness :
  ∃ n rest out', ping_on_data [] pipelined buf_empty = Ret (n, rest, out') ∧
    framed_length (readable rest) = 0%nat.
Proof. exact (ping_on_data_terminates [] pipelined buf_empty pipelined_wf). Defined.
