(* ===== verification/Rdb.v ===== *)
(** * Snapshots (include/rp/rdb.hpp, src/rdb.cpp)

    The RDB format: the CRC, the writer, the reader with its cursor and error
    flag, and the parser.  The cursor is a [std::size_t] whose arithmetic
    wraps; reading outside the data is [Undefined]. *)

From S2P Require Import Prelude Store.

(** ** Constants *)

Definition kOpAux : Z := 0xFA.
Definition kOpResizeDb : Z := 0xFB.
Definition kOpExpireMs : Z := 0xFC.
Definition kOpExpireSec : Z := 0xFD.
Definition kOpSelectDb : Z := 0xFE.
Definition kOpEof : Z := 0xFF.
Definition kTypeString : Z := 0.

Definition k6Bit : Z := 0.
Definition k14Bit : Z := 0x40.
Definition kEncoded : Z := 0xC0.
Definition k32Bit : Z := 0x80.
Definition k64Bit : Z := 0x81.

Definition kEncInt8 : Z := 0.
Definition kEncInt16 : Z := 1.
Definition kEncInt32 : Z := 2.
Definition kEncLzf : Z := 3.

Definition kRdbMagic : bytes := bs "REDIS".
Definition kRdbVersion : bytes := bs "0011".

(** ** CRC64 (Jones, reflected) *)

Definition kPoly : Z := 0xad93d23594c935a9.

(** The loop sets bit [bits - 1 - i] for each set bit [i]. *)
Definition reflect_bits (value : Z) (bits : nat) : Z :=
  foldl (λ out i,
    if Z.testbit value (Z.of_nat i)
    then Z.lor out (Z.shiftl 1 (Z.of_nat (bits - 1 - i))) else out) 0 (seq 0 bits).

(** One step of the inner loop, on 64-bit values. *)
Definition crc_shift (crc : Z) : Z :=
  if Z.testbit crc 63
  then Z.lxor (wrap64 (Z.shiftl crc 1)) kPoly else wrap64 (Z.shiftl crc 1).

Definition crc_entry (n : Z) : Z :=
  reflect_bits (Nat.iter 8 crc_shift (wrap64 (Z.shiftl (reflect_bits n 8) 56))) 64.

Definition crc_table : list Z := crc_entry <$> seqZ 0 256.

Definition crc_byte (crc : Z) (c : byte) : Z :=
  Z.lxor (default 0 (crc_table !! Z.to_nat (Z.land (Z.lxor crc (u8 c)) 0xFF)))
    (Z.shiftr crc 8).

Definition crc64 (crc : Z) (data : bytes) : Z := foldl crc_byte crc data.

(** ** Writer *)

Definition put_u8 (v : Z) : bytes := [byte_of_Z v].

Definition put_u64_le (v : Z) : bytes :=
  (λ i, byte_of_Z (Z.shiftr v (i * 8))) <$> [0; 1; 2; 3; 4; 5; 6; 7].

Definition put_length (len : Z) : bytes :=
  if len <? Z.shiftl 1 6 then put_u8 (Z.lor k6Bit len)
  else if len <? Z.shiftl 1 14 then
    put_u8 (Z.lor k14Bit (Z.shiftr len 8)) ++ put_u8 (Z.land len 0xFF)
  else if len <=? 0xFFFFFFFF then
    put_u8 k32Bit ++ ((λ i, byte_of_Z (Z.shiftr len (i * 8))) <$> [3; 2; 1; 0])
  else
    put_u8 k64Bit ++ ((λ i, byte_of_Z (Z.shiftr len (i * 8))) <$> [7; 6; 5; 4; 3; 2; 1; 0]).

Definition put_string (s : bytes) : bytes := put_length (size s) ++ s.

Definition put_record (r : KeyRecord) : bytes :=
  (if expire_at r =? kNoExpiry then []
   else put_u8 kOpExpireMs ++ put_u64_le (wrap64 (expire_at r))) ++
  put_u8 kTypeString ++ put_string (key r) ++ put_string (value r).

Definition with_expiry (records : list KeyRecord) : nat :=
  length (filter (λ r, expire_at r ≠ kNoExpiry) records).

(** Everything before the checksum. *)
Definition rdb_body (records : list KeyRecord) : bytes :=
  kRdbMagic ++ kRdbVersion ++
  put_u8 kOpAux ++ put_string (bs "redis-ver") ++ put_string (bs "7.0.0-rp") ++
  put_u8 kOpSelectDb ++ put_length 0 ++
  put_u8 kOpResizeDb ++ put_length (Z.of_nat (length records)) ++
  put_length (Z.of_nat (with_expiry records)) ++
  mjoin (put_record <$> records) ++
  put_u8 kOpEof.

Definition rdb_serialize (records : list KeyRecord) : bytes :=
  let out := rdb_body records in out ++ put_u64_le (crc64 0 out).

(** ** Reader *)

Record Reader := mkReader { pos_ : Z; ok_ : bool; error_ : bytes }.

Section Reader.
Variable data : bytes.   (* data_ *)

Definition new_reader : Reader := mkReader 0 true [].

Definition eof (r : Reader) : bool := size data <=? pos_ r.

(** The private [fail]: every later read fails too. *)
Definition reader_fail (r : Reader) : Reader := mkReader (size data) false (error_ r).

Definition read_u8 (r : Reader) : outcome (Z * Reader) :=
  if size data <? wrap64 (pos_ r + 1) then Ret (0, reader_fail r)
  else
    match data !! Z.to_nat (pos_ r) with
    | Some c => Ret (u8 c, mkReader (wrap64 (pos_ r + 1)) (ok_ r) (error_ r))
    | None => Undefined
    end.

(** [n] bytes, the first the least significant. *)
Fixpoint read_le (n : nat) (i : Z) (v : Z) (r : Reader) : outcome (Z * Reader) :=
  match n with
  | O => Ret (v, r)
  | S n' =>
      '(b, r) ← read_u8 r;
      read_le n' (i + 1) (Z.lor v (Z.shiftl b (i * 8))) r
  end.

Definition u64_le (r : Reader) : outcome (Z * Reader) := read_le 8 0 0 r.
Definition u32_le (r : Reader) : outcome (Z * Reader) := read_le 4 0 0 r.

(** [n] bytes, the first the most significant. *)
Fixpoint read_be (n : nat) (v : Z) (r : Reader) : outcome (Z * Reader) :=
  match n with
  | O => Ret (v, r)
  | S n' =>
      '(b, r) ← read_u8 r;
      read_be n' (Z.lor (wrap64 (Z.shiftl v 8)) b) r
  end.

(** A length, or the code of a special string encoding. *)
Definition read_length (r : Reader) : outcome ((Z + Z) * Reader) :=
  '(first, r) ← read_u8 r;
  if negb (ok_ r) then Ret (inl 0, r)
  else
    let top := Z.land first 0xC0 in
    if top =? k6Bit then Ret (inl (Z.land first 0x3F), r)
    else if top =? k14Bit then
      '(second, r) ← read_u8 r;
      Ret (inl (Z.lor (Z.shiftl (Z.land first 0x3F) 8) second), r)
    else if top =? kEncoded then Ret (inr (Z.land first 0x3F), r)
    else if first =? k32Bit then '(v, r) ← read_be 4 0 r; Ret (inl v, r)
    else if first =? k64Bit then '(v, r) ← read_be 8 0 r; Ret (inl v, r)
    else Ret (inl 0, reader_fail r).

Definition set_error (msg : bytes) (r : Reader) : Reader := mkReader (pos_ r) false msg.

(** [str]: the bound is tested on the wrapped sum, [substr] clamps the count,
    and the cursor advances by the wrapped sum. *)
Definition read_str (r : Reader) : outcome (bytes * Reader) :=
  '(len, r) ← read_length r;
  if negb (ok_ r) then Ret ([], r)
  else
    match len with
    | inr encoding =>
        if encoding =? kEncInt8 then
          '(b, r) ← read_u8 r; Ret (to_string (to_signed 8 b), r)
        else if encoding =? kEncInt16 then
          '(lo, r) ← read_u8 r;
          '(hi, r) ← read_u8 r;
          Ret (to_string (to_signed 16 (Z.lor lo (Z.shiftl hi 8))), r)
        else if encoding =? kEncInt32 then
          '(v, r) ← u32_le r; Ret (to_string (to_signed 32 v), r)
        else if encoding =? kEncLzf then
          Ret ([], set_error (bs "LZF-compressed strings are not supported; re-save with rdbcompression no") r)
        else Ret ([], set_error (bs "unknown string encoding " ++ to_string encoding) r)
    | inl len =>
        if size data <? wrap64 (pos_ r + len) then Ret ([], reader_fail r)
        else if size data <? pos_ r then Undefined
        else
          let count := Z.to_nat (Z.min len (size data - pos_ r)) in
          Ret (substr data (Z.to_nat (pos_ r)) count,
               mkReader (wrap64 (pos_ r + len)) (ok_ r) (error_ r))
    end.

(** ** The record loop *)

Definition or_error (r : Reader) (msg : bytes) : bytes :=
  match error_ r with [] => msg | _ :: _ => error_ r end.

(** The body of the switch: an early return (records, message), or the
    pending expiry, the records and the reader of the next iteration. *)
Definition rdb_step (opcode : Z) (pending : Z) (out : list KeyRecord) (r : Reader)
    : outcome ((list KeyRecord * bytes) + (Z * list KeyRecord * Reader)) :=
  if opcode =? kOpAux then
    '(_, r) ← read_str r; '(_, r) ← read_str r; Ret (inr (pending, out, r))
  else if opcode =? kOpSelectDb then
    '(_, r) ← read_length r; Ret (inr (pending, out, r))
  else if opcode =? kOpResizeDb then
    '(_, r) ← read_length r; '(_, r) ← read_length r; Ret (inr (pending, out, r))
  else if opcode =? kOpExpireMs then
    '(v, r) ← u64_le r; Ret (inr (to_signed 64 v, out, r))
  else if opcode =? kOpExpireSec then
    '(v, r) ← u32_le r; p ← mul64 v 1000; Ret (inr (p, out, r))
  else if opcode =? kTypeString then
    '(k, r) ← read_str r;
    '(v, r) ← read_str r;
    if negb (ok_ r) then Ret (inl ([], or_error r (bs "truncated while reading a key")))
    else Ret (inr (kNoExpiry, out ++ [mkKeyRecord k v pending], r))
  else
    Ret (inl (out, bs "unsupported opcode 0x" ++ to_string opcode ++
                   bs " (only string values are supported)")).

Fixpoint rdb_loop (fuel : nat) (pending : Z) (out : list KeyRecord) (r : Reader)
    : outcome (list KeyRecord * option bytes) :=
  match fuel with
  | O => NoFuel
  | S fuel' =>
      if eof r then Ret (out, None)
      else
        '(opcode, r) ← read_u8 r;
        if negb (ok_ r) then Ret (out, Some (bs "truncated while reading opcode"))
        else
          step ← rdb_step opcode pending out r;
          match step with
          | inl (out, msg) => Ret (out, Some msg)
          | inr (pending, out, r) =>
              if negb (ok_ r) then Ret ([], Some (or_error r (bs "truncated payload")))
              else rdb_loop fuel' pending out r
          end
  end.

End Reader.

(** ** [rdb_parse] *)

(** [operator>] of [std::string]: bytes compare as unsigned. *)
Fixpoint str_gt (a b : bytes) : bool :=
  match a, b with
  | [], _ => false
  | _ :: _, [] => true
  | x :: a', y :: b' => if u8 y <? u8 x then true else if u8 x <? u8 y then false else str_gt a' b'
  end.

(** The loop that assembles the stored checksum, with its index. *)
Definition stored_crc (trailer : bytes) : Z :=
  (foldl (λ '(v, i) c, (Z.lor v (Z.shiftl (u8 c) (i * 8)), i + 1)) (0, 0) trailer).1.

(** What [out] holds on return, and the message if the result is [false]. *)
Definition rdb_parse (fuel : nat) (payload : bytes) : outcome (list KeyRecord * option bytes) :=
  let header := (length kRdbMagic + length kRdbVersion)%nat in
  let n := length payload in
  if Nat.ltb n header then Ret ([], Some (bs "file too short"))
  else if negb (beq (substr payload 0 (length kRdbMagic)) kRdbMagic) then
    Ret ([], Some (bs "bad magic: not an RDB file"))
  else
    let version := substr payload (length kRdbMagic) 4 in
    if str_gt version kRdbVersion then
      Ret ([], Some (bs "RDB version " ++ version ++ bs " is newer than supported " ++ kRdbVersion))
    else if Nat.ltb n (header + 9) then Ret ([], Some (bs "truncated: no EOF marker"))
    else
      let crc_offset := (n - 8)%nat in
      let stored := stored_crc (drop crc_offset payload) in
      match payload !! (crc_offset - 1)%nat with
      | None => Undefined
      | Some c =>
          if negb (u8 c =? kOpEof) then Ret ([], Some (bs "truncated: EOF marker missing"))
          else if negb (stored =? 0) && negb (crc64 0 (take crc_offset payload) =? stored) then
            Ret ([], Some (bs "checksum mismatch: file corrupt"))
          else
            rdb_loop (substr payload header (crc_offset - 1 - header)) fuel kNoExpiry [] new_reader
      end.
