(* ===== verification/RdbCrc.v ===== *)
(** * The checksum detects corruption

    The table-driven CRC of src/rdb.cpp equals the bitwise shift register it
    was computed from, one step of which is a linear bijection on 64-bit words;
    so no two inputs of the same length that differ in one byte share a
    checksum. *)

From S2P Require Import Prelude Store Rdb.

(** ** The reference: a shift register, one bit at a time *)

(** The polynomial with its bits reversed, for the register that shifts right. *)
Definition rpoly : Z := 0x95ac9329ac4bc9b5.

Definition crc_step (c : Z) : Z :=
  Z.lxor (Z.shiftr c 1) (if Z.testbit c 0 then rpoly else 0).

Definition crc_ref_byte (crc : Z) (c : byte) : Z := Nat.iter 8 crc_step (Z.lxor crc (u8 c)).

Definition crc_ref (crc : Z) (data : bytes) : Z := foldl crc_ref_byte crc data.

Definition word (c : Z) : Prop := 0 ≤ c < 2 ^ 64.

Lemma rpoly_reflects : rpoly = reflect_bits kPoly 64.
Proof. by vm_compute. Qed.

(** ** Linearity *)

Lemma crc_step_lxor a b : crc_step (Z.lxor a b) = Z.lxor (crc_step a) (crc_step b).
Proof.
  unfold crc_step. rewrite Z.shiftr_lxor, Z.lxor_spec.
  set (x := Z.shiftr a 1). set (y := Z.shiftr b 1).
  destruct (Z.testbit a 0), (Z.testbit b 0); cbn [xorb]; rewrite ?Z.lxor_0_r.
  - rewrite (Z.lxor_comm y), Z.lxor_assoc, <- (Z.lxor_assoc rpoly rpoly y), Z.lxor_nilpotent. done.
  - rewrite !Z.lxor_assoc. f_equal. apply Z.lxor_comm.
  - by rewrite Z.lxor_assoc.
  - done.
Qed.

Lemma crc_iter_lxor n a b :
  Nat.iter n crc_step (Z.lxor a b) = Z.lxor (Nat.iter n crc_step a) (Nat.iter n crc_step b).
Proof. induction n as [|n IH]; [done|]. by rewrite !Nat.iter_succ, IH, crc_step_lxor. Qed.

Lemma crc_iter_shift n y : 0 ≤ y → Nat.iter n crc_step (Z.shiftl y (Z.of_nat n)) = y.
Proof.
  intros Hy. induction n as [|n IH]; [apply Z.shiftl_0_r|].
  rewrite Nat.iter_succ_r. rewrite <- IH at 2. f_equal. unfold crc_step.
  rewrite Z.shiftl_spec_low by lia. rewrite Z.lxor_0_r, Z.shiftr_shiftl_l by lia. f_equal. lia.
Qed.

Lemma split_low_byte x : 0 ≤ x → x = Z.lxor (Z.land x 255) (Z.shiftl (Z.shiftr x 8) 8).
Proof.
  intros Hx. apply Z.bits_inj'. intros n Hn. rewrite Z.lxor_spec, Z.land_spec.
  change 255 with (Z.ones 8). destruct (Z.lt_ge_cases n 8).
  - rewrite Z.ones_spec_low, andb_true_r, Z.shiftl_spec_low, xorb_false_r by lia. done.
  - rewrite Z.ones_spec_high, andb_false_r, Z.shiftl_spec, Z.shiftr_spec by lia.
    cbn. f_equal. lia.
Qed.

(** The 256 entries, checked one by one. *)
Lemma crc_table_spec n :
  0 ≤ n < 256 → default 0 (crc_table !! Z.to_nat n) = Nat.iter 8 crc_step n.
Proof.
  intros Hn.
  assert (forallb (λ n, default 0 (crc_table !! n) =? Nat.iter 8 crc_step (Z.of_nat n)) (seq 0 256)
    = true) as H by (by vm_compute).
  rewrite forallb_forall in H. specialize (H (Z.to_nat n)). rewrite Z2Nat.id in H by lia.
  apply Z.eqb_eq, H, in_seq. lia.
Qed.

Lemma crc_byte_ref crc c : word crc → crc_byte crc c = crc_ref_byte crc c.
Proof.
  intros Hc. unfold crc_byte, crc_ref_byte. pose proof (u8_range c).
  assert (0 ≤ Z.lxor crc (u8 c)) as Hx by (apply Z.lxor_nonneg; unfold word in Hc; lia).
  rewrite (split_low_byte (Z.lxor crc (u8 c))) at 2 by done.
  assert (0 ≤ Z.land (Z.lxor crc (u8 c)) 255 < 256) as Hl.
  { change 255 with (Z.ones 8). rewrite Z.land_ones by lia.
    change 256 with (2 ^ 8). apply Z.mod_pos_bound. lia. }
  rewrite crc_iter_lxor, crc_table_spec by done. f_equal.
  change 8 with (Z.of_nat 8) at 3. rewrite crc_iter_shift by (apply Z.shiftr_nonneg; lia).
  rewrite Z.shiftr_lxor. rewrite (Z.shiftr_div_pow2 (u8 c)) by lia.
  rewrite (Z.div_small (u8 c)) by (cbn; lia). by rewrite Z.lxor_0_r.
Qed.

(** ** The register stays a 64-bit word, and no information is lost *)

Lemma word_bits c : word c ↔ 0 ≤ c ∧ ∀ n, 64 ≤ n → Z.testbit c n = false.
Proof.
  unfold word. split.
  - intros [H1 H2]. split; [done|]. intros n Hn. destruct (decide (c = 0)) as [->|]; [apply Z.bits_0|].
    apply Z.bits_above_log2; [done|]. apply Z.log2_lt_pow2 in H2; lia.
  - intros [H1 H2]. split; [done|]. destruct (decide (c = 0)) as [->|]; [lia|].
    apply Z.log2_lt_pow2; [lia|]. destruct (Z.lt_ge_cases (Z.log2 c) 64); [done|].
    specialize (H2 (Z.log2 c)). rewrite Z.bit_log2 in H2 by lia. naive_solver.
Qed.

Lemma word_lxor a b : word a → word b → word (Z.lxor a b).
Proof.
  rewrite !word_bits. intros [Ha Ha'] [Hb Hb']. split; [apply Z.lxor_nonneg; lia|].
  intros n Hn. by rewrite Z.lxor_spec, Ha', Hb'.
Qed.

Lemma word_u8 c : word (u8 c).
Proof. pose proof (u8_range c). unfold word. lia. Qed.

Lemma crc_step_word c : word c → word (crc_step c).
Proof.
  intros Hc. unfold crc_step. apply word_lxor.
  - rewrite Z.shiftr_div_pow2 by lia. unfold word in *. change (2 ^ 1) with 2.
    pose proof (Z.div_mod c 2). pose proof (Z.mod_pos_bound c 2). lia.
  - destruct (Z.testbit c 0); unfold word, rpoly; lia.
Qed.

Lemma crc_iter_word n c : word c → word (Nat.iter n crc_step c).
Proof. intros. induction n as [|n IH]; [done|]. rewrite Nat.iter_succ. by apply crc_step_word. Qed.

(** The top bit of the next word is the bit that was shifted out. *)
Lemma crc_step_top c : word c → Z.testbit (crc_step c) 63 = Z.testbit c 0.
Proof.
  intros [_ Hc]%word_bits. unfold crc_step. rewrite Z.lxor_spec, Z.shiftr_spec, Hc by lia.
  by destruct (Z.testbit c 0).
Qed.

Lemma crc_step_inj a b : word a → word b → crc_step a = crc_step b → a = b.
Proof.
  intros Ha Hb E. assert (Z.testbit a 0 = Z.testbit b 0) as H0
    by (rewrite <- !crc_step_top by done; by rewrite E).
  assert (Z.shiftr a 1 = Z.shiftr b 1) as H1.
  { unfold crc_step in E. rewrite H0 in E.
    apply (f_equal (λ x, Z.lxor x (if Z.testbit b 0 then rpoly else 0))) in E.
    by rewrite !Z.lxor_assoc, Z.lxor_nilpotent, !Z.lxor_0_r in E. }
  apply Z.bits_inj'. intros n Hn. destruct (decide (n = 0)) as [->|]; [done|].
  replace n with (n - 1 + 1) by lia.
  rewrite <- !Z.shiftr_spec by lia. by rewrite H1.
Qed.

Lemma crc_iter_inj n a b :
  word a → word b → Nat.iter n crc_step a = Nat.iter n crc_step b → a = b.
Proof.
  intros Ha Hb. induction n as [|n IH]; [done|]. rewrite !Nat.iter_succ. intros E. apply IH.
  apply crc_step_inj; auto using crc_iter_word.
Qed.

#[local] Opaque crc_step Nat.iter.

Lemma crc_ref_byte_word c b : word c → word (crc_ref_byte c b).
Proof. intros. apply crc_iter_word, word_lxor; auto using word_u8. Qed.

Lemma lxor_inj_l a b c : Z.lxor a c = Z.lxor b c → a = b.
Proof.
  intros E%(f_equal (λ x, Z.lxor x c)). by rewrite !Z.lxor_assoc, Z.lxor_nilpotent, !Z.lxor_0_r in E.
Qed.

Lemma crc_ref_byte_inj a b c : word a → word b → crc_ref_byte a c = crc_ref_byte b c → a = b.
Proof.
  intros Ha Hb E. unfold crc_ref_byte in E.
  apply crc_iter_inj in E; [|auto using word_lxor, word_u8..]. by apply lxor_inj_l in E.
Qed.

Lemma crc_ref_byte_inj_r a c c' : word a → crc_ref_byte a c = crc_ref_byte a c' → c = c'.
Proof.
  intros Ha E. unfold crc_ref_byte in E. apply crc_iter_inj in E; [|auto using word_lxor, word_u8..].
  rewrite !(Z.lxor_comm a) in E. apply lxor_inj_l in E. by apply u8_inj.
Qed.

#[local] Opaque crc_ref_byte.

Lemma crc64_ref crc data : word crc → crc64 crc data = crc_ref crc data ∧ word (crc64 crc data).
Proof.
  unfold crc64, crc_ref. revert crc. induction data as [|c data IH]; intros crc Hc; [done|].
  cbn. rewrite crc_byte_ref by done. apply IH. by apply crc_ref_byte_word.
Qed.

Lemma crc_ref_word crc data : word crc → word (crc_ref crc data).
Proof. intros H. destruct (crc64_ref crc data H) as [<- ?]. done. Qed.

Lemma crc_ref_inj a b data : word a → word b → crc_ref a data = crc_ref b data → a = b.
Proof.
  unfold crc_ref. revert a b. induction data as [|c data IH]; intros a b Ha Hb; [done|]. cbn.
  intros E. apply IH in E; [|auto using crc_ref_byte_word..]. by eapply crc_ref_byte_inj.
Qed.

Lemma crc_change_byte crc p c c' q :
  word crc → crc64 crc (p ++ c :: q) = crc64 crc (p ++ c' :: q) → c = c'.
Proof.
  intros Hc. rewrite !(proj1 (crc64_ref _ _ Hc)). unfold crc_ref. rewrite !foldl_app. cbn [foldl].
  set (a := foldl crc_ref_byte crc p).
  assert (word a) as Ha by (by apply crc_ref_word).
  intros E. apply crc_ref_inj in E; [|auto using crc_ref_byte_word..].
  by eapply crc_ref_byte_inj_r.
Qed.

Lemma crc_insert_ne crc data i c :
  word crc → (i < length data)%nat → data !! i ≠ Some c →
  crc64 crc (<[i:=c]> data) ≠ crc64 crc data.
Proof.
  intros Hc [c0 Hi]%lookup_lt_is_Some Hne E. apply Hne. rewrite Hi. f_equal.
  rewrite insert_take_drop in E by (by eapply lookup_lt_Some).
  rewrite <- (take_drop_middle data i c0 Hi) in E at 3.
  symmetry. by eapply crc_change_byte.
Qed.

(** ** Properties *)

(** C35: the table-driven checksum is the bitwise CRC with the Jones
    polynomial in its reflected form, and its value is a 64-bit word. *)
Theorem crc64_is_bitwise (crc : Z) (data : bytes) :
  0 ≤ crc < 2 ^ 64 →
  crc64 crc data = crc_ref crc data ∧ 0 ≤ crc64 crc data < 2 ^ 64 ∧ rpoly = reflect_bits kPoly 64.
Proof.
  intros H. destruct (crc64_ref crc data H) as [H1 H2]. split; [done|]. split; [done|].
  exact rpoly_reflects.
Qed.

(** A change of one byte always changes the checksum. *)
Theorem crc64_detects_byte (crc : Z) (data : bytes) (i : nat) (c : byte) :
  0 ≤ crc < 2 ^ 64 → (i < length data)%nat → data !! i ≠ Some c →
  crc64 crc (<[i:=c]> data) ≠ crc64 crc data.
Proof. apply crc_insert_ne. Qed.

Lemma crc64_is_bitwise_witness :
  crc64 0 (bs "123456789") = crc_ref 0 (bs "123456789") ∧ crc64 0 (bs "123456789") = 16845390139448941002.
Proof. split; [apply (crc64_is_bitwise 0 (bs "123456789")); lia|]. by vm_compute. Defined.

Lemma crc64_detects_byte_witness :
  crc64 0 (<[2%nat := "x"%byte]> (bs "abc")) ≠ crc64 0 (bs "abc").
Proof. apply (crc64_detects_byte 0 (bs "abc")); [lia|cbn; lia|done]. Defined.
