(* ===== verification/RdbTheorems.v ===== *)
(** * Correctness of the snapshot format

    Everything the writer produces is read back; the reader never looks outside
    its data, on any input; every corruption of one byte of a checksummed
    snapshot is reported; and the wrapped bound check of strings can make the
    parser run forever. *)

From S2P Require Import Prelude Store Rdb RdbCrc.

(** ** Bytes of a number *)

Lemma u8_byte_shift v k : u8 (byte_of_Z (Z.shiftr v k)) = Z.shiftr v k mod 2 ^ 8.
Proof. apply u8_byte_of_Z. Qed.

(** Little-endian accumulation of the low bytes of [v]. *)
Lemma le_step v i :
  0 ≤ i → Z.lor (v mod 2 ^ (i * 8)) (Z.shiftl (u8 (byte_of_Z (Z.shiftr v (i * 8)))) (i * 8)) =
    v mod 2 ^ ((i + 1) * 8).
Proof.
  intros Hi. rewrite u8_byte_shift. apply Z.bits_inj'. intros n Hn.
  rewrite Z.lor_spec, Z.shiftl_spec by done.
  destruct (Z.lt_ge_cases n (i * 8)).
  - rewrite !Z.mod_pow2_bits_low, (Z.testbit_neg_r _ (n - i * 8)) by lia. apply orb_false_r.
  - rewrite (Z.mod_pow2_bits_high v (i * 8)) by lia. cbn [orb].
    destruct (Z.lt_ge_cases n ((i + 1) * 8)).
    + rewrite !Z.mod_pow2_bits_low, Z.shiftr_spec by lia. f_equal. lia.
    + rewrite !Z.mod_pow2_bits_high by lia. done.
Qed.

(** Big-endian accumulation of the high bytes of [v]. *)
Lemma be_step v k :
  0 ≤ v < 2 ^ 64 → 0 ≤ k →
  Z.lor (wrap64 (Z.shiftl (Z.shiftr v ((k + 1) * 8)) 8)) (u8 (byte_of_Z (Z.shiftr v (k * 8)))) =
    Z.shiftr v (k * 8).
Proof.
  intros Hv Hk. rewrite u8_byte_shift. apply word_bits in Hv as [_ Hv].
  apply Z.bits_inj'. intros n Hn. unfold wrap64. rewrite Z.lor_spec, Z.shiftr_spec by done.
  destruct (Z.lt_ge_cases n 8).
  - rewrite !Z.mod_pow2_bits_low, Z.shiftl_spec_low, Z.shiftr_spec by lia. done.
  - rewrite (Z.mod_pow2_bits_high _ 8), orb_false_r by lia.
    destruct (Z.lt_ge_cases n 64).
    + rewrite Z.mod_pow2_bits_low, Z.shiftl_spec, Z.shiftr_spec by lia. f_equal. lia.
    + rewrite Z.mod_pow2_bits_high by lia. symmetry. apply Hv. lia.
Qed.

(** The two high bits of the first byte of a length tell its form. *)
Lemma length_forms h :
  0 ≤ h < 64 →
  Z.land h 0xC0 = k6Bit ∧ Z.land h 0x3F = h ∧
  Z.land (Z.lor k14Bit h) 0xC0 = k14Bit ∧ Z.land (Z.lor k14Bit h) 0x3F = h ∧
  0 ≤ Z.lor k14Bit h < 256.
Proof.
  intros Hh.
  assert (forallb (λ n, let h := Z.of_nat n in
    (Z.land h 0xC0 =? k6Bit) && (Z.land h 0x3F =? h) && (Z.land (Z.lor k14Bit h) 0xC0 =? k14Bit) &&
    (Z.land (Z.lor k14Bit h) 0x3F =? h) && (0 <=? Z.lor k14Bit h) && (Z.lor k14Bit h <? 256))
    (seq 0 64) = true) as H by (by vm_compute).
  rewrite forallb_forall in H. specialize (H (Z.to_nat h) ltac:(apply in_seq; lia)).
  cbv zeta in H. rewrite Z2Nat.id in H by lia. breflect. done.
Qed.

Lemma high_low_byte v : Z.lor (Z.shiftl (Z.shiftr v 8) 8) (Z.land v 0xFF) = v.
Proof.
  apply Z.bits_inj'. intros n Hn. rewrite Z.lor_spec, Z.land_spec. change 0xFF with (Z.ones 8).
  destruct (Z.lt_ge_cases n 8).
  - by rewrite Z.shiftl_spec_low, Z.ones_spec_low, andb_true_r by lia.
  - rewrite Z.ones_spec_high, andb_false_r, orb_false_r, Z.shiftl_spec, Z.shiftr_spec by lia.
    f_equal. lia.
Qed.

Lemma land_byte v : 0 ≤ Z.land v 0xFF < 256.
Proof. change 0xFF with (Z.ones 8). rewrite Z.land_ones by lia. apply Z.mod_pos_bound. lia. Qed.

(** ** Reading back what was written *)

Section ReadBack.
Variable data : bytes.
Hypothesis Hdata : size data < 2 ^ 64.

(** The reader whose unread bytes are [rest]. *)
Definition at_rest (rest : bytes) : Reader := mkReader (size data - size rest) true [].

(** [rest] is a suffix of the data. *)
Definition unread (rest : bytes) : Prop := ∃ pre, data = pre ++ rest.

Lemma unread_app x rest : unread (x ++ rest) → unread rest.
Proof. intros [pre E]. exists (pre ++ x). by rewrite <- app_assoc. Qed.

Lemma unread_cons c rest : unread (c :: rest) → unread rest.
Proof. apply (unread_app [c]). Qed.

Lemma unread_size rest : unread rest → 0 ≤ size rest ≤ size data.
Proof. intros [pre ->]. rewrite size_app. pose proof (size_nonneg pre). pose proof (size_nonneg rest). lia. Qed.

Lemma unread_drop rest : unread rest → drop (Z.to_nat (size data - size rest)) data = rest.
Proof.
  intros [pre ->]. rewrite size_app. replace (_ + _ - _) with (size pre) by lia.
  unfold size. rewrite Nat2Z.id. apply drop_app_length.
Qed.

Lemma read_u8_back c rest :
  unread (c :: rest) → read_u8 data (at_rest (c :: rest)) = Ret (u8 c, at_rest rest).
Proof.
  intros H. pose proof (unread_size _ H) as Hs. pose proof (unread_drop _ H) as Hd.
  unfold read_u8, at_rest. cbn [pos_ ok_ error_].
  replace (size (c :: rest)) with (size rest + 1) in * by (unfold size; cbn [length]; lia).
  pose proof (size_nonneg rest). unfold wrap64. rewrite Z.mod_small by lia.
  destruct (Z.ltb_spec (size data) (size data - (size rest + 1) + 1)); [lia|].
  rewrite <- (Nat.add_0_r (Z.to_nat _)), <- lookup_drop, Hd. cbn.
  repeat f_equal; lia.
Qed.

Lemma read_le_back n i v rest (acc := v mod 2 ^ (i * 8)) :
  0 ≤ i →
  let l := (λ j, byte_of_Z (Z.shiftr v (j * 8))) <$> seqZ i (Z.of_nat n) in
  unread (l ++ rest) →
  read_le data n i acc (at_rest (l ++ rest)) = Ret (v mod 2 ^ ((i + Z.of_nat n) * 8), at_rest rest).
Proof.
  subst acc. revert i. induction n as [|n IH]; intros i Hi; cbn [read_le].
  { intros _. rewrite Z.add_0_r. done. }
  rewrite seqZ_cons by lia. replace (Z.pred (Z.of_nat (S n))) with (Z.of_nat n) by lia.
  rewrite fmap_cons. cbn [app]. intros Hu. rewrite read_u8_back by done. cbn [mbind outcome_bind].
  rewrite le_step by done. change (Z.succ i) with (i + 1).
  rewrite IH; [|lia|by eapply unread_cons].
  by replace (i + 1 + Z.of_nat n) with (i + Z.of_nat (S n)) by lia.
Qed.

Lemma u64_le_back v rest :
  0 ≤ v < 2 ^ 64 → unread (put_u64_le v ++ rest) →
  u64_le data (at_rest (put_u64_le v ++ rest)) = Ret (v, at_rest rest).
Proof.
  intros Hv Hu. pose proof (read_le_back 8 0 v rest ltac:(lia) Hu) as H.
  rewrite Z.mod_1_r in H. unfold u64_le. etransitivity; [exact H|].
  by rewrite Z.mod_small by (cbn; lia).
Qed.

Lemma read_be_back n v rest :
  0 ≤ v < 2 ^ 64 →
  let l := (λ j, byte_of_Z (Z.shiftr v (j * 8))) <$> (reverse (seqZ 0 (Z.of_nat n))) in
  unread (l ++ rest) →
  read_be data n (Z.shiftr v (Z.of_nat n * 8)) (at_rest (l ++ rest)) = Ret (v, at_rest rest).
Proof.
  intros Hv. induction n as [|n IH]; cbn [read_be].
  { intros _. cbn. by rewrite Z.shiftr_0_r. }
  rewrite seqZ_S, reverse_snoc, fmap_cons. cbn [app]. intros Hu.
  rewrite read_u8_back by done. cbn [mbind outcome_bind]. rewrite Z.add_0_l.
  replace (Z.of_nat (S n)) with (Z.of_nat n + 1) by lia. rewrite be_step by (done || lia).
  apply IH. by eapply unread_cons.
Qed.

(** A wide length, after its marker byte. *)
Lemma read_be_length n v rest :
  0 ≤ v < 2 ^ 64 → v < 2 ^ (Z.of_nat n * 8) →
  let l := (λ j, byte_of_Z (Z.shiftr v (j * 8))) <$> (reverse (seqZ 0 (Z.of_nat n))) in
  unread (l ++ rest) → read_be data n 0 (at_rest (l ++ rest)) = Ret (v, at_rest rest).
Proof.
  intros Hv Hn l Hu. rewrite <- (read_be_back n v rest Hv Hu). f_equal.
  symmetry. rewrite Z.shiftr_div_pow2 by lia. apply Z.div_small. lia.
Qed.

Lemma read_length_back v rest :
  0 ≤ v < 2 ^ 64 → unread (put_length v ++ rest) →
  read_length data (at_rest (put_length v ++ rest)) = Ret (inl v, at_rest rest).
Proof.
  intros Hv. unfold put_length, read_length, put_u8.
  destruct (Z.ltb_spec v (Z.shiftl 1 6)) as [H6|H6]; change (Z.shiftl 1 6) with 64 in H6.
  { cbn [app]. intros Hu. rewrite read_u8_back by done. cbn [mbind outcome_bind at_rest ok_ negb].
    change (Z.lor k6Bit v) with v. rewrite u8_byte_of_Z_small by lia.
    destruct (length_forms v) as (-> & -> & _); [lia|]. done. }
  destruct (Z.ltb_spec v (Z.shiftl 1 14)) as [H14|H14]; change (Z.shiftl 1 14) with 16384 in H14.
  { cbn [app]. intros Hu. rewrite read_u8_back by done. cbn [mbind outcome_bind at_rest ok_ negb].
    assert (0 ≤ Z.shiftr v 8 < 64) as Hh.
    { rewrite Z.shiftr_div_pow2 by lia. split; [apply Z.div_pos; lia|apply Z.div_lt_upper_bound; lia]. }
    destruct (length_forms _ Hh) as (_ & _ & E1 & E2 & Hr).
    rewrite u8_byte_of_Z_small by lia. rewrite E1, E2. cbn [Z.eqb k14Bit k6Bit Pos.eqb].
    rewrite read_u8_back by (by eapply unread_cons). cbn [mbind outcome_bind].
    rewrite u8_byte_of_Z_small by apply land_byte. by rewrite high_low_byte. }
  destruct (Z.leb_spec v 0xFFFFFFFF) as [H32|H32].
  - rewrite <- app_assoc. cbn [app]. intros Hu. rewrite read_u8_back by done.
    cbn [mbind outcome_bind at_rest ok_ negb]. change (u8 (byte_of_Z k32Bit)) with k32Bit.
    change (Z.land k32Bit 0xC0) with 128. cbn [Z.eqb k14Bit k6Bit kEncoded k32Bit Pos.eqb].
    pose proof (read_be_length 4 v rest Hv ltac:(cbn; lia) (unread_cons _ _ Hu)) as E.
    cbv zeta in E. change (reverse (seqZ 0 (Z.of_nat 4))) with [3; 2; 1; 0] in E. rewrite E. done.
  - rewrite <- app_assoc. cbn [app]. intros Hu. rewrite read_u8_back by done.
    cbn [mbind outcome_bind at_rest ok_ negb]. change (u8 (byte_of_Z k64Bit)) with k64Bit.
    change (Z.land k64Bit 0xC0) with 128. cbn [Z.eqb k14Bit k6Bit kEncoded k32Bit k64Bit Pos.eqb].
    pose proof (read_be_length 8 v rest Hv ltac:(cbn; lia) (unread_cons _ _ Hu)) as E.
    cbv zeta in E. change (reverse (seqZ 0 (Z.of_nat 8))) with [7; 6; 5; 4; 3; 2; 1; 0] in E.
    rewrite E. done.
Qed.

Lemma read_str_back s rest :
  unread (put_string s ++ rest) →
  read_str data (at_rest (put_string s ++ rest)) = Ret (s, at_rest rest).
Proof.
  unfold put_string, read_str. rewrite <- app_assoc. intros Hu.
  pose proof (unread_app _ _ Hu) as Hu1. pose proof (unread_app _ _ Hu1) as Hu2.
  pose proof (unread_size _ Hu1) as Hs1. pose proof (unread_size _ Hu2) as Hs2.
  rewrite size_app in Hs1. pose proof (size_nonneg s).
  rewrite read_length_back by (done || lia). cbn [mbind outcome_bind at_rest ok_ negb pos_ error_].
  rewrite size_app. unfold wrap64. rewrite Z.mod_small by lia.
  destruct (Z.ltb_spec (size data) (size data - (size s + size rest) + size s)); [lia|].
  destruct (Z.ltb_spec (size data) (size data - (size s + size rest))); [lia|].
  rewrite Z.min_l by lia. unfold substr.
  pose proof (unread_drop _ Hu1) as Hd. rewrite size_app in Hd. rewrite Hd.
  replace (Z.to_nat (size s)) with (length s) by (unfold size; lia). rewrite take_app_length.
  unfold at_rest. do 3 f_equal. lia.
Qed.

(** ** The loop on written records *)

Lemma eof_back c rest : unread (c :: rest) → eof data (at_rest (c :: rest)) = false.
Proof.
  intros H%unread_size. unfold eof, at_rest. cbn [pos_]. apply Z.leb_gt.
  unfold size in *. cbn [length] in *. lia.
Qed.

Lemma loop_opcode fuel p out c rest :
  unread (c :: rest) →
  rdb_loop data (S fuel) p out (at_rest (c :: rest)) =
    (step ← rdb_step data (u8 c) p out (at_rest rest);
     match step with
     | inl (out, msg) => Ret (out, Some msg)
     | inr (pending, out, r) =>
         if negb (ok_ r) then Ret ([], Some (or_error r (bs "truncated payload")))
         else rdb_loop data fuel pending out r
     end).
Proof. intros H. cbn [rdb_loop]. rewrite eof_back, read_u8_back by done. done. Qed.

(** Run the loop up to the switch. *)
Ltac open_opcode Hu :=
  match goal with
  | |- rdb_loop _ _ _ _ (at_rest (put_u8 ?x ++ ?r)) = _ =>
      change (put_u8 x ++ r) with (byte_of_Z x :: r); rewrite (loop_opcode _ _ _ _ _ Hu);
      apply unread_app in Hu
  end.

Lemma loop_aux fuel p out a b rest :
  unread (put_u8 kOpAux ++ put_string a ++ put_string b ++ rest) →
  rdb_loop data (S fuel) p out (at_rest (put_u8 kOpAux ++ put_string a ++ put_string b ++ rest)) =
    rdb_loop data fuel p out (at_rest rest).
Proof.
  intros Hu. open_opcode Hu.
  unfold rdb_step. change (u8 (byte_of_Z kOpAux) =? kOpAux) with true. cbv iota.
  rewrite read_str_back by done. cbn [mbind outcome_bind].
  rewrite read_str_back by (by eapply unread_app). done.
Qed.

Lemma loop_selectdb fuel p out n rest :
  0 ≤ n < 2 ^ 64 → unread (put_u8 kOpSelectDb ++ put_length n ++ rest) →
  rdb_loop data (S fuel) p out (at_rest (put_u8 kOpSelectDb ++ put_length n ++ rest)) =
    rdb_loop data fuel p out (at_rest rest).
Proof.
  intros Hn Hu. open_opcode Hu.
  unfold rdb_step. change (u8 (byte_of_Z kOpSelectDb)) with kOpSelectDb.
  cbn [Z.eqb kOpSelectDb kOpAux Pos.eqb]. rewrite read_length_back by done. done.
Qed.

Lemma loop_resizedb fuel p out n m rest :
  0 ≤ n < 2 ^ 64 → 0 ≤ m < 2 ^ 64 →
  unread (put_u8 kOpResizeDb ++ put_length n ++ put_length m ++ rest) →
  rdb_loop data (S fuel) p out (at_rest (put_u8 kOpResizeDb ++ put_length n ++ put_length m ++ rest)) =
    rdb_loop data fuel p out (at_rest rest).
Proof.
  intros Hn Hm Hu. open_opcode Hu.
  unfold rdb_step. change (u8 (byte_of_Z kOpResizeDb)) with kOpResizeDb.
  cbn [Z.eqb kOpSelectDb kOpAux kOpResizeDb Pos.eqb]. rewrite read_length_back by done.
  cbn [mbind outcome_bind]. rewrite read_length_back by (done || by eapply unread_app). done.
Qed.

Lemma loop_string fuel p out k v rest :
  unread (put_u8 kTypeString ++ put_string k ++ put_string v ++ rest) →
  rdb_loop data (S fuel) p out (at_rest (put_u8 kTypeString ++ put_string k ++ put_string v ++ rest)) =
    rdb_loop data fuel kNoExpiry (out ++ [mkKeyRecord k v p]) (at_rest rest).
Proof.
  intros Hu. open_opcode Hu.
  unfold rdb_step. change (u8 (byte_of_Z kTypeString)) with kTypeString.
  cbn [Z.eqb kTypeString kOpSelectDb kOpAux kOpResizeDb kOpExpireMs kOpExpireSec Pos.eqb].
  rewrite read_str_back by done. cbn [mbind outcome_bind].
  rewrite read_str_back by (by eapply unread_app). done.
Qed.

Lemma to_signed_wrap z : int64_min ≤ z ≤ int64_max → to_signed 64 (wrap64 z) = z.
Proof.
  unfold int64_min, int64_max, to_signed, wrap64. intros Hz. rewrite Z.mod_mod by lia.
  change (2 ^ (64 - 1)) with (2 ^ 63). destruct (decide (0 ≤ z)).
  - rewrite Z.mod_small by lia. destruct (Z.ltb_spec z (2 ^ 63)); lia.
  - replace (z mod 2 ^ 64) with (z + 2 ^ 64).
    + destruct (Z.ltb_spec (z + 2 ^ 64) (2 ^ 63)); lia.
    + symmetry. rewrite <- (Z.mod_add z 1) by lia. rewrite Z.mul_1_l. apply Z.mod_small. lia.
Qed.

Lemma loop_expire fuel p out e rest :
  int64_min ≤ e ≤ int64_max →
  unread (put_u8 kOpExpireMs ++ put_u64_le (wrap64 e) ++ rest) →
  rdb_loop data (S fuel) p out (at_rest (put_u8 kOpExpireMs ++ put_u64_le (wrap64 e) ++ rest)) =
    rdb_loop data fuel e out (at_rest rest).
Proof.
  intros He Hu. open_opcode Hu.
  unfold rdb_step. change (u8 (byte_of_Z kOpExpireMs)) with kOpExpireMs.
  cbn [Z.eqb kOpSelectDb kOpAux kOpResizeDb kOpExpireMs kOpExpireSec Pos.eqb].
  rewrite u64_le_back by (done || by apply Z.mod_pos_bound). cbn [mbind outcome_bind].
  by rewrite to_signed_wrap.
Qed.

Definition record_ok (r : KeyRecord) : Prop := int64_min ≤ expire_at r ≤ int64_max.

Lemma loop_records records out fuel :
  Forall record_ok records → (2 * length records < fuel)%nat →
  unread (mjoin (put_record <$> records)) →
  rdb_loop data fuel kNoExpiry out (at_rest (mjoin (put_record <$> records))) =
    Ret (out ++ records, None).
Proof.
  revert out fuel. induction records as [|r records IH]; intros out fuel Hr Hf Hu.
  { destruct fuel; [lia|]. cbn [rdb_loop fmap list_fmap mjoin list_join foldr].
    unfold eof, at_rest. cbn [pos_]. change (size []) with 0.
    rewrite Z.sub_0_r, Z.leb_refl, app_nil_r. done. }
  inv Hr. cbn [fmap list_fmap mjoin list_join foldr] in Hu |- *.
  change (mjoin (put_record <$> records)) with (mjoin (put_record <$> records)).
  unfold put_record at 1. unfold put_record at 1 in Hu. cbn [length] in Hf.
  destruct fuel as [|[|fuel]]; [lia|lia|].
  assert (∀ f p, (2 * length records < f)%nat →
    let x := put_u8 kTypeString ++ put_string (key r) ++ put_string (value r) ++
             mjoin (put_record <$> records) in
    unread x → rdb_loop data (S f) p out (at_rest x) =
      Ret (out ++ mkKeyRecord (key r) (value r) p :: records, None)) as Hrec.
  { intros f p Hf' x Hx. unfold x. rewrite loop_string by done.
    rewrite IH; [by rewrite <- app_assoc|done|done|]. by do 3 apply unread_app in Hx. }
  destruct (Z.eqb_spec (expire_at r) kNoExpiry) as [E|E].
  - cbn [app] in *. rewrite <- !app_assoc in *. rewrite Hrec by (done || lia).
    destruct r as [k v e]. cbn in *. by subst e.
  - rewrite <- !app_assoc in *. rewrite loop_expire by done.
    apply unread_app, unread_app in Hu. rewrite Hrec by (done || lia). by destruct r.
Qed.

End ReadBack.

(** ** The frame around the records *)

(** Header, records, EOF marker and checksum. *)
Definition rdb_header : bytes := kRdbMagic ++ kRdbVersion.

Definition rdb_ops (records : list KeyRecord) : bytes :=
  put_u8 kOpAux ++ put_string (bs "redis-ver") ++ put_string (bs "7.0.0-rp") ++
  put_u8 kOpSelectDb ++ put_length 0 ++
  put_u8 kOpResizeDb ++ put_length (Z.of_nat (length records)) ++
  put_length (Z.of_nat (with_expiry records)) ++ mjoin (put_record <$> records).

Lemma rdb_body_ops records : rdb_body records = rdb_header ++ rdb_ops records ++ put_u8 kOpEof.
Proof. unfold rdb_body, rdb_header, rdb_ops. by rewrite <- !app_assoc. Qed.

Lemma put_u64_le_length v : length (put_u64_le v) = 8%nat.
Proof. done. Qed.

Lemma stored_crc_fold v n i :
  0 ≤ i →
  foldl (λ '(v, i) c, (Z.lor v (Z.shiftl (u8 c) (i * 8)), i + 1)) (v mod 2 ^ (i * 8), i)
    ((λ j, byte_of_Z (Z.shiftr v (j * 8))) <$> seqZ i (Z.of_nat n)) =
  (v mod 2 ^ ((i + Z.of_nat n) * 8), i + Z.of_nat n).
Proof.
  revert i. induction n as [|n IH]; intros i Hi; [by rewrite Z.add_0_r|].
  rewrite seqZ_cons, fmap_cons by lia. cbn [foldl]. rewrite le_step by done.
  replace (Z.pred (Z.of_nat (S n))) with (Z.of_nat n) by lia. change (Z.succ i) with (i + 1).
  rewrite IH by lia. by replace (i + 1 + Z.of_nat n) with (i + Z.of_nat (S n)) by lia.
Qed.

Lemma stored_crc_back v : 0 ≤ v < 2 ^ 64 → stored_crc (put_u64_le v) = v.
Proof.
  intros Hv. pose proof (stored_crc_fold v 8 0 ltac:(lia)) as H. rewrite Z.mod_1_r in H.
  unfold stored_crc. etransitivity; [exact (f_equal fst H)|]. cbn. apply Z.mod_small. cbn. lia.
Qed.

(** What [rdb_parse] does with a well-framed payload. *)
Lemma rdb_parse_framed fuel ops c :
  rdb_parse fuel (rdb_header ++ ops ++ put_u8 kOpEof ++ put_u64_le c) =
    if negb (stored_crc (put_u64_le c) =? 0) &&
       negb (crc64 0 (rdb_header ++ ops ++ put_u8 kOpEof) =? stored_crc (put_u64_le c))
    then Ret ([], Some (bs "checksum mismatch: file corrupt"))
    else rdb_loop ops fuel kNoExpiry [] new_reader.
Proof.
  unfold rdb_parse. set (P := rdb_header ++ _).
  assert (length P = length ops + 18)%nat as HP.
  { unfold P. rewrite !length_app, put_u64_le_length. cbn. lia. }
  rewrite HP.
  change (length kRdbMagic + length kRdbVersion)%nat with 9%nat. change (length kRdbMagic) with 5%nat.
  destruct (Nat.ltb_spec (length ops + 18) 9); [lia|].
  change (substr P 0 5) with kRdbMagic. rewrite beq_refl. cbn [negb].
  change (substr P 5 4) with kRdbVersion. change (str_gt kRdbVersion kRdbVersion) with false.
  cbv iota. destruct (Nat.ltb_spec (length ops + 18) (9 + 9)); [lia|].
  replace (length ops + 18 - 8)%nat with (length ops + 10)%nat by lia.
  assert (P = (rdb_header ++ ops ++ put_u8 kOpEof) ++ put_u64_le c) as EP
    by (unfold P; by rewrite <- !app_assoc).
  assert (length (rdb_header ++ ops ++ put_u8 kOpEof) = length ops + 10)%nat as HB
    by (rewrite !length_app; cbn; lia).
  assert (P !! (length ops + 10 - 1)%nat = Some (byte_of_Z kOpEof)) as ->.
  { unfold P. rewrite lookup_app_r by (cbn; lia). rewrite lookup_app_r by (cbn; lia).
    replace (_ - _ - _)%nat with 0%nat by (cbn; lia). done. }
  change (u8 (byte_of_Z kOpEof) =? kOpEof) with true. cbn [negb].
  rewrite EP at 1 2 3. rewrite <- HB, drop_app_length, take_app_length, HB. unfold P, substr. rewrite drop_app_length' by done.
  replace (length ops + 10 - 1 - 9)%nat with (length ops) by lia.
  by rewrite take_app_length.
Qed.

Lemma put_record_length r : (3 ≤ length (put_record r))%nat.
Proof.
  assert (∀ n, (1 ≤ length (put_length n))%nat) as Hl.
  { intros n. unfold put_length. repeat split_if; cbn; lia. }
  unfold put_record, put_string. rewrite !length_app.
  pose proof (Hl (size (key r))). pose proof (Hl (size (value r))). cbn [put_u8 length]. lia.
Qed.

Lemma put_records_length records :
  (3 * length records ≤ length (mjoin (put_record <$> records)))%nat.
Proof.
  induction records as [|r records IH]; [done|].
  change (mjoin (put_record <$> (r :: records))) with
    (put_record r ++ mjoin (put_record <$> records)).
  rewrite length_app. pose proof (put_record_length r). cbn [length]. lia.
Qed.

Lemma with_expiry_le records : (with_expiry records ≤ length records)%nat.
Proof. apply length_filter. Qed.

(** The loop reads back the operations of a serialized snapshot. *)
Lemma loop_ops records fuel :
  Forall record_ok records → size (rdb_ops records) < 2 ^ 64 →
  (length (rdb_ops records) ≤ fuel)%nat →
  rdb_loop (rdb_ops records) fuel kNoExpiry [] new_reader = Ret (records, None).
Proof.
  intros Hr Hs Hf.
  assert (2 * length records + 4 ≤ fuel)%nat as Hfuel.
  { pose proof (put_records_length records). unfold rdb_ops in Hf. rewrite !length_app in Hf.
    change (length (put_string (bs "redis-ver"))) with 10%nat in Hf. lia. }
  assert (Z.of_nat (length records) < 2 ^ 64) as Hn.
  { pose proof (put_records_length records). unfold size, rdb_ops in Hs. rewrite !length_app in Hs. lia. }
  remember (rdb_ops records) as data eqn:Ed. assert (new_reader = at_rest data data) as ->.
  { unfold new_reader, at_rest. f_equal. lia. }
  assert (unread data data) as Hu by (by exists []).
  pose proof (with_expiry_le records).
  destruct fuel as [|[|[|fuel]]]; [lia..|].
  rewrite Ed in Hu at 2. rewrite Ed at 3. unfold rdb_ops in Hu |- *.
  rewrite loop_aux by done. do 3 apply unread_app in Hu.
  rewrite loop_selectdb by (done || lia). do 2 apply unread_app in Hu.
  rewrite loop_resizedb by (done || lia). do 3 apply unread_app in Hu.
  apply loop_records; [done..|lia|done].
Qed.

(** ** The reader on arbitrary data *)

Section ReaderSafety.
Variable data : bytes.
Hypothesis Hdata : size data < 2 ^ 63.   (* no object is larger *)

Definition reader_ok (r : Reader) : Prop := 0 ≤ pos_ r ≤ size data.

(** No byte of the data can announce a 64-bit length. *)
Definition no_k64 : Prop := Forall (λ c, u8 c ≠ k64Bit) data.

(** [m] completes with a reader inside the data and a value in [P]; without
    64-bit lengths the cursor only moves forward. *)
Definition reads {A} (P : A → Prop) (m : outcome (A * Reader)) (r : Reader) : Prop :=
  ∃ x r', m = Ret (x, r') ∧ P x ∧ reader_ok r' ∧ (no_k64 → pos_ r ≤ pos_ r').

Definition below (n : Z) (v : Z) : Prop := 0 ≤ v < 2 ^ n.

Lemma reads_ret {A} (P : A → Prop) x r : P x → reader_ok r → reads P (Ret (x, r)) r.
Proof. intros. exists x, r. done. Qed.

Lemma reads_bind {A B} (P : A → Prop) (Q : B → Prop) m (k : A * Reader → outcome (B * Reader)) r :
  reads P m r → (∀ x r', P x → reader_ok r' → reads Q (k (x, r')) r') → reads Q (m ≫= k) r.
Proof.
  intros (x & r1 & -> & HP & Hr & Hm) Hk. cbn.
  destruct (Hk x r1 HP Hr) as (y & r2 & E & HQ & Hr2 & Hm2).
  exists y, r2. split_and!; try done; [apply Hr2..|]. intros Hno. specialize (Hm Hno). specialize (Hm2 Hno). lia.
Qed.

Lemma reader_fail_ok r : reader_ok (reader_fail data r).
Proof. unfold reader_ok. cbn. pose proof (size_nonneg data). lia. Qed.

Lemma reads_fail {A} (P : A → Prop) x r :
  P x → reader_ok r → reads P (Ret (x, reader_fail data r)) r.
Proof. intros ? [_ ?]. exists x, (reader_fail data r). split_and!; try done; apply reader_fail_ok. Qed.

(** A byte; it is an element of the data unless the reader has failed. *)
Lemma read_u8_safe r :
  reader_ok r →
  ∃ v r', read_u8 data r = Ret (v, r') ∧ below 8 v ∧ reader_ok r' ∧ pos_ r ≤ pos_ r' ∧
    (ok_ r' = true → pos_ r < pos_ r' ∧ (no_k64 → v ≠ k64Bit)).
Proof.
  intros Hr. unfold read_u8, reader_ok in *. unfold wrap64. rewrite Z.mod_small by lia.
  destruct (Z.ltb_spec (size data) (pos_ r + 1)).
  { exists 0, (reader_fail data r). split; [done|]. split; [done|].
    split; [apply reader_fail_ok|]. cbn. split; [lia|done]. }
  destruct (lookup_lt_is_Some_2 data (Z.to_nat (pos_ r))) as [c Hc]; [unfold size in *; lia|].
  rewrite Hc. eexists _, _. split; [done|]. split; [apply u8_range|]. cbn. split; [lia|].
  split; [lia|]. intros _. split; [lia|]. intros Hno. by eapply Forall_lookup_1 in Hno.
Qed.

Lemma read_u8_reads r : reader_ok r → reads (below 8) (read_u8 data r) r.
Proof. intros (v & r' & E & ? & ? & ? & _)%read_u8_safe. by exists v, r'. Qed.

Lemma lor_below a b k n : below k a → below n b → 0 ≤ k → 0 ≤ n →
  below (n + k) (Z.lor a (Z.shiftl b k)).
Proof.
  unfold below. intros Ha Hb Hk Hn. rewrite Z.shiftl_mul_pow2 by done.
  replace (Z.lor a (b * 2 ^ k)) with (a + b * 2 ^ k).
  - rewrite Z.pow_add_r by lia. nia.
  - symmetry. rewrite <- Z.shiftl_mul_pow2 by done. rewrite <- Z.lxor_lor, <- Z.add_nocarry_lxor; [done|..].
    all: apply Z.bits_inj'; intros m Hm; rewrite Z.land_spec, Z.bits_0;
      destruct (Z.lt_ge_cases m k);
      [rewrite Z.shiftl_spec_low by lia; apply andb_false_r|];
      replace a with (a mod 2 ^ k) by (apply Z.mod_small; lia);
      by rewrite Z.mod_pow2_bits_high by lia.
Qed.

Lemma read_le_reads n i v r :
  reader_ok r → 0 ≤ i → below (i * 8) v →
  reads (below ((i + Z.of_nat n) * 8)) (read_le data n i v r) r.
Proof.
  revert i v r. induction n as [|n IH]; intros i v r Hr Hi Hv; cbn [read_le].
  { apply reads_ret; [|done]. by rewrite Z.add_0_r. }
  eapply reads_bind; [by apply read_u8_reads|]. intros b r' Hb Hr'.
  replace (i + Z.of_nat (S n)) with (i + 1 + Z.of_nat n) by lia. apply IH; [done|lia|].
  replace ((i + 1) * 8) with (8 + i * 8) by lia. by apply lor_below; [| |lia|].
Qed.

Lemma read_be_reads n k v r :
  reader_ok r → 0 ≤ k → (k + Z.of_nat n) * 8 ≤ 64 → below (k * 8) v →
  reads (below ((k + Z.of_nat n) * 8)) (read_be data n v r) r.
Proof.
  revert k v r. induction n as [|n IH]; intros k v r Hr Hk Hn Hv; cbn [read_be].
  { apply reads_ret; [|done]. by rewrite Z.add_0_r. }
  eapply reads_bind; [by apply read_u8_reads|]. intros b r' Hb Hr'.
  pose proof (lor_below b v 8 (k * 8) Hb Hv ltac:(lia) ltac:(lia)) as Hl.
  replace (k + Z.of_nat (S n)) with (k + 1 + Z.of_nat n) in * by lia. apply IH; [done|lia|lia|].
  unfold wrap64. rewrite Z.mod_small, Z.lor_comm; [by replace ((k + 1) * 8) with (k * 8 + 8) by lia|].
  unfold below in Hv. rewrite Z.shiftl_mul_pow2 by lia.
  assert (2 ^ (k * 8) * 2 ^ 8 ≤ 2 ^ 64) by (rewrite <- Z.pow_add_r by lia; apply Z.pow_le_mono_r; lia).
  nia.
Qed.

Definition length_value (l : Z + Z) : Prop :=
  match l with inl n => 0 ≤ n < 2 ^ 64 ∧ (no_k64 → n < 2 ^ 32) | inr _ => True end.

Lemma small_length n k : below k n → 0 ≤ k ≤ 32 → length_value (inl n).
Proof.
  unfold below, length_value. intros Hn Hk.
  assert (2 ^ k ≤ 2 ^ 32) by (apply Z.pow_le_mono_r; lia).
  assert (2 ^ 32 ≤ 2 ^ 64) by (apply Z.pow_le_mono_r; lia). lia.
Qed.

(** The bytes after the first one of a length. *)
Lemma read_length_rest b r :
  below 8 b → reader_ok r → (no_k64 → b ≠ k64Bit) →
  reads length_value
    (let top := Z.land b 0xC0 in
     if top =? k6Bit then Ret (inl (Z.land b 0x3F), r)
     else if top =? k14Bit then
       '(second, r) ← read_u8 data r;
       Ret (inl (Z.lor (Z.shiftl (Z.land b 0x3F) 8) second), r)
     else if top =? kEncoded then Ret (inr (Z.land b 0x3F), r)
     else if b =? k32Bit then '(v, r) ← read_be data 4 0 r; Ret (inl v, r)
     else if b =? k64Bit then '(v, r) ← read_be data 8 0 r; Ret (inl v, r)
     else Ret (inl 0, reader_fail data r)) r.
Proof.
  intros Hb Hr Hno. cbv zeta.
  assert (below 6 (Z.land b 0x3F)) as H6.
  { unfold below. change 0x3F with (Z.ones 6). rewrite Z.land_ones by lia. apply Z.mod_pos_bound. lia. }
  destruct (_ =? k6Bit); [apply reads_ret; [by eapply small_length|done]|].
  destruct (_ =? k14Bit).
  { eapply reads_bind; [by apply read_u8_reads|]. intros x r' Hx Hr'. apply reads_ret; [|done].
    eapply (small_length _ (6 + 8)); [|lia]. rewrite Z.lor_comm. by apply lor_below. }
  destruct (_ =? kEncoded); [by apply reads_ret|].
  destruct (_ =? k32Bit).
  { eapply reads_bind; [by apply (read_be_reads 4 0)|]. intros x r' Hx Hr'.
    apply reads_ret; [|done]. by eapply small_length. }
  destruct (Z.eqb_spec b k64Bit); [|apply reads_fail; [|done]; by apply (small_length 0 0)].
  eapply reads_bind; [by apply (read_be_reads 8 0)|]. intros x r' Hx Hr'.
  apply reads_ret; [|done]. split; [done|]. intros H. by destruct (Hno H).
Qed.

Lemma read_length_reads r : reader_ok r → reads length_value (read_length data r) r.
Proof.
  intros Hr. unfold read_length.
  destruct (read_u8_safe r Hr) as (b & r1 & -> & Hb & Hr1 & Hle & Hok). cbn [mbind outcome_bind].
  cut (reads length_value
    (if negb (ok_ r1) then Ret (inl 0, r1) else
     let top := Z.land b 0xC0 in
     if top =? k6Bit then Ret (inl (Z.land b 0x3F), r1)
     else if top =? k14Bit then
       '(second, r) ← read_u8 data r1;
       Ret (inl (Z.lor (Z.shiftl (Z.land b 0x3F) 8) second), r)
     else if top =? kEncoded then Ret (inr (Z.land b 0x3F), r1)
     else if b =? k32Bit then '(v, r) ← read_be data 4 0 r1; Ret (inl v, r)
     else if b =? k64Bit then '(v, r) ← read_be data 8 0 r1; Ret (inl v, r)
     else Ret (inl 0, reader_fail data r1)) r1).
  { intros (x & r' & E & Hx & Hr' & Hm). exists x, r'. split; [done|]. split; [done|].
    split; [done|]. intros Hno. specialize (Hm Hno). lia. }
  destruct (ok_ r1); cbn [negb]; [|apply reads_ret; [by apply (small_length 0 0)|done]].
  apply read_length_rest; [done..|]. by apply Hok.
Qed.

Definition anything {A} (_ : A) : Prop := True.

Lemma set_error_ok msg r : reader_ok r → reader_ok (set_error msg r).
Proof. done. Qed.

Lemma read_str_reads r : reader_ok r → reads anything (read_str data r) r.
Proof.
  intros Hr. unfold read_str. eapply reads_bind; [by apply read_length_reads|]. clear r Hr.
  intros l r Hl Hr. destruct (negb (ok_ r)); [by apply reads_ret|]. destruct l as [n|enc].
  - destruct Hl as [Hn Hsmall]. unfold reader_ok in Hr.
    destruct (Z.ltb_spec (size data) (wrap64 (pos_ r + n))); [by apply reads_fail|].
    destruct (Z.ltb_spec (size data) (pos_ r)); [lia|].
    assert (0 ≤ wrap64 (pos_ r + n)) by (apply Z.mod_pos_bound; lia).
    eexists _, _. split; [done|]. split; [done|]. unfold reader_ok. cbn. split; [lia|].
    intros Hno%Hsmall. unfold wrap64. rewrite Z.mod_small; lia.
  - destruct (_ =? kEncInt8).
    { eapply reads_bind; [by apply read_u8_reads|]. intros. by apply reads_ret. }
    destruct (_ =? kEncInt16).
    { eapply reads_bind; [by apply read_u8_reads|]. intros x r1 _ Hr1.
      eapply reads_bind; [by apply read_u8_reads|]. intros. by apply reads_ret. }
    destruct (_ =? kEncInt32).
    { eapply reads_bind; [by apply (read_le_reads 4 0)|]. intros. by apply reads_ret. }
    destruct (_ =? kEncLzf); by eexists _, _.
Qed.

(** One turn of the switch: an early return, or a reader inside the data. *)
Definition stepped (r : Reader) (m : outcome ((list KeyRecord * bytes) + (Z * list KeyRecord * Reader)))
    : Prop :=
  ∃ x, m = Ret x ∧
    match x with inl _ => True | inr (_, _, r') => reader_ok r' ∧ (no_k64 → pos_ r ≤ pos_ r') end.

Lemma stepped_bind {A} (P : A → Prop) m (k : A * Reader → outcome _) r :
  reads P m r → (∀ x r', P x → reader_ok r' → stepped r' (k (x, r'))) → stepped r (m ≫= k).
Proof.
  intros (x & r1 & -> & HP & Hr & Hm) Hk. destruct (Hk x r1 HP Hr) as (y & E & Hy).
  exists y. split; [done|]. destruct y as [|[[? ?] r2]]; [done|]. destruct Hy as [Hr2 Hm2].
  split; [done|]. intros Hno. specialize (Hm Hno). specialize (Hm2 Hno). lia.
Qed.

Lemma stepped_ret r p out : reader_ok r → stepped r (Ret (inr (p, out, r))).
Proof. intros. by eexists. Qed.

Lemma rdb_step_safe op p out r : reader_ok r → stepped r (rdb_step data op p out r).
Proof.
  intros Hr. unfold rdb_step.
  destruct (op =? kOpAux).
  { eapply stepped_bind; [by apply read_str_reads|]. intros x r1 _ Hr1.
    eapply stepped_bind; [by apply read_str_reads|]. intros. by apply stepped_ret. }
  destruct (op =? kOpSelectDb).
  { eapply stepped_bind; [by apply read_length_reads|]. intros. by apply stepped_ret. }
  destruct (op =? kOpResizeDb).
  { eapply stepped_bind; [by apply read_length_reads|]. intros x r1 _ Hr1.
    eapply stepped_bind; [by apply read_length_reads|]. intros. by apply stepped_ret. }
  destruct (op =? kOpExpireMs).
  { eapply stepped_bind; [by apply (read_le_reads 8 0)|]. intros. by apply stepped_ret. }
  destruct (op =? kOpExpireSec).
  { eapply stepped_bind; [by apply (read_le_reads 4 0)|]. intros v r1 [Hv Hv'] Hr1.
    unfold mul64, checked64. rewrite (proj2 (in_int64_spec _)); [by apply stepped_ret|].
    cbn in Hv'. unfold int64_min, int64_max. lia. }
  destruct (op =? kTypeString); [|by eexists].
  eapply stepped_bind; [by apply read_str_reads|]. intros k r1 _ Hr1.
  eapply stepped_bind; [by apply read_str_reads|]. intros v r2 _ Hr2.
  destruct (ok_ r2); cbn [negb]; [by apply stepped_ret|by eexists].
Qed.

Lemma rdb_loop_defined fuel p out r :
  reader_ok r → rdb_loop data fuel p out r ≠ Undefined.
Proof.
  revert p out r. induction fuel as [|fuel IH]; intros p out r Hr; [done|]. cbn [rdb_loop].
  destruct (eof data r); [done|].
  destruct (read_u8_safe r Hr) as (b & r1 & -> & _ & Hr1 & _). cbn [mbind outcome_bind].
  destruct (negb (ok_ r1)); [done|].
  destruct (rdb_step_safe b p out r1 Hr1) as ([[o m]|[[p' o] r2]] & -> & Hs); [done|].
  cbn [mbind outcome_bind]. destruct (negb (ok_ r2)); [done|]. apply IH, Hs.
Qed.

(** Every turn of the loop reads at least its opcode. *)
Lemma rdb_loop_ends fuel p out r :
  no_k64 → reader_ok r → size data - pos_ r < Z.of_nat fuel →
  ∃ x, rdb_loop data fuel p out r = Ret x.
Proof.
  intros Hno. revert p out r. induction fuel as [|fuel IH]; intros p out r Hr Hf.
  { unfold reader_ok in Hr. lia. }
  cbn [rdb_loop]. destruct (eof data r); [eauto|].
  destruct (read_u8_safe r Hr) as (b & r1 & -> & _ & Hr1 & _ & Hok). cbn [mbind outcome_bind].
  destruct (ok_ r1); cbn [negb]; [|eauto]. destruct (Hok eq_refl) as [Hlt _].
  destruct (rdb_step_safe b p out r1 Hr1) as ([[o m]|[[p' o] r2]] & -> & Hs); cbn [mbind outcome_bind];
    [eauto|]. destruct (ok_ r2); cbn [negb]; [|eauto].
  destruct Hs as [Hr2 Hle]. specialize (Hle Hno). apply IH; [done|lia].
Qed.

End ReaderSafety.

(** [rdb_parse] rejects the payload, or its checksum is zero or right and the
    loop reads what is between the header and the EOF marker. *)
Lemma rdb_parse_cases fuel payload :
  (∃ msg, rdb_parse fuel payload = Ret ([], Some msg)) ∨
  (rdb_parse fuel payload =
     rdb_loop (substr payload 9 (length payload - 8 - 1 - 9)) fuel kNoExpiry [] new_reader ∧
   let stored := stored_crc (drop (length payload - 8) payload) in
   (stored = 0 ∨ crc64 0 (take (length payload - 8) payload) = stored)).
Proof.
  unfold rdb_parse. change (length kRdbMagic + length kRdbVersion)%nat with 9%nat.
  destruct (Nat.ltb _ 9); [eauto|]. destruct (negb (beq _ _)); [eauto|].
  destruct (str_gt _ _); [eauto|]. destruct (Nat.ltb_spec (length payload) (9 + 9)); [eauto|].
  destruct (lookup_lt_is_Some_2 payload (length payload - 8 - 1)) as [c ->]; [lia|].
  destruct (negb (u8 c =? kOpEof)); [eauto|].
  destruct (Z.eqb_spec (stored_crc (drop (length payload - 8) payload)) 0); cbn [negb andb]; [eauto|].
  destruct (Z.eqb_spec (crc64 0 (take (length payload - 8) payload))
    (stored_crc (drop (length payload - 8) payload))); cbn [negb]; eauto.
Qed.

Lemma substr_size payload i n : size (substr payload i n) ≤ size payload.
Proof. unfold size, substr. rewrite length_take, length_drop. lia. Qed.

Lemma new_reader_ok data : reader_ok data new_reader.
Proof. unfold reader_ok. cbn. pose proof (size_nonneg data). lia. Qed.

(** A crafted snapshot: the value's 64-bit length is 2^64 - 11, which takes the
    cursor from 11 back to 0.  The checksum is disabled. *)
Definition evil_ops : bytes :=
  [x00; x00; x81; xff; xff; xff; xff; xff; xff; xff; xf5].

Definition evil_rdb : bytes := rdb_header ++ evil_ops ++ put_u8 kOpEof ++ put_u64_le 0.

Lemma evil_loop fuel out : rdb_loop evil_ops fuel kNoExpiry out new_reader = NoFuel.
Proof.
  revert out. induction fuel as [|fuel IH]; intros out; [done|].
  transitivity (rdb_loop evil_ops fuel kNoExpiry (out ++ [mkKeyRecord [] [] kNoExpiry]) new_reader);
    [reflexivity|apply IH].
Qed.

Lemma rdb_parse_serialized (records : list KeyRecord) (fuel : nat) :
  Forall record_ok records → size (rdb_serialize records) < 2 ^ 64 →
  (length (rdb_serialize records) ≤ fuel)%nat →
  rdb_parse fuel (rdb_serialize records) = Ret (records, None).
Proof.
  intros Hr Hs Hf. unfold rdb_serialize in *. rewrite rdb_body_ops in *.
  rewrite <- !app_assoc in Hs, Hf |- *. rewrite rdb_parse_framed.
  destruct (crc64_ref 0 (rdb_header ++ rdb_ops records ++ put_u8 kOpEof)) as [_ Hw]; [unfold word; lia|].
  rewrite stored_crc_back by exact Hw. rewrite Z.eqb_refl, andb_false_r.
  rewrite !length_app in Hf. unfold size in Hs. rewrite !length_app in Hs.
  apply loop_ops; [done|unfold size; lia|lia].
Qed.

(** ** Properties *)

(** C9: the snapshot round trip.  Parsing a serialized list of records gives
    the records back, in order, keys, values and deadlines intact, for any
    list whose file is below 2^64 bytes. *)
Theorem rdb_roundtrip (records : list KeyRecord) (fuel : nat) :
  Forall record_ok records → size (rdb_serialize records) < 2 ^ 64 →
  (length (rdb_serialize records) ≤ fuel)%nat →
  rdb_parse fuel (rdb_serialize records) = Ret (records, None).
Proof. apply rdb_parse_serialized. Qed.

(** C36: the parser is memory-safe on arbitrary input below 2^63 bytes: no read
    leaves the payload and no arithmetic overflows.  It terminates, with as
    much fuel as there are bytes, on every payload in which no byte is the
    64-bit length marker. *)
Theorem rdb_parse_safe (payload : bytes) (fuel : nat) :
  size payload < 2 ^ 63 →
  rdb_parse fuel payload ≠ Undefined ∧
  (Forall (λ c, u8 c ≠ k64Bit) payload → (length payload < fuel)%nat →
   ∃ out err, rdb_parse fuel payload = Ret (out, err)).
Proof.
  intros Hs. destruct (rdb_parse_cases fuel payload) as [[msg ->]|[-> _]]; [eauto|].
  set (data := substr _ _ _). pose proof (substr_size payload 9 (length payload - 8 - 1 - 9)) as Hd.
  fold data in Hd. split; [apply rdb_loop_defined; [lia|apply new_reader_ok]|].
  intros Hno Hf. destruct (rdb_loop_ends data ltac:(lia) fuel kNoExpiry [] new_reader) as [[out err] ->];
    [|apply new_reader_ok| |eauto].
  - unfold no_k64, data, substr. by apply Forall_take, Forall_drop.
  - cbn. unfold size in *. lia.
Qed.

(** C10: corruption is loud.  Changing any one byte of a snapshot before its
    checksum makes the parser fail without handing back a record, unless the
    checksum happened to be zero, the value that disables checking. *)
Theorem rdb_corruption_detected (records : list KeyRecord) (i : nat) (c : byte) (fuel : nat) :
  crc64 0 (rdb_body records) ≠ 0 → (i < length (rdb_body records))%nat →
  rdb_body records !! i ≠ Some c →
  ∃ msg, rdb_parse fuel (<[i:=c]> (rdb_serialize records)) = Ret ([], Some msg).
Proof.
  intros Hnz Hi Hc. unfold rdb_serialize. set (B := rdb_body records) in *.
  destruct (rdb_parse_cases fuel (<[i:=c]> (B ++ put_u64_le (crc64 0 B)))) as [|[_ H]]; [done|].
  rewrite length_insert, length_app, put_u64_le_length in H.
  replace (length B + 8 - 8)%nat with (length B) in H by lia.
  rewrite insert_app_l in H by done. cbv zeta in H.
  destruct (crc64_ref 0 B) as [_ Hw]; [unfold word; lia|].
  rewrite drop_app_length', take_app_length' in H by (by rewrite length_insert).
  rewrite stored_crc_back in H by exact Hw. destruct H as [H|H]; [done|].
  exfalso. revert H. unfold B. apply crc_insert_ne; [unfold word; lia|done..].
Qed.

(** A crafted snapshot makes the parser loop forever: the bound check of a
    string adds a 64-bit length to the cursor modulo 2^64, so a length close to
    2^64 passes it and moves the cursor backwards. *)
Theorem rdb_parse_diverges (fuel : nat) : rdb_parse fuel evil_rdb = NoFuel.
Proof.
  unfold evil_rdb. rewrite rdb_parse_framed. change (stored_crc (put_u64_le 0)) with 0.
  cbn [Z.eqb negb andb]. apply evil_loop.
Qed.

(** ** Witnesses *)

Definition two_records : list KeyRecord :=
  [mkKeyRecord (bs "k") (bs "v") 1700000000000; mkKeyRecord (bs "key2") [] kNoExpiry].

Lemma rdb_roundtrip_witness :
  rdb_parse 100 (rdb_serialize two_records) = Ret (two_records, None).
Proof.
  apply (rdb_roundtrip two_records 100).
  - repeat (apply Forall_cons_2; [unfold record_ok; cbn; unfold int64_min, int64_max; unfold kNoExpiry; lia|]).
    apply Forall_nil_2.
  - vm_compute. reflexivity.
  - vm_compute. lia.
Defined.

Lemma rdb_parse_safe_witness : rdb_parse 30 evil_rdb ≠ Undefined.
Proof. apply (rdb_parse_safe evil_rdb 30). vm_compute. reflexivity. Defined.

Lemma rdb_corruption_detected_witness :
  ∃ msg, rdb_parse 100 (<[20%nat := x00]> (rdb_serialize two_records)) = Ret ([], Some msg).
Proof.
  apply (rdb_corruption_detected two_records 20 x00 100).
  - intros H. vm_compute in H. discriminate H.
  - vm_compute. lia.
  - intros H. vm_compute in H. discriminate H.
Defined.
