(* ===== verification/Encode.v ===== *)
(** * Commands on the wire and in the log ([Aof::encode], src/aof.cpp)

    The RESP encoding of a command, which the append-only file and the
    replication stream share, and that the request parser reads it back: whole
    commands exactly, and any proper prefix as incomplete. *)

From S2P Require Import Prelude Resp Commands.

Definition encode (a : Args) : bytes :=
  reply.array_header (length a) ++ mjoin (reply.bulk <$> a).

(** A stream of commands. *)
Definition encode_all (cmds : list Args) : bytes := mjoin (encode <$> cmds).

(** What the parser's limits allow in a command. *)
Definition encodable (a : Args) : Prop :=
  a ≠ [] ∧ Z.of_nat (length a) ≤ kMaxMultibulkLength ∧ Forall (λ x, size x ≤ kMaxBulkLength) a.

(** ** Header lines: a mark, a number and CRLF *)

Definition line (c : byte) (n : Z) : bytes := c :: dec_nonneg n ++ crlf.

Lemma line_length c n : (0 ≤ n < 10 ^ 10) → (length (line c n) ≤ 13)%nat.
Proof.
  intros Hn. unfold line. cbn [length]. rewrite length_app.
  pose proof (dec_nonneg_length n 10 ltac:(lia) Hn). change (length crlf) with 2%nat. lia.
Qed.

Lemma line_find c n rest :
  c ≠ CR → 0 ≤ n → find_crlf (line c n ++ rest) = Some (S (length (dec_nonneg n))).
Proof.
  intros Hc Hn. unfold line. cbn [app]. rewrite <- app_assoc.
  apply (find_crlf_no_cr (c :: dec_nonneg n)). constructor; [done|]. by apply dec_nonneg_not_cr.
Qed.

Lemma line_digits c n rest : substr (line c n ++ rest) 1 (length (dec_nonneg n)) = dec_nonneg n.
Proof.
  unfold substr, line. cbn [app drop]. rewrite drop_0, <- app_assoc. apply take_app_length.
Qed.

Lemma line_drop c n rest : drop (S (length (dec_nonneg n)) + 2) (line c n ++ rest) = rest.
Proof.
  apply drop_app_length'. unfold line. cbn [length]. rewrite length_app. change (length crlf) with 2%nat. lia.
Qed.

(** A proper prefix of a line holds no CRLF and is short. *)
Lemma line_prefix c n p q :
  c ≠ CR → 0 ≤ n < 10 ^ 10 → line c n = p ++ q → q ≠ [] →
  find_crlf p = None ∧ (length p ≤ 12)%nat.
Proof.
  intros Hc Hn E Hq. pose proof (line_length c n Hn) as Hl.
  pose proof (line_find c n [] Hc ltac:(lia)) as Hf. rewrite app_nil_r in Hf.
  assert (length (line c n) = S (length (dec_nonneg n)) + 2)%nat as Hlen
    by (unfold line; cbn [length]; rewrite length_app; change (length crlf) with 2%nat; lia).
  rewrite E, length_app in *. assert (0 < length q)%nat by (destruct q; [done|cbn; lia]).
  split; [|lia]. eapply find_crlf_prefix; [exact Hf|lia].
Qed.

Lemma to_string_nonneg n : 0 ≤ n → to_string n = dec_nonneg n.
Proof. intros. unfold to_string. by destruct (Z.ltb_spec n 0); [lia|]. Qed.

Lemma bulk_line a : reply.bulk a = line "$" (size a) ++ a ++ crlf.
Proof.
  unfold reply.bulk, line. rewrite to_string_nonneg by apply size_nonneg.
  change (bs "$" ++ ?x) with ("$"%byte :: x). cbn [app]. by rewrite <- app_assoc.
Qed.

Lemma header_line n : reply.array_header n = line "*" (Z.of_nat n).
Proof. unfold reply.array_header, line. by rewrite to_string_nonneg by lia. Qed.

Lemma header_number n : 0 ≤ Z.of_nat n ≤ kMaxMultibulkLength → 0 ≤ Z.of_nat n < 10 ^ 10.
Proof. unfold kMaxMultibulkLength. lia. Qed.

Lemma bulk_number a : size a ≤ kMaxBulkLength → 0 ≤ size a < 10 ^ 10.
Proof. pose proof (size_nonneg a). unfold kMaxBulkLength. lia. Qed.

(** ** Bulk strings *)

Lemma parse_bulk_encoded a rest :
  size a ≤ kMaxBulkLength →
  parse_bulk (reply.bulk a ++ rest) 0 = inr (a, length (reply.bulk a)).
Proof.
  intros Ha. pose proof (size_nonneg a). rewrite bulk_line, <- !app_assoc. unfold parse_bulk.
  set (x := line _ _ ++ _). change (x !! 0%nat) with (Some "$"%byte).
  change (negb (Byte.eqb "$" "$")) with false. cbv iota. unfold find_crlf_from. rewrite drop_0.
  unfold x at 1. rewrite line_find by done. cbn [fmap option_fmap option_map]. rewrite !Nat.add_0_l.
  replace (S (length (dec_nonneg (size a))) - 0 - 1)%nat with (length (dec_nonneg (size a))) by lia.
  unfold x at 1. rewrite line_digits, parse_int_dec by (unfold kMaxBulkLength, int64_max in *; lia).
  destruct (_ || _) eqn:Ho; [breflect; lia|]. clear Ho. set (n := length (dec_nonneg (size a))).
  assert (length x = S n + 2 + length a + 2 + length rest)%nat as Hx.
  { unfold x, line. cbn [length app]. rewrite !length_app. change (length crlf) with 2%nat. unfold n. lia. }
  change (length crlf) with 2%nat. unfold size in *. rewrite Hx.
  destruct (Z.ltb_spec (Z.of_nat (S n + 2 + length a + 2 + length rest))
    (Z.of_nat (S n + 2) + Z.of_nat (length a) + Z.of_nat 2)); [lia|].
  assert (drop (S n + 2) x = a ++ crlf ++ rest) as Hd by apply line_drop.
  unfold substr. rewrite Nat2Z.id, <- (drop_drop x), Hd, drop_app_length, take_app_length.
  change (take 2 (crlf ++ rest)) with crlf. rewrite beq_refl. cbn [negb]. do 2 f_equal.
  rewrite length_app. unfold line. cbn [length]. rewrite !length_app. change (length crlf) with 2%nat. unfold n, size. lia.
Qed.

Lemma parse_bulk_prefix a p q :
  size a ≤ kMaxBulkLength → reply.bulk a = p ++ q → q ≠ [] →
  parse_bulk p 0 = inl incomplete.
Proof.
  intros Ha E Hq. unfold parse_bulk. destruct p as [|c p']; [done|]. set (p := c :: p') in *.
  assert (c = "$"%byte) as -> by (by injection E).
  change (p !! 0%nat) with (Some "$"%byte). change (negb (Byte.eqb "$" "$")) with false.
  cbv iota. unfold find_crlf_from. rewrite drop_0, bulk_line in *. rewrite Nat.sub_0_r.
  pose proof (bulk_number a Ha) as Hn.
  assert (0 < length q)%nat by (destruct q; [done|cbn; lia]).
  destruct (Nat.lt_ge_cases (length p) (length (line "$" (size a)))) as [Hlt|Hge].
  - assert (p = take (length p) (line "$" (size a))) as Ep.
    { pose proof (f_equal (take (length p)) E) as E'.
      rewrite take_app_length, take_app_le in E' by lia. done. }
    destruct (line_prefix "$" (size a) p (drop (length p) (line "$" (size a)))) as [-> Hl]; [done..| | |].
    + rewrite Ep at 1. by rewrite take_drop.
    + intros Hz%(f_equal length). rewrite length_drop in Hz.
      change (length []) with 0%nat in Hz. lia.
    + cbn [fmap option_fmap option_map]. by destruct (Z.ltb_spec 64 (Z.of_nat (length p))); [lia|].
  - assert (p = line "$" (size a) ++ drop (length (line "$" (size a))) p) as Ep.
    { pose proof (f_equal (take (length (line "$" (size a)))) E) as E'.
      rewrite take_app_length, take_app_le in E' by lia. rewrite E' at 1. by rewrite take_drop. }
    apply (f_equal length) in E. rewrite !length_app in E.
    rewrite Ep at 1. rewrite line_find by (done || lia). cbn [fmap option_fmap option_map]. rewrite !Nat.add_0_l.
    replace (S (length (dec_nonneg (size a))) - 0 - 1)%nat with (length (dec_nonneg (size a))) by lia.
    rewrite Ep at 1. rewrite line_digits, parse_int_dec by (unfold kMaxBulkLength, int64_max in *; lia).
    destruct (_ || _) eqn:Ho; [breflect; lia|]. clear Ho.
    assert (length (line "$" (size a)) = S (length (dec_nonneg (size a))) + 2)%nat as Hl
      by (unfold line; cbn [length]; rewrite length_app; change (length crlf) with 2%nat; lia).
    change (length crlf) with 2%nat in *. unfold size in *.
    destruct (Z.ltb_spec (Z.of_nat (length p)) (Z.of_nat (S (length (dec_nonneg (Z.of_nat (length a)))) + 2) +
      Z.of_nat (length a) + Z.of_nat 2)); [done|lia].
Qed.


(** ** Whole commands *)

Lemma mjoin_cons {A} (x : list A) (xs : list (list A)) : mjoin (x :: xs) = x ++ mjoin xs.
Proof. done. Qed.

(** A prefix of [x ++ y] ends inside [x] or extends into [y]. *)
Lemma prefix_split {A} (x y p q : list A) :
  x ++ y = p ++ q → (∃ r, r ≠ [] ∧ x = p ++ r) ∨ (∃ p', p = x ++ p' ∧ y = p' ++ q).
Proof.
  intros E. destruct (app_eq_inv _ _ _ _ E) as [(k & -> & ->)|(k & -> & ->)]; [|eauto].
  destruct k as [|c k]; [|left; by exists (c :: k)].
  right. exists []. by rewrite !app_nil_r.
Qed.

Lemma parse_bulk_at pre s :
  parse_bulk (pre ++ s) (length pre) = shift_bulk (length pre) (parse_bulk s 0).
Proof. rewrite parse_bulk_shift by (rewrite length_app; lia). by rewrite drop_app_length. Qed.

Lemma parse_bulks_encoded l pre rest acc :
  Forall (λ x, size x ≤ kMaxBulkLength) l →
  parse_bulks (length l) (pre ++ mjoin (reply.bulk <$> l) ++ rest) (length pre) acc =
    parsed (length (pre ++ mjoin (reply.bulk <$> l))) (acc ++ l).
Proof.
  intros Hl. revert pre acc. induction Hl as [|a l Ha Hl IH]; intros pre acc.
  { cbn [length parse_bulks fmap list_fmap]. by rewrite !app_nil_r. }
  cbn [length parse_bulks]. rewrite fmap_cons, mjoin_cons, <- app_assoc, parse_bulk_at,
    parse_bulk_encoded by done. cbn [shift_bulk].
  rewrite app_assoc, <- length_app, IH. by rewrite <- !app_assoc.
Qed.

Lemma parse_bulks_prefix l pre p q acc :
  Forall (λ x, size x ≤ kMaxBulkLength) l → mjoin (reply.bulk <$> l) = p ++ q → q ≠ [] →
  parse_bulks (length l) (pre ++ p) (length pre) acc = incomplete.
Proof.
  intros Hl. revert pre p acc. induction Hl as [|a l Ha Hl IH]; intros pre p acc E Hq.
  { by destruct p, q. }
  rewrite fmap_cons, mjoin_cons in E. cbn [length parse_bulks]. rewrite parse_bulk_at.
  destruct (prefix_split _ _ _ _ E) as [(r & Hr & Eb)|(p' & -> & E')].
  - by rewrite (parse_bulk_prefix a p r).
  - rewrite parse_bulk_encoded by done. cbn [shift_bulk].
    rewrite app_assoc, <- length_app. by apply IH.
Qed.

Lemma encode_head a s : head (encode a ++ s) = Some "*"%byte.
Proof. unfold encode. by rewrite header_line. Qed.

(** The header of a command, and what the parser does after it. *)
Lemma parse_request_header a s :
  encodable a →
  parse_request (reply.array_header (length a) ++ s) =
    parse_bulks (length a) (reply.array_header (length a) ++ s)
      (length (reply.array_header (length a))) [].
Proof.
  intros (Hne & Hmax & _). rewrite header_line.
  assert (0 < Z.of_nat (length a)) by (destruct a; [done|cbn; lia]).
  rewrite parse_request_star by done. rewrite line_find by (done || lia).
  replace (S (length (dec_nonneg (Z.of_nat (length a)))) - 1)%nat
    with (length (dec_nonneg (Z.of_nat (length a)))) by lia.
  rewrite line_digits, parse_int_dec by (unfold kMaxMultibulkLength, int64_max in *; lia).
  destruct (Z.ltb_spec kMaxMultibulkLength (Z.of_nat (length a))); [lia|].
  destruct (Z.leb_spec (Z.of_nat (length a)) 0); [lia|]. rewrite Nat2Z.id. f_equal.
  unfold line. cbn [length]. rewrite length_app. change (length crlf) with 2%nat. lia.
Qed.

Lemma parse_encoded a rest :
  encodable a → parse_request (encode a ++ rest) = parsed (length (encode a)) a.
Proof.
  intros Ha. unfold encode. rewrite <- app_assoc, parse_request_header by done.
  rewrite parse_bulks_encoded by apply Ha. done.
Qed.

Lemma parse_prefix a p q :
  encodable a → encode a = p ++ q → q ≠ [] → parse_request p = incomplete.
Proof.
  intros Ha E Hq. unfold encode in E. destruct (prefix_split _ _ _ _ E) as [(r & Hr & Eh)|(p' & -> & E')].
  - destruct p as [|c p']; [done|]. rewrite header_line in Eh.
    assert (c = "*"%byte) as -> by (by injection Eh). rewrite parse_request_star by done.
    destruct Ha as (_ & Hmax & _).
    destruct (line_prefix "*" (Z.of_nat (length a)) ("*"%byte :: p') r) as [-> Hl];
      [done|apply header_number; lia|done..|].
    unfold size. by destruct (Z.ltb_spec 64 (Z.of_nat (length ("*"%byte :: p')))); [lia|].
  - rewrite parse_request_header by done. eapply parse_bulks_prefix; [apply Ha|done..].
Qed.
