(* ===== verification/Requests.v ===== *)
(** * From a request to the command it propagates

    What the parser hands out is within its own limits, and so is the command
    that a request propagates: the log and the replicas can always read back
    what a client's request led to. *)

From S2P Require Import Prelude Resp UnorderedMap Store Keyspace Stats Commands CommandSpec Dispatch Encode.

(** ** Parsed requests *)

Lemma parse_bulk_size input pos arg pos' :
  parse_bulk input pos = inr (arg, pos') → size arg ≤ kMaxBulkLength.
Proof.
  unfold parse_bulk. intros H. repeat (split_match || split_if); simplify_eq. breflect.
  unfold size, substr. rewrite length_take. lia.
Qed.

Lemma parse_bulks_fit argc input pos acc :
  Forall (λ x, size x ≤ kMaxBulkLength) acc →
  Forall (λ x, size x ≤ kMaxBulkLength) (args (parse_bulks argc input pos acc)).
Proof.
  revert pos acc. induction argc as [|argc IH]; intros pos acc Ha; cbn [parse_bulks]; [done|].
  destruct (parse_bulk input pos) as [r|[arg pos']] eqn:E.
  - apply parse_bulk_inl in E as (_ & _ & ->). constructor.
  - apply IH. apply Forall_app. split; [done|]. constructor; [by eapply parse_bulk_size|done].
Qed.

Lemma while_length p s : (length (take_while p s) + length (skip_while p s) = length s)%nat.
Proof. rewrite <- length_app. by rewrite take_skip_while. Qed.

Lemma inline_words_fit fuel line :
  Forall (λ w, (length w ≤ length line)%nat) (inline_words fuel line) ∧
  (length (inline_words fuel line) ≤ length line)%nat.
Proof.
  revert line. induction fuel as [|fuel IH]; intros line; [split; [constructor|apply Nat.le_0_l]|].
  destruct line as [|c line]; [by split; [constructor|]|]. cbn [inline_words].
  set (l := skip_while isspace (c :: line)). pose proof (while_length isspace (c :: line)) as H1. fold l in H1.
  pose proof (while_length nonspace l) as H2. destruct (IH (skip_while nonspace l)) as [IH1 IH2].
  assert (length (skip_while nonspace l) ≤ length (c :: line))%nat as Hle by lia.
  assert (Forall (λ w, (length w ≤ length (c :: line))%nat) (inline_words fuel (skip_while nonspace l))) as IH1'
    by (eapply Forall_impl; [exact IH1|]; cbn beta; lia).
  destruct (Nat.ltb_spec 0 (length (take_while nonspace l))); [|split; [done|lia]].
  split; [constructor; [lia|done]|]. cbn [length] in *. lia.
Qed.

(** The parser keeps its own limits. *)
Lemma parse_request_encodable input :
  status (parse_request input) = kOk → args (parse_request input) ≠ [] →
  encodable (args (parse_request input)).
Proof.
  intros Hs Hne. split; [done|]. revert Hs Hne. destruct (request_head input) as [->|[H|(c & H & Hc)]]; [done| |].
  - rewrite (parse_request_star _ H). destruct (find_crlf input) as [e|] eqn:E; [|by split_if].
    pose proof (find_crlf_Some _ _ E) as [_ ?]. destruct (parse_int _) as [argc|]; [|done].
    split_if; [done|]. breflect. split_if; [done|]. breflect. intros Hs _.
    destruct (parse_bulks_safe (Z.to_nat argc) input (e + 2) []) as [H1 _]; [lia|].
    destruct (H1 Hs) as [_ ->]. split; [cbn; lia|]. by apply parse_bulks_fit.
  - rewrite (parse_request_inline _ _ H Hc). unfold parse_inline.
    destruct (find_crlf input) as [e|]; [|by split_if]. split_if; [done|]. breflect. intros _ _.
    cbn [args parsed]. set (line := substr input 0 e).
    assert (Z.of_nat (length line) ≤ kMaxInlineLength) as Hl
      by (unfold line, substr; rewrite length_take; lia).
    destruct (inline_words_fit (length line) line) as [Hf Hn].
    unfold kMaxInlineLength, kMaxMultibulkLength, kMaxBulkLength in *. split; [lia|].
    eapply Forall_impl; [exact Hf|]. cbn beta. unfold size. lia.
Qed.

(** ** Propagated commands *)

Section Requests.
Context `{UM : UnorderedMap} {W Link : Type} {SS : ServerState W}.
Implicit Types (w : W) (tbl : CommandTable (W:=W) (Link:=Link)).

(** A command made of the arguments of another, and of short words. *)
Definition made_from (a p : Args) : Prop :=
  (length p ≤ Nat.max 5 (length a))%nat ∧ Forall (λ x, x ∈ a ∨ (length x ≤ 20)%nat) p.

Lemma made_from_refl a : made_from a a.
Proof. split; [lia|]. apply Forall_forall. by left. Qed.

Ltac made :=
  repeat (apply Forall_cons_2; [first [by left | right; first [assumption | cbn; lia]]|]); apply Forall_nil_2.

Lemma to_int64_short x : is_Some (to_int64 x) → (length x ≤ 20)%nat.
Proof.
  intros [z H]. unfold to_int64 in H. destruct x as [|c x]; [cbn; lia|].
  destruct (Nat.ltb_spec 20 (length (c :: x))); [done|lia].
Qed.

Lemma cmd_set_made a s r s' :
  cmd_set a s = Ret (r, s') → is_Some (effect_of (propagate r)) → made_from a (propagate r).
Proof.
  unfold cmd_set. destruct a as [|a0 [|k [|v opts]]]; try (by intros [= <- <-] [? ?]).
  intros ([[err|o] s1] & _ & H)%bind_Ret; [by injection H as <- <-; intros [? ?]|]. revert H. unfold set_value.
  destruct (get k s1) as [previous s2]. split_if; [by intros [= <- <-] [? ?]|].
  intros ([e s3] & _ & [= <- <-])%bind_Ret. cbn [propagate]. unfold canonical_set. intros He.
  assert (k ∈ a0 :: k :: v :: opts ∧ v ∈ a0 :: k :: v :: opts) as [Hk Hv] by set_solver.
  destruct (e =? kNoExpiry).
  - split; [cbn; lia|]. by made.
  - assert (length (to_string e) ≤ 20)%nat.
    { apply to_int64_short. destruct He as [x He]. cbn in He. by apply fmap_Some in He as (z & -> & _). }
    split; [cbn; lia|]. by made.
Qed.

Lemma cmd_expire_made a sec ab name s r s' :
  cmd_expire a sec ab name s = Ret (r, s') → is_Some (effect_of (propagate r)) → made_from a (propagate r).
Proof.
  unfold cmd_expire. destruct a as [|a0 [|k [|num [|]]]]; try (by intros [= <- <-] [? ?]).
  destruct (to_int64 num) as [n|]; [|by intros [= <- <-] [? ?]]. split_if; [by intros [= <- <-] [? ?]|].
  intros (n' & _ & ([d s1] & _ & H)%bind_Ret)%bind_Ret. destruct (set_expire_at k d s1) as [applied s2].
  injection H as <- <-. destruct applied; [|by intros [? ?]]. cbn [propagate]. intros [x He].
  cbn in He. apply fmap_Some in He as (z & Hz & _). assert (length (to_string d) ≤ 20)%nat by (by apply to_int64_short).
  assert (k ∈ [a0; k; num]) by set_solver. split; [cbn; lia|]. by made.
Qed.

Lemma run_command_made tbl name a w r w' :
  run_command tbl name a w = Ret (r, w') → dirty r = true → is_Some (effect_of (propagate r)) →
  made_from a (propagate r).
Proof.
  assert (∀ f, never_dirty f → f = Ret (r, w') → dirty r = true → is_Some (effect_of (propagate r)) →
    made_from a (propagate r)) as Hn by (intros f Hf He; by rewrite (Hf _ _ He)).
  assert (∀ f, on_store_out f w = Ret (r, w') → ∃ s s', f s = Ret (r, s')) as Hout.
  { unfold on_store_out. intros f ([x s] & H & [= -> _])%bind_Ret. by eexists _, _. }
  unfold run_command.
  repeat match goal with
    | |- (if ?b then _ else _) = _ → _ =>
        destruct b; [first
          [ by intros [= <- <-]
          | by intros (s & s' & H)%Hout _; eapply cmd_set_made
          | by intros (s & s' & H)%Hout _; eapply cmd_expire_made
          | apply Hn; first [apply never_dirty_on_store; intros; apply never_dirty_reads
                            | apply never_dirty_ttl | apply never_dirty_save | apply never_dirty_info]
          | idtac ]|]
    end.
  - unfold on_store, cmd_del. destruct a as [|a0 [|k ks]]; [by intros [= <- <-]..|].
    destruct (erase_keys _ _ _) as [n s1]. destruct (0 <? n); [|by intros [= <- <-]].
    intros [= <- <-] _ _. apply made_from_refl.
  - unfold on_store, cmd_persist. destruct a as [|a0 [|k [|]]]; try by intros [= <- <-].
    destruct (persist k _) as [[|] s1]; [|by intros [= <- <-]]. intros [= <- <-] _ _. apply made_from_refl.
  - unfold on_store, cmd_flushall. intros [= <- <-] _ _. apply made_from_refl.
  - by intros [= <- <-].
Qed.

Lemma dispatch_made tbl a l w r w' :
  dispatch tbl a l w = Ret (r, w') → dirty r = true → is_Some (effect_of (propagate r)) →
  made_from a (propagate r).
Proof.
  unfold dispatch. destruct a as [|a0 a]; [by intros [= <- <-]|].
  destruct (refuses_write _ _ _ _); [by intros [= <- <-]|].
  destruct (beq _ _).
  { unfold do_replconf. intros H. repeat case_match; try (apply bind_Ret in H as (? & _ & H)); by simplify_eq. }
  destruct (beq _ _).
  { unfold do_psync. intros H. case_match; [apply bind_Ret in H as (? & _ & H)|]; by simplify_eq. }
  destruct (_ || _).
  { unfold do_replicaof. intros H.
    repeat case_match; try (apply bind_Ret in H as ([[? ?] ?] & _ & H) || apply bind_Ret in H as (? & _ & H)); by simplify_eq. }
  intros ([r1 w1] & H & [= <- <-])%bind_Ret. unfold fill_propagate.
  destruct (propagate r1) as [|x p] eqn:Ep; [|rewrite Ep, <- Ep; by eapply run_command_made].
  destruct (dirty r1); [intros _ _; apply made_from_refl|]. rewrite Ep. by intros _ [? ?].
Qed.

(** A request within the limits propagates a command within the limits. *)
Lemma dispatch_encodable tbl a l w r w' :
  dispatch tbl a l w = Ret (r, w') → encodable a → dirty r = true →
  is_Some (effect_of (propagate r)) → encodable (propagate r).
Proof.
  intros H (_ & Hlen & Hfit) Hd He. destruct (dispatch_made _ _ _ _ _ _ H Hd He) as [Hl Hm]. split_and!.
  - intros E. rewrite E in He. by destruct He.
  - unfold kMaxMultibulkLength in *. lia.
  - eapply Forall_impl; [exact Hm|]. cbn beta. intros x [Hx|Hx].
    + by apply (proj1 (Forall_forall _ _) Hfit).
    + unfold size, kMaxBulkLength. lia.
Qed.

(** A write command changes the store and nothing else. *)
Lemma write_command_store tbl a0 a l w r w' :
  is_write_command (upper a0) = true → dispatch tbl (a0 :: a) l w = Ret (r, w') → ∃ s, w' = with_store s w.
Proof.
  intros Hw. assert (∃ s, w = with_store s w) as Hid by (exists (store_of w); by rewrite with_store_of).
  assert (∀ x, upper a0 = x → is_write_command x = true) as Hx by (by intros ? <-).
  unfold dispatch, run_command. destruct (refuses_write _ _ _ _); [by intros [= <- <-]|].
  destruct (beq (upper a0) (bs "REPLCONF")) eqn:E1; [by apply beq_true, Hx in E1|].
  destruct (beq (upper a0) (bs "PSYNC")) eqn:E2; [by apply beq_true, Hx in E2|].
  destruct (beq (upper a0) (bs "REPLICAOF") || _) eqn:E3.
  { apply orb_true_iff in E3. rewrite !beq_true in E3. by destruct E3 as [E3%Hx|E3%Hx]. }
  intros ([r1 w1] & H & [= <- <-])%bind_Ret. revert H.
  repeat match goal with
    | |- (if ?b then _ else _) = _ → _ =>
        destruct b eqn:?; [first
          [ by intros [= <- <-] | by intros ?%on_store_respects | by intros ?%on_store_out_respects
          | by match goal with E : beq _ _ = true |- _ => apply beq_true, Hx in E end
          | by match goal with E : _ || _ || _ = true |- _ =>
              apply orb_true_iff in E as [[E|E]%orb_true_iff|E]; apply beq_true, Hx in E end ]|]
    end.
  by intros [= <- <-].
Qed.

End Requests.
