(* ===== verification/Files.v ===== *)
(** * Files

    What the persistence code uses of the C and C++ libraries and of the
    operating system: whole files by name, with the part of each that has
    reached stable storage.  A process crash loses what is still in the
    process; a power cut may also lose anything not yet synced.  Which calls
    succeed is decided by the environment and is an argument of the operations
    that make the calls. *)

From S2P Require Import Prelude.

(** The bytes of a file, and how many of them are on stable storage. *)
Record file := mkFile { cached : bytes; synced : nat }.

Abbreviation disk := (gmap bytes file).

Definition contents_of (d : disk) (path : bytes) : bytes :=
  default [] (cached <$> d !! path).

(** Opening for appending creates the file. *)
Definition d_create (path : bytes) (d : disk) : disk :=
  match d !! path with Some _ => d | None => <[path := mkFile [] 0]> d end.

Definition d_append (path x : bytes) (d : disk) : disk :=
  alter (λ f, mkFile (cached f ++ x) (synced f)) path d.

Definition d_sync (path : bytes) (d : disk) : disk :=
  alter (λ f, mkFile (cached f) (length (cached f))) path d.

(** Opening for writing truncates. *)
Definition d_write (path x : bytes) (d : disk) : disk := <[path := mkFile x 0]> d.

Definition d_remove (path : bytes) (d : disk) : disk := delete path d.

(** [std::remove], whose result the code never looks at. *)
Definition try_remove (removed : bool) (path : bytes) (d : disk) : disk :=
  if removed then d_remove path d else d.

Definition d_rename (from to : bytes) (d : disk) : disk :=
  match d !! from with Some f => <[to := f]> (delete from d) | None => d end.

(** After a power cut a file holds its synced bytes and perhaps more. *)
Definition survives_power_cut (f : file) (x : bytes) : Prop :=
  ∃ n, x = take n (cached f) ∧ (synced f ≤ n)%nat.

Lemma contents_append d path x :
  is_Some (d !! path) → contents_of (d_append path x d) path = contents_of d path ++ x.
Proof.
  intros [f Hf]. unfold contents_of, d_append. by rewrite lookup_alter_eq, Hf.
Qed.

Lemma contents_sync d path path' :
  contents_of (d_sync path d) path' = contents_of d path'.
Proof.
  unfold contents_of, d_sync. rewrite lookup_alter. case_decide; [subst|done].
  by destruct (d !! path').
Qed.

Lemma contents_create d path path' :
  contents_of (d_create path d) path' = contents_of d path'.
Proof.
  unfold d_create. destruct (d !! path) eqn:E; [done|]. unfold contents_of. rewrite lookup_insert.
  case_decide; [subst; by rewrite E|done].
Qed.

Lemma lookup_try_remove_ne removed path d q : path ≠ q → try_remove removed path d !! q = d !! q.
Proof. intros Hq. destruct removed; [|done]. by apply lookup_delete_ne. Qed.

Lemma lookup_append_ne d path x q : path ≠ q → d_append path x d !! q = d !! q.
Proof. intros Hq. by apply lookup_alter_ne. Qed.

Lemma lookup_sync_ne d path q : path ≠ q → d_sync path d !! q = d !! q.
Proof. intros Hq. by apply lookup_alter_ne. Qed.

Lemma lookup_rename_ne d from to q : from ≠ q → to ≠ q → d_rename from to d !! q = d !! q.
Proof.
  intros Hf Ht. unfold d_rename. destruct (d !! from); [|done]. by rewrite lookup_insert_ne, lookup_delete_ne.
Qed.

Lemma d_create_Some d path : is_Some (d_create path d !! path).
Proof. unfold d_create. destruct (d !! path) eqn:E; [by rewrite E|]. by rewrite lookup_insert_eq. Qed.
