(* ===== verification/Aof.v ===== *)
(** * The append-only file (include/rp/aof.hpp, src/aof.cpp)

    [Aof] buffers encoded commands, hands them to a stdio stream, and syncs the
    stream according to the policy.  Bytes pass through three places: the
    class's own buffer, the stream's buffer in the process, and the file. *)

From S2P Require Import Prelude Resp Store Commands Encode Files.

Inductive FsyncPolicy := kAlways | kEverySec | kNo.

Definition parse_fsync_policy (name : bytes) : FsyncPolicy * bool :=
  if beq name (bs "always") then (kAlways, true)
  else if beq name (bs "everysec") then (kEverySec, true)
  else if beq name (bs "no") then (kNo, true)
  else (kEverySec, false).

Definition fsync_policy_name (policy : FsyncPolicy) : bytes :=
  match policy with
  | kAlways => bs "always"
  | kNo => bs "no"
  | kEverySec => bs "everysec"
  end.

(** [file_] is the open stream: the bytes written to it that it still holds. *)
Record Aof := mkAof {
  file_ : option bytes;
  path_ : bytes;
  policy_ : FsyncPolicy;
  buffer_ : bytes;
  last_fsync_ms_ : Z;
  commands_written_ : Z;
  fsyncs_ : Z;
  bytes_written_ : Z
}.

Definition new_aof : Aof := mkAof None [] kEverySec [] 0 0 0 0.

Definition is_open (a : Aof) : bool := bool_decide (is_Some (file_ a)).

Definition set_stream (a : Aof) (f : option bytes) (buf : bytes) : Aof :=
  mkAof f (path_ a) (policy_ a) buf (last_fsync_ms_ a) (commands_written_ a) (fsyncs_ a)
    (bytes_written_ a).

(** What the calls on the stream meet: how many bytes [fwrite] takes and how
    many of the bytes then held it passes on to the file at once, how many
    [fflush] gets to the file and whether a stream that it could not empty keeps
    the others, whether [fsync] succeeds, and how many bytes [fclose] still gets
    to the file.  The code looks at the result of [fwrite] only. *)
Record stream_env := mkStreamEnv {
  accepts : nat;
  spills : nat;
  flushes : nat;
  keeps : bool;
  syncs : bool;
  drains : nat
}.

(** [fwrite]: the number of bytes taken. *)
Definition fwrite (e : stream_env) (x : bytes) (a : Aof) (d : disk) : nat * Aof * disk :=
  match file_ a with
  | Some pending =>
      let written := Nat.min (accepts e) (length x) in
      let held := pending ++ take written x in
      (written, set_stream a (Some (drop (spills e) held)) (buffer_ a),
       d_append (path_ a) (take (spills e) held) d)
  | None => (0%nat, a, d)
  end.

Definition fflush (e : stream_env) (a : Aof) (d : disk) : Aof * disk :=
  match file_ a with
  | Some pending =>
      (set_stream a (Some (if keeps e then drop (flushes e) pending else [])) (buffer_ a),
       d_append (path_ a) (take (flushes e) pending) d)
  | None => (a, d)
  end.

(** [fsync_handle]: flush the stream, then the file. *)
Definition fsync_handle (e : stream_env) (a : Aof) (d : disk) : Aof * disk :=
  match file_ a with
  | Some _ =>
      let '(a, d) := fflush e a d in
      (a, if syncs e then d_sync (path_ a) d else d)
  | None => (a, d)
  end.

Definition fclose (e : stream_env) (a : Aof) (d : disk) : Aof * disk :=
  match file_ a with
  | Some pending => (set_stream a None (buffer_ a), d_append (path_ a) (take (drains e) pending) d)
  | None => (a, d)
  end.

Definition clear_buffer (a : Aof) : Aof := set_stream a (file_ a) [].

Definition aof_close (e : stream_env) (a : Aof) (d : disk) : Aof * disk :=
  match file_ a with
  | None => (a, d)
  | Some _ =>
      let '(a, d) :=
        match buffer_ a with
        | [] => (a, d)
        | _ :: _ => let '(_, a, d) := fwrite e (buffer_ a) a d in (clear_buffer a, d)
        end in
      let '(a, d) := fsync_handle e a d in
      fclose e a d
  end.

(** [opened] is whether [fopen] succeeds. *)
Definition aof_open (e : stream_env) (opened : bool) (path : bytes) (policy : FsyncPolicy)
    (a : Aof) (d : disk) : option bytes * Aof * disk :=
  let '(a, d) := aof_close e a d in
  if negb opened then
    (Some (bs "cannot open AOF " ++ path ++ bs " for appending"), a, d)
  else
    (None,
     mkAof (Some []) path policy [] (last_fsync_ms_ a) (commands_written_ a) (fsyncs_ a)
       (bytes_written_ a),
     d_create path d).

Definition aof_append (args : Args) (a : Aof) : Aof :=
  match file_ a, args with
  | Some _, _ :: _ =>
      mkAof (file_ a) (path_ a) (policy_ a) (buffer_ a ++ encode args) (last_fsync_ms_ a)
        (wrap64 (commands_written_ a + 1)) (fsyncs_ a) (bytes_written_ a)
  | _, _ => a
  end.

Definition count_fsync (now_ms : Z) (a : Aof) : Aof :=
  mkAof (file_ a) (path_ a) (policy_ a) (buffer_ a) now_ms (commands_written_ a)
    (wrap64 (fsyncs_ a + 1)) (bytes_written_ a).

Definition count_bytes (n : nat) (a : Aof) : Aof :=
  mkAof (file_ a) (path_ a) (policy_ a) (buffer_ a) (last_fsync_ms_ a) (commands_written_ a)
    (fsyncs_ a) (wrap64 (bytes_written_ a + Z.of_nat n)).

(** The switch on the policy at the end of [flush]. *)
Definition sync_by_policy (now_ms : Z) (e : stream_env) (a : Aof) (d : disk) : outcome (Aof * disk) :=
  match policy_ a with
  | kAlways => let '(a, d) := fsync_handle e a d in Ret (count_fsync now_ms a, d)
  | kEverySec =>
      since ← sub64 now_ms (last_fsync_ms_ a);
      if 1000 <=? since then
        let '(a, d) := fsync_handle e a d in Ret (count_fsync now_ms a, d)
      else Ret (a, d)
  | kNo => Ret (fflush e a d)
  end.

(** [flush]: the error message of a [false] result, if any. *)
Definition aof_flush (now_ms : Z) (e : stream_env) (a : Aof) (d : disk)
    : outcome (option bytes * Aof * disk) :=
  match file_ a with
  | None => Ret (None, a, d)
  | Some _ =>
      match buffer_ a with
      | [] => '(a, d) ← sync_by_policy now_ms e a d; Ret (None, a, d)
      | _ :: _ =>
          let '(written, a, d) := fwrite e (buffer_ a) a d in
          if negb (Nat.eqb written (length (buffer_ a))) then
            Ret (Some (bs "short write to AOF " ++ path_ a), a, d)
          else
            '(a, d) ← sync_by_policy now_ms e (count_bytes written (clear_buffer a)) d;
            Ret (None, a, d)
      end
  end.

(** The command that recreates a record. *)
Definition record_command (r : KeyRecord) : Args :=
  [bs "SET"; key r; value r] ++
  (if expire_at r =? kNoExpiry then [] else [bs "PXAT"; to_string (expire_at r)]).

(** ** Rewriting *)

(** What the environment decides during a rewrite: whether the temporary file
    can be opened and how many bytes it takes, what closing the log meets,
    whether the old log and the temporary file can be removed, whether the
    rename succeeds, and whether the log can be reopened. *)
Record rewrite_env := mkRewriteEnv {
  temp_opens : bool;
  temp_accepts : nat;
  closes : stream_env;
  removes : bool;
  cleans : bool;
  renames : bool;
  reopens : bool
}.

(** How far a rewrite is: the temporary file is complete, the log is closed, the
    old one removed, the new one in its place.  From [RewriteClosed] on it keeps
    [was_open] and [policy].  [RewriteDone] carries the error message of a
    failure. *)
Inductive rewrite_phase :=
| RewriteStart
| RewriteWritten
| RewriteClosed (was_open : bool) (policy : FsyncPolicy)
| RewriteRemoved (was_open : bool) (policy : FsyncPolicy)
| RewriteRenamed (was_open : bool) (policy : FsyncPolicy)
| RewriteDone (err : option bytes).

Definition rewrite_temp (path : bytes) : bytes := path ++ bs ".rewrite".

Definition rewrite_payload (records : list KeyRecord) : bytes :=
  encode_all (record_command <$> records).

Definition set_commands (n : Z) (a : Aof) : Aof :=
  mkAof (file_ a) (path_ a) (policy_ a) (buffer_ a) (last_fsync_ms_ a) n (fsyncs_ a)
    (bytes_written_ a).

Abbreviation rewriting := (rewrite_phase * Aof * disk)%type.

(** One step, up to the next change of a file.  A rename also fails when there
    is no such file. *)
Definition rewrite_step (env : rewrite_env) (path : bytes) (records : list KeyRecord)
    (x : rewriting) : rewriting :=
  let '(ph, a, d) := x in
  let temp := rewrite_temp path in
  match ph with
  | RewriteStart =>
      if negb (temp_opens env) then (RewriteDone (Some (bs "cannot open " ++ temp)), a, d)
      else
        let payload := rewrite_payload records in
        let d := d_write temp (take (temp_accepts env) payload) d in
        if Nat.ltb (temp_accepts env) (length payload) then
          (RewriteDone (Some (bs "write failed during AOF rewrite")), a, try_remove (cleans env) temp d)
        else (RewriteWritten, a, d)
  | RewriteWritten =>
      let was_open := is_open a in
      let policy := policy_ a in
      let '(a, d) := aof_close (closes env) a d in
      (RewriteClosed was_open policy, a, d)
  | RewriteClosed was_open policy =>
      (RewriteRemoved was_open policy, a, try_remove (removes env) path d)
  | RewriteRemoved was_open policy =>
      if negb (renames env && bool_decide (is_Some (d !! temp))) then
        let d := try_remove (cleans env) temp d in
        let '(a, d) :=
          if was_open then
            let '(_, a, d) := aof_open (closes env) (reopens env) path policy a d in (a, d)
          else (a, d) in
        (RewriteDone (Some (bs "rename failed during AOF rewrite")), a, d)
      else (RewriteRenamed was_open policy, a, d_rename temp path d)
  | RewriteRenamed was_open policy =>
      let a := set_commands (wrap64 (Z.of_nat (length records))) a in
      if was_open then
        let '(err, a, d) := aof_open (closes env) (reopens env) path policy a d in
        (RewriteDone err, a, d)
      else (RewriteDone None, a, d)
  | RewriteDone err => (RewriteDone err, a, d)
  end.

Fixpoint rewrite_steps (n : nat) (env : rewrite_env) (path : bytes) (records : list KeyRecord)
    (x : rewriting) : rewriting :=
  match n with
  | O => x
  | S n' => rewrite_steps n' env path records (rewrite_step env path records x)
  end.

Definition rewrite_error (ph : rewrite_phase) : option bytes :=
  match ph with RewriteDone err => err | _ => None end.

(** The whole function, run to its end ([rewrite_steps_done]). *)
Definition aof_rewrite (env : rewrite_env) (path : bytes) (records : list KeyRecord)
    (a : Aof) (d : disk) : option bytes * Aof * disk :=
  let '(ph, a, d) := rewrite_steps 5 env path records (RewriteStart, a, d) in
  (rewrite_error ph, a, d).

(** ** Replay *)

Section Replay.
Context {W : Type}.
Variable apply : Args → W → outcome W.

(** The loop: the state, the number of commands applied and of bytes
    discarded, and the message if the log is corrupt. *)
Fixpoint replay_loop (fuel : nat) (total : nat) (remaining : bytes) (applied : Z) (w : W)
    : outcome (W * Z * nat * option bytes) :=
  match remaining with
  | [] => Ret (w, applied, 0%nat, None)
  | _ :: _ =>
      match fuel with
      | O => NoFuel
      | S fuel' =>
          let result := parse_request remaining in
          match status result with
          | kIncomplete => Ret (w, applied, length remaining, None)
          | kError =>
              Ret (w, applied, 0%nat,
                Some (bs "corrupt AOF at offset " ++
                      to_string (Z.of_nat (total - length remaining)) ++ bs ": " ++ error result))
          | kOk =>
              let rest := drop (consumed result) remaining in
              match args result with
              | [] => replay_loop fuel' total rest applied w
              | _ :: _ =>
                  w ← apply (args result) w;
                  replay_loop fuel' total rest (wrap64 (applied + 1)) w
              end
          end
      end
  end.

(** A missing log is an empty one. *)
Definition replay (d : disk) (path : bytes) (w : W) : outcome (W * Z * nat * option bytes) :=
  match d !! path with
  | None => Ret (w, 0, 0%nat, None)
  | Some f => replay_loop (length (cached f)) (length (cached f)) (cached f) 0 w
  end.

End Replay.
