(* ===== verification/AofTheorems.v ===== *)
(** * Correctness of the append-only file

    As long as the calls on the stream take what they are given, nothing is lost
    or reordered on the way to the file; whatever survives a crash replays to a
    prefix of the commands that were logged; a synced log survives a power cut
    whole.  Where the code departs from this -- a sync that fails, a short
    write, a torn tail that is appended to -- is shown as well. *)

From S2P Require Import Prelude Resp Store Commands Encode Files Aof.

(** ** The log: what has been appended, wherever it is *)

Definition in_stream (a : Aof) : bytes := default [] (file_ a).

Definition log (a : Aof) (d : disk) : bytes :=
  contents_of d (path_ a) ++ in_stream a ++ buffer_ a.

(** An open log whose file exists. *)
Definition aof_ready (a : Aof) (d : disk) : Prop :=
  is_Some (file_ a) ∧ is_Some (d !! path_ a).

(** The calls take all that the log still has to write. *)
Definition takes_all (e : stream_env) (a : Aof) : Prop :=
  (length (buffer_ a) ≤ accepts e)%nat ∧ (length (in_stream a ++ buffer_ a) ≤ flushes e)%nat.

(** What can happen to an open log: a command is appended, the buffer is
    flushed and written whole, or the stream has written some of its bytes. *)
Inductive aof_step : Aof → disk → list Args → Aof → disk → Prop :=
| step_append args a d :
    args ≠ [] → aof_step a d [args] (aof_append args a) d
| step_flush now e a d err a' d' :
    takes_all e a → aof_flush now e a d = Ret (err, a', d') → aof_step a d [] a' d'
| step_spill a d p q :
    file_ a = Some (p ++ q) →
    aof_step a d [] (set_stream a (Some q) (buffer_ a)) (d_append (path_ a) p d).

Inductive aof_steps : Aof → disk → list Args → Aof → disk → Prop :=
| steps_nil a d : aof_steps a d [] a d
| steps_cons a d c1 a1 d1 c2 a2 d2 :
    aof_step a d c1 a1 d1 → aof_steps a1 d1 c2 a2 d2 → aof_steps a d (c1 ++ c2) a2 d2.

Lemma encode_all_app c1 c2 : encode_all (c1 ++ c2) = encode_all c1 ++ encode_all c2.
Proof.
  unfold encode_all. rewrite fmap_app. induction (encode <$> c1) as [|x l IH]; [done|].
  cbn [app]. rewrite !mjoin_cons, IH. by rewrite app_assoc.
Qed.

Lemma encode_all_cons a cmds : encode_all (a :: cmds) = encode a ++ encode_all cmds.
Proof. done. Qed.

Lemma lookup_append_is_Some d p q x : is_Some (d !! q) → is_Some (d_append p x d !! q).
Proof. intros H. unfold d_append. by rewrite lookup_alter_is_Some. Qed.

(** The stream of [a] was given [x], and has passed some of its bytes on. *)
Record passes_on (a : Aof) (d : disk) (x : bytes) (a' : Aof) (d' : disk) : Prop := {
  po_ready : aof_ready a' d';
  po_path : path_ a' = path_ a;
  po_policy : policy_ a' = policy_ a;
  po_buffer : buffer_ a' = buffer_ a;
  po_bytes :
    contents_of d' (path_ a) ++ in_stream a' = contents_of d (path_ a) ++ in_stream a ++ x;
  po_grows : contents_of d (path_ a) `prefix_of` contents_of d' (path_ a)
}.

Lemma passes_on_log a d a' d' : passes_on a d [] a' d' → log a' d' = log a d.
Proof.
  intros [_ Hp _ Hb Hx _]. unfold log. rewrite Hp, Hb, !app_assoc, Hx. by rewrite app_nil_r.
Qed.

(** Part of what is held goes to the end of the file. *)
Lemma passes_on_append a d pending x n :
  file_ a = Some pending → is_Some (d !! path_ a) →
  passes_on a d x (set_stream a (Some (drop n (pending ++ x))) (buffer_ a))
    (d_append (path_ a) (take n (pending ++ x)) d).
Proof.
  intros Hp Hd. split; try done.
  - by split; [eexists|apply lookup_append_is_Some].
  - unfold in_stream. cbn. rewrite Hp, contents_append by done. cbn. by rewrite <- app_assoc, take_drop.
  - rewrite contents_append by done. by apply prefix_app_r.
Qed.

Lemma fwrite_passes_on e x a d n a' d' :
  fwrite e x a d = (n, a', d') → aof_ready a d →
  n = Nat.min (accepts e) (length x) ∧ passes_on a d (take n x) a' d' ∧
  (length (in_stream a') ≤ length (in_stream a ++ x))%nat.
Proof.
  unfold fwrite. intros H [[p Hp] Hd]. rewrite Hp in H. injection H as <- <- <-.
  split; [done|]. split; [by apply passes_on_append|].
  unfold in_stream. cbn. rewrite Hp. cbn. rewrite length_drop, !length_app, length_take. lia.
Qed.

(** A flush of the stream that gets through. *)
Lemma fflush_passes_on e a d a' d' :
  fflush e a d = (a', d') → aof_ready a d → (length (in_stream a) ≤ flushes e)%nat →
  passes_on a d [] a' d' ∧ in_stream a' = [].
Proof.
  unfold fflush. intros H [[p Hp] Hd] Hn. unfold in_stream in Hn. rewrite Hp in H, Hn. cbn in Hn.
  assert (drop (flushes e) p = []) as Hdrop by (by apply drop_ge).
  assert ((if keeps e then drop (flushes e) p else []) = drop (flushes e) (p ++ [])) as E
    by (rewrite app_nil_r, Hdrop; by destruct (keeps e)).
  rewrite E in H. rewrite <- (app_nil_r p) in H at 2. injection H as <- <-.
  split; [by apply passes_on_append|]. unfold in_stream. cbn. by rewrite app_nil_r, Hdrop.
Qed.

Lemma sync_passes_on a d a' d' (b : bool) :
  passes_on a d [] a' d' → passes_on a d [] a' (if b then d_sync (path_ a') d' else d').
Proof.
  destruct b; [|done]. intros [[Hf Hd] Hp Hpol Hb Hx Hg]. split; try done; rewrite ?contents_sync; try done.
  split; [done|]. unfold d_sync. by rewrite lookup_alter_is_Some.
Qed.

Lemma fsync_passes_on e a d a' d' :
  fsync_handle e a d = (a', d') → aof_ready a d → (length (in_stream a) ≤ flushes e)%nat →
  passes_on a d [] a' d' ∧ in_stream a' = [] ∧
  (syncs e = true → ∃ f, d' !! path_ a = Some f ∧ synced f = length (cached f)).
Proof.
  unfold fsync_handle. intros H Hr Hn. pose proof Hr as [[p Hp] _]. rewrite Hp in H.
  destruct (fflush e a d) as [a1 d1] eqn:E. injection H as <- <-.
  apply fflush_passes_on in E as [E Hs]; [|done..]. split; [by apply sync_passes_on|]. split; [done|].
  intros ->. destruct E as [[_ [f Hf]] Hpath _ _ _ _]. rewrite <- Hpath. unfold d_sync.
  rewrite lookup_alter_eq, Hf. by eexists.
Qed.

(** Whether or not the policy asks for it. *)
Lemma sync_by_policy_passes_on now e a d a' d' :
  sync_by_policy now e a d = Ret (a', d') → aof_ready a d → (length (in_stream a) ≤ flushes e)%nat →
  passes_on a d [] a' d'.
Proof.
  unfold sync_by_policy. intros H Hr Hn.
  assert (passes_on a d [] a d) as Hid by (split; try done; by rewrite app_nil_r).
  assert (∀ a1 d1 now, fsync_handle e a d = (a1, d1) → passes_on a d [] (count_fsync now a1) d1) as Hsync.
  { intros a1 d1 now' E. by apply fsync_passes_on in E as [[? ? ? ? ? ?] _]. }
  destruct (policy_ a).
  - destruct (fsync_handle e a d) eqn:E. injection H as <- <-. by apply Hsync.
  - apply bind_Ret in H as (since & _ & H). destruct (_ <=? _); [|by injection H as <- <-].
    destruct (fsync_handle e a d) eqn:E. injection H as <- <-. by apply Hsync.
  - destruct (fflush e a d) eqn:E. injection H as <- <-. by eapply fflush_passes_on.
Qed.

(** The buffer after [fwrite] has taken it. *)
Lemma fwrite_clears e a d n a' d' :
  fwrite e (buffer_ a) a d = (n, a', d') → aof_ready a d → (length (buffer_ a) ≤ accepts e)%nat →
  n = length (buffer_ a) ∧ aof_ready (clear_buffer a') d' ∧ path_ a' = path_ a ∧ buffer_ a' = buffer_ a ∧
  policy_ a' = policy_ a ∧ log (clear_buffer a') d' = log a d ∧
  contents_of d (path_ a) `prefix_of` contents_of d' (path_ a) ∧
  (length (in_stream a') ≤ length (in_stream a ++ buffer_ a))%nat.
Proof.
  intros H Hr Ha. apply fwrite_passes_on in H as (-> & [Hr' Hp Hpol Hb Hx Hg] & Hlen); [|done].
  rewrite Nat.min_r, firstn_all in * by done. split_and!; try done.
  unfold log. cbn. rewrite Hp, app_nil_r. exact Hx.
Qed.

(** A flush that takes all of the buffer. *)
Lemma aof_flush_whole t e a d err a' d' :
  aof_flush t e a d = Ret (err, a', d') → aof_ready a d → takes_all e a →
  err = None ∧ aof_ready a' d' ∧ path_ a' = path_ a ∧ log a' d' = log a d ∧ buffer_ a' = [] ∧
  contents_of d (path_ a) `prefix_of` contents_of d' (path_ a).
Proof.
  intros H Hr [Ha Hfl]. pose proof Hr as [[pending Hf] Hd]. unfold aof_flush in H. rewrite Hf in H.
  destruct (buffer_ a) as [|c buf] eqn:Eb.
  - apply bind_Ret in H as ([a1 d1] & H & [= <- <- <-]). rewrite app_nil_r in Hfl.
    apply sync_by_policy_passes_on in H as H'; [|done..]. pose proof (passes_on_log _ _ _ _ H').
    destruct H' as [? ? ? Hb ? ?]. by rewrite Eb in Hb.
  - rewrite <- Eb in *. destruct (fwrite e (buffer_ a) a d) as [[n a1] d1] eqn:E.
    destruct (fwrite_clears _ _ _ _ _ _ E Hr Ha) as (-> & Hr1 & Hp1 & Hb1 & _ & Hl1 & Hg1 & Hn1).
    rewrite Hb1, Nat.eqb_refl in H. cbn [negb] in H. apply bind_Ret in H as ([a2 d2] & H & [= <- <- <-]).
    apply sync_by_policy_passes_on in H as H'; [|done|exact (Nat.le_trans _ _ _ Hn1 Hfl)].
    pose proof (passes_on_log _ _ _ _ H') as Hl2. destruct H' as [Hr2 Hp2 _ Hb2 _ Hg2]. cbn in Hp2, Hb2, Hg2.
    rewrite Hp1 in *. split_and!; try done; [by rewrite Hl2|by etrans].
Qed.

Lemma takes_all_later e a d a' d' :
  takes_all e a → path_ a' = path_ a → log a' d' = log a d → buffer_ a' = [] →
  contents_of d (path_ a) `prefix_of` contents_of d' (path_ a) → takes_all e a'.
Proof.
  intros [_ Hf] Hp Hl Hb [x Hx]. apply (f_equal length) in Hl, Hx. unfold log in Hl.
  rewrite Hp in Hl. rewrite !length_app in *. unfold takes_all. rewrite length_app, Hb in *. cbn in *. lia.
Qed.

Lemma aof_step_log a d cmds a' d' :
  aof_step a d cmds a' d' → aof_ready a d →
  aof_ready a' d' ∧ path_ a' = path_ a ∧ log a' d' = log a d ++ encode_all cmds.
Proof.
  intros Hs Hr. pose proof Hr as [[p Hp] Hd]. destruct Hs as [args a d Hne|now e a d err a' d' Hall H|a d p1 q1 Hf].
  - unfold aof_append. rewrite Hp. destruct args as [|x args]; [done|].
    split; [by split; [eexists|]|]. split; [done|]. unfold log, in_stream. cbn [path_ file_ buffer_].
    unfold encode_all. cbn [fmap list_fmap]. rewrite mjoin_cons, app_nil_r, Hp. by rewrite <- !app_assoc.
  - rewrite app_nil_r. by destruct (aof_flush_whole _ _ _ _ _ _ _ H Hr Hall) as (_ & ? & ? & ? & _).
  - rewrite app_nil_r. split; [split; [by eexists|by apply lookup_append_is_Some]|]. split; [done|].
    unfold log, in_stream. cbn. rewrite Hf, contents_append by done. cbn. by rewrite <- !app_assoc.
Qed.

Lemma aof_steps_log a d cmds a' d' :
  aof_steps a d cmds a' d' → aof_ready a d →
  aof_ready a' d' ∧ path_ a' = path_ a ∧ log a' d' = log a d ++ encode_all cmds.
Proof.
  induction 1 as [a d|a d c1 a1 d1 c2 a2 d2 H1 H2 IH]; intros Hr.
  { split; [done|]. split; [done|]. by rewrite app_nil_r. }
  apply aof_step_log in H1 as (Hr1 & Hp1 & Hl1); [|done].
  destruct (IH Hr1) as (Hr2 & Hp2 & Hl2). split; [done|]. split; [congruence|].
  by rewrite Hl2, Hl1, encode_all_app, app_assoc.
Qed.

(** ** Replaying a prefix of a log *)

Section Replay.
Context {W : Type}.
Variable apply : Args → W → outcome W.

Fixpoint apply_all (cmds : list Args) (w : W) : outcome W :=
  match cmds with
  | [] => Ret w
  | a :: cmds => w ← apply a w; apply_all cmds w
  end.

Lemma encode_length a : (4 ≤ length (encode a))%nat.
Proof.
  unfold encode. rewrite header_line, length_app. unfold line. cbn [length]. rewrite length_app.
  destruct (dec_nonneg_cons (Z.of_nat (length a))) as (c & ds & ->); [lia|].
  cbn [length]. change (length crlf) with 2%nat. lia.
Qed.

(** Whole commands followed by a torn one, which parses as incomplete. *)
Lemma replay_commands cmds torn fuel total n w :
  Forall encodable cmds → (torn = [] ∨ parse_request torn = incomplete) →
  (length (encode_all cmds ++ torn) ≤ fuel)%nat → 0 ≤ n → n + Z.of_nat (length cmds) < 2 ^ 64 →
  replay_loop apply fuel total (encode_all cmds ++ torn) n w =
    (w ← apply_all cmds w; Ret (w, n + Z.of_nat (length cmds), length torn, None)).
Proof.
  intros Hc Ht. revert fuel n w. induction Hc as [|a cmds Ha Hc IH]; intros fuel n w Hf Hn Hmax.
  { change (encode_all [] ++ torn) with torn in *. cbn [apply_all mbind outcome_bind].
    change (Z.of_nat (length [])) with 0. rewrite Z.add_0_r.
    destruct torn as [|c torn]; [by destruct fuel|]. destruct Ht as [|Ht]; [done|].
    destruct fuel; [cbn in Hf; lia|]. cbn [replay_loop]. by rewrite Ht. }
  rewrite encode_all_cons, <- app_assoc in *. rewrite length_app in Hf. pose proof (encode_length a).
  destruct (encode a ++ encode_all cmds ++ torn) as [|c s] eqn:Es.
  { apply (f_equal length) in Es. rewrite length_app in Es. change (length []) with 0%nat in Es. lia. }
  destruct fuel as [|fuel]; [lia|]. cbn [replay_loop]. rewrite <- Es.
  rewrite parse_encoded by done. cbn [status args consumed parsed].
  rewrite drop_app_length. destruct Ha as (Hne & _). destruct a as [|x a]; [done|].
  cbn [apply_all length]. destruct (apply (x :: a) w) as [w1| |]; [|done..]. cbn [mbind outcome_bind].
  unfold wrap64. rewrite Z.mod_small by (cbn [length] in Hmax; lia). rewrite IH by (cbn [length] in *; lia).
  by replace (n + 1 + Z.of_nat (length cmds)) with (n + Z.of_nat (S (length cmds))) by lia.
Qed.

(** Every prefix of a log is some of its commands, and a torn one. *)
Lemma log_prefix cmds p q :
  Forall encodable cmds → encode_all cmds = p ++ q →
  ∃ n torn, p = encode_all (take n cmds) ++ torn ∧
    (torn = [] ∨ parse_request torn = incomplete) ∧ (n ≤ length cmds)%nat ∧ (q = [] → n = length cmds).
Proof.
  intros Hc. revert p. induction Hc as [|a cmds Ha Hc IH]; intros p E.
  { exists 0%nat, []. destruct p; [|done]. split_and!; auto. }
  rewrite encode_all_cons in E. destruct (prefix_split _ _ _ _ E) as [(r & Hr & Ep)|(p' & -> & E')].
  - exists 0%nat, p. split; [done|]. split; [right; by eapply parse_prefix|]. split; [lia|].
    intros ->. rewrite app_nil_r in E. subst p. apply (f_equal length) in Ep. rewrite !length_app in Ep.
    destruct r; [done|]. cbn [length] in Ep. lia.
  - destruct (IH _ E') as (n & torn & -> & Ht & Hn & Hq). exists (S n), torn.
    split; [by rewrite app_assoc|]. split; [done|]. cbn [length]. split; [lia|].
    intros Hz. by rewrite (Hq Hz).
Qed.

End Replay.

(** ** Properties *)

(** The encoding round trip.  A command within the parser's limits is read
    back exactly, whatever follows it, and every proper prefix of it is
    incomplete: never an error, never another command. *)
Theorem encode_roundtrip (a : Args) (rest p q : bytes) :
  encodable a →
  parse_request (encode a ++ rest) = parsed (length (encode a)) a ∧
  (encode a = p ++ q → q ≠ [] → parse_request p = incomplete).
Proof. intros Ha. split; [by apply parse_encoded|by apply parse_prefix]. Qed.

(** A crash loses a suffix and nothing else.  However appends, flushes and
    early writes of the stream interleave, the file left by a crash of the
    process replays to the first commands of the log, in order, and reports as
    discarded the bytes of one command that was being written. *)
Theorem aof_crash_prefix {W} (apply : Args → W → outcome W) a d old cmds a' d' w :
  aof_ready a d → log a d = encode_all old → Forall encodable (old ++ cmds) →
  Z.of_nat (length (old ++ cmds)) < 2 ^ 64 →
  aof_steps a d cmds a' d' →
  ∃ n torn, (n ≤ length (old ++ cmds))%nat ∧
    contents_of d' (path_ a) = encode_all (take n (old ++ cmds)) ++ torn ∧
    replay apply d' (path_ a) w =
      (w ← apply_all apply (take n (old ++ cmds)) w; Ret (w, Z.of_nat n, length torn, None)).
Proof.
  intros Hr Hold Henc Hmax Hs.
  destruct (aof_steps_log _ _ _ _ _ Hs Hr) as ([_ [f Hf]] & Hp & Hlog).
  rewrite Hold, <- encode_all_app in Hlog. unfold log in Hlog. symmetry in Hlog.
  destruct (log_prefix _ _ _ Henc Hlog) as (n & torn & Hc & Ht & Hn & _).
  exists n, torn. rewrite Hp in *. split; [done|]. split; [done|]. unfold replay. rewrite Hf.
  assert (contents_of d' (path_ a) = cached f) as Hcf by (unfold contents_of; by rewrite Hf).
  rewrite Hcf in Hc. rewrite Hc.
  rewrite replay_commands; [|by apply Forall_take|done|done|done|rewrite length_take; lia].
  by rewrite length_take, Nat.min_l, Z.add_0_l by done.
Qed.





(** With the policy [everysec], a flush that is not yet due to sync writes
    no more to the file than [fwrite] passes on: the commands are still inside
    the process, where its crash loses them. *)
Theorem everysec_keeps_in_process now e a d pending :
  file_ a = Some pending → policy_ a = kEverySec → (length (buffer_ a) ≤ accepts e)%nat → spills e = 0%nat →
  0 ≤ last_fsync_ms_ a ≤ now → now < last_fsync_ms_ a + 1000 → now ≤ int64_max →
  ∃ a' d', aof_flush now e a d = Ret (None, a', d') ∧ contents_of d' (path_ a) = contents_of d (path_ a) ∧
    file_ a' = Some (pending ++ buffer_ a) ∧ buffer_ a' = [].
Proof.
  intros Hf Hp Hacc Hsp Hl Hn Hmax. unfold aof_flush. rewrite Hf.
  assert (∀ a0 d0, policy_ a0 = kEverySec → last_fsync_ms_ a0 = last_fsync_ms_ a →
    sync_by_policy now e a0 d0 = Ret (a0, d0)) as Hsync.
  { intros a0 d0 Hp0 Hl0. unfold sync_by_policy. rewrite Hp0, Hl0. unfold sub64, checked64.
    rewrite (proj2 (in_int64_spec _)) by (unfold int64_min, int64_max in *; lia).
    cbn [mbind outcome_bind]. by destruct (Z.leb_spec 1000 (now - last_fsync_ms_ a)); [lia|]. }
  destruct (buffer_ a) as [|c buf] eqn:Eb.
  - rewrite Hsync by done. exists a, d. by rewrite app_nil_r.
  - rewrite <- Eb in *. unfold fwrite. rewrite Hf, Hsp, Nat.min_r by done. cbn [buffer_ set_stream].
    rewrite Nat.eqb_refl, firstn_all. cbn [negb take drop]. rewrite Hsync by done. eexists _, _. split; [done|].
    split_and!; try done. unfold contents_of, d_append. rewrite lookup_alter_eq.
    destruct (d !! path_ a); [|done]. cbn. by rewrite app_nil_r.
Qed.

(** A short write corrupts the log.  [flush] reports it but keeps the whole
    buffer, so the accepted bytes are in the log a second time, and the next
    flush writes them out. *)
Theorem short_write_duplicates now e a d :
  aof_ready a d → (accepts e < length (buffer_ a))%nat →
  ∃ msg a1 d1, aof_flush now e a d = Ret (Some msg, a1, d1) ∧
    log a1 d1 = contents_of d (path_ a) ++ in_stream a ++ take (accepts e) (buffer_ a) ++ buffer_ a ∧
    ∀ now2 e2 err a2 d2, takes_all e2 a1 → aof_flush now2 e2 a1 d1 = Ret (err, a2, d2) →
      err = None ∧ log a2 d2 = log a1 d1.
Proof.
  intros Hr Hn. unfold aof_flush at 1. pose proof Hr as [[p Hp] _]. rewrite Hp.
  destruct (buffer_ a) as [|c buf] eqn:Eb; [cbn in Hn; lia|]. rewrite <- Eb in *.
  destruct (fwrite e (buffer_ a) a d) as [[n a1] d1] eqn:E.
  apply fwrite_passes_on in E as (-> & [Hr1 Hp1 _ Hb1 Hx _] & _); [|done]. rewrite Nat.min_l in * by lia.
  rewrite Hb1, (proj2 (Nat.eqb_neq _ _)) by lia. cbn [negb]. eexists _, a1, d1. split; [done|]. split.
  - unfold log. rewrite Hp1, Hb1, app_assoc, Hx. by rewrite <- !app_assoc.
  - intros now2 e2 err a2 d2 Hall H. by destruct (aof_flush_whole _ _ _ _ _ _ _ H Hr1 Hall) as (? & _ & _ & ? & _).
Qed.

(** ** A torn tail is appended to *)

Definition set_kv : Args := [bs "SET"; bs "k"; bs "v"].

(** A stream that takes a thousand bytes and passes none of them on early. *)
Definition good_stream : stream_env := mkStreamEnv 1000 0 1000 true true 1000.

(** A log whose last command was cut off before its last value. *)
Definition torn_log : disk :=
  {[ bs "aof" := mkFile (take 24 (encode set_kv)) 0 ]}.

(** Restart: the stream is opened for appending on the torn file, a command is
    logged and synced. *)
Definition after_restart : Aof * disk :=
  let '(_, a, d) := aof_open good_stream true (bs "aof") kAlways new_aof torn_log in
  let a := aof_append set_kv a in
  match aof_flush 1000 good_stream a d with Ret (_, a, d) => (a, d) | _ => (a, d) end.

(** Counting commands instead of applying them. *)
Definition count_apply (_ : Args) (n : nat) : outcome nat := Ret (S n).

(** Replay accepts a torn tail and leaves it in the file, and the log is
    then appended to; so the first command logged after the restart, although
    synced to disk, is not there for the next restart, which finds the log
    corrupt. *)
Theorem torn_tail_poisons_log :
  (∃ w, replay count_apply torn_log (bs "aof") 0%nat = Ret (w, 0, 24%nat, None)) ∧
  (∃ w msg, replay count_apply after_restart.2 (bs "aof") 0%nat = Ret (w, 0, 0%nat, Some msg)).
Proof. split; [eexists; vm_compute; reflexivity|]. eexists _, _. vm_compute. reflexivity. Qed.

(** ** Witnesses *)

Lemma set_kv_encodable : encodable set_kv.
Proof.
  split; [done|]. split; [vm_compute; discriminate|].
  repeat (apply Forall_cons_2; [vm_compute; discriminate|]). apply Forall_nil_2.
Qed.

Lemma encode_roundtrip_witness :
  parse_request (take 10 (encode set_kv)) = incomplete.
Proof.
  apply (encode_roundtrip set_kv [] (take 10 (encode set_kv)) (drop 10 (encode set_kv)) set_kv_encodable).
  - by rewrite take_drop.
  - vm_compute. discriminate.
Defined.

Definition open_aof (policy : FsyncPolicy) : Aof := mkAof (Some []) (bs "aof") policy [] 0 0 0 0.
Definition empty_log : disk := {[ bs "aof" := mkFile [] 0 ]}.

Lemma open_aof_ready policy : aof_ready (open_aof policy) empty_log.
Proof. split; by eexists. Qed.

(** Two commands appended, the stream has written the first ten bytes. *)
Definition logged (policy : FsyncPolicy) : Aof :=
  aof_append set_kv (aof_append set_kv (open_aof policy)).

Lemma aof_crash_prefix_witness :
  ∃ n torn, (n ≤ 2)%nat ∧ contents_of empty_log (bs "aof") = encode_all (take n [set_kv; set_kv]) ++ torn ∧
    replay count_apply empty_log (bs "aof") 0%nat =
      (w ← apply_all count_apply (take n [set_kv; set_kv]) 0%nat; Ret (w, Z.of_nat n, length torn, None)).
Proof.
  apply (aof_crash_prefix count_apply (open_aof kNo) empty_log [] [set_kv; set_kv] (logged kNo) empty_log).
  - apply open_aof_ready.
  - done.
  - repeat (apply Forall_cons_2; [exact set_kv_encodable|]). apply Forall_nil_2.
  - done.
  - eapply (steps_cons _ _ [set_kv]); [by apply step_append|].
    eapply (steps_cons _ _ [set_kv]); [by apply step_append|]. apply steps_nil.
Defined.


Lemma everysec_keeps_in_process_witness :
  ∃ a' d', aof_flush 900 good_stream (logged kEverySec) empty_log = Ret (None, a', d') ∧
    contents_of d' (bs "aof") = [] ∧ file_ a' = Some (buffer_ (logged kEverySec)) ∧ buffer_ a' = [].
Proof.
  apply (everysec_keeps_in_process 900 good_stream (logged kEverySec) empty_log []); try done; cbn; try lia.
  apply Nat.leb_le. vm_compute. reflexivity.
Defined.

Lemma short_write_duplicates_witness :
  ∃ msg a1 d1,
    aof_flush 5 (mkStreamEnv 3 0 1000 true true 1000) (logged kNo) empty_log = Ret (Some msg, a1, d1) ∧
    log a1 d1 = bs "*3" ++ [CR] ++ buffer_ (logged kNo).
Proof.
  destruct (short_write_duplicates 5 (mkStreamEnv 3 0 1000 true true 1000) (logged kNo) empty_log)
    as (msg & a1 & d1 & H & Hl & _).
  - split; by eexists.
  - apply Nat.ltb_lt. vm_compute. reflexivity.
  - exists msg, a1, d1. split; [exact H|]. rewrite Hl. reflexivity.
Defined.
