(* ===== verification/AofRewrite.v ===== *)
(** * Rewriting the append-only file, interrupted anywhere

    A rewrite writes a new log beside the old one, closes the old one, removes
    it and renames the new one into its place.  What the file is between any two
    of these calls is what a crash leaves: the old log, perhaps with more of what
    was still to be written to it, or the complete new one -- or none, between
    the removal and the rename. *)

From S2P Require Import Prelude Resp Store Commands Encode Files Aof AofTheorems.

(** ** What the log's calls leave alone *)

(** The files other than the log's, and the log's name. *)
Definition leaves (q : bytes) (a : Aof) (d : disk) (a' : Aof) (d' : disk) : Prop :=
  path_ a' = path_ a ∧ (path_ a ≠ q → d' !! q = d !! q).

Lemma leaves_trans q a d a1 d1 a2 d2 :
  leaves q a d a1 d1 → leaves q a1 d1 a2 d2 → leaves q a d a2 d2.
Proof. intros [E1 H1] [E2 H2]. split; [congruence|]. intros Hq. rewrite H2 by congruence. by apply H1. Qed.

Lemma fwrite_leaves e x a d n a' d' q : fwrite e x a d = (n, a', d') → leaves q a d a' d'.
Proof.
  unfold fwrite. destruct (file_ a); intros [= <- <- <-]; split; try done. intros. by apply lookup_append_ne.
Qed.

Lemma fflush_leaves e a d a' d' q : fflush e a d = (a', d') → leaves q a d a' d'.
Proof.
  unfold fflush. destruct (file_ a); intros [= <- <-]; split; try done. intros. by apply lookup_append_ne.
Qed.

Lemma fsync_leaves e a d a' d' q : fsync_handle e a d = (a', d') → leaves q a d a' d'.
Proof.
  unfold fsync_handle. destruct (file_ a); [|by intros [= <- <-]].
  destruct (fflush e a d) as [a1 d1] eqn:E. apply (fflush_leaves _ _ _ _ _ q) in E as [Ep Ed].
  intros [= <- <-]. split; [done|]. intros Hq. destruct (syncs e); [rewrite lookup_sync_ne by congruence|]; by apply Ed.
Qed.

Lemma fclose_leaves e a d a' d' q : fclose e a d = (a', d') → leaves q a d a' d' ∧ file_ a' = None.
Proof.
  unfold fclose. destruct (file_ a) eqn:Ef; intros [= <- <-]; (split; [split|]); try done.
  intros. by apply lookup_append_ne.
Qed.

Lemma aof_close_leaves e a d a' d' q : aof_close e a d = (a', d') → leaves q a d a' d' ∧ file_ a' = None.
Proof.
  unfold aof_close. destruct (file_ a) as [p|] eqn:Ef; [|by intros [= <- <-]].
  assert (∃ a1 d1, match buffer_ a with
      | [] => (a, d) | _ :: _ => let '(_, a, d) := fwrite e (buffer_ a) a d in (clear_buffer a, d) end = (a1, d1) ∧
    leaves q a d a1 d1) as (a1 & d1 & -> & H1).
  { destruct (buffer_ a) eqn:Eb; [by eexists _, _|]. rewrite <- Eb.
    destruct (fwrite _ _ _ _) as [[n a1] d1] eqn:E. apply (fwrite_leaves _ _ _ _ _ _ _ q) in E. by eexists _, _. }
  destruct (fsync_handle e a1 d1) as [a2 d2] eqn:E2. apply (fsync_leaves _ _ _ _ _ q) in E2.
  intros [H3 Hf]%(fclose_leaves _ _ _ _ _ q). split; [|done]. eauto using leaves_trans.
Qed.

Lemma aof_open_leaves e opened path policy a d err a' d' q :
  aof_open e opened path policy a d = (err, a', d') → path_ a ≠ q → path ≠ q →
  d' !! q = d !! q ∧ path_ a' ≠ q.
Proof.
  unfold aof_open. intros H Hq Hp. destruct (aof_close e a d) as [a1 d1] eqn:E.
  apply (aof_close_leaves _ _ _ _ _ q) in E as [[Ea Ed] _]. specialize (Ed Hq). destruct opened; cbn in H; simplify_eq.
  - split; [|done]. rewrite <- Ed. unfold d_create. destruct (d1 !! path); [done|]. by rewrite lookup_insert_ne.
  - split; [done|]. by rewrite Ea.
Qed.

(** ** Closing *)

(** When the calls take it all, all of the log is in the file. *)
Lemma aof_close_whole e a d a' d' :
  aof_close e a d = (a', d') → aof_ready a d → takes_all e a →
  is_Some (d' !! path_ a) ∧ contents_of d' (path_ a) = log a d.
Proof.
  unfold aof_close. intros H Hr [Ha Hfl]. pose proof Hr as [[p Hp] _]. rewrite Hp in H.
  assert (∃ a1 d1, match buffer_ a with
      | [] => (a, d) | _ :: _ => let '(_, a, d) := fwrite e (buffer_ a) a d in (clear_buffer a, d) end = (a1, d1) ∧
    aof_ready a1 d1 ∧ path_ a1 = path_ a ∧ buffer_ a1 = [] ∧ log a1 d1 = log a d ∧
    (length (in_stream a1) ≤ flushes e)%nat) as (a1 & d1 & E1 & Hr1 & Hp1 & Hb1 & Hl1 & Hn1).
  { destruct (buffer_ a) eqn:Eb; [rewrite app_nil_r in Hfl; by eexists _, _|]. rewrite <- Eb in *.
    destruct (fwrite _ _ _ _) as [[n a1] d1] eqn:E.
    destruct (fwrite_clears _ _ _ _ _ _ E Hr Ha) as (_ & ? & ? & _ & _ & ? & _ & Hn).
    eexists _, _. split_and!; try done. exact (Nat.le_trans _ _ _ Hn Hfl). }
  rewrite E1 in H. destruct (fsync_handle e a1 d1) as [a2 d2] eqn:E2.
  apply fsync_passes_on in E2 as ([[[p2 Hp2] Hd2] Hpa2 _ Hb2 Hx2 _] & Hs2 & _); [|done..].
  unfold fclose in H. rewrite Hp2 in H. unfold in_stream in Hs2. rewrite Hp2 in Hs2. cbn in Hs2. subst p2.
  rewrite take_nil in H. injection H as <- <-. rewrite Hpa2, Hp1 in *.
  split; [by apply lookup_append_is_Some|]. rewrite contents_append, app_nil_r by done.
  unfold in_stream in Hx2. rewrite Hp2 in Hx2. cbn in Hx2. rewrite !app_nil_r in Hx2. rewrite Hx2, <- Hl1.
  unfold log. by rewrite Hb1, app_nil_r, Hp1.
Qed.

(** ** The steps of a rewrite *)

Lemma rewrite_temp_ne path : rewrite_temp path ≠ path.
Proof. unfold rewrite_temp. intros E%(f_equal length). rewrite length_app in E. cbn in E. lia. Qed.

(** Each step leads to a later phase, and five are enough. *)
Definition rewrite_left (ph : rewrite_phase) : nat :=
  match ph with
  | RewriteStart => 5
  | RewriteWritten => 4
  | RewriteClosed _ _ => 3
  | RewriteRemoved _ _ => 2
  | RewriteRenamed _ _ => 1
  | RewriteDone _ => 0
  end.

Lemma rewrite_step_left env path records x :
  (rewrite_left (rewrite_step env path records x).1.1 ≤ pred (rewrite_left x.1.1))%nat.
Proof.
  destruct x as [[[| |was_open policy|was_open policy|was_open policy|err] a] d]; cbn [rewrite_step];
    repeat case_match; simplify_eq; cbn; lia.
Qed.

Lemma rewrite_steps_done env path records a d :
  ∃ err a' d', rewrite_steps 5 env path records (RewriteStart, a, d) = (RewriteDone err, a', d').
Proof.
  assert (∀ n x, (rewrite_left x.1.1 ≤ n)%nat → rewrite_left (rewrite_steps n env path records x).1.1 = 0%nat) as H.
  { intros n. induction n as [|n IH]; intros x Hx; cbn [rewrite_steps]; [lia|]. apply IH.
    pose proof (rewrite_step_left env path records x). lia. }
  specialize (H 5%nat (RewriteStart, a, d) ltac:(cbn; lia)).
  destruct (rewrite_steps _ _ _ _ _) as [[[| | | | |err] a'] d']; try done. by exists err, a', d'.
Qed.

(** The old log, closed. *)
Definition old_log (e : stream_env) (a : Aof) (d d' : disk) : Prop :=
  aof_ready a d → takes_all e a → is_Some (d' !! path_ a) ∧ contents_of d' (path_ a) = log a d.

(** The log [a] and the disk [d], and where the rewrite that started from them is. *)
Definition rewrite_inv (env : rewrite_env) (records : list KeyRecord) (a : Aof) (d : disk) (x : rewriting) : Prop :=
  let '(ph, a', d') := x in
  let path := path_ a in
  let new := Some (mkFile (rewrite_payload records) 0) in
  match ph with
  | RewriteStart => a' = a ∧ d' = d
  | RewriteWritten => a' = a ∧ d' !! path = d !! path ∧ d' !! rewrite_temp path = new
  | RewriteClosed was_open _ =>
      was_open = is_open a ∧ file_ a' = None ∧ d' !! rewrite_temp path = new ∧ old_log (closes env) a d d'
  | RewriteRemoved was_open _ =>
      was_open = is_open a ∧ file_ a' = None ∧ d' !! rewrite_temp path = new ∧
      (if removes env then d' !! path = None else old_log (closes env) a d d')
  | RewriteRenamed was_open _ => was_open = is_open a ∧ file_ a' = None ∧ d' !! path = new
  | RewriteDone None =>
      d' !! path = new ∧ (is_open a = true → file_ a' = Some [] ∧ path_ a' = path ∧ buffer_ a' = [])
  | RewriteDone (Some _) =>
      (a' = a ∧ d' !! path = d !! path) ∨ renames env = false ∨ (reopens env = false ∧ d' !! path = new)
  end.

Lemma aof_close_after_write e a d temp f a' d' :
  aof_close e a (<[temp := f]> d) = (a', d') → temp ≠ path_ a → old_log e a d d'.
Proof.
  intros H Hne [Hop Hd] Hall. assert (aof_ready a (<[temp := f]> d)) as Hr by (split; [done|by rewrite lookup_insert_ne]).
  destruct (aof_close_whole _ _ _ _ _ H Hr Hall) as [? ->]. split; [done|].
  unfold log, contents_of. by rewrite lookup_insert_ne.
Qed.

Lemma rewrite_step_inv env records a d x :
  rewrite_inv env records a d x → rewrite_inv env records a d (rewrite_step env (path_ a) records x).
Proof.
  destruct x as [[ph a'] d']. pose proof (rewrite_temp_ne (path_ a)) as Hne.
  set (path := path_ a) in *. set (temp := rewrite_temp path) in *.
  assert (∀ f opened policy a1 d1, file_ a1 = None → d1 !! path = Some f → ∃ err a2,
    aof_open (closes env) opened path policy a1 d1 = (err, a2, d1) ∧
    (if opened then err = None ∧ file_ a2 = Some [] ∧ path_ a2 = path ∧ buffer_ a2 = [] else is_Some err)) as Hopen.
  { intros f opened policy a1 d1 Hf Hd. unfold aof_open, aof_close. rewrite Hf. unfold d_create. rewrite Hd.
    destruct opened; by eexists _, _. }
  destruct ph as [| |was_open policy|was_open policy|was_open policy|err]; cbn [rewrite_inv rewrite_step]; fold path temp.
  - intros [-> ->]. destruct (temp_opens env); cbn [negb]; [|by left].
    destruct (Nat.ltb_spec (temp_accepts env) (length (rewrite_payload records))) as [_|Hle]; cbn [rewrite_inv].
    + left. split; [done|]. rewrite lookup_try_remove_ne by done. by apply lookup_insert_ne.
    + unfold d_write. rewrite take_ge by lia. split_and!; [done|by apply lookup_insert_ne|by apply lookup_insert_eq].
  - intros (-> & Hd & Ht). destruct (aof_close (closes env) a d') as [a1 d1] eqn:E. cbn [rewrite_inv].
    pose proof (aof_close_leaves _ _ _ _ _ temp E) as [[_ Hfr] Hf]. fold path temp. split_and!; try done.
    + by rewrite Hfr.
    + rewrite <- (insert_id d' temp _ Ht) in E.
      intros [Hop Hdp] Hall. destruct (aof_close_after_write _ _ _ _ _ _ _ E Hne) as [? ->]; [|done|].
      * split; [done|]. fold path in Hdp |- *. by rewrite Hd.
      * split; [done|]. unfold log, contents_of. fold path. by rewrite Hd.
  - intros (-> & Hf & Ht & Hold). cbn [rewrite_inv]. fold path temp. split_and!; try done.
    + by rewrite lookup_try_remove_ne.
    + unfold try_remove. destruct (removes env); [by apply lookup_delete_eq|done].
  - intros (-> & Hf & Ht & Hold). rewrite Ht, bool_decide_true, andb_true_r by done.
    destruct (renames env) eqn:Er; cbn [negb].
    + cbn [rewrite_inv]. fold path. split_and!; try done. unfold d_rename. rewrite Ht. by apply lookup_insert_eq.
    + destruct (is_open a); [destruct (aof_open _ _ _ _ _ _) as [[? ?] ?]|]; cbn; by right; left.
  - intros (-> & Hf & Hd). destruct (is_open a) eqn:Eo; cbn [rewrite_inv]; fold path; [|by rewrite Eo].
    destruct (Hopen _ (reopens env) policy (set_commands (wrap64 (Z.of_nat (length records))) a') d' Hf Hd)
      as (err & a2 & -> & H). destruct (reopens env) eqn:Ero; [destruct H as [-> H]|destruct H as [msg ->]];
      cbn [rewrite_inv]; fold path; [by split|by right; right].
  - done.
Qed.

Lemma rewrite_steps_inv n env records a d x :
  rewrite_inv env records a d x → rewrite_inv env records a d (rewrite_steps n env (path_ a) records x).
Proof. revert x. induction n as [|n IH]; intros x Hx; [done|]. cbn. by apply IH, rewrite_step_inv. Qed.

Lemma aof_rewrite_inv env records a d err a' d' :
  aof_rewrite env (path_ a) records a d = (err, a', d') → rewrite_inv env records a d (RewriteDone err, a', d').
Proof.
  unfold aof_rewrite. destruct (rewrite_steps_done env (path_ a) records a d) as (err1 & a1 & d1 & E).
  rewrite E. intros [= <- <- <-]. rewrite <- E. by apply rewrite_steps_inv.
Qed.

(** Files that have neither the log's name nor that of the temporary file. *)
Lemma rewrite_steps_leaves n env path records x q :
  path_ x.1.2 ≠ q → path ≠ q → rewrite_temp path ≠ q →
  (rewrite_steps n env path records x).2 !! q = x.2 !! q ∧ path_ (rewrite_steps n env path records x).1.2 ≠ q.
Proof.
  intros Hq Hp Ht. revert x Hq. induction n as [|n IH]; intros x Hq; [done|]. cbn [rewrite_steps].
  assert ((rewrite_step env path records x).2 !! q = x.2 !! q ∧ path_ (rewrite_step env path records x).1.2 ≠ q) as [E Hq'].
  2: { destruct (IH _ Hq') as [-> ?]. done. }
  clear IH. destruct x as [[ph a] d]. cbn [fst snd] in Hq.
  destruct ph as [| |was_open policy|was_open policy|was_open policy|err]; cbn [rewrite_step].
  - destruct (negb _); [done|]. destruct (Nat.ltb _ _); cbn; (split; [|done]);
      rewrite ?lookup_try_remove_ne by done; by apply lookup_insert_ne.
  - destruct (aof_close _ _ _) as [a1 d1] eqn:E. apply (aof_close_leaves _ _ _ _ _ q) in E as [[Ea Ed] _].
    cbn. rewrite Ea. by split; [apply Ed|].
  - cbn. by rewrite lookup_try_remove_ne.
  - destruct (negb _); [|cbn; by rewrite lookup_rename_ne]. destruct was_open; cbn.
    + destruct (aof_open _ _ _ _ _ _) as [[err1 a1] d1] eqn:E. apply aof_open_leaves with (q := q) in E as [E Ha]; [|done..].
      cbn. by rewrite E, lookup_try_remove_ne.
    + by rewrite lookup_try_remove_ne.
  - destruct was_open; cbn; [|done].
    destruct (aof_open _ _ _ _ _ _) as [[err1 a1] d1] eqn:E. by apply aof_open_leaves with (q := q) in E as [E Ha].
  - done.
Qed.

(** ** Interruptions *)

(** The disks an interrupted rewrite can leave: after some of its steps, in the
    middle of writing the temporary file, or in the middle of closing the log,
    when some of what it held is already in the file. *)
Inductive rewrite_interrupted (env : rewrite_env) (records : list KeyRecord) (a : Aof) (d : disk) : disk → Prop :=
| rewrite_between n :
    rewrite_interrupted env records a d (rewrite_steps n env (path_ a) records (RewriteStart, a, d)).2
| rewrite_writing n :
    rewrite_interrupted env records a d (d_write (rewrite_temp (path_ a)) (take n (rewrite_payload records)) d)
| rewrite_closing p q :
    in_stream a ++ buffer_ a = p ++ q →
    rewrite_interrupted env records a d
      (d_append (path_ a) p (d_write (rewrite_temp (path_ a)) (rewrite_payload records) d)).

(** The file holds what it held and some of what was still to be written. *)
Definition holds_log (a : Aof) (d d' : disk) : Prop :=
  is_Some (d' !! path_ a) ∧
  ∃ p q, in_stream a ++ buffer_ a = p ++ q ∧ contents_of d' (path_ a) = contents_of d (path_ a) ++ p.

Lemma holds_log_same a d d' : is_Some (d !! path_ a) → d' !! path_ a = d !! path_ a → holds_log a d d'.
Proof.
  intros Hd E. split; [by rewrite E|]. exists [], (in_stream a ++ buffer_ a). split; [done|].
  unfold contents_of. by rewrite E, app_nil_r.
Qed.

(** A rewritten log is never half-written.  Wherever a rewrite is interrupted
    -- unless its rename fails -- the log's file is the old log, with as much
    as was written of it so far or more, or the complete new log; or there is
    none, and the new log is complete beside it under its temporary name. *)
Theorem aof_rewrite_never_partial env records a d d' :
  aof_ready a d → takes_all (closes env) a → renames env = true →
  rewrite_interrupted env records a d d' →
  holds_log a d d' ∨ d' !! path_ a = Some (mkFile (rewrite_payload records) 0) ∨
  (d' !! path_ a = None ∧ d' !! rewrite_temp (path_ a) = Some (mkFile (rewrite_payload records) 0)).
Proof.
  intros Hr Hall Hrn Hi. pose proof Hr as [_ Hd]. pose proof (rewrite_temp_ne (path_ a)) as Hne. destruct Hi as [n|n|p q E].
  - pose proof (rewrite_steps_inv n env records a d (RewriteStart, a, d) (conj eq_refl eq_refl)) as H.
    destruct (rewrite_steps n _ _ _ _) as [[ph a'] d']. cbn [snd].
    assert (old_log (closes env) a d d' → holds_log a d d') as Hold.
    { intros Ho. destruct (Ho Hr Hall) as [? Hc]. split; [done|]. exists (in_stream a ++ buffer_ a), [].
      by rewrite app_nil_r. }
    destruct ph as [| | | | |[msg|]]; cbn [rewrite_inv] in H.
    + destruct H as [_ ->]. left. by apply holds_log_same.
    + destruct H as (_ & H & _). left. by apply holds_log_same.
    + destruct H as (_ & _ & _ & H). left. by apply Hold.
    + destruct H as (_ & _ & Ht & H). destruct (removes env); [by right; right|left; by apply Hold].
    + destruct H as (_ & _ & H). by right; left.
    + destruct H as [[_ H]|[H|[_ H]]]; [left; by apply holds_log_same|congruence|by right; left].
    + destruct H as [H _]. by right; left.
  - left. apply holds_log_same; [done|]. by apply lookup_insert_ne.
  - left. assert (is_Some (d_write (rewrite_temp (path_ a)) (rewrite_payload records) d !! path_ a)) as Hd'
      by (unfold d_write; by rewrite lookup_insert_ne).
    split; [by apply lookup_append_is_Some|]. exists p, q. split; [done|]. rewrite contents_append by done.
    unfold contents_of, d_write. by rewrite lookup_insert_ne.
Qed.

(** Rewriting is not atomic.  The old log is removed before the new one is
    renamed, so a crash between the two leaves no log under its name, and a
    rename that fails an empty one at best: replaying it gives nothing. *)
Theorem aof_rewrite_gap {W} (apply : Args → W → outcome W) env records a d (w : W) :
  temp_opens env = true → (length (rewrite_payload records) ≤ temp_accepts env)%nat → removes env = true →
  (∃ d', rewrite_interrupted env records a d d' ∧ d' !! path_ a = None ∧
     replay apply d' (path_ a) w = Ret (w, 0, 0%nat, None)) ∧
  (renames env = false →
   ∃ a' d', aof_rewrite env (path_ a) records a d = (Some (bs "rename failed during AOF rewrite"), a', d') ∧
     replay apply d' (path_ a) w = Ret (w, 0, 0%nat, None)).
Proof.
  intros Ho Ha Hrm. apply Nat.ltb_ge in Ha. pose proof (rewrite_temp_ne (path_ a)) as Hne.
  set (d1 := d_write (rewrite_temp (path_ a)) (take (temp_accepts env) (rewrite_payload records)) d).
  destruct (aof_close (closes env) a d1) as [a2 d2] eqn:E.
  pose proof (aof_close_leaves _ _ _ _ _ (path_ a) E) as [_ Hf].
  assert (rewrite_steps 3 env (path_ a) records (RewriteStart, a, d) =
    (RewriteRemoved (is_open a) (policy_ a), a2, d_remove (path_ a) d2)) as H3.
  { cbn [rewrite_steps rewrite_step]. rewrite Ho, Ha. cbn [negb rewrite_step]. fold d1. rewrite E. cbn [rewrite_step]. by rewrite Hrm. }
  assert (∀ d' : disk, contents_of d' (path_ a) = [] → replay apply d' (path_ a) w = Ret (w, 0, 0%nat, None)) as Hrep.
  { intros d' Hd. unfold replay. unfold contents_of in Hd. destruct (d' !! path_ a); [|done]. cbn in Hd. by rewrite Hd. }
  assert (d_remove (path_ a) d2 !! path_ a = None) as Hgone by apply lookup_delete_eq.
  assert (contents_of (d_remove (path_ a) d2) (path_ a) = []) as Hc by (unfold contents_of; by rewrite Hgone).
  split.
  - exists (d_remove (path_ a) d2). split_and!; [|done|by apply Hrep].
    pose proof (rewrite_between env records a d 3) as H. by rewrite H3 in H.
  - intros Hrn. unfold aof_rewrite. change 5%nat with (S (S 3)).
    assert (∀ n x, rewrite_steps (S (S n)) env (path_ a) records x =
      rewrite_step env (path_ a) records (rewrite_step env (path_ a) records (rewrite_steps n env (path_ a) records x))) as Hs.
    { clear. intros n. induction n as [|n IH]; intros x; [done|]. cbn [rewrite_steps] in *. by rewrite <- IH. }
    rewrite Hs, H3. cbn [rewrite_step]. rewrite Hrn. cbn [andb negb].
    set (d3 := try_remove (cleans env) _ _).
    assert (contents_of d3 (path_ a) = []) as Hc3.
    { unfold contents_of, d3. by rewrite lookup_try_remove_ne, Hgone. }
    destruct (is_open a); [|eexists _, _; split; [done|by apply Hrep]].
    unfold aof_open, aof_close. rewrite Hf. destruct (reopens env); cbn; (eexists _, _; split; [done|]); apply Hrep; [|done].
    by rewrite contents_create.
Qed.

(** ** Witnesses *)

(** Everything works, up to a thousand bytes. *)
Definition good_rewrite : rewrite_env := mkRewriteEnv true 1000 good_stream true true true true.

Definition some_records : list KeyRecord := [mkKeyRecord (bs "k") (bs "v") kNoExpiry].

Lemma aof_rewrite_never_partial_witness :
  let d' := (rewrite_steps 3 good_rewrite (bs "aof") some_records (RewriteStart, logged kNo, empty_log)).2 in
  holds_log (logged kNo) empty_log d' ∨ d' !! bs "aof" = Some (mkFile (rewrite_payload some_records) 0) ∨
  (d' !! bs "aof" = None ∧ d' !! rewrite_temp (bs "aof") = Some (mkFile (rewrite_payload some_records) 0)).
Proof.
  apply (aof_rewrite_never_partial good_rewrite some_records (logged kNo) empty_log).
  - split; by eexists.
  - split; apply Nat.leb_le; vm_compute; reflexivity.
  - reflexivity.
  - exact (rewrite_between good_rewrite some_records (logged kNo) empty_log 3).
Defined.

Lemma aof_rewrite_gap_witness :
  ∃ d', rewrite_interrupted good_rewrite some_records (logged kNo) empty_log d' ∧ d' !! bs "aof" = None ∧
    replay count_apply d' (bs "aof") 0%nat = Ret (0%nat, 0, 0%nat, None).
Proof.
  refine (proj1 (aof_rewrite_gap count_apply good_rewrite some_records (logged kNo) empty_log 0%nat _ _ _)).
  - reflexivity.
  - apply Nat.leb_le. vm_compute. reflexivity.
  - reflexivity.
Defined.
