(* ===== verification/Recovery.v ===== *)
(** * Recovery: from commands through the log and back

    The components together: the writes a server performed, as its command
    table propagated them and the log recorded them, replayed by another
    server, give the same keyspace; and so does a log rewritten from a
    snapshot. *)

From S2P Require Import Prelude Resp UnorderedMap Glob Store Keyspace StoreScan Stats Commands CommandSpec.
From S2P Require Import Dispatch Encode Files Aof AofTheorems AofRewrite Rdb RdbTheorems.

Section Recovery.
Context `{UM : UnorderedMap} {W Link : Type} {SS : ServerState W}.
Implicit Types (w : W) (tbl : CommandTable (W:=W) (Link:=Link)).

(** ** Histories *)

(** What a server did up to time [T], and the commands it propagated: clients'
    commands, each while the clock stood still, and steps such as the expiry
    cycle that leave the keyspace alone.  A command about the deadline of a key
    is about one that is still alive at [T]. *)
Inductive history tbl (T : Z) : W → list Args → W → Prop :=
| history_nil w : history tbl T w [] w
| history_quiet w w1 cmds w2 t :
    quiet (store_of w) (store_of w1) → steady t (store_of w) (store_of w1) → t ≤ T →
    history tbl T w1 cmds w2 → history tbl T w cmds w2
| history_command args l w r w1 cmds w2 t :
    dispatch tbl args l w = Ret (r, w1) → steady t (store_of w) (store_of w1) → t ≤ T →
    (∀ k d, dirty r = true → effect_of (propagate r) = Some (WDeadline k d) →
       is_Some (view T (store_of w) !! k)) →
    history tbl T w1 cmds w2 →
    history tbl T w (if dirty r then propagate r :: cmds else cmds) w2.

(** Applying propagated commands, all while the clock reads [T]. *)
Lemma apply_silently_canonical tbl p e w :
  effect_of p = Some e →
  ∃ w', apply_silently tbl p w = Ret w' ∧ later (store_of w) (store_of w') ∧
    (∀ t, steady t (store_of w) (store_of w') → has_effect t e (store_of w) (store_of w')).
Proof.
  intros (r & s' & E & L & H)%(dispatch_canonical tbl p e w). exists (with_store s' w).
  unfold apply_silently. rewrite E, store_of_with. done.
Qed.

Lemma apply_all_runs tbl cmds w :
  Forall (λ p, is_Some (effect_of p)) cmds →
  ∃ w', apply_all (apply_silently tbl) cmds w = Ret w' ∧ later (store_of w) (store_of w').
Proof.
  intros Hc. revert w. induction Hc as [|p cmds [e He] Hc IH]; intros w.
  { exists w. split; [done|]. apply later_refl. }
  destruct (apply_silently_canonical tbl p e w He) as (w1 & E1 & L1 & _).
  destruct (IH w1) as (w' & E' & L'). exists w'. cbn. rewrite E1. cbn.
  split; [done|]. by eapply later_trans.
Qed.

Lemma history_effects tbl T w cmds w' :
  TableLaws tbl → history tbl T w cmds w' → clock_wf (store_of w) →
  Forall (λ p, is_Some (effect_of p)) cmds.
Proof.
  intros L. induction 1 as [w|w w1 cmds w' t Hq Hst Ht Hh IH|args l w r w1 cmds w' t Hd Hst Ht Hk Hh IH];
    intros Hc; [by constructor| |].
  - apply IH. eapply clock_wf_later; [apply Hq|done].
  - destruct (dispatch_good _ _ _ _ _ _ L Hc Hd) as [Hl _ Htr]. specialize (Htr t Hc Hst).
    unfold truthful in Htr. specialize (IH (clock_wf_later _ _ Hl Hc)).
    destruct (dirty r); [|done]. destruct Htr as (e & He & _). by constructor.
Qed.

Lemma history_replay tbl tbl2 T w cmds w' :
  TableLaws tbl → history tbl T w cmds w' → clock_wf (store_of w) →
  ∀ w2 w2', view T (store_of w2) = view T (store_of w) →
    apply_all (apply_silently tbl2) cmds w2 = Ret w2' → steady T (store_of w2) (store_of w2') →
    view T (store_of w2') = view T (store_of w').
Proof.
  intros L. induction 1 as [w|w w1 cmds w' t Hq Hst Ht Hh IH|args l w r w1 cmds w' t Hd Hst Ht Hk Hh IH];
    intros Hc w2 w2' Hv Ha Hs.
  - cbn in Ha. by simplify_eq.
  - destruct Hq as [Hl _ Hq]. eapply IH; [by eapply clock_wf_later| |done..].
    rewrite Hv. symmetry. by apply (Hq t Hst).
  - destruct (dispatch_good _ _ _ _ _ _ L Hc Hd) as [Hl _ Htr]. specialize (Htr t Hc Hst).
    assert (clock_wf (store_of w1)) as Hc1 by (by eapply clock_wf_later).
    pose proof (history_effects _ _ _ _ _ L Hh Hc1) as Heffs.
    unfold truthful in Htr. destruct (dirty r).
    2: { eapply IH; [done| |done..]. rewrite Hv. symmetry. by apply Htr. }
    destruct Htr as (e & He & Heff).
    destruct (apply_silently_canonical tbl2 _ _ w2 He) as (w3 & E3 & L3 & Heff3).
    cbn [apply_all] in Ha. rewrite E3 in Ha. cbn [mbind outcome_bind] in Ha.
    destruct (apply_all_runs tbl2 cmds w3 Heffs) as (w4 & E4 & L4). rewrite Ha in E4. simplify_eq.
    destruct (steady_split T _ _ _ L3 L4 Hs) as [Hs1 Hs2].
    eapply IH; [done| |done..].
    rewrite (Heff3 T Hs1) by done. rewrite (Heff T Ht), Hv, (view_expire t T) by done.
    apply effect_later; [done|]. intros k d -> _. rewrite <- view_expire by done. by eapply Hk.
Qed.

(** ** Rewritten logs *)

(** The command a rewrite emits for a record of a snapshot. *)
Lemma effect_of_record r :
  deadline_arg (expire_at r) →
  effect_of (record_command r) = Some (WSet (key r) (value r) (to_deadline (expire_at r))).
Proof. apply (effect_of_canonical_set (key r) (value r) (expire_at r)). Qed.

Lemma snapshot_records_ok s : store_wf s → Forall record_ok (snapshot s).1.
Proof. intros Hw. apply Forall_forall. by intros r [_ Hr]%snapshot_elem. Qed.

Lemma snapshot_deadlines s :
  store_wf s → clock_wf s → Forall (λ r, deadline_arg (expire_at r)) (snapshot s).1.
Proof.
  intros Hw Hc. apply Forall_forall. intros r [Hr Hi]%snapshot_elem; [|done].
  apply view_lookup_Some in Hr as (_ & _ & Ha). unfold to_deadline, alive in Ha.
  specialize (Hc (ticks s)). unfold now, deadline_arg, kNoExpiry, int64_min, int64_max in *.
  destruct (Z.eqb_spec (expire_at r) (-1)); breflect; lia.
Qed.

Lemma replay_records tbl (T : Z) (recs : list KeyRecord) w w' (m : keyspace) :
  Forall (λ r, deadline_arg (expire_at r)) recs → NoDup (key <$> recs) →
  view T (store_of w) = ks_expire T m → Forall (λ r, m !! key r = None) recs →
  apply_all (apply_silently tbl) (record_command <$> recs) w = Ret w' →
  steady T (store_of w) (store_of w') →
  view T (store_of w') = ks_expire T (list_to_map (record_entry <$> recs) ∪ m).
Proof.
  intros Hd. revert w m. induction Hd as [|r recs Hr Hd IH]; intros w m Hnd Hv Hno Ha Hs.
  { cbn in Ha. simplify_eq. cbn. by rewrite (left_id_L ∅ (∪)). }
  rewrite fmap_cons in Hnd. apply NoDup_cons in Hnd as [Hnin Hnd].
  apply Forall_cons in Hno as [_ Hno]. cbn [fmap list_fmap apply_all] in Ha.
  destruct (apply_silently_canonical tbl _ _ w (effect_of_record r Hr)) as (w1 & E1 & L1 & Heff).
  rewrite E1 in Ha. cbn [mbind outcome_bind] in Ha.
  destruct (apply_all_runs tbl (record_command <$> recs) w1) as (w2 & E2 & L2).
  { apply Forall_fmap. eapply Forall_impl; [exact Hd|]. intros r' Hr'.
    change (is_Some (effect_of (record_command r'))). by rewrite effect_of_record. }
  change (list_fmap _ _ record_command recs) with (record_command <$> recs) in Ha.
  rewrite E2 in Ha. simplify_eq.
  destruct (steady_split T _ _ _ L1 L2 Hs) as [Hs1 Hs2].
  rewrite (IH w1 (<[key r := (value r, to_deadline (expire_at r))]> m)); [|done|..|done|done].
  - f_equal. cbn. rewrite <- insert_union_r; [|].
    + by rewrite insert_union_l.
    + apply not_elem_of_list_to_map. rewrite <- list_fmap_compose. done.
  - rewrite (Heff T Hs1) by done. rewrite Hv.
    by rewrite (effect_later (WSet _ _ _)).
  - apply Forall_forall. intros r' Hr'. rewrite lookup_insert_ne; [by apply (proj1 (Forall_forall _ _) Hno)|].
    intros E. apply Hnin, list_elem_of_fmap. by exists r'.
Qed.

(** Replaying a log of propagated commands, wherever it is on the disk. *)
Lemma replay_history tbl tbl2 (T : Z) w (cmds : list Args) w' w2 (d : disk) (path : bytes) (n : nat) :
  TableLaws tbl → clock_wf (store_of w) → history tbl T w cmds w' →
  view T (store_of w2) = view T (store_of w) →
  Forall encodable cmds → Z.of_nat (length cmds) < 2 ^ 64 →
  d !! path = Some (mkFile (encode_all cmds) n) →
  ∃ w2', replay (apply_silently tbl2) d path w2 = Ret (w2', Z.of_nat (length cmds), 0%nat, None) ∧
    apply_all (apply_silently tbl2) cmds w2 = Ret w2' ∧
    (steady T (store_of w2) (store_of w2') →
     ∀ t, T ≤ t → view t (store_of w2') = view t (store_of w')).
Proof.
  intros L Hc Hh Hv Henc Hmax Hd.
  destruct (apply_all_runs tbl2 cmds w2 (history_effects _ _ _ _ _ L Hh Hc)) as (w2' & E & _).
  exists w2'. split; [|split; [done|]].
  - unfold replay. rewrite Hd. cbn [cached].
    rewrite <- (app_nil_r (encode_all cmds)) at 3. rewrite replay_commands; [|done|by left|..|done].
    + by rewrite E.
    + by rewrite app_nil_r.
    + done.
  - intros Hs t Ht. rewrite !(view_expire T t) by done.
    by rewrite (history_replay _ _ _ _ _ _ L Hh Hc _ _ Hv E Hs).
Qed.

(** ** Properties *)

(** Recovery from the log.  The commands a server propagated, recorded in
    the log and replayed at a later time [T] by a server whose keyspace was the
    same at the start, all run, and bring it to the keyspace the first server
    has, at [T] and from then on -- relative expiries included, since they are
    logged as deadlines. *)
Theorem aof_recovers_keyspace tbl tbl2 T w cmds w' w2 path n :
  TableLaws tbl → clock_wf (store_of w) → history tbl T w cmds w' →
  view T (store_of w2) = view T (store_of w) →
  Forall encodable cmds → Z.of_nat (length cmds) < 2 ^ 64 →
  ∃ w2', replay (apply_silently tbl2) {[ path := mkFile (encode_all cmds) n ]} path w2 =
      Ret (w2', Z.of_nat (length cmds), 0%nat, None) ∧
    (steady T (store_of w2) (store_of w2') →
     ∀ t, T ≤ t → view t (store_of w2') = view t (store_of w')).
Proof.
  intros L Hc Hh Hv Henc Hmax. 
  destruct (replay_history tbl tbl2 T w cmds w' w2 {[ path := mkFile (encode_all cmds) n ]} path n)
    as (w2' & Hr & _ & Hs); [done..|apply lookup_singleton_eq|]. by exists w2'.
Qed.

Lemma aof_rewrite_contents env path records a d a' d' :
  aof_rewrite env path records a d = (None, a', d') → path_ a = path →
  contents_of d' path = encode_all (record_command <$> records).
Proof. intros H <-. apply aof_rewrite_inv in H as [Hd _]. unfold contents_of. by rewrite Hd. Qed.

Lemma replay_contents {A} (f : Args → A → outcome A) (d : disk) path x (w0 : A) :
  contents_of d path = x →
  replay f d path w0 = replay_loop f (length x) (length x) x 0 w0.
Proof. unfold contents_of, replay. intros <-. by destruct (d !! path) as [fl|]. Qed.

(** C8: a rewritten log recreates the keyspace.  After a successful rewrite
    from a snapshot, replaying the file into an empty server succeeds, and at
    any time after the snapshot gives the keyspace the snapshot was taken of. *)
Theorem aof_rewrite_recovers tbl env path s a d a' d' T w2 :
  aof_rewrite env path (snapshot s).1 a d = (None, a', d') → path_ a = path →
  store_wf s → clock_wf s → now s ≤ T → view T (store_of w2) = ∅ →
  Forall encodable (record_command <$> (snapshot s).1) →
  Z.of_nat (length (snapshot s).1) < 2 ^ 64 →
  ∃ w2', replay (apply_silently tbl) d' path w2 =
      Ret (w2', Z.of_nat (length (snapshot s).1), 0%nat, None) ∧
    (steady T (store_of w2) (store_of w2') → ∀ t, T ≤ t → view t (store_of w2') = view t s).
Proof.
  intros Hrw Hp Hw Hc Hn H0 Henc Hmax.
  rewrite (replay_contents _ _ _ _ _ (aof_rewrite_contents _ _ _ _ _ _ _ Hrw Hp)).
  pose proof (snapshot_deadlines s Hw Hc) as Hd. set (recs := (snapshot s).1) in *.
  destruct (apply_all_runs tbl (record_command <$> recs) w2) as (w2' & E & _).
  { apply Forall_fmap. eapply Forall_impl; [exact Hd|]. intros r Hr.
    change (is_Some (effect_of (record_command r))). by rewrite effect_of_record. }
  exists w2'. split.
  - rewrite <- (app_nil_r (encode_all _)) at 3.
    rewrite replay_commands; [|done|by left|by rewrite app_nil_r|done|by rewrite length_fmap].
    rewrite E, length_fmap. done.
  - intros Hs t Ht. rewrite !(view_expire T t) by (done || lia). f_equal.
    rewrite (replay_records tbl T recs w2 w2' ∅);
      [|done|apply snapshot_keys_NoDup|..|done|done].
    + rewrite (right_id_L ∅ (∪)). unfold recs. rewrite snapshot_map by done.
      symmetry. by apply view_expire.
    + rewrite H0. unfold ks_expire. by rewrite map_filter_empty.
    + apply Forall_forall. intros. apply lookup_empty.
Qed.

End Recovery.

(** ** A log replayed too late *)

#[local] Existing Instance gmap_table.

(** SET k v PXAT 1000 and PERSIST k, as they are propagated. *)
Definition set_then_persist : list Args :=
  [[bs "SET"; bs "k"; bs "v"; bs "PXAT"; bs "1000"]; [bs "PERSIST"; bs "k"]].

Definition run_at (t : Z) : outcome Store :=
  apply_all (apply_silently alone) set_then_persist (new_store (λ _, t)).

(** Replay depends on when it happens.  At time 500 the two commands leave
    a key that never expires.  Replayed at time 2000, after the first deadline,
    the SET creates a dead key, PERSIST finds none, and the key is lost. *)
Theorem late_replay_loses_key :
  (∃ s, run_at 500 = Ret s ∧ view 3000 s !! bs "k" = Some (bs "v", None)) ∧
  (∃ s, run_at 2000 = Ret s ∧ view 3000 s !! bs "k" = None).
Proof. split; eexists; (split; [reflexivity|]); reflexivity. Qed.

(** ** Witnesses *)

Lemma set_px_history :
  history alone 50 (new_store ten) [propagate after_set.1] after_set.2.
Proof.
  apply (history_command alone 50 set_px None (new_store ten) after_set.1 after_set.2 [] _ 10).
  - exact after_set_eq.
  - by intros i _.
  - lia.
  - intros k d _ He. vm_compute in He. discriminate He.
  - apply history_nil.
Qed.

Lemma set_pxat_encodable : Forall encodable [propagate after_set.1].
Proof.
  apply Forall_cons_2; [|apply Forall_nil_2]. split; [done|]. split; [vm_compute; discriminate|].
  repeat (apply Forall_cons_2; [vm_compute; discriminate|]). apply Forall_nil_2.
Qed.

Lemma aof_recovers_keyspace_witness :
  ∃ s2, replay (apply_silently alone) {[ bs "aof" := mkFile (encode_all [propagate after_set.1]) 0 ]}
      (bs "aof") (new_store (λ _, 50)) = Ret (s2, 1, 0%nat, None) ∧
    (steady 50 (new_store (λ _, 50)) s2 → view 60 s2 = view 60 after_set.2).
Proof.
  destruct (aof_recovers_keyspace alone alone 50 (new_store ten) [propagate after_set.1] after_set.2
    (new_store (λ _, 50)) (bs "aof") 0 alone_laws (ten_clock ten (λ _, eq_refl)) set_px_history)
    as (s2 & E & H).
  - cbn [store_of store_server]. by rewrite !view_new.
  - exact set_pxat_encodable.
  - done.
  - exists s2. split; [exact E|]. intros Hs. by apply H.
Defined.

Lemma after_set_wf : store_wf after_set.2.
Proof. apply wf_set; [apply (wf_tables (new_store ten)); [done..|apply wf_new]|]. by split. Qed.

(** The state of the log after the rewrite. *)
Definition rewritten : option bytes * Aof * disk :=
  aof_rewrite good_rewrite (bs "aof") (snapshot after_set.2).1 (open_aof kNo) empty_log.

Lemma aof_rewrite_recovers_witness :
  ∃ w2', replay (apply_silently alone) rewritten.2 (bs "aof") (new_store (λ _, 50)) =
      Ret (w2', 1, 0%nat, None) ∧
    (steady 50 (new_store (λ _, 50)) w2' → view 60 w2' = view 60 after_set.2).
Proof.
  destruct (aof_rewrite_recovers alone good_rewrite (bs "aof") after_set.2 (open_aof kNo) empty_log
    rewritten.1.2 rewritten.2 50 (new_store (λ _, 50))) as (w2' & E & H).
  - reflexivity.
  - reflexivity.
  - exact after_set_wf.
  - apply ten_clock. done.
  - cbv. discriminate.
  - apply (view_new 50).
  - change (record_command <$> (snapshot after_set.2).1) with [propagate after_set.1].
    exact set_pxat_encodable.
  - reflexivity.
  - exists w2'. split; [exact E|]. intros Hs. by apply (H Hs).
Defined.
