(* ===== verification/RdbFile.v ===== *)
(** * Snapshot files ([rdb_save_file] and [rdb_load_file], src/rdb.cpp)

    Saving writes a temporary file, syncs it, removes the target and renames.
    Each of these is one step here: the disks between the steps are what a
    crash can leave, and the points where the background saver and the event
    loop can interleave. *)

From S2P Require Import Prelude Store Files Rdb RdbTheorems.

(** What the environment decides: whether the temporary file can be opened,
    how many bytes it takes, whether it can be opened again and synced, whether
    the old file and the temporary one can be removed, and whether the rename
    works. *)
Record save_env := mkSaveEnv {
  save_opens : bool;
  save_accepts : nat;
  save_syncs : bool;
  save_removes : bool;
  save_cleans : bool;
  save_renames : bool
}.

Definition rdb_temp (path : bytes) (pid : Z) : bytes := path ++ bs ".tmp-" ++ to_string pid.

(** How far a save is; [SaveDone] carries the error message of a failure. *)
Inductive save_phase :=
| SaveStart
| SaveWritten
| SaveSynced
| SaveRemoved
| SaveDone (err : option bytes).

(** One step.  The temporary file is opened, written and closed in one; a
    rename also fails when there is no such file. *)
Definition save_step (env : save_env) (path temp payload : bytes) (ph : save_phase) (d : disk)
    : save_phase * disk :=
  match ph with
  | SaveStart =>
      if negb (save_opens env) then
        (SaveDone (Some (bs "cannot open " ++ temp ++ bs " for writing")), d)
      else if Nat.ltb (save_accepts env) (length payload) then
        (SaveDone (Some (bs "write failed for " ++ temp)),
         try_remove (save_cleans env) temp (d_write temp (take (save_accepts env) payload) d))
      else (SaveWritten, d_write temp payload d)
  | SaveWritten => (SaveSynced, if save_syncs env then d_sync temp d else d)
  | SaveSynced => (SaveRemoved, try_remove (save_removes env) path d)
  | SaveRemoved =>
      if save_renames env && bool_decide (is_Some (d !! temp)) then
        (SaveDone None, d_rename temp path d)
      else
        (SaveDone (Some (bs "rename into place failed for " ++ path)), try_remove (save_cleans env) temp d)
  | SaveDone err => (SaveDone err, d)
  end.

Fixpoint save_steps (n : nat) (env : save_env) (path temp payload : bytes)
    (x : save_phase * disk) : save_phase * disk :=
  match n with
  | O => x
  | S n' => save_steps n' env path temp payload (save_step env path temp payload x.1 x.2)
  end.

Definition save_error (ph : save_phase) : option bytes :=
  match ph with SaveDone err => err | _ => None end.

(** The whole function, run without interference: the error message of a
    [false] result, if any, and the disk left. *)
Definition rdb_save_file (env : save_env) (pid : Z) (path : bytes)
    (records : list KeyRecord) (d : disk) : option bytes * disk :=
  let '(ph, d) :=
    save_steps 4 env path (rdb_temp path pid) (rdb_serialize records) (SaveStart, d) in
  (save_error ph, d).

(** A missing file and an empty one hold no records. *)
Definition rdb_load_file (fuel : nat) (path : bytes) (d : disk)
    : outcome (list KeyRecord * option bytes) :=
  match d !! path with
  | None => Ret ([], None)
  | Some f =>
      match cached f with
      | [] => Ret ([], None)
      | _ :: _ => rdb_parse fuel (cached f)
      end
  end.

(** The disks an interrupted save can leave: after some of its steps, or in
    the middle of writing the temporary file. *)
Inductive interrupted (env : save_env) (pid : Z) (path : bytes) (records : list KeyRecord)
    (d : disk) : disk → Prop :=
| interrupted_between n :
    interrupted env pid path records d
      (save_steps n env path (rdb_temp path pid) (rdb_serialize records) (SaveStart, d)).2
| interrupted_writing n :
    interrupted env pid path records d
      (d_write (rdb_temp path pid) (take n (rdb_serialize records)) d).

(** ** Lemmas *)

Lemma rdb_temp_ne path pid : rdb_temp path pid ≠ path.
Proof.
  unfold rdb_temp. intros E%(f_equal length). rewrite !length_app in E. cbn in E. lia.
Qed.

Lemma rdb_serialize_nonempty records : rdb_serialize records ≠ [].
Proof.
  unfold rdb_serialize. rewrite rdb_body_ops. intros E%(f_equal length).
  rewrite !length_app in E. cbn in E. lia.
Qed.

(** What the target can be while a save runs. *)
Record save_inv (env : save_env) (path temp payload : bytes) (d : disk) (x : save_phase * disk)
    : Prop := {
  save_inv_target :
    match x.1 with
    | SaveStart | SaveWritten | SaveSynced => x.2 !! path = d !! path
    | SaveRemoved => x.2 !! path = if save_removes env then None else d !! path
    | SaveDone None => x.2 !! path = Some (mkFile payload (if save_syncs env then length payload else 0))
    | SaveDone (Some _) => x.2 !! path = d !! path ∨ x.2 !! path = None
    end;
  save_inv_temp :
    match x.1 with
    | SaveWritten => x.2 !! temp = Some (mkFile payload 0)
    | SaveSynced | SaveRemoved =>
        x.2 !! temp = Some (mkFile payload (if save_syncs env then length payload else 0))
    | SaveDone None => x.2 !! temp = None
    | _ => True
    end
}.

Lemma save_step_inv env path temp payload d x :
  temp ≠ path → save_inv env path temp payload d x →
  save_inv env path temp payload d (save_step env path temp payload x.1 x.2).
Proof.
  intros Hne [Ht Hm]. destruct x as [ph d']. cbn [fst snd] in *.
  destruct ph as [| | | |err]; cbn [save_step].
  - repeat split_if; (split; [|done || (cbn; unfold d_write; by rewrite lookup_insert_eq)]); cbn.
    + by left.
    + left. unfold d_write. by rewrite lookup_try_remove_ne, lookup_insert_ne.
    + unfold d_write. by rewrite lookup_insert_ne.
  - split; cbn; unfold d_sync; destruct (save_syncs env); rewrite ?lookup_alter_ne,
      ?lookup_alter_eq, ?Hm by done; done.
  - split; cbn; [|by rewrite lookup_try_remove_ne]. unfold try_remove. destruct (save_removes env); [|done].
    apply lookup_delete_eq.
  - split_if; cbn.
    + unfold d_rename. rewrite Hm. split; cbn; [by rewrite lookup_insert_eq|].
      by rewrite lookup_insert_ne, lookup_delete_eq.
    + split; [|done]. cbn. rewrite lookup_try_remove_ne, Ht by done. destruct (save_removes env); auto.
  - by split.
Qed.

Lemma save_steps_inv n env path temp payload d x :
  temp ≠ path → save_inv env path temp payload d x →
  save_inv env path temp payload d (save_steps n env path temp payload x).
Proof.
  intros Hne. revert x. induction n as [|n IH]; intros x Hx; [done|]. cbn.
  by apply IH, save_step_inv.
Qed.

Lemma save_start_inv env path temp payload d :
  save_inv env path temp payload d (SaveStart, d).
Proof. by split. Qed.

(** Four steps are enough. *)
Lemma save_steps_done env path temp payload d :
  ∃ err, (save_steps 4 env path temp payload (SaveStart, d)).1 = SaveDone err.
Proof.
  cbn [save_steps save_step fst snd]. destruct (negb (save_opens env)); [by eexists|].
  destruct (Nat.ltb _ _); [by eexists|]. cbn [save_steps save_step fst snd].
  destruct (save_renames env && _); by eexists.
Qed.

Lemma rdb_save_target env pid path records d err d' :
  rdb_save_file env pid path records d = (err, d') →
  match err with
  | None => d' !! path = Some (mkFile (rdb_serialize records)
              (if save_syncs env then length (rdb_serialize records) else 0)) ∧
            d' !! rdb_temp path pid = None
  | Some _ => d' !! path = d !! path ∨ d' !! path = None
  end.
Proof.
  unfold rdb_save_file. set (temp := rdb_temp path pid). set (payload := rdb_serialize records).
  destruct (save_steps_done env path temp payload d) as [e He].
  pose proof (save_steps_inv 4 env path temp payload d (SaveStart, d) (rdb_temp_ne _ _)
                (save_start_inv _ _ _ _ _)) as [Ht Hm].
  destruct (save_steps 4 env path temp payload (SaveStart, d)) as [ph d1]. cbn [fst snd] in *.
  subst ph. intros [= <- <-]. by destruct e.
Qed.

Lemma rdb_load_saved fuel env pid path records d d' :
  rdb_save_file env pid path records d = (None, d') →
  Forall record_ok records → size (rdb_serialize records) < 2 ^ 64 →
  (length (rdb_serialize records) ≤ fuel)%nat →
  rdb_load_file fuel path d' = Ret (records, None).
Proof.
  intros [Ht _]%rdb_save_target Hr Hs Hl. unfold rdb_load_file. rewrite Ht. cbn [cached].
  pose proof (rdb_serialize_nonempty records). destruct (rdb_serialize records) eqn:E; [done|].
  rewrite <- E in *. by apply rdb_parse_serialized.
Qed.

(** ** Properties *)

(** C37: a snapshot file is never half-written.  Wherever a save is
    interrupted, by a crash or by a failing call, the target is the file that
    was there before, or is gone, or is the complete new snapshot, already
    synced if the sync worked. *)
Theorem rdb_save_never_partial env pid path records d d' :
  interrupted env pid path records d d' →
  d' !! path = d !! path ∨ d' !! path = None ∨
  d' !! path = Some (mkFile (rdb_serialize records)
    (if save_syncs env then length (rdb_serialize records) else 0)).
Proof.
  intros [n|n]; cycle 1.
  { left. unfold d_write. rewrite lookup_insert_ne; [done|]. apply rdb_temp_ne. }
  pose proof (save_steps_inv n env path _ (rdb_serialize records) d (SaveStart, d)
    (rdb_temp_ne path pid) (save_start_inv _ _ _ _ _)) as [Ht _].
  destruct (save_steps n _ _ _ _ _) as [[| | | |[|]] d1]; cbn in *; try tauto. destruct (save_removes env); tauto.
Qed.

Definition two_keys : list KeyRecord :=
  [mkKeyRecord (bs "a") (bs "1") kNoExpiry; mkKeyRecord (bs "b") (bs "2") 1700000000000].

Lemma rdb_save_never_partial_witness :
  let env := mkSaveEnv true 1000 true true true true in
  let d := {[ bs "dump.rdb" := mkFile (bs "old") 3 ]} : disk in
  let d' := (save_steps 3 env (bs "dump.rdb") (rdb_temp (bs "dump.rdb") 7)
               (rdb_serialize two_keys) (SaveStart, d)).2 in
  d' !! bs "dump.rdb" = d !! bs "dump.rdb" ∨ d' !! bs "dump.rdb" = None ∨
  d' !! bs "dump.rdb" = Some (mkFile (rdb_serialize two_keys) (length (rdb_serialize two_keys))).
Proof.
  exact (rdb_save_never_partial (mkSaveEnv true 1000 true true true true) 7 (bs "dump.rdb") two_keys
    {[ bs "dump.rdb" := mkFile (bs "old") 3 ]} _
    (interrupted_between _ _ _ _ _ 3)).
Defined.

(** Saving is not atomic.  The target is removed before the rename, so a
    crash between the two, or a rename that fails, leaves no snapshot at all:
    the next start loads an empty keyspace, without an error. *)
Theorem rdb_save_gap env pid path records d fuel :
  save_opens env = true → (length (rdb_serialize records) ≤ save_accepts env)%nat → save_removes env = true →
  (∃ d', interrupted env pid path records d d' ∧ rdb_load_file fuel path d' = Ret ([], None)) ∧
  (save_renames env = false →
   ∃ d', rdb_save_file env pid path records d =
       (Some (bs "rename into place failed for " ++ path), d') ∧
     rdb_load_file fuel path d' = Ret ([], None)).
Proof.
  intros Ho Ha Hrm. set (temp := rdb_temp path pid). set (payload := rdb_serialize records).
  assert (Nat.ltb (save_accepts env) (length payload) = false) as Hlt by (by apply Nat.ltb_ge).
  assert (Hne : temp ≠ path) by apply rdb_temp_ne. split.
  - exists (save_steps 3 env path temp payload (SaveStart, d)).2. split.
    { apply (interrupted_between env pid path records d 3). }
    cbn [save_steps save_step fst snd]. rewrite Ho, Hlt. cbn [negb save_step fst snd].
    rewrite Hrm. unfold rdb_load_file, try_remove, d_remove. by rewrite lookup_delete_eq.
  - intros Hr. unfold rdb_save_file. fold temp. fold payload.
    cbn [save_steps save_step fst snd]. rewrite Ho, Hlt. cbn [negb save_step fst snd].
    rewrite Hr. cbn [andb save_error]. eexists. split; [done|].
    unfold rdb_load_file. rewrite lookup_try_remove_ne by done. unfold try_remove. rewrite Hrm. unfold d_remove.
    by rewrite lookup_delete_eq.
Qed.

Lemma rdb_save_gap_witness :
  ∃ d', rdb_save_file (mkSaveEnv true 1000 true true true false) 7 (bs "dump.rdb") two_keys
      {[ bs "dump.rdb" := mkFile (rdb_serialize two_keys) 0 ]} =
      (Some (bs "rename into place failed for dump.rdb"), d') ∧
    rdb_load_file 0 (bs "dump.rdb") d' = Ret ([], None).
Proof.
  apply (rdb_save_gap (mkSaveEnv true 1000 true true true false) 7 (bs "dump.rdb") two_keys
    {[ bs "dump.rdb" := mkFile (rdb_serialize two_keys) 0 ]} 0).
  - reflexivity.
  - apply Nat.leb_le. vm_compute. reflexivity.
  - reflexivity.
  - reflexivity.
Defined.
