(* ===== verification/Persistence.v ===== *)
(** * Durability (include/rp/persistence.hpp, src/persistence.cpp)

    [Persistence] owns the append-only file and the snapshots: it restores the
    state at start, records every write, and saves on a schedule.  Everything
    runs on the event-loop thread except the background saver, which has its
    own steps here and can be anywhere in [rdb_save_file] while the loop runs. *)

From S2P Require Import Prelude UnorderedMap Store Commands Files Aof Rdb RdbFile.

Record PersistenceConfig := mkPersistenceConfig {
  dir : bytes;
  dbfilename : bytes;
  aof_filename : bytes;
  rdb_enabled : bool;
  aof_enabled : bool;
  fsync_policy : FsyncPolicy;
  save_seconds : Z;
  save_changes : Z;
  aof_rewrite_threshold : Z
}.

Definition default_PersistenceConfig : PersistenceConfig :=
  mkPersistenceConfig (bs ".") (bs "dump.rdb") (bs "appendonly.aof") true false kEverySec
    300 100 1000000.

Definition rdb_path (c : PersistenceConfig) : bytes := dir c ++ bs "/" ++ dbfilename c.
Definition aof_path (c : PersistenceConfig) : bytes := dir c ++ bs "/" ++ aof_filename c.

(** ** State *)

(** The counters; [last_save_ms_] and [last_save_attempt_ms_] are times. *)
Record SaveCounters := mkCounters {
  dirty_ : Z;
  last_save_ms_ : Z;
  last_save_attempt_ms_ : Z;
  saves_ok_ : Z;
  saves_failed_ : Z;
  last_error_ : bytes
}.

(** Where the saver thread is: in [rdb_save_file], about to store [saving_],
    or returned. *)
Inductive saver_pc := SaverIn (ph : save_phase) | SaverClearing | SaverExited.

(** The thread owns a copy of the records; [saver_env] is what its calls will
    meet. *)
Record Saver := mkSaver {
  saver_records : list KeyRecord;
  saver_env : save_env;
  saver_at : saver_pc
}.

(** The two atomics and the thread, which is joinable when there is one. *)
Record SaverState := mkSaverState {
  saving_ : bool;
  background_failed_ : bool;
  saver_ : option Saver
}.

(** What one call into the file system meets. *)
Record io_env := mkIo {
  io_save : save_env;
  io_rewrite : rewrite_env;
  io_stream : stream_env;
  io_opens : bool
}.

(** The machine the process runs on: its files, the process id, the successive
    readings of [now_ms] and what the successive calls meet. *)
Record Machine := mkMachine {
  disk_ : disk;
  pid_ : Z;
  wall_ : nat → Z;
  wall_ticks : nat;
  io_ : nat → io_env;
  io_calls : nat
}.

Record Persistence := mkPersistence {
  config_ : PersistenceConfig;
  aof_ : Aof;
  counters_ : SaveCounters;
  thread_ : SaverState;
  machine_ : Machine
}.

Definition with_aof (a : Aof) (d : disk) (p : Persistence) : Persistence :=
  let m := machine_ p in
  mkPersistence (config_ p) a (counters_ p) (thread_ p)
    (mkMachine d (pid_ m) (wall_ m) (wall_ticks m) (io_ m) (io_calls m)).

Definition with_disk (d : disk) (p : Persistence) : Persistence := with_aof (aof_ p) d p.

Definition with_counters (c : SaveCounters) (p : Persistence) : Persistence :=
  mkPersistence (config_ p) (aof_ p) c (thread_ p) (machine_ p).

Definition with_thread (t : SaverState) (p : Persistence) : Persistence :=
  mkPersistence (config_ p) (aof_ p) (counters_ p) t (machine_ p).

(** One reading of the wall clock. *)
Definition now_ms (p : Persistence) : Z * Persistence :=
  let m := machine_ p in
  (wall_ m (wall_ticks m),
   mkPersistence (config_ p) (aof_ p) (counters_ p) (thread_ p)
     (mkMachine (disk_ m) (pid_ m) (wall_ m) (S (wall_ticks m)) (io_ m) (io_calls m))).

(** What the next call into the file system meets. *)
Definition next_io (p : Persistence) : io_env * Persistence :=
  let m := machine_ p in
  (io_ m (io_calls m),
   mkPersistence (config_ p) (aof_ p) (counters_ p) (thread_ p)
     (mkMachine (disk_ m) (pid_ m) (wall_ m) (wall_ticks m) (io_ m) (S (io_calls m)))).

Definition set_last_error (msg : bytes) (p : Persistence) : Persistence :=
  let c := counters_ p in
  with_counters (mkCounters (dirty_ c) (last_save_ms_ c) (last_save_attempt_ms_ c)
    (saves_ok_ c) (saves_failed_ c) msg) p.

Definition set_attempt (t : Z) (p : Persistence) : Persistence :=
  let c := counters_ p in
  with_counters (mkCounters (dirty_ c) (last_save_ms_ c) t (saves_ok_ c) (saves_failed_ c)
    (last_error_ c)) p.

Definition set_dirty (n : Z) (p : Persistence) : Persistence :=
  let c := counters_ p in
  with_counters (mkCounters n (last_save_ms_ c) (last_save_attempt_ms_ c) (saves_ok_ c)
    (saves_failed_ c) (last_error_ c)) p.

Definition count_ok (t : Z) (p : Persistence) : Persistence :=
  let c := counters_ p in
  with_counters (mkCounters (dirty_ c) t (last_save_attempt_ms_ c) (wrap64 (saves_ok_ c + 1))
    (saves_failed_ c) (last_error_ c)) p.

Definition count_failed (msg : bytes) (p : Persistence) : Persistence :=
  let c := counters_ p in
  with_counters (mkCounters (dirty_ c) (last_save_ms_ c) (last_save_attempt_ms_ c)
    (saves_ok_ c) (wrap64 (saves_failed_ c + 1)) msg) p.

Definition new_persistence (c : PersistenceConfig) (m : Machine) : Persistence :=
  let p := mkPersistence c new_aof (mkCounters 0 0 0 0 0 []) (mkSaverState false false None) m in
  let '(t, p) := now_ms p in
  with_counters (mkCounters 0 t 0 0 0 []) p.

(** ** The saver thread *)

(** One step of the thread. *)
Definition saver_step (p : Persistence) : Persistence :=
  let t := thread_ p in
  match saver_ t with
  | None => p
  | Some v =>
      match saver_at v with
      | SaverIn (SaveDone err) =>
          with_thread (mkSaverState (saving_ t)
            (match err with Some _ => true | None => background_failed_ t end)
            (Some (mkSaver (saver_records v) (saver_env v) SaverClearing))) p
      | SaverIn ph =>
          let path := rdb_path (config_ p) in
          let '(ph, d) :=
            save_step (saver_env v) path (rdb_temp path (pid_ (machine_ p)))
              (rdb_serialize (saver_records v)) ph (disk_ (machine_ p)) in
          with_disk d
            (with_thread (mkSaverState (saving_ t) (background_failed_ t)
              (Some (mkSaver (saver_records v) (saver_env v) (SaverIn ph)))) p)
      | SaverClearing =>
          with_thread (mkSaverState false (background_failed_ t)
            (Some (mkSaver (saver_records v) (saver_env v) SaverExited))) p
      | SaverExited => p
      end
  end.

(** The thread has at most six steps. *)
Definition saver_fuel : nat := 6.

(** [join]: wait for the thread to return; nothing else runs meanwhile. *)
Definition join (p : Persistence) : Persistence :=
  let p := Nat.iter saver_fuel saver_step p in
  with_thread (mkSaverState (saving_ (thread_ p)) (background_failed_ (thread_ p)) None) p.

Definition joinable (p : Persistence) : bool := bool_decide (is_Some (saver_ (thread_ p))).

Definition join_if_joinable (p : Persistence) : Persistence :=
  if joinable p then join p else p.

(** ** Operations that do not touch the store *)

Definition on_write (args : Args) (p : Persistence) : Persistence :=
  let p := set_dirty (wrap64 (dirty_ (counters_ p) + 1)) p in
  if aof_enabled (config_ p) then
    with_aof (aof_append args (aof_ p)) (disk_ (machine_ p)) p
  else p.

Definition write_snapshot (records : list KeyRecord) (p : Persistence)
    : option bytes * Persistence :=
  let '(io, p) := next_io p in
  let '(err, d) :=
    rdb_save_file (io_save io) (pid_ (machine_ p)) (rdb_path (config_ p)) records
      (disk_ (machine_ p)) in
  (err, with_disk d p).

Definition shutdown (p : Persistence) : Persistence :=
  let p := join_if_joinable p in
  let '(io, p) := next_io p in
  let '(a, d) := aof_close (io_stream io) (aof_ p) (disk_ (machine_ p)) in
  with_aof a d p.

(** A finished background save is joined and counted. *)
Definition reap_saver (now : Z) (p : Persistence) : Persistence :=
  if negb (saving_ (thread_ p)) && joinable p then
    let p := join p in
    if background_failed_ (thread_ p) then count_failed (bs "background save failed") p
    else count_ok now p
  else p.

Definition flag (b : bool) : bytes := if b then bs "1" else bs "0".

Definition info_section (p : Persistence) : bytes :=
  let c := config_ p in
  let n := counters_ p in
  bs "loading:0" ++ crlf ++
  bs "rdb_enabled:" ++ flag (rdb_enabled c) ++ crlf ++
  bs "rdb_changes_since_last_save:" ++ to_string (dirty_ n) ++ crlf ++
  bs "rdb_bgsave_in_progress:" ++ flag (saving_ (thread_ p)) ++ crlf ++
  bs "rdb_last_save_time:" ++ to_string (Z.quot (last_save_ms_ n) 1000) ++ crlf ++
  bs "rdb_saves_ok:" ++ to_string (saves_ok_ n) ++ crlf ++
  bs "rdb_saves_failed:" ++ to_string (saves_failed_ n) ++ crlf ++
  bs "aof_enabled:" ++ flag (aof_enabled c) ++ crlf ++
  bs "aof_fsync_policy:" ++ fsync_policy_name (fsync_policy c) ++ crlf ++
  bs "aof_commands_written:" ++ to_string (commands_written_ (aof_ p)) ++ crlf ++
  bs "aof_bytes_written:" ++ to_string (bytes_written_ (aof_ p)) ++ crlf ++
  bs "aof_fsyncs:" ++ to_string (fsyncs_ (aof_ p)) ++ crlf ++
  (match last_error_ n with
   | [] => []
   | _ :: _ => bs "last_persistence_message:" ++ last_error_ n ++ crlf
   end).

(** ** Operations on the store *)

Section Operations.
Context `{UM : UnorderedMap}.
Implicit Types (s : Store) (p : Persistence).

Definition rdb_disabled : bytes := bs "RDB snapshots are disabled".

(** Each returns success and the error message. *)
Definition persist_save s p : (bool * bytes) * (Store * Persistence) :=
  if negb (rdb_enabled (config_ p)) then ((false, rdb_disabled), (s, p))
  else
    let '(t, p) := now_ms p in
    let p := set_attempt t p in
    let '(records, s) := snapshot s in
    let '(err, p) := write_snapshot records p in
    match err with
    | Some msg => ((false, msg), (s, count_failed msg p))
    | None =>
        let '(t, p) := now_ms p in
        ((true, []), (s, count_ok t (set_dirty 0 p)))
    end.

Definition persist_background_save s p : (bool * bytes) * (Store * Persistence) :=
  if negb (rdb_enabled (config_ p)) then ((false, rdb_disabled), (s, p))
  else if saving_ (thread_ p) then
    ((false, bs "Background save already in progress"), (s, p))
  else
    let '(records, s) := snapshot s in
    let p := join_if_joinable p in
    let p := set_dirty 0 p in
    let '(t, p) := now_ms p in
    let p := set_attempt t p in
    let '(io, p) := next_io p in
    ((true, []),
     (s, with_thread (mkSaverState true false
           (Some (mkSaver records (io_save io) (SaverIn SaveStart)))) p)).

Definition persist_rewrite_aof s p : (bool * bytes) * (Store * Persistence) :=
  if negb (aof_enabled (config_ p)) then ((false, bs "AOF is disabled"), (s, p))
  else
    let '(records, s) := snapshot s in
    let '(io, p) := next_io p in
    let '(err, a, d) :=
      aof_rewrite (io_rewrite io) (aof_path (config_ p)) records (aof_ p)
        (disk_ (machine_ p)) in
    ((bool_decide (err = None), default [] err), (s, with_aof a d p)).

(** The part of [cron] that looks after the log. *)
Definition cron_aof (now : Z) s p : outcome (Store * Persistence) :=
  if negb (aof_enabled (config_ p)) then Ret (s, p)
  else
    let '(io, p) := next_io p in
    '(err, a, d) ← aof_flush now (io_stream io) (aof_ p) (disk_ (machine_ p));
    let p := with_aof a d p in
    let p := match err with Some msg => set_last_error msg p | None => p end in
    if (0 <? aof_rewrite_threshold (config_ p)) &&
       (aof_rewrite_threshold (config_ p) <? commands_written_ (aof_ p)) then
      let '((done, msg), (s, p)) := persist_rewrite_aof s p in
      Ret (s, if done then p else set_last_error msg p)
    else Ret (s, p).

(** The part that starts a scheduled snapshot. *)
Definition cron_save (now : Z) s p : outcome (Store * Persistence) :=
  if rdb_enabled (config_ p) && (0 <? save_seconds (config_ p)) &&
     (0 <? save_changes (config_ p)) && negb (saving_ (thread_ p)) then
    elapsed ← sub64 now (last_save_ms_ (counters_ p));
    if (save_changes (config_ p) <=? dirty_ (counters_ p)) &&
       (save_seconds (config_ p) * 1000 <=? elapsed) then
      Ret (persist_background_save s p).2
    else Ret (s, p)
  else Ret (s, p).

Definition cron s p : outcome (Store * Persistence) :=
  let '(now, p) := now_ms p in
  '(s, p) ← cron_aof now s p;
  cron_save now s (reap_saver now p).

End Operations.

(** ** In the server's state *)

(** A state that has a [Persistence] next to its store. *)
Class PersistState `{UM : UnorderedMap} (W : Type) {SS : ServerState W} := {
  persist_of : W → Persistence;
  with_persist : Persistence → W → W;
  persist_of_with p w : persist_of (with_persist p w) = p;
  store_of_with_persist p w : store_of (with_persist p w) = store_of w;
  persist_of_with_store s w : persist_of (with_store s w) = persist_of w
}.

Section Server.
Context `{UM : UnorderedMap} {W Link : Type} {SS : ServerState W} {PS : PersistState W}.
Implicit Types (w : W).

Definition put (x : Store * Persistence) w : W := with_persist x.2 (with_store x.1 w).

(** An operation on the store and the persistence, run in the server's state. *)
Definition on_persist {A} (f : Store → Persistence → A * (Store * Persistence)) w
    : outcome (A * W) :=
  let '(r, x) := f (store_of w) (persist_of w) in Ret (r, put x w).

Definition persistence_ops : PersistenceOps W :=
  mkPersistenceOps (on_persist persist_save) (on_persist persist_background_save)
    (on_persist persist_rewrite_aof) (λ w, Ret (info_section (persist_of w))).

(** [load]: the error message of a [false] result, if any. *)
Definition load (fuel : nat) (tbl : CommandTable (W:=W) (Link:=Link)) w
    : outcome (option bytes * W) :=
  let p := persist_of w in
  let c := config_ p in
  if aof_enabled c then
    '(w, applied, truncated, err) ←
      replay (apply_silently tbl) (disk_ (machine_ p)) (aof_path c) w;
    match err with
    | Some msg => Ret (Some msg, w)
    | None =>
        let p := persist_of w in
        let p :=
          if Nat.ltb 0 truncated then
            set_last_error (bs "recovered from a torn AOF tail (" ++
              to_string (Z.of_nat truncated) ++ bs " bytes discarded)") p
          else p in
        let '(io, p) := next_io p in
        let '(err, a, d) :=
          aof_open (io_stream io) (io_opens io) (aof_path c) (fsync_policy c) (aof_ p)
            (disk_ (machine_ p)) in
        Ret (err, with_persist (with_aof a d p) w)
    end
  else if negb (rdb_enabled c) then Ret (None, w)
  else
    '(records, err) ← rdb_load_file fuel (rdb_path c) (disk_ (machine_ p));
    match err with
    | Some msg => Ret (Some msg, w)
    | None => Ret (None, with_store (load_records records (store_of w)) w)
    end.

End Server.
