(* ===== verification/PersistenceTheorems.v ===== *)
(** * Correctness of durability

    The persistence operations leave the keyspace alone, so they can be a
    command table's collaborator; there is at most one saver, and the event
    loop never waits for it; a background save records the keyspace as it was
    when it started, whatever the clients do meanwhile; what was saved loads
    again.  And the ways in which saves disturb each other. *)

From S2P Require Import Prelude UnorderedMap Store Keyspace StoreScan Commands CommandSpec Dispatch.
From S2P Require Import Files Encode Aof AofTheorems AofRewrite Recovery Rdb RdbTheorems RdbFile Persistence.

Section Theorems.
Context `{UM : UnorderedMap}.
Implicit Types (s : Store) (p : Persistence).

(** ** The store is only read *)

Lemma quiet_snapshot s : quiet s (snapshot s).2.
Proof. exact (quiet_clock s). Qed.

Lemma save_quiet_store s p r x : persist_save s p = (r, x) → quiet s x.1.
Proof.
  unfold persist_save. split_if; [intros [= <- <-]; apply quiet_refl|].
  destruct (now_ms p) as [t p1]. pose proof (quiet_snapshot s) as Hq.
  destruct (snapshot s) as [recs s1]. destruct (write_snapshot _ _) as [[msg|] p2].
  - by intros [= <- <-].
  - destruct (now_ms p2) as [t' p3]. by intros [= <- <-].
Qed.

Lemma background_save_quiet_store s p r x : persist_background_save s p = (r, x) → quiet s x.1.
Proof.
  unfold persist_background_save. repeat split_if; try (intros [= <- <-]; apply quiet_refl).
  pose proof (quiet_snapshot s) as Hq. destruct (snapshot s) as [recs s1].
  destruct (now_ms _) as [t p1]. destruct (next_io _) as [io p2]. by intros [= <- <-].
Qed.

Lemma rewrite_aof_quiet_store s p r x : persist_rewrite_aof s p = (r, x) → quiet s x.1.
Proof.
  unfold persist_rewrite_aof. split_if; [intros [= <- <-]; apply quiet_refl|].
  pose proof (quiet_snapshot s) as Hq. destruct (snapshot s) as [recs s1].
  destruct (next_io p) as [io p1]. destruct (aof_rewrite _ _ _ _ _) as [[err a] d].
  by intros [= <- <-].
Qed.

(** ** The saver *)

Definition saver_exited (p : Persistence) : bool :=
  match saver_ (thread_ p) with
  | Some v => match saver_at v with SaverExited => true | _ => false end
  | None => true
  end.

(** [saving_] says whether there is a thread that has not returned. *)
Definition saver_wf (p : Persistence) : Prop := saving_ (thread_ p) = negb (saver_exited p).

Lemma saver_step_wf p : saver_wf p → saver_wf (saver_step p).
Proof.
  unfold saver_wf, saver_exited, saver_step. destruct (thread_ p) as [sv bf [[recs env at_]|]] eqn:E;
    cbn; rewrite ?E; [|done].
  destruct at_ as [[| | | |err]| |]; cbn; rewrite ?E; cbn; try done.
  all: repeat split_if; cbn; done.
Qed.

Lemma saver_step_exited p : saver_exited p = true → saver_step p = p.
Proof.
  unfold saver_exited, saver_step. destruct (saver_ (thread_ p)) as [v|]; [|done].
  by destruct (saver_at v).
Qed.

Lemma saver_iter_exited n p : saver_exited p = true → Nat.iter n saver_step p = p.
Proof. intros H. induction n as [|n IH]; [done|]. rewrite Nat.iter_succ, IH. by apply saver_step_exited. Qed.

(** Joining a thread that has returned does not wait. *)
Lemma join_exited p :
  saver_exited p = true →
  join p = with_thread (mkSaverState (saving_ (thread_ p)) (background_failed_ (thread_ p)) None) p.
Proof. intros H. unfold join. by rewrite saver_iter_exited. Qed.

(** How many steps the thread has left. *)
Definition saver_left (p : Persistence) : nat :=
  match saver_ (thread_ p) with
  | None => 0
  | Some v =>
      match saver_at v with
      | SaverIn SaveStart => 6
      | SaverIn SaveWritten => 5
      | SaverIn SaveSynced => 4
      | SaverIn SaveRemoved => 3
      | SaverIn (SaveDone _) => 2
      | SaverClearing => 1
      | SaverExited => 0
      end
  end.

Lemma saver_left_step p : (saver_left (saver_step p) ≤ saver_left p - 1)%nat.
Proof.
  unfold saver_left, saver_step. destruct (thread_ p) as [sv bf [[recs env at_]|]] eqn:E; cbn; rewrite ?E; [|cbn; lia].
  destruct at_ as [[| | | |err]| |]; cbn; rewrite ?E; cbn; try lia.
  all: repeat split_if; cbn; lia.
Qed.

Lemma saver_left_iter n p : (saver_left (Nat.iter n saver_step p) ≤ saver_left p - n)%nat.
Proof.
  induction n as [|n IH]; [cbn; lia|]. rewrite Nat.iter_succ.
  pose proof (saver_left_step (Nat.iter n saver_step p)). lia.
Qed.

Lemma saver_left_exited p : saver_left p = 0%nat → saver_exited p = true.
Proof.
  unfold saver_left, saver_exited. destruct (saver_ (thread_ p)) as [v|]; [|done].
  by destruct (saver_at v) as [[| | | |]| |].
Qed.

Lemma saver_fuel_enough p : saver_exited (Nat.iter saver_fuel saver_step p) = true.
Proof.
  apply saver_left_exited. pose proof (saver_left_iter saver_fuel p).
  assert (saver_left p ≤ 6)%nat; [|unfold saver_fuel in *; lia].
  unfold saver_left. destruct (saver_ (thread_ p)) as [v|]; [|lia].
  destruct (saver_at v) as [[| | | |]| |]; lia.
Qed.

Lemma saver_iter_wf n p : saver_wf p → saver_wf (Nat.iter n saver_step p).
Proof. intros H. induction n as [|n IH]; [done|]. rewrite Nat.iter_succ. by apply saver_step_wf. Qed.

Lemma join_wf p : saver_wf p → saver_wf (join p).
Proof.
  intros H%(saver_iter_wf saver_fuel). pose proof (saver_fuel_enough p) as He.
  unfold join, saver_wf in *. rewrite He in H. generalize dependent (Nat.iter saver_fuel saver_step p).
  intros q Hq _. by rewrite Hq.
Qed.

(** Only the saver and the operations that start or join it touch [thread_]. *)
Lemma saver_wf_thread p p' : thread_ p' = thread_ p → saver_wf p → saver_wf p'.
Proof. unfold saver_wf, saver_exited. by intros ->. Qed.

(** ** Runs *)

(** Everything that can happen: the operations, the saver's steps, and a
    command that changes the store and is recorded. *)
Inductive persist_op := OpSave | OpBackgroundSave | OpRewriteAof | OpCron | OpWrite | OpSaver.

Inductive persist_step : persist_op → Store * Persistence → Store * Persistence → Prop :=
| step_save s p r x : persist_save s p = (r, x) → persist_step OpSave (s, p) x
| step_background_save s p r x :
    persist_background_save s p = (r, x) → persist_step OpBackgroundSave (s, p) x
| step_rewrite_aof s p r x :
    persist_rewrite_aof s p = (r, x) → persist_step OpRewriteAof (s, p) x
| step_cron s p x : cron s p = Ret x → persist_step OpCron (s, p) x
| step_write s s' p args : persist_step OpWrite (s, p) (s', on_write args p)
| step_saver s p : persist_step OpSaver (s, p) (s, saver_step p).

Definition persist_runs : relation (Store * Persistence) := rtc (λ x y, ∃ o, persist_step o x y).

(** A run while the saver is at work, without a foreground SAVE. *)
Definition during_save : relation (Store * Persistence) :=
  rtc (λ x y, saving_ (thread_ x.2) = true ∧ ∃ o, o ≠ OpSave ∧ persist_step o x y).

Lemma now_ms_thread p : thread_ (now_ms p).2 = thread_ p.
Proof. done. Qed.

Lemma write_snapshot_thread records p : thread_ (write_snapshot records p).2 = thread_ p.
Proof.
  unfold write_snapshot. cbn [next_io]. by destruct (rdb_save_file _ _ _ _ _).
Qed.

Lemma save_thread s p r x : persist_save s p = (r, x) → thread_ x.2 = thread_ p.
Proof.
  unfold persist_save. split_if; [by intros [= <- <-]|]. cbn [now_ms].
  destruct (snapshot s) as [recs s1]. destruct (write_snapshot _ _) as [err p2] eqn:E.
  pose proof (write_snapshot_thread recs (set_attempt (wall_ (machine_ p) (wall_ticks (machine_ p))) (now_ms p).2)) as H.
  cbn [now_ms snd] in H. rewrite E in H. destruct err; by intros [= <- <-].
Qed.

Lemma rewrite_aof_thread s p r x : persist_rewrite_aof s p = (r, x) → thread_ x.2 = thread_ p.
Proof.
  unfold persist_rewrite_aof. split_if; [by intros [= <- <-]|].
  destruct (snapshot s) as [recs s1]. cbn [next_io].
  destruct (aof_rewrite _ _ _ _ _) as [[err a] d]. by intros [= <- <-].
Qed.

Lemma cron_aof_thread now s p x : cron_aof now s p = Ret x → thread_ x.2 = thread_ p.
Proof.
  unfold cron_aof. split_if; [by intros [= <-]|]. cbn [next_io].
  intros ([[err a] d] & _ & H)%bind_Ret. revert H. cbn.
  set (p1 := match err with Some _ => _ | None => _ end).
  assert (thread_ p1 = thread_ p) as Hp by (by destruct err). rewrite <- Hp. clearbody p1.
  split_if; [|by intros [= <-]].
  destruct (persist_rewrite_aof s p1) as [[[|] msg] [s2 p2]] eqn:E; apply rewrite_aof_thread in E;
    by intros [= <-].
Qed.

Lemma background_save_wf s p r x :
  saver_wf p → persist_background_save s p = (r, x) → saver_wf x.2.
Proof.
  intros Hw. unfold persist_background_save. repeat split_if; by intros [= <- <-].
Qed.

Lemma reap_saver_wf now p : saver_wf p → saver_wf (reap_saver now p).
Proof.
  intros Hw. unfold reap_saver. split_if; [|done]. apply join_wf in Hw. generalize dependent (join p).
  intros q Hq. by split_if.
Qed.

Lemma cron_save_wf now s p x : saver_wf p → cron_save now s p = Ret x → saver_wf x.2.
Proof.
  intros Hw. unfold cron_save. split_if; [|by intros [= <-]].
  intros (e & _ & H)%bind_Ret. revert H. split_if; intros [= <-]; [|done].
  destruct (persist_background_save s p) as [r x] eqn:E. by eapply background_save_wf.
Qed.

Lemma cron_wf s p x : saver_wf p → cron s p = Ret x → saver_wf x.2.
Proof.
  intros Hw. unfold cron. cbn [now_ms]. intros ([s1 p1] & H & Hc)%bind_Ret.
  eapply cron_save_wf; [|done]. apply reap_saver_wf.
  eapply saver_wf_thread; [by eapply cron_aof_thread in H|done].
Qed.

Lemma persist_step_wf o x y : persist_step o x y → saver_wf x.2 → saver_wf y.2.
Proof.
  intros [s p r y' H|s p r y' H|s p r y' H|s p y' H|s s' p args|s p] Hw; cbn in Hw.
  - eapply saver_wf_thread; [by eapply save_thread|done].
  - by eapply background_save_wf.
  - eapply saver_wf_thread; [by eapply rewrite_aof_thread|done].
  - by eapply cron_wf.
  - eapply saver_wf_thread; [|done]. cbn. unfold on_write. by split_if.
  - by apply saver_step_wf.
Qed.

Lemma persist_runs_wf x y : persist_runs x y → saver_wf x.2 → saver_wf y.2.
Proof. induction 1 as [|x y z [o H] _ IH]; eauto using persist_step_wf. Qed.

(** ** The log's files and the snapshot's *)

(** The log does not use the name [q]. *)
Record log_avoids (p : Persistence) (q : bytes) : Prop := {
  avoids_open : path_ (aof_ p) ≠ q;
  avoids_path : aof_path (config_ p) ≠ q;
  avoids_temp : aof_path (config_ p) ++ bs ".rewrite" ≠ q
}.

Lemma sync_by_policy_frame now e a d a' d' q :
  sync_by_policy now e a d = Ret (a', d') → path_ a ≠ q → d' !! q = d !! q ∧ path_ a' ≠ q.
Proof.
  intros H Hq. unfold sync_by_policy in H.
  assert (∀ a1 d1 t, fsync_handle e a d = (a1, d1) → d1 !! q = d !! q ∧ path_ (count_fsync t a1) ≠ q) as Hsync.
  { intros a1 d1 t [Ep Ed]%(fsync_leaves _ _ _ _ _ q). cbn. rewrite Ep. by split; [apply Ed|]. }
  destruct (policy_ a).
  - destruct (fsync_handle e a d) as [a1 d1] eqn:E. injection H as <- <-. by apply Hsync.
  - apply bind_Ret in H as (since & _ & H). destruct (_ <=? _); [|by injection H as <- <-].
    destruct (fsync_handle e a d) as [a1 d1] eqn:E. injection H as <- <-. by apply Hsync.
  - injection H as H. apply (fflush_leaves _ _ _ _ _ q) in H as [-> Ed]. by split; [apply Ed|].
Qed.

Lemma aof_flush_frame now e a d err a' d' q :
  aof_flush now e a d = Ret (err, a', d') → path_ a ≠ q → d' !! q = d !! q ∧ path_ a' ≠ q.
Proof.
  unfold aof_flush. intros H Hq. destruct (file_ a) as [pending|]; [|by simplify_eq].
  destruct (buffer_ a) as [|b buf] eqn:Eb.
  - apply bind_Ret in H as ([a1 d1] & H & [= <- <- <-]). by eapply sync_by_policy_frame.
  - rewrite <- Eb in H. destruct (fwrite _ _ _ _) as [[n a1] d1] eqn:E.
    apply (fwrite_leaves _ _ _ _ _ _ _ q) in E as [Ep Ed]. specialize (Ed Hq).
    destruct (negb _); [injection H as <- <- <-; by rewrite Ep|].
    apply bind_Ret in H as ([a2 d2] & H & [= <- <- <-]).
    apply sync_by_policy_frame with (q := q) in H as [-> ?]; [done|cbn; congruence].
Qed.

Lemma aof_rewrite_frame env path records a d err a' d' q :
  aof_rewrite env path records a d = (err, a', d') →
  path_ a ≠ q → path ≠ q → path ++ bs ".rewrite" ≠ q → d' !! q = d !! q ∧ path_ a' ≠ q.
Proof.
  unfold aof_rewrite. intros H Hq Hp Ht.
  pose proof (rewrite_steps_leaves 5 env path records (RewriteStart, a, d) q Hq Hp Ht) as Hl.
  destruct (rewrite_steps 5 _ _ _ _) as [[ph a1] d1]. by injection H as <- <- <-.
Qed.

Lemma on_write_frame args p q :
  log_avoids p q → disk_ (machine_ (on_write args p)) = disk_ (machine_ p) ∧
  log_avoids (on_write args p) q.
Proof.
  intros [Ho Hp Ht]. unfold on_write. split_if; (split; [done|]); split; cbn; try done.
  unfold aof_append. destruct (file_ (aof_ p)); [|done]. by destruct args.
Qed.

Lemma rewrite_aof_frame s p r x q :
  persist_rewrite_aof s p = (r, x) → log_avoids p q →
  disk_ (machine_ x.2) !! q = disk_ (machine_ p) !! q ∧ log_avoids x.2 q.
Proof.
  unfold persist_rewrite_aof. intros H [Ho Hp Ht]. destruct (negb _); [by simplify_eq|].
  destruct (snapshot s) as [recs s1]. cbn [next_io] in H.
  destruct (aof_rewrite _ _ _ _ _) as [[err a] d] eqn:E. simplify_eq.
  apply aof_rewrite_frame with (q := q) in E as [? ?]; done.
Qed.

Lemma cron_aof_frame now s p x q :
  cron_aof now s p = Ret x → log_avoids p q →
  disk_ (machine_ x.2) !! q = disk_ (machine_ p) !! q ∧ log_avoids x.2 q.
Proof.
  unfold cron_aof. intros H [Ho Hp Ht]. destruct (negb _); [by simplify_eq|].
  cbn [next_io] in H. apply bind_Ret in H as ([[err a] d] & Hf & H).
  apply aof_flush_frame with (q := q) in Hf as [Hd Ha]; [|done]. cbn in Hd.
  revert H. cbn zeta. set (p1 := match err with Some _ => _ | None => _ end).
  assert (disk_ (machine_ p1) !! q = disk_ (machine_ p) !! q ∧ log_avoids p1 q) as [Hd1 Ha1].
  { by destruct err. }
  rewrite <- Hd1. clearbody p1. split_if; [|by intros [= <-]].
  destruct (persist_rewrite_aof s p1) as [[[|] msg] [s2 p2]] eqn:E;
    apply rewrite_aof_frame with (q := q) in E as [Hd2 [? ? ?]]; [|done| |done]; by intros [= <-].
Qed.
(** ** A background save at work *)

(** The configuration and the process id never change. *)
Definition same_names (p p' : Persistence) : Prop :=
  config_ p' = config_ p ∧ pid_ (machine_ p') = pid_ (machine_ p).

Lemma rewrite_aof_names s p r x : persist_rewrite_aof s p = (r, x) → same_names p x.2.
Proof.
  unfold persist_rewrite_aof. split_if; [by intros [= <- <-]|]. destruct (snapshot s) as [recs s1].
  cbn [next_io]. destruct (aof_rewrite _ _ _ _ _) as [[err a] d]. by intros [= <- <-].
Qed.

Lemma cron_aof_names now s p x : cron_aof now s p = Ret x → same_names p x.2.
Proof.
  unfold cron_aof. split_if; [by intros [= <-]|]. cbn [next_io].
  intros ([[err a] d] & _ & H)%bind_Ret. revert H. cbn zeta.
  set (p1 := match err with Some _ => _ | None => _ end).
  assert (same_names p p1) as [Hc Hp] by (by destruct err). clearbody p1.
  split_if; [|by intros [= <-]].
  destruct (persist_rewrite_aof s p1) as [[[|] msg] [s2 p2]] eqn:E;
    apply rewrite_aof_names in E as [? ?]; intros [= <-]; split; cbn in *; congruence.
Qed.

(** The saver's phase; a thread past [rdb_save_file] has its result in
    [background_failed_]. *)
Definition saver_phase (t : SaverState) (v : Saver) (ph : save_phase) : Prop :=
  match saver_at v with
  | SaverIn ph' => ph = ph' ∧ background_failed_ t = false
  | _ => ∃ err, ph = SaveDone err ∧ background_failed_ t = bool_decide (is_Some err)
  end.

(** A saver that writes [records], started when the disk was [d0], is doing
    what it would do alone. *)
Record saver_alone (c : PersistenceConfig) (pid : Z) (d0 : disk) (records : list KeyRecord)
    (p : Persistence) : Prop := {
  alone_names : config_ p = c ∧ pid_ (machine_ p) = pid;
  alone_log : log_avoids p (rdb_path c) ∧ log_avoids p (rdb_temp (rdb_path c) pid);
  alone_saver : ∃ v ph,
    saver_ (thread_ p) = Some v ∧ saver_records v = records ∧ saver_phase (thread_ p) v ph ∧
    save_inv (saver_env v) (rdb_path c) (rdb_temp (rdb_path c) pid) (rdb_serialize records) d0
      (ph, disk_ (machine_ p))
}.

Lemma save_inv_ext env path temp payload d0 ph d d' :
  d' !! path = d !! path → d' !! temp = d !! temp →
  save_inv env path temp payload d0 (ph, d) → save_inv env path temp payload d0 (ph, d').
Proof. intros Hp Ht [H1 H2]. split; cbn in *; by rewrite ?Hp, ?Ht. Qed.

(** Steps that leave the thread and the snapshot's files alone. *)
Lemma saver_alone_frame c pid d0 records p p' :
  saver_alone c pid d0 records p → same_names p p' → thread_ p' = thread_ p →
  (∀ q, log_avoids p q → disk_ (machine_ p') !! q = disk_ (machine_ p) !! q ∧ log_avoids p' q) →
  saver_alone c pid d0 records p'.
Proof.
  intros [[<- <-] [Hl1 Hl2] (v & ph & Hv & Hr & Hph & Hi)] [Hc Hp] Ht Hf.
  destruct (Hf _ Hl1) as [Hd1 Hl1'], (Hf _ Hl2) as [Hd2 Hl2']. split.
  - by rewrite Hc, Hp.
  - done.
  - exists v, ph. rewrite Ht. split_and!; try done. by eapply save_inv_ext.
Qed.

Lemma saver_alone_step c pid d0 records p :
  saver_alone c pid d0 records p → saver_alone c pid d0 records (saver_step p).
Proof.
  intros [[<- <-] [[? ? ?] [? ? ?]] (v & ph & Hv & <- & Hph & Hi)]. unfold saver_step. rewrite Hv.
  destruct (thread_ p) as [sv bf o] eqn:Et. cbn in Hv. subst o. destruct v as [recs env at_].
  unfold saver_phase in Hph. cbn [saver_at saver_records saver_env background_failed_] in *.
  destruct at_ as [ph'| |].
  - destruct Hph as [<- ->].
    pose proof (save_step_inv env (rdb_path (config_ p)) _ _ d0 _ (rdb_temp_ne _ _) Hi) as Hi'.
    cbn [fst snd] in Hi'. destruct ph as [| | | |err].
    5: { split; [done|done|]. eexists _, (SaveDone err). cbn. split_and!; try done.
         exists err. split; [done|]. by destruct err. }
    all: destruct (save_step _ _ _ _ _ _) as [ph2 d2]; (split; [done|done|]);
      by eexists _, ph2.
  - split; [done|done|]. by eexists _, ph.
  - split; [done|done|]. exists (mkSaver recs env SaverExited), ph. by rewrite Et.
Qed.

Lemma cron_while_saving s p x :
  cron s p = Ret x → saving_ (thread_ p) = true → ∃ now, cron_aof now s (now_ms p).2 = Ret x.
Proof.
  unfold cron. cbn [now_ms snd]. intros ([s1 p1] & H & Hc)%bind_Ret Hs.
  pose proof (cron_aof_thread _ _ _ _ H) as Ht. cbn in Ht. rewrite <- Ht in Hs.
  unfold reap_saver in Hc. rewrite Hs in Hc. cbn in Hc. unfold cron_save in Hc. rewrite Hs in Hc.
  cbn [negb] in Hc. rewrite !andb_false_r in Hc. injection Hc as <-. by eexists.
Qed.

Lemma saver_alone_during c pid d0 records x y :
  during_save x y → saver_alone c pid d0 records x.2 → saver_alone c pid d0 records y.2.
Proof.
  induction 1 as [|x y z (Hs & o & Ho & Hst) _ IH]; [done|]. intros Ha. apply IH. clear IH z.
  destruct Hst as [s p r x H|s p r x H|s p r x H|s p x H|s s' p args|s p]; cbn in *.
  - done.
  - unfold persist_background_save in H. rewrite Hs in H.
    destruct (negb (rdb_enabled (config_ p))); by simplify_eq.
  - eapply saver_alone_frame; [done|by eapply rewrite_aof_names|by eapply rewrite_aof_thread|].
    intros q. by eapply rewrite_aof_frame.
  - destruct (cron_while_saving _ _ _ H Hs) as [now Hc].
    eapply (saver_alone_frame _ _ _ _ p); [done|by apply cron_aof_names in Hc|
      by apply cron_aof_thread in Hc|].
    intros q [? ? ?]. apply (cron_aof_frame _ _ _ _ q) in Hc; [|done]. done.
  - eapply saver_alone_frame; [done|unfold on_write; by split_if|unfold on_write; by split_if|].
    intros q Hq. destruct (on_write_frame args p q Hq) as [-> ?]. done.
  - by apply saver_alone_step.
Qed.

(** ** Loading what was saved *)

Lemma rdb_load_synced (fuel : nat) (path : bytes) (d : disk) records n :
  d !! path = Some (mkFile (rdb_serialize records) n) → Forall record_ok records →
  size (rdb_serialize records) < 2 ^ 64 → (length (rdb_serialize records) ≤ fuel)%nat →
  rdb_load_file fuel path d = Ret (records, None).
Proof.
  intros Hd Hr Hs Hl. unfold rdb_load_file. rewrite Hd. cbn [cached].
  pose proof (rdb_serialize_nonempty records). destruct (rdb_serialize records) eqn:E; [done|].
  rewrite <- E in *. by apply rdb_parse_serialized.
Qed.

Lemma save_writes s p s1 p1 :
  persist_save s p = ((true, []), (s1, p1)) →
  rdb_enabled (config_ p) = true ∧
  (∃ n, disk_ (machine_ p1) !! rdb_path (config_ p) =
    Some (mkFile (rdb_serialize (snapshot s).1) n)) ∧
  disk_ (machine_ p1) !! rdb_temp (rdb_path (config_ p)) (pid_ (machine_ p)) = None ∧
  same_names p p1.
Proof.
  unfold persist_save. destruct (rdb_enabled (config_ p)); [|done]. cbn [negb now_ms].
  destruct (snapshot s) as [recs s2]. unfold write_snapshot. cbn [next_io].
  destruct (rdb_save_file _ _ _ _ _) as [err d] eqn:E. apply rdb_save_target in E.
  destruct err; [done|]. destruct E. intros [= <- <-]. split_and!; try done. by eexists.
Qed.

Lemma background_save_starts s p s1 p1 :
  persist_background_save s p = ((true, []), (s1, p1)) →
  rdb_enabled (config_ p) = true ∧ saving_ (thread_ p) = false ∧
  ∃ env, thread_ p1 = mkSaverState true false
    (Some (mkSaver (snapshot s).1 env (SaverIn SaveStart))).
Proof.
  unfold persist_background_save. destruct (rdb_enabled (config_ p)); [|done]. cbn [negb].
  destruct (saving_ (thread_ p)); [done|]. destruct (snapshot s) as [recs s2].
  destruct (now_ms _) as [t q1]. destruct (next_io _) as [io q2]. intros [= <- <-].
  split; [done|]. split; [done|]. by eexists.
Qed.

(** A save that found the previous thread returned changes no file. *)
Lemma background_save_keeps s p s1 p1 :
  persist_background_save s p = ((true, []), (s1, p1)) → saver_wf p →
  same_names p p1 ∧ aof_ p1 = aof_ p ∧ disk_ (machine_ p1) = disk_ (machine_ p).
Proof.
  intros H Hw. destruct (background_save_starts _ _ _ _ H) as (Hr & Hs & _).
  assert (saver_exited p = true) as He.
  { unfold saver_wf in Hw. rewrite Hs in Hw. by destruct (saver_exited p). }
  unfold persist_background_save in H. rewrite Hr, Hs in H. cbn [negb] in H.
  unfold join_if_joinable in H. rewrite join_exited in H by done.
  destruct (snapshot s) as [recs s2]. destruct (joinable p); injection H as <- <-; done.
Qed.

Lemma background_save_dirty s p s1 p1 :
  persist_background_save s p = ((true, []), (s1, p1)) → dirty_ (counters_ p1) = 0.
Proof.
  unfold persist_background_save. destruct (negb _); [done|]. destruct (saving_ _); [done|].
  destruct (snapshot s). cbn [now_ms next_io]. by intros [= <- <-].
Qed.

Lemma saver_step_counters p : counters_ (saver_step p) = counters_ p.
Proof.
  unfold saver_step. destruct (saver_ (thread_ p)) as [v|]; [|done].
  destruct (saver_at v) as [[| | | |]| |]; try done; by destruct (save_step _ _ _ _ _ _).
Qed.

Lemma saver_step_joinable p : joinable (saver_step p) = joinable p.
Proof.
  unfold joinable, saver_step. destruct (saver_ (thread_ p)) as [v|] eqn:E; [|by rewrite E].
  destruct (saver_at v) as [[| | | |]| |]; try destruct (save_step _ _ _ _ _ _); cbn; by rewrite ?E.
Qed.

Lemma saver_iter_counters n p : counters_ (Nat.iter n saver_step p) = counters_ p.
Proof. induction n; [done|]. by rewrite Nat.iter_succ, saver_step_counters. Qed.

Lemma saver_iter_joinable n p : joinable (Nat.iter n saver_step p) = joinable p.
Proof. induction n; [done|]. by rewrite Nat.iter_succ, saver_step_joinable. Qed.

(** ** A save that took the saver's file away *)

(** The saver has written its temporary file, but it is gone: the snapshot will
    be removed and nothing put in its place. *)
Definition saver_robbed (p : Persistence) : Prop :=
  let path := rdb_path (config_ p) in
  let temp := rdb_temp path (pid_ (machine_ p)) in
  let d := disk_ (machine_ p) in
  ∃ v, saver_ (thread_ p) = Some v ∧ save_removes (saver_env v) = true ∧
  match saver_at v with
  | SaverIn SaveStart => False
  | SaverIn (SaveWritten | SaveSynced) => d !! temp = None
  | SaverIn SaveRemoved => d !! temp = None ∧ d !! path = None
  | SaverIn (SaveDone err) => is_Some err ∧ d !! path = None
  | SaverClearing | SaverExited => background_failed_ (thread_ p) = true ∧ d !! path = None
  end.

Lemma saver_robbed_step p : saver_robbed p → saver_robbed (saver_step p) ∧ same_names p (saver_step p).
Proof.
  unfold saver_robbed, saver_step, same_names. intros (v & Hv & Hrm & H). rewrite Hv.
  destruct v as [recs env at_]. cbn [saver_at saver_env saver_records] in *.
  pose proof (rdb_temp_ne (rdb_path (config_ p)) (pid_ (machine_ p))) as Hne.
  destruct at_ as [[| | | |err]| |]; cbn [save_step]; [done| | | | | |].
  - split; [|done]. eexists. split_and!; [done..|]. cbn. destruct (save_syncs env); [|done].
    unfold d_sync. by rewrite lookup_alter_eq, H.
  - split; [|done]. eexists. split_and!; [done..|]. cbn. rewrite Hrm. unfold try_remove, d_remove.
    by rewrite lookup_delete_ne, lookup_delete_eq.
  - destruct H as [Ht Hp]. rewrite Ht. rewrite andb_false_r. split; [|done]. eexists.
    split_and!; [done..|]. cbn. split; [by eexists|]. by rewrite lookup_try_remove_ne.
  - destruct H as [[e ->] Hp]. split; [|done]. by eexists.
  - split; [|done]. by eexists.
  - split; [|done]. by eexists.
Qed.

Lemma saver_robbed_iter n p :
  saver_robbed p →
  saver_robbed (Nat.iter n saver_step p) ∧ same_names p (Nat.iter n saver_step p).
Proof.
  intros H. induction n as [|n [IH [Hc Hp]]]; [done|]. rewrite Nat.iter_succ.
  destruct (saver_robbed_step _ IH) as [? [? ?]]. split; [done|]. split; congruence.
Qed.

(** ** Properties *)

(** C16: the saver.  Whatever operations, saver steps and writes happened since
    the start, [saving_] is true exactly while the thread runs; a second
    background save is refused then; otherwise joining the thread does not
    wait, so neither BGSAVE nor [cron] blocks the event loop; and the thread
    returns after at most six steps of its own. *)
Theorem saver_exclusive c m s x :
  persist_runs (s, new_persistence c m) x →
  saving_ (thread_ x.2) = negb (saver_exited x.2) ∧
  (saving_ (thread_ x.2) = true → rdb_enabled (config_ x.2) = true →
   persist_background_save x.1 x.2 =
     ((false, bs "Background save already in progress"), x)) ∧
  (saving_ (thread_ x.2) = false →
   join x.2 = with_thread (mkSaverState false (background_failed_ (thread_ x.2)) None) x.2) ∧
  saving_ (thread_ (Nat.iter saver_fuel saver_step x.2)) = false.
Proof.
  intros Hr%persist_runs_wf; [|done]. destruct x as [s1 p]. cbn [fst snd] in *. split; [done|].
  split; [|split].
  - intros Hs Hen. unfold persist_background_save. by rewrite Hen, Hs.
  - intros Hs. rewrite join_exited; [by rewrite Hs|].
    unfold saver_wf in Hr. rewrite Hs in Hr. by destruct (saver_exited p).
  - pose proof (saver_iter_wf saver_fuel p Hr) as H. unfold saver_wf in H.
    by rewrite saver_fuel_enough in H.
Qed.

(** C15: a background save is a snapshot of the moment it was asked for.
    Whatever clients write, and whatever the log does, while the saver runs,
    when it has finished without failure the file holds the records of the
    keyspace at the time of the BGSAVE; if it failed, the file is the old one
    or is gone.  (The log must not share file names with the snapshot, and no
    foreground SAVE may run meanwhile: see [save_during_bgsave_loses].) *)
Theorem background_save_consistent s p s1 p1 x fuel :
  saver_wf p → store_wf s →
  log_avoids p (rdb_path (config_ p)) →
  log_avoids p (rdb_temp (rdb_path (config_ p)) (pid_ (machine_ p))) →
  size (rdb_serialize (snapshot s).1) < 2 ^ 64 →
  (length (rdb_serialize (snapshot s).1) ≤ fuel)%nat →
  persist_background_save s p = ((true, []), (s1, p1)) →
  during_save (s1, p1) x → saving_ (thread_ x.2) = false →
  if background_failed_ (thread_ x.2) then
    disk_ (machine_ x.2) !! rdb_path (config_ p) = disk_ (machine_ p) !! rdb_path (config_ p) ∨
    disk_ (machine_ x.2) !! rdb_path (config_ p) = None
  else rdb_load_file fuel (rdb_path (config_ p)) (disk_ (machine_ x.2)) =
    Ret ((snapshot s).1, None).
Proof.
  intros Hw Hs Hl1 Hl2 Hsz Hf Hb Hd Hsv.
  destruct (background_save_keeps _ _ _ _ Hb Hw) as ([Hc Hp] & Ha & Hdisk).
  destruct (background_save_starts _ _ _ _ Hb) as (_ & _ & env & Ht).
  assert (∀ q, log_avoids p q → log_avoids p1 q) as Hlog.
  { intros q [? ? ?]. split; by rewrite ?Ha, ?Hc. }
  assert (saver_wf x.2) as Hwx.
  { eapply persist_runs_wf; [|eapply (background_save_wf _ _ _ (s1, p1)); eassumption].
    eapply rtc_subrel; [|exact Hd]. by intros ? ? (_ & o & _ & ?); exists o. }
  eapply (saver_alone_during (config_ p) (pid_ (machine_ p)) (disk_ (machine_ p)) (snapshot s).1)
    in Hd as [_ _ (v & ph & Hv & Hr & Hph & [Hi _])].
  2: { split; [done|by split; apply Hlog|]. cbn [snd]. rewrite Ht, Hdisk.
       by eexists _, SaveStart. }
  unfold saver_wf, saver_exited in Hwx. rewrite Hsv, Hv in Hwx. unfold saver_phase in Hph.
  destruct (saver_at v); try done. destruct Hph as (err & -> & ->). cbn [fst snd] in Hi.
  destruct err; [done|]. rewrite bool_decide_false by (by intros []).
  eapply rdb_load_synced; eauto using snapshot_records_ok.
Qed.

(** What SAVE saved, a start restores.  After a SAVE that reported
    success, [load] on a server that finds these files, with the log off and an
    empty store, succeeds, and at a time [t] not before the save its keyspace
    is the one that was saved, from [t] on. *)
Lemma save_restores {W Link : Type} {SS : ServerState W} {PS : PersistState W}
    (tbl : CommandTable (W:=W) (Link:=Link)) (w : W) s p s1 p1 t t' fuel :
  persist_save s p = ((true, []), (s1, p1)) →
  store_wf s → size (rdb_serialize (snapshot s).1) < 2 ^ 64 →
  (length (rdb_serialize (snapshot s).1) ≤ fuel)%nat →
  config_ (persist_of w) = config_ p → aof_enabled (config_ p) = false →
  disk_ (machine_ (persist_of w)) = disk_ (machine_ p1) →
  view t' (store_of w) = ∅ → now s ≤ t → t ≤ t' →
  ∃ w', load fuel tbl w = Ret (None, w') ∧
    (steady t (store_of w) (store_of w') → view t' (store_of w') = view t' s).
Proof.
  intros Hsave Hw Hsz Hf Hc Haof Hd H0 Hn Ht.
  destruct (save_writes _ _ _ _ Hsave) as (Hr & [n Hfile] & _).
  exists (with_store (load_records (snapshot s).1 (store_of w)) w). split.
  - unfold load. rewrite Hc, Haof, Hr. cbn [negb].
    rewrite (rdb_load_synced fuel _ _ (snapshot s).1 n);
      eauto using snapshot_records_ok. by rewrite Hd.
  - rewrite store_of_with. intros Hst. rewrite (load_records_view t) by
      (done || apply snapshot_keys_NoDup || (apply Forall_forall; intros; by rewrite H0)).
    rewrite snapshot_map, H0 by done. rewrite (right_id_L ∅ (∪)). symmetry. apply view_expire. lia.
Qed.

(** SAVE during BGSAVE loses both snapshots.  They share one temporary
    name.  If the saver has written its temporary file when a SAVE runs, SAVE
    reports success, having renamed the file away; the saver then removes the
    snapshot and has nothing to rename.  No snapshot is left on disk, the old
    one included, although SAVE answered OK. *)
Theorem save_during_bgsave_loses s p v s1 p1 :
  saver_ (thread_ p) = Some v → saver_at v = SaverIn SaveWritten → save_removes (saver_env v) = true →
  persist_save s p = ((true, []), (s1, p1)) →
  let q := Nat.iter saver_fuel saver_step p1 in
  saver_exited q = true ∧ background_failed_ (thread_ q) = true ∧
  disk_ (machine_ q) !! rdb_path (config_ p) = None.
Proof.
  intros Hv Ha Hrm Hs. destruct (save_writes _ _ _ _ Hs) as (_ & _ & Ht & [Hc Hp]).
  pose proof (save_thread _ _ _ _ Hs) as Hth. cbn in Hth. pose proof (saver_fuel_enough p1) as He.
  destruct (saver_robbed_iter saver_fuel p1) as [(v' & Hv' & _ & H) [Hc' _]].
  { exists v. rewrite Hth, Hv, Ha, Hc, Hp. done. }
  generalize dependent (Nat.iter saver_fuel saver_step p1). intros q Hex Hv' H Hc'.
  rewrite Hc', Hc in H. unfold saver_exited in *. rewrite Hv' in *. cbn zeta.
  by destruct (saver_at v').
Qed.

(** A background save that fails is not tried again.  BGSAVE, and the
    schedule of [cron], reset the count of unsaved writes when the save starts.
    When the save fails, [cron] counts the failure, but the writes it should
    have saved no longer count: no snapshot is started, however long ago the
    last good one was. *)
Theorem failed_save_forgets_writes s p s1 p1 now s2 p2 :
  saver_wf p → persist_background_save s p = ((true, []), (s1, p1)) →
  background_failed_ (thread_ (Nat.iter saver_fuel saver_step p1)) = true →
  cron_save now s1 (reap_saver now (Nat.iter saver_fuel saver_step p1)) = Ret (s2, p2) →
  dirty_ (counters_ p2) = 0 ∧ saver_ (thread_ p2) = None ∧
  saves_failed_ (counters_ p2) = wrap64 (saves_failed_ (counters_ p1) + 1) ∧
  last_error_ (counters_ p2) = bs "background save failed".
Proof.
  intros Hw Hb. pose proof (background_save_wf _ _ _ (s1, p1) Hw Hb) as Hw1. cbn in Hw1.
  pose proof (background_save_dirty _ _ _ _ Hb) as Hd.
  pose proof (saver_fuel_enough p1) as He. pose proof (saver_iter_wf saver_fuel p1 Hw1) as Hw2.
  pose proof (saver_iter_counters saver_fuel p1) as Hc.
  pose proof (saver_iter_joinable saver_fuel p1) as Hj.
  destruct (background_save_starts _ _ _ _ Hb) as (_ & _ & env & Ht).
  generalize dependent (Nat.iter saver_fuel saver_step p1). intros q He Hw2 Hc Hj Hf.
  unfold saver_wf in Hw2. rewrite He in Hw2. cbn in Hw2.
  unfold reap_saver. rewrite Hw2, Hj. unfold joinable. rewrite Ht. cbn [saver_ negb andb].
  rewrite bool_decide_true by done. rewrite join_exited, Hw2, Hf by done. cbn.
  unfold cron_save. cbn. rewrite Hc, Hd. split_if; [|intros [= <- <-]; cbn; by rewrite Hc].
  intros (e & _ & H)%bind_Ret. revert H.
  destruct (Z.leb_spec (save_changes (config_ q)) 0); cbn; [breflect; lia|].
  intros [= <- <-]. cbn. by rewrite Hc.
Qed.
End Theorems.

(** ** The interface of the command table *)

Section Interface.
Context `{UM : UnorderedMap} {W Link : Type} {SS : ServerState W} {PS : PersistState W}.
Implicit Types (w : W).

Lemma on_persist_quiet {A} (f : Store → Persistence → A * (Store * Persistence)) w r w' :
  (∀ s p r x, f s p = (r, x) → quiet s x.1) → on_persist f w = Ret (r, w') →
  quiet (store_of w) (store_of w').
Proof.
  intros Hf. unfold on_persist. destruct (f _ _) as [r1 x] eqn:E. intros [= <- <-].
  unfold put. rewrite store_of_with_persist, store_of_with. by eapply Hf.
Qed.

(** [Persistence] keeps the promises the command table relies on. *)
Lemma persistence_ops_laws : PersistenceLaws (persistence_ops (W:=W)).
Proof.
  split; intros w r w' H; (eapply on_persist_quiet; [|exact H]); intros s p r' x.
  - apply save_quiet_store.
  - apply background_save_quiet_store.
  - apply rewrite_aof_quiet_store.
Qed.

End Interface.

(** ** Witnesses *)

Section Witnesses.
#[local] Existing Instance gmap_table.

(** The least server with a persistence. *)
#[local] Instance pair_server : ServerState (Store * Persistence) := {
  store_of := fst;
  with_store s w := (s, w.2);
  stats_info w := ([], w);
  store_of_with _ _ := eq_refl;
  with_store_of w := match w with (s, p) => eq_refl end;
  with_store_with _ _ _ := eq_refl;
  store_of_info _ := eq_refl
}.

#[local] Instance pair_persist : PersistState (Store * Persistence) := {
  persist_of := snd;
  with_persist p w := (w.1, p);
  persist_of_with _ _ := eq_refl;
  store_of_with_persist _ _ := eq_refl;
  persist_of_with_store _ _ := eq_refl
}.

Definition good_io : io_env :=
  mkIo (mkSaveEnv true 1000 true true true true) good_rewrite good_stream true.
Definition bad_io : io_env :=
  mkIo (mkSaveEnv false 0 true true true true) good_rewrite good_stream true.

Definition machine_with (io : io_env) : Machine :=
  mkMachine ∅ 7 (λ _, 5000) 0 (λ _, io) 0.

Definition one_key : Store := set (bs "k") (bs "v") kNoExpiry (new_store ten).
Definition fresh (io : io_env) : Persistence :=
  new_persistence default_PersistenceConfig (machine_with io).

Lemma one_saved_wf : store_wf one_key.
Proof. apply wf_set; [apply wf_new|done]. Qed.

(** The server after a BGSAVE, and [n] steps of the saver later. *)
Definition bgsaved (io : io_env) : Store * Persistence :=
  (persist_background_save one_key (fresh io)).2.
Definition saver_later (io : io_env) (n : nat) : Persistence :=
  Nat.iter n saver_step (bgsaved io).2.

Lemma saver_exclusive_witness :
  persist_background_save (bgsaved good_io).1 (bgsaved good_io).2 =
    ((false, bs "Background save already in progress"), bgsaved good_io).
Proof.
  refine (proj1 (proj2 (saver_exclusive default_PersistenceConfig (machine_with good_io) one_key
    (bgsaved good_io) _)) _ _).
  - eapply rtc_once. exists OpBackgroundSave. eapply step_background_save. reflexivity.
  - reflexivity.
  - reflexivity.
Defined.

Lemma pair_eta {A B C} (x : A * (B * C)) (a : A) : x.1 = a → x = (a, (x.2.1, x.2.2)).
Proof. destruct x as [? [? ?]]. by intros <-. Qed.

Lemma fresh_avoids io (q : bytes) :
  [] ≠ q → bs "./appendonly.aof" ≠ q → bs "./appendonly.aof.rewrite" ≠ q →
  log_avoids (fresh io) q.
Proof. by split. Defined.

Definition finished : Store * Persistence := ((bgsaved good_io).1, saver_later good_io 6).

Lemma saver_done : thread_ finished.2 =
  mkSaverState false false (Some (mkSaver (snapshot one_key).1 (io_save good_io) SaverExited)).
Proof. reflexivity. Qed.

Lemma saver_runs (s : Store) (p : Persistence) n :
  (∀ i, (i < n)%nat → saving_ (thread_ (Nat.iter i saver_step p)) = true) →
  during_save (s, p) (s, Nat.iter n saver_step p).
Proof.
  intros H. induction n as [|n IH]; [apply rtc_refl|]. eapply rtc_r.
  { apply IH. intros i Hi. apply H. lia. }
  split; [apply H; lia|]. exists OpSaver. split; [done|constructor].
Qed.

Lemma bgsaved_busy i : (i < 6)%nat → saving_ (thread_ (saver_later good_io i)) = true.
Proof. intros Hi. do 6 (destruct i as [|i]; [reflexivity|]). lia. Qed.

Lemma background_save_consistent_witness :
  rdb_load_file 1000 (rdb_path (config_ (fresh good_io))) (disk_ (machine_ finished.2)) =
    Ret ((snapshot one_key).1, None).
Proof.
  pose proof (background_save_consistent one_key (fresh good_io) (bgsaved good_io).1
    (bgsaved good_io).2 finished 1000) as H.
  rewrite saver_done in H. apply H; clear H.
  - reflexivity.
  - exact one_saved_wf.
  - by apply fresh_avoids.
  - by apply fresh_avoids.
  - vm_compute. reflexivity.
  - apply Nat.leb_le. vm_compute. reflexivity.
  - reflexivity.
  - apply saver_runs. exact bgsaved_busy.
  - reflexivity.
Defined.

Lemma save_restores_witness :
  ∃ w', load 1000 (mkTable None None : CommandTable (W:=Store * Persistence) (Link:=unit))
      (new_store ten, (persist_save one_key (fresh good_io)).2.2) = Ret (None, w') ∧
    (steady 10 (new_store ten) w'.1 → view 20 w'.1 = view 20 one_key).
Proof.
  refine (save_restores (mkTable None None) (new_store ten, (persist_save one_key (fresh good_io)).2.2)
    one_key (fresh good_io) (persist_save one_key (fresh good_io)).2.1
    (persist_save one_key (fresh good_io)).2.2 10 20 1000 _ one_saved_wf _ _ _ _ _ _ _ _).
  - reflexivity.
  - vm_compute. reflexivity.
  - apply Nat.leb_le. vm_compute. reflexivity.
  - reflexivity.
  - reflexivity.
  - reflexivity.
  - apply view_new.
  - done.
  - lia.
Defined.

Lemma save_during_bgsave_loses_witness :
  let w := persist_save one_key (saver_later good_io 1) in
  w.1 = (true, []) ∧
  disk_ (machine_ (Nat.iter saver_fuel saver_step w.2.2)) !! bs "./dump.rdb" = None.
Proof.
  split; [reflexivity|].
  refine (proj2 (proj2 (save_during_bgsave_loses one_key (saver_later good_io 1) _
    (persist_save one_key (saver_later good_io 1)).2.1
    (persist_save one_key (saver_later good_io 1)).2.2 _ _ _ _))).
  - reflexivity.
  - reflexivity.
  - reflexivity.
  - apply pair_eta. reflexivity.
Defined.

Lemma failed_save_forgets_writes_witness :
  let p2 := reap_saver 900000 (saver_later bad_io saver_fuel) in
  cron_save 900000 (bgsaved bad_io).1 p2 = Ret ((bgsaved bad_io).1, p2) ∧
  dirty_ (counters_ p2) = 0.
Proof.
  split; [reflexivity|].
  refine (proj1 (failed_save_forgets_writes one_key (fresh bad_io) (bgsaved bad_io).1
    (bgsaved bad_io).2 900000 (bgsaved bad_io).1 (reap_saver 900000 (saver_later bad_io saver_fuel)) _ _ _ _)).
  - reflexivity.
  - apply pair_eta. reflexivity.
  - reflexivity.
  - reflexivity.
Defined.

End Witnesses.
