(* ===== verification/Journal.v ===== *)
(** * The log as a memory of the keyspace

    What the commands in a log stand for, as a function on keyspaces, and how
    the operations of [Persistence] keep a log that stands for the store: a
    write appends its command, a rewrite replaces the log by one that recreates
    the keyspace, and the snapshots leave the log's file alone. *)

From S2P Require Import Prelude Resp UnorderedMap Glob Store Keyspace StoreScan StoreRefinement Stats.
From S2P Require Import Commands CommandSpec Dispatch Encode Files Aof AofTheorems AofRewrite Recovery Rdb.
From S2P Require Import RdbTheorems RdbFile Persistence PersistenceTheorems.

(** ** What a log stands for *)

(** The keyspace after the commands, all applied at time [T]. *)
Definition replayed (T : Z) (cmds : list Args) (m : keyspace) : keyspace :=
  foldl (λ m p, match effect_of p with Some e => ks_expire T (ks_effect e m) | None => m end) m cmds.

Definition canonical (cmds : list Args) : Prop := Forall (λ p, is_Some (effect_of p)) cmds.

Section Journal.
Context `{UM : UnorderedMap}.
Implicit Types (s : Store) (p : Persistence).

(** Replayed at [T] into an empty server, the commands give the keyspace that
    [s] has at [T]. *)
Definition remembers (T : Z) (cmds : list Args) s : Prop := replayed T cmds ∅ = view T s.

Lemma replayed_app T c1 c2 m : replayed T (c1 ++ c2) m = replayed T c2 (replayed T c1 m).
Proof. apply foldl_app. Qed.

Lemma apply_all_replayed {W Link} {SS : ServerState W} (tbl : CommandTable (W:=W) (Link:=Link)) T cmds w w' :
  canonical cmds → apply_all (apply_silently tbl) cmds w = Ret w' → steady T (store_of w) (store_of w') →
  view T (store_of w') = replayed T cmds (view T (store_of w)).
Proof.
  intros Hc. revert w. induction Hc as [|a cmds [e He] Hc IH]; intros w H Hs; cbn [apply_all] in H.
  { by injection H as <-. }
  destruct (apply_silently_canonical tbl a e w He) as (w1 & E1 & L1 & Heff). rewrite E1 in H.
  cbn [mbind outcome_bind] in H. destruct (apply_all_runs tbl cmds w1 Hc) as (w2 & E2 & L2).
  rewrite H in E2. injection E2 as <-. destruct (steady_split T _ _ _ L1 L2 Hs) as [Hs1 Hs2].
  rewrite (IH _ H Hs2), (Heff T Hs1 T) by done. cbn. by rewrite He.
Qed.

(** A write is remembered by appending its command. *)
Lemma remembers_effect t T cmds e a s s' :
  remembers T cmds s → effect_of a = Some e → has_effect t e s s' → t ≤ T →
  (∀ k d, e = WDeadline k d → is_Some (view T s !! k)) →
  remembers T (cmds ++ [a]) s'.
Proof.
  unfold remembers. intros Hr He Heff Ht Hk. rewrite replayed_app, Hr. cbn. rewrite He, (Heff T Ht).
  rewrite (view_expire t T s) by done. apply effect_later; [done|].
  intros k d Ee _. rewrite <- view_expire by done. by eapply Hk.
Qed.

Lemma remembers_quiet t T cmds s s' :
  remembers T cmds s → quiet s s' → steady t s s' → t ≤ T → remembers T cmds s'.
Proof. unfold remembers. intros -> [_ _ Hq] Hst Ht. symmetry. by apply (Hq t Hst). Qed.

(** A snapshot remembers what it was taken of. *)
Lemma remembers_snapshot T s :
  store_wf s → clock_wf s → now s ≤ T →
  canonical (record_command <$> (snapshot s).1) ∧ remembers T (record_command <$> (snapshot s).1) s.
Proof.
  intros Hw Hc Hn. pose proof (snapshot_deadlines s Hw Hc) as Hd. set (recs := (snapshot s).1) in *.
  assert (canonical (record_command <$> recs)) as Hcan.
  { apply Forall_fmap. eapply Forall_impl; [exact Hd|]. intros r Hr.
    change (is_Some (effect_of (record_command r))). by rewrite effect_of_record. }
  split; [done|]. set (tbl := mkTable None None : CommandTable (W:=Store) (Link:=unit)).
  set (w := new_store (λ _, T)). destruct (apply_all_runs tbl _ w Hcan) as (w' & E & L).
  assert (steady T (store_of w) (store_of w')) as Hst by (intros i _; done).
  pose proof (apply_all_replayed tbl T _ _ _ Hcan E Hst) as Hr. unfold remembers.
  change (store_of w) with (new_store (λ _ : nat, T)) in Hr. rewrite view_new in Hr. rewrite <- Hr.
  rewrite (replay_records tbl T recs w w' ∅); [|done|apply snapshot_keys_NoDup|..|done|done].
  - rewrite (right_id_L ∅ (∪)). unfold recs. rewrite snapshot_map by done. symmetry. by apply view_expire.
  - change (view T (new_store (λ _, T)) = ks_expire T ∅). rewrite view_new. unfold ks_expire.
    by rewrite map_filter_empty.
  - apply Forall_forall. intros. apply lookup_empty.
Qed.

(** ** The log's file *)

(** An open log in its place, apart from the files of the snapshots. *)
Record log_file p : Prop := {
  lf_enabled : aof_enabled (config_ p) = true;
  lf_ready : aof_ready (aof_ p) (disk_ (machine_ p));
  lf_path : path_ (aof_ p) = aof_path (config_ p);
  lf_target : rdb_path (config_ p) ≠ aof_path (config_ p);
  lf_temp : rdb_temp (rdb_path (config_ p)) (pid_ (machine_ p)) ≠ aof_path (config_ p)
}.

(** All of the log, and the part of it that is in the file. *)
Definition the_log p : bytes := log (aof_ p) (disk_ (machine_ p)).
Definition on_file p : bytes := contents_of (disk_ (machine_ p)) (aof_path (config_ p)).

(** Nothing happens to the log. *)
Record log_frame p p' : Prop := {
  frame_config : config_ p' = config_ p;
  frame_pid : pid_ (machine_ p') = pid_ (machine_ p);
  frame_io : io_ (machine_ p') = io_ (machine_ p);
  frame_aof : aof_ p' = aof_ p;
  frame_disk : disk_ (machine_ p') !! aof_path (config_ p) = disk_ (machine_ p) !! aof_path (config_ p)
}.

#[global] Instance log_frame_preorder : PreOrder log_frame.
Proof.
  split; [by intros p; split|]. intros p p1 p2 [? ? ? ? H1] [? ? ? ? H2]. split; try congruence.
Qed.

Lemma log_frame_file p p' :
  log_frame p p' → log_file p → log_file p' ∧ the_log p' = the_log p ∧ on_file p' = on_file p.
Proof.
  intros [Hc Hpid _ Ha Hd] [He [Hf Hdp] Hp Ht Hm].
  assert (on_file p' = on_file p) as Ho by (unfold on_file, contents_of; by rewrite Hc, Hd).
  split_and!.
  - split; rewrite ?Hc, ?Ha, ?Hpid; try done. split; [done|]. rewrite Hp, Hd, <- Hp. done.
  - unfold the_log, log. unfold on_file in Ho. rewrite Hc in Ho. by rewrite Ha, Hp, Ho.
  - done.
Qed.

Lemma frame_same p p' :
  config_ p' = config_ p → machine_ p' = machine_ p → aof_ p' = aof_ p → log_frame p p'.
Proof. intros ? E ?. by split; rewrite ?E. Qed.

Lemma save_step_frame env path temp payload ph d q :
  path ≠ q → temp ≠ q → (save_step env path temp payload ph d).2 !! q = d !! q.
Proof.
  intros Hp Ht. unfold save_step, d_write. destruct ph; cbn; repeat (case_match; cbn); try done;
    repeat first [rewrite lookup_try_remove_ne by done | rewrite lookup_insert_ne by done
                 | rewrite lookup_sync_ne by done | rewrite lookup_rename_ne by done]; done.
Qed.

Lemma save_steps_frame n env path temp payload x q :
  path ≠ q → temp ≠ q → (save_steps n env path temp payload x).2 !! q = x.2 !! q.
Proof.
  intros Hp Ht. revert x. induction n as [|n IH]; intros x; [done|]. cbn [save_steps].
  rewrite IH. by apply save_step_frame.
Qed.

Lemma saver_step_frame p : log_file p → log_frame p (saver_step p).
Proof.
  intros [_ _ _ Ht Hm]. unfold saver_step. destruct (saver_ (thread_ p)) as [v|]; [|done].
  destruct (saver_at v) as [ph| |]; [|by apply frame_same|done].
  destruct ph; try by apply frame_same.
  all: match goal with |- context [save_step ?e ?pa ?te ?pl ?ph ?d] =>
      pose proof (save_step_frame e pa te pl ph d (aof_path (config_ p)) Ht Hm) as Hd;
      destruct (save_step e pa te pl ph d) as [ph' d'] end; by split.
Qed.

Lemma saver_iter_frame n p : log_file p → log_frame p (Nat.iter n saver_step p).
Proof.
  intros Hf. induction n as [|n IH]; [done|]. rewrite Nat.iter_succ. etrans; [exact IH|].
  apply saver_step_frame. by apply (log_frame_file p).
Qed.

Lemma join_if_joinable_frame p : log_file p → log_frame p (join_if_joinable p).
Proof.
  intros Hf. unfold join_if_joinable, join. destruct (joinable p); [|done].
  etrans; [by apply (saver_iter_frame saver_fuel)|]. generalize (Nat.iter saver_fuel saver_step p).
  intros q. by apply frame_same.
Qed.

Lemma write_snapshot_frame records p : log_file p → log_frame p (write_snapshot records p).2.
Proof.
  intros [_ _ _ Ht Hm]. unfold write_snapshot, rdb_save_file. cbn [next_io].
  match goal with |- context [save_steps ?n ?e ?pa ?te ?pl ?x] =>
    pose proof (save_steps_frame n e pa te pl x (aof_path (config_ p)) Ht Hm) as Hd;
    destruct (save_steps n e pa te pl x) as [ph d] end. by split.
Qed.

Lemma save_frame s p r x : persist_save s p = (r, x) → log_file p → log_frame p x.2.
Proof.
  unfold persist_save. intros H Hf. destruct (negb _); [by simplify_eq|]. cbn [now_ms] in H.
  destruct (snapshot s) as [recs s1]. set (p1 := set_attempt _ _) in H.
  assert (log_frame p p1) as H1 by (by split).
  pose proof (write_snapshot_frame recs p1 (proj1 (log_frame_file _ _ H1 Hf))) as H2.
  destruct (write_snapshot recs p1) as [[msg|] p2]; cbn [snd] in H2.
  - injection H as <- <-. etrans; [exact H1|]. etrans; [exact H2|]. by apply frame_same.
  - injection H as <- <-. etrans; [exact H1|]. etrans; [exact H2|]. by split.
Qed.

Lemma background_save_frame s p r x : persist_background_save s p = (r, x) → log_file p → log_frame p x.2.
Proof.
  unfold persist_background_save. intros H Hf. destruct (negb _); [by simplify_eq|].
  destruct (saving_ _); [by simplify_eq|]. destruct (snapshot s) as [recs s1].
  pose proof (join_if_joinable_frame p Hf) as Hj. revert H Hj. generalize (join_if_joinable p). intros q H Hj.
  injection H as <- <-. etrans; [exact Hj|]. by split.
Qed.

Lemma reap_saver_frame t p : log_file p → log_frame p (reap_saver t p).
Proof.
  intros Hf. unfold reap_saver. destruct (negb _ && joinable p) eqn:E; [|done].
  apply andb_true_iff in E as [_ Ej]. pose proof (join_if_joinable_frame p Hf) as Hj.
  unfold join_if_joinable in Hj. rewrite Ej in Hj. etrans; [exact Hj|].
  generalize (join p). intros q. destruct (background_failed_ _); by apply frame_same.
Qed.

Lemma cron_save_frame t s p x : cron_save t s p = Ret x → log_file p → log_frame p x.2.
Proof.
  unfold cron_save. intros H Hf. destruct (_ && _); [|by simplify_eq].
  apply bind_Ret in H as (e & _ & H). destruct (_ && _); [|by simplify_eq].
  injection H as <-. destruct (persist_background_save s p) as [r x] eqn:E. by eapply background_save_frame.
Qed.

(** ** Writing to the log *)

(** What the file system must not do: take less than there is to write, or fail
    to replace or reopen the log. *)
Definition healthy p : Prop :=
  ∀ i, takes_all (io_stream (io_ (machine_ p) i)) (aof_ p) ∧
    takes_all (closes (io_rewrite (io_ (machine_ p) i))) (aof_ p) ∧
    renames (io_rewrite (io_ (machine_ p) i)) = true ∧ reopens (io_rewrite (io_ (machine_ p) i)) = true.

(** The log is the same, and the file holds at least what it held. *)
Record kept p p' : Prop := {
  kept_config : config_ p' = config_ p;
  kept_file : log_file p';
  kept_log : the_log p' = the_log p;
  kept_grows : on_file p `prefix_of` on_file p'
}.

(** The log was replaced by one that recreates the keyspace of [s]. *)
Record rewritten_log s p p' : Prop := {
  rewritten_config : config_ p' = config_ p;
  rewritten_file : log_file p';
  rewritten_all : the_log p' = encode_all (record_command <$> (snapshot s).1);
  rewritten_on_file : on_file p' = the_log p'
}.

Lemma kept_frame p p' : log_frame p p' → log_file p → kept p p'.
Proof.
  intros H Hf. destruct (log_frame_file _ _ H Hf) as (? & ? & Ho). split; try done; [apply H|by rewrite Ho].
Qed.

Lemma kept_trans p p1 p2 : kept p p1 → kept p1 p2 → kept p p2.
Proof. intros [? ? E1 P1] [? ? E2 P2]. split; [congruence|done|congruence|by etrans]. Qed.

Lemma rewritten_frame s p0 p p' : rewritten_log s p0 p → log_frame p p' → rewritten_log s p0 p'.
Proof.
  intros [Hc Hf Hl Ho] H. destruct (log_frame_file _ _ H Hf) as (? & E & Eo). pose proof (frame_config _ _ H).
  split; congruence.
Qed.

Lemma kept_rewritten s p0 p p' : kept p0 p → rewritten_log s p p' → rewritten_log s p0 p'.
Proof. intros [Hc _ _ _] [Hc' ? ? ?]. split; congruence. Qed.

Lemma on_write_log args p :
  log_file p → args ≠ [] →
  log_file (on_write args p) ∧ the_log (on_write args p) = the_log p ++ encode args ∧
  on_file (on_write args p) = on_file p.
Proof.
  intros [He Hr Hp Ht Hm] Hne. unfold on_write. cbn [config_ with_counters set_dirty]. rewrite He.
  destruct (aof_step_log _ _ _ _ _ (step_append args (aof_ p) (disk_ (machine_ p)) Hne) Hr)
    as (Hr' & Hp' & Hl').
  split_and!; [split; cbn; [done|exact Hr'|congruence|done|done]| |done].
  unfold the_log. cbn. rewrite Hl', encode_all_cons. change (encode_all []) with (@nil byte).
  by rewrite app_nil_r.
Qed.

(** ** Rewriting the log *)

Lemma rewrite_aof_log s p r x :
  persist_rewrite_aof s p = (r, x) → log_file p → healthy p →
  kept p x.2 ∨ (rewritten_log s p x.2 ∧ x.1 = (snapshot s).2).
Proof.
  unfold persist_rewrite_aof. intros H Hf Hh. pose proof Hf as [He [Hop Hd] Hp Ht Hm].
  rewrite He in H. cbn [negb] in H. cbn [next_io] in H.
  destruct (snapshot s) as [recs s1] eqn:Es. destruct (Hh (io_calls (machine_ p))) as (_ & _ & Hrn & Hro).
  destruct (aof_rewrite _ _ _ _ _) as [[err a] d] eqn:E. injection H as <- <-. cbn [fst snd] in *.
  cbn [config_ aof_ machine_ disk_] in E. rewrite <- Hp in E. apply aof_rewrite_inv in E. destruct err as [msg|]; cbn [rewrite_inv] in E.
  - destruct E as [[-> Hsame]|[E|[E _]]]; [|congruence..]. left. apply kept_frame; [|done].
    split; try done. cbn. by rewrite <- Hp.
  - destruct E as [Hd' Ho]. destruct Ho as (Hf' & Hp' & Hb'); [by apply bool_decide_eq_true|].
    right. split; [|done]. rewrite Hp in *.
    assert (contents_of d (aof_path (config_ p)) = rewrite_payload recs) as Hc
      by (unfold contents_of; by rewrite Hd').
    assert (log a d = contents_of d (aof_path (config_ p))) as Hl.
    { unfold log, in_stream. rewrite Hp', Hf', Hb'. cbn [default]. by rewrite !app_nil_r. }
    split; [done| |etrans; [exact Hl|by rewrite Es]|symmetry; exact Hl].
    split; cbn; try done. by split; [rewrite Hf'|rewrite Hp', Hd'].
Qed.

(** ** The cron task *)

Lemma cron_aof_log t s p x :
  cron_aof t s p = Ret x → log_file p → healthy p →
  kept p x.2 ∨ (rewritten_log s p x.2 ∧ x.1 = (snapshot s).2).
Proof.
  unfold cron_aof. intros H Hf Hh. pose proof Hf as [He Hr Hp Ht Hm]. rewrite He in H.
  cbn [negb next_io] in H. apply bind_Ret in H as ([[err a] d] & Hfl & H).
  destruct (aof_flush_whole _ _ _ _ _ _ _ Hfl Hr) as (-> & Hr' & Hp' & Hl' & Hb' & Hg); [apply Hh|].
  set (p1 := with_aof a d _) in H.
  assert (log_file p1) as Hf1 by (split; cbn; [done|done|exact (eq_trans Hp' Hp)|done|done]).
  assert (kept p p1) as Hk.
  { split; [done|done|exact Hl'|]. unfold on_file. cbn. by rewrite <- Hp. }
  destruct (_ && _); [|injection H as <-; by left].
  destruct (persist_rewrite_aof s p1) as [[done_ msg] [s2 p2]] eqn:E.
  assert (healthy p1) as Hh1.
  { intros i. destruct (Hh i) as (? & ? & ? & ?). by split_and!; try done; eapply takes_all_later. }
  apply rewrite_aof_log in E; [|done|done]. cbn [snd] in E.
  assert (log_frame p2 (if done_ then p2 else set_last_error msg p2)) as Hfr
    by (destruct done_; [done|by apply frame_same]).
  injection H as <-. cbn [fst snd] in *. destruct E as [E|[E Es]].
  - left. eapply kept_trans; [exact Hk|]. eapply kept_trans; [exact E|]. apply kept_frame; [done|apply E].
  - right. split; [|done]. eapply kept_rewritten; [exact Hk|by eapply rewritten_frame].
Qed.

Lemma cron_save_quiet t s p x : cron_save t s p = Ret x → quiet s x.1.
Proof.
  unfold cron_save. destruct (_ && _); [|intros [= <-]; apply quiet_refl].
  intros (e & _ & H)%bind_Ret. revert H. destruct (_ && _); [|intros [= <-]; apply quiet_refl].
  destruct (persist_background_save s _) as [r y] eqn:E. apply background_save_quiet_store in E.
  by intros [= <-].
Qed.

Lemma cron_log s p x :
  cron s p = Ret x → log_file p → healthy p →
  kept p x.2 ∨ (rewritten_log s p x.2 ∧ later (snapshot s).2 x.1).
Proof.
  unfold cron. cbn [now_ms]. intros ([s1 p1] & H1 & H)%bind_Ret Hf Hh.
  set (p0 := mkPersistence _ _ _ _ _) in H1. assert (log_frame p p0) as H0 by (by split).
  destruct (log_frame_file _ _ H0 Hf) as (Hf0 & _).
  apply cron_aof_log in H1; [|done|exact Hh]. cbn [snd] in H1.
  assert (log_file p1) as Hf1 by (destruct H1 as [H1|[H1 _]]; apply H1).
  pose proof (reap_saver_frame (wall_ (machine_ p) (wall_ticks (machine_ p))) p1 Hf1) as H2.
  destruct (log_frame_file _ _ H2 Hf1) as (Hf2 & _). pose proof (cron_save_quiet _ _ _ _ H) as Hq.
  apply cron_save_frame in H; [|done].
  assert (log_frame p1 x.2) as H3 by (by etrans). destruct H1 as [H1|[H1 Es]].
  - left. eapply kept_trans; [by apply kept_frame|]. eapply kept_trans; [exact H1|]. by apply kept_frame.
  - right. split; [eapply (kept_rewritten s p p0); [by apply kept_frame|by eapply rewritten_frame]|].
    cbn [fst] in Es. rewrite <- Es. apply Hq.
Qed.

Lemma cron_quiet s p x : cron s p = Ret x → quiet s x.1.
Proof.
  unfold cron. cbn [now_ms]. intros ([s1 p1] & H1 & H)%bind_Ret. apply (quiet_trans s s1).
  - revert H1. unfold cron_aof. destruct (negb _); [intros [= <- <-]; apply quiet_refl|]. cbn [next_io].
    intros ([[err a] d] & _ & H1)%bind_Ret. revert H1. destruct (_ && _); [|intros [= <- <-]; apply quiet_refl].
    destruct (persist_rewrite_aof s _) as [[done_ msg] [s2 p2]] eqn:E. apply rewrite_aof_quiet_store in E.
    by intros [= <- <-].
  - by eapply cron_save_quiet.
Qed.

Lemma quiet_expire_cycle cfg s : quiet s (active_expire_cycle cfg s).2.
Proof.
  destruct (active_expire_cycle cfg s) as [n s'] eqn:E. unfold active_expire_cycle in E.
  split; cbn [snd].
  - exact (proj1 (expire_passes_spec 0 _ _ _ _ _ _ E)).
  - intros Hw _. destruct (expire_passes_spec 0 _ _ _ _ _ _ E) as (_ & Hs & _). apply Hs. by apply (wf_tables s).
  - intros t Hst. destruct (expire_passes_spec t _ _ _ _ _ _ E) as (_ & _ & _ & Hv). exact (Hv Hst).
Qed.

End Journal.
