(* ===== verification/Replication.v ===== *)
(** * Replication (include/rp/replication.hpp, src/replication.cpp)

    The master side runs on the event loop: a PSYNC promotes a connection to a
    replica, which gets a snapshot and then every write.  The replica side is a
    thread with a blocking socket: it shakes hands, loads the snapshot and
    reads the command stream.  The thread never touches the store; what it does
    to the rest of the program is a sequence of effects (stores to atomics, and
    tasks posted to the event loop), which is what its functions compute here,
    from what the socket gives it. *)

From S2P Require Import Prelude Resp UnorderedMap Store Commands Encode Rdb.

(** ** State *)

Inductive LinkState := kNone | kConnecting | kHandshaking | kSyncing | kConnected.

Definition link_state_name (st : LinkState) : bytes :=
  match st with
  | kConnecting => bs "connect"
  | kHandshaking => bs "handshake"
  | kSyncing => bs "sync"
  | kConnected => bs "up"
  | kNone => bs "down"
  end.

Record ReplicaInfo := mkReplicaInfo {
  address : bytes;
  listening_port : Z;
  ack_offset : Z;
  ack_time_ms : Z
}.

(** A [ClientLink*] is the identity of a connection. *)
Abbreviation Link := nat.

Record Replica := mkReplica { link : Link; info : ReplicaInfo }.

(** What is posted to the event loop: replace the keyspace, or apply a command. *)
Inductive Task :=
| TaskResync (records : list KeyRecord)
| TaskApply (args : Args).

(** What the link thread does that others can see; [LSend] is a command to the
    master. *)
Inductive link_effect :=
| LState (st : LinkState)
| LOffset (n : Z)
| LAdvance (n : nat)
| LError (msg : bytes)
| LPost (t : Task)
| LSend (args : Args).

(** [late_] is what the successive link threads still do between the request to
    stop and their return. *)
Record Replication := mkReplication {
  server_ : bool;
  apply_ : bool;
  listening_port_ : Z;
  replid_ : bytes;
  master_offset_ : Z;
  replicas_ : list Replica;
  pending_ports_ : gmap (option Link) Z;
  replica_of_host_ : bytes;
  replica_of_port_ : Z;
  link_thread_ : bool;
  link_stop_ : bool;
  link_state_ : LinkState;
  replica_offset_ : Z;
  link_error_ : bytes;
  late_ : nat → list link_effect;
  links_ : nat
}.

(** [random_replid]: forty digits, each picked by the distribution over 0..15. *)
Definition kHex : bytes := bs "0123456789abcdef".

Fixpoint hex_digits (pick : nat → nat) (n i : nat) : outcome bytes :=
  match n with
  | O => Ret []
  | S n =>
      match kHex !! pick i with
      | None => Undefined
      | Some c => rest ← hex_digits pick n (S i); Ret (c :: rest)
      end
  end.

Definition random_replid (pick : nat → nat) : outcome bytes := hex_digits pick 40 0.

Definition new_replication (replid : bytes) (late : nat → list link_effect) : Replication :=
  mkReplication false false 0 replid 0 [] ∅ [] 0 false false kNone 0 [] late 0.

(** The master's part of the state. *)
Definition set_master (offset : Z) (replicas : list Replica) (ports : gmap (option Link) Z)
    (r : Replication) : Replication :=
  mkReplication (server_ r) (apply_ r) (listening_port_ r) (replid_ r) offset replicas ports
    (replica_of_host_ r) (replica_of_port_ r) (link_thread_ r) (link_stop_ r) (link_state_ r)
    (replica_offset_ r) (link_error_ r) (late_ r) (links_ r).

(** Whom it replicates from, and the thread. *)
Definition set_upstream (host : bytes) (port : Z) (thread stop : bool) (links : nat)
    (r : Replication) : Replication :=
  mkReplication (server_ r) (apply_ r) (listening_port_ r) (replid_ r) (master_offset_ r)
    (replicas_ r) (pending_ports_ r) host port thread stop (link_state_ r) (replica_offset_ r)
    (link_error_ r) (late_ r) links.

(** What the thread stores. *)
Definition set_link (st : LinkState) (offset : Z) (msg : bytes) (r : Replication) : Replication :=
  mkReplication (server_ r) (apply_ r) (listening_port_ r) (replid_ r) (master_offset_ r)
    (replicas_ r) (pending_ports_ r) (replica_of_host_ r) (replica_of_port_ r) (link_thread_ r)
    (link_stop_ r) st offset msg (late_ r) (links_ r).

(** What the owner sets up. *)
Definition set_owner (server apply : bool) (port : Z) (r : Replication) : Replication :=
  mkReplication server apply port (replid_ r) (master_offset_ r) (replicas_ r)
    (pending_ports_ r) (replica_of_host_ r) (replica_of_port_ r) (link_thread_ r) (link_stop_ r)
    (link_state_ r) (replica_offset_ r) (link_error_ r) (late_ r) (links_ r).

Definition attach (r : Replication) : Replication := set_owner true (apply_ r) (listening_port_ r) r.
Definition set_listening_port (port : Z) (r : Replication) : Replication :=
  set_owner (server_ r) (apply_ r) port r.
Definition set_apply (r : Replication) : Replication :=
  set_owner (server_ r) true (listening_port_ r) r.

Definition repl_is_replica (r : Replication) : bool := negb (replica_of_port_ r =? 0).

(** What is forgotten with a connection. *)
Definition remove_replica (lnk : option Link) (r : Replication) : Replication :=
  set_master (master_offset_ r) (filter (λ rep, Some (link rep) ≠ lnk) (replicas_ r))
    (delete lnk (pending_ports_ r)) r.

(** ** The server around it *)

(** A state that has a [Replication], connections that can be written to, a
    queue of posted tasks and a wall clock.  None of them is the store. *)
Class ReplicationState `{UM : UnorderedMap} (W : Type) {SS : ServerState W} := {
  repl_of : W → Replication;
  with_repl : Replication → W → W;
  link_send : Link → bytes → W → outcome W;
  link_peer : Link → W → outcome bytes;
  post_task : Task → W → W;
  wall_clock : W → Z * W;
  repl_of_with r w : repl_of (with_repl r w) = r;
  store_of_with_repl r w : store_of (with_repl r w) = store_of w;
  store_of_send l d w w' : link_send l d w = Ret w' → store_of w' = store_of w;
  store_of_post t w : store_of (post_task t w) = store_of w;
  store_of_wall w : store_of (wall_clock w).2 = store_of w;
  repl_of_wall w : repl_of (wall_clock w).2 = repl_of w
}.

Section Replication.
Context `{UM : UnorderedMap} {W : Type} {SS : ServerState W} {RS : ReplicationState W}.
Implicit Types (w : W).

(** ** Master side *)

Definition on_repl (f : Replication → Replication) w : W := with_repl (f (repl_of w)) w.

Definition add_replica (rep : Replica) (r : Replication) : Replication :=
  set_master (master_offset_ r) (replicas_ r ++ [rep]) (pending_ports_ r) r.

Definition repl_start_full_resync (lnk : option Link) w : outcome W :=
  match lnk with
  | None => Ret w
  | Some l =>
      w ← link_send l (bs "+FULLRESYNC " ++ replid_ (repl_of w) ++ bs " " ++
            to_string (master_offset_ (repl_of w)) ++ crlf) w;
      let '(records, s) := snapshot (store_of w) in
      let w := with_store s w in
      let payload := rdb_serialize records in
      w ← link_send l (bs "$" ++ to_string (size payload) ++ crlf) w;
      w ← link_send l payload w;
      peer ← link_peer l w;
      let '(now, w) := wall_clock w in
      let port := default 0 (pending_ports_ (repl_of w) !! Some l) in
      Ret (on_repl (add_replica (mkReplica l (mkReplicaInfo peer port 0 now))) w)
  end.

(** One field of the replicas on a link. *)
Definition update_replicas (lnk : option Link) (f : ReplicaInfo → ReplicaInfo)
    (replicas : list Replica) : list Replica :=
  (λ rep, if bool_decide (Some (link rep) = lnk) then mkReplica (link rep) (f (info rep)) else rep)
    <$> replicas.

Definition repl_set_replica_port (lnk : option Link) (port : Z) w : outcome W :=
  Ret (on_repl (λ r,
    set_master (master_offset_ r)
      (update_replicas lnk
        (λ i, mkReplicaInfo (address i) port (ack_offset i) (ack_time_ms i)) (replicas_ r))
      (<[lnk := port]> (pending_ports_ r)) r) w).

(** The clock is read once for each replica on the link. *)
Fixpoint ack_replicas (lnk : option Link) (offset : Z) (todo done_ : list Replica) w
    : list Replica * W :=
  match todo with
  | [] => (done_, w)
  | rep :: todo =>
      if bool_decide (Some (link rep) = lnk) then
        let '(now, w) := wall_clock w in
        let i := info rep in
        ack_replicas lnk offset todo
          (done_ ++ [mkReplica (link rep) (mkReplicaInfo (address i) (listening_port i) offset now)]) w
      else ack_replicas lnk offset todo (done_ ++ [rep]) w
  end.

Definition repl_on_replica_ack (lnk : option Link) (offset : Z) w : outcome W :=
  let '(replicas, w) := ack_replicas lnk offset (replicas_ (repl_of w)) [] w in
  Ret (on_repl (λ r, set_master (master_offset_ r) replicas (pending_ports_ r) r) w).

Definition repl_on_disconnect (lnk : option Link) w : outcome W :=
  Ret (on_repl (remove_replica lnk) w).

(** The loop over the replicas.  Sending may close a connection, which takes
    its replica out of the vector that is being iterated. *)
Fixpoint send_to_all (all todo : list Replica) (encoded : bytes) w : outcome W :=
  match todo with
  | [] => Ret w
  | rep :: todo =>
      w ← link_send (link rep) encoded w;
      if bool_decide (link <$> replicas_ (repl_of w) = link <$> all) then
        send_to_all all todo encoded w
      else Undefined
  end.

Definition repl_propagate (args : Args) w : outcome W :=
  let encoded := encode args in
  offset ← add64 (master_offset_ (repl_of w)) (size encoded);
  let w := on_repl (λ r, set_master offset (replicas_ r) (pending_ports_ r) r) w in
  send_to_all (replicas_ (repl_of w)) (replicas_ (repl_of w)) encoded w.

(** ** Replica side, on the event loop *)

(** One effect of the link thread; [fetch_add] wraps. *)
Definition link_effect_step (e : link_effect) w : W :=
  match e with
  | LState st => on_repl (λ r, set_link st (replica_offset_ r) (link_error_ r) r) w
  | LOffset n => on_repl (λ r, set_link (link_state_ r) n (link_error_ r) r) w
  | LAdvance n =>
      on_repl (λ r, set_link (link_state_ r)
        (to_signed 64 (wrap64 (replica_offset_ r + Z.of_nat n))) (link_error_ r) r) w
  | LError msg => on_repl (λ r, set_link (link_state_ r) (replica_offset_ r) msg r) w
  | LPost t => post_task t w
  | LSend _ => w
  end.

Definition link_effects (es : list link_effect) w : W := foldl (λ w e, link_effect_step e w) w es.

Definition repl_stop_replication w : outcome W :=
  let w := on_repl (λ r, set_upstream (replica_of_host_ r) (replica_of_port_ r)
             (link_thread_ r) true (links_ r) r) w in
  let r := repl_of w in
  let w := if link_thread_ r then link_effects (late_ r (links_ r)) w else w in
  let n := if link_thread_ r then S (links_ r) else links_ r in
  Ret (on_repl (λ r, set_link kNone (replica_offset_ r) (link_error_ r)
                       (set_upstream [] 0 false (link_stop_ r) n r)) w).

Definition repl_replicaof (host : bytes) (port : Z) w : outcome ((bool * bytes) * W) :=
  if negb (server_ (repl_of w)) then
    Ret ((false, bs "replication is not attached to a server"), w)
  else
    w ← repl_stop_replication w;
    Ret ((true, []),
      on_repl (λ r, set_link kConnecting 0 (link_error_ r)
                      (set_upstream host port true false (links_ r) r)) w).

Definition info_replica (offset : Z) (i : nat) (rep : Replica) : outcome bytes :=
  lag ← sub64 offset (ack_offset (info rep));
  Ret (bs "slave" ++ to_string (Z.of_nat i) ++ bs ":addr=" ++ address (info rep) ++
       bs ",port=" ++ to_string (listening_port (info rep)) ++
       bs ",state=online,offset=" ++ to_string (ack_offset (info rep)) ++
       bs ",lag=" ++ to_string lag ++ crlf).

Fixpoint info_replicas (offset : Z) (i : nat) (replicas : list Replica) : outcome bytes :=
  match replicas with
  | [] => Ret []
  | rep :: replicas =>
      x ← info_replica offset i rep;
      y ← info_replicas offset (S i) replicas;
      Ret (x ++ y)
  end.

Definition repl_info_section (r : Replication) : outcome bytes :=
  slaves ← info_replicas (master_offset_ r) 0 (replicas_ r);
  Ret ((if repl_is_replica r then
          bs "role:slave" ++ crlf ++
          bs "master_host:" ++ replica_of_host_ r ++ crlf ++
          bs "master_port:" ++ to_string (replica_of_port_ r) ++ crlf ++
          bs "master_link_status:" ++
            (match link_state_ r with kConnected => bs "up" | _ => bs "down" end) ++ crlf ++
          bs "master_link_state:" ++ link_state_name (link_state_ r) ++ crlf ++
          bs "slave_read_only:1" ++ crlf ++
          bs "slave_repl_offset:" ++ to_string (replica_offset_ r) ++ crlf ++
          (match link_error_ r with
           | [] => []
           | _ :: _ => bs "master_link_error:" ++ link_error_ r ++ crlf
           end)
        else bs "role:master" ++ crlf) ++
       bs "connected_slaves:" ++ to_string (Z.of_nat (length (replicas_ r))) ++ crlf ++
       slaves ++
       bs "master_replid:" ++ replid_ r ++ crlf ++
       bs "master_repl_offset:" ++ to_string (master_offset_ r) ++ crlf).

Definition replication_ops : ReplicationOps W Link :=
  mkReplicationOps repl_start_full_resync repl_on_replica_ack repl_set_replica_port
    repl_on_disconnect repl_replicaof repl_stop_replication
    (λ w, repl_is_replica (repl_of w)) (λ w, repl_info_section (repl_of w)).

(** Running a posted task. *)
Definition run_task (tbl : CommandTable (W:=W) (Link:=Link)) (t : Task) w : outcome W :=
  match t with
  | TaskResync records => Ret (with_store (load_records records (clear (store_of w))) w)
  | TaskApply args => apply_silently tbl args w
  end.

Fixpoint run_tasks (tbl : CommandTable (W:=W) (Link:=Link)) (ts : list Task) w : outcome W :=
  match ts with
  | [] => Ret w
  | t :: ts => w ← run_task tbl t w; run_tasks tbl ts w
  end.

End Replication.
