(* ===== verification/ReplicaLink.v ===== *)
(** * The replica's link to its master ([SyncReader] and [replica_thread],
    src/replication.cpp)

    The thread's code as a function of what the socket gives it.  A session is
    a computation on the connection that can fail and leaves a trace of
    effects. *)

From S2P Require Import Prelude Resp Store Commands Encode Rdb Replication.

(** ** [SyncReader] *)

(** The bytes read and not consumed, and the chunks [read_some] will still
    give; after the last of them it fails. *)
Record SyncReader := mkSyncReader { sync_buffer : bytes; sync_socket : list bytes }.

Fixpoint read_line_from (socket : list bytes) (buffer : bytes) : option (bytes * SyncReader) :=
  match find_crlf buffer with
  | Some eol => Some (substr buffer 0 eol, mkSyncReader (drop (eol + 2) buffer) socket)
  | None =>
      match socket with
      | [] => None
      | chunk :: socket => read_line_from socket (buffer ++ chunk)
      end
  end.

Definition read_line (r : SyncReader) : option (bytes * SyncReader) :=
  read_line_from (sync_socket r) (sync_buffer r).

Fixpoint read_exact_from (n : Z) (socket : list bytes) (buffer : bytes)
    : option (bytes * SyncReader) :=
  if n <=? size buffer then
    Some (substr buffer 0 (Z.to_nat n), mkSyncReader (drop (Z.to_nat n) buffer) socket)
  else
    match socket with
    | [] => None
    | chunk :: socket => read_exact_from n socket (buffer ++ chunk)
    end.

Definition read_exact (n : Z) (r : SyncReader) : option (bytes * SyncReader) :=
  read_exact_from n (sync_socket r) (sync_buffer r).

(** ** Numbers of the C library *)

(** A C string ends at its first NUL. *)
Fixpoint c_str (s : bytes) : bytes :=
  match s with
  | [] => []
  | c :: s => if Byte.eqb c x00 then [] else c :: c_str s
  end.

(** White space, a sign, and the longest run of digits. *)
Definition strto_parts (s : bytes) : bool * bytes :=
  let s := skip_while isspace (c_str s) in
  match s with
  | c :: s' =>
      if Byte.eqb c "-" then (true, take_while isdigit s')
      else if Byte.eqb c "+" then (false, take_while isdigit s')
      else (false, take_while isdigit s)
  | [] => (false, [])
  end.

(** [std::strtoll] in base 10 clamps. *)
Definition strtoll (s : bytes) : Z :=
  let '(negative, digits) := strto_parts s in
  let v := if negative then - dec_value digits else dec_value digits in
  Z.max int64_min (Z.min int64_max v).

(** [std::strtoull] in base 10 clamps the magnitude and negates modulo 2^64. *)
Definition strtoull (s : bytes) : Z :=
  let '(negative, digits) := strto_parts s in
  let v := dec_value digits in
  if 2 ^ 64 - 1 <? v then 2 ^ 64 - 1 else if negative then wrap64 (- v) else v.

(** ** Sessions *)

(** A connection to the master: its reader, and how many writes will succeed. *)
Record master_conn := mkMasterConn { reader : SyncReader; writes : nat }.

Definition session (A : Type) : Type := master_conn → list link_effect * option (A * master_conn).

#[global] Instance session_ret : MRet session := λ A a c, ([], Some (a, c)).
#[global] Instance session_bind : MBind session := λ A B f m c,
  match m c with
  | (t, Some (a, c)) => let '(t', r) := f a c in (t ++ t', r)
  | (t, None) => (t, None)
  end.

Definition failed {A} : session A := λ _, ([], None).
Definition tell (e : link_effect) : session unit := λ c, ([e], Some (tt, c)).

(** [send_command] *)
Definition send_command (args : Args) : session unit := λ c,
  match writes c with
  | O => ([], None)
  | S n => ([LSend args], Some (tt, mkMasterConn (reader c) n))
  end.

Definition reading {A} (f : SyncReader → option (A * SyncReader)) : session A := λ c,
  match f (reader c) with
  | Some (a, r) => ([], Some (a, mkMasterConn r (writes c)))
  | None => ([], None)
  end.

(** Failure is reported with a message: [record_error]. *)
Definition or_record {A} (msg : bytes) (m : session A) : session A := λ c,
  match m c with
  | (t, Some r) => (t, Some r)
  | (t, None) => (t ++ [LError msg], None)
  end.

Definition expect_prefix (line prefix : bytes) : bool := beq (take (length prefix) line) prefix.

Definition guard (b : bool) : session unit := if b then mret tt else failed.

(** One round trip of the handshake: [step]. *)
Definition handshake_step (command : Args) (expected : bytes) : session unit :=
  _ ← send_command command;
  line ← reading read_line;
  guard (expect_prefix line expected).

Definition handshake (listening_port : Z) : session unit :=
  or_record (bs "handshake rejected by master")
    (_ ← handshake_step [bs "PING"] (bs "+PONG");
     _ ← handshake_step [bs "REPLCONF"; bs "listening-port"; to_string listening_port] (bs "+OK");
     handshake_step [bs "REPLCONF"; bs "capa"; bs "psync2"] (bs "+OK")).

Definition psync : session bytes :=
  or_record (bs "master refused PSYNC")
    (_ ← send_command [bs "PSYNC"; bs "?"; bs "-1"];
     line ← reading read_line;
     _ ← guard (expect_prefix line (bs "+FULLRESYNC"));
     mret line).

(** What follows the last space of the line. *)
Fixpoint after_last_space (line : bytes) : option bytes :=
  match line with
  | [] => None
  | c :: line' =>
      match after_last_space line' with
      | Some rest => Some rest
      | None => if Byte.eqb c " " then Some line' else None
      end
  end.

Definition resync_offset (line : bytes) : Z :=
  match after_last_space line with Some rest => strtoll rest | None => 0 end.

Definition starts_with_dollar (line : bytes) : bool :=
  match line with c :: _ => Byte.eqb c "$" | [] => false end.

Definition bulk_header : session bytes :=
  or_record (bs "bad RDB header from master")
    (line ← reading read_line;
     _ ← guard (starts_with_dollar line);
     mret line).

Definition rdb_payload (rdb_len : Z) : session bytes :=
  or_record (bs "truncated RDB from master") (reading (read_exact rdb_len)).

(** From the connection to the payload of the snapshot. *)
Definition sync_session (listening_port : Z) : session (Z * bytes) :=
  _ ← tell (LState kHandshaking);
  _ ← handshake listening_port;
  line ← psync;
  let offset := resync_offset line in
  _ ← tell (LState kSyncing);
  line ← bulk_header;
  payload ← rdb_payload (strtoull (drop 1 line));
  mret (offset, payload).

(** ** The command stream *)

(** What a command of the stream makes the replica do; [offset] already counts
    it, and [applies] is whether there is an [apply_]. *)
Definition stream_action (applies : bool) (a : Args) (offset : Z) : list link_effect :=
  match a with
  | [] => []
  | a0 :: _ =>
      let name := upper a0 in
      if beq name (bs "REPLCONF") && Nat.leb 2 (length a) then
        [LSend [bs "REPLCONF"; bs "ACK"; to_string offset]]
      else if beq name (bs "PING") then []
      else if applies then [LPost (TaskApply a)] else []
  end.

(** [fetch_add] on the offset. *)
Definition advance (offset : Z) (n : nat) : Z := to_signed 64 (wrap64 (offset + Z.of_nat n)).

(** The inner loop: parse what is there.  Gives the effects, the bytes left and
    the offset. *)
Fixpoint stream_drain (fuel : nat) (applies : bool) (remaining : bytes) (offset : Z)
    : option (list link_effect * bytes * Z) :=
  match fuel with
  | O => None
  | S fuel' =>
      let result := parse_request remaining in
      match status result with
      | kOk =>
          let offset := advance offset (consumed result) in
          '(t, kept, offset') ← stream_drain fuel' applies (drop (consumed result) remaining) offset;
          Some (LAdvance (consumed result) :: stream_action applies (args result) offset ++ t,
                kept, offset')
      | _ => Some ([], remaining, offset)
      end
  end.

(** What a round of the loop meets: the time, and whether the read gives the
    next chunk, nothing yet, or a lost connection. *)
Inductive stream_read := ReadNext | ReadNothing | ReadLost (msg : bytes).

Record stream_round := mkRound { round_now : Z; round_read : stream_read }.

(** The loop over the stream; it ends when the connection is lost or, with the
    last round, when the thread is told to stop. *)
Fixpoint stream_loop (rounds : list stream_round) (applies : bool) (socket : list bytes)
    (stream : bytes) (offset last_ack_ms : Z) : outcome (list link_effect) :=
  match rounds with
  | [] => Ret []
  | mkRound now read :: rounds =>
      match stream_drain (S (length stream)) applies stream offset with
      | None => NoFuel
      | Some (t, kept, offset) =>
          since ← sub64 now last_ack_ms;
          let due := 1000 <=? since in
          let ack := if due then [LSend [bs "REPLCONF"; bs "ACK"; to_string offset]] else [] in
          let last_ack_ms := if due then now else last_ack_ms in
          match read with
          | ReadLost msg => Ret (t ++ ack ++ [LError (bs "lost connection to master: " ++ msg)])
          | ReadNothing =>
              t' ← stream_loop rounds applies socket kept offset last_ack_ms;
              Ret (t ++ ack ++ t')
          | ReadNext =>
              t' ← match socket with
                   | [] => stream_loop rounds applies [] kept offset last_ack_ms
                   | chunk :: socket =>
                       stream_loop rounds applies socket (kept ++ chunk) offset last_ack_ms
                   end;
              Ret (t ++ ack ++ t')
          end
      end
  end.

(** ** The thread *)

(** One attempt: whether the connection fails, the connection, the time the
    stream starts, and its rounds. *)
Record attempt := mkAttempt {
  connect_error : option bytes;
  attempt_conn : master_conn;
  stream_start_ms : Z;
  attempt_rounds : list stream_round
}.

(** One turn of the outer loop. *)
Definition link_attempt (fuel : nat) (listening_port : Z) (applies : bool) (a : attempt)
    : outcome (list link_effect) :=
  match connect_error a with
  | Some msg => Ret [LState kConnecting; LError (bs "cannot connect to master: " ++ msg)]
  | None =>
      let '(t, r) := sync_session listening_port (attempt_conn a) in
      let t := LState kConnecting :: t in
      match r with
      | None => Ret t
      | Some ((offset, payload), c) =>
          '(records, err) ← rdb_parse fuel payload;
          match err with
          | Some msg => Ret (t ++ [LError (bs "corrupt RDB from master: " ++ msg)])
          | None =>
              t' ← stream_loop (attempt_rounds a) applies (sync_socket (reader c))
                     (sync_buffer (reader c)) offset (stream_start_ms a);
              Ret (t ++ [LPost (TaskResync records); LOffset offset; LState kConnected; LError []]
                     ++ t' ++ [LState kConnecting])
          end
      end
  end.

(** Attempts until the thread is told to stop. *)
Fixpoint replica_thread (fuel : nat) (listening_port : Z) (applies : bool)
    (attempts : list attempt) : outcome (list link_effect) :=
  match attempts with
  | [] => Ret [LState kNone]
  | a :: attempts =>
      t ← link_attempt fuel listening_port applies a;
      t' ← replica_thread fuel listening_port applies attempts;
      Ret (t ++ t')
  end.
