(* ===== verification/ReplicaLinkTheorems.v ===== *)
(** * Correctness of the replica's link

    Reading does not depend on how the bytes arrive in chunks; the handshake
    with this program's master succeeds, and yields the snapshot and every
    command the master sent, in order, with the offset the master has. *)

From S2P Require Import Prelude Resp UnorderedMap Store Commands CommandSpec Encode Files Aof AofTheorems.
From S2P Require Import Rdb RdbTheorems Replication ReplicaLink.

(** ** Lemmas on the reader *)

(** All the bytes a reader has or will have. *)
Definition sync_bytes (r : SyncReader) : bytes := sync_buffer r ++ mjoin (sync_socket r).

Lemma read_line_from_spec socket buffer :
  let all := buffer ++ mjoin socket in
  match find_crlf all with
  | Some eol => ∃ r, read_line_from socket buffer = Some (take eol all, r) ∧
      sync_bytes r = drop (eol + 2) all
  | None => read_line_from socket buffer = None
  end.
Proof.
  revert buffer. induction socket as [|chunk socket IH]; intros buffer all.
  - subst all. change (mjoin []) with (@nil byte). rewrite app_nil_r. cbn [read_line_from].
    destruct (find_crlf buffer) as [eol|] eqn:E; [|done]. eexists. split; [done|].
    unfold sync_bytes. cbn. by rewrite app_nil_r.
  - subst all. specialize (IH (buffer ++ chunk)). rewrite mjoin_cons, app_assoc.
    cbn [read_line_from]. destruct (find_crlf buffer) as [eol|] eqn:E; [|exact IH].
    rewrite <- app_assoc, (find_crlf_app buffer _ eol E). eexists. split.
    + f_equal. f_equal. unfold substr. rewrite drop_0. apply find_crlf_Some in E. 
      rewrite take_app_le; [done|lia].
    + unfold sync_bytes. cbn [sync_buffer sync_socket]. rewrite mjoin_cons.
      apply find_crlf_Some in E. rewrite drop_app_le; [done|lia].
Qed.

Lemma read_exact_from_spec n socket buffer :
  0 ≤ n →
  let all := buffer ++ mjoin socket in
  if n <=? size all then
    ∃ r, read_exact_from n socket buffer = Some (take (Z.to_nat n) all, r) ∧
      sync_bytes r = drop (Z.to_nat n) all
  else read_exact_from n socket buffer = None.
Proof.
  intros Hn. revert buffer. induction socket as [|chunk socket IH]; intros buffer all.
  - subst all. change (mjoin []) with (@nil byte). rewrite app_nil_r. cbn [read_exact_from].
    split_if; [|done]. eexists. split; [done|]. unfold sync_bytes. cbn. by rewrite app_nil_r.
  - subst all. specialize (IH (buffer ++ chunk)). rewrite mjoin_cons, app_assoc.
    cbn [read_exact_from]. destruct (Z.leb_spec n (size buffer)) as [Hb|Hb]; [|exact IH].
    assert (Z.to_nat n ≤ length buffer)%nat as Hl by (unfold size in Hb; lia).
    rewrite <- app_assoc, size_app. pose proof (size_nonneg (chunk ++ mjoin socket)).
    destruct (Z.leb_spec n (size buffer + size (chunk ++ mjoin socket))); [|lia].
    eexists. split.
    + f_equal. f_equal. unfold substr. by rewrite drop_0, take_app_le.
    + unfold sync_bytes. cbn [sync_buffer sync_socket]. by rewrite mjoin_cons, drop_app_le.
Qed.

(** ** Numbers *)

Lemma c_str_digits ds : Forall (λ c, isdigit c = true) ds → c_str ds = ds.
Proof.
  induction 1 as [|c ds Hc _ IH]; [done|]. cbn. rewrite byte_eqb_spec, bool_decide_false; [by rewrite IH|].
  by intros ->.
Qed.

Lemma strto_parts_digits ds :
  Forall (λ c, isdigit c = true) ds → strto_parts ds = (false, ds).
Proof.
  intros Hd. unfold strto_parts. rewrite c_str_digits by done.
  destruct Hd as [|c ds Hc Hd]; [done|]. cbn [skip_while].
  assert (isspace c = false) as ->.
  { unfold isdigit, isspace in *. apply andb_true_iff in Hc as [?%Z.leb_le ?%Z.leb_le].
    apply orb_false_iff. split; [apply Z.eqb_neq|apply andb_false_iff; right; apply Z.leb_gt]; lia. }
  rewrite !byte_eqb_spec, !bool_decide_false by (by intros ->). cbn [take_while]. rewrite Hc.
  f_equal. f_equal. destruct (while_app isdigit ds []) as [H _]; [done|done|]. by rewrite app_nil_r in H.
Qed.

Lemma strtoll_back n : 0 ≤ n ≤ int64_max → strtoll (to_string n) = n.
Proof.
  intros Hn. rewrite to_string_nonneg by lia. unfold strtoll.
  rewrite strto_parts_digits, dec_value_nonneg by (lia || (apply dec_nonneg_digits; lia)).
  unfold int64_min, int64_max in *. lia.
Qed.

Lemma strtoull_back n : 0 ≤ n < 2 ^ 64 → strtoull (to_string n) = n.
Proof.
  intros Hn. rewrite to_string_nonneg by lia. unfold strtoull.
  rewrite strto_parts_digits, dec_value_nonneg by (lia || (apply dec_nonneg_digits; lia)).
  destruct (Z.ltb_spec (2 ^ 64 - 1) n); [lia|done].
Qed.

Lemma after_last_space_digits x ds :
  Forall (λ c, isdigit c = true) ds → after_last_space (x ++ bs " " ++ ds) = Some ds.
Proof.
  intros Hd. assert (after_last_space ds = None) as Hn.
  { induction Hd as [|c ds Hc _ IH]; [done|]. cbn. rewrite IH, byte_eqb_spec, bool_decide_false; [done|].
    by intros ->. }
  induction x as [|c x IH]; cbn [app after_last_space]; [|by rewrite IH].
  change (bs " " ++ ds) with (" "%byte :: ds). cbn [after_last_space]. by rewrite Hn.
Qed.

(** ** Sessions *)

(** The bytes a session has still to read. *)
Definition unread_bytes (c : master_conn) : bytes := sync_bytes (reader c).

Lemma recv_line_back c l rest :
  unread_bytes c = l ++ crlf ++ rest → Forall (λ x, x ≠ CR) l →
  ∃ c', reading read_line c = ([], Some (l, c')) ∧ unread_bytes c' = rest ∧ writes c' = writes c.
Proof.
  intros Hc Hl. unfold unread_bytes, sync_bytes in Hc.
  pose proof (read_line_from_spec (sync_socket (reader c)) (sync_buffer (reader c))) as H.
  cbn zeta in H. rewrite Hc, find_crlf_no_cr in H by done. destruct H as (r & Hr & Hb).
  rewrite take_app_length in Hr.
  exists (mkMasterConn r (writes c)). unfold reading, read_line. rewrite Hr. split; [done|].
  split; [|done]. unfold unread_bytes. cbn. rewrite Hb, app_assoc. apply drop_app_length'.
  rewrite length_app. done.
Qed.

Lemma recv_exact_back c payload rest :
  unread_bytes c = payload ++ rest →
  ∃ c', reading (read_exact (size payload)) c = ([], Some (payload, c')) ∧
    unread_bytes c' = rest ∧ writes c' = writes c.
Proof.
  intros Hc. unfold unread_bytes, sync_bytes in Hc.
  pose proof (read_exact_from_spec (size payload) (sync_socket (reader c)) (sync_buffer (reader c))
    (size_nonneg _)) as H.
  cbn zeta in H. rewrite Hc, size_app in H. pose proof (size_nonneg rest).
  destruct (Z.leb_spec (size payload) (size payload + size rest)); [|lia].
  destruct H as (r & Hr & Hb). unfold size in Hr, Hb. rewrite Nat2Z.id in Hr, Hb.
  rewrite take_app_length in Hr. rewrite drop_app_length in Hb.
  exists (mkMasterConn r (writes c)). unfold reading, read_exact, size. by rewrite Hr.
Qed.

Lemma expect_prefix_app p x : expect_prefix (p ++ x) p = true.
Proof. unfold expect_prefix. rewrite take_app_length. apply beq_refl. Qed.

Lemma handshake_step_back c n command expected l rest :
  writes c = S n → unread_bytes c = (expected ++ l) ++ crlf ++ rest →
  Forall (λ x, x ≠ CR) (expected ++ l) →
  ∃ c', handshake_step command expected c = ([LSend command], Some (tt, c')) ∧
    unread_bytes c' = rest ∧ writes c' = n.
Proof.
  intros Hw Hc Hl. unfold handshake_step, mbind, session_bind, send_command. rewrite Hw.
  destruct (recv_line_back (mkMasterConn (reader c) n) (expected ++ l) rest Hc Hl) as (c' & Hr & Hb & Hn).
  exists c'. rewrite Hr, expect_prefix_app. done.
Qed.

(** What the master sends: the replies of the handshake, and the snapshot. *)
Definition handshake_replies : bytes :=
  bs "+PONG" ++ crlf ++ bs "+OK" ++ crlf ++ bs "+OK" ++ crlf.

Definition resync_line (replid : bytes) (offset : Z) : bytes :=
  bs "+FULLRESYNC " ++ replid ++ bs " " ++ to_string offset.

Definition resync_bytes (replid : bytes) (offset : Z) (payload : bytes) : bytes :=
  resync_line replid offset ++ crlf ++ bs "$" ++ to_string (size payload) ++ crlf ++ payload.

(** What the replica sends. *)
Definition handshake_commands (port : Z) : list Args :=
  [[bs "PING"]; [bs "REPLCONF"; bs "listening-port"; to_string port];
   [bs "REPLCONF"; bs "capa"; bs "psync2"]; [bs "PSYNC"; bs "?"; bs "-1"]].

Ltac no_cr := repeat (apply Forall_cons_2; [discriminate|]); apply Forall_nil_2.

Lemma handshake_back c n port rest :
  writes c = (3 + n)%nat → unread_bytes c = handshake_replies ++ rest →
  ∃ c', handshake port c = (LSend <$> take 3 (handshake_commands port), Some (tt, c')) ∧
    unread_bytes c' = rest ∧ writes c' = n.
Proof.
  intros Hw Hc. unfold handshake_replies in Hc. rewrite <- !app_assoc in Hc.
  destruct (handshake_step_back c (2 + n) [bs "PING"] (bs "+PONG") [] _ Hw Hc)
    as (c1 & H1 & Hc1 & Hw1); [no_cr|].
  destruct (handshake_step_back c1 (1 + n)
    [bs "REPLCONF"; bs "listening-port"; to_string port] (bs "+OK") [] _ Hw1 Hc1)
    as (c2 & H2 & Hc2 & Hw2); [no_cr|].
  destruct (handshake_step_back c2 n [bs "REPLCONF"; bs "capa"; bs "psync2"] (bs "+OK") [] _ Hw2 Hc2)
    as (c3 & H3 & Hc3 & Hw3); [no_cr|].
  exists c3. split; [|done]. unfold handshake, or_record, mbind, session_bind. by rewrite H1, H2, H3.
Qed.

Lemma psync_back c n l rest :
  writes c = S n → unread_bytes c = (bs "+FULLRESYNC" ++ l) ++ crlf ++ rest →
  Forall (λ x, x ≠ CR) l →
  ∃ c', psync c = ([LSend [bs "PSYNC"; bs "?"; bs "-1"]], Some (bs "+FULLRESYNC" ++ l, c')) ∧
    unread_bytes c' = rest ∧ writes c' = n.
Proof.
  intros Hw Hc Hl. assert (Forall (λ x, x ≠ CR) (bs "+FULLRESYNC" ++ l)) as Hl'.
  { apply Forall_app. split; [no_cr|done]. }
  destruct (recv_line_back (mkMasterConn (reader c) n) _ rest Hc Hl') as (c' & Hr & Hb & Hn).
  exists c'. split; [|done]. unfold psync, or_record, mbind, session_bind, send_command.
  by rewrite Hw, Hr, expect_prefix_app.
Qed.

Lemma rdb_header_back c ds rest :
  unread_bytes c = (bs "$" ++ ds) ++ crlf ++ rest → Forall (λ x, x ≠ CR) ds →
  ∃ c', bulk_header c = ([], Some (bs "$" ++ ds, c')) ∧ unread_bytes c' = rest ∧
    writes c' = writes c.
Proof.
  intros Hc Hl. destruct (recv_line_back c (bs "$" ++ ds) rest Hc) as (c' & Hr & Hb & Hn).
  { apply Forall_app. split; [no_cr|done]. }
  exists c'. split; [|done]. unfold bulk_header, or_record, mbind, session_bind. by rewrite Hr.
Qed.

Lemma resync_line_offset replid offset :
  0 ≤ offset ≤ int64_max → resync_offset (resync_line replid offset) = offset.
Proof.
  intros Ho. unfold resync_offset, resync_line.
  replace (bs "+FULLRESYNC " ++ replid ++ bs " " ++ to_string offset)
    with ((bs "+FULLRESYNC " ++ replid) ++ bs " " ++ to_string offset) by (by rewrite <- app_assoc).
  rewrite to_string_nonneg by lia. rewrite after_last_space_digits by (apply dec_nonneg_digits; lia).
  rewrite <- to_string_nonneg by lia. by apply strtoll_back.
Qed.

Lemma to_string_no_cr n : 0 ≤ n → Forall (λ x, x ≠ CR) (to_string n).
Proof. intros. rewrite to_string_nonneg by done. by apply dec_nonneg_not_cr. Qed.

Lemma sync_session_back c n port replid offset payload rest :
  writes c = (4 + n)%nat → 0 ≤ offset ≤ int64_max → size payload < 2 ^ 64 →
  Forall (λ x, x ≠ CR) replid →
  unread_bytes c = handshake_replies ++ resync_bytes replid offset payload ++ rest →
  ∃ c', sync_session port c =
      (LState kHandshaking :: (LSend <$> handshake_commands port) ++ [LState kSyncing],
       Some ((offset, payload), c')) ∧
    unread_bytes c' = rest.
Proof.
  intros Hw Ho Hp Hid Hc. pose proof (size_nonneg payload) as Hp0.
  destruct (handshake_back c (1 + n) port _ Hw Hc) as (c1 & H1 & Hc1 & Hw1).
  unfold resync_bytes in Hc1. rewrite <- !app_assoc in Hc1.
  destruct (psync_back c1 n (bs " " ++ replid ++ bs " " ++ to_string offset)
    (bs "$" ++ to_string (size payload) ++ crlf ++ payload ++ rest) Hw1) as (c2 & H2 & Hc2 & Hw2).
  { rewrite Hc1. unfold resync_line. by rewrite <- !app_assoc. }
  { rewrite !Forall_app. split_and!; [no_cr|done|no_cr|]. apply to_string_no_cr. lia. }
  destruct (rdb_header_back c2 (to_string (size payload)) (payload ++ rest)) as (c3 & H3 & Hc3 & _).
  { by rewrite Hc2, <- app_assoc. } { by apply to_string_no_cr. }
  destruct (recv_exact_back c3 payload rest Hc3) as (c4 & H4 & Hc4 & _).
  exists c4. split; [|done]. unfold sync_session, mbind, session_bind, tell. rewrite H1, H2.
  change (bs "+FULLRESYNC" ++ bs " " ++ replid ++ bs " " ++ to_string offset)
    with (resync_line replid offset).
  rewrite resync_line_offset, H3 by done. unfold rdb_payload, or_record.
  change (drop 1 (bs "$" ++ to_string (size payload))) with (drop 0 (to_string (size payload))).
  rewrite drop_0, strtoull_back, H4 by done. done.
Qed.

(** A session takes chunks from the socket and puts none back. *)
Definition chunks_left (c : master_conn) : nat := length (sync_socket (reader c)).

Definition shrinks {A} (m : session A) : Prop :=
  ∀ c t a c', m c = (t, Some (a, c')) → (chunks_left c' ≤ chunks_left c)%nat.

Lemma shrinks_bind {A B} (m : session A) (f : A → session B) :
  shrinks m → (∀ a, shrinks (f a)) → shrinks (m ≫= f).
Proof.
  intros Hm Hf c t b c' H. unfold mbind, session_bind in H.
  destruct (m c) as [t1 [[a c1]|]] eqn:E; [|done]. apply Hm in E.
  destruct (f a c1) as [t2 r] eqn:E2. injection H as <- ->. apply Hf in E2. lia.
Qed.

Lemma shrinks_or_record {A} msg (m : session A) : shrinks m → shrinks (or_record msg m).
Proof.
  intros Hm c t a c' H. unfold or_record in H. destruct (m c) as [t1 [r|]] eqn:E; [|done].
  injection H as <- ->. by apply Hm in E.
Qed.

Lemma shrinks_ret {A} (a : A) : shrinks (mret a).
Proof. intros c t a' c' [= <- <- <-]. lia. Qed.

Lemma shrinks_tell e : shrinks (tell e).
Proof. intros c t a' c' [= <- <- <-]. lia. Qed.

Lemma shrinks_send args : shrinks (send_command args).
Proof. intros c t a c' H. unfold send_command in H. destruct (writes c); simplify_eq. done. Qed.

Lemma shrinks_guard b : shrinks (guard b).
Proof. destruct b; [apply shrinks_ret|by intros c t a c' H]. Qed.

Lemma shrinks_read_line : shrinks (reading read_line).
Proof.
  intros c t a c' H. unfold reading, read_line in H. unfold chunks_left.
  revert H. generalize (sync_buffer (reader c)) as buffer. induction (sync_socket (reader c)) as [|chunk socket IH];
    intros buffer H; cbn in H; destruct (find_crlf buffer); simplify_eq; try done.
  apply IH in H. cbn. lia.
Qed.

Lemma shrinks_read_exact n : shrinks (reading (read_exact n)).
Proof.
  intros c t a c' H. unfold reading, read_exact in H. unfold chunks_left.
  revert H. generalize (sync_buffer (reader c)) as buffer. induction (sync_socket (reader c)) as [|chunk socket IH];
    intros buffer H; cbn in H; destruct (n <=? size buffer); simplify_eq; try done.
  apply IH in H. cbn. lia.
Qed.

Lemma sync_session_shrinks port : shrinks (sync_session port).
Proof.
  unfold sync_session, handshake, handshake_step, psync, bulk_header, rdb_payload.
  repeat first [ apply shrinks_or_record | apply shrinks_bind; [|intros ?] | apply shrinks_ret
    | apply shrinks_tell | apply shrinks_send | apply shrinks_guard | apply shrinks_read_line
    | apply shrinks_read_exact ].
Qed.

(** ** The stream *)

(** The effects of a list of commands, and the offset after them. *)
Fixpoint stream_effects (applies : bool) (cmds : list Args) (offset : Z) : list link_effect :=
  match cmds with
  | [] => []
  | a :: cmds =>
      let offset := advance offset (length (encode a)) in
      LAdvance (length (encode a)) :: stream_action applies a offset ++
        stream_effects applies cmds offset
  end.

Definition stream_offset (cmds : list Args) (offset : Z) : Z :=
  foldl (λ o a, advance o (length (encode a))) offset cmds.

Lemma stream_drain_back fuel applies cmds torn offset :
  Forall encodable cmds → parse_request torn = incomplete →
  (length (encode_all cmds ++ torn) < fuel)%nat →
  stream_drain fuel applies (encode_all cmds ++ torn) offset =
    Some (stream_effects applies cmds offset, torn, stream_offset cmds offset).
Proof.
  intros Hc Ht. revert fuel offset. induction Hc as [|a cmds Ha Hc IH]; intros fuel offset Hf.
  { destruct fuel; [lia|]. change (encode_all [] ++ torn) with torn. cbn. by rewrite Ht. }
  rewrite encode_all_cons, <- app_assoc in *. rewrite length_app in Hf. pose proof (encode_length a).
  destruct fuel as [|fuel]; [lia|]. cbn [stream_drain]. rewrite parse_encoded by done.
  cbn [status args consumed parsed]. rewrite drop_app_length, IH by lia. done.
Qed.

Lemma torn_incomplete torn : torn = [] ∨ parse_request torn = incomplete → parse_request torn = incomplete.
Proof. by intros [->|?]. Qed.

(** The tasks among the effects, and the bytes they account for. *)
Definition posted (t : list link_effect) : list Task :=
  omap (λ e, match e with LPost x => Some x | _ => None end) t.

Definition advanced (t : list link_effect) : nat :=
  sum_list_with (λ e, match e with LAdvance n => n | _ => 0%nat end) t.

Lemma posted_app t t' : posted (t ++ t') = posted t ++ posted t'.
Proof. apply omap_app. Qed.

Lemma advanced_app t t' : advanced (t ++ t') = (advanced t + advanced t')%nat.
Proof. apply sum_list_with_app. Qed.

(** Commands the replica applies: all but the two of the protocol itself. *)
Definition stream_command (a : Args) : Prop :=
  encodable a ∧ upper (default [] (head a)) ∉ [bs "REPLCONF"; bs "PING"].

Lemma stream_effects_posted cmds offset :
  Forall stream_command cmds → posted (stream_effects true cmds offset) = TaskApply <$> cmds.
Proof.
  intros Hc. revert offset. induction Hc as [|a cmds [[Ha _] Hn] _ IH]; intros offset; [done|].
  cbn [stream_effects]. change (posted (LAdvance ?n :: ?t)) with (posted t).
  rewrite posted_app, IH. destruct a as [|a0 a]; [done|]. cbn [head default] in Hn.
  unfold stream_action. rewrite (proj2 (beq_false _ (bs "REPLCONF"))), (proj2 (beq_false _ (bs "PING"))).
  - done.
  - intros E. apply Hn. change (upper a0 ∈ [bs "REPLCONF"; bs "PING"]). rewrite E. right. left.
  - intros E. apply Hn. change (upper a0 ∈ [bs "REPLCONF"; bs "PING"]). rewrite E. left.
Qed.

Lemma stream_effects_advanced applies cmds offset :
  advanced (stream_effects applies cmds offset) = length (encode_all cmds).
Proof.
  revert offset. induction cmds as [|a cmds IH]; intros offset; [done|].
  cbn [stream_effects]. change (advanced (LAdvance ?n :: ?t)) with (n + advanced t)%nat.
  rewrite advanced_app, IH, encode_all_cons, length_app.
  assert (∀ o, advanced (stream_action applies a o) = 0%nat) as H; [|rewrite H; lia].
  intros o. unfold stream_action. destruct a; [done|]. by repeat split_if.
Qed.

Definition lost (rd : stream_round) : bool :=
  match round_read rd with ReadLost _ => true | _ => false end.

(** How many more chunks the rounds can read. *)
Definition is_next (rd : stream_round) : bool :=
  match round_read rd with ReadNext => true | _ => false end.
Definition nexts (rounds : list stream_round) : nat :=
  length (filter (λ rd, is_next rd = true) rounds).

Lemma nexts_cons rd rounds : nexts (rd :: rounds) = ((if is_next rd then 1 else 0) + nexts rounds)%nat.
Proof. unfold nexts. rewrite filter_cons. by destruct (is_next rd). Qed.

Lemma ack_quiet (b : bool) a : posted (if b then [LSend a] else []) = [] ∧
  advanced (if b then [LSend a] else []) = 0%nat.
Proof. by destruct b. Qed.

(** The effects of a round, and then those of the rest. *)
Lemma stream_round_back cmds n n' offset ack t :
  Forall stream_command cmds → posted ack = [] → advanced ack = 0%nat →
  posted t = TaskApply <$> take n' (drop n cmds) → advanced t = length (encode_all (take n' (drop n cmds))) →
  posted (stream_effects true (take n cmds) offset ++ ack ++ t) = TaskApply <$> take (n + n') cmds ∧
  advanced (stream_effects true (take n cmds) offset ++ ack ++ t) = length (encode_all (take (n + n') cmds)).
Proof.
  intros Hc Hp Ha Hpt Hat. rewrite !posted_app, !advanced_app, Hp, Ha, Hpt, Hat.
  rewrite stream_effects_posted, stream_effects_advanced by (by apply Forall_take).
  rewrite <- (take_take_drop cmds n n'), fmap_app, encode_all_app, length_app. done.
Qed.

Lemma stream_loop_back rounds socket stream offset last_ack cmds rest :
  Forall stream_command cmds → encode_all cmds = stream ++ mjoin socket ++ rest →
  Forall (λ rd, 0 ≤ round_now rd ≤ int64_max) rounds → 0 ≤ last_ack ≤ int64_max →
  ∃ t n, stream_loop rounds true socket stream offset last_ack = Ret t ∧
    (n ≤ length cmds)%nat ∧ posted t = TaskApply <$> take n cmds ∧
    advanced t = length (encode_all (take n cmds)) ∧
    ((length socket < nexts rounds)%nat → Forall (λ rd, lost rd = false) rounds → rest = [] →
     n = length cmds).
Proof.
  intros Hc E Ht. revert socket stream offset last_ack cmds Hc E.
  induction Ht as [|[now read] rounds Hnow Ht IH]; intros socket stream offset last_ack cmds Hc E Hl.
  { exists [], 0%nat. split_and!; try done; [lia|]. cbn. lia. }
  assert (Forall encodable cmds) as Henc by (eapply Forall_impl; [exact Hc|]; by intros a [? _]).
  destruct (log_prefix _ _ _ Henc E) as (n & torn & Es & Htorn%torn_incomplete & Hn & Hfull).
  assert (encode_all (drop n cmds) = torn ++ mjoin socket ++ rest) as E'.
  { rewrite <- (take_drop n cmds) in E at 1. rewrite encode_all_app, Es, <- app_assoc in E.
    by apply app_inv_head in E. }
  cbn [stream_loop round_now] in *. rewrite Es.
  rewrite stream_drain_back; [|by apply Forall_take|done|lia].
  unfold sub64, checked64. rewrite (proj2 (in_int64_spec _)) by (unfold int64_min, int64_max in *; lia).
  cbn [mbind outcome_bind]. set (offset' := stream_offset _ _). set (due := 1000 <=? _).
  set (ack := if due then _ else []). set (last := if due then now else last_ack).
  assert (0 ≤ last ≤ int64_max) as Hlast by (unfold last; by destruct due).
  assert (posted ack = [] ∧ advanced ack = 0%nat) as [Hp Ha] by apply ack_quiet.
  pose proof (λ t n', stream_round_back cmds n n' offset ack t Hc Hp Ha) as Hadd.
  assert (∀ socket' stream', encode_all (drop n cmds) = stream' ++ mjoin socket' ++ rest →
    ∃ t m, (t ← stream_loop rounds true socket' stream' offset' last;
            Ret (stream_effects true (take n cmds) offset ++ ack ++ t)) = Ret t ∧
      (n ≤ m ≤ length cmds)%nat ∧ posted t = TaskApply <$> take m cmds ∧
      advanced t = length (encode_all (take m cmds)) ∧
      ((length socket' < nexts rounds)%nat → Forall (λ rd, lost rd = false) rounds → rest = [] →
       m = length cmds)) as Hgo.
  { intros socket' stream' E2.
    destruct (IH socket' stream' offset' last (drop n cmds) ltac:(by apply Forall_drop) E2 Hlast)
      as (t & n' & Hr & Hn' & Hpt & Hat & Hall). rewrite Hr. cbn. eexists _, (n + n')%nat.
    rewrite length_drop in Hn', Hall. destruct (Hadd t n' Hpt Hat). split_and!; try done; [lia..|].
    intros ? ? ?. rewrite Hall by done. lia. }
  destruct read as [| |msg].
  - destruct socket as [|chunk socket].
    + destruct (Hgo [] torn E') as (t & m & Hr & [? ?] & ? & ? & _). exists t, m.
      split_and!; try done. intros _ _ ->. rewrite (Hfull eq_refl) in *. lia.
    + rewrite mjoin_cons, <- app_assoc, (app_assoc torn) in E'.
      destruct (Hgo socket (torn ++ chunk) E') as (t & m & Hr & [? ?] & ? & ? & Hall). exists t, m.
      split_and!; try done. intros Hlt [_ Hf]%Forall_cons. apply Hall; [|done]. rewrite nexts_cons in Hlt. cbn in Hlt. lia.
  - destruct (Hgo socket torn E') as (t & m & Hr & [? ?] & ? & ? & Hall). exists t, m.
    split_and!; try done. intros Hlt [_ Hf]%Forall_cons. by apply Hall.
  - eexists _, n. split; [done|]. destruct (Hadd [LError (bs "lost connection to master: " ++ msg)] 0%nat)
      as [Hpt Hat]; [done|done|]. rewrite Nat.add_0_r in *. split_and!; try done.
    by intros _ [? _]%Forall_cons.
Qed.

(** ** The offset *)

(** [replica_offset_] after some effects. *)
Definition offset_step (o : Z) (e : link_effect) : Z :=
  match e with LOffset n => n | LAdvance n => advance o n | _ => o end.
Definition offset_after (t : list link_effect) (o : Z) : Z := foldl offset_step o t.

Definition stores_offset (e : link_effect) : bool :=
  match e with LOffset _ => true | _ => false end.

Lemma stream_drain_no_store fuel applies x offset t kept o :
  stream_drain fuel applies x offset = Some (t, kept, o) →
  Forall (λ e, stores_offset e = false) t.
Proof.
  revert x offset t. induction fuel as [|fuel IH]; intros x offset t H; [done|].
  cbn [stream_drain] in H. destruct (status (parse_request x)); simplify_eq; try by constructor.
  destruct (stream_drain fuel _ _ _) as [[[t1 kept1] o1]|] eqn:E; [|done]. cbn in H. simplify_eq.
  constructor; [done|]. apply Forall_app. split; [|by eapply IH].
  unfold stream_action. destruct (args _); [constructor|]. repeat split_if; repeat constructor.
Qed.

Lemma stream_loop_no_store rounds applies socket stream offset last_ack t :
  stream_loop rounds applies socket stream offset last_ack = Ret t →
  Forall (λ e, stores_offset e = false) t.
Proof.
  revert socket stream offset last_ack t.
  induction rounds as [|[now read] rounds IH]; intros socket stream offset last_ack t H.
  { cbn in H. simplify_eq. constructor. }
  cbn [stream_loop] in H. destruct (stream_drain _ _ _ _) as [[[t1 kept] o]|] eqn:E; [|done].
  apply stream_drain_no_store in E. apply bind_Ret in H as (since & _ & H). cbn zeta in H.
  set (ack := if 1000 <=? since then [LSend _] else []) in H.
  assert (Forall (λ e, stores_offset e = false) ack) as Ha
    by (unfold ack; destruct (1000 <=? since); repeat constructor).
  destruct read as [| |msg].
  - apply bind_Ret in H as (t2 & H2 & [= <-]). rewrite !Forall_app. split_and!; [done..|].
    destruct socket; by eapply IH.
  - apply bind_Ret in H as (t2 & H2 & [= <-]). rewrite !Forall_app. split_and!; [done..|]. by eapply IH.
  - injection H as <-. rewrite !Forall_app. split_and!; [done..|]. repeat constructor.
Qed.

Lemma advance_small o n : 0 ≤ o → o + Z.of_nat n ≤ int64_max → advance o n = o + Z.of_nat n.
Proof.
  intros Ho Hm. unfold advance, wrap64. unfold int64_max in Hm. rewrite Z.mod_small by lia.
  unfold to_signed. rewrite ?Z.mod_small by lia. split_if; breflect; lia.
Qed.

Lemma offset_after_advanced t o :
  Forall (λ e, stores_offset e = false) t → 0 ≤ o → o + Z.of_nat (advanced t) ≤ int64_max →
  offset_after t o = o + Z.of_nat (advanced t).
Proof.
  intros Ht. revert o. induction Ht as [|e t He _ IH]; intros o Ho Hm; [cbn; lia|].
  unfold offset_after in *. cbn [foldl].
  assert (advanced (e :: t) = match e with LAdvance n => n | _ => 0 end + advanced t)%nat as Ea by done.
  rewrite Ea in *. destruct e; try done; cbn [offset_step] in *; try (rewrite IH; lia).
  rewrite advance_small by lia. rewrite IH; lia.
Qed.

Lemma offset_after_app t t' o : offset_after (t ++ t') o = offset_after t' (offset_after t o).
Proof. apply foldl_app. Qed.
