(* ===== verification/ReplicationTheorems.v ===== *)
(** * Correctness of replication

    The replication operations leave the keyspace alone, so they can be a
    command table's collaborator; a replica that reads what this program's
    master sends ends with the master's keyspace; and what goes wrong on
    streams and acknowledgements that no such master or replica would send. *)

From S2P Require Import Prelude Resp UnorderedMap Store Keyspace StoreScan Stats Commands CommandSpec.
From S2P Require Import Dispatch Encode Files Aof AofTheorems Recovery Rdb RdbTheorems.
From S2P Require Import Replication ReplicaLink ReplicaLinkTheorems.

Section Laws.
Context `{UM : UnorderedMap} {W : Type} {SS : ServerState W} {RS : ReplicationState W}.
Implicit Types (w : W).

Lemma store_of_on_repl f w : store_of (on_repl f w) = store_of w.
Proof. apply store_of_with_repl. Qed.

Lemma store_of_link_effects es w : store_of (link_effects es w) = store_of w.
Proof.
  unfold link_effects. revert w. induction es as [|e es IH]; intros w; [done|]. cbn. rewrite IH.
  destruct e; cbn; [apply store_of_on_repl..|apply store_of_post|done].
Qed.

Lemma store_of_ack lnk offset todo done_ w :
  store_of (ack_replicas lnk offset todo done_ w).2 = store_of w.
Proof.
  revert done_ w. induction todo as [|rep todo IH]; intros done_ w; [done|]. cbn [ack_replicas].
  split_if; [|apply IH]. pose proof (store_of_wall w) as Hw. destruct (wall_clock w) as [t w1].
  by rewrite IH.
Qed.

Lemma store_of_stop w w' : repl_stop_replication w = Ret w' → store_of w' = store_of w.
Proof.
  unfold repl_stop_replication. intros [= <-]. rewrite store_of_on_repl.
  destruct (link_thread_ _); [rewrite store_of_link_effects|]; apply store_of_on_repl.
Qed.

Lemma start_full_resync_store lnk w w' :
  repl_start_full_resync lnk w = Ret w' →
  store_of w' = store_of w ∨ store_of w' = (snapshot (store_of w)).2.
Proof.
  unfold repl_start_full_resync. destruct lnk as [l|]; [|intros [= <-]; by left].
  intros (w1 & H1%store_of_send & H)%bind_Ret. rewrite <- H1.
  destruct (snapshot (store_of w1)) as [recs s] eqn:Es.
  apply bind_Ret in H as (w2 & H2%store_of_send & H).
  apply bind_Ret in H as (w3 & H3%store_of_send & H).
  apply bind_Ret in H as (peer & _ & H). pose proof (store_of_wall w3) as Hw.
  destruct (wall_clock w3) as [t w4]. injection H as <-. right. cbn in *.
  by rewrite store_of_on_repl, Hw, H3, H2, store_of_with.
Qed.

(** [Replication] keeps the promises the command table relies on. *)
Lemma replication_ops_laws : ReplicationLaws (replication_ops (W:=W)).
Proof.
  split; cbn.
  - intros l w w' [->| ->]%start_full_resync_store; [apply quiet_refl|exact (quiet_clock _)].
  - intros l n w w'. unfold repl_on_replica_ack. pose proof (store_of_ack l n (replicas_ (repl_of w)) [] w) as H.
    destruct (ack_replicas _ _ _ _ _) as [reps w1]. cbn [snd] in H. intros [= <-].
    rewrite store_of_on_repl, H. apply quiet_refl.
  - intros l n w w' [= <-]. rewrite store_of_on_repl. apply quiet_refl.
  - intros h n w r w'. unfold repl_replicaof. split_if; [intros [= <- <-]; apply quiet_refl|].
    intros (w1 & H%store_of_stop & [= <- <-])%bind_Ret. rewrite store_of_on_repl, H. apply quiet_refl.
  - intros w w' H%store_of_stop. rewrite H. apply quiet_refl.
Qed.

End Laws.

(** ** Convergence *)

Section Convergence.
Context `{UM : UnorderedMap} {W : Type} {SS : ServerState W} {RS : ReplicationState W}.
Implicit Types (w : W) (tbl : CommandTable (W:=W) (Link:=Link)).

Lemma effect_stream_command p : encodable p → is_Some (effect_of p) → stream_command p.
Proof.
  intros He [e H]. split; [done|]. destruct p as [|a0 rest]; [done|].
  change (upper a0 ∉ [bs "REPLCONF"; bs "PING"]). unfold effect_of in H. intros Hin.
  rewrite !elem_of_cons, elem_of_nil in Hin. destruct Hin as [E|[E|[]]]; by rewrite E in H.
Qed.

Lemma run_tasks_apply tbl cmds w :
  run_tasks tbl (TaskApply <$> cmds) w = apply_all (apply_silently tbl) cmds w.
Proof.
  revert w. induction cmds as [|a cmds IH]; intros w; [done|]. cbn [fmap list_fmap run_tasks apply_all run_task].
  change (list_fmap Args Task TaskApply cmds) with (TaskApply <$> cmds).
  destruct (apply_silently tbl a w); [|done..]. cbn. apply IH.
Qed.

(** Loading a snapshot over whatever was there. *)
Lemma resync_view T s s0 :
  store_wf s → now s ≤ T → steady T s0 (load_records (snapshot s).1 (clear s0)) →
  view T (load_records (snapshot s).1 (clear s0)) = view T s.
Proof.
  intros Hw Hn Hst. rewrite (load_records_view T).
  - rewrite snapshot_map, view_clear by done. rewrite (right_id_L ∅ (∪)). symmetry. by apply view_expire.
  - apply snapshot_keys_NoDup.
  - exact Hst.
  - done.
  - apply Forall_forall. intros. by rewrite view_clear.
Qed.

(** The tasks of a resynchronisation and the commands after it. *)
Lemma resync_runs tbl tbl2 T w cmds w' w2 :
  TableLaws tbl → store_wf (store_of w) → clock_wf (store_of w) → now (store_of w) ≤ T →
  history tbl T w cmds w' →
  ∃ w2', run_tasks tbl2 (TaskResync (snapshot (store_of w)).1 :: (TaskApply <$> cmds)) w2 = Ret w2' ∧
    (steady T (store_of w2) (store_of w2') →
     ∀ t', T ≤ t' → view t' (store_of w2') = view t' (store_of w')).
Proof.
  intros L Hw Hc Hn Hh. cbn [run_tasks run_task mbind outcome_bind]. rewrite run_tasks_apply.
  pose proof (history_effects _ _ _ _ _ L Hh Hc) as Heff. set (w1 := with_store _ w2).
  destruct (apply_all_runs tbl2 cmds w1 Heff) as (w2' & Hrun & Hlater). exists w2'. split; [done|].
  intros Hsteady t' Ht'. unfold w1 in Hlater. rewrite store_of_with in Hlater.
  assert (later (store_of w2) (load_records (snapshot (store_of w)).1 (clear (store_of w2)))) as Hl1.
  { eapply (later_trans _ (clear (store_of w2))); [by split|apply load_records_later]. }
  destruct (steady_split T _ _ _ Hl1 Hlater Hsteady) as [Hs1 Hs2].
  rewrite !(view_expire T t') by done. f_equal.
  eapply (history_replay tbl tbl2); [done|done|done| |exact Hrun|].
  - unfold w1. rewrite store_of_with. by apply resync_view.
  - unfold w1. by rewrite store_of_with.
Qed.

(** Replication converges.  A replica that reads, in any chunks, the
    replies to its handshake, the snapshot its master took and the commands the
    master propagated from then on, posts the snapshot and then a prefix of
    these commands, in order, and its offset is the master's at that point.
    With enough rounds of its loop and without losing the connection it posts
    all of them; the event loop runs them, and when it does so at time [T] the
    replica's keyspace is the master's, from [T] on, whatever was in it
    before. *)
Lemma replica_converges tbl tbl2 T w cmds w' w2 a port replid offset fuel :
  TableLaws tbl → store_wf (store_of w) → clock_wf (store_of w) → now (store_of w) ≤ T →
  history tbl T w cmds w' → Forall encodable cmds →
  let payload := rdb_serialize (snapshot (store_of w)).1 in
  size payload < 2 ^ 64 → (length payload ≤ fuel)%nat →
  0 ≤ offset → offset + size (encode_all cmds) ≤ int64_max → Forall (λ x, x ≠ CR) replid →
  connect_error a = None → (4 ≤ writes (attempt_conn a))%nat →
  unread_bytes (attempt_conn a) =
    handshake_replies ++ resync_bytes replid offset payload ++ encode_all cmds →
  0 ≤ stream_start_ms a ≤ int64_max →
  Forall (λ rd, 0 ≤ round_now rd ≤ int64_max) (attempt_rounds a) →
  ∃ t n, link_attempt fuel port true a = Ret t ∧
    posted t = TaskResync (snapshot (store_of w)).1 :: (TaskApply <$> take n cmds) ∧
    offset_after t 0 = offset + size (encode_all (take n cmds)) ∧
    ((length (sync_socket (reader (attempt_conn a))) < nexts (attempt_rounds a))%nat →
     Forall (λ rd, lost rd = false) (attempt_rounds a) →
     n = length cmds ∧
     ∃ w2', run_tasks tbl2 (posted t) w2 = Ret w2' ∧
       (steady T (store_of w2) (store_of w2') →
        ∀ t', T ≤ t' → view t' (store_of w2') = view t' (store_of w'))).
Proof.
  intros L Hw Hc Hn Hh Henc payload Hsz Hf Ho Hmax Hid Hce Hwr Hun Hst Hrounds.
  pose proof (size_nonneg (encode_all cmds)).
  assert (Forall stream_command cmds) as Hcmds.
  { pose proof (history_effects _ _ _ _ _ L Hh Hc) as Heff. apply Forall_forall. intros p Hp.
    apply effect_stream_command; [by apply (proj1 (Forall_forall _ _) Henc)|].
    by apply (proj1 (Forall_forall _ _) Heff). }
  assert (writes (attempt_conn a) = 4 + (writes (attempt_conn a) - 4))%nat as Hwr' by lia.
  destruct (sync_session_back _ _ port replid offset payload _ Hwr' ltac:(lia) Hsz Hid Hun)
    as (c' & Hs & Hb).
  pose proof (sync_session_shrinks port _ _ _ _ Hs) as Hsh. unfold chunks_left in Hsh.
  destruct (stream_loop_back (attempt_rounds a) (sync_socket (reader c')) (sync_buffer (reader c'))
    offset (stream_start_ms a) cmds [] Hcmds) as (t & n & Hr & Hle & Hp & Ha & Hall); [|done|done|].
  { rewrite app_nil_r. symmetry. exact Hb. }
  pose proof (stream_loop_no_store _ _ _ _ _ _ _ Hr) as Hno.
  eset (trace := ((LState kConnecting :: LState kHandshaking :: (LSend <$> handshake_commands port) ++
    [LState kSyncing]) ++ [LPost (TaskResync (snapshot (store_of w)).1); LOffset offset;
    LState kConnected; LError []] ++ t ++ [LState kConnecting])).
  assert (posted trace = TaskResync (snapshot (store_of w)).1 :: (TaskApply <$> take n cmds)) as Hpost.
  { unfold trace. rewrite !posted_app, Hp. cbn. by rewrite app_nil_r. }
  exists trace, n. split; [|split; [exact Hpost|split]].
  - unfold link_attempt. rewrite Hce, Hs. unfold payload.
    rewrite rdb_parse_serialized by (done || by apply snapshot_records_ok). cbn [mbind outcome_bind].
    by rewrite Hr.
  - unfold trace. rewrite !offset_after_app. change (offset_after [_; _; _; _] _) with offset.
    change (offset_after [LState kConnecting] ?o) with o. unfold size in *.
    rewrite <- (take_drop n cmds), encode_all_app, length_app in Hmax.
    rewrite offset_after_advanced; [by rewrite Ha|done|done|]. rewrite Ha. lia.
  - intros Hlt Hlost. assert (n = length cmds) as -> by (apply Hall; [lia|done|done]). split; [done|].
    rewrite Hpost, take_ge by done. by apply resync_runs with tbl.
Qed.

End Convergence.

(** ** What a foreign master or replica can do *)

(** A stream that starts with a malformed request: whatever follows, it is an
    error. *)
Definition malformed (more : bytes) : bytes := bs "*1" ++ crlf ++ bs "X" ++ more.

Lemma malformed_error more : status (parse_request (malformed more)) = kError.
Proof. done. Qed.

Lemma malformed_drain fuel applies more offset :
  stream_drain (S fuel) applies (malformed more) offset = Some ([], malformed more, offset).
Proof. cbn [stream_drain]. by rewrite malformed_error. Qed.

Lemma malformed_app more x : malformed more ++ x = malformed (more ++ x).
Proof. unfold malformed. by rewrite <- !app_assoc. Qed.

Definition is_ack (e : link_effect) : bool :=
  match e with LSend (a0 :: a1 :: _) => beq a0 (bs "REPLCONF") && beq a1 (bs "ACK") | _ => false end.

(** A protocol error in the stream stalls the replica for good.  The loop
    stops parsing at the error but keeps the connection, and every later round
    meets the same bytes: nothing more is applied, no error is recorded and the
    link still counts as up; only acknowledgements of the old offset are sent,
    however long it runs and whatever the master sends. *)
Theorem stream_error_stalls rounds applies socket more offset last_ack t :
  Forall (λ rd, lost rd = false) rounds →
  stream_loop rounds applies socket (malformed more) offset last_ack = Ret t →
  posted t = [] ∧ Forall (λ e, is_ack e = true) t.
Proof.
  intros Hl. revert socket more last_ack t.
  induction Hl as [|[now read] rounds Hrd _ IH]; intros socket more last_ack t H.
  { cbn in H. by simplify_eq. }
  cbn [stream_loop] in H. rewrite malformed_drain in H. apply bind_Ret in H as (since & _ & H).
  cbn zeta in H. set (ack := if 1000 <=? since then [LSend _] else []) in H.
  assert (posted ack = [] ∧ Forall (λ e, is_ack e = true) ack) as [Hp Ha]
    by (unfold ack; destruct (1000 <=? since); by repeat constructor).
  assert (∀ t2, posted t2 = [] ∧ Forall (λ e, is_ack e = true) t2 →
    posted (ack ++ t2) = [] ∧ Forall (λ e, is_ack e = true) (ack ++ t2)) as Hcons.
  { intros t2 [? ?]. rewrite posted_app, Hp. split; [done|]. by apply Forall_app. }
  destruct read as [| |msg]; [| |done].
  - apply bind_Ret in H as (t2 & H2 & [= <-]). apply Hcons.
    destruct socket as [|chunk socket]; [by eapply IH|]. rewrite malformed_app in H2. by eapply IH.
  - apply bind_Ret in H as (t2 & H2 & [= <-]). apply Hcons. by eapply IH.
Qed.

Section Acknowledgements.
Context `{UM : UnorderedMap} {W : Type} {SS : ServerState W} {RS : ReplicationState W}.
Implicit Types (w : W).

(** A replica can make INFO overflow.  The offset it acknowledges is not
    checked; after REPLCONF ACK with the least number the parser accepts, and
    once the master has written anything, the lag that INFO computes does not
    fit in 64 bits. *)
Theorem ack_overflows_info (lnk : Link) inf w w' :
  replicas_ (repl_of w) = [mkReplica lnk inf] → 0 < master_offset_ (repl_of w) →
  on_replica_ack replication_ops (Some lnk)
    (default 0 (to_int64 (bs "-9223372036854775807"))) w = Ret w' →
  replication_info replication_ops w' = Undefined.
Proof.
  change (default 0 (to_int64 (bs "-9223372036854775807"))) with (- int64_max).
  intros Hr Hm H. cbn in H. unfold repl_on_replica_ack in H. rewrite Hr in H.
  cbn [ack_replicas link] in H. rewrite bool_decide_true in H by done.
  pose proof (repl_of_wall w) as Hwall. destruct (wall_clock w) as [now w1].
  cbn in *. injection H as <-. unfold on_repl.
  rewrite repl_of_with, Hwall. unfold repl_info_section. cbn [replicas_ set_master master_offset_].
  cbn [info_replicas]. unfold info_replica, sub64, checked64. cbn [info ack_offset].
  destruct (in_int64 _) eqn:E; [|done].
  apply in_int64_spec in E. unfold int64_min, int64_max in E. lia.
Qed.

End Acknowledgements.

Definition ret_trace (o : outcome (list link_effect)) : list link_effect :=
  match o with Ret t => t | _ => [] end.

(** Two rounds after an error, the second with more input. *)
Lemma stream_error_stalls_witness :
  posted (ret_trace (stream_loop (replicate 2 (mkRound 1000 ReadNext)) true [bs "+more"] (malformed []) 5 0)) = [].
Proof.
  refine (proj1 (stream_error_stalls (replicate 2 (mkRound 1000 ReadNext)) true [bs "+more"] [] 5 0 _ _ _)).
  - by repeat constructor.
  - vm_compute. reflexivity.
Defined.
