(* ===== verification/Server.v ===== *)
(** * The server (include/rp/server.hpp, and the wiring of src/main.cpp)

    The state of the whole program, whatever its event loop, and what a backend
    promises to the rest of it: how a connection is written to, and what is
    queued for it.  The hook, the command table, the handler and the cron task
    are put together here as [main] does. *)

From S2P Require Import Prelude Buffer Resp UnorderedMap Store Stats Commands Handler Files Aof Rdb.
From S2P Require Import RdbFile Persistence Replication.

Record ServerConfig := mkServerConfig {
  bind_address : bytes;
  cfg_port : Z;
  backlog : Z;
  max_output_buffer : Z;
  read_chunk : nat;
  tcp_nodelay : bool;
  cron_interval_ms : Z
}.

Definition default_ServerConfig : ServerConfig :=
  mkServerConfig (bs "0.0.0.0") 6379 511 (64 * 1024 * 1024) (Z.to_nat (16 * 1024)) true 100.

(** ** Counters *)

Definition count_read (n : nat) (st : Stats) : Stats :=
  mkStats (connections_received st) (connections_active st) (connections_peak st)
    (connections_rejected st) (commands_processed st)
    (wrap64 (bytes_read st + Z.of_nat n)) (bytes_written st) (output_buffer_overflows st).
Definition count_written (n : nat) (st : Stats) : Stats :=
  mkStats (connections_received st) (connections_active st) (connections_peak st)
    (connections_rejected st) (commands_processed st) (bytes_read st)
    (wrap64 (bytes_written st + Z.of_nat n)) (output_buffer_overflows st).
Definition count_commands (n : nat) (st : Stats) : Stats :=
  mkStats (connections_received st) (connections_active st) (connections_peak st)
    (connections_rejected st) (wrap64 (commands_processed st + Z.of_nat n)) (bytes_read st)
    (bytes_written st) (output_buffer_overflows st).
Definition count_rejected (st : Stats) : Stats :=
  mkStats (connections_received st) (connections_active st) (connections_peak st)
    (wrap64 (connections_rejected st + 1)) (commands_processed st) (bytes_read st)
    (bytes_written st) (output_buffer_overflows st).
Definition count_overflow (st : Stats) : Stats :=
  mkStats (connections_received st) (connections_active st) (connections_peak st)
    (connections_rejected st) (commands_processed st) (bytes_read st) (bytes_written st)
    (wrap64 (output_buffer_overflows st + 1)).

(** How the counters move. *)
Inductive counted : Stats → Stats → Prop :=
| counted_connect st : counted st (on_connect st)
| counted_disconnect st : counted st (on_disconnect st)
| counted_rejected st : counted st (count_rejected st)
| counted_overflow st : counted st (count_overflow st)
| counted_read n st : counted st (count_read n st)
| counted_written n st : counted st (count_written n st)
| counted_commands n st : counted st (count_commands n st).

#[export] Hint Constructors counted : redis.

(** The name of a peer. *)
Definition endpoint_name (address : bytes) (port : Z) : bytes := address ++ bs ":" ++ to_string port.

Section Server.
Context `{UM : UnorderedMap}.

(** The program: the store, the counters with the uptime, durability,
    replication, the backend's connections by descriptor, the tasks posted to
    it, and the time of its last cron. *)
Record Server (C : Type) := mkServer {
  cfg_ : ServerConfig;
  sv_store : Store;
  sv_stats : Stats;
  sv_uptime : Uptime;
  sv_persist : Persistence;
  sv_repl : Replication;
  conns_ : gmap Link C;
  posted_ : list Task;
  last_cron_ : Z
}.


End Server.


Arguments mkServer {_ _} _ _ _ _ _ _ _ _ _.
Arguments cfg_ {_ _} _.
Arguments sv_store {_ _} _.
Arguments sv_stats {_ _} _.
Arguments sv_uptime {_ _} _.
Arguments sv_persist {_ _} _.
Arguments sv_repl {_ _} _.
Arguments conns_ {_ _} _.
Arguments posted_ {_ _} _.
Arguments last_cron_ {_ _} _.

Section State.
Context `{UM : UnorderedMap} {C : Type}.
Implicit Types (sv : Server C).

Definition with_sv_store (s : Store) sv : Server C :=
  mkServer (cfg_ sv) s (sv_stats sv) (sv_uptime sv) (sv_persist sv) (sv_repl sv) (conns_ sv)
    (posted_ sv) (last_cron_ sv).
Definition with_sv_stats (st : Stats) sv : Server C :=
  mkServer (cfg_ sv) (sv_store sv) st (sv_uptime sv) (sv_persist sv) (sv_repl sv) (conns_ sv)
    (posted_ sv) (last_cron_ sv).
Definition with_sv_uptime (u : Uptime) sv : Server C :=
  mkServer (cfg_ sv) (sv_store sv) (sv_stats sv) u (sv_persist sv) (sv_repl sv) (conns_ sv)
    (posted_ sv) (last_cron_ sv).
Definition with_sv_persist (p : Persistence) sv : Server C :=
  mkServer (cfg_ sv) (sv_store sv) (sv_stats sv) (sv_uptime sv) p (sv_repl sv) (conns_ sv)
    (posted_ sv) (last_cron_ sv).
Definition with_sv_repl (r : Replication) sv : Server C :=
  mkServer (cfg_ sv) (sv_store sv) (sv_stats sv) (sv_uptime sv) (sv_persist sv) r (conns_ sv)
    (posted_ sv) (last_cron_ sv).
Definition with_conns (cs : gmap Link C) sv : Server C :=
  mkServer (cfg_ sv) (sv_store sv) (sv_stats sv) (sv_uptime sv) (sv_persist sv) (sv_repl sv) cs
    (posted_ sv) (last_cron_ sv).
Definition with_loop (posted : list Task) (last_cron : Z) sv : Server C :=
  mkServer (cfg_ sv) (sv_store sv) (sv_stats sv) (sv_uptime sv) (sv_persist sv) (sv_repl sv)
    (conns_ sv) posted last_cron.

(** [Stats::instance().to_info()] *)
Definition server_info sv : bytes * Server C :=
  let '(t, u) := uptime_seconds (sv_uptime sv) in (to_info t (sv_stats sv), with_sv_uptime u sv).

Lemma server_info_uptime sv : (server_info sv).2 = with_sv_uptime (uptime_seconds (sv_uptime sv)).2 sv.
Proof. unfold server_info. by destruct (uptime_seconds (sv_uptime sv)). Qed.

#[global] Program Instance server_state : ServerState (Server C) := {
  store_of := sv_store;
  with_store := with_sv_store;
  stats_info := server_info
}.
Next Obligation. done. Qed.
Next Obligation. by intros []. Qed.
Next Obligation. done. Qed.
Next Obligation. intros sv. by rewrite server_info_uptime. Qed.

#[global] Program Instance server_persist : PersistState (Server C) := {
  persist_of := sv_persist;
  with_persist := with_sv_persist
}.
Solve All Obligations with done.

Definition post (t : Task) sv : Server C := with_loop (posted_ sv ++ [t]) (last_cron_ sv) sv.

(** The part of the state that writing to a connection may change. *)
Definition with_io (st : Stats) (r : Replication) (cs : gmap Link C) sv : Server C :=
  with_sv_stats st (with_sv_repl r (with_conns cs sv)).

End State.

(** ** Backends *)

(** What a backend provides, and what the rest relies on.  [conn_queued] is
    what a connection still has to send, or nothing once it is closed.  Writing
    to a connection that does not exist is a use of a dangling pointer; writing
    to one either queues the bytes at the end, or closes it, which is reported
    as a disconnection. *)
Class Backend `{UM : UnorderedMap} (C : Type) := {
  conn_wf : C → Prop;
  conn_queued : C → option bytes;
  conn_peer : C → bytes;
  conn_reply : bytes → C → C;
  conn_send : Link → bytes → Server C → outcome (Server C);
  conn_reply_wf d c : conn_wf c → conn_wf (conn_reply d c);
  conn_reply_queued d c :
    conn_wf c → conn_queued (conn_reply d c) = (λ q, q ++ d) <$> conn_queued c;
  conn_send_dangling l d sv : conns_ sv !! l = None → conn_send l d sv = Undefined;
  conn_send_spec l d sv c :
    conns_ sv !! l = Some c → conn_wf c →
    ∃ c' st r, conn_send l d sv = Ret (with_io st r (<[l := c']> (conns_ sv)) sv) ∧ conn_wf c' ∧
      match conn_queued c with
      | None => conn_queued c' = None ∧ r = sv_repl sv
      | Some q =>
          (conn_queued c' = Some (q ++ d) ∧ r = sv_repl sv) ∨
          (conn_queued c' = None ∧ r = remove_replica (Some l) (sv_repl sv))
      end;
  conn_send_frame l d sv sv' :
    conn_send l d sv = Ret sv' → ∃ st r cs, sv' = with_io st r cs sv;
  conn_send_counts l d sv sv' :
    conn_send l d sv = Ret sv' →
    rtc counted (sv_stats sv) (sv_stats sv') ∧
    (sv_repl sv' = sv_repl sv ∨ sv_repl sv' = remove_replica (Some l) (sv_repl sv))
}.

Section Wiring.
Context `{UM : UnorderedMap} {C : Type} {B : Backend C}.
Implicit Types (sv : Server C).

#[global] Program Instance server_repl : ReplicationState (Server C) := {
  repl_of := sv_repl;
  with_repl := with_sv_repl;
  link_send := conn_send;
  link_peer l sv := match conns_ sv !! l with None => Undefined | Some c => Ret (conn_peer c) end;
  post_task := post;
  wall_clock sv := let '(t, p) := now_ms (sv_persist sv) in (t, with_sv_persist p sv)
}.
Next Obligation. done. Qed.
Next Obligation. done. Qed.
Next Obligation. by intros l d sv sv' (st & r & cs & ->)%conn_send_frame. Qed.
Next Obligation. done. Qed.
Next Obligation. done. Qed.
Next Obligation. done. Qed.

(** ** The wiring of [main] *)

Definition server_table : CommandTable (W:=Server C) (Link:=Link) :=
  mkTable (Some persistence_ops) (Some replication_ops).

(** One hook, two consumers. *)
Definition propagate_hook (args : Args) sv : outcome (Server C) :=
  repl_propagate args (with_sv_persist (on_write args (sv_persist sv)) sv).

(** The handler as it serves one connection: a reply goes to the connection's
    own buffer. *)
Definition reply_to (l : Link) (data : bytes) sv : Server C :=
  with_conns (alter (conn_reply data) l (conns_ sv)) sv.

Definition server_handler (l : Link) : RespHandler (W:=Server C) (Link:=Link) :=
  mkHandler server_table (Some propagate_hook) (reply_to l).

(** The other threads: a step of the background saver, or something the link
    thread does while it runs. *)
Inductive thread_step :=
| SaverRuns
| LinkDoes (e : link_effect).

Definition thread_effect (t : thread_step) sv : Server C :=
  match t with
  | SaverRuns => with_sv_persist (saver_step (sv_persist sv)) sv
  | LinkDoes e => if link_thread_ (sv_repl sv) then link_effect_step e sv else sv
  end.

Definition thread_effects (ts : list thread_step) sv : Server C :=
  foldl (λ sv t, thread_effect t sv) sv ts.

(** The cron task. *)
Definition server_cron sv : outcome (Server C) :=
  let '(_, s) := active_expire_cycle default_ExpiryConfig (sv_store sv) in
  '(s, p) ← cron s (sv_persist sv);
  Ret (with_sv_persist p (with_sv_store s sv)).

End Wiring.
