(* ===== verification/PollServer.v ===== *)
(** * The poll backend (src/poll_server.cpp)

    One thread, one [poll].  What the system calls return is an argument of the
    operations that make them: the results of [accept], [recv] and [send], one
    after the other, and the events of [poll]. *)

From S2P Require Import Prelude Buffer Resp UnorderedMap Store Stats Commands Handler Replication Server.

(** One client.  It is its own [ClientLink]. *)
Record Conn := mkClient {
  peer_name : bytes;
  conn_in : Buffer;
  conn_out : Buffer;
  close_after_flush : bool
}.

Definition set_in (b : Buffer) (c : Conn) : Conn :=
  mkClient (peer_name c) b (conn_out c) (close_after_flush c).
Definition set_out (b : Buffer) (c : Conn) : Conn :=
  mkClient (peer_name c) (conn_in c) b (close_after_flush c).

(** What the system calls return; a list of results that has run out stands for
    "nothing more now".  Receiving no bytes means that the peer has closed. *)
Inductive accept_result :=
| AcceptConn (fd : Link) (address : bytes) (sin_port : Z)
| AcceptAgain
| AcceptNoDescriptors
| AcceptFailed.

Inductive recv_result :=
| RecvData (data : bytes)
| RecvAgain
| RecvInterrupted
| RecvFailed.

Inductive send_result :=
| Sent (n : nat)
| SendAgain
| SendInterrupted
| SendFailed.

Section PollServer.
Context `{UM : UnorderedMap}.
Abbreviation PollServer := (Server Conn).
Implicit Types (sv : PollServer).

(** ** Writing to a connection *)

(** [Conn::send] *)
Definition append_out (data : bytes) (c : Conn) : Conn :=
  set_out (buf_append (conn_out c) data) c.

Definition poll_send (l : Link) (data : bytes) sv : outcome PollServer :=
  match conns_ sv !! l with
  | None => Undefined
  | Some c => Ret (with_conns (<[l := append_out data c]> (conns_ sv)) sv)
  end.

(** [Conn::close] *)
Definition poll_close (c : Conn) : Conn := mkClient (peer_name c) (conn_in c) (conn_out c) true.

Definition client_wf (c : Conn) : Prop := buf_wf (conn_in c) ∧ buf_wf (conn_out c).

#[global] Program Instance poll_backend : Backend Conn := {
  conn_wf := client_wf;
  conn_queued c := Some (readable (conn_out c));
  conn_peer := peer_name;
  conn_reply := append_out;
  conn_send := poll_send
}.
Next Obligation. intros d c [? ?]. split; [done|]. by apply buf_append_wf. Qed.
Next Obligation. intros d c [? ?]. cbn. by rewrite readable_append. Qed.
Next Obligation. intros l d sv H. unfold poll_send. by rewrite H. Qed.
Next Obligation.
  intros l d sv c H [? ?]. unfold poll_send. rewrite H.
  exists (append_out d c), (sv_stats sv), (sv_repl sv). split; [by destruct sv|].
  split; [split; [done|by apply buf_append_wf]|]. cbn. left. by rewrite readable_append.
Qed.
Next Obligation.
  intros l d sv sv'. unfold poll_send. destruct (conns_ sv !! l) as [c|]; [|done]. intros [= <-].
  exists (sv_stats sv), (sv_repl sv), (<[l := append_out d c]> (conns_ sv)). by destruct sv.
Qed.
Next Obligation.
  intros l d sv sv'. unfold poll_send. destruct (conns_ sv !! l) as [c|]; [|done]. intros [= <-].
  split; [apply rtc_refl|by left].
Qed.

(** ** Connections *)

(** [emplace] does not replace; the descriptor of an open connection is not
    given out again. *)
Fixpoint accept_ready (accepts : list accept_result) sv : PollServer :=
  match accepts with
  | [] => sv
  | AcceptAgain :: _ | AcceptFailed :: _ => sv
  | AcceptNoDescriptors :: _ => with_sv_stats (count_rejected (sv_stats sv)) sv
  | AcceptConn fd address sin_port :: accepts =>
      let conn := mkClient (endpoint_name address sin_port) buf_empty buf_empty false in
      let sv :=
        match conns_ sv !! fd with
        | Some _ => sv
        | None => with_conns (<[fd := conn]> (conns_ sv)) sv
        end in
      accept_ready accepts (with_sv_stats (on_connect (sv_stats sv)) sv)
  end.

(** The loop of [handle_write]: whether the connection stays. *)
Fixpoint handle_write (fd : Link) (sends : list send_result) sv : bool * PollServer :=
  match conns_ sv !! fd with
  | None => (false, sv)
  | Some c =>
      if buf_is_empty (conn_out c) then (negb (close_after_flush c), sv)
      else
        match sends with
        | [] | SendAgain :: _ => (true, sv)
        | SendInterrupted :: sends => handle_write fd sends sv
        | SendFailed :: _ => (false, sv)
        | Sent n :: sends =>
            let n := Nat.min n (buf_size (conn_out c)) in
            if Nat.eqb n 0 then (false, sv)
            else
              handle_write fd sends
                (with_sv_stats (count_written n (sv_stats sv))
                  (with_conns (<[fd := set_out (consume (conn_out c) n) c]> (conns_ sv)) sv))
        end
  end.

(** The loop of [recv]: whether to go on with the connection, its buffer and
    the counters. *)
Fixpoint recv_loop (chunk : nat) (recvs : list recv_result) (input : Buffer) (st : Stats)
    : bool * Buffer * Stats :=
  match recvs with
  | [] | RecvAgain :: _ => (true, input, st)
  | RecvInterrupted :: recvs => recv_loop chunk recvs input st
  | RecvFailed :: _ => (false, input, st)
  | RecvData data :: recvs =>
      let data := take chunk data in
      if Nat.eqb (length data) 0 then (false, input, st) else
      let st := count_read (length data) st in
      let input := buf_append input data in
      if Nat.ltb (length data) chunk then (true, input, st)
      else recv_loop chunk recvs input st
  end.

Definition handle_read (fd : Link) (recvs : list recv_result) (sends : list send_result) sv
    : outcome (bool * PollServer) :=
  match conns_ sv !! fd with
  | None => Ret (false, sv)
  | Some c =>
      let '(go, input, st) := recv_loop (read_chunk (cfg_ sv)) recvs (conn_in c) (sv_stats sv) in
      let sv := with_sv_stats st (with_conns (<[fd := set_in input c]> (conns_ sv)) sv) in
      if negb go then Ret (false, sv)
      else
        '(handled, rest, sv) ← on_data (server_handler fd) (Some fd) input sv;
        match conns_ sv !! fd with
        | None => Undefined
        | Some c =>
            let sv := with_sv_stats (count_commands handled (sv_stats sv))
                        (with_conns (<[fd := set_in rest c]> (conns_ sv)) sv) in
            if max_output_buffer (cfg_ sv) <? Z.of_nat (buf_size (conn_out c)) then
              Ret (false, with_sv_stats (count_overflow (sv_stats sv)) sv)
            else Ret (handle_write fd sends sv)
        end
  end.

Definition drop_conn (fd : Link) sv : outcome PollServer :=
  match conns_ sv !! fd with
  | None => Ret sv
  | Some _ =>
      sv ← handler_disconnect (server_handler fd) (Some fd) sv;
      Ret (with_sv_stats (on_disconnect (sv_stats sv))
             (with_conns (delete fd (conns_ sv)) sv))
  end.

Fixpoint drop_all (dead : list Link) sv : outcome PollServer :=
  match dead with
  | [] => Ret sv
  | fd :: dead => sv ← drop_conn fd sv; drop_all dead sv
  end.

(** ** The loop *)

(** The events of one descriptor: [hangup] is any of the three error events;
    readable comes with what [recv] and then [send] return, writable with what
    [send] returns. *)
Inductive poll_event :=
| EventListen (accepts : list accept_result)
| EventConn (fd : Link) (hangup : bool)
    (readable : option (list recv_result * list send_result))
    (writable : option (list send_result)).

(** One event of the sweep: the state, and the descriptors found dead. *)
Definition handle_event (e : poll_event) (dead : list Link) sv : outcome (list Link * PollServer) :=
  match e with
  | EventListen accepts => Ret (dead, accept_ready accepts sv)
  | EventConn fd hangup rd wr =>
      if hangup then Ret (dead ++ [fd], sv)
      else
        '(alive, sv) ← match rd with
                       | Some (recvs, sends) => handle_read fd recvs sends sv
                       | None => Ret (true, sv)
                       end;
        if negb alive then Ret (dead ++ [fd], sv)
        else
          match wr with
          | Some sends =>
              let '(alive, sv) := handle_write fd sends sv in
              Ret (if alive then dead else dead ++ [fd], sv)
          | None => Ret (dead, sv)
          end
  end.

Fixpoint sweep (events : list poll_event) (dead : list Link) sv : outcome (list Link * PollServer) :=
  match events with
  | [] => Ret (dead, sv)
  | e :: events => '(dead, sv) ← handle_event e dead sv; sweep events dead sv
  end.

Definition run_cron_if_due (now : Z) sv : outcome PollServer :=
  if now - last_cron_ sv <? cron_interval_ms (cfg_ sv) then Ret sv
  else server_cron (with_loop (posted_ sv) now sv).

(** The tasks posted so far; those they post themselves wait for the next
    round. *)
Definition drain_posted sv : outcome PollServer :=
  run_tasks server_table (posted_ sv) (with_loop [] (last_cron_ sv) sv).

(** What is polled: every connection for reading, and for writing when it has
    output queued. *)
Definition interest sv : list (Link * bool) :=
  (λ fc : Link * Conn, (fc.1, negb (buf_is_empty (conn_out fc.2)))) <$> map_to_list (conns_ sv).

(** What [poll] answers.  When it fails, which of the two it is depends on [errno]
    as it is when the loop looks at it, after the posted tasks and the cron. *)
Inductive poll_result :=
| PollReady (events : list poll_event)
| PollInterrupted
| PollFailed.

Definition kPollTimeoutMs : Z := 100.

(** The timeout given to [poll]; there is a cron task. *)
Definition poll_timeout sv : Z := Z.min kPollTimeoutMs (cron_interval_ms (cfg_ sv)).

(** One turn of [run]: what [poll] answers, and the steady clock after it.
    The result says whether the loop goes on. *)
Definition poll_round (poll : list (Link * bool) → Z → poll_result) (now : Z) sv
    : outcome (bool * PollServer) :=
  let ready := poll (interest sv) (poll_timeout sv) in
  sv ← drain_posted sv;
  sv ← run_cron_if_due now sv;
  match ready with
  | PollInterrupted => Ret (true, sv)
  | PollFailed => Ret (false, sv)
  | PollReady events =>
      '(dead, sv) ← sweep events [] sv;
      sv ← drop_all dead sv;
      Ret (true, sv)
  end.

(** What the loop meets in one turn: whether some thread has called [stop] since
    the condition of the loop was last read, what the other threads do until
    [poll] returns, its answer, and the time. *)
Record loop_turn := mkTurn {
  stop_called : bool;
  turn_threads : list thread_step;
  turn_poll : list (Link * bool) → Z → poll_result;
  turn_now : Z
}.

(** [stop]; [stopping_] is atomic. *)
Definition poll_stop (stopping_ : bool) : bool := true.

(** [run]: the turns, until [stop] is seen or [poll] fails.  The result says
    whether [run] has returned or is still waiting after the last of the turns. *)
Fixpoint run (turns : list loop_turn) (stopping_ : bool) sv : outcome (bool * PollServer) :=
  match turns with
  | [] => Ret (false, sv)
  | t :: turns =>
      let stopping_ := if stop_called t then poll_stop stopping_ else stopping_ in
      if stopping_ then Ret (true, sv)
      else
        let ready := turn_poll t (interest sv) (poll_timeout sv) in
        '(go, sv) ← poll_round (λ _ _, ready) (turn_now t) (thread_effects (turn_threads t) sv);
        if go : bool then run turns stopping_ sv else Ret (true, sv)
  end.

(** ** Opening and closing *)

(** Open descriptors, with their status flags. *)
Abbreviation Descriptors := (gmap Link Z).

Definition O_NONBLOCK : Z := 2048.

(** [fcntl] fails on a descriptor that is not open. *)
Definition set_nonblocking (fd : Link) (fds : Descriptors) : Descriptors :=
  match fds !! fd with
  | Some flags => <[fd := Z.lor flags O_NONBLOCK]> fds
  | None => fds
  end.

(** What the calls of the constructor return: the new descriptor, whether the
    address is one, whether [bind] and [listen] succeed, and the port of the
    socket's own name. *)
Record open_calls := mkOpenCalls {
  sys_socket : option Link;
  sys_pton : bytes → bool;
  sys_bind : bool;
  sys_listen : bool;
  sys_sockname : option Z
}.

Record Listener := mkListener { listen_fd_ : Link; port_ : Z }.

(** The constructor: the text of an exception, or the listening socket. *)
Definition poll_open (sys : open_calls) (cfg : ServerConfig) (fds : Descriptors)
    : (bytes + Listener) * Descriptors :=
  match sys_socket sys with
  | None => (inl (bs "socket() failed"), fds)
  | Some fd =>
      let fds := <[fd := 2]> fds in
      if negb (sys_pton sys (bind_address cfg)) then
        (inl (bs "bad bind address: " ++ bind_address cfg), fds)
      else if negb (sys_bind sys) then
        (inl (bs "bind() failed on port " ++ to_string (cfg_port cfg)), fds)
      else if negb (sys_listen sys) then (inl (bs "listen() failed"), fds)
      else
        (inr (mkListener fd (default 0 (sys_sockname sys))), set_nonblocking fd fds)
  end.

(** The destructor. *)
Definition poll_destroy (l : Listener) (fds : Descriptors) : Descriptors :=
  delete (listen_fd_ l) fds.

End PollServer.
