(* ===== verification/AsioServer.v ===== *)
(** * The asio backend (src/asio_server.cpp)

    One thread runs the completion handlers of asynchronous reads, writes and
    accepts, the cron timer and the posted tasks, one at a time.  A session
    lives as long as an operation of its own is outstanding; its address is the
    link the rest of the program keeps. *)

From S2P Require Import Prelude Buffer Resp UnorderedMap Store Stats Commands Handler Replication Server.

(** [reading_] says that a read is outstanding.  [writing_] holds the bytes of
    the write that is in flight: what the range handed to [async_write] held at
    that time. *)
Record Session := mkSession {
  peer_ : bytes;
  in_ : Buffer;
  out_ : Buffer;
  pending_ : Buffer;
  reading_ : bool;
  writing_ : option bytes;
  closed_ : bool
}.

Definition set_input (b : Buffer) (reading : bool) (s : Session) : Session :=
  mkSession (peer_ s) b (out_ s) (pending_ s) reading (writing_ s) (closed_ s).
Definition set_output (out pending : Buffer) (writing : option bytes) (s : Session) : Session :=
  mkSession (peer_ s) (in_ s) out pending (reading_ s) writing (closed_ s).
Definition set_closed (s : Session) : Session :=
  mkSession (peer_ s) (in_ s) (out_ s) (pending_ s) (reading_ s) (writing_ s) true.

Definition append_pending (data : bytes) (s : Session) : Session :=
  set_output (out_ s) (buf_append (pending_ s) data) (writing_ s) s.

(** [flush]: start a write unless one is in flight. *)
Definition flush (s : Session) : Session :=
  match writing_ s with
  | Some _ => s
  | None =>
      let s :=
        if buf_is_empty (pending_ s) then s
        else set_output (buf_append (out_ s) (readable (pending_ s))) (buf_clear (pending_ s))
               None s in
      if buf_is_empty (out_ s) then s
      else set_output (out_ s) (pending_ s) (Some (readable (out_ s))) s
  end.

(** The write completed: [n] bytes leave the buffer, and the next one starts. *)
Definition written (s : Session) : Session :=
  flush (set_output (consume (out_ s) (length (default [] (writing_ s)))) (pending_ s) None s).

Definition over_limit (cfg : ServerConfig) (s : Session) : bool :=
  max_output_buffer cfg <? Z.of_nat (buf_size (out_ s) + buf_size (pending_ s)).

(** What holds of a session between handlers: the range of the write in flight
    still holds the bytes it was started with. *)
Definition session_wf (s : Session) : Prop :=
  buf_wf (in_ s) ∧ buf_wf (out_ s) ∧ buf_wf (pending_ s) ∧
  (∀ x, writing_ s = Some x → x = readable (out_ s)).

(** What the session still has to send. *)
Definition to_send (s : Session) : option bytes :=
  if closed_ s then None else Some (readable (out_ s) ++ readable (pending_ s)).

Section AsioServer.
Context `{UM : UnorderedMap}.
Abbreviation AsioServer := (Server Session).
Implicit Types (sv : AsioServer).

Definition put_session (l : Link) (s : Session) sv : AsioServer :=
  with_conns (<[l := s]> (conns_ sv)) sv.

(** [do_close]: the handler is told, and through it replication. *)
Definition do_close (l : Link) (s : Session) sv : AsioServer :=
  if closed_ s then put_session l s sv
  else
    with_io (on_disconnect (sv_stats sv)) (remove_replica (Some l) (sv_repl sv))
      (<[l := set_closed s]> (conns_ sv)) sv.

(** [Session::send]; a link to a session that is gone is a dangling pointer. *)
Definition asio_send (l : Link) (data : bytes) sv : outcome AsioServer :=
  match conns_ sv !! l with
  | None => Undefined
  | Some s =>
      if closed_ s then Ret sv
      else
        let s := append_pending data s in
        if over_limit (cfg_ sv) s then
          Ret (do_close l s (with_sv_stats (count_overflow (sv_stats sv)) sv))
        else Ret (put_session l (flush s) sv)
  end.

(** ** Lemmas on sessions *)

Lemma append_pending_wf d s : session_wf s → session_wf (append_pending d s).
Proof. intros (? & ? & ? & ?). split_and!; try done. by apply buf_append_wf. Qed.

Lemma append_pending_queued d s :
  session_wf s → to_send (append_pending d s) = (λ q, q ++ d) <$> to_send s.
Proof.
  intros (? & ? & ? & ?). unfold to_send, append_pending. cbn. destruct (closed_ s); [done|].
  cbn. by rewrite readable_append, app_assoc.
Qed.

Lemma flush_spec s :
  session_wf s → session_wf (flush s) ∧ to_send (flush s) = to_send s ∧ closed_ (flush s) = closed_ s.
Proof.
  intros (? & ? & ? & Hx). unfold flush. destruct (writing_ s) as [x|] eqn:Ew.
  { split; [|done]. split_and!; try done. intros y Hy. apply Hx. congruence. }
  destruct (buf_is_empty (pending_ s)).
  - destruct (buf_is_empty (out_ s)); (split; [split_and!; [done..|]|done]); cbn; congruence.
  - cbn [out_ set_output]. set (o := buf_append (out_ s) (readable (pending_ s))).
    assert (buf_wf o ∧ readable o = readable (out_ s) ++ readable (pending_ s)) as [Ho Hr]
      by (split; [by apply buf_append_wf|by apply readable_append]).
    destruct (buf_is_empty o); unfold session_wf, to_send; cbn [in_ out_ pending_ writing_ closed_ set_output];
      rewrite readable_clear, Hr, app_nil_r; split_and!; try done; try apply buf_clear_wf; congruence.
Qed.

Lemma do_close_spec l s sv :
  session_wf s → ∃ s', do_close l s sv =
      with_io (if closed_ s then sv_stats sv else on_disconnect (sv_stats sv))
        (if closed_ s then sv_repl sv else remove_replica (Some l) (sv_repl sv))
        (<[l := s']> (conns_ sv)) sv ∧ session_wf s' ∧ to_send s' = None.
Proof.
  intros H. unfold do_close. destruct (closed_ s) eqn:E.
  - exists s. split; [by destruct sv|]. split; [done|]. unfold to_send. by rewrite E.
  - by exists (set_closed s).
Qed.

#[global] Program Instance asio_backend : Backend Session := {
  conn_wf := session_wf;
  conn_queued := to_send;
  conn_peer := peer_;
  conn_reply := append_pending;
  conn_send := asio_send
}.
Next Obligation. intros. by apply append_pending_wf. Qed.
Next Obligation. intros. by apply append_pending_queued. Qed.
Next Obligation. intros l d sv H. unfold asio_send. by rewrite H. Qed.
Next Obligation.
  intros l d sv s Hs Hwf. unfold asio_send. rewrite Hs. destruct (closed_ s) eqn:Ec.
  { exists s, (sv_stats sv), (sv_repl sv). split; [|split; [done|]].
    - rewrite insert_id by done. by destruct sv.
    - unfold to_send. by rewrite Ec. }
  assert (to_send s = Some (readable (out_ s) ++ readable (pending_ s))) as Hq
    by (unfold to_send; by rewrite Ec).
  rewrite Hq. pose proof (append_pending_wf d s Hwf) as Hwf'. split_if.
  - destruct (do_close_spec l (append_pending d s)
      (with_sv_stats (count_overflow (sv_stats sv)) sv) Hwf') as (s' & E & Hs' & Hq').
    rewrite E. cbn [closed_ append_pending set_output]. rewrite Ec.
    eexists s', _, _. split; [by destruct sv|]. split; [done|]. by right.
  - destruct (flush_spec _ Hwf') as (Hf & Hqf & _).
    exists (flush (append_pending d s)), (sv_stats sv), (sv_repl sv). split; [by destruct sv|].
    split; [done|]. left. by rewrite Hqf, append_pending_queued, Hq.
Qed.
Next Obligation.
  intros l d sv sv'. unfold asio_send, put_session, do_close. destruct (conns_ sv !! l) as [s|]; [|done].
  repeat split_if; intros [= <-].
  - exists (sv_stats sv), (sv_repl sv), (conns_ sv). by destruct sv.
  - eexists _, _, _. by destruct sv.
  - eexists _, _, _. by destruct sv.
  - exists (sv_stats sv), (sv_repl sv), (<[l := flush (append_pending d s)]> (conns_ sv)). by destruct sv.
Qed.
Next Obligation.
  intros l d sv sv'. unfold asio_send, put_session, do_close. destruct (conns_ sv !! l) as [s|]; [|done].
  repeat split_if; intros [= <-]; cbn; (split; [eauto using rtc_l, rtc_refl with redis|auto]).
Qed.

(** ** Completion handlers *)

(** A handler returns: the session is destroyed when it has no operation
    outstanding. *)
Definition release (l : Link) sv : AsioServer :=
  match conns_ sv !! l with
  | Some s =>
      if reading_ s || bool_decide (is_Some (writing_ s)) then sv
      else with_conns (delete l (conns_ sv)) sv
  | None => sv
  end.

(** The constructor of [Session], from the remote endpoint if it can be had. *)
Definition new_session (remote : option (bytes * Z)) : Session :=
  let peer :=
    match remote with
    | None => bs "unknown"
    | Some (address, port) => endpoint_name address port
    end in
  mkSession peer buf_empty buf_empty buf_empty false None false.

(** [read] *)
Definition start_read (s : Session) : Session := set_input (in_ s) true s.

(** [start] *)
Definition start (l : Link) (s : Session) sv : AsioServer :=
  put_session l (start_read s) (with_sv_stats (on_connect (sv_stats sv)) sv).

(** A connection is accepted and started, or refused; [l] is not the address of
    a session that exists. *)
Definition accepted (l : Link) (remote : option (bytes * Z)) sv : AsioServer :=
  match conns_ sv !! l with
  | Some _ => sv
  | None => start l (new_session remote) sv
  end.

Definition rejected sv : AsioServer := with_sv_stats (count_rejected (sv_stats sv)) sv.

(** The handler of [async_read_some]: an error, or the bytes read. *)
Definition read_done (l : Link) (result : option bytes) sv : outcome AsioServer :=
  match conns_ sv !! l with
  | None => Ret sv
  | Some s =>
      if negb (reading_ s) then Ret sv
      else
        let s := set_input (in_ s) false s in
        match result with
        | None => Ret (release l (do_close l s sv))
        | Some data =>
            let data := take (read_chunk (cfg_ sv)) data in
            let input := buf_append (in_ s) data in
            let sv := with_sv_stats (count_read (length data) (sv_stats sv))
                        (put_session l (set_input input false s) sv) in
            '(handled, rest, sv) ← on_data (server_handler l) (Some l) input sv;
            match conns_ sv !! l with
            | None => Undefined
            | Some s =>
                let s := set_input rest false s in
                let sv := with_sv_stats (count_commands handled (sv_stats sv)) sv in
                if over_limit (cfg_ sv) s then
                  Ret (release l (do_close l s
                        (with_sv_stats (count_overflow (sv_stats sv)) sv)))
                else
                  Ret (put_session l (start_read (flush s)) sv)
            end
        end
  end.

(** The handler of [async_write]: whether it failed, and the number of bytes
    written. *)
Definition write_done (l : Link) (failed : bool) (n : nat) sv : AsioServer :=
  match conns_ sv !! l with
  | None => sv
  | Some s =>
      match writing_ s with
      | None => sv
      | Some _ =>
          let sv := with_sv_stats (count_written n (sv_stats sv)) sv in
          if failed then
            release l (do_close l (set_output (out_ s) (pending_ s) None s) sv)
          else release l (put_session l (written s) sv)
      end
  end.

(** The cron timer, and the first of the posted tasks. *)
Definition run_posted sv : outcome AsioServer :=
  match posted_ sv with
  | [] => Ret sv
  | t :: ts => run_task server_table t (with_loop ts (last_cron_ sv) sv)
  end.

(** ** The loop *)

Inductive asio_event :=
| OnAccept (l : Link) (remote : option (bytes * Z))
| OnReject
| OnRead (l : Link) (result : option bytes)
| OnWritten (l : Link) (failed : bool) (n : nat)
| OnCron
| OnTask.

Definition asio_step (e : asio_event) sv : outcome AsioServer :=
  match e with
  | OnAccept l remote => Ret (accepted l remote sv)
  | OnReject => Ret (rejected sv)
  | OnRead l result => read_done l result sv
  | OnWritten l failed n => Ret (write_done l failed n sv)
  | OnCron => server_cron sv
  | OnTask => run_posted sv
  end.

(** Handlers, one after the other. *)
Fixpoint asio_run (events : list asio_event) sv : outcome AsioServer :=
  match events with
  | [] => Ret sv
  | e :: events => sv ← asio_step e sv; asio_run events sv
  end.

(** The acceptor, the timer and the context around the sessions: whether the
    acceptor is open, whether an accept and a wait of the cron timer are
    outstanding, the tasks that [stop] has posted, and whether the context has
    been stopped. *)
Record AsioLoop := mkLoop {
  loop_server : AsioServer;
  acceptor_open : bool;
  accepting : bool;
  waiting : bool;
  stops_posted : nat;
  io_stopped : bool
}.

Implicit Types (lp : AsioLoop).

Definition with_server sv lp : AsioLoop :=
  mkLoop sv (acceptor_open lp) (accepting lp) (waiting lp) (stops_posted lp) (io_stopped lp).
Definition with_ops (accepting waiting : bool) lp : AsioLoop :=
  mkLoop (loop_server lp) (acceptor_open lp) accepting waiting (stops_posted lp) (io_stopped lp).

(** [accept] starts an accept, [schedule_cron] a wait; there is a cron task. *)
Definition accept lp : AsioLoop := with_ops true (waiting lp) lp.
Definition schedule_cron lp : AsioLoop := with_ops (accepting lp) true lp.

(** [run], up to [io_.run()]. *)
Definition run_loop sv : AsioLoop := schedule_cron (accept (mkLoop sv true false false 0 false)).

(** [stop], on any thread, posts a task.  The task closes the acceptor, which
    aborts its accept, cancels the timer, which aborts its wait, and stops the
    context. *)
Definition asio_stop lp : AsioLoop :=
  mkLoop (loop_server lp) (acceptor_open lp) (accepting lp) (waiting lp) (S (stops_posted lp))
    (io_stopped lp).

Definition close_acceptor lp : AsioLoop :=
  mkLoop (loop_server lp) false false (waiting lp) (stops_posted lp) (io_stopped lp).
Definition cancel_timer lp : AsioLoop := with_ops (accepting lp) false lp.
Definition stop_context lp : AsioLoop :=
  mkLoop (loop_server lp) (acceptor_open lp) (accepting lp) (waiting lp) (pred (stops_posted lp)) true.

Definition run_stop lp : AsioLoop := stop_context (cancel_timer (close_acceptor lp)).

(** What the context does next: a handler of the sessions, the acceptor or the
    timer, or a posted task; a task of [stop].  [CallStop] is [stop] called from
    anywhere, and [OtherThread] is what another thread does meanwhile.  The
    handlers of operations that [stop] has aborted are queued behind its task,
    and a stopped context runs no further handler, as [io_context::stop] is
    documented: so no handler is ever run with [operation_aborted]. *)
Inductive loop_event :=
| Handle (e : asio_event)
| HandleStop
| CallStop
| OtherThread (t : thread_step).

Definition loop_step (e : loop_event) lp : outcome AsioLoop :=
  match e with
  | CallStop => Ret (asio_stop lp)
  | OtherThread t => Ret (with_server (thread_effect t (loop_server lp)) lp)
  | HandleStop =>
      Ret (if io_stopped lp || Nat.eqb (stops_posted lp) 0 then lp else run_stop lp)
  | Handle e =>
      if io_stopped lp then Ret lp
      else
        match e with
        | OnAccept _ _ | OnReject =>
            if negb (accepting lp) then Ret lp
            else
              sv ← asio_step e (loop_server lp);
              let lp := with_server sv (with_ops false (waiting lp) lp) in
              Ret (if acceptor_open lp then accept lp else lp)
        | OnCron =>
            if negb (waiting lp) then Ret lp
            else
              sv ← asio_step e (loop_server lp);
              Ret (schedule_cron (with_server sv (with_ops (accepting lp) false lp)))
        | _ => sv ← asio_step e (loop_server lp); Ret (with_server sv lp)
        end
  end.

(** [io_.run()]: the events in their order; it has returned when the context is
    stopped. *)
Fixpoint io_run (events : list loop_event) lp : outcome AsioLoop :=
  match events with
  | [] => Ret lp
  | e :: events => lp ← loop_step e lp; io_run events lp
  end.

(** ** Opening *)

(** What the library says while the constructor opens the acceptor: whether the
    text is an address, the error of opening, binding and listening, if any,
    and the port. *)
Record acceptor_calls := mkAcceptorCalls {
  make_address : bytes → option bytes;
  acceptor_error : option bytes;
  local_port : Z
}.

(** The constructor: the text of an exception, or the port that [port] returns. *)
Definition asio_open (lib : acceptor_calls) (cfg : ServerConfig) : bytes + Z :=
  match make_address lib (bind_address cfg) with
  | Some error => inl error
  | None =>
      match acceptor_error lib with
      | Some error => inl error
      | None => inr (local_port lib)
      end
  end.

End AsioServer.
