(* ===== verification/Steps.v ===== *)
(** * The server as a sequence of atomic steps

    What the rest of the program can rely on, whatever the event loop: the
    state changes by whole requests, posted tasks, cron tasks, steps of the
    other threads, and input and output that touch neither the store nor the
    files.  Both loops are refinements of this: each of their runs is a trace
    of such steps. *)

From S2P Require Import Prelude Buffer Resp UnorderedMap Store Stats Commands Encode Requests Handler.
From S2P Require Import Persistence Replication Server PollServer AsioServer.

(** ** Steps *)

Inductive label :=
| LRequest (l : Link) (args : Args)
| LTask (t : Task)
| LCron
| LThread (t : thread_step)
| LIo.

Section Steps.
Context `{UM : UnorderedMap} {C : Type} {B : Backend C}.
Implicit Types (sv : Server C).

(** A request is one the parser has let through.  Input and output: bytes move
    in and out of buffers and connections come and go, which is counted; a
    connection that is gone is no replica any more; and tasks are taken from the
    queue. *)
Inductive step : label → Server C → Server C → Prop :=
| step_request l args sv sv' :
    encodable args → execute (server_handler l) (Some l) args sv = Ret sv' → step (LRequest l args) sv sv'
| step_task t sv sv' : run_task server_table t sv = Ret sv' → step (LTask t) sv sv'
| step_cron sv sv' : server_cron sv = Ret sv' → step LCron sv sv'
| step_thread t sv : step (LThread t) sv (thread_effect t sv)
| step_conns cs sv : step LIo sv (with_conns cs sv)
| step_counted st sv : counted (sv_stats sv) st → step LIo sv (with_sv_stats st sv)
| step_gone l sv : step LIo sv (with_sv_repl (remove_replica (Some l) (sv_repl sv)) sv)
| step_queue posted now sv : posted ⊆ posted_ sv → step LIo sv (with_loop posted now sv).

(** One step of a trace, with the states around it. *)
Record entry := mkEntry { before : Server C; did : label; after : Server C }.

Inductive trace : Server C → list entry → Server C → Prop :=
| trace_nil sv : trace sv [] sv
| trace_cons lab sv sv1 tr sv' :
    step lab sv sv1 → trace sv1 tr sv' → trace sv (mkEntry sv lab sv1 :: tr) sv'.

Lemma trace_app sv tr1 sv1 tr2 sv2 :
  trace sv tr1 sv1 → trace sv1 tr2 sv2 → trace sv (tr1 ++ tr2) sv2.
Proof. induction 1; [done|]. intros. cbn. econstructor; eauto. Qed.

(** ** Reaching a state *)

(** From [sv] to [sv'] by some steps. *)
Definition reaches sv sv' : Prop := ∃ tr, trace sv tr sv'.

#[global] Instance reaches_preorder : PreOrder reaches.
Proof.
  split; [intros sv; exists []; constructor|].
  intros x y z [tr1 H1] [tr2 H2]. exists (tr1 ++ tr2). by eapply trace_app.
Qed.

Lemma step_reaches lab sv sv' : step lab sv sv' → reaches sv sv'.
Proof. intros H. exists [mkEntry sv lab sv']. eapply trace_cons; [exact H|constructor]. Qed.

Lemma reaches_conns cs sv : reaches sv (with_conns cs sv).
Proof. eapply step_reaches, step_conns. Qed.

Lemma reaches_counted st sv : counted (sv_stats sv) st → reaches sv (with_sv_stats st sv).
Proof. intros. by eapply step_reaches, step_counted. Qed.

Lemma reaches_gone l sv : reaches sv (with_sv_repl (remove_replica (Some l) (sv_repl sv)) sv).
Proof. eapply step_reaches, step_gone. Qed.

Lemma reaches_queue posted now sv : posted ⊆ posted_ sv → reaches sv (with_loop posted now sv).
Proof. intros. by eapply step_reaches, step_queue. Qed.

Lemma reaches_cron sv sv' : server_cron sv = Ret sv' → reaches sv sv'.
Proof. intros. by eapply step_reaches, step_cron. Qed.

Lemma thread_effects_reach ts sv : reaches sv (thread_effects ts sv).
Proof.
  unfold thread_effects. revert sv. induction ts as [|t ts IH]; intros sv; [done|]. cbn [foldl].
  etrans; [|apply IH]. by eapply step_reaches, step_thread.
Qed.

Lemma run_tasks_reach ts sv sv' : run_tasks server_table ts sv = Ret sv' → reaches sv sv'.
Proof.
  revert sv. induction ts as [|t ts IH]; intros sv H; cbn [run_tasks] in H; [by injection H as <-|].
  apply bind_Ret in H as (sv1 & H1 & H). etrans; [|by apply IH]. by eapply step_reaches, step_task.
Qed.

Lemma on_data_reaches l input sv n rest sv' :
  on_data (server_handler l) (Some l) input sv = Ret (n, rest, sv') → reaches sv sv'.
Proof.
  unfold on_data. generalize (drain_fuel input) 0%nat. intros fuel. revert input sv.
  induction fuel as [|fuel IH]; intros input sv k H; [done|]. cbn [on_data_loop] in H.
  destruct (status _) eqn:Es.
  - destruct (args (parse_request (readable input))) eqn:Ea; [by eapply IH|].
    apply bind_Ret in H as (sv1 & H1 & H). etrans; [|by eapply IH].
    eapply step_reaches, step_request; [|exact H1].
    rewrite <- Ea. apply parse_request_encodable; [done|]. by rewrite Ea.
  - by injection H as <- <- <-.
  - injection H as <- <- <-. apply reaches_conns.
Qed.

(** ** What an event loop promises *)

(** A loop is run against what happens around it; the result says whether it has
    returned.  All it does is a trace. *)
Class EventLoop := {
  loop_env : Type;
  loop_run : loop_env → Server C → outcome (bool * Server C);
  loop_run_reaches env sv b sv' : loop_run env sv = Ret (b, sv') → reaches sv sv'
}.

End Steps.

Arguments entry {_} C.
Arguments EventLoop {_} C {_}.

#[export] Hint Resolve reaches_conns reaches_gone : redis.

(** ** The poll loop *)

Section Poll.
Context `{UM : UnorderedMap}.
Implicit Types (sv : Server Conn) (fd : Link).

Lemma accept_ready_reaches accepts sv : reaches sv (accept_ready accepts sv).
Proof.
  revert sv. induction accepts as [|[fd address port| | |] accepts IH]; intros sv; cbn [accept_ready]; try done.
  - etrans; [|apply IH]. etrans; [|apply reaches_counted; constructor].
    destruct (conns_ sv !! fd); [done|apply reaches_conns].
  - apply reaches_counted. constructor.
Qed.

Lemma handle_write_reaches fd sends sv : reaches sv (handle_write fd sends sv).2.
Proof.
  revert sv. induction sends as [|s sends IH]; intros sv; cbn [handle_write];
    (destruct (conns_ sv !! fd) as [c|]; [|done]); (destruct (buf_is_empty _); [done|]); [done|].
  destruct s as [n| | |]; try done. destruct (Nat.eqb _ 0); [done|].
  etrans; [|apply IH]. etrans; [apply reaches_conns|]. apply reaches_counted. constructor.
Qed.

Lemma recv_loop_reaches chunk recvs input st go input' st' sv :
  recv_loop chunk recvs input st = (go, input', st') → sv_stats sv = st → reaches sv (with_sv_stats st' sv).
Proof.
  revert input st sv. induction recvs as [|r recvs IH]; intros input st sv H Hst; cbn [recv_loop] in H.
  - injection H as <- <- <-. subst st. by destruct sv.
  - assert (reaches sv (with_sv_stats st sv)) as Hid by (subst st; by destruct sv).
    destruct r as [data| | |]; [|by injection H as <- <- <-|by eapply IH|by injection H as <- <- <-].
    destruct (Nat.eqb _ 0); [by injection H as <- <- <-|].
    assert (reaches sv (with_sv_stats (count_read (length (take chunk data)) st) sv)) as Hr
      by (apply reaches_counted; subst st; constructor).
    destruct (Nat.ltb _ _); [by injection H as <- <- <-|].
    apply (IH _ _ (with_sv_stats (count_read (length (take chunk data)) st) sv)) in H; [|done].
    etrans; [exact Hr|exact H].
Qed.

Lemma handle_read_reaches fd recvs sends sv b sv' :
  handle_read fd recvs sends sv = Ret (b, sv') → reaches sv sv'.
Proof.
  unfold handle_read. destruct (conns_ sv !! fd) as [c|]; [|by intros [= <- <-]].
  destruct (recv_loop _ recvs _ _) as [[go input] st] eqn:Er.
  eapply (recv_loop_reaches _ _ _ _ _ _ _ (with_conns (<[fd := set_in input c]> (conns_ sv)) sv)) in Er; [|done].
  set (sv1 := with_sv_stats st _) in *. intros H. etrans; [apply reaches_conns|]. etrans; [exact Er|].
  destruct (negb go); [by injection H as <- <-|].
  apply bind_Ret in H as ([[n rest] sv2] & H2%on_data_reaches & H). etrans; [exact H2|].
  destruct (conns_ sv2 !! fd) as [c2|]; [|done].
  etrans; [apply (reaches_conns (<[fd := set_in rest c2]> (conns_ sv2)))|].
  etrans; [apply (reaches_counted (count_commands n (sv_stats sv2))); constructor|].
  destruct (_ <? _).
  - injection H as <- <-. apply reaches_counted. constructor.
  - injection H as H. pose proof (handle_write_reaches fd sends
      (with_sv_stats (count_commands n (sv_stats sv2)) (with_conns (<[fd := set_in rest c2]> (conns_ sv2)) sv2))) as Hw.
    rewrite H in Hw. exact Hw.
Qed.

Lemma drop_conn_reaches fd sv sv' : drop_conn fd sv = Ret sv' → reaches sv sv'.
Proof.
  unfold drop_conn. destruct (conns_ sv !! fd); [|by intros [= <-]]. cbn. intros [= <-].
  etrans; [apply (reaches_gone fd)|]. etrans; [apply reaches_conns|]. apply reaches_counted. constructor.
Qed.

Lemma drop_all_reaches dead sv sv' : drop_all dead sv = Ret sv' → reaches sv sv'.
Proof.
  revert sv. induction dead as [|fd dead IH]; intros sv H; cbn [drop_all] in H; [by injection H as <-|].
  apply bind_Ret in H as (sv1 & H1%drop_conn_reaches & H). etrans; [exact H1|by apply IH].
Qed.

Lemma sweep_reaches events dead sv dead' sv' :
  sweep events dead sv = Ret (dead', sv') → reaches sv sv'.
Proof.
  revert dead sv. induction events as [|e events IH]; intros dead sv H; cbn [sweep] in H.
  { by injection H as <- <-. }
  apply bind_Ret in H as ([dead1 sv1] & H1 & H). etrans; [|by eapply IH]. clear IH H.
  destruct e as [accepts|fd hangup rd wr]; cbn [handle_event] in H1.
  - injection H1 as <- <-. apply accept_ready_reaches.
  - destruct hangup; [by injection H1 as <- <-|]. apply bind_Ret in H1 as ([alive sv2] & H2 & H1).
    assert (reaches sv sv2) as Hr.
    { destruct rd as [[recvs sends]|]; [by eapply handle_read_reaches|by injection H2 as <- <-]. }
    etrans; [exact Hr|]. destruct (negb alive); [by injection H1 as <- <-|].
    destruct wr as [sends|]; [|by injection H1 as <- <-].
    pose proof (handle_write_reaches fd sends sv2) as Hw. destruct (handle_write fd sends sv2) as [alive' sv3].
    by injection H1 as <- <-.
Qed.

Lemma poll_round_reaches poll now sv b sv' : poll_round poll now sv = Ret (b, sv') → reaches sv sv'.
Proof.
  unfold poll_round, drain_posted, run_cron_if_due. intros (sv1 & H1 & H)%bind_Ret.
  apply run_tasks_reach in H1.
  etrans; [apply (reaches_queue [] (last_cron_ sv)), list_subseteq_nil|]. etrans; [exact H1|].
  apply bind_Ret in H as (sv2 & H2 & H).
  assert (reaches sv1 sv2) as Hr.
  { destruct (_ <? _); [by injection H2 as <-|].
    etrans; [by apply (reaches_queue (posted_ sv1) now)|]. by apply reaches_cron. }
  etrans; [exact Hr|]. destruct (poll _ _) as [events| |].
  - apply bind_Ret in H as ([dead sv3] & H3%sweep_reaches & H). etrans; [exact H3|].
    apply bind_Ret in H as (sv4 & H4%drop_all_reaches & [= <- <-]). exact H4.
  - by injection H as <- <-.
  - by injection H as <- <-.
Qed.

Lemma run_reaches turns stopping sv b sv' : run turns stopping sv = Ret (b, sv') → reaches sv sv'.
Proof.
  revert stopping sv. induction turns as [|t turns IH]; intros stopping sv H; cbn [run] in H.
  { by injection H as <- <-. }
  destruct (if stop_called t then _ else _); [by injection H as <- <-|].
  apply bind_Ret in H as ([go sv1] & H1%poll_round_reaches & H).
  etrans; [by apply (thread_effects_reach (turn_threads t))|]. etrans; [exact H1|].
  destruct go; [by eapply IH|by injection H as <- <-].
Qed.

End Poll.

#[global] Instance poll_loop `{UM : UnorderedMap} : EventLoop Conn := {
  loop_env := list loop_turn;
  loop_run turns sv := run turns false sv;
  loop_run_reaches turns sv b sv' := run_reaches turns false sv b sv'
}.

(** ** The asio loop *)

Section AsioSteps.
Context `{UM : UnorderedMap}.
Implicit Types (sv : Server Session) (l : Link) (lp : AsioLoop).

Lemma release_reaches l sv : reaches sv (release l sv).
Proof. unfold release. repeat case_match; try done; apply reaches_conns. Qed.

Lemma do_close_reaches l s sv : reaches sv (do_close l s sv).
Proof.
  unfold do_close. destruct (closed_ s); [apply reaches_conns|].
  etrans; [apply (reaches_conns (<[l := set_closed s]> (conns_ sv)))|]. etrans; [apply (reaches_gone l)|].
  apply (reaches_counted (on_disconnect (sv_stats sv))). constructor.
Qed.

Lemma read_done_reaches l result sv sv' : read_done l result sv = Ret sv' → reaches sv sv'.
Proof.
  unfold read_done. destruct (conns_ sv !! l) as [s|]; [|by intros [= <-]].
  destruct (negb (reading_ s)); [by intros [= <-]|]. destruct result as [data|].
  2: { intros [= <-]. etrans; [apply do_close_reaches|apply release_reaches]. }
  intros ([[n rest] sv1] & H1%on_data_reaches & H)%bind_Ret. etrans; [|etrans; [exact H1|]].
  { etrans; [apply reaches_conns|]. apply reaches_counted. constructor. }
  destruct (conns_ sv1 !! l) as [s1|]; [|done].
  etrans; [apply (reaches_counted (count_commands n (sv_stats sv1))); constructor|].
  destruct (over_limit _ _); injection H as <-; [|apply reaches_conns].
  etrans; [|apply release_reaches]. etrans; [|apply do_close_reaches]. apply reaches_counted. constructor.
Qed.

Lemma write_done_reaches l failed n sv : reaches sv (write_done l failed n sv).
Proof.
  unfold write_done. destruct (conns_ sv !! l) as [s|]; [|done]. destruct (writing_ s); [|done].
  etrans; [apply (reaches_counted (count_written n (sv_stats sv))); constructor|].
  destruct failed; (etrans; [|apply release_reaches]); [apply do_close_reaches|apply reaches_conns].
Qed.

Lemma asio_step_reaches e sv sv' : asio_step e sv = Ret sv' → reaches sv sv'.
Proof.
  destruct e as [l remote| |l result|l failed n| |]; cbn [asio_step].
  - intros [= <-]. unfold accepted, start. destruct (conns_ sv !! l); [done|].
    etrans; [apply (reaches_counted (on_connect (sv_stats sv))); constructor|apply reaches_conns].
  - intros [= <-]. apply reaches_counted. constructor.
  - apply read_done_reaches.
  - intros [= <-]. apply write_done_reaches.
  - apply reaches_cron.
  - unfold run_posted. destruct (posted_ sv) as [|t ts] eqn:E; [by intros [= <-]|]. intros H.
    etrans; [apply (reaches_queue ts (last_cron_ sv)); rewrite E; set_solver|].
    by eapply step_reaches, step_task.
Qed.

Lemma loop_step_reaches e lp lp' : loop_step e lp = Ret lp' → reaches (loop_server lp) (loop_server lp').
Proof.
  destruct e as [e| | |t]; cbn [loop_step].
  - destruct (io_stopped lp); [by intros [= <-]|].
    destruct e; try (destruct (negb _); [by intros [= <-]|]);
      intros (sv & Hs%asio_step_reaches & [= <-])%bind_Ret; cbn; try done; by destruct (acceptor_open lp).
  - intros [= <-]. by destruct (_ || _).
  - by intros [= <-].
  - intros [= <-]. by eapply step_reaches, step_thread.
Qed.

Lemma io_run_reaches events lp lp' : io_run events lp = Ret lp' → reaches (loop_server lp) (loop_server lp').
Proof.
  revert lp. induction events as [|e events IH]; intros lp H; cbn [io_run] in H; [by injection H as <-|].
  apply bind_Ret in H as (lp1 & H1%loop_step_reaches & H). etrans; [exact H1|by apply IH].
Qed.

End AsioSteps.

Section Asio.
Context `{UM : UnorderedMap}.
Implicit Types (sv : Server Session) (l : Link) (lp : AsioLoop).

Definition asio_loop_run (events : list loop_event) sv : outcome (bool * Server Session) :=
  lp ← io_run events (run_loop sv); Ret (io_stopped lp, loop_server lp).

Lemma asio_loop_run_reaches events sv b sv' : asio_loop_run events sv = Ret (b, sv') → reaches sv sv'.
Proof. intros (lp & H & [= <- <-])%bind_Ret. by apply io_run_reaches in H. Qed.

#[global] Instance asio_loop : EventLoop Session := {
  loop_env := list loop_event;
  loop_run := asio_loop_run;
  loop_run_reaches := asio_loop_run_reaches
}.

(** ** The asio loop never goes idle *)

(** Until the context is stopped an accept and the cron's wait are outstanding;
    then neither is. *)
Definition loop_armed lp : Prop :=
  acceptor_open lp = negb (io_stopped lp) ∧ accepting lp = negb (io_stopped lp) ∧ waiting lp = negb (io_stopped lp).

Lemma loop_step_armed e lp lp' : loop_step e lp = Ret lp' → loop_armed lp → loop_armed lp'.
Proof.
  unfold loop_armed. destruct e as [e| | |t]; cbn [loop_step].
  - destruct (io_stopped lp) eqn:Es; [intros [= <-]; by rewrite Es|]. cbn [negb].
    intros H (Ho & Ha & Hw). rewrite Ha, Hw in H. cbn [negb] in H.
    destruct e; apply bind_Ret in H as (sv & _ & [= <-]); cbn; rewrite ?Ho; cbn; by rewrite ?Es, ?Ha, ?Hw.
  - intros [= <-]. by destruct (_ || _).
  - by intros [= <-].
  - by intros [= <-].
Qed.

Lemma io_run_armed events lp lp' : io_run events lp = Ret lp' → loop_armed lp → loop_armed lp'.
Proof.
  revert lp. induction events as [|e events IH]; intros lp H Hl; cbn [io_run] in H; [by injection H as <-|].
  apply bind_Ret in H as (lp1 & H1 & H). apply (IH _ H). by eapply loop_step_armed.
Qed.

(** Only [stop] ends it. *)
Lemma io_run_goes_on events sv lp : io_run events (run_loop sv) = Ret lp → CallStop ∉ events → io_stopped lp = false.
Proof.
  intros H Hn. assert (stops_posted (run_loop sv) = 0%nat ∧ io_stopped (run_loop sv) = false) as Hl by done.
  revert H Hl. generalize (run_loop sv). induction events as [|e events IH]; intros lp1 H [Hz Hs]; cbn [io_run] in H.
  { by injection H as <-. }
  apply not_elem_of_cons in Hn as [He Hn]. apply bind_Ret in H as (lp2 & H2 & H). apply (IH Hn _ H). clear H.
  destruct e as [e| | |t]; cbn [loop_step] in H2; rewrite ?Hs, ?Hz in H2; try (by injection H2 as <-).
  repeat case_match; try (by injection H2 as <-); apply bind_Ret in H2 as (sv1 & _ & [= <-]); by repeat case_match.
Qed.

End Asio.
