(* ===== verification/MasterStream.v ===== *)
(** * What a master sends to a replica

    Proved against the promises of [Backend], so for both event loops: the
    bytes queued for a connection that has shaken hands are the replies, the
    snapshot, and then every command the server propagates, once and in order.
    With the theorems on the replica's side this gives convergence of a whole
    cluster. *)

From S2P Require Import Prelude Buffer Resp UnorderedMap Store Keyspace StoreScan Stats Commands CommandSpec.
From S2P Require Import Dispatch Handler Encode Files Aof AofTheorems Recovery Rdb RdbTheorems RdbFile.
From S2P Require Import Persistence PersistenceTheorems Replication ReplicaLink ReplicaLinkTheorems.
From S2P Require Import ReplicationTheorems Server PollServer.

Section MasterStream.
Context `{UM : UnorderedMap} {C : Type} {B : Backend C}.
Implicit Types (sv : Server C) (l : Link).

Lemma server_table_laws : TableLaws (server_table (C:=C)).
Proof.
  split; intros ops [= <-]; [apply persistence_ops_laws|apply replication_ops_laws].
Qed.

(** ** Writing to connections *)

Definition conns_ok sv : Prop := map_Forall (λ _, conn_wf) (conns_ sv).

Lemma conns_ok_same sv sv' : conns_ sv' = conns_ sv → conns_ok sv → conns_ok sv'.
Proof. unfold conns_ok. by intros ->. Qed.

(** What is queued for a connection that is open. *)
Definition out_of l sv : option bytes := conns_ sv !! l ≫= conn_queued.

(** How often a connection is registered as a replica. *)
Definition registered l (r : Replication) : nat :=
  length (filter (λ x, x = l) (link <$> replicas_ r)).

(** One [send]: the bytes are queued, or the connection is not open after it. *)
Lemma conn_send_out l d sv sv' :
  conns_ok sv → conn_send l d sv = Ret sv' →
  conns_ok sv' ∧ (∀ l', l' ≠ l → conns_ sv' !! l' = conns_ sv !! l') ∧
  store_of sv' = store_of sv ∧ sv_persist sv' = sv_persist sv ∧
  ((out_of l sv' = (λ q, q ++ d) <$> out_of l sv ∧ sv_repl sv' = sv_repl sv) ∨
   (out_of l sv' = None ∧ sv_repl sv' = remove_replica (Some l) (sv_repl sv))).
Proof.
  intros Hok H. destruct (conns_ sv !! l) as [c|] eqn:El.
  2: { rewrite conn_send_dangling in H by done. done. }
  destruct (conn_send_spec l d sv c El (Hok l c El)) as (c' & st & r & E & Hc' & Hq).
  rewrite H in E. injection E as ->. cbn. split_and!.
  - by apply map_Forall_insert_2.
  - intros l' Hl'. by rewrite lookup_insert_ne.
  - done.
  - done.
  - unfold out_of. cbn. rewrite lookup_insert_eq, El. cbn. destruct (conn_queued c) as [q|].
    + destruct Hq as [[-> ->]|[-> ->]]; [by left|by right].
    + destruct Hq as [-> ->]. by left.
Qed.

Lemma remove_replica_links l r :
  l ∈ link <$> replicas_ r → link <$> replicas_ (remove_replica (Some l) r) ≠ link <$> replicas_ r.
Proof.
  intros (rep & -> & Hin)%list_elem_of_fmap H. cbn in H.
  assert (link rep ∈ link <$> filter (λ rep', Some (link rep') ≠ Some (link rep)) (replicas_ r)) as Hin'.
  { rewrite H. by apply list_elem_of_fmap_2. }
  apply list_elem_of_fmap in Hin' as (rep' & E & [Hne _]%list_elem_of_filter). congruence.
Qed.

Lemma filter_eq_cons l x xs :
  filter (λ y, y = l) (x :: xs) = (if decide (x = l) then [x] else []) ++ filter (λ y, y = l) xs.
Proof. rewrite filter_cons. by case_decide. Qed.

(** The loop of [propagate], when it completes. *)
Lemma send_to_all_out all todo enc sv sv' :
  send_to_all all todo enc sv = Ret sv' → conns_ok sv →
  link <$> replicas_ (sv_repl sv) = link <$> all → (∀ rep, rep ∈ todo → rep ∈ all) →
  conns_ok sv' ∧ store_of sv' = store_of sv ∧ sv_persist sv' = sv_persist sv ∧
  sv_repl sv' = sv_repl sv ∧
  ∀ l, out_of l sv' =
    (λ q, q ++ mjoin (replicate (length (filter (λ x, x = l) (link <$> todo))) enc)) <$> out_of l sv.
Proof.
  revert sv. induction todo as [|rep todo IH]; intros sv H Hok Hall Hin; cbn [send_to_all] in H.
  { injection H as <-. split_and!; try done. intros l. cbn.
    destruct (out_of l sv); [|done]. cbn. by rewrite app_nil_r. }
  apply bind_Ret in H as (sv1 & H1 & H). cbn [link_send server_repl] in H1.
  destruct (conn_send_out _ _ _ _ Hok H1) as (Hok1 & Hne & Hs1 & Hp1 & Hcase).
  cbn [repl_of server_repl] in H. case_bool_decide as Hl; [|done].
  destruct Hcase as [[Hq1 Hr1]|[_ Hr1]].
  2: { exfalso. revert Hl. rewrite Hr1, <- Hall. apply remove_replica_links. rewrite Hall.
       apply list_elem_of_fmap_2, Hin. by left. }
  destruct (IH sv1 H Hok1) as (Hok' & Hs' & Hp' & Hr' & Hout); [by rewrite Hr1| |].
  { intros rep' Hrep'. apply Hin. by right. }
  split_and!; [done|congruence..|]. intros l. rewrite Hout. cbn [fmap list_fmap].
  change (list_fmap Replica Link link todo) with (link <$> todo).
  rewrite filter_eq_cons, length_app. destruct (decide (link rep = l)) as [<-|Hl'].
  - rewrite Hq1. cbn. destruct (out_of (link rep) sv); [|done]. cbn. by rewrite <- app_assoc.
  - unfold out_of. by rewrite Hne by congruence.
Qed.

Lemma propagate_out args sv sv' :
  repl_propagate args sv = Ret sv' → conns_ok sv →
  conns_ok sv' ∧ store_of sv' = store_of sv ∧
  master_offset_ (sv_repl sv') = master_offset_ (sv_repl sv) + size (encode args) ∧
  master_offset_ (sv_repl sv') ≤ int64_max ∧
  replicas_ (sv_repl sv') = replicas_ (sv_repl sv) ∧ replid_ (sv_repl sv') = replid_ (sv_repl sv) ∧
  ∀ l, out_of l sv' =
    (λ q, q ++ mjoin (replicate (registered l (sv_repl sv)) (encode args))) <$> out_of l sv.
Proof.
  unfold repl_propagate. intros (offset & Ho & H)%bind_Ret Hok. cbn [repl_of server_repl] in *.
  unfold add64, checked64 in Ho. destruct (in_int64 _) eqn:Eo; [|done]. injection Ho as <-.
  apply in_int64_spec in Eo.
  apply send_to_all_out in H as (Hok' & Hs & _ & Hr & Hout); [|done..].
  cbn in Hr. rewrite Hr. split_and!; try done. apply Eo.
Qed.

(** ** Requests of others *)

(** A step that leaves the stream to [l] alone. *)
Definition undisturbed l sv sv' : Prop :=
  (conns_ok sv → conns_ok sv') ∧ out_of l sv' = out_of l sv ∧
  registered l (sv_repl sv') = registered l (sv_repl sv) ∧
  master_offset_ (sv_repl sv') = master_offset_ (sv_repl sv) ∧
  replid_ (sv_repl sv') = replid_ (sv_repl sv).

Lemma undisturbed_refl l sv : undisturbed l sv sv.
Proof. by split_and!. Qed.

Lemma undisturbed_trans l sv1 sv2 sv3 :
  undisturbed l sv1 sv2 → undisturbed l sv2 sv3 → undisturbed l sv1 sv3.
Proof. intros (? & ? & ? & ? & ?) (? & ? & ? & ? & ?). split_and!; [auto|congruence..]. Qed.

(** Only the connections and the master's part of replication matter. *)
Lemma undisturbed_same l sv sv' :
  conns_ sv' = conns_ sv → link <$> replicas_ (sv_repl sv') = link <$> replicas_ (sv_repl sv) →
  master_offset_ (sv_repl sv') = master_offset_ (sv_repl sv) →
  replid_ (sv_repl sv') = replid_ (sv_repl sv) → undisturbed l sv sv'.
Proof.
  intros Hc Hl Ho Hi. unfold undisturbed, conns_ok, out_of, registered. by rewrite Hc, Hl.
Qed.

Lemma link_effects_master es sv :
  conns_ (link_effects es sv) = conns_ sv ∧
  replicas_ (sv_repl (link_effects es sv)) = replicas_ (sv_repl sv) ∧
  master_offset_ (sv_repl (link_effects es sv)) = master_offset_ (sv_repl sv) ∧
  replid_ (sv_repl (link_effects es sv)) = replid_ (sv_repl sv).
Proof.
  unfold link_effects. revert sv. induction es as [|e es IH]; intros sv; [done|]. cbn.
  destruct (IH (link_effect_step e sv)) as (-> & -> & -> & ->). by destruct e.
Qed.

Lemma stop_replication_undisturbed l sv sv' :
  repl_stop_replication sv = Ret sv' → undisturbed l sv sv'.
Proof.
  unfold repl_stop_replication.
  match goal with |- context [link_thread_ (repl_of ?x)] => set (sv0 := x) end. intros [= <-].
  destruct (link_thread_ _).
  - destruct (link_effects_master (late_ (repl_of sv0) (links_ (repl_of sv0))) sv0) as (Hc & Hr & Ho & Hi).
    apply undisturbed_same; [exact Hc|exact (f_equal (fmap link) Hr)|exact Ho|exact Hi].
  - by apply undisturbed_same.
Qed.

Lemma update_replicas_links lnk f reps : link <$> update_replicas lnk f reps = link <$> reps.
Proof.
  unfold update_replicas. rewrite <- list_fmap_compose. apply list_fmap_ext.
  intros _ rep _. cbn. by destruct (bool_decide _).
Qed.

Lemma ack_replicas_links lnk n todo done_ sv :
  link <$> (ack_replicas lnk n todo done_ sv).1 = link <$> (done_ ++ todo) ∧
  conns_ (ack_replicas lnk n todo done_ sv).2 = conns_ sv ∧
  sv_repl (ack_replicas lnk n todo done_ sv).2 = sv_repl sv.
Proof.
  revert done_ sv. induction todo as [|rep todo IH]; intros done_ sv; cbn [ack_replicas].
  { by rewrite app_nil_r. }
  split_if.
  - cbn [wall_clock server_repl now_ms]. edestruct IH as (-> & -> & ->).
    rewrite <- app_assoc, !fmap_app. done.
  - edestruct IH as (-> & -> & ->). by rewrite <- app_assoc.
Qed.

Lemma on_replica_ack_undisturbed l lnk n sv sv' :
  repl_on_replica_ack lnk n sv = Ret sv' → undisturbed l sv sv'.
Proof.
  unfold repl_on_replica_ack.
  destruct (ack_replicas_links lnk n (replicas_ (repl_of sv)) [] sv) as (Hl & Hc & Hr).
  destruct (ack_replicas _ _ _ _ _) as [reps sv1]. cbn in *. intros [= <-].
  apply undisturbed_same; cbn; rewrite ?Hc, ?Hr; done.
Qed.

Lemma registered_remove l l' r :
  l' ≠ l → registered l (remove_replica (Some l') r) = registered l r.
Proof.
  intros Hne. unfold registered. cbn. f_equal. induction (replicas_ r) as [|rep reps IH]; [done|].
  rewrite filter_cons. case_decide as Hd; cbn [fmap list_fmap].
  - change (list_fmap Replica Link link ?x) with (link <$> x). rewrite !filter_eq_cons. by f_equal.
  - change (list_fmap Replica Link link ?x) with (link <$> x). rewrite filter_eq_cons, IH.
    injection Hd as ->. by rewrite decide_False.
Qed.

Lemma conn_send_undisturbed l l' d sv sv' :
  l' ≠ l → conns_ok sv → conn_send l' d sv = Ret sv' → conns_ok sv' ∧ undisturbed l sv sv'.
Proof.
  intros Hne Hok H. destruct (conn_send_out _ _ _ _ Hok H) as (Hok' & Hoth & _ & _ & Hcase).
  split; [done|]. unfold undisturbed, out_of. rewrite Hoth by congruence.
  destruct Hcase as [[_ ->]|[_ ->]]; [by split_and!|]. by rewrite registered_remove.
Qed.

Lemma registered_add l rep r :
  registered l (add_replica rep r) = (registered l r + if decide (link rep = l) then 1 else 0)%nat.
Proof.
  unfold registered. cbn. rewrite fmap_app, filter_app, length_app.
  change (link <$> [rep]) with [link rep]. rewrite filter_eq_cons. by case_decide.
Qed.

Lemma start_full_resync_undisturbed l lnk sv sv' :
  lnk ≠ Some l → conns_ok sv → repl_start_full_resync lnk sv = Ret sv' → undisturbed l sv sv'.
Proof.
  intros Hne Hok. unfold repl_start_full_resync. destruct lnk as [l'|]; [|intros [= <-]; apply undisturbed_refl].
  assert (l' ≠ l) as Hl by congruence. cbn [link_send server_repl]. intros (sv1 & H1 & H)%bind_Ret.
  destruct (conn_send_undisturbed l l' _ _ _ Hl Hok H1) as [Hok1 U1].
  destruct (snapshot (store_of sv1)) as [recs s].
  apply bind_Ret in H as (sv2 & H2 & H). apply bind_Ret in H as (sv3 & H3 & H).
  apply (conns_ok_same sv1 (with_store s sv1)) in Hok1; [|done].
  destruct (conn_send_undisturbed l l' _ _ _ Hl Hok1 H2) as [Hok2 U2].
  destruct (conn_send_undisturbed l l' _ _ _ Hl Hok2 H3) as [Hok3 U3].
  apply bind_Ret in H as (peer & _ & [= <-]). eapply undisturbed_trans; [exact U1|].
  eapply undisturbed_trans; [exact U2|]. eapply undisturbed_trans; [exact U3|].
  split_and!; try done. etrans; [exact (registered_add _ _ (sv_repl sv3))|].
  cbn [link]. rewrite decide_False by done. lia.
Qed.

Lemma dispatch_undisturbed l l' args sv r sv' :
  l' ≠ l → dispatch server_table args (Some l') sv = Ret (r, sv') → conns_ok sv →
  conns_ok sv' ∧ undisturbed l sv sv'.
Proof.
  intros Hne. apply (dispatch_respects server_table
    (λ sv sv', conns_ok sv → conns_ok sv' ∧ undisturbed l sv sv')).
  assert (∀ sv sv', undisturbed l sv sv' → conns_ok sv → conns_ok sv' ∧ undisturbed l sv sv') as HU
    by (intros ? ? [? ?] ?; split; [auto|by split]).
  split.
  - intros w. apply HU, undisturbed_refl.
  - intros s w. apply HU. by apply undisturbed_same.
  - intros s w. apply HU. cbn. rewrite server_info_uptime. by apply undisturbed_same.
  - intros ops w r' w' [= <-] H. apply HU.
    cbn in H; unfold on_persist in H.
    destruct H as [H|[H|H]]; repeat case_match; simplify_eq; by apply undisturbed_same.
  - intros ops h n w r' w' [= <-] [_ H]. apply HU. cbn in H. unfold repl_replicaof in H.
    destruct (negb _); [simplify_eq; apply undisturbed_refl|].
    apply bind_Ret in H as (w1 & H1%(stop_replication_undisturbed l) & [= <- <-]).
    eapply undisturbed_trans; [exact H1|]. by apply undisturbed_same.
  - intros ops n w w' [= <-] H Hok. eapply HU; [|done].
    destruct H as [H|[[_ H]|[[_ H]|H]]].
    + eapply start_full_resync_undisturbed; [|exact Hok|exact H]. congruence.
    + exact (on_replica_ack_undisturbed _ _ _ _ _ H).
    + injection H as <-. apply undisturbed_same; cbn; try done. apply update_replicas_links.
    + exact (stop_replication_undisturbed _ _ _ H).
Qed.

(** ** The handshake *)

Lemma out_of_reply l d sv :
  conns_ok sv → out_of l (reply_to l d sv) = (λ q, q ++ d) <$> out_of l sv.
Proof.
  intros Hok. unfold out_of. cbn. rewrite lookup_alter_eq. destruct (conns_ sv !! l) as [c|] eqn:E; [|done].
  cbn. by rewrite conn_reply_queued by (by eapply Hok).
Qed.

Lemma reply_to_ok l d sv : conns_ok sv → conns_ok (reply_to l d sv).
Proof.
  intros Hok l' c'. cbn. destruct (decide (l = l')) as [<-|Hne].
  - rewrite lookup_alter_eq. intros (c & Hc & ->)%fmap_Some. apply conn_reply_wf. by eapply Hok.
  - rewrite lookup_alter_ne by done. apply Hok.
Qed.

(** A send after which the connection is open queued the bytes. *)
Lemma conn_send_open l d sv sv' :
  conns_ok sv → conn_send l d sv = Ret sv' → is_Some (out_of l sv') →
  conns_ok sv' ∧ store_of sv' = store_of sv ∧ sv_repl sv' = sv_repl sv ∧
  out_of l sv' = (λ q, q ++ d) <$> out_of l sv ∧ is_Some (out_of l sv).
Proof.
  intros Hok H [q Hq]. destruct (conn_send_out _ _ _ _ Hok H) as (Hok' & _ & Hs & _ & [[E Er]|[E _]]);
    [|congruence]. split_and!; try done. rewrite E in Hq. by apply fmap_Some in Hq as (? & -> & _).
Qed.

Lemma start_full_resync_ok l sv sv' :
  repl_start_full_resync (Some l) sv = Ret sv' → conns_ok sv → conns_ok sv'.
Proof.
  unfold repl_start_full_resync. cbn [link_send server_repl]. intros (sv1 & H1 & H)%bind_Ret Hok.
  destruct (snapshot (store_of sv1)) as [recs s].
  apply bind_Ret in H as (sv2 & H2 & H). apply bind_Ret in H as (sv3 & H3 & H).
  apply bind_Ret in H as (peer & _ & [= <-]). apply (conns_ok_same sv3); [done|].
  destruct (conn_send_out _ _ _ _ Hok H1) as (Hok1 & _).
  apply (conns_ok_same sv1 (with_store s sv1)) in Hok1; [|done].
  destruct (conn_send_out _ _ _ _ Hok1 H2) as (Hok2 & _).
  by destruct (conn_send_out _ _ _ _ Hok2 H3) as (Hok3 & _).
Qed.

Lemma start_full_resync_out l sv sv' :
  repl_start_full_resync (Some l) sv = Ret sv' → conns_ok sv → is_Some (out_of l sv') →
  conns_ok sv' ∧ store_of sv' = (snapshot (store_of sv)).2 ∧
  registered l (sv_repl sv') = S (registered l (sv_repl sv)) ∧
  master_offset_ (sv_repl sv') = master_offset_ (sv_repl sv) ∧
  out_of l sv' =
    (λ q, q ++ resync_bytes (replid_ (sv_repl sv)) (master_offset_ (sv_repl sv))
           (rdb_serialize (snapshot (store_of sv)).1)) <$> out_of l sv.
Proof.
  unfold repl_start_full_resync. cbn [link_send server_repl]. intros (sv1 & H1 & H)%bind_Ret Hok Hopen.
  destruct (snapshot (store_of sv1)) as [recs s] eqn:Es.
  apply bind_Ret in H as (sv2 & H2 & H). apply bind_Ret in H as (sv3 & H3 & H).
  apply bind_Ret in H as (peer & _ & [= <-]).
  change (is_Some (out_of l sv3)) in Hopen.
  destruct (conn_send_out _ _ _ _ Hok H1) as (Hok1 & _).
  apply (conns_ok_same sv1 (with_store s sv1)) in Hok1; [|done].
  destruct (conn_send_out _ _ _ _ Hok1 H2) as (Hok2 & _).
  destruct (conn_send_open _ _ _ _ Hok2 H3 Hopen) as (Hok3 & Hs3 & Hr3 & Hq3 & Ho2).
  destruct (conn_send_open _ _ _ _ Hok1 H2 Ho2) as (_ & Hs2 & Hr2 & Hq2 & Ho1).
  change (is_Some (out_of l sv1)) in Ho1.
  destruct (conn_send_open _ _ _ _ Hok H1 Ho1) as (_ & Hs1 & Hr1 & Hq1 & _).
  rewrite Hs1 in Es. rewrite Es.
  change (sv_repl (with_store s sv1)) with (sv_repl sv1) in Hr2. rewrite Hr2, Hr1 in Hr3.
  split_and!.
  - exact Hok3.
  - change (store_of sv3 = s). by rewrite Hs3, Hs2, store_of_with.
  - etrans; [exact (registered_add _ _ (sv_repl sv3))|]. cbn [link]. rewrite decide_True, Hr3 by done. lia.
  - cbn. by rewrite Hr3.
  - change (out_of l (with_store s sv1)) with (out_of l sv1) in Hq2.
    etrans; [exact Hq3|]. rewrite Hq2, Hq1. destruct (out_of l sv); [|done].
    cbn [fmap option_fmap option_map fst].
    unfold resync_bytes, resync_line. by rewrite <- !app_assoc.
Qed.

(** A request that replies, touches neither the store nor what is sent to
    replicas, and is not propagated. *)
Lemma execute_plain l args sv sv1 sv' x :
  dispatch server_table args (Some l) sv = Ret (clean x, sv1) →
  execute (server_handler l) (Some l) args sv = Ret sv' → sv' = reply_to l x sv1.
Proof. unfold execute. cbn [table_ server_handler]. intros ->. by intros [= <-]. Qed.

Lemma refuses_write_other (name : bytes) l sv :
  is_write_command name = false → refuses_write server_table name (Some l) sv = false.
Proof. intros H. unfold refuses_write. cbn [replication_ server_table]. by rewrite H, andb_false_r. Qed.

Lemma dispatch_replconf l x y sv :
  ∃ sv1, dispatch server_table [bs "REPLCONF"; x; y] (Some l) sv =
      Ret (clean (if beq (upper x) (bs "ACK") then [] else reply.ok), sv1) ∧
    conns_ sv1 = conns_ sv ∧ store_of sv1 = store_of sv ∧ undisturbed l sv sv1.
Proof.
  unfold dispatch. rewrite refuses_write_other by done.
  change (beq (upper (bs "REPLCONF")) (bs "REPLCONF")) with true. cbn [do_replconf server_table replication_].
  destruct (beq (upper x) (bs "ACK")).
  - cbn [on_replica_ack replication_ops]. destruct (repl_on_replica_ack (Some l) (default 0 (to_int64 y)) sv) as [sv1| |] eqn:E;
      [|unfold repl_on_replica_ack in E; by destruct (ack_replicas _ _ _ _ _)..].
    exists sv1. pose proof (on_replica_ack_undisturbed l _ _ _ _ E) as Hu. split_and!; try done.
    + unfold repl_on_replica_ack in E.
      destruct (ack_replicas_links (Some l) (default 0 (to_int64 y)) (replicas_ (repl_of sv)) [] sv) as (_ & Hc & _).
      destruct (ack_replicas _ _ _ _ _). by simplify_eq.
    + unfold repl_on_replica_ack in E.
      pose proof (store_of_ack (Some l) (default 0 (to_int64 y)) (replicas_ (repl_of sv)) [] sv) as Hs.
      destruct (ack_replicas _ _ _ _ _). cbn in Hs. simplify_eq. exact Hs.
  - destruct (beq (upper x) (bs "LISTENING-PORT")); [|exists sv; split_and!; try done; apply undisturbed_refl].
    destruct (valid_port y) as [p|]; [|exists sv; split_and!; try done; apply undisturbed_refl].
    eexists. split; [done|]. split_and!; try done.
    apply undisturbed_same; cbn; try done. apply update_replicas_links.
Qed.

(** The master's part of the state other than what is queued. *)
Definition same_master l sv sv' : Prop :=
  conns_ok sv' ∧ store_of sv' = store_of sv ∧
  registered l (sv_repl sv') = registered l (sv_repl sv) ∧
  master_offset_ (sv_repl sv') = master_offset_ (sv_repl sv) ∧
  replid_ (sv_repl sv') = replid_ (sv_repl sv).

Lemma execute_replconf l x y sv sv' :
  execute (server_handler l) (Some l) [bs "REPLCONF"; x; y] sv = Ret sv' → conns_ok sv →
  same_master l sv sv' ∧
  out_of l sv' = (λ q, q ++ if beq (upper x) (bs "ACK") then [] else reply.ok) <$> out_of l sv.
Proof.
  intros H Hok. destruct (dispatch_replconf l x y sv) as (sv1 & E & Hc & Hs & (_ & Ho & Hreg & Hoff & Hid)).
  pose proof (execute_plain _ _ _ _ _ _ E H) as ->. apply (conns_ok_same sv sv1) in Hok; [|done].
  split; [|by rewrite out_of_reply, Ho]. by split; [apply reply_to_ok|].
Qed.

Lemma execute_ping l sv sv' :
  execute (server_handler l) (Some l) [bs "PING"] sv = Ret sv' → conns_ok sv →
  same_master l sv sv' ∧ out_of l sv' = (λ q, q ++ bs "+PONG" ++ crlf) <$> out_of l sv.
Proof.
  intros H Hok.
  assert (dispatch server_table [bs "PING"] (Some l) sv = Ret (clean (bs "+PONG" ++ crlf), sv)) as E.
  { unfold dispatch. by rewrite refuses_write_other. }
  pose proof (execute_plain _ _ _ _ _ _ E H) as ->.
  split; [|by rewrite out_of_reply]. by split; [apply reply_to_ok|].
Qed.

Lemma execute_psync l x y sv sv' :
  execute (server_handler l) (Some l) [bs "PSYNC"; x; y] sv = Ret sv' →
  ∃ sv1, repl_start_full_resync (Some l) sv = Ret sv1 ∧ sv' = reply_to l [] sv1.
Proof.
  unfold execute, dispatch. cbn [table_ server_handler]. rewrite refuses_write_other by done.
  change (beq (upper (bs "PSYNC")) (bs "REPLCONF")) with false.
  change (beq (upper (bs "PSYNC")) (bs "PSYNC")) with true. unfold do_psync.
  cbn [replication_ server_table start_full_resync replication_ops].
  intros ([r sv1] & (sv2 & H2 & [= <- <-])%bind_Ret & [= <-])%bind_Ret. by exists sv2.
Qed.

Lemma execute_psync_eq l x y sv sv1 :
  repl_start_full_resync (Some l) sv = Ret sv1 →
  execute (server_handler l) (Some l) [bs "PSYNC"; x; y] sv = Ret (reply_to l [] sv1).
Proof.
  intros H. unfold execute, dispatch. cbn [table_ server_handler]. rewrite refuses_write_other by done.
  change (beq (upper (bs "PSYNC")) (bs "REPLCONF")) with false.
  change (beq (upper (bs "PSYNC")) (bs "PSYNC")) with true. unfold do_psync.
  cbn [replication_ server_table start_full_resync replication_ops]. by rewrite H.
Qed.

(** Serving the four commands of a replica's handshake. *)
Lemma handshake_out l port sv sv' :
  execute_all (server_handler l) (Some l) (handshake_commands port) sv = Ret sv' →
  conns_ok sv → is_Some (out_of l sv') →
  conns_ok sv' ∧ store_of sv' = (snapshot (store_of sv)).2 ∧
  registered l (sv_repl sv') = S (registered l (sv_repl sv)) ∧
  master_offset_ (sv_repl sv') = master_offset_ (sv_repl sv) ∧
  out_of l sv' =
    (λ q, q ++ handshake_replies ++
       resync_bytes (replid_ (sv_repl sv)) (master_offset_ (sv_repl sv))
         (rdb_serialize (snapshot (store_of sv)).1)) <$> out_of l sv.
Proof.
  cbn [execute_all handshake_commands]. intros H Hok Hopen.
  apply bind_Ret in H as (sv1 & H1 & H). apply bind_Ret in H as (sv2 & H2 & H).
  apply bind_Ret in H as (sv3 & H3 & H). apply bind_Ret in H as (sv4 & H4 & [= <-]).
  destruct (execute_ping _ _ _ H1 Hok) as [(Hok1 & Hs1 & Hr1 & Ho1 & Hi1) Hq1].
  destruct (execute_replconf _ _ _ _ _ H2 Hok1) as [(Hok2 & Hs2 & Hr2 & Ho2 & Hi2) Hq2].
  destruct (execute_replconf _ _ _ _ _ H3 Hok2) as [(Hok3 & Hs3 & Hr3 & Ho3 & Hi3) Hq3].
  destruct (execute_psync _ _ _ _ _ H4) as (sv5 & H5 & ->).
  pose proof (start_full_resync_ok _ _ _ H5 Hok3) as Hok5.
  assert (out_of l (reply_to l [] sv5) = out_of l sv5) as Hq.
  { rewrite out_of_reply by done. destruct (out_of l sv5); [|done]. cbn. by rewrite app_nil_r. }
  rewrite Hq in Hopen |- *.
  destruct (start_full_resync_out _ _ _ H5 Hok3 Hopen) as (_ & Hs5 & Hr5 & Ho5 & Hq5).
  split_and!.
  - by apply reply_to_ok.
  - change (store_of sv5 = (snapshot (store_of sv)).2). by rewrite Hs5, Hs3, Hs2, Hs1.
  - cbn. by rewrite Hr5, Hr3, Hr2, Hr1.
  - cbn. by rewrite Ho5, Ho3, Ho2, Ho1.
  - rewrite Hq5, Hq3, Hq2, Hq1, Hi3, Hi2, Hi1, Ho3, Ho2, Ho1, Hs3, Hs2, Hs1.
    destruct (out_of l sv); [|done]. cbn [fmap option_fmap option_map]. f_equal.
    unfold handshake_replies. rewrite <- !app_assoc. done.
Qed.

(** ** The stream *)

(** Requests that are not answered on [l]: those of others, and the
    acknowledgements of the replica itself. *)
Definition off_stream l (l' : Link) (args : Args) : Prop :=
  l' ≠ l ∨ ∃ x y, args = [bs "REPLCONF"; x; y] ∧ upper x = bs "ACK".

Lemma out_of_reply_ne l l' d sv : l' ≠ l → out_of l (reply_to l' d sv) = out_of l sv.
Proof. intros. unfold out_of. cbn. by rewrite lookup_alter_ne. Qed.

(** Until the change is propagated, nothing is sent on [l]. *)
Lemma dispatch_reply_off_stream l l' args sv r sv1 :
  off_stream l l' args → dispatch server_table args (Some l') sv = Ret (r, sv1) → conns_ok sv →
  let sv2 := reply_to l' (result_reply r) sv1 in
  conns_ok sv2 ∧ undisturbed l sv sv2.
Proof.
  intros Hoff H Hok. destruct (decide (l' = l)) as [->|Hne].
  - destruct Hoff as [?|(x & y & -> & Hx)]; [done|].
    destruct (dispatch_replconf l x y sv) as (sv2 & E & Hc & _ & Hu). rewrite H in E.
    injection E as -> ->. rewrite Hx. change (beq (bs "ACK") (bs "ACK")) with true. cbn [clean result_reply].
    pose proof (proj1 Hu Hok) as Hok1. split; [by apply reply_to_ok|].
    eapply undisturbed_trans; [exact Hu|]. split_and!; try done.
    + intros _. by apply reply_to_ok.
    + rewrite out_of_reply by done. destruct (out_of l sv2); [|done]. cbn. by rewrite app_nil_r.
  - destruct (dispatch_undisturbed _ _ _ _ _ _ Hne H Hok) as [Hok1 Hu].
    split; [by apply reply_to_ok|]. eapply undisturbed_trans; [exact Hu|]. split_and!; try done.
    + intros _. by apply reply_to_ok.
    + by apply out_of_reply_ne.
Qed.

(** What a served request puts on the stream. *)
Definition stream_of (r : CommandResult) : list Args := if dirty r then [propagate r] else [].

Lemma execute_stream l l' args sv r sv1 sv2 :
  off_stream l l' args → dispatch server_table args (Some l') sv = Ret (r, sv1) →
  execute (server_handler l') (Some l') args sv = Ret sv2 → conns_ok sv →
  registered l (sv_repl sv) = 1%nat → master_offset_ (sv_repl sv) ≤ int64_max →
  conns_ok sv2 ∧ store_of sv2 = store_of sv1 ∧ registered l (sv_repl sv2) = 1%nat ∧
  master_offset_ (sv_repl sv2) = master_offset_ (sv_repl sv) + size (encode_all (stream_of r)) ∧
  master_offset_ (sv_repl sv2) ≤ int64_max ∧
  out_of l sv2 = (λ q, q ++ encode_all (stream_of r)) <$> out_of l sv.
Proof.
  intros Hoff Hd He Hok Hreg Hmax.
  destruct (dispatch_reply_off_stream _ _ _ _ _ _ Hoff Hd Hok) as (Hok1 & _ & Hout & Hreg1 & Hoff1 & _).
  unfold execute in He. cbn [table_ server_handler] in He. rewrite Hd in He.
  cbn [mbind outcome_bind out_append server_handler propagate_] in He.
  set (sv1' := reply_to l' (result_reply r) sv1) in *. unfold stream_of. destruct (dirty r).
  - apply propagate_out in He as (Hok2 & Hs2 & Ho2 & Hm2 & Hr2 & _ & Hout2); [|exact Hok1].
    cbn [with_sv_persist sv_repl] in *.
    assert (encode_all [propagate r] = encode (propagate r)) as ->
      by (unfold encode_all; cbn; by rewrite app_nil_r).
    split_and!; [done|done| |by rewrite Ho2, Hoff1|done|].
    + unfold registered in *. by rewrite Hr2, Hreg1.
    + rewrite Hout2. change (out_of l (with_sv_persist ?p ?x)) with (out_of l x).
      rewrite Hout, Hreg1, Hreg. cbn. by rewrite app_nil_r.
  - injection He as <-. split_and!; [done|done|by rewrite Hreg1| | |].
    + rewrite Hoff1. change (size (encode_all [])) with 0. lia.
    + by rewrite Hoff1.
    + rewrite Hout. destruct (out_of l sv); [|done]. cbn. by rewrite app_nil_r.
Qed.

(** Some of what is queued for [l] goes out. *)
Definition transmits l (x : bytes) sv sv' : Prop :=
  ∃ q, out_of l sv = Some (x ++ q) ∧ out_of l sv' = Some q ∧ (conns_ok sv → conns_ok sv') ∧
    store_of sv' = store_of sv ∧ sv_repl sv' = sv_repl sv.

(** The master at work until time [T]: requests of clients and
    acknowledgements, bytes sent to the replica, and anything else that leaves
    its stream and the keyspace alone.  Collected are the bytes sent and the
    commands propagated. *)
Inductive served l (T : Z) : Server C → bytes → list Args → Server C → Prop :=
| served_nil sv : served l T sv [] [] sv
| served_request l' args sv r sv1 sv2 sent cmds sv3 t :
    off_stream l l' args → dispatch server_table args (Some l') sv = Ret (r, sv1) →
    execute (server_handler l') (Some l') args sv = Ret sv2 →
    steady t (store_of sv) (store_of sv1) → t ≤ T →
    (∀ k d, dirty r = true → effect_of (propagate r) = Some (WDeadline k d) →
       is_Some (view T (store_of sv) !! k)) →
    served l T sv2 sent cmds sv3 → served l T sv sent (stream_of r ++ cmds) sv3
| served_sent sv x sv1 sent cmds sv2 :
    transmits l x sv sv1 → served l T sv1 sent cmds sv2 → served l T sv (x ++ sent) cmds sv2
| served_other sv sv1 sent cmds sv2 t :
    undisturbed l sv sv1 → quiet (store_of sv) (store_of sv1) →
    steady t (store_of sv) (store_of sv1) → t ≤ T →
    served l T sv1 sent cmds sv2 → served l T sv sent cmds sv2.

(** Nothing happens to the keyspace between two dispatches. *)
Lemma history_same tbl T sv sv1 cmds sv2 :
  store_of sv1 = store_of sv →
  history (W:=Server C) (Link:=Link) tbl T sv1 cmds sv2 → history tbl T sv cmds sv2.
Proof.
  intros E H. eapply (history_quiet _ _ _ _ _ _ T); [| |done|exact H]; rewrite E.
  - apply quiet_refl.
  - intros i Hi. lia.
Qed.

(** The replica's stream is the propagated commands, and the master's offset
    advances by their size. *)
Lemma served_stream l T sv sent cmds sv' :
  served l T sv sent cmds sv' → conns_ok sv → registered l (sv_repl sv) = 1%nat →
  master_offset_ (sv_repl sv) ≤ int64_max → ∀ q, out_of l sv = Some q →
  ∃ q', out_of l sv' = Some q' ∧ sent ++ q' = q ++ encode_all cmds ∧
    master_offset_ (sv_repl sv') = master_offset_ (sv_repl sv) + size (encode_all cmds) ∧
    master_offset_ (sv_repl sv') ≤ int64_max ∧ history server_table T sv cmds sv'.
Proof.
  induction 1 as [sv|l' args sv r sv1 sv2 sent cmds sv3 t Hoff Hd He Hst Ht Hk Hs IH
    |sv x sv1 sent cmds sv2 (q1 & E & E1 & Hok1 & Hst1 & Hr1) Hs IH
    |sv sv1 sent cmds sv2 t (Hok1 & Ho1 & Hr1 & Hm1 & _) Hq Hst Ht Hs IH];
    intros Hok Hreg Hmax q Hq0.
  - exists q. split_and!; [done|by rewrite app_nil_r|change (size (encode_all [])) with 0; lia|done|constructor].
  - destruct (execute_stream _ _ _ _ _ _ _ Hoff Hd He Hok Hreg Hmax) as (Hok2 & Hs2 & Hreg2 & Ho2 & Hm2 & Hq2).
    rewrite Hq0 in Hq2. destruct (IH Hok2 Hreg2 Hm2 _ Hq2) as (q' & Hq' & Hcat & Ho' & Hm' & Hh).
    exists q'. split_and!; [done| | |done|].
    + by rewrite Hcat, encode_all_app, <- app_assoc.
    + rewrite Ho', Ho2, encode_all_app. unfold size. rewrite length_app. lia.
    + unfold stream_of. eapply history_same in Hh; [|exact Hs2].
      pose proof (history_command _ _ _ _ _ _ _ _ _ _ Hd Hst Ht Hk Hh) as HH. by destruct (dirty r).
  - rewrite Hq0 in E. injection E as ->. rewrite Hr1 in IH.
    destruct (IH (Hok1 Hok) Hreg Hmax _ E1) as (q' & Hq' & Hcat & Ho' & Hm' & Hh).
    exists q'. split_and!; [done| |done|done|by eapply history_same].
    by rewrite <- !app_assoc, Hcat.
  - rewrite <- Ho1 in Hq0. rewrite Hr1, Hm1 in IH.
    destruct (IH (Hok1 Hok) Hreg Hmax _ Hq0) as (q' & Hq' & Hcat & Ho' & Hm' & Hh).
    exists q'. split_and!; [done..|]. by eapply history_quiet.
Qed.

(** ** Convergence *)

(** C5: a cluster converges, as long as deadline commands reach their keys alive.
    A client of a running master shakes hands as a replica does, on an idle
    connection, and the master then serves requests, each at one time, and sends
    what is queued; both event loops are instances.  A replica that reads, in
    any chunks, what was sent and what is still queued posts the snapshot and
    then a prefix of the propagated commands, in order.  With enough rounds of
    its loop and without losing the connection it posts all of them, and its
    offset is the master's.  If it then runs them at a time [T] not before any
    of the master's, and every key a propagated command gave a deadline to or
    took it from was alive at [T] as the master had it ([served]), its keyspace
    is the master's from [T] on, whatever was in it before. *)
Theorem cluster_converges l T sv sv1 sent cmds sv2 q2 port a fuel (tbl2 : CommandTable (Link:=Link)) (w2 : Server C) t :
  conns_ok sv → store_wf (store_of sv) → clock_wf (store_of sv) →
  out_of l sv = Some [] → registered l (sv_repl sv) = 0%nat →
  0 ≤ master_offset_ (sv_repl sv) ≤ int64_max → Forall (λ x, x ≠ CR) (replid_ (sv_repl sv)) →
  execute_all (server_handler l) (Some l) (handshake_commands port) sv = Ret sv1 →
  steady t (store_of sv) (store_of sv1) → now (store_of sv) ≤ T → t ≤ T →
  served l T sv1 sent cmds sv2 → out_of l sv1 ≠ None → out_of l sv2 = Some q2 →
  Forall encodable cmds →
  let payload := rdb_serialize (snapshot (store_of sv)).1 in
  size payload < 2 ^ 64 → (length payload ≤ fuel)%nat →
  connect_error a = None → (4 ≤ writes (attempt_conn a))%nat →
  unread_bytes (attempt_conn a) = sent ++ q2 →
  0 ≤ stream_start_ms a ≤ int64_max →
  Forall (λ rd, 0 ≤ round_now rd ≤ int64_max) (attempt_rounds a) →
  ∃ tr n, link_attempt fuel port true a = Ret tr ∧
    posted tr = TaskResync (snapshot (store_of sv)).1 :: (TaskApply <$> take n cmds) ∧
    ((length (sync_socket (reader (attempt_conn a))) < nexts (attempt_rounds a))%nat →
     Forall (λ rd, lost rd = false) (attempt_rounds a) →
     n = length cmds ∧ offset_after tr 0 = master_offset_ (sv_repl sv2) ∧
     ∃ w2', run_tasks tbl2 (posted tr) w2 = Ret w2' ∧
       (steady T (store_of w2) (store_of w2') →
        ∀ t', T ≤ t' → view t' (store_of w2') = view t' (store_of sv2))).
Proof.
  intros Hok Hwf Hc Hq Hreg [Hoff0 Hmax] Hid Hhs Hst Hnow Ht Hserved Hopen Hq2 Henc payload Hsz Hf.
  intros Hce Hwr Hun Hss Hrounds.
  assert (is_Some (out_of l sv1)) as Hopen1 by (by apply not_eq_None_Some).
  destruct (handshake_out _ _ _ _ Hhs Hok Hopen1) as (Hok1 & Hs1 & Hreg1 & Ho1 & Hq1).
  rewrite Hq in Hq1. rewrite Hreg in Hreg1. cbn [fmap option_fmap option_map app] in Hq1.
  rewrite <- Ho1 in Hmax.
  destruct (served_stream _ _ _ _ _ _ Hserved Hok1 Hreg1 Hmax _ Hq1) as (q' & Hq' & Hcat & Ho2 & Hm2 & Hh).
  assert (history server_table T sv cmds sv2) as Hh0.
  { eapply history_quiet; [|exact Hst|exact Ht|exact Hh]. rewrite Hs1. apply quiet_snapshot. }
  rewrite Hq2 in Hq'. injection Hq' as <-. rewrite Hcat, <- app_assoc in Hun. rewrite Ho1 in Ho2.
  destruct (replica_converges server_table tbl2 T sv cmds sv2 w2 a port (replid_ (sv_repl sv))
    (master_offset_ (sv_repl sv)) fuel server_table_laws Hwf Hc Hnow Hh0 Henc Hsz Hf Hoff0
    ltac:(lia) Hid Hce Hwr Hun Hss Hrounds) as (tr & n & Hr & Hp & Ho & Hall).
  exists tr, n. split_and!; [done|done|]. intros Hn Hl. destruct (Hall Hn Hl) as [-> Hrun].
  split_and!; [done| |done]. by rewrite Ho, Ho2, take_ge.
Qed.

End MasterStream.

(** ** Witness *)

(** A poll server with two clients; the first becomes a replica, the second
    writes. *)
Section Witness.
#[local] Existing Instance gmap_table.

Definition idle_client : Conn := mkClient (bs "10.0.0.1:5000") buf_empty buf_empty false.

Definition server_at (clock : nat → Z) : Server Conn :=
  mkServer default_ServerConfig (new_store clock) zero_stats (mkUptime None ten 0) (fresh good_io)
    (new_replication (bs "8a3f") (λ _, [])) {[ 7%nat := idle_client; 8%nat := idle_client ]} [] 0.

Definition ret_or {A} (x : A) (o : outcome A) : A := match o with Ret y => y | _ => x end.

Definition is_ret {A} (o : outcome A) : bool := match o with Ret _ => true | _ => false end.

Lemma ret_or_eq {A} (x : A) o : is_ret o = true → o = Ret (ret_or x o).
Proof. by destruct o. Qed.

Definition shaken : Server Conn :=
  ret_or (server_at ten)
    (execute_all (server_handler 7%nat) (Some 7%nat) (handshake_commands 6380) (server_at ten)).

Definition written_to : Server Conn :=
  ret_or (server_at ten) (execute (server_handler 8%nat) (Some 8%nat) set_px shaken).

Definition stream_bytes : bytes := default [] (out_of 7%nat written_to).

Definition good_attempt : attempt :=
  mkAttempt None (mkMasterConn (mkSyncReader [] [take 10 stream_bytes; drop 10 stream_bytes]) 4) 0
    (replicate 3 (mkRound 0 ReadNext)).

Lemma cluster_converges_witness :
  ∃ tr w', link_attempt 1000 6380 true good_attempt = Ret tr ∧
    run_tasks server_table (posted tr) (server_at (λ _, 50)) = Ret w' ∧
    view 60 (store_of w') = view 60 (store_of written_to).
Proof.
  assert (served 7%nat 50 shaken [] (stream_of after_set.1) written_to) as Hs.
  { rewrite <- (app_nil_r (stream_of _)).
    eapply (served_request 7%nat 50 8%nat set_px shaken after_set.1 _ written_to [] [] written_to 10).
    - left. done.
    - reflexivity.
    - apply ret_or_eq. vm_compute. reflexivity.
    - by intros i _.
    - lia.
    - intros k d _ He. vm_compute in He. discriminate He.
    - constructor. }
  destruct (cluster_converges 7%nat 50 (server_at ten) shaken [] (stream_of after_set.1) written_to
    stream_bytes 6380 good_attempt 1000 server_table (server_at (λ _, 50)) 10) as (tr & n & Hr & _ & Hall).
  - assert (conn_wf idle_client) by (split; apply Nat.le_refl).
    apply map_Forall_insert_2; [done|]. by apply map_Forall_singleton.
  - apply wf_new.
  - by apply ten_clock.
  - reflexivity.
  - reflexivity.
  - by split.
  - no_cr.
  - apply ret_or_eq. vm_compute. reflexivity.
  - by intros i _.
  - by vm_compute.
  - done.
  - exact Hs.
  - by vm_compute.
  - reflexivity.
  - repeat constructor; by vm_compute.
  - by vm_compute.
  - apply Nat.leb_le. vm_compute. reflexivity.
  - reflexivity.
  - cbn. lia.
  - cbn [unread_bytes]. reflexivity.
  - done.
  - repeat constructor; done.
  - destruct Hall as (_ & _ & w' & Hrun & Hv); [by apply Nat.ltb_lt|by repeat constructor|].
    exists tr, w'. split_and!; [done..|]. refine (Hv (λ i _, eq_refl) 60 _). discriminate.
Defined.

End Witness.
