(* ===== verification/ServerLinks.v ===== *)
(** * Links stay valid while the server works

    Replication keeps raw pointers to connections.  Whatever a request, a task
    or the cron does, no connection disappears and a new registration is that
    of a connection that exists; so only the removal of connections, which is
    the backend's own, can leave a pointer dangling. *)

From S2P Require Import Prelude Buffer Resp UnorderedMap Store Keyspace Stats Commands CommandSpec.
From S2P Require Import Dispatch Handler Encode Files Aof Rdb RdbFile Persistence Replication Server MasterStream.

Section Links.
Context `{UM : UnorderedMap} {C : Type} {B : Backend C}.
Implicit Types (sv : Server C) (l : Link).

Definition links sv : list Link := link <$> replicas_ (sv_repl sv).

(** Every registered replica is a connection. *)
Definition links_live sv : Prop := Forall (λ l, l ∈ dom (conns_ sv)) (links sv).

(** No connection goes away, and new registrations are of connections. *)
Definition keeps_links sv sv' : Prop :=
  conns_ok sv → conns_ok sv' ∧ dom (conns_ sv') = dom (conns_ sv) ∧
    (∀ l, l ∈ links sv' → l ∈ links sv ∨ l ∈ dom (conns_ sv)).

#[global] Instance keeps_links_preorder : PreOrder keeps_links.
Proof.
  split.
  - intros sv Hok. split_and!; [done..|]. by left.
  - intros sv1 sv2 sv3 H12 H23 Hok. destruct (H12 Hok) as (Hok2 & D2 & L2).
    destruct (H23 Hok2) as (Hok3 & D3 & L3). split_and!; [done|congruence|].
    intros l [?|?]%L3; [auto|]. right. by rewrite <- D2.
Qed.

Lemma keeps_links_live sv sv' :
  keeps_links sv sv' → conns_ok sv → links_live sv → conns_ok sv' ∧ links_live sv'.
Proof.
  intros H Hok Hl. destruct (H Hok) as (Hok' & Hd & Hin). split; [done|]. apply Forall_forall.
  intros l [Hl'|Hl']%Hin; rewrite Hd; [|done]. by apply (proj1 (Forall_forall _ _) Hl).
Qed.

Lemma keeps_links_same sv sv' :
  conns_ sv' = conns_ sv → links sv' = links sv → keeps_links sv sv'.
Proof.
  intros Hc Hl Hok. rewrite Hc, Hl. split_and!; [by eapply conns_ok_same|done|by left].
Qed.

Lemma links_remove lnk r :
  ∀ l, l ∈ link <$> replicas_ (remove_replica lnk r) → l ∈ link <$> replicas_ r ∧ Some l ≠ lnk.
Proof.
  intros l (rep & -> & [Hne Hin]%list_elem_of_filter)%list_elem_of_fmap. split; [|done].
  by apply list_elem_of_fmap_2.
Qed.

Lemma conn_send_keeps l d sv sv' :
  conn_send l d sv = Ret sv' → keeps_links sv sv' ∧ l ∈ dom (conns_ sv).
Proof.
  intros H. destruct (conns_ sv !! l) as [c|] eqn:El.
  2: { rewrite conn_send_dangling in H by done. done. }
  split; [|by apply elem_of_dom_2 in El]. intros Hok.
  destruct (conn_send_spec l d sv c El (Hok l c El)) as (c' & st & r & E & Hc' & Hq).
  rewrite H in E. injection E as ->. split_and!.
  - by apply map_Forall_insert_2.
  - cbn. rewrite dom_insert_L. apply elem_of_dom_2 in El. set_solver.
  - intros l'. unfold links. cbn. destruct (conn_queued c).
    + destruct Hq as [[_ ->]|[_ ->]]; [by left|]. intros [? _]%links_remove. by left.
    + destruct Hq as [_ ->]. by left.
Qed.

Lemma send_to_all_keeps all todo enc sv sv' :
  send_to_all all todo enc sv = Ret sv' → keeps_links sv sv'.
Proof.
  revert sv. induction todo as [|rep todo IH]; intros sv H; cbn [send_to_all] in H.
  { injection H as <-. done. }
  apply bind_Ret in H as (sv1 & [H1 _]%conn_send_keeps & H).
  case_bool_decide; [|done]. etrans; [exact H1|by apply IH].
Qed.

Lemma propagate_hook_keeps args sv sv' : propagate_hook args sv = Ret sv' → keeps_links sv sv'.
Proof.
  unfold propagate_hook, repl_propagate. intros (o & _ & H%send_to_all_keeps)%bind_Ret.
  etrans; [|exact H]. by apply keeps_links_same.
Qed.

Lemma start_full_resync_keeps lnk sv sv' :
  repl_start_full_resync lnk sv = Ret sv' → keeps_links sv sv'.
Proof.
  unfold repl_start_full_resync. destruct lnk as [l|]; [|by intros [= <-]].
  cbn [link_send server_repl]. intros (sv1 & [K1 Hl]%conn_send_keeps & H)%bind_Ret.
  destruct (snapshot (store_of sv1)) as [recs s].
  apply bind_Ret in H as (sv2 & [K2 _]%conn_send_keeps & H).
  apply bind_Ret in H as (sv3 & [K3 _]%conn_send_keeps & H).
  apply bind_Ret in H as (peer & _ & [= <-]). intros Hok.
  assert (keeps_links sv sv3) as K.
  { etrans; [exact K1|]. etrans; [|exact K3]. etrans; [|exact K2]. by apply keeps_links_same. }
  destruct (K Hok) as (Hok3 & D3 & L3). split_and!; [by apply (conns_ok_same sv3)|done|].
  intros l'. unfold links. cbn. rewrite fmap_app, elem_of_app. intros [Hl'|Hl']; [by apply L3|].
  apply list_elem_of_singleton in Hl' as ->. by right.
Qed.

Lemma links_undisturbed sv sv' :
  conns_ sv' = conns_ sv → (∀ l, undisturbed l sv sv') → keeps_links sv sv'.
Proof.
  intros Hc Hu Hok. split_and!; [by eapply conns_ok_same|by rewrite Hc|].
  intros l Hl. left. destruct (Hu l) as (_ & _ & Hr & _). unfold registered in Hr.
  destruct (filter (λ x, x = l) (links sv)) as [|x xs] eqn:E.
  - exfalso. fold (links sv) (links sv') in Hr. rewrite E in Hr. apply length_zero_iff_nil in Hr.
    assert (l ∈ filter (λ x, x = l) (links sv')) as Hin by (by apply list_elem_of_filter).
    rewrite Hr in Hin. by apply elem_of_nil in Hin.
  - assert (x ∈ filter (λ x, x = l) (links sv)) as [-> ?]%list_elem_of_filter; [|done].
    rewrite E. by left.
Qed.

Lemma stop_replication_keeps sv sv' : repl_stop_replication sv = Ret sv' → keeps_links sv sv'.
Proof.
  intros H. apply links_undisturbed; [|intros l; by apply stop_replication_undisturbed].
  unfold repl_stop_replication in H. injection H as <-. cbn.
  destruct (link_thread_ _); [by edestruct link_effects_master as (-> & _)|done].
Qed.

Lemma on_replica_ack_keeps lnk n sv sv' : repl_on_replica_ack lnk n sv = Ret sv' → keeps_links sv sv'.
Proof.
  intros H. apply links_undisturbed; [|intros l; by eapply on_replica_ack_undisturbed].
  unfold repl_on_replica_ack in H.
  destruct (ack_replicas_links lnk n (replicas_ (sv_repl sv)) [] sv) as (_ & Hc & _).
  cbn in H. destruct (ack_replicas _ _ _ _ _). by simplify_eq.
Qed.

Lemma dispatch_keeps lnk args sv r sv' :
  dispatch server_table args lnk sv = Ret (r, sv') → keeps_links sv sv'.
Proof.
  apply (dispatch_respects server_table keeps_links). split.
  - done.
  - intros s w. by apply keeps_links_same.
  - intros s w. cbn. rewrite server_info_uptime. by apply keeps_links_same.
  - intros ops w r' w' [= <-] H. cbn in H. unfold on_persist in H.
    destruct H as [H|[H|H]]; repeat case_match; simplify_eq; by apply keeps_links_same.
  - intros ops h n w r' w' [= <-] [_ H]. cbn in H. unfold repl_replicaof in H.
    destruct (negb _); [by simplify_eq|].
    apply bind_Ret in H as (w1 & H1%stop_replication_keeps & [= <- <-]).
    etrans; [exact H1|]. by apply keeps_links_same.
  - intros ops n w w' [= <-] [H|[[_ H]|[[_ H]|H]]].
    + exact (start_full_resync_keeps _ _ _ H).
    + exact (on_replica_ack_keeps _ _ _ _ H).
    + injection H as <-. apply keeps_links_same; [done|apply update_replicas_links].
    + exact (stop_replication_keeps _ _ H).
Qed.

Lemma reply_to_keeps l d sv : keeps_links sv (reply_to l d sv).
Proof.
  intros Hok. split_and!; [by apply reply_to_ok|apply dom_alter_L|by left].
Qed.

Lemma execute_keeps l args sv sv' :
  execute (server_handler l) (Some l) args sv = Ret sv' → keeps_links sv sv'.
Proof.
  unfold execute. cbn [table_ propagate_ out_append server_handler].
  intros ([r sv1] & H1%dispatch_keeps & H)%bind_Ret. etrans; [exact H1|].
  etrans; [apply (reply_to_keeps l (result_reply r))|].
  destruct (dirty r); [by eapply propagate_hook_keeps|by injection H as <-].
Qed.

Lemma on_data_keeps l input sv n rest sv' :
  on_data (server_handler l) (Some l) input sv = Ret (n, rest, sv') →
  keeps_links sv sv' ∧ (buf_wf input → buf_wf rest).
Proof.
  unfold on_data. generalize (drain_fuel input) 0%nat. intros fuel. revert input sv.
  induction fuel as [|fuel IH]; intros input sv k H; [done|]. cbn [on_data_loop] in H.
  destruct (status _).
  - destruct (args (parse_request (readable input))).
    + apply IH in H as [? Hw]. split; [done|]. intros. by apply Hw, consume_wf.
    + apply bind_Ret in H as (sv1 & H1%execute_keeps & H). apply IH in H as [? Hw].
      split; [by etrans|]. intros. by apply Hw, consume_wf.
  - injection H as <- <- <-. done.
  - injection H as <- <- <-. split; [apply reply_to_keeps|intros; apply buf_clear_wf].
Qed.

Lemma run_task_keeps t sv sv' : run_task server_table t sv = Ret sv' → keeps_links sv sv'.
Proof.
  destruct t as [records|args]; cbn [run_task].
  - intros [= <-]. by apply keeps_links_same.
  - unfold apply_silently. destruct (dispatch _ _ _ _) as [[r sv1]| |] eqn:E; [|done..].
    intros [= <-]. by eapply dispatch_keeps.
Qed.

Lemma run_tasks_keeps ts sv sv' : run_tasks server_table ts sv = Ret sv' → keeps_links sv sv'.
Proof.
  revert sv. induction ts as [|t ts IH]; intros sv H; cbn [run_tasks] in H; [by injection H as <-|].
  apply bind_Ret in H as (sv1 & H1%run_task_keeps & H). etrans; [exact H1|by apply IH].
Qed.

Lemma server_cron_keeps sv sv' : server_cron sv = Ret sv' → keeps_links sv sv'.
Proof.
  unfold server_cron. destruct (active_expire_cycle _ _) as [n s].
  intros ([s' p] & _ & [= <-])%bind_Ret. by apply keeps_links_same.
Qed.

(** A step of the replication thread. *)
Lemma link_effect_keeps e sv : keeps_links sv (link_effect_step e sv).
Proof. apply keeps_links_same; by destruct e. Qed.

(** ** Serving what a connection has sent *)

(** From [sv] to [sv'] the [n] requests that are framed by [input] are executed in
    their order, each once, and a protocol error behind them is answered; [rest]
    is what is left of the bytes.  Everything else about [sv'] follows: the
    store, the replies on every connection, the log and replication. *)
Definition answers l (input rest : bytes) (n : nat) sv sv' : Prop :=
  ∃ cmds b err, drain (S (length input)) (mkBuffer input 0) = Some (cmds, b, err) ∧
    rest = readable b ∧ n = length cmds ∧
    (w ← execute_all (server_handler l) (Some l) cmds sv; Ret (reply_error (server_handler l) err w)) = Ret sv'.

Lemma on_data_answers l b sv n rest sv' :
  on_data (server_handler l) (Some l) b sv = Ret (n, rest, sv') → buf_wf b →
  answers l (readable b) (readable rest) n sv sv' ∧ buf_wf rest.
Proof.
  intros H Hb. destruct (on_data_drain (server_handler l) (Some l) b sv Hb) as (cmds & b' & err & Hd & Hw & E).
  rewrite E in H. apply bind_Ret in H as (sv2 & H2 & [= <- <- <-]). split; [|done].
  assert (readable (mkBuffer (readable b) 0) = readable b) as Er.
  { unfold readable at 1, buf_size. cbn. rewrite Nat.sub_0_r. unfold substr. cbn. apply take_ge. lia. }
  destruct (drain_readable _ b (mkBuffer (readable b) 0) _ Hb (Nat.le_0_l _) Er Hd)
    as ([[cmds2 b2] err2] & Hd2 & Hcmds & Hr2 & Herr & _). cbn in Hcmds, Hr2, Herr. subst cmds2 err2.
  unfold drain_fuel in Hd2. rewrite buf_size_readable in Hd2. exists cmds, b2, err. by rewrite H2.
Qed.

(** What does not change when bytes move in and out of connection [l], except for
    the counters. *)
Record same_but_conn l sv sv' : Prop := {
  sbc_cfg : cfg_ sv' = cfg_ sv;
  sbc_store : sv_store sv' = sv_store sv;
  sbc_uptime : sv_uptime sv' = sv_uptime sv;
  sbc_persist : sv_persist sv' = sv_persist sv;
  sbc_repl : sv_repl sv' = sv_repl sv;
  sbc_posted : posted_ sv' = posted_ sv;
  sbc_last_cron : last_cron_ sv' = last_cron_ sv;
  sbc_conns l' : l' ≠ l → conns_ sv' !! l' = conns_ sv !! l'
}.

#[global] Instance same_but_conn_preorder l : PreOrder (same_but_conn l).
Proof.
  split; [by split|]. intros sv1 sv2 sv3 [? ? ? ? ? ? ? H1] [? ? ? ? ? ? ? H2].
  split; try congruence. intros l' Hl. by rewrite H2, H1.
Qed.

Lemma same_but_insert l c st sv : same_but_conn l sv (with_sv_stats st (with_conns (<[l := c]> (conns_ sv)) sv)).
Proof. split; try done. intros l' Hl. cbn. by rewrite lookup_insert_ne. Qed.

End Links.

Create HintDb links.
#[export] Hint Resolve conn_send_keeps send_to_all_keeps propagate_hook_keeps dispatch_keeps
  reply_to_keeps execute_keeps run_task_keeps run_tasks_keeps server_cron_keeps link_effect_keeps : links.
