(* ===== verification/PollTheorems.v ===== *)
(** * Correctness of the poll backend

    In every state the loop can reach, replication's pointers are connections
    of the server, so propagation is defined and reaches each replica; output
    leaves a connection in the order it was queued; and a connection that is
    closed right behind a full chunk loses the requests in it. *)

From S2P Require Import Prelude Buffer Resp UnorderedMap Store Keyspace Stats Commands CommandSpec.
From S2P Require Import Dispatch Handler Encode Files Aof Rdb RdbFile Persistence PersistenceTheorems.
From S2P Require Import Replication Server PollServer MasterStream ServerLinks.

Section Poll.
Context `{UM : UnorderedMap}.
Implicit Types (sv : Server Conn) (l fd : Link).

Definition poll_inv sv : Prop := conns_ok sv ∧ links_live sv.

Lemma poll_inv_keeps sv sv' : keeps_links sv sv' → poll_inv sv → poll_inv sv'.
Proof. intros H [? ?]. by apply (keeps_links_live sv). Qed.

(** Replacing a connection that exists. *)
Lemma update_conn_keeps fd c c' sv :
  conns_ sv !! fd = Some c → (client_wf c → client_wf c') →
  keeps_links sv (with_conns (<[fd := c']> (conns_ sv)) sv).
Proof.
  intros Hc Hw Hok. split_and!.
  - apply map_Forall_insert_2; [|done]. apply Hw. exact (Hok fd c Hc).
  - cbn. rewrite dom_insert_L. apply elem_of_dom_2 in Hc. set_solver.
  - by left.
Qed.

Lemma stats_keeps st sv : keeps_links sv (with_sv_stats st sv).
Proof. by apply keeps_links_same. Qed.

Lemma accept_ready_inv accepts sv : poll_inv sv → poll_inv (accept_ready accepts sv).
Proof.
  revert sv. induction accepts as [|[fd address sin_port| | |] accepts IH]; intros sv Hi; cbn; try done.
  apply IH. destruct (conns_ sv !! fd) eqn:E; [done|]. destruct Hi as [Hok Hl]. split.
  - apply map_Forall_insert_2; [split; apply Nat.le_refl|done].
  - eapply Forall_impl; [exact Hl|]. intros l Hin. cbn. rewrite dom_insert_L. set_solver.
Qed.

Lemma handle_write_keeps fd sends sv : keeps_links sv (handle_write fd sends sv).2.
Proof.
  revert sv. induction sends as [|r sends IH]; intros sv; cbn [handle_write];
    destruct (conns_ sv !! fd) as [c|] eqn:Ec; try done; destruct (buf_is_empty _); try done.
  destruct r as [n| | |]; [|done|apply IH|done]. destruct (Nat.eqb _ 0); [done|].
  etrans; [|apply IH]. etrans; [|apply stats_keeps].
  apply (update_conn_keeps _ c); [done|]. intros [? ?]. split; [done|]. by apply consume_wf.
Qed.

Lemma recv_loop_wf chunk recvs input st :
  buf_wf input → buf_wf (recv_loop chunk recvs input st).1.2.
Proof.
  revert input st. induction recvs as [|[data| | |] recvs IH]; intros input st H;
    cbn [recv_loop]; auto.
  repeat split_if; [done|by apply buf_append_wf|by apply IH, buf_append_wf].
Qed.

Lemma handle_read_keeps fd recvs sends sv b sv' :
  handle_read fd recvs sends sv = Ret (b, sv') → keeps_links sv sv'.
Proof.
  unfold handle_read. destruct (conns_ sv !! fd) as [c|] eqn:Ec; [|by intros [= <- <-]].
  pose proof (recv_loop_wf (read_chunk (cfg_ sv)) recvs (conn_in c) (sv_stats sv)) as Hw.
  destruct (recv_loop _ _ _ _) as [[go input] st]. cbn in Hw.
  assert (keeps_links sv (with_sv_stats st (with_conns (<[fd := set_in input c]> (conns_ sv)) sv))) as K1.
  { etrans; [|apply stats_keeps]. apply (update_conn_keeps _ c); [done|]. intros [? ?]. by split; [apply Hw|]. }
  destruct go; cbn [negb]; [|by intros [= <- <-]].
  intros ([[n rest] sv1] & [K2 Hr]%on_data_keeps & H)%bind_Ret. intros Hok.
  assert (buf_wf input) as Hin by (apply Hw, (Hok fd c Ec)).
  destruct (conns_ sv1 !! fd) as [c1|] eqn:Ec1; [|done].
  cut (keeps_links sv sv'); [intros K; exact (K Hok)|]. etrans; [exact K1|]. etrans; [exact K2|].
  assert (keeps_links sv1 (with_sv_stats (count_commands n (sv_stats sv1))
    (with_conns (<[fd := set_in rest c1]> (conns_ sv1)) sv1))) as K3.
  { etrans; [|apply stats_keeps]. apply (update_conn_keeps _ c1); [done|]. intros [? ?]. by split; [apply Hr|]. }
  etrans; [exact K3|]. destruct (_ <? _).
  - injection H as <- <-. by apply keeps_links_same.
  - injection H as H. pose proof (handle_write_keeps fd sends
      (with_sv_stats (count_commands n (sv_stats sv1))
        (with_conns (<[fd := set_in rest c1]> (conns_ sv1)) sv1))) as K4.
    by rewrite H in K4.
Qed.

Lemma handle_event_inv e dead sv dead' sv' :
  handle_event e dead sv = Ret (dead', sv') → poll_inv sv → poll_inv sv'.
Proof.
  destruct e as [accepts|fd hangup rd wr]; cbn [handle_event].
  { intros [= <- <-]. apply accept_ready_inv. }
  destruct hangup; [by intros [= <- <-]|]. intros ([alive sv1] & H1 & H)%bind_Ret Hi.
  assert (poll_inv sv1) as Hi1.
  { destruct rd as [[recvs sends]|]; [|by injection H1 as <- <-].
    by eapply poll_inv_keeps; [eapply handle_read_keeps|]. }
  destruct alive; cbn [negb] in H; [|by injection H as <- <-].
  destruct wr as [sends|]; [|by injection H as <- <-].
  pose proof (handle_write_keeps fd sends sv1) as K. destruct (handle_write fd sends sv1) as [b sv2].
  injection H as <- <-. by eapply poll_inv_keeps.
Qed.

Lemma sweep_inv events dead sv dead' sv' :
  sweep events dead sv = Ret (dead', sv') → poll_inv sv → poll_inv sv'.
Proof.
  revert dead sv. induction events as [|e events IH]; intros dead sv H Hi; cbn [sweep] in H.
  { by injection H as <- <-. }
  apply bind_Ret in H as ([dead1 sv1] & H1 & H). eapply IH; [done|]. by eapply handle_event_inv.
Qed.

Lemma drop_conn_inv fd sv sv' : drop_conn fd sv = Ret sv' → poll_inv sv → poll_inv sv'.
Proof.
  unfold drop_conn. destruct (conns_ sv !! fd) as [c|]; [|by intros [= <-]].
  cbn. intros [= <-] [Hok Hl]. split.
  - intros l c'. cbn. intros [_ ?]%lookup_delete_Some. by eapply Hok.
  - apply Forall_forall. intros l Hin. unfold links in Hin. cbn in Hin.
    apply (links_remove (Some fd)) in Hin as [Hin Hne].
    cbn. rewrite dom_delete_L. apply elem_of_difference. split; [by apply (proj1 (Forall_forall _ _) Hl)|].
    rewrite elem_of_singleton. congruence.
Qed.

Lemma drop_all_inv dead sv sv' : drop_all dead sv = Ret sv' → poll_inv sv → poll_inv sv'.
Proof.
  revert sv. induction dead as [|fd dead IH]; intros sv H Hi; cbn [drop_all] in H; [by injection H as <-|].
  apply bind_Ret in H as (sv1 & H1 & H). eapply IH; [done|]. by eapply drop_conn_inv.
Qed.

Lemma poll_round_inv poll now sv b sv' :
  poll_round poll now sv = Ret (b, sv') → poll_inv sv → poll_inv sv'.
Proof.
  unfold poll_round, drain_posted, run_cron_if_due. intros (sv1 & H1%run_tasks_keeps & H)%bind_Ret Hi.
  apply bind_Ret in H as (sv2 & H2 & H).
  assert (poll_inv sv2) as Hi2.
  { apply (poll_inv_keeps sv1); [|apply (poll_inv_keeps (with_loop [] (last_cron_ sv) sv)); [done|]].
    - destruct (_ <? _); [by injection H2 as <-|]. etrans; [|exact (server_cron_keeps _ _ H2)].
      by apply keeps_links_same.
    - eapply poll_inv_keeps; [|exact Hi]. by apply keeps_links_same. }
  destruct (poll (interest sv)) as [events| |]; [|by injection H as <- <-..].
  apply bind_Ret in H as ([dead sv3] & H3 & H). apply bind_Ret in H as (sv4 & H4 & [= <- <-]).
  eapply drop_all_inv; [done|]. by eapply sweep_inv.
Qed.

(** The program with this backend: turns of the loop, interleaved with the
    replication thread and the background saver. *)
Inductive poll_reachable : Server Conn → Prop :=
| poll_start sv : conns_ sv = ∅ → replicas_ (sv_repl sv) = [] → poll_reachable sv
| poll_turn poll now sv b sv' :
    poll_reachable sv → poll_round poll now sv = Ret (b, sv') → poll_reachable sv'
| poll_link_thread e sv : poll_reachable sv → poll_reachable (link_effect_step e sv)
| poll_saver sv :
    poll_reachable sv → poll_reachable (with_sv_persist (saver_step (sv_persist sv)) sv).

Lemma poll_reachable_inv sv : poll_reachable sv → poll_inv sv.
Proof.
  induction 1 as [sv Hc Hr|poll now sv b sv' _ IH H|e sv _ IH|sv _ IH].
  - split; [unfold conns_ok; rewrite Hc; apply map_Forall_empty|].
    unfold links_live, links. rewrite Hr. constructor.
  - by eapply poll_round_inv.
  - eapply poll_inv_keeps; [|exact IH]. apply link_effect_keeps.
  - eapply poll_inv_keeps; [|exact IH]. by apply keeps_links_same.
Qed.

(** With live links, nothing stops the loop of [propagate]. *)
Lemma send_to_all_total all todo enc sv :
  poll_inv sv → link <$> replicas_ (sv_repl sv) = link <$> all → (∀ rep, rep ∈ todo → rep ∈ all) →
  ∃ sv', send_to_all all todo enc sv = Ret sv'.
Proof.
  revert sv. induction todo as [|rep todo IH]; intros sv Hi Hall Hin; [by eexists|].
  assert (link rep ∈ dom (conns_ sv)) as [c Hc]%elem_of_dom.
  { destruct Hi as [_ Hl]. apply (proj1 (Forall_forall _ _) Hl). unfold links. rewrite Hall.
    apply list_elem_of_fmap_2, Hin. by left. }
  cbn [send_to_all link_send server_repl conn_send poll_backend].
  destruct (poll_send (link rep) enc sv) as [sv1| |] eqn:E; [|unfold poll_send in E; by rewrite Hc in E..].
  cbn [mbind outcome_bind]. assert (sv_repl sv1 = sv_repl sv) as Er.
  { unfold poll_send in E. rewrite Hc in E. by injection E as <-. }
  rewrite bool_decide_true by (cbn; by rewrite Er). apply IH.
  - eapply poll_inv_keeps; [|exact Hi]. apply (conn_send_keeps (B:=poll_backend) (link rep) enc). exact E.
  - by rewrite Er.
  - intros rep' ?. apply Hin. by right.
Qed.

(** C19: the master never writes through a dangling pointer.  In every state
    the poll server can reach, with its threads, a write can be propagated
    whenever the offset has room for it; each connection then has the encoded
    command at the end of its output, once for each time it is registered as a
    replica, and nothing else changes. *)
Theorem poll_propagate_defined sv args :
  poll_reachable sv → in_int64 (master_offset_ (sv_repl sv) + size (encode args)) = true →
  ∃ sv', propagate_hook args sv = Ret sv' ∧ store_of sv' = store_of sv ∧
    replicas_ (sv_repl sv') = replicas_ (sv_repl sv) ∧
    master_offset_ (sv_repl sv') = master_offset_ (sv_repl sv) + size (encode args) ∧
    ∀ l, out_of l sv' =
      (λ q, q ++ mjoin (replicate (registered l (sv_repl sv)) (encode args))) <$> out_of l sv.
Proof.
  intros Hi%poll_reachable_inv Ho. unfold propagate_hook.
  set (sv0 := with_sv_persist (on_write args (sv_persist sv)) sv).
  assert (poll_inv sv0) as Hi0 by (eapply poll_inv_keeps; [|exact Hi]; by apply keeps_links_same).
  assert (∃ sv', repl_propagate args sv0 = Ret sv') as [sv' H].
  { unfold repl_propagate, add64, checked64.
    change (master_offset_ (repl_of sv0)) with (master_offset_ (sv_repl sv)). rewrite Ho.
    cbn [mbind outcome_bind].
    apply send_to_all_total; [|done..]. eapply poll_inv_keeps; [|exact Hi0]. by apply keeps_links_same. }
  destruct (propagate_out _ _ _ H (proj1 Hi0)) as (_ & Hs & Hoff & _ & Hr & _ & Hout).
  exists sv'. by split_and!.
Qed.

(** What the calls to [send] take of a queue, and how it ends: the queue is
    empty, the socket is full, or the connection is broken. *)
Inductive send_end := SendEmpty | SendFull | SendBroken.

Fixpoint taken (sends : list send_result) (q : bytes) : bytes * send_end :=
  match q with
  | [] => ([], SendEmpty)
  | _ :: _ =>
      match sends with
      | [] | SendAgain :: _ => ([], SendFull)
      | SendInterrupted :: sends => taken sends q
      | SendFailed :: _ => ([], SendBroken)
      | Sent n :: sends =>
          if Nat.eqb n 0 then ([], SendBroken)
          else let '(x, e) := taken sends (drop n q) in (take n q ++ x, e)
      end
  end.

(** The counter of the bytes that were sent. *)
Definition count_sent (x : bytes) (st : Stats) : Stats :=
  match x with [] => st | _ :: _ => count_written (length x) st end.

Lemma count_sent_app x y st : x ≠ [] → count_sent y (count_sent x st) = count_sent (x ++ y) st.
Proof.
  intros Hx. destruct x as [|c x]; [done|]. destruct y as [|c' y]; [by rewrite app_nil_r|].
  cbn [count_sent app]. unfold count_written. cbn. f_equal. unfold wrap64. rewrite Zplus_mod_idemp_l.
  f_equal. rewrite length_app. cbn. lia.
Qed.

Lemma handle_write_spec fd sends sv c b sv' :
  conns_ sv !! fd = Some c → client_wf c → handle_write fd sends sv = (b, sv') →
  let '(x, e) := taken sends (readable (conn_out c)) in
  same_but_conn fd sv sv' ∧ sv_stats sv' = count_sent x (sv_stats sv) ∧
  (∃ out, conns_ sv' !! fd = Some (set_out out c) ∧ readable (conn_out c) = x ++ readable out) ∧
  b = match e with SendEmpty => negb (close_after_flush c) | SendFull => true | SendBroken => false end.
Proof.
  revert sv c. induction sends as [|r sends IH]; intros sv c Hc Hw H;
    (assert (∃ out, conns_ sv !! fd = Some (set_out out c) ∧ readable (conn_out c) = readable out) as Hsame
      by (exists (conn_out c); split; [rewrite Hc; by destruct c|done]));
    cbn [handle_write] in H; rewrite Hc in H; destruct (buf_is_empty (conn_out c)) eqn:Ee;
    try (rewrite (buf_is_empty_true _ Ee) in *; injection H as <- <-; cbn [taken]; by split_and!);
    (assert (readable (conn_out c) ≠ []) as Hne
      by (intros E; unfold buf_is_empty in Ee; by rewrite buf_size_readable, E in Ee));
    destruct (readable (conn_out c)) as [|c0 q] eqn:Eq; try done; cbn [taken].
  - injection H as <- <-. by split_and!.
  - destruct r as [n| | |]; try (injection H as <- <-; by split_and!).
    2: { specialize (IH sv c Hc Hw H). by rewrite Eq in IH. }
    rewrite buf_size_readable, Eq in H. destruct n as [|n]; [injection H as <- <-; by split_and!|].
    set (k := Nat.min (S n) (length (c0 :: q))) in H. cbn [Nat.eqb].
    assert (take k (c0 :: q) = take (S n) (c0 :: q) ∧ drop k (c0 :: q) = drop (S n) (c0 :: q) ∧ (0 < k)%nat ∧
      k = length (take (S n) (c0 :: q))) as (Et & Ed & Hk & Hlen).
    { unfold k. rewrite length_take. split_and!; [|..|cbn; lia|done].
      - destruct (Nat.min_spec (S n) (length (c0 :: q))) as [[? ->]|[? ->]]; [done|].
        by rewrite firstn_all, take_ge.
      - destruct (Nat.min_spec (S n) (length (c0 :: q))) as [[? ->]|[? ->]]; [done|].
        by rewrite !drop_ge. }
    destruct (Nat.eqb_spec k 0) as [|_]; [lia|].
    apply (IH _ (set_out (consume (conn_out c) k) c)) in H;
      [|cbn; apply lookup_insert_eq|destruct Hw; split; [done|by apply consume_wf]].
    cbn [conn_out set_out] in H. rewrite readable_consume, Eq, Ed in H by apply Hw.
    destruct (taken sends (drop (S n) (c0 :: q))) as [x e].
    destruct H as (Hsb & Hst & (out & Hout & Hrest) & Hb). split_and!; [| | |done].
    + etrans; [|exact Hsb]. apply same_but_insert.
    + rewrite Hst, <- count_sent_app by done. f_equal. cbn [sv_stats with_sv_stats].
      rewrite Hlen. by destruct (take (S n) (c0 :: q)).
    + exists out. split; [exact Hout|]. by rewrite <- app_assoc, <- Hrest, take_drop.
Qed.

(** C24: output is a queue.  [handle_write] hands to the kernel exactly the
    bytes that the calls to [send] take from the front of what the connection
    had queued, and counts them; what they do not take stays queued in its
    order.  Nothing else of the connection, no other connection, and neither the
    store nor the log nor replication is touched.  The connection is kept when
    the socket is full, and when the queue is empty and it is not to be closed
    then. *)
Theorem handle_write_fifo fd sends sv c b sv' :
  conns_ sv !! fd = Some c → client_wf c → handle_write fd sends sv = (b, sv') →
  let '(x, e) := taken sends (readable (conn_out c)) in
  same_but_conn fd sv sv' ∧ sv_stats sv' = count_sent x (sv_stats sv) ∧
  (∃ out, conns_ sv' !! fd = Some (set_out out c) ∧ readable (conn_out c) = x ++ readable out) ∧
  b = match e with SendEmpty => negb (close_after_flush c) | SendFull => true | SendBroken => false end.
Proof. apply handle_write_spec. Qed.

(** A client that closes its end behind a full chunk loses its last
    requests.  When a read fills the buffer of [handle_read] the loop reads
    again, and the end of the stream that it then meets makes it give up
    without looking at what it has received: nothing is executed, and the
    connection is dropped. *)
Theorem full_chunk_close_drops fd data sends sv c :
  conns_ sv !! fd = Some c → length data = read_chunk (cfg_ sv) → data ≠ [] →
  ∃ sv', handle_read fd [RecvData data; RecvData []] sends sv = Ret (false, sv') ∧
    store_of sv' = store_of sv ∧ sv_persist sv' = sv_persist sv ∧ sv_repl sv' = sv_repl sv ∧
    commands_processed (sv_stats sv') = commands_processed (sv_stats sv) ∧
    conns_ sv' !! fd = Some (set_in (buf_append (conn_in c) data) c).
Proof.
  intros Hc Hlen Hne. unfold handle_read. rewrite Hc. cbn [recv_loop].
  rewrite take_ge, Hlen, Nat.ltb_irrefl by lia. destruct (Nat.eqb_spec (read_chunk (cfg_ sv)) 0) as [E|_].
  { rewrite E in Hlen. by apply nil_length_inv in Hlen. }
  rewrite take_nil. cbn. eexists. split_and!; [done|done..|]. cbn. apply lookup_insert_eq.
Qed.

(** ** Opening and closing *)

(** The constructor and the destructor undo each other, and the socket that is
    listened on does not block.  A constructor that throws after [socket] leaves
    the descriptor open: the destructor of an object whose constructor has
    thrown does not run. *)
Lemma poll_open_descriptors sys cfg (fds : gmap Link Z) r fds' :
  poll_open sys cfg fds = (r, fds') → (∀ fd, sys_socket sys = Some fd → fds !! fd = None) →
  match r with
  | inr l => poll_destroy l fds' = fds ∧ ∃ flags, fds' !! listen_fd_ l = Some flags ∧ Z.testbit flags 11 = true
  | inl _ =>
      match sys_socket sys with
      | None => fds' = fds
      | Some fd => fds' = <[fd := 2]> fds ∧ fds' ≠ fds
      end
  end.
Proof.
  unfold poll_open. intros H Hfd. destruct (sys_socket sys) as [fd|]; [|by injection H as <- <-].
  specialize (Hfd fd eq_refl). assert (<[fd := 2]> fds ≠ fds) as Hne.
  { intros E. by rewrite <- E, lookup_insert_eq in Hfd. }
  destruct (negb _); [by injection H as <- <-|]. destruct (negb _); [by injection H as <- <-|].
  destruct (negb _); injection H as <- <-; [done|]. unfold set_nonblocking, poll_destroy. cbn [listen_fd_].
  rewrite lookup_insert_eq, !insert_insert_eq. split; [by rewrite delete_insert_id|]. eexists. by rewrite lookup_insert_eq.
Qed.

(** ** Reading *)

(** What the calls to [recv] deliver: the bytes until the first short chunk,
    and whether the peer is still there. *)
Fixpoint received (chunk : nat) (recvs : list recv_result) : bytes :=
  match recvs with
  | RecvData data :: recvs =>
      if Nat.eqb (length (take chunk data)) 0 then []
      else if Nat.ltb (length (take chunk data)) chunk then take chunk data
      else take chunk data ++ received chunk recvs
  | RecvInterrupted :: recvs => received chunk recvs
  | _ => []
  end.

Fixpoint peer_there (chunk : nat) (recvs : list recv_result) : bool :=
  match recvs with
  | RecvData data :: recvs =>
      if Nat.eqb (length (take chunk data)) 0 then false
      else if Nat.ltb (length (take chunk data)) chunk then true
      else peer_there chunk recvs
  | RecvInterrupted :: recvs => peer_there chunk recvs
  | RecvFailed :: _ => false
  | _ => true
  end.

(** The counter of the bytes that were received. *)
Definition count_received (x : bytes) (st : Stats) : Stats :=
  match x with [] => st | _ :: _ => count_read (length x) st end.

Lemma count_received_app x y st : x ≠ [] → count_received y (count_read (length x) st) = count_received (x ++ y) st.
Proof.
  intros Hx. destruct x as [|c x]; [done|]. destruct y as [|c' y]; [by rewrite app_nil_r|].
  cbn [count_received app]. unfold count_read. cbn. f_equal. unfold wrap64. rewrite Zplus_mod_idemp_l.
  f_equal. rewrite length_app. cbn. lia.
Qed.

Lemma recv_loop_spec chunk recvs input st :
  buf_wf input →
  let '(go, input', st') := recv_loop chunk recvs input st in
  go = peer_there chunk recvs ∧ buf_wf input' ∧ readable input' = readable input ++ received chunk recvs ∧
  st' = count_received (received chunk recvs) st.
Proof.
  revert input st. induction recvs as [|[data| | |] recvs IH]; intros input st Hw; cbn [recv_loop received peer_there];
    try (by rewrite app_nil_r).
  - destruct (Nat.eqb_spec (length (take chunk data)) 0) as [E|Hne]; [by rewrite app_nil_r|].
    pose proof (readable_append input (take chunk data) Hw) as Ha.
    pose proof (buf_append_wf input (take chunk data) Hw) as Hw'.
    assert (take chunk data ≠ []) as Hnil by (intros E; by rewrite E in Hne).
    destruct (Nat.ltb _ _).
    { split_and!; try done. by destruct (take chunk data). }
    specialize (IH _ (count_read (length (take chunk data)) st) Hw'). destruct (recv_loop _ _ _ _) as [[go input'] st'].
    destruct IH as (? & ? & Hr & ->). split_and!; try done; [by rewrite Hr, Ha, <- app_assoc|by apply count_received_app].
  - by apply IH.
Qed.

(** The server when what was received is in the connection's buffer. *)
Definition with_received (fd : Link) (x : bytes) (b : Buffer) (c : Conn) sv : Server Conn :=
  with_sv_stats (count_received x (sv_stats sv)) (with_conns (<[fd := set_in b c]> (conns_ sv)) sv).

(** C21: a readable connection is served.  What [recv] delivers is appended to
    the connection's input and counted.  If the peer is still there, the
    requests framed by that input are executed from this very state, in their
    order and each once, and counted; the bytes of an incomplete one stay in
    the input.  Of the output, replies included, the calls to [send] take a
    part from the front and the rest stays queued, unless it is over the limit:
    then nothing is sent and the connection is given up.  Apart from that the
    server is as the requests have left it.  If the peer is gone, nothing is
    executed and the connection is given up. *)
Theorem handle_read_requests fd recvs sends sv c alive sv' :
  conns_ sv !! fd = Some c → conns_ok sv → handle_read fd recvs sends sv = Ret (alive, sv') →
  let x := received (read_chunk (cfg_ sv)) recvs in
  ∃ b, readable b = readable (conn_in c) ++ x ∧
  if peer_there (read_chunk (cfg_ sv)) recvs then
    ∃ n rest sv1 c1 c',
      answers fd (readable b) (readable rest) n (with_received fd x b c sv) sv1 ∧
      conns_ sv1 !! fd = Some c1 ∧ conns_ sv' !! fd = Some c' ∧ same_but_conn fd sv1 sv' ∧
      conn_in c' = rest ∧ close_after_flush c' = close_after_flush c1 ∧
      let queued := readable (conn_out c1) in
      let counted := count_commands n (sv_stats sv1) in
      if max_output_buffer (cfg_ sv1) <? size queued then
        alive = false ∧ conn_out c' = conn_out c1 ∧ sv_stats sv' = count_overflow counted
      else
        let '(y, e) := taken sends queued in
        queued = y ++ readable (conn_out c') ∧ sv_stats sv' = count_sent y counted ∧
        alive = match e with SendEmpty => negb (close_after_flush c1) | SendFull => true | SendBroken => false end
  else alive = false ∧ sv' = with_received fd x b c sv.
Proof.
  intros Hc Hok H. unfold handle_read in H. rewrite Hc in H. cbn zeta. destruct (Hok fd c Hc) as [Hin Hout].
  pose proof (recv_loop_spec (read_chunk (cfg_ sv)) recvs (conn_in c) (sv_stats sv) Hin) as Hr.
  destruct (recv_loop _ _ _ _) as [[go input] st]. destruct Hr as (<- & Hw & Hrd & ->).
  fold (with_received fd (received (read_chunk (cfg_ sv)) recvs) input c sv) in H.
  exists input. split; [done|]. destruct go; cbn [negb] in H; [|by injection H as <- <-].
  apply bind_Ret in H as ([[n rest] sv1] & Hd & H). destruct (conns_ sv1 !! fd) as [c1|] eqn:E1; [|done].
  destruct (on_data_answers _ _ _ _ _ _ Hd Hw) as [Ha Hrest].
  assert (client_wf c1) as [Hin1 Hout1].
  { apply on_data_keeps in Hd as [K _]. refine (proj1 (K _) fd c1 E1).
    apply map_Forall_insert_2; [by split|done]. }
  set (sv2 := with_sv_stats _ (with_conns _ sv1)) in H.
  assert (conns_ sv2 !! fd = Some (set_in rest c1)) as E2 by apply lookup_insert_eq.
  exists n, rest, sv1, c1. rewrite buf_size_readable in H. fold (size (readable (conn_out c1))) in H.
  change (max_output_buffer (cfg_ sv2)) with (max_output_buffer (cfg_ sv1)) in H.
  destruct (_ <? _).
  - injection H as <- <-. exists (set_in rest c1). split_and!; try done.
    split; try done. intros l' Hl. cbn. by rewrite lookup_insert_ne.
  - injection H as H. pose proof (handle_write_spec fd sends sv2 _ _ _ E2 ltac:(by split) H) as Hs.
    cbn [conn_out set_in close_after_flush] in Hs. destruct (taken _ _) as [y e].
    destruct Hs as (Hsb & Hst & (out & Ho & Hq) & Hb). exists (set_out out (set_in rest c1)).
    split_and!; try done. etrans; [|exact Hsb]. apply same_but_insert.
Qed.

End Poll.

(** ** Witnesses *)

Section Witnesses.
#[local] Existing Instance gmap_table.

Definition empty_server : Server Conn :=
  mkServer default_ServerConfig (new_store ten) zero_stats (mkUptime None ten 0) (fresh good_io)
    (new_replication (bs "8a3f") (λ _, [])) ∅ [] 0.

(** A replica connects and shakes hands, in two turns of the loop. *)
Definition turn (events : list poll_event) (sv : Server Conn) : bool * Server Conn :=
  ret_or (true, sv) (poll_round (λ _ _, PollReady events) 0 sv).

Definition replica_connects : list poll_event := [EventListen [AcceptConn 7%nat (bs "10.0.0.1") 5000]].
Definition replica_shakes : list poll_event :=
  [EventConn 7%nat false
    (Some ([RecvData (encode_all [[bs "PING"]; [bs "PSYNC"; bs "?"; bs "-1"]])], [Sent 20])) None].

Definition with_replica : Server Conn := (turn replica_shakes (turn replica_connects empty_server).2).2.

Lemma turn_reachable events sv :
  poll_reachable sv → is_ret (poll_round (λ _ _, PollReady events) 0 sv) = true →
  poll_reachable (turn events sv).2.
Proof.
  intros Hr Hi. eapply (poll_turn (λ _ _, PollReady events) 0 sv (turn events sv).1); [done|].
  unfold turn. destruct (poll_round _ _ _) as [[b sv']| |]; done.
Qed.

Lemma with_replica_reachable : poll_reachable with_replica.
Proof.
  apply turn_reachable; [apply turn_reachable; [by apply poll_start|]|]; vm_compute; reflexivity.
Qed.

Lemma poll_propagate_defined_witness :
  links with_replica = [7%nat] ∧
  ∃ sv', propagate_hook [bs "FLUSHALL"] with_replica = Ret sv' ∧
    out_of 7%nat sv' =
      (λ q, q ++ mjoin (replicate 1 (encode [bs "FLUSHALL"]))) <$> out_of 7%nat with_replica.
Proof.
  split; [vm_compute; reflexivity|].
  destruct (poll_propagate_defined with_replica [bs "FLUSHALL"] with_replica_reachable)
    as (sv' & H & _ & _ & _ & Hout); [vm_compute; reflexivity|].
  exists sv'. split; [exact H|]. rewrite Hout.
  assert (registered 7%nat (sv_repl with_replica) = 1%nat) as -> by (vm_compute; reflexivity). reflexivity.
Defined.

Definition full_client : Conn := append_out (bs "+PONG") idle_client.
Definition full_server : Server Conn := with_conns {[ 7%nat := full_client ]} empty_server.

Lemma handle_write_fifo_witness :
  ∃ out, conns_ (handle_write 7%nat [Sent 2; SendAgain] full_server).2 !! 7%nat = Some (set_out out full_client) ∧
    readable (conn_out full_client) = bs "+P" ++ readable out.
Proof.
  destruct (handle_write_fifo 7%nat [Sent 2; SendAgain] full_server full_client
    (handle_write 7%nat [Sent 2; SendAgain] full_server).1
    (handle_write 7%nat [Sent 2; SendAgain] full_server).2) as (_ & _ & Hout & _).
  - reflexivity.
  - split; apply Nat.leb_le; reflexivity.
  - reflexivity.
  - exact Hout.
Defined.

(** A server that reads six bytes at a time. *)
Definition small_chunks : Server Conn :=
  mkServer (mkServerConfig [] 6379 511 1000 6 true 100) (new_store ten) zero_stats (mkUptime None ten 0)
    (fresh good_io) (new_replication (bs "8a3f") (λ _, [])) {[ 7%nat := idle_client ]} [] 0.

Lemma full_chunk_close_drops_witness :
  ∃ sv', handle_read 7%nat [RecvData (bs "PING" ++ crlf); RecvData []] [] small_chunks = Ret (false, sv') ∧
    commands_processed (sv_stats sv') = 0.
Proof.
  destruct (full_chunk_close_drops 7%nat (bs "PING" ++ crlf) [] small_chunks idle_client)
    as (sv' & H & _ & _ & _ & Hn & _); [reflexivity|reflexivity|discriminate|].
  exists sv'. split; [exact H|exact Hn].
Defined.

Definition two_reads : list recv_result := [RecvData (bs "PING" ++ crlf); RecvData (bs "SET k")].

Definition after_two_reads : bool * Server Conn :=
  ret_or (true, small_chunks) (handle_read 7%nat two_reads [] small_chunks).

(** A full chunk with a request and a short one with a part of the next. *)
Lemma handle_read_requests_witness :
  ∃ b n rest sv1 c', readable b = bs "PING" ++ crlf ++ bs "SET k" ∧
    answers 7%nat (readable b) (readable rest) n (with_received 7%nat (readable b) b idle_client small_chunks) sv1 ∧
    conns_ after_two_reads.2 !! 7%nat = Some c' ∧ conn_in c' = rest ∧ same_but_conn 7%nat sv1 after_two_reads.2.
Proof.
  destruct (handle_read_requests 7%nat two_reads [] small_chunks idle_client after_two_reads.1 after_two_reads.2)
    as (b & Hb & n & rest & sv1 & c1 & c' & Ha & _ & Hc' & Hs & Hi & _).
  - reflexivity.
  - apply map_Forall_singleton. split; apply Nat.le_refl.
  - rewrite <- surjective_pairing. apply ret_or_eq. vm_compute. reflexivity.
  - change (readable b = bs "PING" ++ crlf ++ bs "SET k") in Hb. exists b, n, rest, sv1, c'.
    rewrite Hb in Ha |- *. split_and!; try done.
Defined.

End Witnesses.
