(* ===== verification/AsioTheorems.v ===== *)
(** * Correctness of the asio backend

    Between two handlers no session is stuck: an open one is waiting for input,
    and what it has to send is in flight or nothing.  Writes complete in the
    order they were queued, from memory that nobody has touched meanwhile.
    Closing a session from within [send], however, takes it out of the list of
    replicas that [propagate] is walking over, and a snapshot beyond the limit
    of the output buffer leaves a pointer to a session that is gone. *)

From S2P Require Import Prelude Buffer Resp UnorderedMap Store Keyspace StoreScan Stats Commands CommandSpec.
From S2P Require Import Dispatch Handler Encode Files Aof Rdb RdbFile Persistence PersistenceTheorems.
From S2P Require Import Replication ReplicationTheorems Server AsioServer Steps MasterStream ServerLinks.

(** ** Relations on the connections *)

Section ConnRel.
Context `{UM : UnorderedMap} {C : Type} {B : Backend C}.
Implicit Types (sv : Server C).

(** A relation that only looks at the connections and that writing to one
    respects. *)
Class ConnRel (R : Server C → Server C → Prop) := {
  conn_rel_preorder :: PreOrder R;
  conn_rel_same sv sv' : conns_ sv' = conns_ sv → R sv sv';
  conn_rel_send l d sv sv' : conn_send l d sv = Ret sv' → R sv sv'
}.

Context (R : Server C → Server C → Prop) {HR : ConnRel R}.

Lemma send_to_all_rel all todo enc sv sv' : send_to_all all todo enc sv = Ret sv' → R sv sv'.
Proof.
  revert sv. induction todo as [|rep todo IH]; intros sv H; cbn [send_to_all] in H.
  { by injection H as <-. }
  apply bind_Ret in H as (sv1 & H1%conn_rel_send & H).
  case_bool_decide; [|done]. etrans; [exact H1|by apply IH].
Qed.

Lemma propagate_hook_rel args sv sv' : propagate_hook args sv = Ret sv' → R sv sv'.
Proof.
  unfold propagate_hook, repl_propagate. intros (o & _ & H%send_to_all_rel)%bind_Ret.
  etrans; [|exact H]. by apply conn_rel_same.
Qed.

Lemma start_full_resync_rel lnk sv sv' : repl_start_full_resync lnk sv = Ret sv' → R sv sv'.
Proof.
  unfold repl_start_full_resync. destruct lnk as [l|]; [|by intros [= <-]].
  cbn [link_send server_repl]. intros (sv1 & H1%conn_rel_send & H)%bind_Ret.
  destruct (snapshot (store_of sv1)) as [recs s].
  apply bind_Ret in H as (sv2 & H2%conn_rel_send & H). apply bind_Ret in H as (sv3 & H3%conn_rel_send & H).
  apply bind_Ret in H as (peer & _ & [= <-]). etrans; [exact H1|].
  etrans; [by apply (conn_rel_same sv1 (with_store s sv1))|]. etrans; [exact H2|]. etrans; [exact H3|].
  by apply conn_rel_same.
Qed.

Lemma stop_replication_conns sv sv' : repl_stop_replication sv = Ret sv' → conns_ sv' = conns_ sv.
Proof.
  unfold repl_stop_replication. intros [= <-]. cbn.
  destruct (link_thread_ _); [by edestruct link_effects_master as (-> & _)|done].
Qed.

Lemma dispatch_rel lnk args sv r sv' : dispatch server_table args lnk sv = Ret (r, sv') → R sv sv'.
Proof.
  apply (dispatch_respects server_table R). split.
  - done.
  - intros s w. by apply conn_rel_same.
  - intros s w. cbn. rewrite server_info_uptime. by apply conn_rel_same.
  - intros ops w r' w' [= <-] H. cbn in H. unfold on_persist in H.
    destruct H as [H|[H|H]]; repeat case_match; simplify_eq; by apply conn_rel_same.
  - intros ops h n w r' w' [= <-] [_ H]. cbn in H. unfold repl_replicaof in H.
    destruct (negb _); [by simplify_eq|].
    apply bind_Ret in H as (w1 & H1%stop_replication_conns & [= <- <-]). by apply conn_rel_same.
  - intros ops n w w' [= <-] [H|[[_ H]|[[_ H]|H]]].
    + exact (start_full_resync_rel _ _ _ H).
    + apply conn_rel_same. cbn in H. unfold repl_on_replica_ack in H.
      destruct (ack_replicas_links lnk n (replicas_ (sv_repl w)) [] w) as (_ & Hc & _).
      cbn in H. destruct (ack_replicas _ _ _ _ _). by simplify_eq.
    + injection H as <-. by apply conn_rel_same.
    + apply conn_rel_same. exact (stop_replication_conns _ _ H).
Qed.

Lemma run_task_rel t sv sv' : run_task server_table t sv = Ret sv' → R sv sv'.
Proof.
  destruct t as [records|args]; cbn [run_task].
  - intros [= <-]. by apply conn_rel_same.
  - unfold apply_silently. destruct (dispatch _ _ _ _) as [[r sv1]| |] eqn:E; [|done..].
    intros [= <-]. by eapply dispatch_rel.
Qed.

Lemma server_cron_rel sv sv' : server_cron sv = Ret sv' → R sv sv'.
Proof.
  unfold server_cron. destruct (active_expire_cycle _ _) as [n s].
  intros ([s' p] & _ & [= <-])%bind_Ret. by apply conn_rel_same.
Qed.

Lemma on_data_rel l input sv n rest sv' :
  (∀ d sv, R sv (reply_to l d sv)) →
  on_data (server_handler l) (Some l) input sv = Ret (n, rest, sv') → R sv sv'.
Proof.
  intros Hreply. unfold on_data. generalize (drain_fuel input) 0%nat. intros fuel. revert input sv.
  induction fuel as [|fuel IH]; intros input sv k H; [done|]. cbn [on_data_loop] in H.
  destruct (status _).
  - destruct (args (parse_request (readable input))); [by eapply IH|].
    apply bind_Ret in H as (sv1 & H1 & H). etrans; [|by eapply IH].
    unfold execute in H1. apply bind_Ret in H1 as ([r sv2] & H2%dispatch_rel & H1).
    etrans; [exact H2|]. etrans; [apply (Hreply (result_reply r))|].
    cbn in H1. destruct (dirty r); [by eapply propagate_hook_rel|by injection H1 as <-].
  - by injection H as <- <- <-.
  - injection H as <- <- <-. apply Hreply.
Qed.

End ConnRel.

(** ** Sessions *)

(** An open session waits for input, and what it has to send is in flight. *)
Definition session_ready (s : Session) : Prop :=
  session_wf s ∧ (reading_ s = true ∨ is_Some (writing_ s)) ∧
  (closed_ s = false → reading_ s = true ∧ (writing_ s = None → to_send s = Some [])).

Lemma flush_idle s : session_wf s → closed_ s = false → writing_ (flush s) = None → to_send (flush s) = Some [].
Proof.
  intros Hwf Hc. unfold flush. destruct (writing_ s) as [x|] eqn:Ew; [congruence|].
  set (s1 := if buf_is_empty (pending_ s) then s else _).
  assert (closed_ s1 = false ∧ readable (pending_ s1) = []) as [Hc1 Hp].
  { unfold s1. destruct (buf_is_empty (pending_ s)) eqn:Ep; [|done]. split; [done|].
    by apply buf_is_empty_true. }
  destruct (buf_is_empty (out_ s1)) eqn:Eo; [|done]. intros _. unfold to_send.
  by rewrite Hc1, (buf_is_empty_true _ Eo), Hp.
Qed.

Lemma flush_reading s : reading_ (flush s) = reading_ s.
Proof. unfold flush. by repeat case_match. Qed.

Section Asio.
Context `{UM : UnorderedMap}.
Implicit Types (sv : Server Session) (l : Link).

(** All sessions but the one whose handler is running. *)
Definition ready_but (l : option Link) sv : Prop :=
  conns_ok sv ∧ ∀ l' s, Some l' ≠ l → conns_ sv !! l' = Some s → session_ready s.

Definition keeps_ready (l : option Link) sv sv' : Prop := ready_but l sv → ready_but l sv'.

Lemma ready_insert (l : option Link) l' s sv sv' :
  conns_ sv' = <[l' := s]> (conns_ sv) → session_wf s → (Some l' ≠ l → session_ready s) →
  keeps_ready l sv sv'.
Proof.
  intros E Hwf Hs [Hok Hr]. split.
  - unfold conns_ok. rewrite E. by apply map_Forall_insert_2.
  - intros l1 s1 Hne. rewrite E. intros [[<- <-]|[_ H]]%lookup_insert_Some; [auto|by eapply Hr].
Qed.

#[global] Instance keeps_ready_rel (l : option Link) : ConnRel (keeps_ready l).
Proof.
  split.
  - split; [intros sv H; exact H|]. intros x y z H1 H2 H. exact (H2 (H1 H)).
  - intros sv sv' E [Hok Hr]. split; [by eapply conns_ok_same|]. rewrite E. done.
  - intros l' d sv sv' H Hready. pose proof Hready as [Hok Hr]. revert Hready. change (keeps_ready l sv sv').
    cbn in H. unfold asio_send in H. destruct (conns_ sv !! l') as [s|] eqn:El; [|done].
    destruct (closed_ s) eqn:Ec; [by injection H as <-|].
    assert (session_wf s) as Hwf by exact (Hok l' s El).
    pose proof (append_pending_wf d s Hwf) as Hwf1.
    destruct (over_limit _ _).
    + injection H as <-. unfold do_close. cbn [append_pending set_output closed_]. rewrite Ec.
      eapply (ready_insert l l' (set_closed (append_pending d s))); [done|done|]. intros Hne.
      destruct (Hr l' s Hne El) as (_ & Hout & _). split; [done|split; [done|done]].
    + injection H as <-. destruct (flush_spec _ Hwf1) as (Hf & _ & Hcf).
      eapply (ready_insert l l' (flush (append_pending d s))); [done|done|]. intros Hne.
      destruct (Hr l' s Hne El) as (_ & _ & Hopen). destruct (Hopen Ec) as [Hread _].
      split; [done|]. split; [left|]; [by rewrite flush_reading|].
      intros _. split; [by rewrite flush_reading|]. by apply flush_idle.
Qed.

Lemma reply_to_ready l d sv : keeps_ready (Some l) sv (reply_to l d sv).
Proof.
  intros [Hok Hr]. split; [by apply reply_to_ok|]. intros l' s Hne. cbn.
  rewrite lookup_alter_ne by congruence. by apply Hr.
Qed.

(** A handler that leaves a session it owns. *)
Lemma release_ready l s sv :
  ready_but (Some l) sv → session_wf s → closed_ s = true →
  ready_but None (release l (put_session l s sv)).
Proof.
  intros [Hok Hr] Hwf Hc. unfold release. cbn. rewrite lookup_insert_eq.
  assert (∀ l' s', l' ≠ l → conns_ sv !! l' = Some s' → session_ready s') as Hr'
    by (intros l' s' Hne; apply Hr; congruence).
  destruct (reading_ s || _) eqn:E.
  - split; [by apply map_Forall_insert_2|]. cbn. intros l' s' _ [[<- <-]|[Hne H]]%lookup_insert_Some.
    + split; [done|]. split; [|by rewrite Hc]. apply orb_true_iff in E as [E|E]; [by left|].
      right. by apply bool_decide_eq_true in E.
    + by eapply Hr'.
  - split.
    + intros l' s'. cbn. intros [_ H]%lookup_delete_Some. revert l' s' H. by apply map_Forall_insert_2.
    + intros l' s' _. cbn. intros [Hne H]%lookup_delete_Some. rewrite lookup_insert_ne in H by done. by eapply Hr'.
Qed.

Lemma release_reading l s sv :
  reading_ s = true → release l (put_session l s sv) = put_session l s sv.
Proof.
  intros H. unfold release, put_session. cbn [conns_ with_conns]. by rewrite lookup_insert_eq, H.
Qed.

Lemma ready_none_but l sv : ready_but None sv → ready_but (Some l) sv.
Proof. intros [Hok Hr]. split; [done|]. intros l' s _. by apply Hr. Qed.

Lemma ready_but_all l s sv sv' :
  conns_ sv' = <[l := s]> (conns_ sv) → ready_but (Some l) sv → session_ready s → ready_but None sv'.
Proof.
  intros E [Hok Hr] Hs. split.
  - unfold conns_ok. rewrite E. apply map_Forall_insert_2; [apply Hs|done].
  - intros l' s' _. rewrite E. intros [[<- <-]|[Hne H]]%lookup_insert_Some; [done|].
    eapply Hr; [|done]. congruence.
Qed.

(** [do_close] on a session that is not in the table, up to the counters and
    the replicas. *)
Lemma do_close_put l s sv :
  ∃ s' st r, do_close l s sv = put_session l s' (with_sv_stats st (with_sv_repl r sv)) ∧
    closed_ s' = true ∧ (session_wf s → session_wf s').
Proof.
  unfold do_close. destruct (closed_ s) eqn:E.
  - exists s, (sv_stats sv), (sv_repl sv). by split_and!.
  - eexists (set_closed s), _, _. by split_and!.
Qed.

Lemma close_ready l s sv :
  ready_but (Some l) sv → session_wf s → ready_but None (release l (do_close l s sv)).
Proof.
  intros Hr Hwf. destruct (do_close_put l s sv) as (s' & st & r & -> & Hc & Hw).
  apply release_ready; [|by apply Hw|done]. exact (conn_rel_same (R:=keeps_ready (Some l)) sv _ eq_refl Hr).
Qed.

Lemma read_done_ready l result sv sv' :
  read_done l result sv = Ret sv' → ready_but None sv → ready_but None sv'.
Proof.
  unfold read_done. intros H Hr. destruct (conns_ sv !! l) as [s|] eqn:El; [|by injection H as <-].
  destruct (reading_ s); cbn [negb] in H; [|by injection H as <-].
  pose proof Hr as [Hok Hall]. destruct (Hok l s El) as (Hin & Hout & Hpend & Hfl).
  apply ready_none_but with (l := l) in Hr. destruct result as [data|].
  2: { injection H as <-. apply close_ready; [done|]. by split_and!. }
  set (input := buf_append _ _) in H. assert (buf_wf input) as Hinput by (by apply buf_append_wf).
  apply bind_Ret in H as ([[n rest] sv1] & Hd & H). pose proof (on_data_keeps _ _ _ _ _ _ Hd) as [_ Hrest].
  apply (on_data_rel (keeps_ready (Some l))) in Hd; [|apply reply_to_ready].
  assert (ready_but (Some l) sv1) as Hr1.
  { apply Hd. eapply (ready_insert (Some l) l (set_input input false s)); [done|by split_and!|done|exact Hr]. }
  destruct (conns_ sv1 !! l) as [s1|] eqn:El1; [|done].
  destruct (proj1 Hr1 l s1 El1) as (_ & Hout1 & Hpend1 & Hfl1).
  set (s2 := set_input rest false s1) in H. assert (session_wf s2) as Hwf2 by (split_and!; auto).
  destruct (over_limit _ s2).
  - injection H as <-. apply close_ready; [|done].
    exact (conn_rel_same (R:=keeps_ready (Some l)) sv1 _ eq_refl Hr1).
  - injection H as <-. destruct (flush_spec _ Hwf2) as ((Hi3 & Ho3 & Hp3 & Hf3) & Hq & Hcl).
    eapply (ready_but_all l _ sv1); [done|done|]. split; [by split_and!|]. split; [by left|].
    intros Hc. split; [done|]. intros Hw. change (to_send (flush s2) = Some []).
    apply flush_idle; [done|by rewrite <- Hcl|done].
Qed.

Lemma written_spec s x :
  session_wf s → writing_ s = Some x → session_wf (written s) ∧ closed_ (written s) = closed_ s ∧
    reading_ (written s) = reading_ s ∧ to_send s = (λ q, x ++ q) <$> to_send (written s) ∧
    (closed_ s = false → writing_ (written s) = None → to_send (written s) = Some []).
Proof.
  intros (Hi & Ho & Hp & Hf) Hw. specialize (Hf x Hw). unfold written. rewrite Hw. cbn [default].
  set (s1 := set_output _ _ _ s).
  assert (session_wf s1) as Hwf1 by (split_and!; try done; by apply consume_wf).
  destruct (flush_spec _ Hwf1) as (? & Hq & Hc). split_and!; [done|by rewrite Hc|by rewrite flush_reading| |].
  - rewrite Hq. unfold to_send. cbn. destruct (closed_ s); [done|]. cbn. f_equal.
    by rewrite readable_consume, <- Hf, drop_all.
  - intros. by apply flush_idle.
Qed.

Lemma write_done_ready l failed n sv : ready_but None sv → ready_but None (write_done l failed n sv).
Proof.
  intros Hr. unfold write_done. destruct (conns_ sv !! l) as [s|] eqn:El; [|done].
  destruct (writing_ s) as [x|] eqn:Ew; [|done]. pose proof Hr as [Hok Hall].
  pose proof (Hok l s El) as Hwf. destruct (Hall l s ltac:(done) El) as (_ & _ & Hopen).
  apply ready_none_but with (l := l) in Hr.
  assert (ready_but (Some l) (with_sv_stats (count_written n (sv_stats sv)) sv)) as Hr1
    by exact (conn_rel_same (R:=keeps_ready (Some l)) sv _ eq_refl Hr).
  destruct failed.
  - apply close_ready; [done|]. destruct Hwf as (? & ? & ? & ?). by split_and!.
  - destruct (written_spec s x Hwf Ew) as (Hwf1 & Hc & Hrd & _ & Hidle). destruct (closed_ s) eqn:Ec.
    + by apply release_ready.
    + rewrite release_reading by (by rewrite Hrd; apply Hopen).
      eapply (ready_but_all l (written s)); [done|exact Hr1|]. split; [done|].
      rewrite Hrd, (proj1 (Hopen eq_refl)). split; [by left|]. auto.
Qed.

Lemma accepted_ready l remote sv : ready_but None sv → ready_but None (accepted l remote sv).
Proof.
  intros Hr. unfold accepted. destruct (conns_ sv !! l); [done|].
  eapply (ready_but_all l); [done|by apply ready_none_but|].
  split; [split_and!; try apply Nat.le_refl; done|]. split; [by left|done].
Qed.

Lemma asio_step_ready e sv sv' : asio_step e sv = Ret sv' → ready_but None sv → ready_but None sv'.
Proof.
  destruct e; cbn [asio_step]; intros H.
  - injection H as <-. apply accepted_ready.
  - injection H as <-. exact (conn_rel_same (R:=keeps_ready None) sv _ eq_refl).
  - by eapply read_done_ready.
  - injection H as <-. apply write_done_ready.
  - exact (server_cron_rel (keeps_ready None) _ _ H).
  - unfold run_posted in H. destruct (posted_ sv) as [|t ts]; [by injection H as <-|]. intros Hr.
    apply (run_task_rel (keeps_ready None) _ _ _ H).
    exact (conn_rel_same (R:=keeps_ready None) sv _ eq_refl Hr).
Qed.





(** Whatever the loop does, all sessions stay ready. *)
Lemma loop_step_ready e lp lp' :
  loop_step e lp = Ret lp' → ready_but None (loop_server lp) → ready_but None (loop_server lp').
Proof.
  assert (∀ sv sv', conns_ sv' = conns_ sv → ready_but None sv → ready_but None sv') as Hsame.
  { intros sv sv' Hc. exact (conn_rel_same (R:=keeps_ready None) sv sv' Hc). }
  destruct e as [e| | |t]; cbn [loop_step]; intros H Hr.
  - destruct (io_stopped lp); [by injection H as <-|].
    destruct e; repeat case_match; try (by injection H as <-);
      apply bind_Ret in H as (sv & Hs & [= <-]); repeat case_match; cbn [loop_server with_server with_ops accept schedule_cron];
      by eapply asio_step_ready.
  - by repeat case_match; injection H as <-.
  - by injection H as <-.
  - injection H as <-. cbn [loop_server with_server]. eapply Hsame; [|exact Hr]. destruct t as [|l]; [done|].
    cbn [thread_effect]. case_match; [by destruct l|done].
Qed.

Lemma io_run_ready events lp lp' :
  io_run events lp = Ret lp' → ready_but None (loop_server lp) → ready_but None (loop_server lp').
Proof.
  revert lp. induction events as [|e events IH]; intros lp H Hr; cbn [io_run] in H; [by injection H as <-|].
  apply bind_Ret in H as (lp1 & H1 & H). apply (IH _ H). by eapply loop_step_ready.
Qed.

(** C20: The asio loop is never idle, and no session is ever stuck or leaked.
    After any handlers, with anything the other threads do in between: unless
    somebody has called [stop] the context goes on, with an accept and the
    cron's wait outstanding; every session has an operation outstanding; an
    open one has a read outstanding, and a write as well unless it has nothing
    to send; and the memory of a write in flight still holds the bytes the
    write was started with. *)
Theorem asio_never_idle events sv lp :
  conns_ sv = ∅ → io_run events (run_loop sv) = Ret lp →
  (CallStop ∉ events → io_stopped lp = false) ∧
  (io_stopped lp = false → accepting lp = true ∧ waiting lp = true) ∧
  ∀ l s, conns_ (loop_server lp) !! l = Some s →
    (reading_ s = true ∨ is_Some (writing_ s)) ∧
    (closed_ s = false → reading_ s = true ∧ (writing_ s = None → to_send s = Some [])) ∧
    (∀ x, writing_ s = Some x → x = readable (out_ s)).
Proof.
  intros Hc H. split_and!.
  - intros Hn. by eapply io_run_goes_on.
  - pose proof (io_run_armed _ _ _ H ltac:(done)) as Ha. unfold loop_armed in Ha. intros Hs. rewrite Hs in Ha.
    by destruct Ha as (? & ? & ?).
  - intros l s Hs. assert (ready_but None (loop_server lp)) as [Hok Hall].
    { eapply io_run_ready; [exact H|]. cbn. split; [unfold conns_ok; rewrite Hc; apply map_Forall_empty|].
      rewrite Hc. by intros. }
    destruct (Hall l s ltac:(done) Hs) as (_ & Hop & Hopen). split_and!; [done..|]. apply (Hok l s Hs).
Qed.


(** ** Closing from within [send] *)

(** A replica whose entry stops the loop of [propagate]: writing to it is
    undefined, or takes it out of the list. *)
Definition breaks_loop l (enc : bytes) (all : list Replica) sv : Prop :=
  asio_send l enc sv = Undefined ∨
  ∃ sv', asio_send l enc sv = Ret sv' ∧ links sv' ≠ link <$> all.

Lemma asio_send_other l l' d sv sv' :
  asio_send l' d sv = Ret sv' → l' ≠ l → conns_ sv' !! l = conns_ sv !! l ∧ cfg_ sv' = cfg_ sv.
Proof.
  unfold asio_send, do_close, put_session. intros H Hne. destruct (conns_ sv !! l'); [|done].
  repeat case_match; simplify_eq; cbn; by rewrite ?lookup_insert_ne.
Qed.

Lemma send_to_all_breaks l enc all todo sv :
  l ∈ link <$> todo →
  (∀ sv', conns_ sv' !! l = conns_ sv !! l → cfg_ sv' = cfg_ sv → links sv' = link <$> all ∨ sv' = sv →
     breaks_loop l enc all sv') →
  send_to_all all todo enc sv = Undefined.
Proof.
  revert sv. induction todo as [|rep todo IH]; intros sv Hin Hb; [by apply elem_of_nil in Hin|].
  cbn [send_to_all link_send server_repl conn_send asio_backend].
  destruct (decide (link rep = l)) as [<-|Hne].
  - destruct (Hb sv) as [->|(sv' & -> & Hl)]; [done..|by right|done|]. cbn [mbind outcome_bind].
    by rewrite bool_decide_false.
  - destruct (asio_send (link rep) enc sv) as [sv1| |] eqn:E; cbn [mbind outcome_bind];
      [|done|unfold asio_send in E; by repeat case_match].
    destruct (asio_send_other l _ _ _ _ E Hne) as [Hc Hcfg].
    case_bool_decide as Hl; [|done]. apply IH.
    + cbn in Hin. apply elem_of_cons in Hin as [?|?]; [congruence|done].
    + intros sv' Hc' Hcfg' Hd. apply Hb; [congruence..|]. left. destruct Hd as [?| ->]; [done|exact Hl].
Qed.

Lemma propagate_hook_breaks l args sv :
  l ∈ links sv →
  (∀ sv', conns_ sv' !! l = conns_ sv !! l → cfg_ sv' = cfg_ sv → links sv' = links sv →
     breaks_loop l (encode args) (replicas_ (sv_repl sv)) sv') →
  propagate_hook args sv = Undefined.
Proof.
  intros Hl Hb. unfold propagate_hook, repl_propagate.
  set (sv0 := with_sv_persist _ sv). change (repl_of sv0) with (sv_repl sv).
  unfold add64, checked64. destruct (in_int64 _); [|done]. cbn [mbind outcome_bind].
  set (sv1 := on_repl _ sv0). change (replicas_ (repl_of sv1)) with (replicas_ (sv_repl sv)).
  apply (send_to_all_breaks l); [done|]. intros sv' Hc Hcfg Hd. apply Hb; [done..|].
  destruct Hd as [?| ->]; done.
Qed.

(** A slow replica makes the master's behaviour undefined.  When the
    output of a registered replica would grow beyond the limit, [send] closes
    the session, which erases it from the vector of replicas while [propagate]
    iterates over it. *)
Theorem slow_replica_undefined l sv s args :
  conns_ sv !! l = Some s → closed_ s = false → session_wf s → l ∈ links sv →
  max_output_buffer (cfg_ sv) <
    Z.of_nat (buf_size (out_ s) + buf_size (pending_ s) + length (encode args)) →
  propagate_hook args sv = Undefined.
Proof.
  intros Hs Hc (_ & _ & Hp & _) Hl Hmax. apply (propagate_hook_breaks l); [done|]. intros sv' Hs' Hcfg Hlinks.
  right. unfold asio_send. rewrite Hs', Hs, Hc, Hcfg. unfold over_limit. cbn [append_pending set_output out_ pending_].
  assert (buf_size (buf_append (pending_ s) (encode args)) =
    (buf_size (pending_ s) + length (encode args))%nat) as ->.
  { rewrite !buf_size_readable, readable_append by done. by rewrite length_app. }
  rewrite Nat.add_assoc. apply Z.ltb_lt in Hmax. rewrite Hmax.
  eexists. split; [done|]. unfold do_close, links. cbn [append_pending set_output closed_]. rewrite Hc. cbn.
  change (link <$> replicas_ (remove_replica (Some l) (sv_repl sv')) ≠ links sv).
  rewrite <- Hlinks. apply remove_replica_links. by rewrite <- Hlinks in Hl.
Qed.

(** A link that is registered and has no session. *)
Lemma dangling_undefined l sv args :
  conns_ sv !! l = None → l ∈ links sv → propagate_hook args sv = Undefined.
Proof.
  intros Hs Hl. apply (propagate_hook_breaks l); [done|]. intros sv' Hs' _ _. left.
  unfold asio_send. by rewrite Hs', Hs.
Qed.

(** A session that was closed because its output is over the limit. *)
Definition shut (cfg : ServerConfig) (s : Session) : Prop :=
  closed_ s = true ∧ over_limit cfg s = true ∧ reading_ s = false.

(** A session whose handler is running after a send: open and within the
    limit, or shut. *)
Definition bounded (cfg : ServerConfig) (s : Session) : Prop :=
  reading_ s = false ∧ session_wf s ∧
  ((closed_ s = false ∧ ∃ q, to_send s = Some q) ∨ shut cfg s).

Lemma asio_send_bounded l d sv s :
  conns_ sv !! l = Some s → bounded (cfg_ sv) s →
  ∃ sv' s', asio_send l d sv = Ret sv' ∧ conns_ sv' !! l = Some s' ∧ bounded (cfg_ sv) s' ∧
    cfg_ sv' = cfg_ sv ∧ store_of sv' = store_of sv ∧
    (∀ q, to_send s' = Some q → size d ≤ size q ≤ max_output_buffer (cfg_ sv)).
Proof.
  intros Hs (Hrd & Hwf & Hcase). unfold asio_send. rewrite Hs.
  destruct Hcase as [[Hc [q Hq]]|Hshut].
  2: { pose proof Hshut as (Hc & Ho & _). rewrite Hc. exists sv, s. split_and!; try done.
       - split; [done|]. split; [done|]. by right.
       - unfold to_send. by rewrite Hc. }
  rewrite Hc. pose proof (append_pending_wf d s Hwf) as Hwf1. destruct (over_limit _ _) eqn:Eo.
  - eexists _, (set_closed (append_pending d s)). split; [done|]. unfold do_close.
    cbn [append_pending set_output closed_]. rewrite Hc. cbn. rewrite lookup_insert_eq.
    split_and!; try done. split; [done|]. split; [done|]. right. by split_and!.
  - eexists _, (flush (append_pending d s)). split; [done|]. cbn. rewrite lookup_insert_eq.
    destruct (flush_spec _ Hwf1) as (Hf & Hqf & Hcf). pose proof (append_pending_queued d s Hwf) as Hqa.
    rewrite Hq in Hqa. cbn in Hqa.
    split_and!; try done.
    + split; [by rewrite flush_reading|]. split; [done|]. left. split; [by rewrite Hcf|].
      rewrite Hqf, Hqa. by eexists.
    + intros q'. rewrite Hqf, Hqa. intros [= <-]. unfold size. rewrite length_app. split; [lia|].
      unfold over_limit in Eo. apply Z.ltb_ge in Eo. unfold to_send in Hqa.
      cbn [append_pending set_output closed_] in Hqa. rewrite Hc in Hqa. injection Hqa as Hqa.
      apply (f_equal length) in Hqa. rewrite !length_app, <- !buf_size_readable in Hqa.
      cbn [append_pending set_output out_ pending_] in *. lia.
Qed.

Lemma resync_shuts l sv s :
  conns_ sv !! l = Some s → bounded (cfg_ sv) s →
  max_output_buffer (cfg_ sv) < size (rdb_serialize (snapshot (store_of sv)).1) →
  ∃ sv' s', repl_start_full_resync (Some l) sv = Ret sv' ∧ conns_ sv' !! l = Some s' ∧
    session_wf s' ∧ shut (cfg_ sv) s' ∧ l ∈ links sv' ∧ cfg_ sv' = cfg_ sv.
Proof.
  intros Hs Hb Hmax. unfold repl_start_full_resync. cbn [link_send server_repl conn_send asio_backend].
  set (line1 := bs "+FULLRESYNC " ++ _).
  destruct (asio_send_bounded l line1 sv s Hs Hb) as (sv1 & s1 & -> & Hs1 & Hb1 & Hc1 & Hst1 & _).
  cbn [mbind outcome_bind]. rewrite Hst1. destruct (snapshot (store_of sv)) as [recs st].
  cbn [fst] in Hmax. rewrite <- Hc1 in Hb1.
  set (line2 := bs "$" ++ _). change (conns_ (with_store st sv1) !! l = Some s1) in Hs1.
  change (bounded (cfg_ (with_store st sv1)) s1) in Hb1.
  destruct (asio_send_bounded l line2 (with_store st sv1) s1 Hs1 Hb1) as (sv2 & s2 & -> & Hs2 & Hb2 & Hc2 & _).
  cbn [mbind outcome_bind]. change (cfg_ (with_store st sv1)) with (cfg_ sv1) in *. rewrite <- Hc2 in Hb2.
  destruct (asio_send_bounded l (rdb_serialize recs) sv2 s2 Hs2 Hb2)
    as (sv3 & s3 & -> & Hs3 & Hb3 & Hc3 & _ & Hq3).
  cbn [mbind outcome_bind link_peer server_repl]. rewrite Hs3. eexists _, s3. split; [done|].
  rewrite Hc2, Hc1 in *. destruct Hb3 as (_ & Hwf & [[_ [q Hq]]|Hshut]).
  - specialize (Hq3 q Hq). lia.
  - split_and!; try done. unfold links. cbn. rewrite fmap_app. apply elem_of_app. right. by left.
Qed.

Definition psync_args : Args := [bs "PSYNC"; bs "?"; bs "-1"].

(** Reading exactly a PSYNC. *)
Lemma on_data_psync l (b : Buffer) sv sv1 :
  buf_wf b → readable b = encode psync_args →
  execute (server_handler l) (Some l) psync_args sv = Ret sv1 →
  on_data (server_handler l) (Some l) b sv =
    Ret (1%nat, consume b (length (encode psync_args)), sv1).
Proof.
  intros Hw Hb He. rewrite <- Hb. apply (on_data_one _ _ _ psync_args); [done| |done|done]. by rewrite Hb.
Qed.

(** A shut session is destroyed when its last write has failed. *)
Lemma shut_destroyed l s sv :
  closed_ s = true → reading_ s = false →
  conns_ (write_done l true 0 (release l (put_session l s sv))) !! l = None ∧
  links (write_done l true 0 (release l (put_session l s sv))) = links sv.
Proof.
  intros Hc Hrd.
  assert (∀ s' sv', closed_ s' = true → reading_ s' = false → writing_ s' = None →
    conns_ (release l (do_close l s' sv')) !! l = None ∧ links (release l (do_close l s' sv')) = links sv')
    as Hgone.
  { intros s' sv' Hc' Hr' Hw'. unfold do_close, release. rewrite Hc'. cbn.
    rewrite lookup_insert_eq, Hr', Hw'. cbn. by rewrite lookup_delete_eq. }
  assert (put_session l s sv = do_close l s sv) as E by (unfold do_close; by rewrite Hc).
  destruct (writing_ s) as [x|] eqn:Ew.
  - assert (release l (put_session l s sv) = put_session l s sv) as ->.
    { unfold release. cbn. by rewrite lookup_insert_eq, Ew, orb_true_r. }
    unfold write_done. cbn. rewrite lookup_insert_eq, Ew.
    set (sv' := with_sv_stats _ _). destruct (Hgone (set_output (out_ s) (pending_ s) None s) sv') as [H1 H2]; [done..|].
    split; [exact H1|]. by rewrite H2.
  - destruct (Hgone s sv Hc Hrd Ew) as [H1 H2]. rewrite <- E in H1, H2. unfold write_done. by rewrite H1.
Qed.

(** A snapshot beyond the output limit leaves a dangling replica.  An idle
    client asks for a resynchronisation of a keyspace whose snapshot is larger
    than [max_output_buffer]: its session is closed while the snapshot is being
    sent, but it is registered as a replica afterwards, and nothing will remove
    it.  Once the operations of the session are over it is destroyed, and the
    next write uses the pointer. *)
Theorem large_snapshot_dangles l sv s :
  conns_ok sv → conns_ sv !! l = Some s → closed_ s = false → reading_ s = true →
  readable (in_ s) = [] → (length (encode psync_args) ≤ read_chunk (cfg_ sv))%nat →
  max_output_buffer (cfg_ sv) < size (rdb_serialize (snapshot (store_of sv)).1) →
  ∃ sv', asio_run [OnRead l (Some (encode psync_args)); OnWritten l true 0] sv = Ret sv' ∧
    conns_ sv' !! l = None ∧ l ∈ links sv' ∧ ∀ args, propagate_hook args sv' = Undefined.
Proof.
  intros Hok Hs Hc Hrd Hin Hchunk Hmax. destruct (Hok l s Hs) as (Hwi & Hwo & Hwp & Hfl).
  set (b := buf_append (in_ s) (encode psync_args)).
  assert (buf_wf b ∧ readable b = encode psync_args) as [Hb Hrb].
  { split; [by apply buf_append_wf|]. unfold b. by rewrite readable_append, Hin. }
  set (s0 := set_input b false s).
  set (sv0 := with_sv_stats (count_read (length (encode psync_args)) (sv_stats sv)) (put_session l s0 sv)).
  destruct (resync_shuts l sv0 s0) as (sv1 & s1 & Hr & Hs1 & Hwf1 & (Hc1 & Ho1 & Hrd1) & Hl & Hcfg).
  { apply lookup_insert_eq. }
  { split; [done|]. split; [by split_and!|]. left. split; [done|]. unfold to_send. cbn. rewrite Hc. by eexists. }
  { exact Hmax. }
  set (sv2 := reply_to l [] sv1). set (s2 := append_pending [] s1).
  assert (conns_ sv2 !! l = Some s2) as Hs2 by (cbn; by rewrite lookup_alter_eq, Hs1).
  assert (execute (server_handler l) (Some l) psync_args sv0 = Ret sv2) as He by (by apply execute_psync_eq).
  pose proof (on_data_psync l b sv0 sv2 Hb Hrb He) as Hd.
  set (s3 := set_input (consume b (length (encode psync_args))) false s2).
  assert (over_limit (cfg_ sv) s3 = true) as Ho3.
  { change (cfg_ sv0) with (cfg_ sv) in Ho1. revert Ho1. unfold over_limit, s3, s2.
    cbn [out_ pending_ set_input append_pending set_output].
    rewrite !buf_size_readable, readable_append, app_nil_r by apply Hwf1. done. }
  set (sv3 := with_sv_stats (count_overflow (count_commands 1 (sv_stats sv2)))
    (with_sv_stats (count_commands 1 (sv_stats sv2)) sv2)).
  assert (asio_step (OnRead l (Some (encode psync_args))) sv = Ret (release l (put_session l s3 sv3))) as Hstep.
  { cbn [asio_step]. unfold read_done. rewrite Hs, Hrd. cbn [negb]. rewrite take_ge by done.
    change (in_ (set_input (in_ s) false s)) with (in_ s). fold b.
    change (set_input b false (set_input (in_ s) false s)) with s0. fold sv0. rewrite Hd.
    cbn [mbind outcome_bind]. rewrite Hs2. fold s3.
    change (cfg_ (with_sv_stats _ sv2)) with (cfg_ sv1). rewrite Hcfg. change (cfg_ sv0) with (cfg_ sv).
    rewrite Ho3. unfold do_close. change (closed_ s3) with (closed_ s1). by rewrite Hc1. }
  destruct (shut_destroyed l s3 sv3 Hc1 eq_refl) as [Hgone Hlinks].
  eexists. split; [cbn [asio_run]; rewrite Hstep; done|].
  assert (l ∈ links (write_done l true 0 (release l (put_session l s3 sv3)))) as Hin'
    by (rewrite Hlinks; exact Hl).
  split_and!; [exact Hgone|exact Hin'|]. intros args. by apply (dangling_undefined l).
Qed.

End Asio.

(** ** Witnesses *)

Section Witnesses.
#[local] Existing Instance gmap_table.

(** A server with an output limit of ten bytes. *)
Definition tight (conns : gmap Link Session) (replicas : list Replica) : Server Session :=
  mkServer (mkServerConfig [] 6379 511 10 100 true 100) (new_store ten) zero_stats (mkUptime None ten 0) (fresh good_io)
    (set_master 0 replicas ∅ (new_replication (bs "8a3f") (λ _, []))) conns [] 0.

Definition remote_client : option (bytes * Z) := Some (bs "10.0.0.1", 5000).
Definition reading_session : Session := start_read (new_session remote_client).

Lemma reading_session_wf : session_wf reading_session.
Proof. split_and!; try apply Nat.le_refl. done. Qed.


Lemma asio_never_idle_witness : reading_ reading_session = true ∧ to_send reading_session = Some [].
Proof.
  destruct (asio_never_idle [Handle (OnAccept 7%nat remote_client)] (tight ∅ [])
    (with_server (accepted 7%nat remote_client (tight ∅ [])) (run_loop (tight ∅ [])))) as (_ & _ & Hall).
  - reflexivity.
  - reflexivity.
  - destruct (Hall 7%nat reading_session) as (_ & H & _); [reflexivity|].
    destruct H as [H1 H2]; [done|]. split; [exact H1|by apply H2].
Defined.




Lemma slow_replica_undefined_witness :
  propagate_hook [bs "FLUSHALL"]
    (tight {[ 7%nat := reading_session ]} [mkReplica 7%nat (mkReplicaInfo [] 0 0 0)]) = Undefined.
Proof.
  apply (slow_replica_undefined 7%nat _ reading_session).
  - reflexivity.
  - reflexivity.
  - exact reading_session_wf.
  - by left.
  - vm_compute. reflexivity.
Defined.

Lemma large_snapshot_dangles_witness :
  ∃ sv', asio_run [OnRead 7%nat (Some (encode psync_args)); OnWritten 7%nat true 0]
      (tight {[ 7%nat := reading_session ]} []) = Ret sv' ∧
    propagate_hook [bs "FLUSHALL"] sv' = Undefined.
Proof.
  destruct (large_snapshot_dangles 7%nat (tight {[ 7%nat := reading_session ]} []) reading_session)
    as (sv' & H & _ & _ & Hu).
  - apply map_Forall_singleton. exact reading_session_wf.
  - reflexivity.
  - reflexivity.
  - reflexivity.
  - reflexivity.
  - apply Nat.leb_le. vm_compute. reflexivity.
  - vm_compute. reflexivity.
  - exists sv'. split; [exact H|]. apply Hu.
Defined.

End Witnesses.
