(* ===== verification/Main.v ===== *)
(** * The program (src/main.cpp, src/server.cpp)

    The command line, the order in which the parts are restored and wired, and
    the end of the program.  [main] is generic in the backend, which the command
    line selects. *)

From S2P Require Import Prelude Resp UnorderedMap Store Keyspace Stats Commands CommandSpec Dispatch Handler.
From S2P Require Import Encode Files Aof Rdb RdbFile Persistence Replication ReplicaLink ReplicaLinkTheorems.
From S2P Require Import AofTheorems AofRewrite Recovery PersistenceTheorems Server PollServer AsioServer Steps MasterStream ServerLinks.

(** ** Numbers *)

(** [std::stoi] and [std::stoll] throw, which is [None] here, when there is no
    number or it is out of range; what follows the number is ignored. *)
Definition sto (lo hi : Z) (s : bytes) : option Z :=
  let '(negative, digits) := strto_parts s in
  match digits with
  | [] => None
  | _ :: _ =>
      let v := if negative then - dec_value digits else dec_value digits in
      if (lo <=? v) && (v <=? hi) then Some v else None
  end.

Definition stoi : bytes → option Z := sto (- 2 ^ 31) (2 ^ 31 - 1).
Definition stoll : bytes → option Z := sto int64_min int64_max.

Definition to_uint16 (z : Z) : Z := z mod 2 ^ 16.

(** ** The command line *)

Inductive BackendKind := kAsio | kPoll.

Record Options := mkOptions {
  opt_cfg : ServerConfig;
  opt_persist : PersistenceConfig;
  opt_backend : BackendKind;
  replicaof_host : bytes;
  replicaof_port : Z
}.

Definition default_Options : Options :=
  mkOptions default_ServerConfig default_PersistenceConfig kAsio [] 0.

Definition with_port (n : Z) (c : ServerConfig) : ServerConfig :=
  mkServerConfig (bind_address c) n (backlog c) (max_output_buffer c) (read_chunk c)
    (tcp_nodelay c) (cron_interval_ms c).
Definition with_bind (a : bytes) (c : ServerConfig) : ServerConfig :=
  mkServerConfig a (cfg_port c) (backlog c) (max_output_buffer c) (read_chunk c)
    (tcp_nodelay c) (cron_interval_ms c).

Definition with_dir (d : bytes) (p : PersistenceConfig) : PersistenceConfig :=
  mkPersistenceConfig d (dbfilename p) (aof_filename p) (rdb_enabled p) (aof_enabled p)
    (fsync_policy p) (save_seconds p) (save_changes p) (aof_rewrite_threshold p).
Definition with_dbfilename (f : bytes) (p : PersistenceConfig) : PersistenceConfig :=
  mkPersistenceConfig (dir p) f (aof_filename p) (rdb_enabled p) (aof_enabled p)
    (fsync_policy p) (save_seconds p) (save_changes p) (aof_rewrite_threshold p).
Definition with_save (seconds changes : Z) (p : PersistenceConfig) : PersistenceConfig :=
  mkPersistenceConfig (dir p) (dbfilename p) (aof_filename p) (rdb_enabled p) (aof_enabled p)
    (fsync_policy p) seconds changes (aof_rewrite_threshold p).
Definition with_appendonly (b : bool) (p : PersistenceConfig) : PersistenceConfig :=
  mkPersistenceConfig (dir p) (dbfilename p) (aof_filename p) (rdb_enabled p) b
    (fsync_policy p) (save_seconds p) (save_changes p) (aof_rewrite_threshold p).
Definition with_appendfsync (f : FsyncPolicy) (p : PersistenceConfig) : PersistenceConfig :=
  mkPersistenceConfig (dir p) (dbfilename p) (aof_filename p) (rdb_enabled p) (aof_enabled p)
    f (save_seconds p) (save_changes p) (aof_rewrite_threshold p).

Definition on_cfg (f : ServerConfig → ServerConfig) (o : Options) : Options :=
  mkOptions (f (opt_cfg o)) (opt_persist o) (opt_backend o) (replicaof_host o) (replicaof_port o).
Definition on_persist_cfg (f : PersistenceConfig → PersistenceConfig) (o : Options) : Options :=
  mkOptions (opt_cfg o) (f (opt_persist o)) (opt_backend o) (replicaof_host o) (replicaof_port o).
Definition with_backend (b : BackendKind) (o : Options) : Options :=
  mkOptions (opt_cfg o) (opt_persist o) b (replicaof_host o) (replicaof_port o).
Definition with_replicaof (h : bytes) (n : Z) (o : Options) : Options :=
  mkOptions (opt_cfg o) (opt_persist o) (opt_backend o) h n.

(** How the loop over the arguments ends: with the options, with the usage text
    and status 1, or with an exception that nothing catches. *)
Inductive command_line :=
| Parsed (o : Options)
| Usage
| Uncaught.

(** [arg] and the arguments after it; [next] takes one of these. *)
Fixpoint parse_args (argv : list bytes) (o : Options) : command_line :=
  match argv with
  | [] => Parsed o
  | arg :: argv =>
      if beq arg (bs "--port") then
        match argv with
        | [] => Usage
        | x :: argv =>
            match stoi x with
            | None => Uncaught
            | Some n => parse_args argv (on_cfg (with_port (to_uint16 n)) o)
            end
        end
      else if beq arg (bs "--bind") then
        match argv with
        | [] => Usage
        | x :: argv => parse_args argv (on_cfg (with_bind x) o)
        end
      else if beq arg (bs "--backend") then
        match argv with
        | [] => Usage
        | x :: argv =>
            if beq x (bs "poll") then parse_args argv (with_backend kPoll o)
            else if beq x (bs "asio") then parse_args argv (with_backend kAsio o)
            else Usage
        end
      else if beq arg (bs "--dir") then
        match argv with
        | [] => Usage
        | x :: argv => parse_args argv (on_persist_cfg (with_dir x) o)
        end
      else if beq arg (bs "--dbfilename") then
        match argv with
        | [] => Usage
        | x :: argv => parse_args argv (on_persist_cfg (with_dbfilename x) o)
        end
      else if beq arg (bs "--save") then
        match argv with
        | [] => Usage
        | x :: argv =>
            match stoi x with
            | None => Uncaught
            | Some seconds =>
                match argv with
                | [] => Usage
                | y :: argv =>
                    match stoll y with
                    | None => Uncaught
                    | Some changes =>
                        parse_args argv (on_persist_cfg (with_save seconds changes) o)
                    end
                end
            end
        end
      else if beq arg (bs "--appendonly") then
        match argv with
        | [] => Usage
        | x :: argv => parse_args argv (on_persist_cfg (with_appendonly (beq x (bs "yes"))) o)
        end
      else if beq arg (bs "--replicaof") then
        match argv with
        | [] => Usage
        | x :: argv =>
            match argv with
            | [] => Usage
            | y :: argv =>
                match stoi y with
                | None => Uncaught
                | Some n => parse_args argv (with_replicaof x (to_uint16 n) o)
                end
            end
        end
      else if beq arg (bs "--appendfsync") then
        match argv with
        | [] => Usage
        | x :: argv =>
            let '(policy, ok) := parse_fsync_policy x in
            if ok then parse_args argv (on_persist_cfg (with_appendfsync policy) o) else Usage
        end
      else Usage
  end.

(** ** The console *)

Definition newline : bytes := [LF].

Definition usage : bytes :=
  bs "usage: redis-plus [options]" ++ newline ++
  bs "  --port N              listen port (default 6379)" ++ newline ++
  bs "  --bind ADDR           bind address (default 0.0.0.0)" ++ newline ++
  bs "  --backend asio|poll   event loop (default asio)" ++ newline ++
  bs "  --dir PATH            working directory for data files" ++ newline ++
  bs "  --dbfilename NAME     RDB filename (default dump.rdb)" ++ newline ++
  bs "  --save SEC CHANGES    snapshot policy; 0 0 disables" ++ newline ++
  bs "  --appendonly yes|no   enable the AOF (default no)" ++ newline ++
  bs "  --appendfsync always|everysec|no" ++ newline ++
  bs "  --replicaof HOST PORT replicate from this master" ++ newline.

Definition backend_name (b : BackendKind) : bytes :=
  match b with kPoll => bs "poll" | kAsio => bs "asio" end.

Definition on_off (b : bool) : bytes := if b then bs "on" else bs "off".

(** What is printed when the server is about to run. *)
Definition banner (o : Options) (port : Z) : bytes :=
  bs "redis-plus listening on " ++ bind_address (opt_cfg o) ++ bs ":" ++ to_string port ++
  bs " (backend=" ++ backend_name (opt_backend o) ++
  bs ", rdb=" ++ on_off (rdb_enabled (opt_persist o)) ++
  bs ", aof=" ++ on_off (aof_enabled (opt_persist o)) ++ bs ")" ++ newline.

Definition fatal (what : bytes) : bytes := bs "fatal: " ++ what ++ newline.

Definition refusing (error : bytes) : bytes :=
  fatal (bs "cannot restore state: " ++ error) ++
  bs "Refusing to start on a corrupt data file. Move it aside to start empty." ++ newline.

(** ** Making the server *)

(** The text of an exception, or the port the server listens on.  [posix] is
    which of the two definitions of [make_poll_server] is compiled. *)
Definition make_poll_server (posix : bool) (sys : open_calls) (cfg : ServerConfig) : bytes + Z :=
  if posix then
    match (poll_open sys cfg ∅).1 with
    | inl what => inl what
    | inr listener => inr (port_ listener)
    end
  else inl (bs "poll backend is POSIX-only; use --backend=asio on this platform").

Definition make_asio_server (lib : acceptor_calls) (cfg : ServerConfig) : bytes + Z :=
  asio_open lib cfg.

Definition make_server (posix : bool) (sys : open_calls) (lib : acceptor_calls) (b : BackendKind)
    (cfg : ServerConfig) : bytes + Z :=
  match b with
  | kPoll => make_poll_server posix sys cfg
  | kAsio => make_asio_server lib cfg
  end.

(** ** Start and end *)

(** What the program is given: clocks and the machine, what the random numbers
    are, and what the replication threads do when they are stopped. *)
Record Outside := mkOutside {
  store_clock : nat → Z;
  machine : Machine;
  replid_picks : nat → nat;
  thread_late : nat → list link_effect;
  steady_ns : nat → Z;
  steady_now : Z
}.

Section Main.
Context `{UM : UnorderedMap} {C : Type} {B : Backend C}.
Implicit Types (sv : Server C).

(** During [load] the command table has no collaborators yet. *)
Definition bare_table : CommandTable (W:=Server C) (Link:=Link) := mkTable None None.

(** What there is before the state is restored. *)
Definition blank (x : Outside) (o : Options) : Server C :=
  mkServer (opt_cfg o) (new_store (store_clock x)) zero_stats (mkUptime None (steady_ns x) 0)
    (new_persistence (opt_persist o) (machine x)) (new_replication [] (thread_late x)) ∅ []
    (steady_now x).

(** How the start ends: with a message on the error stream and status 1, or
    with a server that is about to run. *)
Inductive started :=
| Fatal (cerr : bytes) (sv : Server C)
| Started (port : Z) (sv : Server C).

(** Up to [server->run()]; [made] is what [make_server] gives.  The first result
    is what is printed.  When [load] has failed, [Persistence] is destroyed;
    later the handler and the replication own each other, and none of them is. *)
Definition boot (fuel : nat) (made : bytes + Z) (x : Outside) (o : Options)
    : outcome (bytes * started) :=
  '(err, sv) ← load fuel bare_table (blank x o);
  match err with
  | Some msg =>
      Ret ([], Fatal (refusing msg) (with_sv_persist (shutdown (sv_persist sv)) sv))
  | None =>
      let '(n, s) := store_size (sv_store sv) in
      let sv := with_sv_store s sv in
      let cout := bs "loaded " ++ to_string n ++ bs " keys" ++ newline in
      replid ← random_replid (replid_picks x);
      let r := set_apply (set_listening_port (cfg_port (opt_cfg o))
                 (new_replication replid (thread_late x))) in
      match made with
      | inl what => Ret (cout, Fatal (fatal what) (with_sv_repl r sv))
      | inr port =>
          let sv := with_sv_repl (attach r) sv in
          match replicaof_host o with
          | [] => Ret (cout, Started port sv)
          | _ :: _ =>
              '((ok, error), sv) ← repl_replicaof (replicaof_host o) (replicaof_port o) sv;
              if ok : bool then
                Ret (cout ++ bs "replicating from " ++ replicaof_host o ++ bs ":" ++
                       to_string (replicaof_port o) ++ newline, Started port sv)
              else Ret (cout, Fatal (fatal error) sv)
          end
      end
  end.

(** After [run] has returned. *)
Definition finish sv : outcome (Server C) :=
  sv ← repl_stop_replication sv;
  Ret (with_sv_persist (shutdown (sv_persist sv)) sv).

(** The program ends without that.  [Persistence] is not destroyed, but [exit]
    writes out and closes the streams that are open. *)
Definition exit_streams sv : Server C :=
  let '(io, p) := next_io (sv_persist sv) in
  let '(a, d) := fclose (io_stream io) (aof_ p) (disk_ (machine_ p)) in
  with_sv_persist (with_aof a d p) sv.

(** The [try] block of [main] and its handler: how it ends, or where it is while
    [run] has not returned.  [thrown] is the text of an exception that leaves
    [run] when what [env] says is over. *)
Inductive ending :=
| Exited (status : Z) (cout cerr : bytes) (sv : Server C)
| Running (cout : bytes) (sv : Server C).

Definition serve {EL : EventLoop C} (fuel : nat) (made : bytes + Z) (x : Outside) (o : Options)
    (env : loop_env) (thrown : option bytes) : outcome ending :=
  '(cout, st) ← boot fuel made x o;
  match st with
  | Fatal cerr sv => Ret (Exited 1 cout cerr sv)
  | Started port sv =>
      let cout := cout ++ banner o port in
      '(returned, sv) ← loop_run env sv;
      if returned : bool then sv ← finish sv; Ret (Exited 0 cout [] sv)
      else
        match thrown with
        | Some what => Ret (Exited 1 cout (fatal what) (exit_streams sv))
        | None => Ret (Running cout sv)
        end
  end.

End Main.

Arguments started {_} C.
Arguments ending {_} C.

(** How the program ends or where it is: [Terminated] is an exception that
    nothing catches, which aborts. *)
Inductive program_end `{UM : UnorderedMap} :=
| UsageShown (status : Z) (cerr : bytes)
| Terminated
| WithPoll (e : ending Conn)
| WithAsio (e : ending Session).

(** The two backends, and what each of them would meet. *)
Record Platform := mkPlatform {
  posix : bool;
  sys_calls : open_calls;
  asio_calls : acceptor_calls;
  poll_turns : list loop_turn;
  asio_events : list loop_event;
  run_throws : option bytes
}.

Definition main `{UM : UnorderedMap} (fuel : nat) (argv : list bytes) (x : Outside) (pl : Platform)
    : outcome program_end :=
  match parse_args argv default_Options with
  | Usage => Ret (UsageShown 1 usage)
  | Uncaught => Ret Terminated
  | Parsed o =>
      let made := make_server (posix pl) (sys_calls pl) (asio_calls pl) (opt_backend o) (opt_cfg o) in
      match opt_backend o with
      | kPoll => e ← serve (EL:=poll_loop) fuel made x o (poll_turns pl) (run_throws pl); Ret (WithPoll e)
      | kAsio => e ← serve (EL:=asio_loop) fuel made x o (asio_events pl) (run_throws pl); Ret (WithAsio e)
      end
  end.

(** ** The command line *)

Lemma sto_back lo hi n : 0 ≤ n → lo ≤ n ≤ hi → sto lo hi (to_string n) = Some n.
Proof.
  intros H0 [H1 H2]. rewrite to_string_nonneg by lia. unfold sto.
  rewrite strto_parts_digits by (apply dec_nonneg_digits; lia).
  destruct (dec_nonneg n) as [|c ds] eqn:E.
  { pose proof (f_equal dec_value E) as E'. rewrite dec_value_nonneg in E' by lia. cbn in E'. by subst n. }
  rewrite <- E, dec_value_nonneg by lia.
  apply Z.leb_le in H1 as ->. apply Z.leb_le in H2 as ->. done.
Qed.

(** Everything that can be set, as arguments. *)
Definition render (o : Options) : list bytes :=
  let p := opt_persist o in
  [bs "--port"; to_string (cfg_port (opt_cfg o)); bs "--bind"; bind_address (opt_cfg o);
   bs "--backend"; backend_name (opt_backend o); bs "--dir"; dir p; bs "--dbfilename"; dbfilename p;
   bs "--save"; to_string (save_seconds p); to_string (save_changes p);
   bs "--appendonly"; (if aof_enabled p then bs "yes" else bs "no");
   bs "--appendfsync"; fsync_policy_name (fsync_policy p);
   bs "--replicaof"; replicaof_host o; to_string (replicaof_port o)].

(** What cannot be set has its default, and the numbers fit. *)
Definition settable (o : Options) : Prop :=
  (∃ n a, opt_cfg o = with_port n (with_bind a default_ServerConfig) ∧ 0 ≤ n < 2 ^ 16) ∧
  (∃ d f b pol secs ch, opt_persist o = with_dir d (with_dbfilename f (with_save secs ch
      (with_appendonly b (with_appendfsync pol default_PersistenceConfig)))) ∧
    0 ≤ secs < 2 ^ 31 ∧ 0 ≤ ch ≤ int64_max) ∧
  0 ≤ replicaof_port o < 2 ^ 16.

(** One option after the other. *)
Section Steps.
Context (argv : list bytes) (o : Options).

Lemma parse_port x n :
  stoi x = Some n →
  parse_args (bs "--port" :: x :: argv) o = parse_args argv (on_cfg (with_port (to_uint16 n)) o).
Proof.
  intros H. change (parse_args (bs "--port" :: x :: argv) o) with
    (match stoi x with None => Uncaught | Some n => parse_args argv (on_cfg (with_port (to_uint16 n)) o) end).
  by rewrite H.
Qed.

Lemma parse_bind x :
  parse_args (bs "--bind" :: x :: argv) o = parse_args argv (on_cfg (with_bind x) o).
Proof. reflexivity. Qed.

Lemma parse_backend b :
  parse_args (bs "--backend" :: backend_name b :: argv) o = parse_args argv (with_backend b o).
Proof. by destruct b. Qed.

Lemma parse_dir x :
  parse_args (bs "--dir" :: x :: argv) o = parse_args argv (on_persist_cfg (with_dir x) o).
Proof. reflexivity. Qed.

Lemma parse_dbfilename x :
  parse_args (bs "--dbfilename" :: x :: argv) o = parse_args argv (on_persist_cfg (with_dbfilename x) o).
Proof. reflexivity. Qed.

Lemma parse_save x y secs ch :
  stoi x = Some secs → stoll y = Some ch →
  parse_args (bs "--save" :: x :: y :: argv) o = parse_args argv (on_persist_cfg (with_save secs ch) o).
Proof.
  intros Hx Hy. change (parse_args (bs "--save" :: x :: y :: argv) o) with
    (match stoi x with
     | None => Uncaught
     | Some secs => match stoll y with
       | None => Uncaught
       | Some ch => parse_args argv (on_persist_cfg (with_save secs ch) o) end end).
  by rewrite Hx, Hy.
Qed.

Lemma parse_appendonly b :
  parse_args (bs "--appendonly" :: (if b : bool then bs "yes" else bs "no") :: argv) o =
  parse_args argv (on_persist_cfg (with_appendonly b) o).
Proof. by destruct b. Qed.

Lemma parse_appendfsync pol :
  parse_args (bs "--appendfsync" :: fsync_policy_name pol :: argv) o =
  parse_args argv (on_persist_cfg (with_appendfsync pol) o).
Proof. by destruct pol. Qed.

Lemma parse_replicaof h x n :
  stoi x = Some n →
  parse_args (bs "--replicaof" :: h :: x :: argv) o = parse_args argv (with_replicaof h (to_uint16 n) o).
Proof.
  intros H. change (parse_args (bs "--replicaof" :: h :: x :: argv) o) with
    (match stoi x with None => Uncaught | Some n => parse_args argv (with_replicaof h (to_uint16 n) o) end).
  by rewrite H.
Qed.

End Steps.

(** C38: the command line says what it means.  All options that can be set,
    given as arguments, are read back as they are. *)
Theorem command_line_roundtrip o :
  settable o → parse_args (render o) default_Options = Parsed o.
Proof.
  destruct o as [cfg p b h rp]. unfold settable. cbn [opt_cfg opt_persist replicaof_port].
  intros ((n & a & -> & Hn) & (d & f & ao & pol & secs & ch & -> & Hsecs & Hch) & Hrp).
  assert (stoi (to_string n) = Some n ∧ to_uint16 n = n) as [E1 E2].
  { split; [apply sto_back; lia|]. apply Z.mod_small. lia. }
  assert (stoi (to_string rp) = Some rp ∧ to_uint16 rp = rp) as [E3 E4].
  { split; [apply sto_back; lia|]. apply Z.mod_small. lia. }
  assert (stoi (to_string secs) = Some secs) as E5 by (apply sto_back; lia).
  assert (stoll (to_string ch) = Some ch) as E6 by (apply sto_back; unfold int64_min, int64_max in *; lia).
  unfold render. cbn [opt_cfg opt_persist opt_backend replicaof_host replicaof_port cfg_port with_port
    bind_address with_bind dir dbfilename save_seconds save_changes aof_enabled fsync_policy
    with_dir with_dbfilename with_save with_appendonly with_appendfsync].
  rewrite (parse_port _ _ _ n) by done. rewrite parse_bind, parse_backend, parse_dir, parse_dbfilename.
  rewrite (parse_save _ _ _ _ secs ch) by done. rewrite parse_appendonly, parse_appendfsync.
  rewrite (parse_replicaof _ _ _ _ rp), E2, E4 by done. reflexivity.
Qed.

(** ** Starting *)

Section Start.
Context `{UM : UnorderedMap} {C : Type} {B : Backend C}.
Implicit Types (sv : Server C).

(** The replication id is forty hexadecimal digits. *)
Definition hex_digit (c : byte) : Prop := c ∈ kHex.

Lemma hex_digits_spec (pick : nat → nat) (n i : nat) :
  (∀ j, (pick j ≤ 15)%nat) →
  ∃ id, hex_digits pick n i = Ret id ∧ length id = n ∧ Forall hex_digit id.
Proof.
  intros Hp. revert i. induction n as [|n IH]; intros i; cbn [hex_digits]; [by exists []|].
  destruct (lookup_lt_is_Some_2 kHex (pick i)) as [c Hc].
  { specialize (Hp i). change (length kHex) with 16%nat. lia. }
  rewrite Hc. destruct (IH (S i)) as (id & -> & Hl & Hid). exists (c :: id).
  split; [done|]. split; [cbn; by rewrite Hl|]. constructor; [|done]. by eapply list_elem_of_lookup_2.
Qed.

Lemma random_replid_spec pick :
  (∀ i, (pick i ≤ 15)%nat) →
  ∃ id, random_replid pick = Ret id ∧ length id = 40%nat ∧ Forall hex_digit id ∧ Forall (λ x, x ≠ CR) id.
Proof.
  intros Hp. destruct (hex_digits_spec pick 40 0 Hp) as (id & H & Hl & Hid). exists id.
  split_and!; [done..|]. eapply Forall_impl; [exact Hid|]. intros c Hc ->. revert Hc.
  apply (bool_decide_eq_false (CR ∈ kHex)). by vm_compute.
Qed.

(** A start that is not that of a replica. *)
Lemma boot_loaded fuel port x o sv :
  load fuel bare_table (blank x o) = Ret (None, sv) → (∀ i, (replid_picks x i ≤ 15)%nat) →
  replicaof_host o = [] →
  ∃ cout sv', boot fuel (inr port) x o = Ret (cout, Started port sv') ∧
    store_of sv' = (store_size (store_of sv)).2 ∧ sv_persist sv' = sv_persist sv.
Proof.
  intros Hl Hp Hh. unfold boot. rewrite Hl. cbn [mbind outcome_bind].
  destruct (random_replid_spec _ Hp) as (id & -> & _).
  change (sv_store sv) with (store_of sv). destruct (store_size (store_of sv)) as [n s].
  cbn [mbind outcome_bind]. rewrite Hh. by eexists _, _.
Qed.

(** A start as a replica. *)
Lemma boot_replica fuel made x o cout port sv :
  replicaof_host o ≠ [] → boot fuel made x o = Ret (cout, Started port sv) →
  link_thread_ (sv_repl sv) = true ∧ replica_of_port_ (sv_repl sv) = replicaof_port o.
Proof.
  intros Hh Hb. unfold boot in Hb. apply bind_Ret in Hb as ([err sv1] & _ & Hb). destruct err; [done|].
  destruct (store_size (sv_store sv1)) as [n s]. apply bind_Ret in Hb as (id & _ & Hb).
  destruct made; [done|]. destruct (replicaof_host o) as [|c h]; [done|].
  apply bind_Ret in Hb as ([[ok msg] sv2] & Hr & Hb). unfold repl_replicaof in Hr.
  cbn [repl_of server_repl sv_repl with_sv_repl server_ attach set_owner negb] in Hr.
  apply bind_Ret in Hr as (sv3 & _ & [= <- <- <-]). by injection Hb as _ _ <-.
Qed.

(** A replica that does not know it.  The port of [--replicaof] is cut to 16
    bits without a check: with a multiple of 2^16 the link to the master is
    started, but the server does not count as a replica and accepts writes. *)
Lemma replicaof_port_zero h fuel made x o cout port sv :
  h ≠ [] → parse_args [bs "--replicaof"; h; bs "65536"] default_Options = Parsed o →
  boot fuel made x o = Ret (cout, Started port sv) →
  link_thread_ (sv_repl sv) = true ∧ repl_is_replica (sv_repl sv) = false.
Proof.
  intros Hh Hp Hb. assert (stoi (bs "65536") = Some 65536) as E by (vm_compute; reflexivity).
  rewrite (parse_replicaof [] default_Options h _ 65536 E) in Hp. cbn [parse_args] in Hp.
  assert (replicaof_host o = h ∧ replicaof_port o = 0) as [Ho Ho'] by (by injection Hp as <-).
  clear Hp. rewrite <- Ho in Hh. destruct (boot_replica _ _ _ _ _ _ _ Hh Hb) as [Ht Hport].
  split; [done|]. unfold repl_is_replica. by rewrite Hport, Ho'.
Qed.

(** ** A start that fails *)

(** Restoring only touches the store, and the uptime if the log holds INFO. *)
Definition restores (sv sv' : Server C) : Prop := ∃ s u, sv' = with_store s (with_sv_uptime u sv).

#[local] Instance restores_preorder : PreOrder restores.
Proof.
  split.
  - intros sv. exists (store_of sv), (sv_uptime sv). by destruct sv.
  - intros sv sv1 sv2 (s1 & u1 & ->) (s2 & u2 & ->). by exists s2, u2.
Qed.

Lemma apply_silently_restores args sv sv' : apply_silently bare_table args sv = Ret sv' → restores sv sv'.
Proof.
  unfold apply_silently. destruct (dispatch bare_table args None sv) as [[r w]| |] eqn:E; [|done..].
  intros [= <-]. eapply (dispatch_respects bare_table restores) in E; [exact E|]. split; try done.
  - intros s w'. exists s, (sv_uptime w'). by destruct w'.
  - intros s w'. cbn. rewrite server_info_uptime. by exists s, (uptime_seconds (sv_uptime w')).2.
Qed.

Lemma replay_loop_restores fuel total remaining k sv sv' n torn err :
  replay_loop (apply_silently bare_table) fuel total remaining k sv = Ret (sv', n, torn, err) → restores sv sv'.
Proof.
  revert remaining k sv.
  induction fuel as [|fuel IH]; intros remaining k sv H; destruct remaining as [|c rest]; cbn [replay_loop] in H;
    [by injection H as <- <- <- <-|done|by injection H as <- <- <- <-|].
  destruct (status _); [|by injection H as <- <- <- <-..].
  destruct (args (parse_request (c :: rest))); [exact (IH _ _ _ H)|].
  apply bind_Ret in H as (sv1 & H1%apply_silently_restores & H). etrans; [exact H1|by eapply IH].
Qed.

Lemma replay_restores d path sv sv' n torn err :
  replay (apply_silently bare_table) d path sv = Ret (sv', n, torn, err) → restores sv sv'.
Proof.
  unfold replay. destruct (d !! path) as [fl|]; [|by intros [= <- <- <- <-]]. apply replay_loop_restores.
Qed.

(** Nothing that is in the files is lost to a start that fails. *)
Lemma load_keeps_files fuel x o err sv path :
  load fuel bare_table (blank x o) = Ret (err, sv) →
  contents_of (disk_ (machine_ (sv_persist sv))) path = contents_of (disk_ (machine x)) path ∧
  thread_ (sv_persist sv) = mkSaverState false false None ∧
  (is_Some err → disk_ (machine_ (sv_persist sv)) = disk_ (machine x) ∧ aof_ (sv_persist sv) = new_aof).
Proof.
  unfold load. change (config_ (persist_of (blank x o))) with (opt_persist o).
  change (disk_ (machine_ (persist_of (blank x o)))) with (disk_ (machine x)).
  destruct (aof_enabled _); [|destruct (negb _)].
  - intros ([[[w n] torn] e] & (s & u & ->)%replay_restores & H)%bind_Ret. destruct e as [msg|].
    + injection H as <- <-. by split_and!.
    + set (p := if Nat.ltb 0 torn then _ else _) in H.
      assert (machine_ p = machine_ (sv_persist (blank (C:=C) x o)) ∧ thread_ p = mkSaverState false false None ∧
        aof_ p = new_aof) as (Em & Et & Ea) by (unfold p; by destruct (Nat.ltb 0 torn)).
      unfold next_io in H. cbn [aof_ machine_ disk_] in H. rewrite Ea, Em in H. unfold aof_open in H. cbn in H.
      destruct (io_opens _); cbn in H; injection H as <- <-; cbn; rewrite ?contents_create; by split_and!.
  - intros [= <- <-]. split_and!; try done.
  - intros ([records e] & _ & H)%bind_Ret. destruct e; injection H as <- <-; split_and!; try done.
Qed.

(** With a server, [replicaof] does not fail. *)
Lemma replicaof_started o r sv cout cout' port cerr sv' :
  match replicaof_host o with
  | [] => Ret (cout, Started port (with_sv_repl (attach r) sv))
  | _ :: _ =>
      '((ok, error), sv) ← repl_replicaof (replicaof_host o) (replicaof_port o) (with_sv_repl (attach r) sv);
      if ok : bool then
        Ret (cout ++ bs "replicating from " ++ replicaof_host o ++ bs ":" ++
               to_string (replicaof_port o) ++ newline, Started port sv)
      else Ret (cout, Fatal (fatal error) sv)
  end ≠ Ret (cout', Fatal cerr sv').
Proof.
  destruct (replicaof_host o) as [|c h]; [done|]. intros H.
  apply bind_Ret in H as ([[ok msg] sv2] & Hr & H). unfold repl_replicaof in Hr.
  cbn [repl_of server_repl sv_repl with_sv_repl server_ attach set_owner negb] in Hr.
  by apply bind_Ret in Hr as (sv3 & _ & [= <- <- <-]).
Qed.

(** C18: A start that fails says why and destroys nothing.  The program refuses to
    run for one of two reasons: what is in the files cannot be restored, or the
    server cannot be made.  It says which on the error stream and exits with
    status 1, whatever would have happened to a running server, and then
    everything that was in the files is still there. *)
Theorem failed_start_keeps_files {EL : EventLoop C} fuel made x o cout cerr sv :
  boot fuel made x o = Ret (cout, Fatal cerr sv) →
  ((∃ msg (w : Server C), load fuel bare_table (blank x o) = Ret (Some msg, w) ∧ cerr = refusing msg) ∨
   (∃ what, made = inl what ∧ cerr = fatal what)) ∧
  (∀ env thrown, serve fuel made x o env thrown = Ret (Exited 1 cout cerr sv)) ∧
  ∀ path, contents_of (disk_ (machine_ (sv_persist sv))) path = contents_of (disk_ (machine x)) path.
Proof.
  intros Hboot. split_and!; [|intros env thrown; unfold serve; by rewrite Hboot|].
  all: unfold boot in Hboot; apply bind_Ret in Hboot as ([err sv1] & Hl & H); destruct err as [msg|].
  - injection H as <- <- <-. left. by exists msg, sv1.
  - destruct (store_size (sv_store sv1)) as [n s]. apply bind_Ret in H as (id & _ & H).
    destruct made as [what|port]; [injection H as <- <- <-; right; by exists what|].
    by apply replicaof_started in H.
  - injection H as <- <- <-. intros path. destruct (load_keeps_files _ _ _ _ _ path Hl) as (_ & Ht & Hd).
    destruct (Hd ltac:(by eexists)) as [Hd' Ha]. cbn [sv_persist with_sv_persist].
    unfold shutdown, join_if_joinable, joinable. rewrite Ht. cbn. rewrite Ha. cbn. by rewrite Hd'.
  - intros path. destruct (load_keeps_files _ _ _ _ _ path Hl) as (Hd & _).
    destruct (store_size (sv_store sv1)) as [n s]. apply bind_Ret in H as (id & _ & H).
    destruct made as [what|port]; [by injection H as <- <- <-|].
    by apply replicaof_started in H.
Qed.

End Start.

(** ** Witnesses *)

Section Witnesses.
#[local] Existing Instance gmap_table.

Definition some_options : Options :=
  mkOptions (with_port 7000 (with_bind (bs "127.0.0.1") default_ServerConfig))
    (with_dir (bs "/data") (with_dbfilename (bs "a.rdb") (with_save 60 10
      (with_appendonly true (with_appendfsync kAlways default_PersistenceConfig)))))
    kPoll (bs "10.0.0.9") 6379.

Lemma command_line_roundtrip_witness : parse_args (render some_options) default_Options = Parsed some_options.
Proof.
  apply (command_line_roundtrip some_options). split; [|split].
  - by exists 7000, (bs "127.0.0.1").
  - by exists (bs "/data"), (bs "a.rdb"), true, kAlways, 60, 10.
  - done.
Defined.

Definition outside (clock : Z) (d : disk) : Outside :=
  mkOutside (λ _, clock)
    (mkMachine d 8 (λ _, 9000) 0
      (λ _, mkIo (mkSaveEnv true 1000 true true true true) good_rewrite good_stream true) 0)
    (λ i, (i mod 16)%nat) (λ _, []) ten 0.

Lemma outside_picks clock d i : (replid_picks (outside clock d) i ≤ 15)%nat.
Proof. cbn [replid_picks outside]. pose proof (Nat.mod_upper_bound i 16). lia. Qed.

Lemma outside_disk clock d : disk_ (machine (outside clock d)) = d.
Proof. done. Qed.

Lemma boot_failed (o : outcome (bytes * started Conn)) :
  match o with Ret (_, Fatal _ _) => true | _ => false end = true →
  ∃ cout cerr sv, o = Ret (cout, Fatal cerr sv).
Proof. destruct o as [[cout [cerr sv|]]| |]; try done. by exists cout, cerr, sv. Qed.

(** The port is taken. *)
Lemma failed_start_keeps_files_witness :
  ∃ cout cerr (sv : Server Conn),
    boot 0 (inl (bs "listen() failed")) (outside 10 ∅) default_Options = Ret (cout, Fatal cerr sv) ∧
    ∀ path, contents_of (disk_ (machine_ (sv_persist sv))) path = [].
Proof.
  destruct (boot_failed (boot 0 (inl (bs "listen() failed")) (outside 10 ∅) default_Options))
    as (cout & cerr & sv & H); [vm_compute; reflexivity|].
  exists cout, cerr, sv. split; [exact H|]. intros path.
  destruct (failed_start_keeps_files (EL:=poll_loop) 0 (inl (bs "listen() failed")) (outside 10 ∅) default_Options cout cerr sv H)
    as (_ & _ & Hd). rewrite Hd. reflexivity.
Defined.

End Witnesses.
