(* ===== verification/Durable.v ===== *)
(** * Nothing acknowledged is forgotten: crashes and restarts

    The whole program over two lives.  While it runs, with either event loop,
    the log stands for the keyspace: for the keyspace it has, in the file, the
    stream and the buffer together, and for one it has had, in the file alone,
    and also in what a death in the middle of a step leaves there.  A second
    start on that brings the keyspace back -- unless the death was in the middle
    of a rewrite, when there can be no log at all.  The conditions are [healthy],
    [faultless] and [good_start]. *)

From S2P Require Import Prelude Buffer Resp UnorderedMap Store Keyspace StoreScan Stats Commands CommandSpec.
From S2P Require Import Dispatch Handler Encode Requests Files Aof AofTheorems AofRewrite Recovery Rdb RdbTheorems RdbFile.
From S2P Require Import Persistence PersistenceTheorems Journal Replication Server PollServer AsioServer.
From S2P Require Import Steps MasterStream ServerLinks Main.

Section Durable.
Context `{UM : UnorderedMap} {C : Type} {B : Backend C}.
Implicit Types (sv : Server C) (l : Link).

(** ** What a request does to the log *)

Lemma stop_replication_persist sv sv' :
  repl_stop_replication sv = Ret sv' → sv_persist sv' = sv_persist sv ∧ store_of sv' = store_of sv.
Proof.
  assert (∀ es sv, sv_persist (link_effects es sv) = sv_persist sv ∧ store_of (link_effects es sv) = store_of sv)
    as Hes.
  { intros es. unfold link_effects. induction es as [|e es IH]; intros sv0; [done|]. cbn [foldl].
    destruct (IH (link_effect_step e sv0)) as [-> ->]. by destruct e. }
  unfold repl_stop_replication. intros [= <-]. cbn. destruct (link_thread_ _); [|done].
  match goal with |- context [link_effects ?es ?sv0] => exact (Hes es sv0) end.
Qed.

Lemma conn_send_persist l d sv sv' : conn_send l d sv = Ret sv' → sv_persist sv' = sv_persist sv.
Proof. by intros (st & r & cs & ->)%conn_send_frame. Qed.

Lemma wall_clock_frame sv : log_frame (sv_persist sv) (sv_persist (wall_clock sv).2).
Proof. by split. Qed.

Lemma start_full_resync_frame lnk sv sv' :
  repl_start_full_resync lnk sv = Ret sv' → log_frame (sv_persist sv) (sv_persist sv').
Proof.
  unfold repl_start_full_resync. destruct lnk as [l|]; [|by intros [= <-]].
  cbn [link_send server_repl]. intros (sv1 & H1%conn_send_persist & H)%bind_Ret.
  destruct (snapshot (store_of sv1)) as [recs s].
  apply bind_Ret in H as (sv2 & H2%conn_send_persist & H). apply bind_Ret in H as (sv3 & H3%conn_send_persist & H).
  apply bind_Ret in H as (peer & _ & [= <-]). cbn in *. rewrite <- H1, <- H2, <- H3. by split.
Qed.

Lemma ack_replicas_frame lnk n todo done_ sv :
  log_frame (sv_persist sv) (sv_persist (ack_replicas lnk n todo done_ sv).2).
Proof.
  revert done_ sv. induction todo as [|rep todo IH]; intros done_ sv; cbn [ack_replicas]; [done|].
  case_bool_decide; [|apply IH]. pose proof (wall_clock_frame sv) as Hw.
  destruct (wall_clock sv) as [t sv1]. etrans; [exact Hw|apply IH].
Qed.

(** Nothing, unless it rewrites it. *)
Lemma dispatch_log lnk args sv r sv' :
  dispatch server_table args lnk sv = Ret (r, sv') → log_file (sv_persist sv) →
  log_frame (sv_persist sv) (sv_persist sv') ∨ ∃ x, rewrite_aof persistence_ops sv = Ret (x, sv').
Proof.
  apply (dispatch_respects server_table (λ sv sv', log_file (sv_persist sv) →
    log_frame (sv_persist sv) (sv_persist sv') ∨ ∃ x, rewrite_aof persistence_ops sv = Ret (x, sv'))).
  split.
  - by left.
  - by left.
  - intros s w _. left. cbn. by rewrite server_info_uptime.
  - intros ops w r' w' [= <-] H Hf. destruct H as [H|[H|H]]; [left; cbn in H; unfold on_persist in H..|by right; eexists].
    + destruct (persist_save _ _) as [r1 [s p]] eqn:E. injection H as <- <-. by apply save_frame in E.
    + destruct (persist_background_save _ _) as [r1 [s p]] eqn:E. injection H as <- <-.
      by apply background_save_frame in E.
  - intros ops h n w r' w' [= <-] [_ H] _. left. cbn in H. unfold repl_replicaof in H.
    destruct (negb _); [by simplify_eq|].
    apply bind_Ret in H as (w1 & [H1 _]%stop_replication_persist & [= <- <-]). cbn. by rewrite H1.
  - intros ops n w w' [= <-] H _. left. destruct H as [H|[[_ H]|[[_ H]|H]]].
    + exact (start_full_resync_frame _ _ _ H).
    + cbn in H. unfold repl_on_replica_ack in H.
      pose proof (ack_replicas_frame lnk n (replicas_ (repl_of w)) [] w) as Ha.
      destruct (ack_replicas _ _ _ _ _) as [reps w1]. injection H as <-. exact Ha.
    + by injection H as <-.
    + cbn in H. by apply stop_replication_persist in H as [-> _].
Qed.

Lemma send_to_all_persist all todo enc sv sv' :
  send_to_all all todo enc sv = Ret sv' → sv_persist sv' = sv_persist sv ∧ store_of sv' = store_of sv.
Proof.
  revert sv. induction todo as [|rep todo IH]; intros sv H; cbn [send_to_all] in H; [by injection H as <-|].
  apply bind_Ret in H as (sv1 & H1 & H). case_bool_decide; [|done].
  destruct (IH _ H) as [-> ->]. by apply conn_send_frame in H1 as (st & r & cs & ->).
Qed.

Lemma execute_persist l args sv sv' :
  execute (server_handler l) (Some l) args sv = Ret sv' →
  ∃ r sv1, dispatch server_table args (Some l) sv = Ret (r, sv1) ∧ store_of sv' = store_of sv1 ∧
    sv_persist sv' = if dirty r then on_write (propagate r) (sv_persist sv1) else sv_persist sv1.
Proof.
  unfold execute. cbn [table_ server_handler]. intros ([r sv1] & Hd & H)%bind_Ret. exists r, sv1.
  split; [done|]. cbn [propagate_ server_handler out_append] in H. destruct (dirty r).
  - unfold propagate_hook, repl_propagate in H. apply bind_Ret in H as (o & _ & H).
    apply send_to_all_persist in H as [-> ->]. done.
  - by injection H as <-.
Qed.

(** ** The conditions *)

(** What is stored at time [t] fits the limits of the parser. *)
Definition sized (t : Z) (s : Store) : Prop :=
  ∀ k v d, view t s !! k = Some (v, d) → size k ≤ kMaxBulkLength ∧ size v ≤ kMaxBulkLength.

(** A step as it should be, seen from a restart at time [T]: each request and
    each cron sees one time, not after [T]; the file system takes what is
    written; a command about a deadline is about a key that is alive at [T];
    and nothing comes from a master, since that is not logged. *)
Definition faultless (T : Z) (e : entry C) : Prop :=
  match did e with
  | LRequest l args =>
      healthy (sv_persist (before e)) ∧
      ∀ r sv1, dispatch server_table args (Some l) (before e) = Ret (r, sv1) →
        ∃ t, t ≤ T ∧ steady t (store_of (before e)) (store_of sv1) ∧ sized t (store_of (before e)) ∧
          ∀ k d, effect_of (propagate r) = Some (WDeadline k d) → is_Some (view T (store_of (before e)) !! k)
  | LCron =>
      healthy (sv_persist (before e)) ∧
      ∃ t, t ≤ T ∧ steady t (store_of (before e)) (store_of (after e)) ∧ sized t (store_of (before e))
  | LTask _ => False
  | LThread _ | LIo => True
  end.

Lemma snapshot_encodable t s :
  store_wf s → clock_wf s → now s = t → sized t s → Forall encodable (record_command <$> (snapshot s).1).
Proof.
  intros Hw Hc <- Hs. apply Forall_fmap. pose proof (snapshot_deadlines s Hw Hc) as Hd.
  apply Forall_forall. intros r Hr. pose proof (proj1 (Forall_forall _ _) Hd r Hr) as Hdr.
  apply snapshot_elem in Hr as [Hr _]; [|done]. destruct (Hs _ _ _ Hr) as [Hk Hv].
  assert (length (to_string (expire_at r)) ≤ 20)%nat as Hn.
  { apply to_int64_short. rewrite to_int64_to_string by exact Hdr. by eexists. }
  assert (∀ x : bytes, (length x ≤ 20)%nat → size x ≤ kMaxBulkLength) as Hshort
    by (intros x Hx; unfold size, kMaxBulkLength; lia).
  unfold encodable, record_command. split; [done|].
  destruct (expire_at r =? kNoExpiry); cbn [app];
    (split; [cbn [length]; unfold kMaxMultibulkLength; lia|]);
    repeat (apply Forall_cons_2; [first [exact Hk | exact Hv | apply Hshort; first [exact Hn | cbn; lia]]|]);
    apply Forall_nil_2.
Qed.

(** A snapshot reads the clock once. *)
Lemma steady_snapshot t s s' : later (snapshot s).2 s' → steady t s s' → now s = t.
Proof. intros [_ Hl] Hst. apply Hst. cbn in Hl. lia. Qed.

(** ** The invariant *)

Context (c : PersistenceConfig).

(** The log holds [cmds], which stand for the keyspace.  At least the first
    [base] of them are in the file, and any number of them from there on stands
    for the keyspace of [sv] or of a state before it. *)
Record recalls (T : Z) (past : list (Server C)) (cmds : list Args) (base : nat) sv : Prop := {
  rc_config : config_ (sv_persist sv) = c;
  rc_wf : store_wf (store_of sv);
  rc_clock : clock_wf (store_of sv);
  rc_file : log_file (sv_persist sv);
  rc_log : the_log (sv_persist sv) = encode_all cmds;
  rc_canonical : canonical cmds;
  rc_encodable : Forall encodable cmds;
  rc_base : (base ≤ length cmds)%nat;
  rc_on_file : encode_all (take base cmds) `prefix_of` on_file (sv_persist sv);
  rc_past n :
    (base ≤ n ≤ length cmds)%nat → ∃ s, s ∈ sv :: past ∧ remembers T (take n cmds) (store_of s);
  rc_now : remembers T cmds (store_of sv)
}.

Definition recalled (T : Z) (past : list (Server C)) sv : Prop :=
  ∃ cmds base, recalls T past cmds base sv.

(** The log is kept and so is the keyspace. *)
Lemma recalls_kept t T past cmds base sv sv' :
  recalls T past cmds base sv → kept (sv_persist sv) (sv_persist sv') →
  quiet (store_of sv) (store_of sv') → steady t (store_of sv) (store_of sv') → t ≤ T →
  recalls T (sv :: past) cmds base sv'.
Proof.
  intros [Hcf Hw Hc Hf Hl Hcan He Hb Ho Hp Hn] [Hcf' Hf' Hl' Hg] Hq Hst Ht. split; try done.
  - congruence.
  - by apply Hq.
  - eapply clock_wf_later; [apply Hq|done].
  - congruence.
  - by etrans.
  - intros n Hn'. destruct (Hp n Hn') as (s & Hs & Hr). exists s. split; [set_solver|done].
  - by eapply remembers_quiet.
Qed.

(** The log was rewritten from a snapshot of [s]. *)
Lemma recalls_rewritten t T past cmds base sv s sv' :
  recalls T past cmds base sv → rewritten_log s (sv_persist sv) (sv_persist sv') →
  quiet (store_of sv) s → quiet s (store_of sv') → later (snapshot s).2 (store_of sv') →
  steady t (store_of sv) (store_of sv') → t ≤ T → sized t (store_of sv) →
  recalled T (sv :: past) sv'.
Proof.
  intros [Hcf Hw Hc Hf Hl Hcan He Hb Ho Hp Hn] [Hcf' Hf' Hl' Ho'] Hq1 Hq2 Hlater Hst Ht Hsz.
  destruct (steady_split t _ _ _ (quiet_later _ _ Hq1) (quiet_later _ _ Hq2) Hst) as [Hst1 Hst2].
  pose proof (quiet_wf _ _ Hq1 Hw Hc) as Hws. pose proof (clock_wf_later _ _ (quiet_later _ _ Hq1) Hc) as Hcs.
  pose proof (steady_snapshot t s _ Hlater Hst2) as Hnow.
  destruct (remembers_snapshot T s Hws Hcs) as [Hcan' Hr]; [lia|].
  set (recs := record_command <$> (snapshot s).1) in *.
  assert (remembers T recs (store_of sv')) as Hr' by (by eapply remembers_quiet).
  exists recs, (length recs). split; try done.
  - congruence.
  - by apply (quiet_wf _ _ Hq2).
  - eapply clock_wf_later; [apply (quiet_later _ _ Hq2)|done].
  - apply (snapshot_encodable t s Hws Hcs Hnow). intros k v d. rewrite (quiet_view _ _ Hq1 t Hst1) by done. apply Hsz.
  - by rewrite firstn_all, Ho', Hl'.
  - intros n Hn'. exists sv'. split; [set_solver|]. by rewrite take_ge by lia.
Qed.

(** A write was appended. *)
Lemma recalls_append T past cmds base sv a sv' :
  recalls T past cmds base sv → config_ (sv_persist sv') = config_ (sv_persist sv) → log_file (sv_persist sv') →
  the_log (sv_persist sv') = the_log (sv_persist sv) ++ encode a →
  on_file (sv_persist sv') = on_file (sv_persist sv) →
  store_wf (store_of sv') → clock_wf (store_of sv') → is_Some (effect_of a) → encodable a →
  remembers T (cmds ++ [a]) (store_of sv') → recalls T (sv :: past) (cmds ++ [a]) base sv'.
Proof.
  intros [Hcf Hw Hc Hf Hl Hcan He Hb Ho Hp Hn] Hcf' Hf' Hl' Ho' Hw' Hc' Hea Hen Hr. split; try done.
  - congruence.
  - rewrite Hl', Hl, encode_all_app, encode_all_cons. change (encode_all []) with (@nil byte). by rewrite app_nil_r.
  - apply Forall_app. split; [exact Hcan|]. by apply Forall_singleton.
  - apply Forall_app. split; [exact He|]. by apply Forall_singleton.
  - rewrite length_app. lia.
  - by rewrite take_app_le, Ho' by done.
  - intros n [Hn1 Hn2]. rewrite length_app in Hn2. cbn in Hn2.
    destruct (decide (n ≤ length cmds)%nat) as [Hle|Hgt].
    + destruct (Hp n (conj Hn1 Hle)) as (s & Hs & Hrs). exists s. rewrite take_app_le by done.
      split; [set_solver|done].
    + exists sv'. split; [set_solver|]. rewrite take_ge by (rewrite length_app; cbn; lia). done.
Qed.

(** ** Every step keeps it *)

Lemma recalled_same T past sv sv' :
  sv_persist sv' = sv_persist sv → store_of sv' = store_of sv →
  recalled T past sv → recalled T (sv :: past) sv'.
Proof.
  intros Ep Es (cmds & base & H). exists cmds, base. apply (recalls_kept T T past cmds base sv); try done.
  - rewrite Ep. apply kept_frame; [done|apply H].
  - rewrite Es. apply quiet_refl.
  - rewrite Es. intros i Hi. lia.
Qed.

Lemma thread_recalled T past t sv : recalled T past sv → recalled T (sv :: past) (thread_effect t sv).
Proof.
  destruct t as [|e]; cbn [thread_effect].
  - intros (cmds & base & H). exists cmds, base. apply (recalls_kept T T past cmds base sv); try done.
    + apply kept_frame; [|apply H]. apply saver_step_frame, H.
    + intros i Hi. cbn in Hi. lia.
  - destruct (link_thread_ (sv_repl sv)); apply recalled_same; try done; by destruct e.
Qed.

Lemma cron_recalled T past sv sv' :
  server_cron sv = Ret sv' → faultless T (mkEntry sv LCron sv') → recalled T past sv →
  recalled T (sv :: past) sv'.
Proof.
  intros H (Hh & t & Ht & Hst & Hsz) (cmds & base & Hr). cbn [before after] in *.
  unfold server_cron in H. pose proof (quiet_expire_cycle default_ExpiryConfig (sv_store sv)) as Hq1.
  destruct (active_expire_cycle _ _) as [n s]. cbn [snd] in Hq1.
  apply bind_Ret in H as ([s2 p2] & Hc & [= <-]). pose proof (cron_quiet _ _ _ Hc) as Hq2.
  destruct (cron_log _ _ _ Hc (rc_file _ _ _ _ _ Hr) Hh) as [Hk|[Hk Hl]].
  - exists cmds, base. apply (recalls_kept t T past cmds base sv); try done. by eapply quiet_trans.
  - by eapply (recalls_rewritten t T past cmds base sv s).
Qed.

(** A command that changes nothing, though it may rewrite the log. *)
Lemma clean_recalled T past lnk args sv r sv' t :
  dispatch server_table args lnk sv = Ret (r, sv') → dirty r = false → healthy (sv_persist sv) →
  steady t (store_of sv) (store_of sv') → t ≤ T → sized t (store_of sv) →
  recalled T past sv → recalled T (sv :: past) sv'.
Proof.
  intros Hd Hc Hh Hst Ht Hsz (cmds & base & Hr). pose proof Hr as [_ Hw Hck Hf _ _ _ _ _ _ _].
  destruct (dispatch_good _ _ _ _ _ _ server_table_laws Hck Hd) as [Hl Hwf Htr].
  assert (quiet (store_of sv) (store_of sv')) as Hq.
  { split; [done|done|]. intros t' Hst'. specialize (Htr t' Hck Hst'). unfold truthful in Htr.
    rewrite Hc in Htr. apply Htr. }
  destruct (dispatch_log _ _ _ _ _ Hd Hf) as [Hfr|[x Hrw]].
  { exists cmds, base. apply (recalls_kept t T past cmds base sv); try done. by apply kept_frame. }
  cbn in Hrw. unfold on_persist in Hrw. destruct (persist_rewrite_aof _ _) as [x1 [s p]] eqn:E.
  injection Hrw as _ <-. destruct (rewrite_aof_log _ _ _ _ E Hf Hh) as [Hk|[Hk Es]].
  - exists cmds, base. by apply (recalls_kept t T past cmds base sv).
  - apply (recalls_rewritten t T past cmds base sv (store_of sv)); try done.
    cbn [fst] in Es. rewrite <- Es. apply later_refl.
Qed.

Lemma request_recalled T past l args sv sv' :
  encodable args → execute (server_handler l) (Some l) args sv = Ret sv' →
  faultless T (mkEntry sv (LRequest l args) sv') → recalled T past sv → recalled T (sv :: past) sv'.
Proof.
  intros Hen He [Hh Hfl] Hrec. destruct (execute_persist _ _ _ _ He) as (r & sv1 & Hd & Hs & Hp).
  destruct (Hfl r sv1 Hd) as (t & Ht & Hst & Hsz & Hk). cbn [before] in *. destruct (dirty r) eqn:Er.
  2: { apply (clean_recalled T past _ _ _ _ _ t Hd Er Hh Hst Ht Hsz) in Hrec as (cmds & base & Hr).
       exists cmds, base. destruct Hr. split; rewrite ?Hp, ?Hs; try done.
       intros n Hn. destruct (rc_past0 n Hn) as (s & Hin & Hrs). apply elem_of_cons in Hin as [->|Hin].
       - exists sv'. rewrite Hs. split; [set_solver|done].
       - exists s. split; [set_solver|done]. }
  destruct Hrec as (cmds & base & Hr). pose proof Hr as [_ Hw Hck Hf _ _ _ _ _ _ Hnow].
  destruct (dispatch_good _ _ _ _ _ _ server_table_laws Hck Hd) as [Hl Hwf Htr].
  specialize (Htr t Hck Hst). unfold truthful in Htr. rewrite Er in Htr. destruct Htr as (e & Hee & Heff).
  assert (is_Some (effect_of (propagate r))) as Hsome by (by rewrite Hee).
  pose proof (dispatch_encodable _ _ _ _ _ _ Hd Hen Er Hsome) as Henp.
  assert (sv_persist sv1 = sv_persist sv) as Hp1.
  { destruct args as [|a0 a]; [by destruct Hen|]. destruct (dispatch_dirty _ _ _ _ _ _ _ Hd Er) as [Hwc _].
    by destruct (write_command_store _ _ _ _ _ _ _ Hwc Hd) as [s ->]. }
  rewrite Hp1 in Hp. destruct (on_write_log (propagate r) (sv_persist sv) Hf) as (Hf' & Hl' & Ho'); [apply Henp|].
  exists (cmds ++ [propagate r]), base. apply recalls_append; rewrite ?Hp, ?Hs; try done.
  - unfold on_write. by destruct (aof_enabled _).
  - by apply Hwf.
  - by eapply clock_wf_later.
  - eapply remembers_effect; [exact Hnow|exact Hee|exact Heff|exact Ht|]. intros k d ->. by eapply Hk.
Qed.

Lemma step_recalled T past lab sv sv' :
  step lab sv sv' → faultless T (mkEntry sv lab sv') → recalled T past sv → recalled T (sv :: past) sv'.
Proof.
  intros [l args sv1 sv2 Hen He|t sv1 sv2 Ht|sv1 sv2 Hc|t sv1|cs sv1|st sv1 Hcs|l sv1|q now sv1 Hq] Hf Hr.
  - by eapply request_recalled.
  - done.
  - by eapply cron_recalled.
  - by apply thread_recalled.
  - by apply (recalled_same T past sv1).
  - by apply (recalled_same T past sv1).
  - by apply (recalled_same T past sv1).
  - by apply (recalled_same T past sv1).
Qed.

Lemma trace_recalled T past sv tr sv' :
  trace sv tr sv' → Forall (faultless T) tr → recalled T past sv →
  recalled T (reverse (before <$> tr) ++ past) sv'.
Proof.
  intros H. revert past. induction H as [sv|lab sv sv1 tr sv' Hs Ht IH]; intros past Hf Hr; [done|].
  apply Forall_cons in Hf as [Hf1 Hf]. apply (step_recalled T past) in Hs; [|done|done].
  rewrite fmap_cons, reverse_cons, <- app_assoc. cbn [before]. by apply IH.
Qed.

End Durable.

(** ** Starting on a log *)

Section Start.
Context `{UM : UnorderedMap} {C : Type} {B : Backend C}.
Implicit Types (sv : Server C).

(** A start with the log on that the machine does not hinder. *)
Record good_start (x : Outside) (o : Options) : Prop := {
  start_aof : aof_enabled (opt_persist o) = true;
  start_master : replicaof_host o = [];
  start_opens : io_opens (io_ (machine x) (io_calls (machine x))) = true;
  start_picks i : (replid_picks x i ≤ 15)%nat
}.

Lemma apply_all_store (tbl : CommandTable (W:=Server C) (Link:=Link)) cmds sv sv' :
  canonical cmds → apply_all (apply_silently tbl) cmds sv = Ret sv' → ∃ s, sv' = with_store s sv.
Proof.
  intros Hc. revert sv. induction Hc as [|a cmds [e He] Hc IH]; intros sv H; cbn [apply_all] in H.
  { injection H as <-. exists (store_of sv). by rewrite with_store_of. }
  apply bind_Ret in H as (sv1 & H1 & H). destruct (IH _ H) as [s ->]. unfold apply_silently in H1.
  destruct (dispatch_canonical tbl a e sv He) as (r & s' & E & _). rewrite E in H1. injection H1 as <-.
  exists s. done.
Qed.

(** The log replays, whatever was torn off at its end, and is opened again. *)
Lemma load_log fuel x o cmds torn :
  good_start x o → contents_of (disk_ (machine x)) (aof_path (opt_persist o)) = encode_all cmds ++ torn →
  (torn = [] ∨ parse_request torn = incomplete) → Forall encodable cmds → canonical cmds →
  size (encode_all cmds ++ torn) < 2 ^ 64 →
  ∃ sv, load fuel (bare_table (C:=C)) (blank (C:=C) x o) = Ret (None, sv) ∧
    apply_all (apply_silently (bare_table (C:=C))) cmds (blank (C:=C) x o) = Ret (with_store (store_of sv) (blank (C:=C) x o)) ∧
    file_ (aof_ (sv_persist sv)) = Some [] ∧ buffer_ (aof_ (sv_persist sv)) = [] ∧
    path_ (aof_ (sv_persist sv)) = aof_path (opt_persist o) ∧
    config_ (sv_persist sv) = opt_persist o ∧ pid_ (machine_ (sv_persist sv)) = pid_ (machine x) ∧
    disk_ (machine_ (sv_persist sv)) = d_create (aof_path (opt_persist o)) (disk_ (machine x)).
Proof.
  intros [Haof _ Hop _] Hd Ht Henc Hcan Hsz.
  destruct (apply_all_runs (bare_table (C:=C)) cmds (blank (C:=C) x o) Hcan) as (w & Hw & _).
  pose proof (apply_all_store _ _ _ _ Hcan Hw) as [s ->].
  assert (replay (apply_silently (bare_table (C:=C))) (disk_ (machine x)) (aof_path (opt_persist o)) (blank (C:=C) x o) =
    Ret (with_store s (blank (C:=C) x o), Z.of_nat (length cmds), length torn, None)) as Hr.
  { rewrite (replay_contents _ _ _ _ _ Hd).
    assert (Z.of_nat (length cmds) ≤ size (encode_all cmds)) as Hlen.
    { clear. induction cmds as [|a cmds IH]; [done|]. rewrite encode_all_cons. unfold size in *.
      rewrite length_app. pose proof (encode_length a). cbn [length]. lia. }
    unfold size in *. rewrite length_app in Hsz. rewrite replay_commands; [|done|done|done|done|lia].
    by rewrite Hw. }
  unfold load. change (config_ (persist_of (blank (C:=C) x o))) with (opt_persist o). rewrite Haof.
  change (disk_ (machine_ (persist_of (blank (C:=C) x o)))) with (disk_ (machine x)). rewrite Hr.
  cbn [mbind outcome_bind].
  set (p := if Nat.ltb 0 (length torn) then _ else _).
  assert (machine_ p = mkMachine (disk_ (machine x)) (pid_ (machine x)) (wall_ (machine x))
      (S (wall_ticks (machine x))) (io_ (machine x)) (io_calls (machine x)) ∧ config_ p = opt_persist o ∧
    aof_ p = new_aof) as (Em & Ec & Ea) by (unfold p; by destruct (Nat.ltb _ _)).
  unfold next_io. rewrite Em. cbn [machine_ disk_ io_ io_calls]. rewrite Hop. unfold aof_open.
  cbn [aof_]. rewrite Ea. cbn.
  eexists. split; [done|]. split; [exact Hw|]. cbn. rewrite ?Ec, ?Em. by split_and!.
Qed.

Lemma boot_log fuel port x o cmds torn :
  good_start x o → contents_of (disk_ (machine x)) (aof_path (opt_persist o)) = encode_all cmds ++ torn →
  (torn = [] ∨ parse_request torn = incomplete) → Forall encodable cmds → canonical cmds →
  size (encode_all cmds ++ torn) < 2 ^ 64 →
  ∃ cout sv, boot (C:=C) fuel (inr port) x o = Ret (cout, Started port sv) ∧
    ∀ T, steady T (new_store (store_clock x)) (store_of sv) →
    ∀ t, T ≤ t → view t (store_of sv) = ks_expire t (replayed T cmds ∅).
Proof.
  intros Hg Hd Ht Henc Hcan Hsz. destruct (load_log fuel x o cmds torn Hg Hd Ht Henc Hcan Hsz) as (sv & Hl & Ha & _).
  destruct (boot_loaded fuel port x o sv Hl (start_picks _ _ Hg) (start_master _ _ Hg)) as (cout & sv' & Hb & Hs & _).
  exists cout, sv'. split; [done|]. intros T Hst t HtT. rewrite Hs in *.
  destruct (apply_all_runs (bare_table (C:=C)) cmds (blank (C:=C) x o) Hcan) as (w & Hw & Hlater).
  rewrite Ha in Hw. injection Hw as <-. change (later (new_store (store_clock x)) (store_of sv)) in Hlater.
  destruct (steady_split T _ _ _ Hlater (quiet_later _ _ (quiet_size (store_of sv))) Hst) as [Hst1 Hst2].
  change (view t (store_size (store_of sv)).2) with (view t (store_of sv)). rewrite (view_expire T t) by done. f_equal.
  pose proof (apply_all_replayed (bare_table (C:=C)) T cmds _ _ Hcan Ha) as Hr. rewrite store_of_with in Hr.
  rewrite (Hr Hst1). f_equal. apply view_new.
Qed.

(** The first start: there is no log yet. *)
Record first_start (x : Outside) (o : Options) : Prop := {
  first_good : good_start x o;
  first_empty : contents_of (disk_ (machine x)) (aof_path (opt_persist o)) = [];
  first_target : rdb_path (opt_persist o) ≠ aof_path (opt_persist o);
  first_temp : rdb_temp (rdb_path (opt_persist o)) (pid_ (machine x)) ≠ aof_path (opt_persist o);
  first_clock i : 0 ≤ store_clock x i ≤ int64_max
}.

Lemma boot_recalled fuel port x o cout port' sv :
  first_start x o → boot fuel (inr port) x o = Ret (cout, Started port' sv) → ∀ T, recalled (opt_persist o) T [] sv.
Proof.
  intros [Hg Hd Ht Hm Hc] Hb T.
  destruct (load_log fuel x o [] [] Hg) as (sv1 & Hl & Ha & Hf & Hbuf & Hp & Hcfg & Hpid & Hdisk);
    [by rewrite Hd|by left|constructor|constructor|done|].
  destruct (boot_loaded fuel port x o sv1 Hl (start_picks _ _ Hg) (start_master _ _ Hg)) as (cout' & sv' & Hb' & Hs & Hpe).
  rewrite Hb in Hb'. injection Hb' as -> -> ->. cbn [apply_all] in Ha. injection Ha as Ha.
  change (new_store (store_clock x) = store_of sv1) in Ha.
  assert (contents_of (disk_ (machine_ (sv_persist sv'))) (aof_path (opt_persist o)) = []) as Hon.
  { by rewrite Hpe, Hdisk, contents_create. }
  exists [], 0%nat. split.
  - by rewrite Hpe.
  - rewrite Hs, <- Ha. apply (wf_tables (new_store (store_clock x))); [done..|apply wf_new].
  - rewrite Hs, <- Ha. exact Hc.
  - split; rewrite ?Hpe, ?Hcfg, ?Hpid; try done; [apply Hg|]. split; [by rewrite Hf|].
    rewrite Hp, Hdisk. apply d_create_Some.
  - unfold the_log, log, in_stream. rewrite Hpe, Hp, Hf, Hbuf, <- Hpe, Hon. done.
  - constructor.
  - constructor.
  - done.
  - unfold on_file. rewrite Hpe, Hcfg, <- Hpe, Hon. done.
  - intros n Hn. exists sv'. split; [set_solver|]. replace n with 0%nat by (cbn in Hn; lia).
    unfold remembers. rewrite Hs, <- Ha. symmetry. apply (view_new T).
  - unfold remembers. rewrite Hs, <- Ha. symmetry. apply (view_new T).
Qed.

(** What is in the file, and anything between that and all of the log, stands for
    a state the server has been in. *)
Lemma recalled_prefix c T past sv y q :
  recalled c T past sv → on_file (sv_persist sv) `prefix_of` y → the_log (sv_persist sv) = y ++ q →
  ∃ cmds torn s, y = encode_all cmds ++ torn ∧
    (torn = [] ∨ parse_request torn = incomplete) ∧ Forall encodable cmds ∧ canonical cmds ∧
    s ∈ sv :: past ∧ remembers T cmds (store_of s).
Proof.
  intros (cmds & base & [_ Hw Hc Hf Hl Hcan He Hb Ho Hp Hn]) Hy Elog.
  assert (encode_all (take base cmds) `prefix_of` y) as [p ->] by (by etrans).
  assert (encode_all (drop base cmds) = p ++ q) as Eq.
  { rewrite Hl, <- (take_drop base cmds), encode_all_app, <- app_assoc in Elog.
    rewrite (take_drop base cmds) in Elog. by apply app_inv_head in Elog. }
  destruct (log_prefix (drop base cmds) p q (Forall_drop _ _ _ He) Eq) as (n & torn & Ep & Ht & Hn' & _).
  rewrite length_drop in Hn'. destruct (Hp (base + n)%nat) as (s & Hs & Hr); [lia|].
  exists (take (base + n) cmds), torn, s. split_and!; try done.
  - rewrite Ep, <- (take_take_drop cmds base n), encode_all_app. by rewrite app_assoc.
  - by apply Forall_take.
  - by apply Forall_take.
Qed.

(** ** Dying *)

(** The server is about to rewrite the log [a] on the disk [d] from the keyspace
    of [s]: for BGREWRITEAOF, or in the cron task, when it has expired keys and
    flushed the log. *)
Inductive about_to_rewrite sv : Store → rewrite_env → Aof → disk → Prop :=
| rewrite_asked :
    let m := machine_ (sv_persist sv) in
    about_to_rewrite sv (sv_store sv) (io_rewrite (io_ m (io_calls m))) (aof_ (sv_persist sv)) (disk_ m)
| rewrite_scheduled err a d :
    let m := machine_ (sv_persist sv) in
    aof_flush (wall_ m (wall_ticks m)) (io_stream (io_ m (io_calls m))) (aof_ (sv_persist sv)) (disk_ m) =
      Ret (err, a, d) →
    about_to_rewrite sv (active_expire_cycle default_ExpiryConfig (sv_store sv)).2
      (io_rewrite (io_ m (S (io_calls m)))) a d.

(** What the log's file is when the process dies in the state [sv] or in the
    middle of the step after it: as it is; with some of what the log still held,
    if the process was writing that out; or as an interrupted rewrite leaves it,
    one that sees one time, not after [T]. *)
Inductive dies (T : Z) sv : disk → Prop :=
| dies_between : dies T sv (disk_ (machine_ (sv_persist sv)))
| dies_writing p q :
    in_stream (aof_ (sv_persist sv)) ++ buffer_ (aof_ (sv_persist sv)) = p ++ q →
    dies T sv (d_append (path_ (aof_ (sv_persist sv))) p (disk_ (machine_ (sv_persist sv))))
| dies_rewriting s env a d d' t :
    about_to_rewrite sv s env a d → rewrite_interrupted env (snapshot s).1 a d d' →
    steady t (store_of sv) (snapshot s).2 → t ≤ T → sized t (store_of sv) → dies T sv d'.

(** An exception that leaves [run] is one of these deaths: at most what the
    stream held is written out, and the log's own buffer is lost. *)
Lemma exception_dies T sv :
  log_file (sv_persist sv) →
  dies T sv (disk_ (machine_ (sv_persist (exit_streams sv)))) ∧
  buffer_ (aof_ (sv_persist (exit_streams sv))) = buffer_ (aof_ (sv_persist sv)).
Proof.
  intros [_ [[x Hx] _] _ _ _]. unfold exit_streams, fclose. cbn [next_io aof_]. rewrite Hx. cbn. split; [|done].
  set (n := drains _). apply (dies_writing T sv _ (drop n x ++ buffer_ (aof_ (sv_persist sv)))).
  unfold in_stream. by rewrite Hx, app_assoc, take_drop.
Qed.

Lemma log_split p : log_file p → the_log p = on_file p ++ in_stream (aof_ p) ++ buffer_ (aof_ p).
Proof. intros Hf. unfold the_log, log, on_file. by rewrite (lf_path _ Hf). Qed.

(** The log that is about to be rewritten is the server's. *)
Lemma about_to_rewrite_log sv s env a d :
  about_to_rewrite sv s env a d → log_file (sv_persist sv) → healthy (sv_persist sv) →
  quiet (store_of sv) s ∧ aof_ready a d ∧ path_ a = aof_path (config_ (sv_persist sv)) ∧
  log a d = the_log (sv_persist sv) ∧ takes_all (closes env) a ∧ renames env = true ∧
  on_file (sv_persist sv) `prefix_of` contents_of d (path_ a).
Proof.
  intros H Hf Hh. pose proof Hf as [_ Hr Hp _ _]. destruct H as [m|err a d m Hfl].
  - destruct (Hh (io_calls m)) as (_ & ? & ? & _). split_and!; try done. unfold on_file. by rewrite <- Hp.
  - destruct (aof_flush_whole _ _ _ _ _ _ _ Hfl Hr) as (_ & Hr' & Hp' & Hl' & Hb' & Hg); [apply Hh|].
    destruct (Hh (S (io_calls m))) as (_ & Hall & ? & _).
    split_and!; [apply quiet_expire_cycle|done|congruence|done|by eapply takes_all_later|done|].
    unfold on_file. by rewrite Hp', <- Hp.
Qed.

(** What a rewrite from the keyspace of [s] writes stands for that of [sv]. *)
Lemma snapshot_recalls t T sv s :
  store_wf (store_of sv) → clock_wf (store_of sv) → quiet (store_of sv) s →
  steady t (store_of sv) (snapshot s).2 → t ≤ T → sized t (store_of sv) →
  let cmds := record_command <$> (snapshot s).1 in
  Forall encodable cmds ∧ canonical cmds ∧ remembers T cmds (store_of sv).
Proof.
  intros Hw Hc Hq Hst Ht Hsz.
  destruct (steady_split t _ _ _ (quiet_later _ _ Hq) (quiet_later _ _ (quiet_snapshot s)) Hst) as [Hst1 Hst2].
  pose proof (quiet_wf _ _ Hq Hw Hc) as Hws. pose proof (clock_wf_later _ _ (quiet_later _ _ Hq) Hc) as Hcs.
  pose proof (steady_snapshot t s _ (later_refl _) Hst2) as Hnow.
  destruct (remembers_snapshot T s Hws Hcs) as [Hcan Hr]; [lia|]. split_and!; [|done|].
  - apply (snapshot_encodable t s Hws Hcs Hnow). intros k v d. rewrite (quiet_view _ _ Hq t Hst1) by done. apply Hsz.
  - unfold remembers in *. rewrite Hr. by apply (quiet_view _ _ Hq t).
Qed.

(** Unless it is missing, it stands for a state the server has been in. *)
Lemma dies_file c T past sv d :
  recalled c T past sv → healthy (sv_persist sv) → dies T sv d → is_Some (d !! aof_path c) →
  ∃ cmds torn s, contents_of d (aof_path c) = encode_all cmds ++ torn ∧
    (torn = [] ∨ parse_request torn = incomplete) ∧ Forall encodable cmds ∧ canonical cmds ∧
    s ∈ sv :: past ∧ remembers T cmds (store_of s).
Proof.
  intros Hrec Hh Hd Hsome. pose proof Hrec as (cmds0 & base & [Hcfg Hw Hc Hf _ _ _ _ _ _ _]).
  pose proof (log_split _ Hf) as Hl. pose proof Hf as [_ [_ Hdisk] Hp _ _]. rewrite Hcfg in Hp.
  assert (on_file (sv_persist sv) = contents_of (disk_ (machine_ (sv_persist sv))) (aof_path c)) as Eo
    by (unfold on_file; by rewrite Hcfg).
  destruct Hd as [|p q E|s env a d d' t Hab Hi Hst Ht Hsz].
  - rewrite <- Eo. by eapply recalled_prefix.
  - rewrite Hp in *. rewrite contents_append, <- Eo by done. rewrite E, app_assoc in Hl.
    eapply recalled_prefix; [done|by eexists|done].
  - destruct (about_to_rewrite_log _ _ _ _ _ Hab Hf Hh) as (Hq & Hr & Hpa & Hla & Hall & Hrn & Hg).
    rewrite Hcfg in Hpa. rewrite <- Hpa in *.
    destruct (aof_rewrite_never_partial env (snapshot s).1 a d d' Hr Hall Hrn Hi) as [[_ (p & q & E & Hcon)]|[Hnew|[Hno _]]].
    + rewrite Hcon. eapply (recalled_prefix _ _ _ _ _ q); [done|by apply prefix_app_r|].
      rewrite <- Hla. unfold log. by rewrite E, app_assoc.
    + destruct (snapshot_recalls t T sv s Hw Hc Hq Hst Ht Hsz) as (He & Hcan & Hrem).
      exists (record_command <$> (snapshot s).1), [], sv. split_and!; try done; [|by left|set_solver].
      unfold contents_of. rewrite Hnew. by rewrite app_nil_r.
    + rewrite Hno in Hsome. by destruct Hsome.
Qed.

End Start.

(** ** Two lives *)

Section Lives.
Context `{UM : UnorderedMap} {C : Type} {B : Backend C} {EL : EventLoop C}.
Context {C2 : Type} {B2 : Backend C2}.

(** C3: A killed server comes back with a state it has been in.  A server is
    started with the log on and no log yet; whatever its event loop then does is
    a trace of whole requests, cron tasks, steps of its threads, and input and
    output.  Its process dies in any state of such a trace, or in the middle of
    the step after it: while it writes to the log, or in a rewrite.  If the trace
    was faultless with respect to a time [T] -- the files took all that was
    written, what a command about a deadline was about is alive at [T], and
    nothing came from a master -- and unless a rewrite has left no log at all, a
    server started at [T] on the log that is left comes up, and its keyspace,
    from [T] on, is that of the dead server when it died or before one of its
    steps. *)
Theorem killed_server_recovers fuel port x o cout port' (sv0 : Server C) :
  first_start x o → boot fuel (inr port) x o = Ret (cout, Started port' sv0) →
  (∀ env b sv, loop_run env sv0 = Ret (b, sv) → ∃ tr, trace sv0 tr sv) ∧
  ∀ tr sv T d fuel2 port2 x2, trace sv0 tr sv → Forall (faultless T) tr → healthy (sv_persist sv) →
    dies T sv d → is_Some (d !! aof_path (opt_persist o)) →
    size (contents_of d (aof_path (opt_persist o))) < 2 ^ 64 → good_start x2 o →
    disk_ (machine x2) !! aof_path (opt_persist o) = d !! aof_path (opt_persist o) →
    ∃ cout2 (sv2 : Server C2) s, boot fuel2 (inr port2) x2 o = Ret (cout2, Started port2 sv2) ∧
      s ∈ sv :: reverse (before <$> tr) ∧
      (steady T (new_store (store_clock x2)) (store_of sv2) →
       ∀ t, T ≤ t → view t (store_of sv2) = view t (store_of s)).
Proof.
  intros Hf Hb. split; [intros env b sv; apply loop_run_reaches|].
  intros tr sv T d fuel2 port2 x2 Htr Hall Hh Hdie Hsome Hsz Hg Hd.
  pose proof (trace_recalled _ T [] _ _ _ Htr Hall (boot_recalled _ _ _ _ _ _ _ Hf Hb T)) as Hrec.
  rewrite app_nil_r in Hrec.
  destruct (dies_file _ _ _ _ _ Hrec Hh Hdie Hsome) as (cmds & torn & s & Ho & Ht & He & Hcan & Hs & Hr).
  assert (contents_of (disk_ (machine x2)) (aof_path (opt_persist o)) = encode_all cmds ++ torn) as Hon.
  { rewrite <- Ho. unfold contents_of. by rewrite Hd. }
  rewrite Ho in Hsz. destruct (boot_log (C:=C2) fuel2 port2 x2 o cmds torn Hg Hon Ht He Hcan Hsz)
    as (cout2 & sv2 & Hb2 & Hv).
  exists cout2, sv2, s. split_and!; [done|done|]. intros Hst t HtT.
  rewrite (Hv T Hst t HtT), (view_expire T t) by done. f_equal. exact Hr.
Qed.




End Lives.

(** ** A restart after SAVE *)

(** C17: A restart after SAVE.  When SAVE has reported success, a server that is
    started later on the same files, with the log off, comes up with the
    keyspace that was saved: started at a time [t] not before the save, its
    keyspace is the saved one from [t] on. *)
Theorem restart_restores_save `{UM : UnorderedMap} {C : Type} {B : Backend C} s p s1 p1 x o port t t' fuel :
  persist_save s p = ((true, []), (s1, p1)) →
  store_wf s → size (rdb_serialize (snapshot s).1) < 2 ^ 64 →
  (length (rdb_serialize (snapshot s).1) ≤ fuel)%nat →
  opt_persist o = config_ p → aof_enabled (config_ p) = false → replicaof_host o = [] →
  (∀ i, (replid_picks x i ≤ 15)%nat) →
  disk_ (machine x) = disk_ (machine_ p1) → now s ≤ t → t ≤ t' →
  ∃ cout (sv : Server C), boot fuel (inr port) x o = Ret (cout, Started port sv) ∧
    (steady t (new_store (store_clock x)) (store_of sv) → view t' (store_of sv) = view t' s).
Proof.
  intros Hs Hw Hsz Hf Ho Haof Hh Hp Hd Hn Ht.
  destruct (save_restores (bare_table (C:=C)) (blank x o) s p s1 p1 t t' fuel) as (sv & Hl & Hv); try done.
  { apply view_new. }
  destruct (boot_loaded fuel port x o sv Hl Hp Hh) as (cout & sv' & Hboot & Hst & _). exists cout, sv'.
  split; [done|]. rewrite Hst. intros Hst'. apply Hv. intros i Hi. apply Hst'. cbn in *. lia.
Qed.

(** ** Witnesses *)

Section Witnesses.
#[local] Existing Instance gmap_table.

(** The machine after a SAVE of a keyspace with one key. *)
Definition saved : (bool * bytes) * (Store * Persistence) := persist_save one_key (fresh good_io).

Lemma restart_restores_save_witness :
  ∃ cout (sv : Server Conn),
    boot 1000 (inr 6379) (outside 50 (disk_ (machine_ saved.2.2))) default_Options =
      Ret (cout, Started 6379 sv) ∧
    view 60 (store_of sv) = view 60 one_key.
Proof.
  destruct (restart_restores_save (C:=Conn) one_key (fresh good_io) saved.2.1 saved.2.2
    (outside 50 (disk_ (machine_ saved.2.2))) default_Options 6379 50 60 1000) as (cout & sv & H & Hv).
  - unfold saved. apply pair_eta. reflexivity.
  - exact one_saved_wf.
  - vm_compute. reflexivity.
  - apply Nat.leb_le. vm_compute. reflexivity.
  - reflexivity.
  - reflexivity.
  - reflexivity.
  - apply outside_picks.
  - reflexivity.
  - by vm_compute.
  - done.
  - exists cout, sv. split; [exact H|]. exact (Hv (λ i _, eq_refl)).
Defined.

(** One client, one SET. *)
Definition set_line : bytes := bs "SET k v" ++ crlf.

Definition set_args : Args := [bs "SET"; bs "k"; bs "v"].




(** Its steps, from the first state on. *)
Definition queue_taken (sv : Server Conn) : Server Conn := with_loop [] (last_cron_ sv) sv.

Definition put_input (input : Buffer) (c : Conn) (sv : Server Conn) : Server Conn :=
  with_conns (<[7%nat := set_in input c]> (conns_ sv)) sv.

Definition set_client : Conn := mkClient (endpoint_name (bs "10.0.0.1") 5000) buf_empty buf_empty false.

Definition set_accepted (sv : Server Conn) : Server Conn :=
  with_sv_stats (on_connect (sv_stats sv)) (with_conns (<[7%nat := set_client]> (conns_ sv)) (queue_taken sv)).

Definition set_read (sv : Server Conn) : Server Conn :=
  with_sv_stats (count_read 9 (sv_stats sv)) (put_input (buf_append buf_empty set_line) set_client (queue_taken sv)).

Definition set_left (c : Conn) (sv : Server Conn) : Server Conn :=
  with_sv_stats (count_commands 1 (sv_stats sv)) (put_input (consume (buf_append buf_empty set_line) 9) c sv).




Definition log_options : Options :=
  with_backend kPoll (on_persist_cfg (with_appendonly true) default_Options).

Definition first_boot : Server Conn :=
  match boot 0 (inr 6379) (outside 10 ∅) log_options with
  | Ret (_, Started _ sv) => sv
  | _ => blank (outside 10 ∅) log_options
  end.

Lemma log_options_first : first_start (outside 10 ∅) log_options.
Proof.
  split; [split; [reflexivity..|apply outside_picks]|reflexivity|by vm_compute|by vm_compute|].
  intros i. cbn. unfold int64_max. lia.
Qed.

Lemma first_boot_started :
  ∃ cout, boot 0 (inr 6379) (outside 10 ∅) log_options = Ret (cout, Started 6379 first_boot).
Proof.
  pose proof log_options_first as [Hg Hd _ _ _].
  destruct (boot_log (C:=Conn) 0 6379 (outside 10 ∅) log_options [] [] Hg) as (cout & sv & Hb & _);
    [by rewrite Hd|by left|constructor|constructor|done|].
  exists cout. unfold first_boot. by rewrite Hb.
Qed.

Definition before_set : Server Conn := set_read (set_accepted first_boot).

Definition after_set : Server Conn :=
  ret_or before_set (execute (server_handler 7%nat) (Some 7%nat) set_args before_set).

Definition set_answered : Conn := default set_client (conns_ after_set !! 7%nat).

Definition set_end : Server Conn := set_left set_answered after_set.

Lemma before_set_executes : execute (server_handler 7%nat) (Some 7%nat) set_args before_set = Ret after_set.
Proof. apply ret_or_eq. vm_compute. reflexivity. Qed.





Definition set_trace_of (sv w : Server Conn) (c : Conn) : list (entry Conn) :=
  let q1 := queue_taken sv in
  let c1 := with_conns (<[7%nat := set_client]> (conns_ sv)) q1 in
  let a1 := set_accepted sv in
  let q2 := queue_taken a1 in
  let c2 := put_input (buf_append buf_empty set_line) set_client q2 in
  let c3 := put_input (consume (buf_append buf_empty set_line) 9) c w in
  [mkEntry sv LIo q1; mkEntry q1 LIo c1; mkEntry c1 LIo a1; mkEntry a1 LIo q2; mkEntry q2 LIo c2;
   mkEntry c2 LIo (set_read a1); mkEntry (set_read a1) (LRequest 7%nat set_args) w; mkEntry w LIo c3;
   mkEntry c3 LIo (set_left c w)].

Definition set_trace : list (entry Conn) := set_trace_of first_boot after_set set_answered.

Lemma set_args_encodable : encodable set_args.
Proof.
  unfold encodable, set_args, kMaxMultibulkLength, kMaxBulkLength, size. split_and!; [done|cbn; lia|].
  repeat constructor; cbn; lia.
Qed.

Lemma set_traces sv w c :
  execute (server_handler 7%nat) (Some 7%nat) set_args (set_read (set_accepted sv)) = Ret w →
  trace sv (set_trace_of sv w c) (set_left c w).
Proof.
  intros He. unfold set_trace_of.
  eapply trace_cons; [apply step_queue; apply list_subseteq_nil|].
  eapply trace_cons; [apply step_conns|].
  eapply trace_cons; [apply (step_counted (on_connect (sv_stats sv))); constructor|].
  eapply trace_cons; [apply step_queue; apply list_subseteq_nil|].
  eapply trace_cons; [apply step_conns|].
  eapply trace_cons; [apply (step_counted (count_read 9 (sv_stats (set_accepted sv)))); constructor|].
  eapply trace_cons; [apply step_request; [exact set_args_encodable|exact He]|].
  eapply trace_cons; [apply step_conns|].
  eapply trace_cons; [apply (step_counted (count_commands 1 (sv_stats w))); constructor|].
  apply trace_nil.
Qed.

Lemma set_traced : trace first_boot set_trace set_end.
Proof. apply set_traces. exact before_set_executes. Qed.

Definition set_result : CommandResult :=
  (ret_or (clean [], before_set) (dispatch server_table set_args (Some 7%nat) before_set)).1.

Lemma set_faultless : Forall (faultless 50) set_trace.
Proof.
  assert (faultless 50 (mkEntry before_set (LRequest 7%nat set_args) after_set)) as H
    ; [|unfold set_trace, set_trace_of; repeat (apply Forall_cons; split; [first [exact I|exact H]|]); apply Forall_nil_2].
  split; [intros i; repeat split; first [apply Nat.leb_le; vm_compute; reflexivity|reflexivity]|].
  intros r sv1 Hd. exists 10. split_and!; [done|done| |].
  - intros k v d Hv. assert (view 10 (store_of before_set) !! k = None) as Hn by reflexivity.
    cbn [before] in Hv. rewrite Hn in Hv. done.
  - intros k d He. assert (r = set_result) as ->.
    { unfold set_result. cbn [before] in Hd. by rewrite Hd. }
    revert He. by vm_compute.
Qed.

Lemma set_end_healthy : healthy (sv_persist set_end).
Proof. intros i. repeat split; first [apply Nat.leb_le; vm_compute; reflexivity|reflexivity]. Qed.

(** The process dies when five bytes of the command are in the file. *)
Definition set_torn : disk :=
  d_append (path_ (aof_ (sv_persist set_end))) (take 5 (buffer_ (aof_ (sv_persist set_end))))
    (disk_ (machine_ (sv_persist set_end))).

Lemma set_dies : dies 50 set_end set_torn.
Proof. apply (dies_writing 50 set_end _ (drop 5 (buffer_ (aof_ (sv_persist set_end))))). vm_compute. reflexivity. Qed.

Lemma killed_server_recovers_witness :
  ∃ cout (sv : Server Session) s,
    boot 100 (inr 6379) (outside 50 set_torn) log_options = Ret (cout, Started 6379 sv) ∧
    s ∈ set_end :: reverse (before <$> set_trace) ∧ view 60 (store_of sv) = view 60 (store_of s).
Proof.
  destruct first_boot_started as [cout0 Hb].
  destruct (killed_server_recovers (EL:=poll_loop) (C2:=Session) 0 6379 (outside 10 ∅) log_options cout0 6379 first_boot)
    as [_ Hk]; [exact log_options_first|exact Hb|].
  destruct (Hk set_trace set_end 50 set_torn 100%nat 6379 (outside 50 set_torn)) as (cout & sv & s & H & Hs & Hv);
    [exact set_traced|exact set_faultless|exact set_end_healthy|exact set_dies|vm_compute; by eexists
    |vm_compute; reflexivity|split; [reflexivity..|apply outside_picks]|by rewrite outside_disk|].
  exists cout, sv, s. split_and!; [exact H|exact Hs|]. apply (Hv (λ i _, eq_refl)). lia.
Defined.













End Witnesses.
