(* ===== verification/Invariant.v ===== *)
(** * The keyspace is well-formed throughout the program

    From whatever files the program is started, whatever is asked of it and
    whatever its threads do, the two tables of the store agree: a deadline
    belongs to a key, and it is one that the arithmetic on times can bear.  The
    parts that write to the store, commands, the log's replay, snapshots from a
    file or from a master, and expiry, each keep this. *)

From S2P Require Import Prelude Resp UnorderedMap Store Keyspace StoreScan Stats Commands CommandSpec Dispatch Handler.
From S2P Require Import Encode Files Aof Rdb RdbFile Persistence PersistenceTheorems Journal Replication Server.
From S2P Require Import PollServer AsioServer Steps MasterStream Main Durable.

(** ** Snapshots *)

Definition fits (z : Z) : Prop := int64_min ≤ z ≤ int64_max.

Lemma fits_signed z : fits (to_signed 64 z).
Proof.
  unfold to_signed, fits, int64_min, int64_max. pose proof (Z.mod_pos_bound z (2 ^ 64) ltac:(lia)). split_if; lia.
Qed.

Lemma fits_checked z z' : checked64 z = Ret z' → fits z'.
Proof. intros [H ->]%checked64_Ret. unfold in_int64 in H. unfold fits. breflect. lia. Qed.

Lemma rdb_step_fits data opcode pending out r x :
  rdb_step data opcode pending out r = Ret x → fits pending → Forall (λ r, fits (expire_at r)) out →
  match x with
  | inl (out, _) => Forall (λ r, fits (expire_at r)) out
  | inr (pending, out, _) => fits pending ∧ Forall (λ r, fits (expire_at r)) out
  end.
Proof.
  intros H Hp Ho. unfold rdb_step in H.
  repeat match type of H with
    | (if ?b then _ else _) = _ => destruct b
    | (_ ≫= _) = Ret _ => apply bind_Ret in H as (? & ? & H)
    | context [let '(_, _) := ?y in _] => destruct y
    end; injection H as <-; try done.
  - by split; [apply fits_signed|].
  - split; [|done]. by eapply fits_checked.
  - split; [by vm_compute|]. apply Forall_app. by split; [|constructor].
Qed.

(** The deadlines of a snapshot are [std::int64_t]s, whatever the bytes. *)
Lemma rdb_parse_fits fuel payload recs err :
  rdb_parse fuel payload = Ret (recs, err) → Forall (λ r, fits (expire_at r)) recs.
Proof.
  assert (∀ data fuel pending out r, rdb_loop data fuel pending out r = Ret (recs, err) →
    fits pending → Forall (λ r, fits (expire_at r)) out → Forall (λ r, fits (expire_at r)) recs) as Hloop.
  { intros data. induction fuel0 as [|fuel0 IH]; intros pending out r H Hp Ho; cbn [rdb_loop] in H; [done|].
    destruct (eof _ _); [by injection H as <- <-|]. apply bind_Ret in H as ([opcode r1] & _ & H).
    destruct (negb _); [by injection H as <- <-|]. apply bind_Ret in H as (x & Hx & H).
    apply rdb_step_fits in Hx; [|done..]. destruct x as [[out' msg]|[[pending' out'] r2]]; [by injection H as <- <-|].
    destruct (negb _); [injection H as <- <-; constructor|]. destruct Hx. by eapply IH. }
  unfold rdb_parse. intros H.
  repeat match type of H with
    | (if ?b then _ else _) = _ => destruct b; [injection H as <- <-; constructor|]
    | match ?y with _ => _ end = _ => destruct y; [|done]
    end.
  eapply Hloop; [exact H|by vm_compute|constructor].
Qed.

(** ** The steps of the program *)

Section Invariant.
Context `{UM : UnorderedMap} {C : Type} {B : Backend C}.
Implicit Types (sv : Server C) (tbl : CommandTable (W:=Server C) (Link:=Link)).

Definition sound sv : Prop := store_wf (store_of sv) ∧ clock_wf (store_of sv).

Lemma sound_same sv sv' : store_of sv' = store_of sv → sound sv → sound sv'.
Proof. unfold sound. by intros ->. Qed.

Lemma sound_quiet sv sv' : quiet (store_of sv) (store_of sv') → sound sv → sound sv'.
Proof. intros Hq [Hw Hc]. split; [by apply Hq|]. eapply clock_wf_later; [apply Hq|done]. Qed.

Lemma dispatch_sound tbl args l sv r sv' :
  TableLaws tbl → dispatch tbl args l sv = Ret (r, sv') → sound sv → sound sv'.
Proof.
  intros L Hd [Hw Hc]. destruct (dispatch_good tbl args l sv r sv' L Hc Hd) as [Hl Hwf _].
  split; [auto|by eapply clock_wf_later].
Qed.

Lemma apply_silently_sound tbl args sv sv' :
  TableLaws tbl → apply_silently tbl args sv = Ret sv' → sound sv → sound sv'.
Proof.
  intros L. unfold apply_silently. destruct (dispatch _ _ _ _) as [[r sv1]| |] eqn:E; [|done..].
  intros [= <-]. by eapply dispatch_sound.
Qed.

Lemma bare_table_laws : TableLaws (bare_table (C:=C)).
Proof. by split. Qed.

Lemma replay_loop_sound fuel total remaining k sv sv' n torn err :
  replay_loop (apply_silently bare_table) fuel total remaining k sv = Ret (sv', n, torn, err) → sound sv → sound sv'.
Proof.
  revert remaining k sv.
  induction fuel as [|fuel IH]; intros remaining k sv H Hs; destruct remaining as [|c rest]; cbn [replay_loop] in H;
    [by injection H as <- <- <- <-|done|by injection H as <- <- <- <-|].
  destruct (status _); [|by injection H as <- <- <- <-..].
  destruct (args (parse_request (c :: rest))); [exact (IH _ _ _ H Hs)|].
  apply bind_Ret in H as (sv1 & H1 & H). apply (IH _ _ _ H).
  by eapply apply_silently_sound; [apply bare_table_laws|..].
Qed.

Lemma load_records_sound recs sv :
  Forall (λ r, fits (expire_at r)) recs → sound sv → sound (with_store (load_records recs (store_of sv)) sv).
Proof.
  intros Hr [Hw Hc]. unfold sound. rewrite store_of_with.
  split; [by apply load_records_wf|]. eapply clock_wf_later; [apply load_records_later|done].
Qed.

Lemma load_sound fuel sv err sv' : load fuel bare_table sv = Ret (err, sv') → sound sv → sound sv'.
Proof.
  unfold load. destruct (aof_enabled _); [|destruct (negb _)].
  - intros ([[[w n] torn] e] & H1 & H)%bind_Ret Hs. assert (sound w) as Hw.
    { unfold replay in H1. destruct (_ !! _); [by eapply replay_loop_sound|by injection H1 as <- <- <- <-]. }
    destruct e as [msg|]; [by injection H as <- <-|]. cbn [next_io] in H.
    destruct (aof_open _ _ _ _ _ _) as [[err' a] d]. injection H as <- <-. by apply (sound_same w).
  - by intros [= <- <-].
  - intros ([recs e] & H1 & H)%bind_Ret Hs. destruct e; injection H as <- <-; [done|].
    apply load_records_sound; [|done]. unfold rdb_load_file in H1.
    repeat (case_match; [|..]); try (injection H1 as <-; constructor); by eapply rdb_parse_fits.
Qed.

Lemma boot_sound fuel made x o cout port sv :
  (∀ i, 0 ≤ store_clock x i ≤ int64_max) → boot fuel made x o = Ret (cout, Started port sv) → sound sv.
Proof.
  intros Hx Hb. unfold boot in Hb. apply bind_Ret in Hb as ([err sv1] & H1 & Hb).
  apply load_sound in H1; [|split; [apply wf_new|exact Hx]]. destruct err; [done|].
  apply (sound_quiet sv1 (with_sv_store (store_size (sv_store sv1)).2 sv1)) in H1; [|apply quiet_size].
  destruct (store_size (sv_store sv1)) as [n s]. apply bind_Ret in Hb as (id & _ & Hb).
  destruct made; [done|]. destruct (replicaof_host o) as [|c h].
  - injection Hb as _ _ <-. by eapply sound_same; [|exact H1].
  - apply bind_Ret in Hb as ([[ok msg] sv2] & H2 & Hb). destruct ok; [|done]. injection Hb as _ _ <-.
    unfold repl_replicaof in H2. destruct (negb _); [by injection H2 as _ _ <-|].
    apply bind_Ret in H2 as (sv3 & [_ H3]%stop_replication_persist & [= _ <-]). by eapply sound_same; [|exact H1].
Qed.

(** A snapshot from the master is one that was parsed, as the link thread does
    before it posts it. *)
Definition from_snapshot (lab : label) : Prop :=
  match lab with
  | LTask (TaskResync records) => ∃ fuel payload err, rdb_parse fuel payload = Ret (records, err)
  | _ => True
  end.

Lemma task_sound t sv sv' : run_task server_table t sv = Ret sv' → from_snapshot (LTask t) → sound sv → sound sv'.
Proof.
  destruct t as [records|args]; cbn [run_task from_snapshot].
  - intros [= <-] (fuel & payload & err & Hr%rdb_parse_fits) [Hw Hc].
    eapply sound_same; [|apply (load_records_sound records (with_store (clear (store_of sv)) sv) Hr)]; [done|].
    unfold sound. rewrite store_of_with. split; [by apply wf_clear|done].
  - intros H _. eapply apply_silently_sound; [apply server_table_laws|exact H].
Qed.

Lemma step_sound lab sv sv' : step lab sv sv' → from_snapshot lab → sound sv → sound sv'.
Proof.
  intros [l args sv1 sv2 Hen He|t sv1 sv2 Ht|sv1 sv2 Hc|t sv1|cs sv1|st sv1 Hcs|l sv1|q now sv1 Hq] Hp Hs; try done.
  - destruct (execute_persist _ _ _ _ He) as (r & sv3 & Hd & E & _). apply (sound_same sv3); [done|].
    by eapply dispatch_sound; [apply server_table_laws|..].
  - by eapply task_sound.
  - unfold server_cron in Hc. pose proof (quiet_expire_cycle default_ExpiryConfig (sv_store sv1)) as Hq1.
    destruct (active_expire_cycle _ _) as [n s]. apply bind_Ret in Hc as ([s2 p2] & Hc%cron_quiet & [= <-]).
    eapply sound_quiet; [|exact Hs]. by eapply quiet_trans.
  - destruct t as [|e]; cbn [thread_effect]; [done|]. destruct (link_thread_ _); [|done].
    eapply sound_same; [|exact Hs]. by destruct e.
Qed.

(** C7: The keyspace is well-formed throughout the program.  Started on whatever
    files, with whatever options, and in every state that requests, tasks of
    the link thread, the cron task, the threads, and input and output lead to:
    no key has a deadline that is not in the table, every deadline is a 64-bit
    number other than the mark for none, and so the time to live of any key can
    be computed without overflow.  A run of either event loop goes through such
    states only.  Assumed is that the system clock gives non-negative 64-bit
    times, and that a snapshot posted by the link thread is one that was
    parsed. *)
Theorem program_store_invariant {EL : EventLoop C} fuel made x o cout port sv0 :
  (∀ i, 0 ≤ store_clock x i ≤ int64_max) → boot fuel made x o = Ret (cout, Started port sv0) →
  (∀ env b sv, loop_run env sv0 = Ret (b, sv) → ∃ tr, trace sv0 tr sv) ∧
  ∀ tr sv, trace sv0 tr sv → Forall (λ e, from_snapshot (did e)) tr →
    store_wf (store_of sv) ∧ ∀ k, defined (pttl k (store_of sv)).
Proof.
  intros Hx Hb. split; [intros env b sv; apply loop_run_reaches|]. apply boot_sound in Hb; [|done].
  intros tr sv Htr. induction Htr as [sv|lab sv sv1 tr sv' Hs Htr IH]; intros Hp.
  - split; [apply Hb|]. intros k. by apply pttl_defined; apply Hb.
  - apply Forall_cons in Hp as [Hp1 Hp]. apply IH; [|done]. by eapply step_sound.
Qed.

End Invariant.

(** ** Witness *)

Section Witness.
#[local] Existing Instance gmap_table.

Lemma program_store_invariant_witness :
  store_wf (store_of set_end) ∧ ∀ k, defined (pttl k (store_of set_end)).
Proof.
  destruct first_boot_started as [cout Hb].
  destruct (program_store_invariant (EL:=poll_loop) 0 (inr 6379) (outside 10 ∅) log_options cout 6379 first_boot)
    as [_ H]; [intros i; by vm_compute|exact Hb|].
  apply (H set_trace set_end); [exact set_traced|]. repeat constructor.
Defined.

End Witness.
