(* ===== verification/Tools.v ===== *)
(** * The programs around the server (fuzz/resp_fuzz.cpp, bench/conn_scale.cpp)

    The fuzz target, which traps when the parser breaks its contract, and the
    connection scaler, a client that opens many connections and sends PING on
    each of them.  Latencies are kept in nanoseconds here; the tool converts
    each of them to a [double] of milliseconds, which keeps their order.  The
    index of a percentile is computed in [double] as the tool does, with the
    floating-point numbers of the standard library's [SpecFloat]. *)

From Stdlib Require Import SpecFloat.
From stdpp Require Import sorting.
From S2P Require Import Prelude Resp Main.

(** ** The fuzz target *)

(** The return value, or [None] for [__builtin_trap]. *)
Definition LLVMFuzzerTestOneInput (input : bytes) : option Z :=
  let result := parse_request input in
  if Nat.ltb (length input) (consumed result) then None
  else if negb (bool_decide (status result = kOk)) && negb (Nat.eqb (consumed result) 0) then None
  else Some 0.

(** ** The connection scaler *)

Record BenchOptions := mkBenchOptions {
  bench_host : bytes;
  bench_port : Z;
  conns : Z;
  rounds : Z
}.

Definition default_BenchOptions : BenchOptions := mkBenchOptions (bs "127.0.0.1") 6379 1000 1.

(** The loop over the arguments: the last one is never looked at, and what is
    not an option is skipped.  [None] is an exception that nothing catches. *)
Fixpoint bench_args (argv : list bytes) (o : BenchOptions) : option BenchOptions :=
  match argv with
  | [] | [_] => Some o
  | a :: ((x :: argv') as argv) =>
      if beq a (bs "--host") then
        bench_args argv' (mkBenchOptions x (bench_port o) (conns o) (rounds o))
      else if beq a (bs "--port") then
        n ← stoi x; bench_args argv' (mkBenchOptions (bench_host o) (to_uint16 n) (conns o) (rounds o))
      else if beq a (bs "--conns") then
        n ← stoi x; bench_args argv' (mkBenchOptions (bench_host o) (bench_port o) n (rounds o))
      else if beq a (bs "--rounds") then
        n ← stoi x; bench_args argv' (mkBenchOptions (bench_host o) (bench_port o) (conns o) n)
      else bench_args argv o
  end.

(** *** Percentiles *)

(** [double] *)
Definition double_prec : Z := 53.
Definition double_emax : Z := 1024.

Definition double_of (n : Z) : spec_float := binary_normalize double_prec double_emax n 0 false.

(** The conversion of a [double] that is not negative to [std::size_t]. *)
Definition to_size_t (x : spec_float) : Z :=
  match x with S754_finite false m e => Z.shiftl (Zpos m) e | _ => 0 end.

(** [p / 100.0 * (v.size() - 1)] *)
Definition percentile_index (p n : Z) : Z :=
  to_size_t (SFmul double_prec double_emax
    (SFdiv double_prec double_emax (double_of p) (double_of 100)) (double_of (n - 1))).

(** [nth_element] puts the element there that sorting would; the order of the
    others is not observed ([percentile_perm]). *)
Definition percentile (v : list Z) (p : Z) : outcome Z :=
  match v with
  | [] => Ret 0
  | _ :: _ =>
      match merge_sort Z.le v !! Z.to_nat (percentile_index p (Z.of_nat (length v))) with
      | None => Undefined
      | Some x => Ret x
      end
  end.

(** *** The run *)

(** One PING: whether the write or the read of seven bytes fails, and the time
    before and after, in nanoseconds. *)
Record trip := mkTrip {
  write_error : bool;
  read_error : bool;
  t0 : Z;
  t1 : Z
}.

(** What the tool meets: which addresses [make_address] accepts, which sizes
    [std::vector::reserve] can reserve, whether the [i]-th connection is
    refused, and how the PING of a round on a socket goes. *)
Record bench_env := mkBenchEnv {
  is_address : bytes → bool;
  reserves : Z → bool;
  connect_error : nat → bool;
  ping_trip : nat → nat → trip
}.

(** The sockets, by the number of the attempt, and the failures. *)
Fixpoint connect_loop (env : bench_env) (n i : nat) (sockets : list nat) (failed_connect : Z)
    : list nat * Z :=
  match n with
  | O => (sockets, failed_connect)
  | S n =>
      if connect_error env i then connect_loop env n (S i) sockets (failed_connect + 1)
      else connect_loop env n (S i) (sockets ++ [i]) failed_connect
  end.

(** [++io_errors] on an [int]. *)
Definition count_error (io_errors : Z) : outcome Z :=
  if io_errors <? 2 ^ 31 - 1 then Ret (io_errors + 1) else Undefined.

(** One round over the sockets: the latencies and the errors. *)
Fixpoint ping_round (env : bench_env) (round : nat) (sockets : list nat) (latencies : list Z) (io_errors : Z)
    : outcome (list Z * Z) :=
  match sockets with
  | [] => Ret (latencies, io_errors)
  | s :: sockets =>
      let t := ping_trip env round s in
      if write_error t || read_error t then
        io_errors ← count_error io_errors; ping_round env round sockets latencies io_errors
      else ping_round env round sockets (latencies ++ [t1 t - t0 t]) io_errors
  end.

Fixpoint ping_rounds (env : bench_env) (n round : nat) (sockets : list nat) (latencies : list Z) (io_errors : Z)
    : outcome (list Z * Z) :=
  match n with
  | O => Ret (latencies, io_errors)
  | S n =>
      '(latencies, io_errors) ← ping_round env round sockets latencies io_errors;
      ping_rounds env n (S round) sockets latencies io_errors
  end.

(** How the tool ends: an exception nothing catches, or a report and the status. *)
Inductive bench_end :=
| BenchThrew
| BenchReport (established failed : Z) (latencies : list Z) (io_errors : Z) (percentiles : list Z)
    (status : Z).

Definition bench_status (failed_connect io_errors : Z) : Z :=
  if (failed_connect =? 0) && (io_errors =? 0) then 0 else 1.

(** A negative count is converted to [std::size_t]. *)
Definition bench_main (env : bench_env) (argv : list bytes) : outcome bench_end :=
  match bench_args argv default_BenchOptions with
  | None => Ret BenchThrew
  | Some opt =>
      if negb (is_address env (bench_host opt)) then Ret BenchThrew
      else if negb (reserves env (wrap64 (conns opt))) then Ret BenchThrew
      else
        let '(sockets, failed_connect) := connect_loop env (Z.to_nat (conns opt)) 0 [] 0 in
        if negb (reserves env (wrap64 (Z.of_nat (length sockets) * wrap64 (rounds opt)))) then
          Ret BenchThrew
        else
          '(latencies, io_errors) ← ping_rounds env (Z.to_nat (rounds opt)) 0 sockets [] 0;
          p50 ← percentile latencies 50;
          p95 ← percentile latencies 95;
          p99 ← percentile latencies 99;
          max ← percentile latencies 100;
          Ret (BenchReport (Z.of_nat (length sockets)) failed_connect latencies io_errors
                 [p50; p95; p99; max] (bench_status failed_connect io_errors))
  end.

(** ** Lemmas *)

Lemma connect_loop_counts env n i sockets failed :
  let '(sockets', failed') := connect_loop env n i sockets failed in
  Z.of_nat (length sockets') + failed' = Z.of_nat (length sockets) + failed + Z.of_nat n ∧ failed ≤ failed'.
Proof.
  revert i sockets failed. induction n as [|n IH]; intros i sockets failed; cbn [connect_loop]; [lia|].
  destruct (connect_error env i); [specialize (IH (S i) sockets (failed + 1))|specialize (IH (S i) (sockets ++ [i]) failed)];
    destruct (connect_loop _ _ _ _ _); rewrite ?length_app in IH; cbn in IH; lia.
Qed.

Lemma count_error_Ret n n' : count_error n = Ret n' → n' = n + 1.
Proof. unfold count_error. split_if; congruence. Qed.

Lemma ping_round_counts env round sockets latencies errors latencies' errors' :
  ping_round env round sockets latencies errors = Ret (latencies', errors') →
  Z.of_nat (length latencies') + errors' = Z.of_nat (length latencies) + errors + Z.of_nat (length sockets) ∧
  errors ≤ errors'.
Proof.
  revert latencies errors. induction sockets as [|s sockets IH]; intros latencies errors H; cbn [ping_round length] in *;
    [injection H as <- <-; lia|].
  destruct (_ || _).
  - apply bind_Ret in H as (e & ->%count_error_Ret & H%IH). lia.
  - apply IH in H. rewrite length_app in H. cbn [length] in H. lia.
Qed.

Lemma ping_rounds_counts env n round sockets latencies errors latencies' errors' :
  ping_rounds env n round sockets latencies errors = Ret (latencies', errors') →
  Z.of_nat (length latencies') + errors' =
    Z.of_nat (length latencies) + errors + Z.of_nat n * Z.of_nat (length sockets) ∧ errors ≤ errors'.
Proof.
  revert round latencies errors. induction n as [|n IH]; intros round latencies errors H; cbn [ping_rounds] in H;
    [injection H as <- <-; lia|].
  apply bind_Ret in H as ([l1 e1] & H1%ping_round_counts & H%IH). lia.
Qed.

(** The order of the latencies does not matter. *)
Lemma percentile_perm v v' p : v ≡ₚ v' → percentile v p = percentile v' p.
Proof.
  intros Hv. assert (merge_sort Z.le v = merge_sort Z.le v') as E.
  { apply (StronglySorted_unique Z.le); [apply StronglySorted_merge_sort; apply _..|]. by rewrite !merge_sort_Permutation. }
  unfold percentile. rewrite E, (Permutation_length Hv).
  destruct v as [|x v], v' as [|x' v']; try done; [by apply Permutation_nil_l in Hv|by apply Permutation_nil_r in Hv].
Qed.

(** The index for [i + 1], [i + 2], ... [i + k] latencies is the exact one. *)
Fixpoint exact_from (p : Z) (k : nat) (i : Z) : bool :=
  match k with
  | O => true
  | S k => (percentile_index p (i + 1) =? p * i / 100) && exact_from p k (i + 1)
  end.

Lemma exact_from_spec p k i n : exact_from p k i = true → i < n ≤ i + Z.of_nat k → percentile_index p n = p * (n - 1) / 100.
Proof.
  revert i. induction k as [|k IH]; intros i H Hn; [lia|]. cbn [exact_from] in H. apply andb_true_iff in H as [H1 H2].
  destruct (decide (n = i + 1)) as [->|]; [|apply (IH (i + 1)); [done|lia]].
  apply Z.eqb_eq in H1. by rewrite Z.add_simpl_r.
Qed.

(** What the rounding of [p / 100.0] loses is given back by the rounding of the
    product, for up to the thousand latencies of a run with the default options. *)
Lemma percentile_index_exact p n :
  p ∈ [50; 95; 99; 100] → 1 ≤ n ≤ 1000 → percentile_index p n = p * (n - 1) / 100.
Proof.
  intros Hp Hn. apply (exact_from_spec p 1000 0); [|lia].
  assert (forallb (λ p, exact_from p 1000 0) [50; 95; 99; 100] = true) as H by (vm_compute; reflexivity).
  rewrite forallb_forall in H. by apply H, list_elem_of_In.
Qed.

(** A negative number of connections, converted to [std::size_t], is more than
    a vector can hold, and [reserve] throws. *)
Lemma bench_negative_throws env argv opt :
  (∀ n, 2 ^ 63 ≤ n → reserves env n = false) →
  bench_args argv default_BenchOptions = Some opt → - 2 ^ 31 ≤ conns opt < 0 → bench_main env argv = Ret BenchThrew.
Proof.
  intros Hr Ho Hc. unfold bench_main. rewrite Ho. destruct (negb _); [done|].
  assert (wrap64 (conns opt) = conns opt + 2 ^ 64) as ->.
  { unfold wrap64. rewrite <- (Z_mod_plus_full _ 1), Z.mod_small; lia. }
  by rewrite Hr by lia.
Qed.

(** ** Properties *)

(** The fuzz target never traps, whatever the input. *)
Theorem fuzz_never_traps (input : bytes) : LLVMFuzzerTestOneInput input = Some 0.
Proof.
  unfold LLVMFuzzerTestOneInput. case_bool_decide as Hs.
  - apply parse_request_ok_bounds in Hs. by rewrite (proj2 (Nat.ltb_ge _ _)) by lia.
  - destruct (parse_request_not_ok input Hs) as [-> _]. done.
Qed.

(** The percentiles are those of the sorted latencies: the value at the index
    that the fraction gives, and for 100 the largest. *)
Lemma percentile_spec v p :
  p ∈ [50; 95; 99; 100] → 1 ≤ Z.of_nat (length v) ≤ 1000 →
  ∃ x, percentile v p = Ret x ∧
    merge_sort Z.le v !! Z.to_nat (p * (Z.of_nat (length v) - 1) / 100) = Some x ∧ x ∈ v ∧
    (p = 100 → Forall (λ y, y ≤ x) v).
Proof.
  intros Hp Hn. unfold percentile. destruct v as [|y v]; [cbn in Hn; lia|]. set (l := y :: v) in *.
  rewrite percentile_index_exact by done. pose proof (merge_sort_Permutation Z.le l) as Hperm.
  destruct (lookup_lt_is_Some_2 (merge_sort Z.le l) (Z.to_nat (p * (Z.of_nat (length l) - 1) / 100))) as [x Hx].
  { rewrite (Permutation_length Hperm). rewrite !list_elem_of_In in Hp. cbn in Hp.
    enough (p * (Z.of_nat (length l) - 1) / 100 < Z.of_nat (length l)) by lia.
    apply Z.div_lt_upper_bound; [lia|]. destruct Hp as [<-|[<-|[<-|[<-|[]]]]]; lia. }
  exists x. rewrite Hx. split_and!; [done..| |].
  - rewrite <- Hperm. by eapply list_elem_of_lookup_2.
  - intros ->. rewrite <- Hperm. clear Hp. replace (100 * (Z.of_nat (length l) - 1) / 100) with (Z.of_nat (length l) - 1) in Hx
      by (rewrite Z.mul_comm, Z.div_mul; lia).
    pose proof (StronglySorted_merge_sort Z.le l) as Hs. rewrite <- (Permutation_length Hperm) in Hx.
    revert Hs Hx. generalize (merge_sort Z.le l). intros k Hs Hx. destruct k as [|a k] using rev_ind; [done|].
    rewrite length_app, lookup_app_r in Hx by (cbn; lia). cbn [length] in Hx.
    replace (Z.to_nat (Z.of_nat (length k + 1) - 1) - length k)%nat with 0%nat in Hx by lia. injection Hx as ->.
    apply Forall_forall. intros z [Hz|Hz%list_elem_of_singleton]%elem_of_app; [|lia].
    by eapply (StronglySorted_app_1_elem_of Z.le k [x]); [|exact Hz|apply list_elem_of_singleton].
Qed.

(** The report of the connection scaler adds up.  Every connection asked
    for is counted as established or failed, every PING on an established one
    as a round trip or an error, and the status is 0 exactly when nothing
    failed; then there is a latency for each round of each connection. *)
Theorem bench_report_adds_up env argv opt established failed latencies errors percentiles st :
  bench_args argv default_BenchOptions = Some opt →
  bench_main env argv = Ret (BenchReport established failed latencies errors percentiles st) →
  established + failed = Z.max 0 (conns opt) ∧ 0 ≤ failed ∧ 0 ≤ errors ∧
  Z.of_nat (length latencies) + errors = Z.max 0 (rounds opt) * established ∧
  (st = 0 ↔ failed = 0 ∧ errors = 0) ∧
  (st = 0 → Z.of_nat (length latencies) = Z.max 0 (rounds opt) * Z.max 0 (conns opt)).
Proof.
  intros Ho H. unfold bench_main in H. rewrite Ho in H. destruct (negb _); [done|]. destruct (negb _); [done|].
  pose proof (connect_loop_counts env (Z.to_nat (conns opt)) 0 [] 0) as Hc.
  destruct (connect_loop _ _ _ _ _) as [sockets f]. destruct (negb _); [done|].
  apply bind_Ret in H as ([l e] & Hp%ping_rounds_counts & H).
  do 4 apply bind_Ret in H as (? & _ & H). injection H as <- <- <- <- _ <-. cbn [length] in *.
  assert (Z.of_nat (Z.to_nat (conns opt)) = Z.max 0 (conns opt)) as E1 by lia.
  assert (Z.of_nat (Z.to_nat (rounds opt)) = Z.max 0 (rounds opt)) as E2 by lia. rewrite E1 in Hc. rewrite E2 in Hp.
  assert (bench_status f e = 0 ↔ f = 0 ∧ e = 0) as Hst
    by (unfold bench_status; destruct (Z.eqb_spec f 0), (Z.eqb_spec e 0); cbn; naive_solver lia).
  do 4 (split; [lia|]). split; [exact Hst|]. intros [-> ->]%Hst. rewrite Z.add_0_r in *.
  assert (Z.of_nat (length sockets) = Z.max 0 (conns opt)) as <- by lia. lia.
Qed.

(** ** Witnesses *)

Definition calm : bench_env :=
  mkBenchEnv (λ _, true) (λ n, n <? 2 ^ 60) (λ i, Nat.eqb i 1) (λ _ _, mkTrip false false 100 250).

Definition three_conns : list bytes := [bs "--conns"; bs "3"; bs "--rounds"; bs "2"].

(** Three connections of which one is refused, two rounds. *)
Lemma bench_report_adds_up_witness :
  bench_main calm three_conns = Ret (BenchReport 2 1 [150; 150; 150; 150] 0 [150; 150; 150; 150] 1) ∧
  4 + 0 = Z.max 0 2 * 2.
Proof.
  assert (bench_main calm three_conns = Ret (BenchReport 2 1 [150; 150; 150; 150] 0 [150; 150; 150; 150] 1)) as H
    by (vm_compute; reflexivity).
  split; [exact H|].
  destruct (bench_report_adds_up calm three_conns (mkBenchOptions (bs "127.0.0.1") 6379 3 2) 2 1 [150; 150; 150; 150] 0
    [150; 150; 150; 150] 1 eq_refl H) as (_ & _ & _ & Hl & _). exact Hl.
Defined.
